(* ===== verification/_CoqProject ===== *)
-Q . S2P
Prelude.v
Varint.v
KvCodec.v
Wire.v
Crc.v
WalRecord.v
Proto.v
Range.v
SortKvs.v
State.v
Store.v
Historical.v
Txn.v
Recovery.v
Background.v
System.v
CodecProps.v
Replay.v
Durability.v
Sync.v
ReadProps.v
HistRead.v
Notify.v
OpProps.v
Preserve.v
Expiry.v
TxnProps.v
TxnTotal.v
LeaseProps.v
Availability.v
WatchStream.v
WatchProps.v
WatchService.v
WatchServiceProps.v
WatchFeed.v
WatchLog.v
SortBench.v
UnitTests.v
CodecTests.v
Legacy.v
Tools.v
Maintenance.v
Services.v
Kine.v
Text.v
StatusTask.v
Load.v
Bench.v
