(* ===== verification/Prelude.v ===== *)
(** * Rudurru: a mechanised model of an etcd v3 store

    Rudurru is a single-node server speaking the etcd v3 gRPC API. All its data
    lives in memory under one lock ([StoreState], src/src/storage/state.rs) and in
    one append-only write-ahead log (src/src/storage/wal.rs); there is no other
    database file. A write allocates a revision, appends a checksummed record to
    the log, applies it to the in-memory key map and hands an event to the
    watchers. A read of the current revision walks the map; a read of a past
    revision combines what the map still knows with a scan of the log. At start-up
    the log is replayed. A background task rewrites the log as a snapshot of the
    live keys. This library models that program and proves that those parts fit
    together.

    ** Files and the sources they model

    Paths are relative to src/src/.

    - [Prelude]: machine integers as [Z] with their wrap-around, bytes,
      little-endian fields, Rust's byte-string order, [BTreeMap] iteration and its
      panicking [range], gRPC status codes, the [outcome] of fallible code
      ([Ok] / [Err status] / [Panic]).
    - [Varint], [KvCodec], [Wire]: storage/wal.rs (varints, [encode_kv], offset
      readers), the cursor [parse_kv] of storage/store.rs, [with_mod_revision] of
      storage/state.rs, and the interface of the generated protobuf decoder.
    - [Crc], [WalRecord]: the record layout, [KvWalRecord::new], [serialize],
      [deserialize], the streaming scan, counting, and the append operations of
      [WalFile], with the outcome of every physical write as part of the file, so
      that failed and torn writes are covered.
    - [Proto]: the messages of proto/rpc.proto the server reads and writes.
    - [Range]: storage/mod.rs ([resolve_range], [prefix_end], [matches_range],
      [btree_bounds]) and the interval arithmetic of [check_txn_branch].
    - [SortKvs]: [sort_kvs] of storage/store.rs with its selection shortcut;
      [SortBench]: the routines it replaced, kept by the benchmark in storage/mod.rs.
    - [State]: storage/state.rs, storage/watcher.rs, storage/apply.rs: the record
      [StoreState], revision and lease-id allocation, [apply], [apply_delete],
      [apply_record], [notify_watchers], in the state-and-error monad [M].
    - [Store]: the KV, lease and maintenance operations of storage/store.rs.
    - [Historical]: [scan_wal_range] and the three phases of [range_historical];
      each phase is given the state it sees, as the lock is released in between.
    - [Txn]: [eval_compare] and [txn], nested transactions, lazily allocated
      revision, historical ranges deferred until after the write lock.
    - [Recovery]: [Store::open] and the three phases of [compact_wal] as separate
      steps.
    - [Background]: one round of each task of storage/background.rs.
    - [Expiry]: the expiry task of storage/background.rs step by step, with a clock
      and the permit of its notification; commands and time pass between the steps.
    - [Sync]: the fsync task of storage/background.rs and the file operations of
      [compact_wal], with what has reached the medium: a machine that can lose power.
    - [WatchStream]: server/watch.rs, the sequential pieces: requests, admission,
      duplicate rejection, two-phase replay, registration, responses.
    - [WatchService]: server/watch.rs, the tasks: one per client stream, one per
      watch, the batching loop and its timer, with the channels between them. [next]
      performs one step of one task; [svc_run] is a run with its labels.
    - [Services]: server/kv.rs, server/lease.rs, server/cluster.rs, server/auth.rs,
      and the services main.rs puts on one store; handlers return the lines they
      log.
    - [Maintenance]: server/maintenance.rs.
    - [Legacy]: the old record format of storage/wal.rs and bin/wal_migrate.rs.
    - [Tools]: bin/waldoctor.rs, bin/walverify.rs, bin/walrecover.rs and
      bin/walverify_new.rs.
    - [Kine]: bin/migrate.rs.
    - [Text]: decimal integers, lines and trimming, as Rust's library has them.
    - [StatusTask]: the status task of main.rs and [read_proc_mem].
    - [Load]: bin/stress.rs, bin/wipe_stress.rs, bin/concurrent_put.rs,
      bin/compact.rs and the key ranges of the workers of bin/bench.rs; [Bench]: every
      call of bin/bench.rs.
    - [UnitTests], [CodecTests]: the test modules of storage/mod.rs, storage/apply.rs,
      server/watch.rs, storage/wal.rs and storage/state.rs, as programs over the model.

    ** How the theorems are built

    [System] reduces every handler to a few primitive transitions ([trans]: a
    revision is taken, a record is logged and applied, a write fails, bookkeeping
    changes) and proves the memory invariant [inv] preserved by each; [runs] is the
    Hoare-style rule set that carries this through the monadic code. [Replay] adds
    the abstract specification: the [view] is the map from live keys to value,
    modification revision and lease, and a log denotes the fold of its records.
    [Durability] closes the loop: [sys_step] interleaves client commands, task
    rounds, the phases of a log compaction and restarts; [sys_inv] is inductive.

    - Durability (Durability): [durable_recovery], [crash_recovery],
      [exact_recovery], [compaction_reload], [reachable_well_formed].
    - Power failure (Sync): what is on the medium opens as a moment at or after the
      last completed sync of the file the path names; nothing is missing while the
      dirty flag is clear and the renames of compactions have reached the directory.
    - Expiry (Expiry): no overdue lease is slept past.
    - Operations (OpProps, TxnProps): the complete behaviour of put, delete, lease
      and compaction requests on every branch; a transaction refines the pure
      [op_step] semantics at one revision and answers each operation accordingly
      ([answered]); failed writes change nothing in memory but the revision counter.
    - Transactions among other tasks (TxnTotal): the exact condition under which a
      transaction answers ([txn_accepts]), and its deferred reads interleaved with
      the commands of other tasks ([txn_among], [Meanwhile]).
    - Leases (LeaseProps): the lease of a live key exists, in every reachable state;
      renewing and inspecting leases.
      [Preserve] is the interface: a predicate kept by the primitive updates ([Kept])
      is kept by every command.
    - Availability (Availability): the verdict on a request, answered, refused or
      fatal, computed from the request and the state ([txn_verdict] and the like; the
      rules of [judges] carry it through the monadic code).
    - Reads (ReadProps, HistRead): the answer of a current read equals its
      declarative reading; a past read answers from the folded log, also when other
      tasks write between its lock sections ([range_locks]).
    - Watches (Notify, WatchProps): each event is delivered to exactly the watchers
      that want it; a batch of watches set up while writes go on sees the log without
      gap or repetition.
    - The tasks of the Watch service (WatchServiceProps, WatchFeed): in all
      interleavings every create is answered within a bounded number of steps of the
      loop ([flight_ok] accounts for every create in flight); a client receives, per
      watch, the answer and then a prefix of the watch's events ([feed_ok]); and
      forwarding can always catch up.
    - From request to log (WatchLog): [registered] picks the moments of a run at which
      a client's request was read, its batch took the checkpoint and its watch was
      registered; what the client receives is what the log holds for it ([due]),
      before, during and after the replay.
    - Services (Services): which requests the server answers, refuses and dies of, and
      what it restarts with; what a keep-alive stream delivers.
    - Formats (CodecProps, Legacy, Maintenance): every reader agrees with every
      writer, the record reader accepts exactly what was written, scans of torn
      logs, migration and the snapshot stream; and exactly which transactions their
      validation accepts ([txn_validation_exact]).
    - Tools (Tools, Kine): the scanning loops end on every input, within the buffer,
      with records that lie in it one behind the other; walrecover then
      wal_migrate save exactly the records of a log that are intact, where the others
      are still framed; walverify_new agrees with the
      server; the kine migration creates exactly what is missing.
    - Binaries (StatusTask, Load, Bench): the status datagram reads back as the store's
      figures; the keys of a load run are exactly those a wipe deletes; a write
      guarded by the revision a client read replaces exactly what it read, whatever
      others do in between; what the benchmark leaves behind.
    - Sorting (SortBench): the store's one-pass sort against the full decoding it
      replaced.
    - The model against the code's own tests (UnitTests, CodecTests): the 99 tests the
      library runs pass on the model, the one that races a compaction in each of its
      interleavings ([unit_tests_pass], [codec_tests_pass]).

    Where the code departs from its documentation an [Example] evaluates the model
    on a concrete run (for instance [HistRead.deleted_key_resurrected],
    [TxnProps.txn_failure_leaves_writes]); the hypotheses of the general theorems
    say which situations they exclude.

    ** Bounds, fuel and parameters

    Arithmetic wraps, as in the release profile. Revisions are u64 in the log and
    i64 in the API; theorems about writes assume room for the revisions they take
    ([room]). Keys of put requests are short enough for the u16 offset of the
    record header ([kv_fits]); longer ones break the format (see [KvCodec]).
    Loops whose recursion is not structural take fuel, always the length of the
    buffer they consume plus one: every round consumes at least one byte (13 for a
    log record, 23 for an old one, one chunk for a snapshot), and the scan lemmas
    show the result does not depend on extra fuel. Varints take ten rounds.

    The stream channel of a watch holds 4096 responses, as in the code; event
    channels are unbounded. The lock sections in which one flush admits, rejects and
    answers its requests are taken together, at one state of the store; the sections
    that read the log, and the registration, are steps of their own. Runs of the Watch service assume well-sized commands
    from the other users of the store and no swap of a compacted log while a flush
    holds a checkpoint ([label_ok]), which the code does not ensure (see
    [WatchProps.compaction_during_flush_loses_events]).

    Code outside the sources is a parameter with its documented behaviour as laws:
    the crc32c crate ([Crc32c], instantiated by the bitwise CRC of the tools), the
    prost decoder ([KvDecoder], instantiated by [ref_decode]) and the unstable sort
    and selection of slices ([UnstableSort], instantiated by a merge sort). Hash
    functions and clocks are arguments.

    A power failure cuts the unsynced end of a file at any byte; it does not reorder
    or damage appended bytes. The rename of a compaction reaches the directory at some
    later moment of the file system's choosing ([PwDirectory]), since the code never
    syncs the directory; until then a failure brings back the replaced file (see
    [Sync.rename_not_committed]).

    The client library of the load generators is a parameter where it computes
    ([selects_prefix]: the end of a prefix range) and a label where it communicates
    ([Net]: a call is answered, or its request or its reply is lost).

    ** Not modelled

    Metrics other than the status datagram, and the log lines of everything but the
    KV and Lease handlers; tokio scheduling beyond the interleaving of the steps
    above; the gRPC transport beyond the rule that an error item ends its call, and
    ordering of unary requests in flight (a request is one step, except for the lock
    sections of reads and transactions); environment variables, sockets and shutdown of
    main.rs; the argument parsing and text layout of the tools; the SQLite
    connection of bin/migrate.rs; latencies, rates and the statistics over them, which
    are floating-point; generated code and client.rs; the ignored tests, which have no
    body, and the temporary files of the others.

    ** Order of the work

    First the formats, the state, KV, leases, transactions, recovery and watches;
    then the tasks of the Watch service, the other services and the tools; then
    power failures, the expiry task in time, the conditions under which transactions
    answer, and the binaries; last the path from a watch request to the log, the
    guarded update, the replaced sort and the test modules. Not covered: the Watch
    service under a log swap during a flush, where the code loses events. *)
From Stdlib Require Export ZArith Lia.
From coqutil Require Export Byte.
From coqutil Require Import Word.LittleEndianList Z.bitblast.
From stdpp Require Export sorting base numbers option strings fin_maps fin_map_dom gmap list.
Local Open Scope Z_scope.

(** Facts the components share with [eauto with rudurru] / [autorewrite]. *)
Create HintDb rudurru.

(** ** Machine integers

    A value of a [w]-bit Rust integer type is a [Z]; casts and wrapping
    arithmetic are written out. *)

Abbreviation bytes := (list byte) (only parsing).

Definition u8_max : Z := 255.
Definition u16_wrap (z : Z) : Z := z mod 2 ^ 16.
Definition u32_wrap (z : Z) : Z := z mod 2 ^ 32.
Definition u64_wrap (z : Z) : Z := z mod 2 ^ 64.

(** [x as i64] for a 64-bit [x]: two's complement reinterpretation. *)
Definition i64_wrap (z : Z) : Z := (z + 2 ^ 63) mod 2 ^ 64 - 2 ^ 63.

#[global] Arguments u16_wrap _ : simpl never.
#[global] Arguments u32_wrap _ : simpl never.
#[global] Arguments u64_wrap _ : simpl never.
#[global] Arguments i64_wrap _ : simpl never.

Definition is_u16 (z : Z) : Prop := 0 <= z < 2 ^ 16.
Definition is_u32 (z : Z) : Prop := 0 <= z < 2 ^ 32.
Definition is_u64 (z : Z) : Prop := 0 <= z < 2 ^ 64.
Definition is_i64 (z : Z) : Prop := - 2 ^ 63 <= z < 2 ^ 63.

Lemma u64_wrap_small z : is_u64 z -> u64_wrap z = z.
Proof. unfold is_u64, u64_wrap. intros. apply Z.mod_small; lia. Qed.
Lemma u32_wrap_small z : is_u32 z -> u32_wrap z = z.
Proof. unfold is_u32, u32_wrap. intros. apply Z.mod_small; lia. Qed.
Lemma u16_wrap_small z : is_u16 z -> u16_wrap z = z.
Proof. unfold is_u16, u16_wrap. intros. apply Z.mod_small; lia. Qed.
Lemma i64_wrap_small z : is_i64 z -> i64_wrap z = z.
Proof. unfold is_i64, i64_wrap. intros. rewrite Z.mod_small; lia. Qed.

Lemma u64_wrap_range z : is_u64 (u64_wrap z).
Proof. apply Z.mod_pos_bound. lia. Qed.
Lemma i64_wrap_range z : is_i64 (i64_wrap z).
Proof.
  unfold is_i64, i64_wrap.
  pose proof (Z.mod_pos_bound (z + 2 ^ 63) (2 ^ 64)). lia.
Qed.

(** Casting [i64 -> u64 -> i64] (and back) is the identity. *)
Lemma i64_of_u64_of_i64 z : is_i64 z -> i64_wrap (u64_wrap z) = z.
Proof.
  intros H. unfold i64_wrap, u64_wrap.
  rewrite Zplus_mod_idemp_l. fold (i64_wrap z). by apply i64_wrap_small.
Qed.
Lemma u64_i64_wrap z : u64_wrap (i64_wrap z) = u64_wrap z.
Proof.
  unfold u64_wrap, i64_wrap. rewrite Zminus_mod_idemp_l. f_equal. lia.
Qed.

Lemma u64_of_i64_of_u64 z : is_u64 z -> u64_wrap (i64_wrap z) = z.
Proof.
  intros H. unfold i64_wrap, u64_wrap.
  rewrite Zminus_mod_idemp_l, Z.add_simpl_r. by apply Z.mod_small.
Qed.

(** ** Bytes *)

Abbreviation u8 := byte.unsigned.
Abbreviation to_u8 := byte.of_Z.

#[global] Instance byte_eq_dec : EqDecision Byte.byte.
Proof. intros x y. apply Byte.byte_eq_dec. Defined.

#[global] Instance byte_countable : Countable Byte.byte :=
  inj_countable Byte.to_N Byte.of_N Byte.of_to_N.

Lemma u8_range b : 0 <= u8 b < 256.
Proof. exact (byte.unsigned_range b). Qed.

Lemma u8_to_u8 z : 0 <= z < 256 -> u8 (to_u8 z) = z.
Proof. intros. rewrite byte.unsigned_of_Z. apply Z.mod_small. lia. Qed.

Lemma u8_inj a b : u8 a = u8 b -> a = b.
Proof. apply byte.unsigned_inj. Qed.

Lemma to_u8_u8 b : to_u8 (u8 b) = b.
Proof. apply u8_inj, u8_to_u8, u8_range. Qed.

(** Byte-string literals. *)
Definition lit (s : string) : bytes := String.list_byte_of_string s.

(** Little-endian fixed-width integers ([to_le_bytes] / [from_le_bytes]). *)
Definition to_le (n : nat) (z : Z) : bytes := le_split n z.
Definition from_le (bs : bytes) : Z := le_combine bs.

Lemma length_to_le n z : length (to_le n z) = n.
Proof. apply length_le_split. Qed.

Lemma from_le_to_le n z : 0 <= z < 2 ^ (Z.of_nat n * 8) -> from_le (to_le n z) = z.
Proof.
  intros. unfold from_le, to_le. rewrite le_combine_split. by apply Z.mod_small.
Qed.

Lemma from_le_range bs : 0 <= from_le bs < 2 ^ (8 * Z.of_nat (length bs)).
Proof. apply le_combine_bound. Qed.

Lemma to_le_from_le n bs : length bs = n -> to_le n (from_le bs) = bs.
Proof. apply split_le_combine'. Qed.

(** ** Errors

    [Result<T, tonic::Status>] with one more outcome: a Rust panic, which the
    release profile ([panic = "abort"]) turns into the death of the process. *)

Inductive Code :=
| InvalidArgument | NotFound | OutOfRange | FailedPrecondition | Internal | Unimplemented.

#[global] Instance Code_eq_dec : EqDecision Code.
Proof. solve_decision. Defined.

Record Status := mkStatus { code : Code; message : string }.

#[global] Instance Status_eq_dec : EqDecision Status.
Proof. solve_decision. Defined.

Inductive outcome (A : Type) :=
| Ok (a : A)
| Err (e : Status)
| Panic (why : string).
Arguments Ok {A} a.
Arguments Err {A} e.
Arguments Panic {A} why.

Definition is_ok {A} (o : outcome A) : bool := match o with Ok _ => true | _ => false end.

Definition outcome_bind {A B} (o : outcome A) (f : A -> outcome B) : outcome B :=
  match o with
  | Ok a => f a
  | Err e => Err e
  | Panic w => Panic w
  end.

Declare Scope outcome_scope.
Delimit Scope outcome_scope with outcome.
Notation "'let?' x := o 'in' k" := (outcome_bind o (fun x => k))
  (at level 10, x pattern, o at level 100, k at level 200) : outcome_scope.
#[global] Open Scope outcome_scope.

(** A short-circuiting [option] chain, the [?] operator on [Option]. *)
Notation "'let!' x := o 'in' k" := (match o with Some x => k | None => None end)
  (at level 10, x pattern, o at level 100, k at level 200).

(** ** Lexicographic order on byte strings ([Ord for [u8]]) *)

Fixpoint bytes_cmp (a b : bytes) : comparison :=
  match a, b with
  | [], [] => Eq
  | [], _ :: _ => Lt
  | _ :: _, [] => Gt
  | x :: a', y :: b' =>
      match u8 x ?= u8 y with
      | Eq => bytes_cmp a' b'
      | c => c
      end
  end.

Definition bytes_ltb (a b : bytes) : bool := match bytes_cmp a b with Lt => true | _ => false end.
Definition bytes_leb (a b : bytes) : bool := match bytes_cmp a b with Gt => false | _ => true end.
Definition bytes_lt (a b : bytes) : Prop := bytes_cmp a b = Lt.
Definition bytes_le (a b : bytes) : Prop := bytes_cmp a b <> Gt.

Lemma bytes_cmp_eq a b : bytes_cmp a b = Eq <-> a = b.
Proof.
  split; [|intros ->].
  - revert b; induction a as [|x a IH]; intros [|y b]; simpl; try done.
    destruct (Z.compare_spec (u8 x) (u8 y)) as [E| |]; try done.
    intros H%IH. f_equal; [by apply u8_inj|done].
  - induction b as [|y b IH]; simpl; [done|]. by rewrite Z.compare_refl.
Qed.

Lemma bytes_cmp_refl a : bytes_cmp a a = Eq.
Proof. by apply bytes_cmp_eq. Qed.

Lemma bytes_cmp_antisym a b : bytes_cmp b a = CompOpp (bytes_cmp a b).
Proof.
  revert b; induction a as [|x a IH]; intros [|y b]; simpl; try done.
  rewrite (Z.compare_antisym (u8 x) (u8 y)).
  destruct (u8 x ?= u8 y); simpl; auto.
Qed.

Lemma bytes_lt_trans a b c : bytes_lt a b -> bytes_lt b c -> bytes_lt a c.
Proof.
  unfold bytes_lt. revert b c.
  induction a as [|x a IH]; intros [|y b] [|z c]; simpl; try done.
  destruct (Z.compare_spec (u8 x) (u8 y)), (Z.compare_spec (u8 y) (u8 z)); try done;
    intros; destruct (Z.compare_spec (u8 x) (u8 z)); try done; try lia; eauto.
Qed.

Lemma bytes_le_lteq a b : bytes_le a b <-> bytes_lt a b \/ a = b.
Proof.
  unfold bytes_le, bytes_lt. rewrite <- bytes_cmp_eq.
  destruct (bytes_cmp a b); split; intros; intuition congruence.
Qed.

Lemma bytes_lt_irrefl a : ~ bytes_lt a a.
Proof. unfold bytes_lt. by rewrite bytes_cmp_refl. Qed.

Lemma bytes_not_lt a b : ~ bytes_lt a b <-> bytes_le b a.
Proof.
  unfold bytes_lt, bytes_le. rewrite (bytes_cmp_antisym a b).
  destruct (bytes_cmp a b); naive_solver.
Qed.

Lemma bytes_le_trans a b c : bytes_le a b -> bytes_le b c -> bytes_le a c.
Proof.
  rewrite !bytes_le_lteq. intros [?| ->] [?| ->]; auto. left. by eapply bytes_lt_trans.
Qed.

Lemma bytes_lt_le_trans a b c : bytes_lt a b -> bytes_le b c -> bytes_lt a c.
Proof. rewrite bytes_le_lteq. intros ? [?| ->]; [by eapply bytes_lt_trans|done]. Qed.

Lemma bytes_le_lt_trans a b c : bytes_le a b -> bytes_lt b c -> bytes_lt a c.
Proof. rewrite bytes_le_lteq. intros [?| ->] ?; [by eapply bytes_lt_trans|done]. Qed.

#[global] Instance bytes_lt_dec a b : Decision (bytes_lt a b).
Proof. unfold bytes_lt. apply _. Defined.
#[global] Instance bytes_le_dec a b : Decision (bytes_le a b).
Proof. unfold bytes_le. apply _. Defined.

Lemma bytes_ltb_lt a b : bytes_ltb a b = true <-> bytes_lt a b.
Proof. unfold bytes_ltb, bytes_lt. destruct (bytes_cmp a b); naive_solver. Qed.
Lemma bytes_leb_le a b : bytes_leb a b = true <-> bytes_le a b.
Proof. unfold bytes_leb, bytes_le. destruct (bytes_cmp a b); naive_solver. Qed.

Lemma bytes_nil_le a : bytes_le [] a.
Proof. by destruct a. Qed.

(** ** Lists *)

Lemma foldl_ext_elem {A B} (f g : A -> B -> A) a l :
  (forall a b, b ∈ l -> f a b = g a b) -> foldl f a l = foldl g a l.
Proof.
  revert a. induction l as [|b l IH]; intros a Hfg; [done|]. cbn [foldl].
  rewrite Hfg by left. apply IH. intros a' b' Hin. apply Hfg. by right.
Qed.

Lemma foldl_keeps {A B} (P : A -> Prop) (f : A -> B -> A) a l : (forall a b, P a -> P (f a b)) -> P a -> P (foldl f a l).
Proof. intros Hf. revert a. induction l as [|b l IH]; intros a Ha; [done|]. by apply IH, Hf. Qed.

Lemma NoDup_fmap_elem {A B} (f : A -> B) (l : list A) x y : NoDup (f <$> l) -> x ∈ l -> y ∈ l -> f x = f y -> x = y.
Proof.
  intros Hnd [i Hi]%list_elem_of_lookup [j Hj]%list_elem_of_lookup E.
  assert (i = j) as -> by (eapply (NoDup_lookup (f <$> l)); rewrite ?list_lookup_fmap, ?Hi, ?Hj; cbn; by rewrite ?E).
  congruence.
Qed.

Lemma filter_none {A} (P : A -> Prop) `{!forall x, Decision (P x)} (l : list A) :
  Forall (fun x => ~ P x) l -> base.filter P l = [].
Proof.
  induction l as [|x l IH]; [done|]. intros [Hx Hl]%Forall_cons. rewrite filter_cons, decide_False by done. auto.
Qed.

Lemma filter_all {A} (P : A -> Prop) `{!forall x, Decision (P x)} (l : list A) :
  Forall P l -> base.filter P l = l.
Proof.
  induction l as [|x l IH]; [done|]. intros [Hx Hl]%Forall_cons. rewrite filter_cons, decide_True by done.
  f_equal. auto.
Qed.

Lemma filter_filter {A} (P Q : A -> Prop) `{!forall x, Decision (P x), !forall x, Decision (Q x)} (l : list A) :
  base.filter P (base.filter Q l) = base.filter (fun x => P x /\ Q x) l.
Proof.
  induction l as [|x l IH]; [done|]. rewrite !filter_cons.
  destruct (decide (Q x)); [rewrite filter_cons|]; repeat case_decide; try tauto; by rewrite IH.
Qed.

Lemma filter_sublist_fst {A B} (P : A * B -> Prop) `{!forall x, Decision (P x)} (l : list (A * B)) :
  (base.filter P l).*1 `sublist_of` l.*1.
Proof.
  induction l as [|x l IH]; [done|]. rewrite filter_cons.
  destruct (decide (P x)); cbn; by constructor.
Qed.

Lemma StronglySorted_sublist {A} (R : relation A) l1 l2 :
  l1 `sublist_of` l2 -> StronglySorted R l2 -> StronglySorted R l1.
Proof.
  induction 1 as [|x l1 l2 Hs IH|x l1 l2 Hs IH]; [done|..]; rewrite ?StronglySorted_cons; intros [Hf Hss].
  - split; [|auto]. apply Forall_forall. intros y Hy.
    eapply Forall_forall in Hf; [done|]. by eapply elem_of_sublist.
  - auto.
Qed.

(** ** Ordered keys: what [BTreeMap] asks of its key type ([Ord]) *)

Class OrdKey (K : Type) `{Countable K} := {
  key_le : relation K;
  #[global] key_le_dec a b :: Decision (key_le a b);
  #[global] key_le_trans :: Transitive key_le;
  #[global] key_le_antisymm :: AntiSymm (=) key_le;
  #[global] key_le_total :: Total key_le
}.

#[global] Program Instance bytes_ord : OrdKey (list Byte.byte) := {| key_le := bytes_le |}.
Next Obligation. intros a b c. apply bytes_le_trans. Qed.
Next Obligation.
  intros a b. rewrite !bytes_le_lteq. intros [Hab| ->] [Hba| ?]; try done.
  by destruct (bytes_lt_irrefl a); eapply bytes_lt_trans.
Qed.
Next Obligation.
  intros a b. rewrite <- (bytes_not_lt b a).
  destruct (decide (bytes_lt b a)); [right; apply bytes_le_lteq|left]; auto.
Qed.

#[global] Program Instance Z_ord : OrdKey Z := {| key_le := Z.le |}.

(** ** [BTreeMap]: a finite map iterated in ascending key order *)

Section BTreeMap.
Context {K : Type} `{OrdKey K} {V : Type}.
Implicit Types m : gmap K V.

Definition entry_le (a b : K * V) : Prop := key_le a.1 b.1.

#[global] Instance entry_le_dec a b : Decision (entry_le a b).
Proof. unfold entry_le. apply _. Defined.

(** [BTreeMap::iter]. *)
Definition btree_iter m : list (K * V) := merge_sort entry_le (map_to_list m).

Lemma elem_of_btree_iter m k v : (k, v) ∈ btree_iter m <-> m !! k = Some v.
Proof.
  unfold btree_iter. rewrite (merge_sort_Permutation entry_le (map_to_list m)).
  apply elem_of_map_to_list.
Qed.

Lemma btree_iter_NoDup m : NoDup (btree_iter m).*1.
Proof.
  unfold btree_iter. rewrite (merge_sort_Permutation entry_le (map_to_list m)).
  apply NoDup_fst_map_to_list.
Qed.

Lemma btree_iter_sorted m : StronglySorted key_le (btree_iter m).*1.
Proof.
  apply (StronglySorted_fmap fst entry_le); [by intros ??|].
  apply StronglySorted_merge_sort.
  - intros [] [] []. unfold entry_le. simpl. apply key_le_trans.
  - intros [] []. unfold entry_le. simpl. apply key_le_total.
Qed.

Lemma btree_iter_length m : length (btree_iter m) = size m.
Proof.
  unfold btree_iter. rewrite (merge_sort_Permutation entry_le (map_to_list m)).
  apply length_map_to_list.
Qed.

(** The iteration order is the only sorted enumeration of the map. *)
Lemma btree_iter_unique l m :
  StronglySorted key_le l.*1 -> NoDup l.*1 ->
  (forall k v, (k, v) ∈ l <-> m !! k = Some v) -> l = btree_iter m.
Proof.
  intros Hs Hnd Hin.
  assert (l ≡ₚ btree_iter m) as Hp.
  { apply NoDup_Permutation.
    - by apply NoDup_fmap_1 in Hnd.
    - by eapply NoDup_fmap_1, btree_iter_NoDup.
    - intros [k v]. by rewrite Hin, elem_of_btree_iter. }
  assert (l.*1 = (btree_iter m).*1) as Hk.
  { eapply (StronglySorted_unique key_le); [done|apply btree_iter_sorted|by rewrite Hp]. }
  apply list_eq. intros i.
  destruct (l !! i) as [[k v]|] eqn:E1, (btree_iter m !! i) as [[k' v']|] eqn:E2; try done.
  - assert (l.*1 !! i = (btree_iter m).*1 !! i) as Ei by by rewrite Hk.
    rewrite !list_lookup_fmap, E1, E2 in Ei. simpl in Ei. injection Ei as <-.
    apply list_elem_of_lookup_2, Hin in E1. apply list_elem_of_lookup_2, elem_of_btree_iter in E2.
    by simplify_eq.
  - apply lookup_lt_Some in E1. apply lookup_ge_None in E2. rewrite Hp in E1. lia.
  - apply lookup_ge_None in E1. apply lookup_lt_Some in E2. rewrite Hp in E1. lia.
Qed.

Lemma btree_iter_filter (P : K * V -> Prop) `{!forall x, Decision (P x)} m :
  base.filter P (btree_iter m) = btree_iter (base.filter P m).
Proof.
  apply btree_iter_unique.
  - pose proof (btree_iter_sorted m) as Hs. revert Hs.
    induction (btree_iter m) as [|x l IH]; simpl; [constructor|].
    rewrite StronglySorted_cons. intros [Hf Hs]. rewrite filter_cons.
    destruct (decide (P x)); simpl; [|by apply IH].
    apply StronglySorted_cons. split; [|by apply IH].
    rewrite Forall_forall in Hf |- *. intros k (y & -> & Hy)%list_elem_of_fmap.
    apply list_elem_of_filter in Hy as [_ Hy]. apply Hf, list_elem_of_fmap. eauto.
  - pose proof (btree_iter_NoDup m) as Hn. revert Hn.
    induction (btree_iter m) as [|x l IH]; simpl; [done|].
    rewrite NoDup_cons. intros [Hx Hn]. rewrite filter_cons.
    destruct (decide (P x)); simpl; [|by apply IH].
    apply NoDup_cons. split; [|by apply IH].
    contradict Hx. apply list_elem_of_fmap in Hx as (y & E & Hy).
    apply list_elem_of_filter in Hy as [_ Hy]. apply list_elem_of_fmap. eauto.
  - intros k v. rewrite list_elem_of_filter, elem_of_btree_iter, map_lookup_filter_Some. naive_solver.
Qed.

(** [start <= k] and [k < end], each bound optional. *)
Definition in_bounds (lo hi : option K) (k : K) : Prop :=
  match lo with Some a => key_le a k | None => True end /\
  match hi with Some b => ~ key_le b k | None => True end.

#[global] Instance in_bounds_dec lo hi k : Decision (in_bounds lo hi k).
Proof. unfold in_bounds. destruct lo, hi; apply _. Defined.

(** [BTreeMap::range]: documented to panic when the start exceeds the end. *)
Definition btree_range (lo hi : option K) m : outcome (list (K * V)) :=
  match lo, hi with
  | Some a, Some b =>
      if decide (key_le a b)
      then Ok (base.filter (fun e => in_bounds lo hi e.1) (btree_iter m))
      else Panic "range start is greater than range end in BTreeMap"
  | _, _ => Ok (base.filter (fun e => in_bounds lo hi e.1) (btree_iter m))
  end.
End BTreeMap.

(** ** Runs of a labelled machine

    A component with tasks is a function from a label and a state to the next state,
    if the step is possible, and a side condition on the steps considered. *)

Section Labelled.
Context {L S : Type} (next : L -> S -> option S) (ok : L -> S -> Prop).

Definition lstep (l : L) (s s' : S) : Prop := ok l s /\ next l s = Some s'.

Inductive lrun : list L -> S -> S -> Prop :=
| lrun_nil s : lrun [] s s
| lrun_cons l ls s s1 s' : lstep l s s1 -> lrun ls s1 s' -> lrun (l :: ls) s s'.

(** The same, computed. *)
Fixpoint lall (ls : list L) (s : S) : option S :=
  match ls with
  | [] => Some s
  | l :: ls => match next l s with Some s => lall ls s | None => None end
  end.

Fixpoint lall_ok (ls : list L) (s : S) : Prop :=
  match ls with
  | [] => True
  | l :: ls => ok l s /\ match next l s with Some s => lall_ok ls s | None => True end
  end.

(** The state a run ends in. *)
Definition lend (ls : list L) (s : S) : S := default s (lall ls s).

Lemma lall_run ls s s' : lall_ok ls s -> lall ls s = Some s' -> lrun ls s s'.
Proof.
  revert s. induction ls as [|l ls IH]; intros s; cbn [lall lall_ok]; [intros _ [= <-]; apply lrun_nil|].
  intros [Hl Hls] E. destruct (next l s) as [s1|] eqn:En; [|done]. eapply lrun_cons; [by split|auto].
Qed.

Lemma lend_run ls s : lall_ok ls s -> is_Some (lall ls s) -> lrun ls s (lend ls s).
Proof. intros Hl [s' E]. apply lall_run; [done|]. unfold lend. by rewrite E. Qed.

Lemma lrun_app ls1 ls2 s s1 s' : lrun ls1 s s1 -> lrun ls2 s1 s' -> lrun (ls1 ++ ls2) s s'.
Proof. induction 1; [done|]. intros R. cbn. eapply lrun_cons; eauto. Qed.

Lemma lrun_split ls1 ls2 s s' : lrun (ls1 ++ ls2) s s' -> exists s1, lrun ls1 s s1 /\ lrun ls2 s1 s'.
Proof.
  revert s. induction ls1 as [|l ls1 IH]; intros s R; [exists s; split; [apply lrun_nil|done]|].
  inversion R as [|? ? ? s1 ? E R']; subst. destruct (IH _ R') as (s2 & R1 & R2). exists s2. split; [by eapply lrun_cons|done].
Qed.

Lemma lrun_one l s s' : lrun [l] s s' <-> lstep l s s'.
Proof.
  split; [|intros E; eapply lrun_cons; [done|apply lrun_nil]]. inversion 1 as [|? ? ? ? ? E R]; subst. by inversion R; subst.
Qed.

Lemma lrun_det ls s s1 s2 : lrun ls s s1 -> lrun ls s s2 -> s1 = s2.
Proof.
  induction 1 as [s|l ls s s1 s' [_ E] R IH]; inversion 1 as [|? ? ? ? ? [_ E'] R']; subst; [done|].
  apply IH. congruence.
Qed.

(** A predicate the steps keep. *)
Lemma lrun_keeps (P : S -> Prop) ls s s' :
  (forall l s s', lstep l s s' -> P s -> P s') -> lrun ls s s' -> P s -> P s'.
Proof. intros Hs. induction 1; eauto. Qed.

End Labelled.

(** Runs and facts about them, checked by evaluation. *)
Ltac by_running := vm_compute; repeat split; congruence.
