(* ===== verification/Varint.v ===== *)
(** * Variable-length integers (src/storage/wal.rs, lines 10-89)

    The WAL stores protobuf varints in two shapes: minimal ones and fixed-width
    "overlong" ones whose continuation bits are always set, so that a field can
    be read and overwritten in place. Both are sequences of 7-bit groups; the
    group view below carries every round-trip proof of the file. *)
From S2P Require Import Prelude.
From coqutil Require Import Z.bitblast.
Local Open Scope Z_scope.

Module Varint.

(** ** The code *)

Definition encode_overlong_u32 (v : Z) : bytes :=
  ((fun i => to_u8 (Z.lor (Z.land (Z.shiftr v (i * 7) mod 256) 127) 128)) <$> [0; 1; 2; 3])
  ++ [to_u8 (Z.land (Z.shiftr v 28 mod 256) 15)].

Definition decode_overlong_u32 (buf : bytes) : option Z :=
  if (length buf <? 5)%nat then None
  else Some (u32_wrap (foldl (fun v '(i, b) =>
         Z.lor v (u64_wrap (Z.shiftl (Z.land (u8 b) 127) (i * 7)))) 0
         (zip [0; 1; 2; 3; 4] (take 5 buf)))).

Definition encode_overlong_u64 (v : Z) : bytes :=
  ((fun i => to_u8 (Z.lor (Z.land (Z.shiftr v (i * 7) mod 256) 127) 128))
     <$> [0; 1; 2; 3; 4; 5; 6; 7; 8])
  ++ [to_u8 (Z.land (Z.shiftr v 63 mod 256) 1)].

Definition decode_overlong_u64 (buf : bytes) : option Z :=
  if (length buf <? 10)%nat then None
  else Some (foldl (fun v '(i, b) =>
         Z.lor v (u64_wrap (Z.shiftl (Z.land (u8 b) 127) (i * 7)))) 0
         (zip [0; 1; 2; 3; 4; 5; 6; 7; 8; 9] (take 10 buf))).

(** The [loop] of [encode_varint]; ten rounds exhaust any [u64]. *)
Fixpoint encode_varint_loop (fuel : nat) (v : Z) : bytes :=
  match fuel with
  | O => []
  | S fuel =>
      if v <? 128 then [to_u8 v]
      else to_u8 (Z.lor (v mod 256) 128) :: encode_varint_loop fuel (Z.shiftr v 7)
  end.

Definition encode_varint (v : Z) : bytes := encode_varint_loop 10 v.

(** The [for] loop of [decode_varint]: accumulator, shift and index. *)
Fixpoint decode_varint_loop (buf : bytes) (value shift : Z) (i : nat) : option (Z * nat) :=
  match buf with
  | [] => None
  | b :: buf' =>
      let value := Z.lor value (u64_wrap (Z.shiftl (Z.land (u8 b) 127) shift)) in
      if Z.land (u8 b) 128 =? 0 then Some (value, S i)
      else let shift := shift + 7 in
           if 63 <? shift then None else decode_varint_loop buf' value shift (S i)
  end.

Definition decode_varint (buf : bytes) : option (Z * nat) := decode_varint_loop buf 0 0 O.

(** ** 7-bit groups *)

(** Little-endian base-128 value of a list of groups. *)
Fixpoint groups_val (ds : list Z) : Z :=
  match ds with [] => 0 | d :: ds => d + 128 * groups_val ds end.

(** Wire form: every group but the last carries the continuation bit. *)
Fixpoint groups (ds : list Z) : bytes :=
  match ds with
  | [] => []
  | [d] => [to_u8 d]
  | d :: ds => to_u8 (128 + d) :: groups ds
  end.

Definition group_ok (d : Z) : Prop := 0 <= d < 128.

(** The first [n] groups of [v]. *)
Fixpoint split_groups (n : nat) (v : Z) : list Z :=
  match n with O => [] | S n => v mod 128 :: split_groups n (v / 128) end.

Lemma length_groups ds : length (groups ds) = length ds.
Proof. induction ds as [|d [|d' ds] IH]; simpl in *; auto. Qed.

Lemma length_split_groups n v : length (split_groups n v) = n.
Proof. revert v; induction n; intros; simpl; auto. Qed.

Lemma split_groups_ok n v : Forall group_ok (split_groups n v).
Proof.
  revert v; induction n; intros; simpl; constructor; auto.
  unfold group_ok. apply Z.mod_pos_bound. lia.
Qed.

Lemma groups_val_split n v : 0 <= v < 128 ^ Z.of_nat n -> groups_val (split_groups n v) = v.
Proof.
  revert v; induction n as [|n IH]; intros v Hv; [simpl in *; lia|].
  rewrite Nat2Z.inj_succ, Z.pow_succ_r in Hv by lia. simpl. rewrite IH.
  - pose proof (Z.div_mod v 128). lia.
  - split; [apply Z.div_pos; lia|]. apply Z.div_lt_upper_bound; lia.
Qed.

Lemma groups_val_nonneg ds : Forall group_ok ds -> 0 <= groups_val ds.
Proof. induction 1 as [|d ds Hd]; simpl; unfold group_ok in *; lia. Qed.

(** *** Bit facts about single bytes *)

Lemma land_127 z : Z.land z 127 = z mod 128.
Proof. change 127 with (Z.ones 7). rewrite Z.land_ones by lia. done. Qed.

(** Facts about a group hold when they hold of all 128 of them. *)
Lemma group_check (f : Z -> bool) d : forallb f (seqZ 0 128) = true -> group_ok d -> f d = true.
Proof.
  intros Hf Hd. rewrite forallb_forall in Hf. apply Hf, list_elem_of_In, elem_of_seqZ.
  unfold group_ok in Hd. lia.
Qed.

Lemma lor_128 d : group_ok d -> Z.lor d 128 = 128 + d.
Proof.
  intros Hd. apply Z.eqb_eq. by apply (group_check (fun d => Z.lor d 128 =? 128 + d)).
Qed.

Lemma land_128_lo d : group_ok d -> Z.land d 128 = 0.
Proof.
  intros Hd. apply Z.eqb_eq. by apply (group_check (fun d => Z.land d 128 =? 0)).
Qed.

Lemma land_128_hi d : group_ok d -> Z.land (128 + d) 128 = 128.
Proof.
  intros Hd. apply Z.eqb_eq. by apply (group_check (fun d => Z.land (128 + d) 128 =? 128)).
Qed.

Lemma lor_128_byte v : Z.lor (v mod 256) 128 = 128 + v mod 128.
Proof.
  rewrite <- lor_128 by (apply Z.mod_pos_bound; lia).
  change 256 with (2 ^ 8). change (v mod 128) with (v mod 2 ^ 7).
  rewrite <- !Z.land_ones by lia. apply Z.bits_inj'. intros n Hn.
  rewrite !Z.lor_spec, !Z.land_spec, !Z.testbit_ones_nonneg by lia.
  destruct (Z.ltb_spec n 7), (Z.ltb_spec n 8); try lia; rewrite ?andb_true_r, ?andb_false_r; try done.
  assert (n = 7) as -> by lia. change (Z.testbit 128 7) with true. by rewrite orb_true_r.
Qed.

Lemma lor_disjoint a b s : 0 <= s -> 0 <= a < 2 ^ s -> Z.lor a (Z.shiftl b s) = a + b * 2 ^ s.
Proof.
  intros Hs Ha. rewrite <- Z.shiftl_mul_pow2 by done. rewrite <- Z.add_lor_land.
  replace (Z.land a (Z.shiftl b s)) with 0; [lia|].
  symmetry. apply Z.bits_inj'. intros n Hn. rewrite Z.bits_0, Z.land_spec.
  destruct (Z.ltb_spec n s).
  - by rewrite Z.shiftl_spec_low, andb_false_r.
  - rewrite (proj2 (Z.testbit_false a n Hn)); [done|].
    rewrite Z.div_small; [done|]. split; [lia|].
    eapply Z.lt_le_trans; [apply Ha|]. apply Z.pow_le_mono_r; lia.
Qed.

(** ** Decoders on the group view *)

Lemma u8_last_group d : group_ok d -> u8 (to_u8 d) = d.
Proof. unfold group_ok. intros. apply u8_to_u8. lia. Qed.

Lemma u8_cont_group d : group_ok d -> u8 (to_u8 (128 + d)) = 128 + d.
Proof. unfold group_ok. intros. apply u8_to_u8. lia. Qed.

Lemma group_payload d : group_ok d -> (128 + d) mod 128 = d /\ d mod 128 = d.
Proof.
  unfold group_ok. intros. split; [|apply Z.mod_small; lia].
  rewrite <- (Z.mul_1_l 128) at 1. rewrite Z.add_comm, Z_mod_plus_full. apply Z.mod_small. lia.
Qed.

(** One round: merging a group at [shift] neither wraps nor overlaps. *)
Lemma merge_group value d shift rest :
  group_ok d -> 0 <= shift -> 0 <= value < 2 ^ shift -> 0 <= rest ->
  value + (d + 128 * rest) * 2 ^ shift < 2 ^ 64 ->
  Z.lor value (u64_wrap (Z.shiftl d shift)) = value + d * 2 ^ shift.
Proof.
  unfold group_ok. intros Hd Hs Hv Hr Hlt.
  assert (0 < 2 ^ shift) by (apply Z.pow_pos_nonneg; lia).
  rewrite u64_wrap_small; [by apply lor_disjoint|].
  unfold is_u64. rewrite Z.shiftl_mul_pow2 by done. nia.
Qed.

Lemma next_acc_bound value d shift :
  group_ok d -> 0 <= shift -> 0 <= value < 2 ^ shift -> 0 <= value + d * 2 ^ shift < 2 ^ (shift + 7).
Proof.
  unfold group_ok. intros. rewrite Z.pow_add_r by lia.
  assert (0 < 2 ^ shift) by (apply Z.pow_pos_nonneg; lia). nia.
Qed.

Lemma shift_groups value d v shift :
  0 <= shift -> value + (d + 128 * v) * 2 ^ shift = value + d * 2 ^ shift + v * 2 ^ (shift + 7).
Proof. intros. rewrite Z.pow_add_r by lia. change (2 ^ 7) with 128. ring. Qed.

Lemma decode_varint_loop_groups ds rest value shift i :
  ds <> [] -> Forall group_ok ds -> 0 <= shift -> 0 <= value < 2 ^ shift ->
  shift + 7 * (Z.of_nat (length ds) - 1) <= 63 ->
  value + groups_val ds * 2 ^ shift < 2 ^ 64 ->
  decode_varint_loop (groups ds ++ rest) value shift i
  = Some (value + groups_val ds * 2 ^ shift, (i + length ds)%nat).
Proof.
  revert value shift i. induction ds as [|d ds IH]; [done|].
  intros value shift i _ [Hd Hds]%Forall_cons Hs Hv Hlen Hlt.
  pose proof (groups_val_nonneg ds Hds) as Hnn. destruct (group_payload d Hd) as [Hp1 Hp2].
  destruct ds as [|d' ds].
  - cbn [groups app decode_varint_loop groups_val length] in *.
    rewrite (u8_last_group d Hd), land_128_lo, land_127, Hp2 by done. cbn.
    rewrite (merge_group value d shift 0) by (done || lia). f_equal; f_equal; lia.
  - change (groups (d :: d' :: ds)) with (to_u8 (128 + d) :: groups (d' :: ds)).
    cbn [app decode_varint_loop].
    rewrite (u8_cont_group d Hd), land_128_hi, land_127, Hp1 by done.
    change (128 =? 0) with false. cbv iota.
    change (groups_val (d :: d' :: ds)) with (d + 128 * groups_val (d' :: ds)) in *.
    change (length (d :: d' :: ds)) with (S (length (d' :: ds))) in *.
    rewrite (merge_group value d shift (groups_val (d' :: ds))) by done.
    assert (0 < Z.of_nat (length (d' :: ds))) by (simpl; lia).
    rewrite (proj2 (Z.ltb_ge 63 (shift + 7))) by lia.
    rewrite shift_groups in Hlt |- * by done.
    rewrite IH; [f_equal; f_equal; lia|done|done|lia|by apply next_acc_bound|lia|done].
Qed.

Lemma decode_varint_groups ds rest :
  ds <> [] -> Forall group_ok ds -> (length ds <= 10)%nat -> groups_val ds < 2 ^ 64 ->
  decode_varint (groups ds ++ rest) = Some (groups_val ds, length ds).
Proof.
  intros. unfold decode_varint. rewrite decode_varint_loop_groups by (done || lia).
  f_equal; f_equal; lia.
Qed.

Lemma fold_overlong_groups ds value s :
  Forall group_ok ds -> 0 <= s -> 0 <= value < 2 ^ (s * 7) ->
  value + groups_val ds * 2 ^ (s * 7) < 2 ^ 64 ->
  foldl (fun v '(i, b) => Z.lor v (u64_wrap (Z.shiftl (Z.land (u8 b) 127) (i * 7)))) value
    (zip (seqZ s (Z.of_nat (length ds))) (groups ds)) = value + groups_val ds * 2 ^ (s * 7).
Proof.
  revert value s. induction ds as [|d ds IH]; intros value s Hds Hs Hv Hlt; [simpl; lia|].
  apply Forall_cons in Hds as [Hd Hds]. pose proof (groups_val_nonneg ds Hds).
  destruct (group_payload d Hd) as [Hp1 Hp2].
  cbn [length]. rewrite seqZ_cons by lia. rewrite Nat2Z.inj_succ, Z.pred_succ.
  change (groups_val (d :: ds)) with (d + 128 * groups_val ds) in *.
  assert (exists b, groups (d :: ds) = b :: groups ds /\ Z.land (u8 b) 127 = d) as (b & -> & Hb).
  { destruct ds; eexists; (split; [reflexivity|]); rewrite land_127;
      rewrite ?u8_last_group, ?u8_cont_group by done; done. }
  cbn [zip zip_with foldl]. rewrite Hb, (merge_group value d (s * 7) (groups_val ds)) by (done || lia).
  rewrite shift_groups in Hlt |- * by lia. replace (s * 7 + 7) with (Z.succ s * 7) in * by lia.
  apply IH; [done|lia| |done].
  replace (Z.succ s * 7) with (s * 7 + 7) by lia. apply next_acc_bound; (done || lia).
Qed.

(** ** Encoders on the group view *)

Lemma shiftr_div7 v i : 0 <= i -> Z.shiftr v (i * 7) = v / 128 ^ i.
Proof.
  intros. rewrite Z.shiftr_div_pow2 by lia. change 128 with (2 ^ 7).
  rewrite <- Z.pow_mul_r by lia. do 2 f_equal. lia.
Qed.

Lemma mod_256_128 x : (x mod 256) mod 128 = x mod 128.
Proof. apply Z.mod_mod_divide. by exists 2. Qed.

Lemma overlong_byte x : Z.lor (Z.land (x mod 256) 127) 128 = 128 + x mod 128.
Proof. rewrite land_127, mod_256_128. apply lor_128, Z.mod_pos_bound. lia. Qed.

(** The last, unmarked byte keeps [w] bits: nothing is lost below [2 ^ w]. *)
Lemma last_byte x w : 0 <= w <= 7 -> 0 <= x < 2 ^ w -> Z.land (x mod 256) (Z.ones w) = x mod 128.
Proof.
  intros Hw Hx. assert (2 ^ w <= 2 ^ 7) by (apply Z.pow_le_mono_r; lia).
  rewrite Z.land_ones by lia. change (2 ^ 7) with 128 in *.
  by rewrite (Z.mod_small x 256), (Z.mod_small x (2 ^ w)), (Z.mod_small x 128) by lia.
Qed.

Lemma shiftr_bound v n w : 0 <= n -> 0 <= w -> 0 <= v < 2 ^ (n + w) -> 0 <= Z.shiftr v n < 2 ^ w.
Proof.
  intros Hn Hw Hv. rewrite Z.shiftr_div_pow2 by done. rewrite Z.pow_add_r in Hv by done.
  assert (0 < 2 ^ n) by (apply Z.pow_pos_nonneg; lia).
  split; [apply Z.div_pos; lia|apply Z.div_lt_upper_bound; lia].
Qed.

Lemma encode_overlong_u32_groups v :
  is_u32 v -> encode_overlong_u32 v = groups (split_groups 5 v).
Proof.
  unfold is_u32. intros Hv. unfold encode_overlong_u32.
  change 15 with (Z.ones 4). rewrite (last_byte (Z.shiftr v 28) 4) by (lia || by apply (shiftr_bound v 28 4)).
  cbn [fmap list_fmap app split_groups groups]. rewrite !overlong_byte.
  change 28 with (4 * 7). rewrite !shiftr_div7 by lia.
  rewrite !Z.div_div by lia. by rewrite Z.div_1_r.
Qed.

Lemma encode_overlong_u64_groups v :
  is_u64 v -> encode_overlong_u64 v = groups (split_groups 10 v).
Proof.
  unfold is_u64. intros Hv. unfold encode_overlong_u64.
  change (Z.land (Z.shiftr v 63 mod 256) 1) with (Z.land (Z.shiftr v 63 mod 256) (Z.ones 1)).
  rewrite (last_byte (Z.shiftr v 63) 1) by (lia || by apply (shiftr_bound v 63 1)).
  cbn [fmap list_fmap app split_groups groups]. rewrite !overlong_byte.
  change 63 with (9 * 7). rewrite !shiftr_div7 by lia.
  rewrite !Z.div_div by lia. by rewrite Z.div_1_r.
Qed.

Lemma encode_varint_loop_groups n v :
  0 <= v < 128 ^ Z.of_nat (S n) ->
  exists ds, encode_varint_loop (S n) v = groups ds /\ ds <> [] /\ Forall group_ok ds
    /\ (length ds <= S n)%nat /\ groups_val ds = v.
Proof.
  revert v. induction n as [|n IH]; intros v Hv.
  - exists [v]. simpl. rewrite (proj2 (Z.ltb_lt v 128)) by lia.
    repeat split; try done; [|simpl; lia]. constructor; [|done]. unfold group_ok. lia.
  - cbn [encode_varint_loop]. destruct (Z.ltb_spec v 128) as [Hs|Hb].
    + exists [v]. repeat split; try done; [constructor; [unfold group_ok; lia|done]|simpl; lia|simpl; lia].
    + rewrite (Nat2Z.inj_succ (S n)), Z.pow_succ_r in Hv by lia.
      destruct (IH (Z.shiftr v 7)) as (ds & Heq & Hne & Hok & Hlen & Hval).
      { rewrite Z.shiftr_div_pow2 by lia. split; [apply Z.div_pos; lia|].
        apply Z.div_lt_upper_bound; lia. }
      exists (v mod 128 :: ds). cbn [encode_varint_loop] in Heq. rewrite Heq, lor_128_byte.
      repeat split; [by destruct ds|done| |simpl; lia|].
      * constructor; [apply Z.mod_pos_bound; lia|done].
      * cbn [groups_val]. rewrite Hval, Z.shiftr_div_pow2 by lia. change (2 ^ 7) with 128.
        pose proof (Z.div_mod v 128). lia.
Qed.

Lemma encode_varint_groups v :
  is_u64 v -> exists ds, encode_varint v = groups ds /\ ds <> [] /\ Forall group_ok ds
    /\ (length ds <= 10)%nat /\ groups_val ds = v.
Proof. unfold is_u64. intros. apply (encode_varint_loop_groups 9). lia. Qed.

Lemma length_encode_overlong_u32 v : length (encode_overlong_u32 v) = 5%nat.
Proof. reflexivity. Qed.
Lemma length_encode_overlong_u64 v : length (encode_overlong_u64 v) = 10%nat.
Proof. reflexivity. Qed.

Lemma length_encode_varint v : is_u64 v -> (1 <= length (encode_varint v) <= 10)%nat.
Proof.
  intros (ds & -> & Hne & _ & Hlen & _)%encode_varint_groups. rewrite length_groups.
  destruct ds; [done|simpl in *; lia].
Qed.

(** ** Round trips *)

Lemma decode_encode_varint v rest :
  is_u64 v -> decode_varint (encode_varint v ++ rest) = Some (v, length (encode_varint v)).
Proof.
  intros Hv. destruct (encode_varint_groups v Hv) as (ds & -> & Hne & Hok & Hlen & Hval).
  rewrite length_groups. unfold is_u64 in Hv.
  rewrite decode_varint_groups by (done || lia). by rewrite Hval.
Qed.

Lemma decode_varint_overlong_u32 v rest :
  is_u32 v -> decode_varint (encode_overlong_u32 v ++ rest) = Some (v, 5%nat).
Proof.
  intros Hv. rewrite encode_overlong_u32_groups by done. unfold is_u32 in Hv.
  assert (groups_val (split_groups 5 v) = v) as E by (apply groups_val_split; simpl; lia).
  rewrite decode_varint_groups; rewrite ?E, ?length_split_groups; try done; try lia.
  apply split_groups_ok.
Qed.

Lemma decode_varint_overlong_u64 v rest :
  is_u64 v -> decode_varint (encode_overlong_u64 v ++ rest) = Some (v, 10%nat).
Proof.
  intros Hv. rewrite encode_overlong_u64_groups by done. unfold is_u64 in Hv.
  assert (groups_val (split_groups 10 v) = v) as E by (apply groups_val_split; simpl; lia).
  rewrite decode_varint_groups; rewrite ?E, ?length_split_groups; try done; try lia.
  apply split_groups_ok.
Qed.

Lemma decode_overlong_u32_encode v rest :
  is_u32 v -> decode_overlong_u32 (encode_overlong_u32 v ++ rest) = Some v.
Proof.
  intros Hv. unfold decode_overlong_u32.
  rewrite take_app_length' by (by rewrite (length_encode_overlong_u32 v)).
  rewrite length_app, length_encode_overlong_u32. cbn [Nat.ltb Nat.leb Nat.add].
  rewrite encode_overlong_u32_groups by done. unfold is_u32 in Hv.
  pose proof (fold_overlong_groups (split_groups 5 v) 0 0 (split_groups_ok 5 v)) as F.
  rewrite (length_split_groups 5 v), (groups_val_split 5 v) in F by (simpl; lia).
  change (seqZ 0 (Z.of_nat 5)) with [0; 1; 2; 3; 4] in F.
  rewrite F by lia. rewrite Z.add_0_l, Z.mul_1_r. by rewrite u32_wrap_small.
Qed.

Lemma decode_overlong_u64_encode v rest :
  is_u64 v -> decode_overlong_u64 (encode_overlong_u64 v ++ rest) = Some v.
Proof.
  intros Hv. unfold decode_overlong_u64.
  rewrite take_app_length' by (by rewrite (length_encode_overlong_u64 v)).
  rewrite length_app, length_encode_overlong_u64. cbn [Nat.ltb Nat.leb Nat.add].
  rewrite encode_overlong_u64_groups by done. unfold is_u64 in Hv.
  pose proof (fold_overlong_groups (split_groups 10 v) 0 0 (split_groups_ok 10 v)) as F.
  rewrite (length_split_groups 10 v), (groups_val_split 10 v) in F by (simpl; lia).
  change (seqZ 0 (Z.of_nat 10)) with [0; 1; 2; 3; 4; 5; 6; 7; 8; 9] in F.
  rewrite F by lia. by rewrite Z.add_0_l, Z.mul_1_r.
Qed.

(** ** Decoding arbitrary input stays in bounds *)

Lemma lor_u64 a b : is_u64 a -> is_u64 b -> is_u64 (Z.lor a b).
Proof.
  unfold is_u64. intros Ha Hb. split; [apply Z.lor_nonneg; lia|].
  destruct (Z.eq_dec (Z.lor a b) 0) as [->|Hne]; [lia|].
  assert (0 <= Z.lor a b) by (apply Z.lor_nonneg; lia).
  apply Z.log2_lt_pow2; [lia|]. rewrite Z.log2_lor by lia. apply Z.max_lub_lt.
  - destruct (Z.eq_dec a 0) as [->|]; [simpl; lia|apply Z.log2_lt_pow2; lia].
  - destruct (Z.eq_dec b 0) as [->|]; [simpl; lia|apply Z.log2_lt_pow2; lia].
Qed.

Lemma decode_varint_loop_bounds buf value shift i v n :
  is_u64 value -> 0 <= shift -> decode_varint_loop buf value shift i = Some (v, n) ->
  is_u64 v /\ (i < n <= i + length buf)%nat /\ shift + 7 * (Z.of_nat n - Z.of_nat i - 1) <= Z.max shift 63.
Proof.
  revert value shift i. induction buf as [|b buf IH]; intros value shift i Hv Hs; [done|].
  cbn [decode_varint_loop length]. cbv zeta.
  assert (is_u64 (Z.lor value (u64_wrap (Z.shiftl (Z.land (u8 b) 127) shift)))) as Hv'
    by (apply lor_u64; [done|apply u64_wrap_range]).
  destruct (Z.land (u8 b) 128 =? 0); [intros [= <- <-]; repeat split; try apply Hv'; lia|].
  destruct (Z.ltb_spec 63 (shift + 7)); [done|].
  intros (Hr & ? & ?)%IH; [|done|lia]. repeat split; try apply Hr; lia.
Qed.

Lemma decode_varint_bounds buf v n :
  decode_varint buf = Some (v, n) -> is_u64 v /\ (1 <= n <= 10)%nat /\ (n <= length buf)%nat.
Proof.
  intros H. apply decode_varint_loop_bounds in H as (? & ? & ?); [|split; lia|lia].
  repeat split; try lia; apply H.
Qed.

End Varint.

#[export] Hint Resolve Varint.length_encode_varint : rudurru.
