(* ===== verification/KvCodec.v ===== *)
(** * The encoded [mvccpb.KeyValue] blob

    Models [encode_kv] and the two offset readers of src/storage/wal.rs, the
    one-pass field reader [parse_kv] of src/storage/store.rs and the in-place
    patch [with_mod_revision] of src/storage/state.rs. The prost-generated
    decoder is not part of the sources: it is the class [KvDecoder], whose law is
    the protobuf wire format (fields in any order, varints of any legal width). *)
From S2P Require Import Prelude Varint.
Local Open Scope Z_scope.

Module KvCodec.
Import Varint.

(** ** Encoding (wal.rs) *)

Definition encode_kv (key value : bytes) (create_revision mod_revision version lease : Z)
    : bytes * Z * Z :=
  let buf := [] ++ [Byte.x0a] in
  let key_offset := u16_wrap (Z.of_nat (length buf)) in
  let buf := buf ++ encode_overlong_u32 (u32_wrap (Z.of_nat (length key))) ++ key in
  let buf := buf ++ [Byte.x10] ++ encode_varint (u64_wrap create_revision) in
  let buf := buf ++ [Byte.x18] in
  let mod_rev_offset := u16_wrap (Z.of_nat (length buf)) in
  let buf := buf ++ encode_overlong_u64 (u64_wrap mod_revision) in
  let buf := buf ++ [Byte.x20] ++ encode_varint (u64_wrap version) in
  let buf := buf ++ [Byte.x2a] ++ encode_overlong_u32 (u32_wrap (Z.of_nat (length value))) ++ value in
  let buf := buf ++ [Byte.x30] ++ encode_varint (u64_wrap lease) in
  (buf, key_offset, mod_rev_offset).

(** The blob alone. *)
Definition kv_blob (key value : bytes) (cr mr ver lease : Z) : bytes :=
  (encode_kv key value cr mr ver lease).1.1.

#[global] Arguments encode_kv _ _ _ _ _ _ : simpl never.
#[global] Arguments kv_blob _ _ _ _ _ _ : simpl never.

(** ** Reading at an offset (wal.rs)

    [start + key_len] is [usize] arithmetic, which wraps in a release build; the
    slice then panics when its end precedes its start. *)

Definition read_key_from_kv (kv_bytes : bytes) (key_offset : Z) : outcome (option bytes) :=
  let len := Z.of_nat (length kv_bytes) in
  let ofs := key_offset in
  if len <=? ofs then Ok None
  else match decode_varint (drop (Z.to_nat ofs) kv_bytes) with
       | None => Ok None
       | Some (key_len, varint_size) =>
           let start := ofs + Z.of_nat varint_size in
           let stop := u64_wrap (start + key_len) in
           if len <? stop then Ok None
           else if stop <? start then Panic "slice index starts after its end"
           else Ok (Some (take (Z.to_nat (stop - start)) (drop (Z.to_nat start) kv_bytes)))
       end.

Definition read_mod_revision_from_kv (kv_bytes : bytes) (mod_rev_offset : Z) : option Z :=
  if Z.of_nat (length kv_bytes) <? mod_rev_offset + 10 then None
  else i64_wrap <$> decode_overlong_u64 (drop (Z.to_nat mod_rev_offset) kv_bytes).

(** ** The field cursor (store.rs) *)

Record KvCursor := mkCursor { cur_buf : bytes; cur_i : Z }.

Definition skip (c : KvCursor) (n : Z) : option KvCursor :=
  let i := cur_i c + n in
  if i <? 2 ^ 64
  then if i <=? Z.of_nat (length (cur_buf c)) then Some (mkCursor (cur_buf c) i) else None
  else None.

Definition take_n (c : KvCursor) (n : Z) : option (bytes * KvCursor) :=
  let e := cur_i c + n in
  if e <? 2 ^ 64
  then if (cur_i c <=? e) && (e <=? Z.of_nat (length (cur_buf c)))
       then Some (take (Z.to_nat (e - cur_i c)) (drop (Z.to_nat (cur_i c)) (cur_buf c)),
                  mkCursor (cur_buf c) e)
       else None
  else None.

Definition varint (c : KvCursor) : option (Z * KvCursor) :=
  if Z.of_nat (length (cur_buf c)) <? cur_i c then None
  else let! (v, n) := decode_varint_loop (drop (Z.to_nat (cur_i c)) (cur_buf c)) 0 0 O in
       Some (v, mkCursor (cur_buf c) (cur_i c + Z.of_nat n)).

Definition overlong_u32 (c : KvCursor) : option (Z * KvCursor) :=
  let! (bs, c) := take_n c 5 in
  let! v := decode_overlong_u32 bs in Some (v, c).

Definition overlong_u64 (c : KvCursor) : option (Z * KvCursor) :=
  let! (bs, c) := take_n c 10 in
  let! v := decode_overlong_u64 bs in Some (v, c).

Record KvFields := mkKvFields {
  f_key : bytes; f_create_revision : Z; f_mod_revision : Z; f_version : Z; f_value : bytes }.

Definition parse_kv (buf : bytes) : option KvFields :=
  let c := mkCursor buf 0 in
  let! c := skip c 1 in
  let! (key_len, c) := overlong_u32 c in
  let! (key, c) := take_n c key_len in
  let! c := skip c 1 in
  let! (create_revision, c) := varint c in
  let! c := skip c 1 in
  let! (mod_revision, c) := overlong_u64 c in
  let! c := skip c 1 in
  let! (version, c) := varint c in
  let! c := skip c 1 in
  let! (value_len, c) := overlong_u32 c in
  let! (value, c) := take_n c value_len in
  Some (mkKvFields key create_revision mod_revision version value).

(** ** Patching [mod_revision] in place (state.rs)

    [None] stands for the panic of an out-of-range index. *)

(** [while kv_bytes[i] & 0x80 != 0 { i += 1 }] *)
Fixpoint skip_continuation (bs : bytes) (i : nat) : option nat :=
  match bs with
  | [] => None
  | b :: bs' => if Z.land (u8 b) 128 =? 0 then Some i else skip_continuation bs' (S i)
  end.

Definition mod_revision_field_offset (kv_bytes : bytes) : option nat :=
  let! b1 := kv_bytes !! 1%nat in
  let! b2 := kv_bytes !! 2%nat in
  let! b3 := kv_bytes !! 3%nat in
  let! b4 := kv_bytes !! 4%nat in
  let! b5 := kv_bytes !! 5%nat in
  let key_len :=
    Z.lor (Z.lor (Z.lor (Z.lor (Z.land (u8 b1) 127)
      (u32_wrap (Z.shiftl (Z.land (u8 b2) 127) 7)))
      (u32_wrap (Z.shiftl (Z.land (u8 b3) 127) 14)))
      (u32_wrap (Z.shiftl (Z.land (u8 b4) 127) 21)))
      (u32_wrap (Z.shiftl (Z.land (u8 b5) 15) 28)) in
  let i := (1 + 5 + Z.to_nat key_len + 1)%nat in
  let! i := skip_continuation (drop i kv_bytes) i in
  Some (i + 2)%nat.

Definition with_mod_revision (kv_bytes : bytes) (rev : Z) : option bytes :=
  let! offset := mod_revision_field_offset kv_bytes in
  if (length kv_bytes <? offset + 10)%nat then None
  else Some (take offset kv_bytes ++ encode_overlong_u64 rev ++ drop (offset + 10) kv_bytes).

(** ** Layout *)

(** The lengths the 5-byte prefixes can carry. *)
Definition kv_sizes_ok (key value : bytes) : Prop :=
  is_u32 (Z.of_nat (length key)) /\ is_u32 (Z.of_nat (length value)).

Lemma kv_blob_layout key value cr mr ver lease :
  kv_blob key value cr mr ver lease =
    [Byte.x0a] ++ encode_overlong_u32 (u32_wrap (Z.of_nat (length key))) ++ key
    ++ [Byte.x10] ++ encode_varint (u64_wrap cr)
    ++ [Byte.x18] ++ encode_overlong_u64 (u64_wrap mr)
    ++ [Byte.x20] ++ encode_varint (u64_wrap ver)
    ++ [Byte.x2a] ++ encode_overlong_u32 (u32_wrap (Z.of_nat (length value))) ++ value
    ++ [Byte.x30] ++ encode_varint (u64_wrap lease).
Proof. unfold kv_blob, encode_kv. cbn [fst]. rewrite <- !app_assoc. reflexivity. Qed.

(** Where the encoder says the [mod_revision] varint starts. *)
Definition mod_rev_pos (key : bytes) (cr : Z) : nat :=
  (1 + 5 + length key + 1 + length (encode_varint (u64_wrap cr)) + 1)%nat.

Lemma encode_kv_offsets key value cr mr ver lease :
  encode_kv key value cr mr ver lease
  = (kv_blob key value cr mr ver lease, 1, u16_wrap (Z.of_nat (mod_rev_pos key cr))).
Proof.
  unfold kv_blob, encode_kv. cbn [fst]. f_equal. f_equal. f_equal.
  rewrite !length_app, length_encode_overlong_u32. unfold mod_rev_pos. cbn [length]. lia.
Qed.

(** Prefix of the blob up to, and suffix after, the [mod_revision] varint. *)
Definition kv_head (key : bytes) (cr : Z) : bytes :=
  [Byte.x0a] ++ encode_overlong_u32 (u32_wrap (Z.of_nat (length key))) ++ key
  ++ [Byte.x10] ++ encode_varint (u64_wrap cr) ++ [Byte.x18].
Definition kv_tail (value : bytes) (ver lease : Z) : bytes :=
  [Byte.x20] ++ encode_varint (u64_wrap ver)
  ++ [Byte.x2a] ++ encode_overlong_u32 (u32_wrap (Z.of_nat (length value))) ++ value
  ++ [Byte.x30] ++ encode_varint (u64_wrap lease).

Lemma kv_blob_split key value cr mr ver lease :
  kv_blob key value cr mr ver lease
  = kv_head key cr ++ encode_overlong_u64 (u64_wrap mr) ++ kv_tail value ver lease.
Proof. rewrite kv_blob_layout. unfold kv_head, kv_tail. by rewrite <- !app_assoc. Qed.

Lemma length_kv_head key cr : length (kv_head key cr) = mod_rev_pos key cr.
Proof.
  unfold kv_head, mod_rev_pos. rewrite !length_app, length_encode_overlong_u32. cbn [length]. lia.
Qed.

Lemma length_kv_blob key value cr mr ver lease :
  length (kv_blob key value cr mr ver lease)
  = (mod_rev_pos key cr + 18 + length (encode_varint (u64_wrap ver)) + length value
     + length (encode_varint (u64_wrap lease)))%nat.
Proof.
  rewrite kv_blob_split, !length_app, length_kv_head, length_encode_overlong_u64.
  unfold kv_tail. rewrite !length_app, length_encode_overlong_u32. cbn [length]. lia.
Qed.

Lemma length_encode_varint_wrap z : (1 <= length (encode_varint (u64_wrap z)) <= 10)%nat.
Proof. apply length_encode_varint, u64_wrap_range. Qed.

Lemma kv_blob_length_bound key value cr mr ver lease :
  (29 <= length (kv_blob key value cr mr ver lease) - length key - length value <= 56)%nat.
Proof.
  rewrite length_kv_blob. unfold mod_rev_pos.
  pose proof (length_encode_varint_wrap cr). pose proof (length_encode_varint_wrap ver).
  pose proof (length_encode_varint_wrap lease). lia.
Qed.

(** ** Offset readers on encoder output *)

Lemma read_key_blob key value cr mr ver lease :
  kv_sizes_ok key value -> read_key_from_kv (kv_blob key value cr mr ver lease) 1 = Ok (Some key).
Proof.
  intros [Hk _]. unfold read_key_from_kv.
  pose proof (length_kv_blob key value cr mr ver lease) as Hlen.
  set (blob := kv_blob key value cr mr ver lease) in *. unfold mod_rev_pos in Hlen.
  assert (exists tl, blob = [Byte.x0a] ++ encode_overlong_u32 (Z.of_nat (length key)) ++ key ++ tl)
    as [tl Hb].
  { subst blob. rewrite kv_blob_layout, u32_wrap_small by done. eexists. reflexivity. }
  rewrite (proj2 (Z.leb_gt _ 1)) by lia.
  assert (drop (Z.to_nat 1) blob = encode_overlong_u32 (Z.of_nat (length key)) ++ key ++ tl) as ->
    by (rewrite Hb; reflexivity).
  rewrite decode_varint_overlong_u32 by done. unfold is_u32 in Hk.
  rewrite u64_wrap_small by (unfold is_u64; lia).
  rewrite (proj2 (Z.ltb_ge (Z.of_nat (length blob)) _)) by lia.
  rewrite (proj2 (Z.ltb_ge (1 + Z.of_nat 5 + _) _)) by lia.
  do 2 f_equal. rewrite Hb. replace (Z.to_nat (1 + Z.of_nat 5)) with 6%nat by lia.
  change (take (Z.to_nat (1 + Z.of_nat 5 + Z.of_nat (length key) - (1 + Z.of_nat 5))) (key ++ tl) = key).
  apply take_app_length'. lia.
Qed.

Lemma read_mod_revision_blob key value cr mr ver lease ofs :
  is_i64 mr -> ofs = Z.of_nat (mod_rev_pos key cr) ->
  read_mod_revision_from_kv (kv_blob key value cr mr ver lease) ofs = Some mr.
Proof.
  intros Hmr ->. unfold read_mod_revision_from_kv.
  rewrite (proj2 (Z.ltb_ge _ _)) by (rewrite length_kv_blob; lia).
  rewrite kv_blob_split, drop_app_length' by (rewrite length_kv_head; lia).
  rewrite decode_overlong_u64_encode by apply u64_wrap_range. cbn [fmap option_fmap option_map].
  f_equal. by apply i64_of_u64_of_i64.
Qed.

(** ** The cursor on encoder output *)

(** The cursor standing between [pre] and [rest]. *)
Definition cursor_at (pre rest : bytes) : KvCursor := mkCursor (pre ++ rest) (Z.of_nat (length pre)).

Section Cursor.
Variables (pre a rest : bytes).
Hypothesis small : Z.of_nat (length (pre ++ a ++ rest)) < 2 ^ 64.

Lemma skip_at : skip (cursor_at pre (a ++ rest)) (Z.of_nat (length a)) = Some (cursor_at (pre ++ a) rest).
Proof.
  rewrite !length_app in small. unfold skip, cursor_at. cbn [cur_buf cur_i].
  rewrite (proj2 (Z.ltb_lt _ _)) by lia.
  rewrite (proj2 (Z.leb_le _ _)) by (rewrite !length_app; lia).
  f_equal. f_equal; [by rewrite app_assoc|rewrite length_app; lia].
Qed.

Lemma take_at n : n = Z.of_nat (length a) ->
  take_n (cursor_at pre (a ++ rest)) n = Some (a, cursor_at (pre ++ a) rest).
Proof.
  intros ->. rewrite !length_app in small. unfold take_n, cursor_at. cbn [cur_buf cur_i].
  rewrite (proj2 (Z.ltb_lt _ _)) by lia.
  rewrite (proj2 (Z.leb_le (Z.of_nat (length pre)) _)) by lia.
  rewrite (proj2 (Z.leb_le _ (Z.of_nat (length (pre ++ a ++ rest))))) by (rewrite !length_app; lia).
  cbn [andb]. f_equal. f_equal.
  - rewrite drop_app_length' by lia. apply take_app_length'. lia.
  - f_equal; [by rewrite app_assoc|rewrite length_app; lia].
Qed.
End Cursor.

Lemma skip_tag_at pre tag rest :
  Z.of_nat (length (pre ++ [tag] ++ rest)) < 2 ^ 64 ->
  skip (cursor_at pre ([tag] ++ rest)) 1 = Some (cursor_at (pre ++ [tag]) rest).
Proof. apply (skip_at pre [tag] rest). Qed.

Lemma varint_at pre rest v : is_u64 v ->
  varint (cursor_at pre (encode_varint v ++ rest)) = Some (v, cursor_at (pre ++ encode_varint v) rest).
Proof.
  intros Hv. unfold varint, cursor_at. cbn [cur_buf cur_i].
  rewrite (proj2 (Z.ltb_ge _ _)) by (rewrite !length_app; lia).
  rewrite drop_app_length' by lia. fold (decode_varint (encode_varint v ++ rest)).
  rewrite decode_encode_varint by done. f_equal. f_equal.
  f_equal; [by rewrite app_assoc|rewrite length_app; lia].
Qed.

Lemma overlong_u32_at pre rest v :
  Z.of_nat (length (pre ++ encode_overlong_u32 v ++ rest)) < 2 ^ 64 -> is_u32 v ->
  overlong_u32 (cursor_at pre (encode_overlong_u32 v ++ rest))
  = Some (v, cursor_at (pre ++ encode_overlong_u32 v) rest).
Proof.
  intros Hs Hv. unfold overlong_u32. rewrite take_at by done.
  rewrite <- (app_nil_r (encode_overlong_u32 v)) at 1.
  by rewrite decode_overlong_u32_encode.
Qed.

Lemma overlong_u64_at pre rest v :
  Z.of_nat (length (pre ++ encode_overlong_u64 v ++ rest)) < 2 ^ 64 -> is_u64 v ->
  overlong_u64 (cursor_at pre (encode_overlong_u64 v ++ rest))
  = Some (v, cursor_at (pre ++ encode_overlong_u64 v) rest).
Proof.
  intros Hs Hv. unfold overlong_u64. rewrite take_at by done.
  rewrite <- (app_nil_r (encode_overlong_u64 v)) at 1.
  by rewrite decode_overlong_u64_encode.
Qed.

Lemma parse_kv_blob key value cr mr ver lease :
  kv_sizes_ok key value ->
  parse_kv (kv_blob key value cr mr ver lease)
  = Some (mkKvFields key (u64_wrap cr) (u64_wrap mr) (u64_wrap ver) value).
Proof.
  intros [Hk Hv].
  assert (Z.of_nat (length (kv_blob key value cr mr ver lease)) < 2 ^ 64) as Hs.
  { pose proof (kv_blob_length_bound key value cr mr ver lease). unfold is_u32 in *. lia. }
  rewrite kv_blob_layout in Hs |- *. rewrite !u32_wrap_small in * by done.
  unfold parse_kv.
  match goal with |- context [mkCursor ?b 0] => change (mkCursor b 0) with (cursor_at [] b) end.
  pose proof (u64_wrap_range cr). pose proof (u64_wrap_range mr). pose proof (u64_wrap_range ver).
  rewrite skip_tag_at by done. rewrite overlong_u32_at by (by rewrite <- ?app_assoc).
  rewrite take_at by (by rewrite <- ?app_assoc).
  rewrite skip_tag_at by (by rewrite <- ?app_assoc). rewrite varint_at by done.
  rewrite skip_tag_at by (by rewrite <- ?app_assoc).
  rewrite overlong_u64_at by (by rewrite <- ?app_assoc).
  rewrite skip_tag_at by (by rewrite <- ?app_assoc). rewrite varint_at by done.
  rewrite skip_tag_at by (by rewrite <- ?app_assoc).
  rewrite overlong_u32_at by (by rewrite <- ?app_assoc).
  rewrite take_at by (by rewrite <- ?app_assoc). done.
Qed.

(** ** The in-place patch on encoder output *)

Lemma skip_continuation_groups ds rest i :
  ds <> [] -> Forall group_ok ds ->
  skip_continuation (groups ds ++ rest) i = Some (i + length ds - 1)%nat.
Proof.
  revert i. induction ds as [|d ds IH]; [done|]. intros i _ [Hd Hds]%Forall_cons.
  destruct ds as [|d' ds].
  - cbn. rewrite u8_last_group, land_128_lo by done. cbn. f_equal. lia.
  - change (groups (d :: d' :: ds)) with (to_u8 (128 + d) :: groups (d' :: ds)).
    cbn [app skip_continuation]. rewrite u8_cont_group, land_128_hi by done.
    change (128 =? 0) with false. cbv iota. rewrite IH by done. f_equal. simpl. lia.
Qed.

Lemma skip_continuation_varint v rest i :
  is_u64 v ->
  skip_continuation (encode_varint v ++ rest) i = Some (i + length (encode_varint v) - 1)%nat.
Proof.
  intros (ds & -> & Hne & Hok & _ & _)%encode_varint_groups.
  rewrite length_groups. by apply skip_continuation_groups.
Qed.

(** One 7-bit group merged into a [u32]. *)
Lemma merge_group_u32 value d s :
  0 <= s -> 0 <= value < 2 ^ s -> 0 <= d * 2 ^ s < 2 ^ 32 ->
  Z.lor value (u32_wrap (Z.shiftl d s)) = value + d * 2 ^ s.
Proof.
  intros Hs Hv Hd. rewrite u32_wrap_small by (unfold is_u32; by rewrite Z.shiftl_mul_pow2).
  by apply lor_disjoint.
Qed.

Lemma land_15 d : 0 <= d < 16 -> Z.land d 15 = d.
Proof. intros. change 15 with (Z.ones 4). rewrite Z.land_ones by lia. apply Z.mod_small. lia. Qed.

Lemma hardcoded_key_len d0 d1 d2 d3 d4 :
  group_ok d0 -> group_ok d1 -> group_ok d2 -> group_ok d3 -> 0 <= d4 < 16 ->
  Z.lor (Z.lor (Z.lor (Z.lor (Z.land (u8 (to_u8 (128 + d0))) 127)
      (u32_wrap (Z.shiftl (Z.land (u8 (to_u8 (128 + d1))) 127) 7)))
      (u32_wrap (Z.shiftl (Z.land (u8 (to_u8 (128 + d2))) 127) 14)))
      (u32_wrap (Z.shiftl (Z.land (u8 (to_u8 (128 + d3))) 127) 21)))
      (u32_wrap (Z.shiftl (Z.land (u8 (to_u8 d4)) 15) 28))
  = groups_val [d0; d1; d2; d3; d4].
Proof.
  intros H0 H1 H2 H3 H4.
  rewrite !u8_cont_group, (u8_to_u8 d4), !land_127, (land_15 d4) by (done || lia).
  rewrite (proj1 (group_payload d0 H0)), (proj1 (group_payload d1 H1)),
    (proj1 (group_payload d2 H2)), (proj1 (group_payload d3 H3)).
  unfold group_ok in *. cbn [groups_val].
  rewrite (merge_group_u32 d0 d1 7), (merge_group_u32 _ d2 14), (merge_group_u32 _ d3 21),
    (merge_group_u32 _ d4 28) by lia. lia.
Qed.

Lemma mod_revision_field_offset_blob key value cr mr ver lease :
  kv_sizes_ok key value ->
  mod_revision_field_offset (kv_blob key value cr mr ver lease) = Some (mod_rev_pos key cr).
Proof.
  intros [Hk _]. rewrite kv_blob_layout, (u32_wrap_small (Z.of_nat (length key))) by done.
  rewrite encode_overlong_u32_groups by done.
  set (v := Z.of_nat (length key)) in *.
  assert (groups_val (split_groups 5 v) = v) as Hval
    by (unfold is_u32 in Hk; apply groups_val_split; simpl; lia).
  cbn [split_groups groups] in Hval |- *.
  unfold mod_revision_field_offset. cbn [app lookup list_lookup].
  rewrite hardcoded_key_len, Hval.
  2-5: apply Z.mod_pos_bound; lia.
  2: { unfold is_u32 in Hk. rewrite !Z.div_div by lia. rewrite Z.mod_small.
       - split; [apply Z.div_pos; lia|apply Z.div_lt_upper_bound; lia].
       - split; [apply Z.div_pos; lia|apply Z.div_lt_upper_bound; lia]. }
  subst v. rewrite Nat2Z.id.
  match goal with |- context [drop (1 + 5 + length key + 1) (?a :: ?b :: ?c :: ?d :: ?e :: ?f :: key ++ ?g :: ?l)] =>
    assert (drop (1 + 5 + length key + 1) (a :: b :: c :: d :: e :: f :: key ++ g :: l) = l) as -> end.
  { replace (1 + 5 + length key + 1)%nat with (S (S (S (S (S (S (length key + 1)))))))%nat by lia.
    cbn [drop]. by rewrite <- drop_drop, drop_app_length. }
  rewrite skip_continuation_varint by apply u64_wrap_range.
  f_equal. unfold mod_rev_pos. pose proof (length_encode_varint_wrap cr). lia.
Qed.

Lemma with_mod_revision_blob key value cr mr ver lease rev :
  kv_sizes_ok key value ->
  with_mod_revision (kv_blob key value cr mr ver lease) (u64_wrap rev)
  = Some (kv_blob key value cr rev ver lease).
Proof.
  intros Hs. unfold with_mod_revision. rewrite mod_revision_field_offset_blob by done.
  rewrite (proj2 (Nat.ltb_ge _ _)) by (rewrite length_kv_blob; lia).
  rewrite !kv_blob_split. f_equal.
  rewrite <- length_kv_head, take_app_length. do 2 f_equal.
  rewrite <- drop_drop, drop_app_length. by rewrite drop_app_length'.
Qed.

End KvCodec.
