(* ===== verification/Wire.v ===== *)
(** * The generated protobuf decoder, as an interface

    [mvccpb::KeyValue::decode] is produced by prost from proto/kv.proto and is
    not part of the sources. [KvDecoder] is what the store relies on: the decoder
    accepts every message written in the protobuf wire format, whatever the
    width of its varints, and the last occurrence of a field wins. [encode_kv] is
    then shown to write such a message. [ref_decode] is a decoder satisfying the
    law. *)
From S2P Require Import Prelude Varint KvCodec.
Local Open Scope Z_scope.

Module Wire.
Import Varint KvCodec.

(** [mvccpb::KeyValue] (proto/kv.proto). *)
Record KeyValue := mkKeyValue {
  kv_key : bytes; kv_create_revision : Z; kv_mod_revision : Z;
  kv_version : Z; kv_value : bytes; kv_lease : Z }.

Definition KeyValue_default : KeyValue := mkKeyValue [] 0 0 0 [] 0.

(** ** The wire format *)

(** [bs] is a legal varint for [v]: at most ten 7-bit groups. *)
Definition varint_wire (v : Z) (bs : bytes) : Prop :=
  exists ds, bs = groups ds /\ ds <> [] /\ Forall group_ok ds /\ (length ds <= 10)%nat
    /\ groups_val ds = v /\ v < 2 ^ 64.

Inductive field :=
| FKey (b : bytes) | FCreate (z : Z) | FMod (z : Z) | FVersion (z : Z) | FValue (b : bytes) | FLease (z : Z).

(** Tag, then a varint (an [int64] as its two's complement [u64]) or a
    length-delimited byte string. *)
Inductive field_wire : field -> bytes -> Prop :=
| wire_key b l : varint_wire (Z.of_nat (length b)) l -> field_wire (FKey b) (Byte.x0a :: l ++ b)
| wire_create z l : is_i64 z -> varint_wire (u64_wrap z) l -> field_wire (FCreate z) (Byte.x10 :: l)
| wire_mod z l : is_i64 z -> varint_wire (u64_wrap z) l -> field_wire (FMod z) (Byte.x18 :: l)
| wire_version z l : is_i64 z -> varint_wire (u64_wrap z) l -> field_wire (FVersion z) (Byte.x20 :: l)
| wire_value b l : varint_wire (Z.of_nat (length b)) l -> field_wire (FValue b) (Byte.x2a :: l ++ b)
| wire_lease z l : is_i64 z -> varint_wire (u64_wrap z) l -> field_wire (FLease z) (Byte.x30 :: l).

Definition set_field (kv : KeyValue) (f : field) : KeyValue :=
  let 'mkKeyValue k c m v w l := kv in
  match f with
  | FKey b => mkKeyValue b c m v w l
  | FCreate z => mkKeyValue k z m v w l
  | FMod z => mkKeyValue k c z v w l
  | FVersion z => mkKeyValue k c m z w l
  | FValue b => mkKeyValue k c m v b l
  | FLease z => mkKeyValue k c m v w z
  end.

Class KvDecoder := {
  kv_decode : bytes -> option KeyValue;
  kv_decode_wire fs bss :
    Forall2 field_wire fs bss -> kv_decode (concat bss) = Some (foldl set_field KeyValue_default fs)
}.

(** ** [encode_kv] writes the wire format *)

Lemma varint_wire_min v : is_u64 v -> varint_wire v (encode_varint v).
Proof.
  intros Hv. destruct (encode_varint_groups v Hv) as (ds & ? & ? & ? & ? & ?).
  unfold is_u64 in Hv. exists ds. repeat split; auto; lia.
Qed.

Lemma varint_wire_overlong_u32 v : is_u32 v -> varint_wire v (encode_overlong_u32 v).
Proof.
  intros Hv. exists (split_groups 5 v). unfold is_u32 in Hv.
  rewrite encode_overlong_u32_groups, length_split_groups, groups_val_split by (done || simpl; lia).
  repeat split; auto using split_groups_ok; try lia.
Qed.

Lemma varint_wire_overlong_u64 v : is_u64 v -> varint_wire v (encode_overlong_u64 v).
Proof.
  intros Hv. exists (split_groups 10 v). unfold is_u64 in Hv.
  rewrite encode_overlong_u64_groups, length_split_groups, groups_val_split by (done || simpl; lia).
  repeat split; auto using split_groups_ok; try lia.
Qed.

Lemma kv_blob_wire key value cr mr ver lease :
  kv_sizes_ok key value -> is_i64 cr -> is_i64 mr -> is_i64 ver -> is_i64 lease ->
  exists bss, kv_blob key value cr mr ver lease = concat bss
    /\ Forall2 field_wire [FKey key; FCreate cr; FMod mr; FVersion ver; FValue value; FLease lease] bss.
Proof.
  intros [Hk Hv] Hc Hm Hn Hl.
  pose proof (u64_wrap_range cr). pose proof (u64_wrap_range mr).
  pose proof (u64_wrap_range ver). pose proof (u64_wrap_range lease).
  rewrite kv_blob_layout, !u32_wrap_small by done.
  exists [Byte.x0a :: encode_overlong_u32 (Z.of_nat (length key)) ++ key;
       Byte.x10 :: encode_varint (u64_wrap cr); Byte.x18 :: encode_overlong_u64 (u64_wrap mr);
       Byte.x20 :: encode_varint (u64_wrap ver);
       Byte.x2a :: encode_overlong_u32 (Z.of_nat (length value)) ++ value;
       Byte.x30 :: encode_varint (u64_wrap lease)]. split.
  - cbn [concat]. rewrite app_nil_r, <- ?app_assoc, <- ?app_comm_cons, <- ?app_assoc. done.
  - repeat (apply Forall2_cons; split); constructor; auto using varint_wire_min, varint_wire_overlong_u32, varint_wire_overlong_u64.
Qed.

Lemma kv_decode_blob `{KvDecoder} key value cr mr ver lease :
  kv_sizes_ok key value -> is_i64 cr -> is_i64 mr -> is_i64 ver -> is_i64 lease ->
  kv_decode (kv_blob key value cr mr ver lease) = Some (mkKeyValue key cr mr ver value lease).
Proof.
  intros Hs Hc Hm Hn Hl. destruct (kv_blob_wire key value cr mr ver lease) as (bss & -> & Hw); try done.
  by rewrite (kv_decode_wire _ _ Hw).
Qed.

(** ** A reference decoder *)

(** Reads one field; [None] on a malformed one. *)
Definition ref_field (buf : bytes) : option (field * bytes) :=
  match buf with
  | [] => None
  | tag :: buf =>
      let! (v, n) := decode_varint buf in
      let rest := drop n buf in
      let payload f := if Z.of_nat (length rest) <? v then None
                       else Some (f (take (Z.to_nat v) rest), drop (Z.to_nat v) rest) in
      match Byte.to_N tag with
      | 10%N => payload FKey
      | 16%N => Some (FCreate (i64_wrap v), rest)
      | 24%N => Some (FMod (i64_wrap v), rest)
      | 32%N => Some (FVersion (i64_wrap v), rest)
      | 42%N => payload FValue
      | 48%N => Some (FLease (i64_wrap v), rest)
      | _ => None
      end
  end.

Fixpoint ref_loop (fuel : nat) (buf : bytes) (kv : KeyValue) : option KeyValue :=
  match fuel, buf with
  | _, [] => Some kv
  | O, _ => None
  | S fuel, _ => let! (f, rest) := ref_field buf in ref_loop fuel rest (set_field kv f)
  end.

Definition ref_decode (buf : bytes) : option KeyValue := ref_loop (length buf) buf KeyValue_default.

Lemma decode_varint_wire v l :
  varint_wire v l -> forall rest, decode_varint (l ++ rest) = Some (v, length l).
Proof.
  intros (ds & -> & ? & Hok & ? & Hval & ?) rest. rewrite length_groups.
  rewrite decode_varint_groups by (done || lia). by subst v.
Qed.

Lemma ref_field_wire f bs rest : field_wire f bs -> ref_field (bs ++ rest) = Some (f, rest).
Proof.
  intros Hf. destruct Hf as [b l Hw|z l Hz Hw|z l Hz Hw|z l Hz Hw|b l Hw|z l Hz Hw];
    unfold ref_field; cbn [app]; rewrite <- ?app_assoc;
    rewrite (decode_varint_wire _ _ Hw), drop_app_length;
    cbn [Byte.to_N]; rewrite ?i64_of_u64_of_i64 by done; try done;
    rewrite (proj2 (Z.ltb_ge _ _)) by (rewrite length_app; lia);
    rewrite Nat2Z.id, take_app_length, drop_app_length; done.
Qed.

Lemma field_wire_nonempty f bs : field_wire f bs -> (0 < length bs)%nat.
Proof. destruct 1; simpl; lia. Qed.

Lemma ref_loop_wire fs bss fuel kv :
  Forall2 field_wire fs bss -> (length (concat bss) <= fuel)%nat ->
  ref_loop fuel (concat bss) kv = Some (foldl set_field kv fs).
Proof.
  intros Hw. revert fuel kv. induction Hw as [|f bs fs bss Hf Hw IH]; intros fuel kv Hlen.
  - by destruct fuel.
  - pose proof (field_wire_nonempty _ _ Hf). cbn [concat] in *. rewrite length_app in Hlen.
    destruct fuel as [|fuel]; [lia|].
    assert (exists x l, bs ++ concat bss = x :: l) as (x & l & E) by (destruct bs; [simpl in *; lia|eauto]).
    rewrite E. cbn [ref_loop]. rewrite <- E, (ref_field_wire f bs) by done. apply IH. lia.
Qed.

Lemma ref_decode_wire fs bss :
  Forall2 field_wire fs bss -> ref_decode (concat bss) = Some (foldl set_field KeyValue_default fs).
Proof. intros Hw. unfold ref_decode. by apply ref_loop_wire. Qed.

Definition ref_decoder : KvDecoder := {| kv_decode := ref_decode; kv_decode_wire := ref_decode_wire |}.

End Wire.
