(* ===== verification/Crc.v ===== *)
(** * CRC-32C

    src/storage/wal.rs delegates its checksum to the [crc32c] crate, which is
    not part of the sources: the class [Crc32c] states what the WAL code uses of
    it (a 32-bit result, and appending to a checksum is checksumming the
    concatenation). The offline tools under src/bin carry their own bitwise
    implementation; it is modelled here and shown to satisfy the same laws. *)
From S2P Require Import Prelude.
Local Open Scope Z_scope.

Module Crc.

Class Crc32c := {
  crc32c : bytes -> Z;
  crc32c_append : Z -> bytes -> Z;
  crc32c_range bs : is_u32 (crc32c bs);
  crc32c_append_spec a b : crc32c_append (crc32c a) b = crc32c (a ++ b)
}.

(** ** The bitwise implementation of the tools *)

(** One round of [for _ in 0..8]. *)
Definition crc_bit (crc : Z) : Z :=
  if negb (Z.land crc 1 =? 0) then Z.lxor (Z.shiftr crc 1) 2197175160 else Z.shiftr crc 1.

Definition crc_byte (crc : Z) (b : byte) : Z := Nat.iter 8 crc_bit (Z.lxor crc (u8 b)).

Definition crc32c_bitwise (data : bytes) : Z :=
  Z.lxor (foldl crc_byte 4294967295 data) 4294967295.

(** Resuming from a finished checksum undoes and redoes the final inversion. *)
Definition crc32c_bitwise_append (crc : Z) (data : bytes) : Z :=
  Z.lxor (foldl crc_byte (Z.lxor crc 4294967295) data) 4294967295.

Lemma lxor_u32 a b : is_u32 a -> is_u32 b -> is_u32 (Z.lxor a b).
Proof.
  unfold is_u32. intros Ha Hb.
  assert (0 <= Z.lxor a b) by (apply Z.lxor_nonneg; lia). split; [done|].
  destruct (Z.eq_dec (Z.lxor a b) 0) as [->|]; [lia|].
  apply Z.log2_lt_pow2; [lia|]. eapply Z.le_lt_trans; [apply Z.log2_lxor; lia|].
  apply Z.max_lub_lt.
  - destruct (Z.eq_dec a 0) as [->|]; [simpl; lia|apply Z.log2_lt_pow2; lia].
  - destruct (Z.eq_dec b 0) as [->|]; [simpl; lia|apply Z.log2_lt_pow2; lia].
Qed.

Lemma crc_bit_u32 c : is_u32 c -> is_u32 (crc_bit c).
Proof.
  intros Hc. assert (is_u32 (Z.shiftr c 1)) as Hs.
  { unfold is_u32 in *. rewrite Z.shiftr_div_pow2 by lia. change (2 ^ 1) with 2.
    split; [apply Z.div_pos; lia|]. apply Z.div_lt_upper_bound; lia. }
  unfold crc_bit. destruct (negb _); [|done]. apply lxor_u32; [done|unfold is_u32; lia].
Qed.

Lemma crc_byte_u32 c b : is_u32 c -> is_u32 (crc_byte c b).
Proof.
  intros Hc. unfold crc_byte. apply Nat.iter_invariant; [by intros; apply crc_bit_u32|].
  apply lxor_u32; [done|]. pose proof (u8_range b). unfold is_u32. lia.
Qed.

Lemma crc_fold_u32 bs c : is_u32 c -> is_u32 (foldl crc_byte c bs).
Proof. revert c. induction bs; intros c Hc; simpl; auto using crc_byte_u32. Qed.

Lemma crc32c_bitwise_range bs : is_u32 (crc32c_bitwise bs).
Proof. apply lxor_u32; [apply crc_fold_u32|]; unfold is_u32; lia. Qed.

Lemma crc32c_bitwise_append_spec a b :
  crc32c_bitwise_append (crc32c_bitwise a) b = crc32c_bitwise (a ++ b).
Proof.
  unfold crc32c_bitwise_append, crc32c_bitwise.
  by rewrite Z.lxor_assoc, Z.lxor_nilpotent, Z.lxor_0_r, foldl_app.
Qed.

Definition bitwise_crc : Crc32c := {|
  crc32c := crc32c_bitwise;
  crc32c_append := crc32c_bitwise_append;
  crc32c_range := crc32c_bitwise_range;
  crc32c_append_spec := crc32c_bitwise_append_spec |}.

(** The published check value of CRC-32C, of the ASCII string "123456789". *)
Example crc32c_check_value :
  crc32c_bitwise (to_u8 <$> [49; 50; 51; 52; 53; 54; 55; 56; 57]) = 3808858755.
Proof. vm_compute. reflexivity. Qed.

End Crc.
