(* ===== verification/WalRecord.v ===== *)
(** * WAL records and the WAL file (src/storage/wal.rs)

    The protobuf-native record: construction, serialisation, deserialisation,
    the streaming scan used at start-up and by historical reads, and the append
    operations. The file is its contents plus the outcomes of the writes still
    to come, so that every theorem covers failed and partial writes. *)
From S2P Require Import Prelude Varint KvCodec Crc.
Local Open Scope Z_scope.

Module Wal.
Import Varint KvCodec Crc.

Definition DELETED : Z := 1.
Definition IS_CREATE : Z := 2.
Definition HAS_LEASE : Z := 4.

Definition KV_HEADER_SIZE : Z := 9.
Definition KV_CRC_SIZE : Z := 4.

(** [std::io::Error]. *)
Inductive ErrorKind := UnexpectedEof | InvalidData | WriteFailed.
Record IoError := mkIoError { kind : ErrorKind; detail : string }.
Definition io_result (A : Type) : Type := (A + IoError)%type.

Record KvWalRecord := mkRecord {
  flags : Z; kv_bytes : bytes; key_offset : Z; mod_rev_offset : Z; rec_len : Z; crc : Z }.

Section Records.
Context `{Crc32c}.

(** ** Construction and serialisation *)

Definition KvWalRecord_new (flags : Z) (key value : bytes)
    (create_revision mod_revision version lease : Z) : KvWalRecord :=
  let '(kv_bytes, key_offset, mod_rev_offset) :=
    encode_kv key value create_revision mod_revision version lease in
  let rec_len := u32_wrap (KV_HEADER_SIZE + Z.of_nat (length kv_bytes) + KV_CRC_SIZE) in
  let crc := crc32c [to_u8 flags] in
  let crc := crc32c_append crc (to_le 2 key_offset) in
  let crc := crc32c_append crc (to_le 2 mod_rev_offset) in
  let crc := crc32c_append crc (to_le 4 rec_len) in
  let crc := crc32c_append crc kv_bytes in
  mkRecord flags kv_bytes key_offset mod_rev_offset rec_len crc.

Definition serialize (r : KvWalRecord) : bytes :=
  [to_u8 (flags r)] ++ to_le 2 (key_offset r) ++ to_le 2 (mod_rev_offset r)
  ++ to_le 4 (rec_len r) ++ kv_bytes r ++ to_le 4 (crc r).

(** Little-endian integer in [data\[i .. i+n\]]. *)
Definition le_at (n i : nat) (data : bytes) : Z := from_le (take n (drop i data)).

Definition deserialize (data : bytes) : io_result (KvWalRecord * Z) :=
  let len := Z.of_nat (length data) in
  match data with
  | [] => inr (mkIoError UnexpectedEof "record too short")
  | d0 :: _ =>
      if len <? KV_HEADER_SIZE + KV_CRC_SIZE
      then inr (mkIoError UnexpectedEof "record too short")
      else
        let flags := u8 d0 in
        let key_offset := le_at 2 1 data in
        let mod_rev_offset := le_at 2 3 data in
        let rec_len := le_at 4 5 data in
        if rec_len <? KV_HEADER_SIZE + KV_CRC_SIZE
        then inr (mkIoError InvalidData "rec_len too small")
        else if len <? rec_len
        then inr (mkIoError UnexpectedEof "record extends past buffer")
        else
          let kv_len := rec_len - KV_HEADER_SIZE - KV_CRC_SIZE in
          let kv_start := KV_HEADER_SIZE in
          let kv_end := kv_start + kv_len in
          let crc_start := kv_end in
          let kv_bytes := take (Z.to_nat kv_len) (drop (Z.to_nat kv_start) data) in
          let stored_crc := le_at 4 (Z.to_nat crc_start) data in
          let computed := crc32c (take (Z.to_nat kv_end) data) in
          if negb (computed =? stored_crc)
          then inr (mkIoError InvalidData "CRC mismatch")
          else if (Z.of_nat (length kv_bytes) <=? key_offset)
               || (Z.of_nat (length kv_bytes) <? mod_rev_offset + 10)
          then inr (mkIoError InvalidData "offset out of bounds")
          else inl (mkRecord flags kv_bytes key_offset mod_rev_offset rec_len stored_crc, rec_len)
  end.

Definition rec_key (r : KvWalRecord) : outcome (option bytes) :=
  read_key_from_kv (kv_bytes r) (key_offset r).

Definition rec_mod_revision (r : KvWalRecord) : option Z :=
  read_mod_revision_from_kv (kv_bytes r) (mod_rev_offset r).

(** ** Scanning *)

(** The loop of [scan_kv_file] on the bytes after the read position. It returns
    the records its callback saw, and how the scan ended: the offset after the
    last good record, or an I/O error. *)
Fixpoint scan_loop (fuel : nat) (rest : bytes) (cur : Z) : list KvWalRecord * io_result Z :=
  match fuel with
  | O => ([], inl cur)
  | S fuel =>
      if Z.of_nat (length rest) <? KV_HEADER_SIZE then ([], inl cur)
      else
        let rec_len := le_at 4 5 rest in
        if rec_len <? KV_HEADER_SIZE + KV_CRC_SIZE
        then ([], inr (mkIoError InvalidData "rec_len too small"))
        else if Z.of_nat (length rest) <? rec_len then ([], inl cur)
        else match deserialize (take (Z.to_nat rec_len) rest) with
             | inl (r, consumed) =>
                 let '(rs, e) := scan_loop fuel (drop (Z.to_nat rec_len) rest) (cur + consumed) in
                 (r :: rs, e)
             | inr _ => ([], inl cur)
             end
  end.

(** Every round consumes at least 13 bytes, so the file length is fuel enough. *)
Definition scan_kv_file (file : bytes) (offset : Z) : list KvWalRecord * io_result Z :=
  let rest := drop (Z.to_nat offset) file in scan_loop (S (length rest)) rest offset.

(** [count_wal_records]: the number of headers with a plausible length. *)
Fixpoint count_loop (fuel : nat) (rest : bytes) : nat :=
  match fuel with
  | O => O
  | S fuel =>
      if Z.of_nat (length rest) <? KV_HEADER_SIZE + KV_CRC_SIZE then O
      else
        let rec_len := le_at 4 5 rest in
        if (rec_len <? KV_HEADER_SIZE + KV_CRC_SIZE) || (Z.of_nat (length rest) <? rec_len) then O
        else S (count_loop fuel (drop (Z.to_nat rec_len) rest))
  end.

Definition count_wal_records (data : bytes) : nat := count_loop (S (length data)) data.

(** ** The file *)

(** [faults] says how each coming [write_all] ends: [None] writes everything,
    [Some n] writes [n] bytes and then reports an error. *)
Record WalFile := mkWalFile { file : bytes; dirty : bool; faults : list (option nat) }.

Definition write_all (w : WalFile) (data : bytes) : WalFile * io_result unit :=
  match faults w with
  | Some n :: fs =>
      (mkWalFile (file w ++ take n data) (dirty w) fs, inr (mkIoError WriteFailed "write_all"))
  | None :: fs => (mkWalFile (file w ++ data) (dirty w) fs, inl tt)
  | [] => (mkWalFile (file w ++ data) (dirty w) [], inl tt)
  end.

Definition set_dirty (b : bool) (w : WalFile) : WalFile := mkWalFile (file w) b (faults w).

Definition append_kv (w : WalFile) (r : KvWalRecord) : WalFile * io_result unit :=
  match write_all w (serialize r) with
  | (w, inl _) => (set_dirty true w, inl tt)
  | (w, inr e) => (w, inr e)
  end.

Fixpoint write_records (w : WalFile) (rs : list KvWalRecord) : WalFile * io_result unit :=
  match rs with
  | [] => (w, inl tt)
  | r :: rs => match write_all w (serialize r) with
               | (w, inl _) => write_records w rs
               | (w, inr e) => (w, inr e)
               end
  end.

Definition append_kv_batch (w : WalFile) (rs : list KvWalRecord) : WalFile * io_result unit :=
  match write_records w rs with
  | (w, inl _) => (set_dirty true w, inl tt)
  | (w, inr e) => (w, inr e)
  end.

Definition WalFile_open (contents : bytes) : WalFile := mkWalFile contents false [].

Definition scan_kv (w : WalFile) (offset : Z) : list KvWalRecord * io_result Z :=
  scan_kv_file (file w) offset.

Definition scan_kv_collect (w : WalFile) : io_result (list KvWalRecord) :=
  match scan_kv w 0 with (rs, inl _) => inl rs | (_, inr e) => inr e end.

(** ** Well-formed records *)

Definition header (r : KvWalRecord) : bytes :=
  [to_u8 (flags r)] ++ to_le 2 (key_offset r) ++ to_le 2 (mod_rev_offset r) ++ to_le 4 (rec_len r).

(** What every record built by [KvWalRecord_new] satisfies, and all that
    [deserialize] accepts. *)
Record rec_wf (r : KvWalRecord) : Prop := {
  wf_flags : 0 <= flags r < 256;
  wf_key_offset : is_u16 (key_offset r);
  wf_mod_rev_offset : is_u16 (mod_rev_offset r);
  wf_rec_len : rec_len r = 13 + Z.of_nat (length (kv_bytes r));
  wf_rec_len_u32 : is_u32 (rec_len r);
  wf_crc : crc r = crc32c (header r ++ kv_bytes r);
  wf_key_bound : key_offset r < Z.of_nat (length (kv_bytes r));
  wf_mod_bound : mod_rev_offset r + 10 <= Z.of_nat (length (kv_bytes r)) }.

Lemma length_header r : length (header r) = 9%nat.
Proof. unfold header. rewrite !length_app, !length_to_le. done. Qed.

Lemma serialize_split r : serialize r = header r ++ kv_bytes r ++ to_le 4 (crc r).
Proof. unfold serialize, header. by rewrite <- !app_assoc. Qed.

Lemma length_serialize r : length (serialize r) = (13 + length (kv_bytes r))%nat.
Proof. rewrite serialize_split, !length_app, length_header, length_to_le. lia. Qed.

Lemma le_at_app n i pre bs rest :
  length pre = i -> length bs = n -> le_at n i (pre ++ bs ++ rest) = from_le bs.
Proof. intros <- <-. unfold le_at. by rewrite drop_app_length, take_app_length. Qed.

(** The three header integers, read back from any buffer starting with it. *)
Lemma header_fields r rest :
  is_u16 (key_offset r) -> is_u16 (mod_rev_offset r) -> is_u32 (rec_len r) ->
  le_at 2 1 (header r ++ rest) = key_offset r /\ le_at 2 3 (header r ++ rest) = mod_rev_offset r
  /\ le_at 4 5 (header r ++ rest) = rec_len r.
Proof.
  unfold is_u16, is_u32, header. intros. rewrite <- !app_assoc. repeat split.
  - rewrite (le_at_app 2 1 [to_u8 (flags r)]) by (done || by rewrite ?length_to_le).
    apply from_le_to_le. simpl. lia.
  - rewrite (app_assoc [_]). rewrite (le_at_app 2 3) by (by rewrite ?length_app, ?length_to_le).
    apply from_le_to_le. simpl. lia.
  - rewrite (app_assoc [_]), (app_assoc (_ ++ _)).
    rewrite (le_at_app 4 5) by (by rewrite ?length_app, ?length_to_le).
    apply from_le_to_le. simpl. lia.
Qed.

Lemma KvWalRecord_new_fields flags key value cr mr ver lease :
  let r := KvWalRecord_new flags key value cr mr ver lease in
  Wal.flags r = flags /\ kv_bytes r = kv_blob key value cr mr ver lease /\ key_offset r = 1
  /\ mod_rev_offset r = u16_wrap (Z.of_nat (mod_rev_pos key cr))
  /\ crc r = crc32c (header r ++ kv_bytes r).
Proof.
  unfold KvWalRecord_new. rewrite encode_kv_offsets. cbn. repeat split.
  rewrite !crc32c_append_spec. f_equal.
Qed.

(** Sizes for which a record's length fits its header field. *)
Definition record_fits (key value : bytes) : Prop :=
  Z.of_nat (length key) + Z.of_nat (length value) + 69 < 2 ^ 32.

Lemma record_fits_sizes key value : record_fits key value -> kv_sizes_ok key value.
Proof. unfold record_fits, kv_sizes_ok, is_u32. lia. Qed.

Lemma KvWalRecord_new_wf fl key value cr mr ver lease :
  0 <= fl < 256 -> record_fits key value ->
  rec_wf (KvWalRecord_new fl key value cr mr ver lease).
Proof.
  intros Hfl Hfit. unfold record_fits in Hfit.
  pose proof (kv_blob_length_bound key value cr mr ver lease) as Hb.
  pose proof (length_kv_blob key value cr mr ver lease) as Hl.
  destruct (KvWalRecord_new_fields fl key value cr mr ver lease) as (E1 & E2 & E3 & E4 & E5).
  assert (rec_len (KvWalRecord_new fl key value cr mr ver lease)
          = 13 + Z.of_nat (length (kv_blob key value cr mr ver lease))) as E6.
  { unfold KvWalRecord_new. rewrite encode_kv_offsets. cbn [rec_len].
    unfold KV_HEADER_SIZE, KV_CRC_SIZE. rewrite u32_wrap_small; [lia|]. unfold is_u32. lia. }
  assert (0 <= u16_wrap (Z.of_nat (mod_rev_pos key cr)) <= Z.of_nat (mod_rev_pos key cr)) as Hw.
  { unfold u16_wrap. split; [apply Z.mod_pos_bound; lia|apply Z.mod_le; lia]. }
  assert (is_u16 (u16_wrap (Z.of_nat (mod_rev_pos key cr)))) by (apply Z.mod_pos_bound; lia).
  split; rewrite ?E1, ?E2, ?E3, ?E4, ?E6; unfold is_u32, is_u16 in *; try lia.
  by rewrite E5, E2.
Qed.

(** ** Round trip *)

Lemma deserialize_serialize r rest :
  rec_wf r -> deserialize (serialize r ++ rest) = inl (r, rec_len r).
Proof.
  intros W. destruct W as [Hf Hko Hmo Hrl Hrl32 Hcrc Hkb Hmb].
  destruct (header_fields r (kv_bytes r ++ to_le 4 (crc r) ++ rest) Hko Hmo Hrl32) as (F1 & F2 & F3).
  unfold deserialize. rewrite serialize_split, <- !app_assoc in *.
  assert (length (header r ++ kv_bytes r ++ to_le 4 (crc r) ++ rest)
          = (13 + length (kv_bytes r) + length rest)%nat) as Hlen
    by (rewrite !length_app, length_header, length_to_le; lia).
  set (data := header r ++ kv_bytes r ++ to_le 4 (crc r) ++ rest) in *.
  assert (data = to_u8 (flags r) :: drop 1 data) as Hd by reflexivity.
  rewrite Hd. cbv beta iota. rewrite <- Hd. unfold KV_HEADER_SIZE, KV_CRC_SIZE.
  rewrite (proj2 (Z.ltb_ge _ (9 + 4))) by lia. rewrite F1, F2, F3. cbv zeta.
  rewrite (proj2 (Z.ltb_ge (rec_len r) _)) by lia. rewrite (proj2 (Z.ltb_ge _ (rec_len r))) by lia.
  replace (Z.to_nat (rec_len r - 9 - 4)) with (length (kv_bytes r)) by lia.
  replace (Z.to_nat (9 + (rec_len r - 9 - 4))) with (9 + length (kv_bytes r))%nat by lia.
  assert (take (length (kv_bytes r)) (drop (Z.to_nat 9) data) = kv_bytes r) as ->.
  { subst data. rewrite drop_app_length' by (by rewrite length_header). apply take_app_length. }
  assert (take (9 + length (kv_bytes r)) data = header r ++ kv_bytes r) as ->.
  { subst data. rewrite app_assoc. apply take_app_length'. rewrite length_app, length_header. lia. }
  assert (le_at 4 (9 + length (kv_bytes r)) data = crc r) as ->.
  { subst data. rewrite app_assoc. rewrite le_at_app by (rewrite ?length_app, ?length_header, ?length_to_le; lia).
    apply from_le_to_le. rewrite Hcrc. apply crc32c_range. }
  rewrite <- Hcrc, Z.eqb_refl. cbn [negb].
  rewrite (proj2 (Z.leb_gt _ _)) by lia. rewrite (proj2 (Z.ltb_ge _ _)) by lia. cbn [orb].
  rewrite u8_to_u8 by lia. by destruct r.
Qed.

(** [le_at] and [to_le] are inverse on a long enough buffer. *)
Lemma to_le_at n i (data : bytes) :
  (i + n <= length data)%nat -> to_le n (le_at n i data) = take n (drop i data).
Proof. intros. unfold le_at. apply to_le_from_le. rewrite length_take, length_drop. lia. Qed.

Lemma le_at_range n i (data : bytes) : (i + n <= length data)%nat -> 0 <= le_at n i data < 2 ^ (8 * Z.of_nat n).
Proof.
  intros. unfold le_at. pose proof (from_le_range (take n (drop i data))) as Hr.
  rewrite length_take, length_drop, Nat.min_l in Hr by lia. done.
Qed.

Lemma take_drop_app n m (l : bytes) : take n l ++ take m (drop n l) = take (n + m) l.
Proof. by rewrite take_take_drop. Qed.

(** [deserialize] accepts nothing but the serialisation of a well-formed record. *)
Lemma deserialize_inv data r n :
  deserialize data = inl (r, n) ->
  rec_wf r /\ n = rec_len r /\ exists rest, data = serialize r ++ rest.
Proof.
  unfold deserialize, KV_HEADER_SIZE, KV_CRC_SIZE. destruct data as [|d0 data']; [done|].
  remember (d0 :: data') as data eqn:Hd0. cbv zeta.
  destruct (Z.ltb_spec (Z.of_nat (length data)) (9 + 4)) as [|Hlen]; [done|].
  destruct (Z.ltb_spec (le_at 4 5 data) (9 + 4)) as [|Hmin]; [done|].
  destruct (Z.ltb_spec (Z.of_nat (length data)) (le_at 4 5 data)) as [|Hmax]; [done|].
  remember (le_at 4 5 data) as rl eqn:Hrl.
  remember (Z.to_nat (rl - 9 - 4)) as kl eqn:Hkl.
  replace (Z.to_nat (9 + (rl - 9 - 4))) with (9 + kl)%nat by lia.
  remember (9 + kl)%nat as ke eqn:Hke. change (Z.to_nat 9) with 9%nat.
  destruct (Z.eqb_spec (crc32c (take ke data)) (le_at 4 ke data)) as [Hcrc|]; [|done].
  cbn [negb]. destruct (Z.leb_spec (Z.of_nat (length (take kl (drop 9 data)))) (le_at 2 1 data)) as [|Hk]; [done|].
  destruct (Z.ltb_spec (Z.of_nat (length (take kl (drop 9 data)))) (le_at 2 3 data + 10)) as [|Hm]; [done|].
  cbn [orb]. intros [= <- <-].
  assert (length (take kl (drop 9 data)) = kl) as Hkvl by (rewrite length_take, length_drop; lia).
  assert (header (mkRecord (u8 d0) (take kl (drop 9 data)) (le_at 2 1 data) (le_at 2 3 data) rl
            (le_at 4 ke data)) = take 9 data) as Hhdr.
  { unfold header. cbn [flags key_offset mod_rev_offset rec_len]. rewrite Hrl, to_u8_u8, !to_le_at by lia.
    replace [d0] with (take 1 data) by (by rewrite Hd0). rewrite !app_assoc, (take_drop_app 1 2), (take_drop_app 3 2), (take_drop_app 5 4).
    done. }
  pose proof (le_at_range 2 1 data ltac:(lia)). pose proof (le_at_range 2 3 data ltac:(lia)).
  pose proof (le_at_range 4 5 data ltac:(lia)).
  change (2 ^ (8 * Z.of_nat 2)) with (2 ^ 16) in *. change (2 ^ (8 * Z.of_nat 4)) with (2 ^ 32) in *.
  pose proof (u8_range d0).
  split; [|split; [done|]].
  - rewrite Hkvl in Hk, Hm. split; rewrite ?Hhdr; cbn [flags kv_bytes key_offset mod_rev_offset rec_len crc];
      rewrite ?Hkvl; unfold is_u16, is_u32; try lia.
    rewrite take_drop_app, <- Hke. done.
  - exists (drop (13 + kl) data). rewrite serialize_split, Hhdr. cbn [kv_bytes crc].
    rewrite to_le_at by lia. rewrite app_assoc, take_drop_app, <- Hke, take_drop_app, Hke.
    replace (9 + kl + 4)%nat with (13 + kl)%nat by lia. by rewrite take_drop.
Qed.

(** ** The scan *)

Lemma serialize_rec_len r rest : rec_wf r -> le_at 4 5 (serialize r ++ rest) = rec_len r.
Proof.
  intros W. rewrite serialize_split, <- !app_assoc.
  apply header_fields; apply W.
Qed.

Lemma length_serialize_Z r : rec_wf r -> Z.of_nat (length (serialize r)) = rec_len r.
Proof. intros W. rewrite length_serialize, (wf_rec_len r W). lia. Qed.

Lemma scan_loop_cons fuel r rest cur :
  rec_wf r ->
  scan_loop (S fuel) (serialize r ++ rest) cur
  = let '(rs, e) := scan_loop fuel rest (cur + rec_len r) in (r :: rs, e).
Proof.
  intros W. pose proof (length_serialize_Z r W) as Hl. pose proof (length_serialize r) as Hl'.
  cbn [scan_loop]. rewrite serialize_rec_len by done. unfold KV_HEADER_SIZE, KV_CRC_SIZE.
  rewrite (proj2 (Z.ltb_ge _ 9)) by (rewrite length_app; lia).
  rewrite (proj2 (Z.ltb_ge (rec_len r) _)) by lia.
  rewrite (proj2 (Z.ltb_ge _ (rec_len r))) by (rewrite length_app; lia).
  replace (Z.to_nat (rec_len r)) with (length (serialize r)) by lia.
  rewrite take_app_length, drop_app_length. rewrite <- (app_nil_r (serialize r)) at 1.
  by rewrite deserialize_serialize.
Qed.

(** More fuel than bytes changes nothing: the scan is total. *)
Lemma scan_loop_fuel fuel1 fuel2 rest cur :
  (length rest < fuel1)%nat -> (length rest < fuel2)%nat ->
  scan_loop fuel1 rest cur = scan_loop fuel2 rest cur.
Proof.
  revert fuel2 rest cur. induction fuel1 as [|f1 IH]; intros fuel2 rest cur H1 H2; [lia|].
  destruct fuel2 as [|f2]; [lia|]. cbn [scan_loop]. unfold KV_HEADER_SIZE, KV_CRC_SIZE.
  destruct (Z.ltb_spec (Z.of_nat (length rest)) 9); [done|].
  destruct (Z.ltb_spec (le_at 4 5 rest) (9 + 4)); [done|].
  destruct (Z.ltb_spec (Z.of_nat (length rest)) (le_at 4 5 rest)); [done|].
  destruct (deserialize _) as [[r c]|]; [|done].
  rewrite (IH f2); [done|rewrite length_drop; lia..].
Qed.

Definition log_bytes (rs : list KvWalRecord) : bytes := concat (serialize <$> rs).

Lemma log_bytes_one r : log_bytes [r] = serialize r.
Proof. exact (app_nil_r (serialize r)). Qed.

Lemma log_bytes_app rs1 rs2 : log_bytes (rs1 ++ rs2) = log_bytes rs1 ++ log_bytes rs2.
Proof. unfold log_bytes. by rewrite fmap_app, concat_app. Qed.

(** Scanning a log and then something else. *)
Lemma scan_loop_log rs rest cur fuel :
  Forall rec_wf rs -> (length (log_bytes rs ++ rest) < fuel)%nat ->
  scan_loop fuel (log_bytes rs ++ rest) cur
  = let '(rs', e) := scan_loop (S (length rest)) rest (cur + Z.of_nat (length (log_bytes rs))) in
    (rs ++ rs', e).
Proof.
  intros Hwf. revert cur fuel. induction Hwf as [|r rs Hr Hwf IH]; intros cur fuel Hf.
  - change (log_bytes []) with (@nil byte) in *. cbn [app length] in *.
    rewrite Z.add_0_r, (scan_loop_fuel fuel (S (length rest))) by lia.
    by destruct (scan_loop _ _ _).
  - change (log_bytes (r :: rs)) with (serialize r ++ log_bytes rs) in *.
    rewrite <- app_assoc in *. destruct fuel as [|fuel]; [lia|].
    rewrite !length_app in Hf. pose proof (length_serialize r).
    rewrite scan_loop_cons by done. rewrite IH by (rewrite ?length_app; lia).
    rewrite length_app, <- (length_serialize_Z r Hr).
    replace (cur + Z.of_nat (length (serialize r)) + Z.of_nat (length (log_bytes rs)))
      with (cur + Z.of_nat (length (serialize r) + length (log_bytes rs))) by lia.
    by destruct (scan_loop _ _ _).
Qed.

Lemma scan_loop_nil fuel cur : scan_loop fuel [] cur = ([], inl cur).
Proof. by destruct fuel. Qed.

Lemma scan_log rs :
  Forall rec_wf rs -> scan_kv_file (log_bytes rs) 0 = (rs, inl (Z.of_nat (length (log_bytes rs)))).
Proof.
  intros Hwf. unfold scan_kv_file. change (drop (Z.to_nat 0) (log_bytes rs)) with (log_bytes rs).
  pose proof (scan_loop_log rs [] 0 (S (length (log_bytes rs))) Hwf) as E.
  rewrite app_nil_r in E. rewrite E by lia. by rewrite scan_loop_nil, app_nil_r.
Qed.

(** A torn tail (a strict prefix of a record) is detected by its length alone. *)
Lemma scan_loop_torn r n cur fuel :
  rec_wf r -> (n < length (serialize r))%nat ->
  scan_loop (S fuel) (take n (serialize r)) cur = ([], inl cur).
Proof.
  intros W Hn. cbn [scan_loop]. unfold KV_HEADER_SIZE, KV_CRC_SIZE.
  rewrite length_take, Nat.min_l by lia.
  destruct (Z.ltb_spec (Z.of_nat n) 9); [done|].
  assert (le_at 4 5 (take n (serialize r)) = rec_len r) as ->.
  { rewrite <- (serialize_rec_len r []), app_nil_r by done. unfold le_at.
    rewrite skipn_firstn_comm, take_take. do 2 f_equal. lia. }
  pose proof (length_serialize_Z r W) as Hl. pose proof (length_serialize r).
  rewrite (proj2 (Z.ltb_ge (rec_len r) _)) by lia. rewrite (proj2 (Z.ltb_lt _ (rec_len r))) by lia. done.
Qed.

(** Cutting a log anywhere leaves whole records and at most one torn one. *)
Lemma log_bytes_cut rs n :
  exists k tail, take n (log_bytes rs) = log_bytes (take k rs) ++ tail
    /\ (tail = [] /\ (length rs <= k)%nat \/ exists r m, rs !! k = Some r /\ tail = take m (serialize r)
          /\ (m < length (serialize r))%nat).
Proof.
  revert n. induction rs as [|r rs IH]; intros n.
  - exists O, []. split; [by destruct n|left; done].
  - change (log_bytes (r :: rs)) with (serialize r ++ log_bytes rs).
    destruct (decide (n < length (serialize r))%nat) as [Hlt|Hge].
    + exists O, (take n (serialize r)). cbn [take log_bytes fmap list_fmap concat app].
      rewrite take_app_le by lia. split; [done|]. right. exists r, n. auto.
    + destruct (IH (n - length (serialize r))%nat) as (k & tail & E & Ht).
      exists (S k), tail. rewrite take_app_ge by lia. rewrite E. split; [|destruct Ht as [[? ?]|?]; [left; split; [done|cbn; lia]|by right]].
      change (take (S k) (r :: rs)) with (r :: take k rs).
      change (log_bytes (r :: take k rs)) with (serialize r ++ log_bytes (take k rs)).
      by rewrite app_assoc.
Qed.

Lemma scan_log_tail rs tail :
  Forall rec_wf rs ->
  (tail = [] \/ exists r m, rec_wf r /\ tail = take m (serialize r) /\ (m < length (serialize r))%nat) ->
  scan_kv_file (log_bytes rs ++ tail) 0 = (rs, inl (Z.of_nat (length (log_bytes rs)))).
Proof.
  intros Hwf Ht. unfold scan_kv_file.
  change (drop (Z.to_nat 0) (log_bytes rs ++ tail)) with (log_bytes rs ++ tail).
  rewrite scan_loop_log by (done || lia).
  destruct Ht as [->|(r & m & Hr & -> & Hm)];
    [rewrite scan_loop_nil|rewrite scan_loop_torn by done]; by rewrite app_nil_r.
Qed.

(** ** Appending *)

Lemma append_kv_ok w r w' :
  append_kv w r = (w', inl tt) ->
  file w' = file w ++ serialize r /\ dirty w' = true /\ faults w' = tail (faults w).
Proof.
  unfold append_kv, write_all. destruct (faults w) as [|[n|] fs]; intros [= <-]; done.
Qed.

Lemma write_records_ok w rs w' :
  write_records w rs = (w', inl tt) ->
  file w' = file w ++ log_bytes rs /\ faults w' = drop (length rs) (faults w).
Proof.
  revert w. induction rs as [|r rs IH]; intros w; cbn [write_records].
  - intros [= <-]. by rewrite app_nil_r.
  - unfold write_all. destruct (faults w) as [|[n|] fs] eqn:E; [|done|];
      intros [Hf Hq]%IH; cbn [file faults] in *; rewrite Hf, Hq;
      (split; [by rewrite <- app_assoc|by rewrite ?drop_nil]).
Qed.

Lemma append_kv_batch_ok w rs w' :
  append_kv_batch w rs = (w', inl tt) ->
  file w' = file w ++ log_bytes rs /\ dirty w' = true /\ faults w' = drop (length rs) (faults w).
Proof.
  unfold append_kv_batch. destruct (write_records w rs) as [w1 [[]|e]] eqn:E; [|done].
  intros [= <-]. by apply write_records_ok in E as [? ?].
Qed.

(** A failed append leaves a prefix of what it meant to write. *)
Lemma append_kv_err w r w' e :
  append_kv w r = (w', inr e) -> exists n, file w' = file w ++ take n (serialize r).
Proof.
  unfold append_kv, write_all. destruct (faults w) as [|[n|] fs]; intros [= <- _]; eauto.
Qed.

Lemma write_records_err w rs w' e :
  write_records w rs = (w', inr e) -> exists n, file w' = file w ++ take n (log_bytes rs).
Proof.
  revert w. induction rs as [|r rs IH]; intros w; cbn [write_records]; [done|].
  change (log_bytes (r :: rs)) with (serialize r ++ log_bytes rs).
  unfold write_all. destruct (faults w) as [|[n|] fs] eqn:E.
  - intros [n ->]%IH. exists (length (serialize r) + n)%nat. cbn [file].
    by rewrite take_app_add, <- app_assoc.
  - intros [= <- _]. exists (Nat.min n (length (serialize r))). cbn [file]. f_equal.
    rewrite take_app_le by lia. rewrite <- (firstn_all (serialize r)) at 1. by rewrite take_take.
  - intros [n ->]%IH. exists (length (serialize r) + n)%nat. cbn [file].
    by rewrite take_app_add, <- app_assoc.
Qed.

Lemma append_kv_batch_err w rs w' e :
  append_kv_batch w rs = (w', inr e) -> exists n, file w' = file w ++ take n (log_bytes rs).
Proof.
  unfold append_kv_batch. destruct (write_records w rs) as [w1 [[]|e1]] eqn:E; [done|].
  intros [= <- _]. by eapply write_records_err.
Qed.

End Records.
End Wal.
