(* ===== verification/Proto.v ===== *)
(** * Requests and responses (proto/rpc.proto)

    The generated message types, restricted to the fields the server reads or
    writes. Enum-typed fields stay raw integers, as in the generated code. *)
From S2P Require Import Prelude.
Local Open Scope Z_scope.

Module Proto.

Record ResponseHeader := mkHeader { cluster_id : Z; member_id : Z; revision : Z; raft_term : Z }.

Record RangeRequest := mkRange {
  rr_key : bytes; rr_range_end : bytes; rr_limit : Z; rr_revision : Z;
  rr_sort_order : Z; rr_sort_target : Z; rr_keys_only : bool; rr_count_only : bool;
  rr_min_mod_revision : Z; rr_max_mod_revision : Z;
  rr_min_create_revision : Z; rr_max_create_revision : Z }.

(** A range request with every other field at its default. *)
Definition range_req (key range_end : bytes) (rev : Z) : RangeRequest :=
  mkRange key range_end 0 rev 0 0 false false 0 0 0 0.

Record RangeResponse := mkRangeResponse {
  rs_header : option ResponseHeader; rs_kvs : list bytes; rs_more : bool; rs_count : Z }.

Record PutRequest := mkPut {
  pr_key : bytes; pr_value : bytes; pr_lease : Z; pr_prev_kv : bool;
  pr_ignore_value : bool; pr_ignore_lease : bool }.

Record PutResponse := mkPutResponse { ps_header : option ResponseHeader; ps_prev_kv : bytes }.

Record DeleteRangeRequest := mkDelete { dr_key : bytes; dr_range_end : bytes; dr_prev_kv : bool }.

Record DeleteRangeResponse := mkDeleteResponse {
  ds_header : option ResponseHeader; ds_deleted : Z; ds_prev_kvs : list bytes }.

Inductive TargetUnion :=
| TVersion (v : Z) | TCreateRevision (v : Z) | TModRevision (v : Z) | TValue (v : bytes) | TLease (v : Z).

Record Compare := mkCompare {
  cmp_result : Z; cmp_target : Z; cmp_key : bytes; cmp_range_end : bytes; cmp_target_union : option TargetUnion }.

Inductive RequestOp :=
| RequestRange (r : RangeRequest)
| RequestPut (p : PutRequest)
| RequestDeleteRange (d : DeleteRangeRequest)
| RequestTxn (t : TxnRequest)
| RequestNone
with TxnRequest :=
| mkTxn (compare : list Compare) (success failure : list RequestOp).

Inductive ResponseOp :=
| ResponseRange (r : RangeResponse)
| ResponsePut (p : PutResponse)
| ResponseDeleteRange (d : DeleteRangeResponse)
| ResponseTxn (t : TxnResponse)
| ResponseNone
with TxnResponse :=
| mkTxnResponse (header : option ResponseHeader) (succeeded : bool) (responses : list ResponseOp).

Definition ts_succeeded (t : TxnResponse) : bool := let 'mkTxnResponse _ b _ := t in b.

Record LeaseGrantRequest := mkGrant { lg_ttl : Z; lg_id : Z }.
Record LeaseGrantResponse := mkGrantResponse { lgs_header : option ResponseHeader; lgs_id : Z; lgs_ttl : Z }.
Record LeaseKeepAliveResponse := mkKeepAlive { lk_header : option ResponseHeader; lk_id : Z; lk_ttl : Z }.
Record LeaseTimeToLiveRequest := mkTtl { lt_id : Z; lt_keys : bool }.
Record LeaseTimeToLiveResponse := mkTtlResponse {
  lts_header : option ResponseHeader; lts_id : Z; lts_ttl : Z; lts_granted_ttl : Z; lts_keys : list bytes }.

Inductive EventType := EvPut | EvDelete.

#[global] Instance EventType_eq_dec : EqDecision EventType.
Proof. solve_decision. Defined.

(** [event_type as i32]. *)
Definition event_code (e : EventType) : Z := match e with EvPut => 0 | EvDelete => 1 end.

End Proto.
