(* ===== verification/Range.v ===== *)
(** * Key ranges (src/storage/mod.rs and the interval checks of store.rs)

    [resolve_range] turns the wire pair (key, range_end) into a bound;
    [matches_range] decides membership and [btree_bounds] drives iteration. The
    transaction validator works on half-open intervals. *)
From S2P Require Import Prelude Proto.
Local Open Scope Z_scope.

Module Range.
Import Proto.

Inductive RangeBound :=
| All
| Point (k : bytes)
| From (k : bytes)
| Prefix (p : bytes)
| Range (s e : bytes).

(** [l\[i\]] for an index already checked against the length. *)
Definition byte_at (l : bytes) (i : nat) : Z := u8 (default Byte.x00 (l !! i)).

Definition bytes_eqb (a b : bytes) : bool := bool_decide (a = b).

Definition resolve_range (key range_end : bytes) : RangeBound :=
  let kl := length key in
  let rl := length range_end in
  if (rl =? 0)%nat then Point key
  else if (rl =? 1)%nat && (byte_at range_end 0 =? 0)
  then (if (kl =? 0)%nat then All else From key)
  else if (kl =? 0)%nat && (rl =? 1)%nat && (byte_at range_end 0 =? 0) then All
  else if (rl =? kl)%nat && negb (rl =? 0)%nat
          && bytes_eqb (take (rl - 1) range_end) (take (kl - 1) key)
          && (byte_at range_end (kl - 1) =? (byte_at key (kl - 1) + 1) mod 256)
          && negb (byte_at key (kl - 1) =? 255)
  then Prefix key
  else if (rl =? kl + 1)%nat && bytes_eqb (take kl range_end) key && (byte_at range_end kl =? 0)
  then Prefix key
  else Range key range_end.

(** [key.starts_with(p)] *)
Definition starts_with (key p : bytes) : bool := bool_decide (p `prefix_of` key).

Definition matches_range (bound : RangeBound) (key : bytes) : bool :=
  match bound with
  | All => true
  | Point k => bytes_eqb key k
  | From k => bytes_leb k key
  | Prefix p => starts_with key p
  | Range s e => bytes_leb s key && bytes_ltb key e
  end.

Definition btree_bounds (bound : RangeBound) : option bytes * option bytes :=
  match bound with
  | All => (None, None)
  | Point k => (Some k, Some (k ++ [Byte.x00]))
  | From k => (Some k, None)
  | Prefix p => (Some p, None)
  | Range s e => (Some s, Some e)
  end.

(** ** Transaction write intervals (store.rs) *)

Definition interval : Type := (bytes * option bytes)%type.

Definition point_interval (key : bytes) : interval := (key, Some (key ++ [Byte.x00])).

(** The [while let Some(last) = v.last_mut()] loop, on the reversed vector. *)
Fixpoint prefix_end_loop (rv : bytes) : option bytes :=
  match rv with
  | [] => None
  | last :: rest =>
      if u8 last =? 255 then prefix_end_loop rest else Some (reverse (to_u8 (u8 last + 1) :: rest))
  end.

Definition prefix_end (prefix : bytes) : option bytes := prefix_end_loop (reverse prefix).

Definition bound_interval (bound : RangeBound) : interval :=
  match bound with
  | All => ([], None)
  | Point k => point_interval k
  | Prefix p => (p, prefix_end p)
  | From k => (k, None)
  | Range s e => (s, Some e)
  end.

Definition interval_empty (a : interval) : bool :=
  match a.2 with Some e => bytes_leb e a.1 | None => false end.

Definition starts_before_end (start : bytes) (e : option bytes) : bool :=
  match e with Some e => bytes_ltb start e | None => true end.

Definition intervals_overlap (a b : interval) : bool :=
  if interval_empty a then false
  else if interval_empty b then false
  else starts_before_end a.1 b.2 && starts_before_end b.1 a.2.

Definition check_key (key : bytes) : outcome unit :=
  match key with
  | [] => Err (mkStatus InvalidArgument "etcdserver: key is not provided")
  | _ :: _ => Ok tt
  end.

(** The double loop over [i < j]. *)
Fixpoint any_overlap (ivs : list interval) : bool :=
  match ivs with
  | [] => false
  | iv :: ivs => existsb (intervals_overlap iv) ivs || any_overlap ivs
  end.

Definition check_disjoint (ivs : list interval) : outcome unit :=
  if any_overlap ivs
  then Err (mkStatus InvalidArgument "etcdserver: duplicate key given in txn request")
  else Ok tt.

(** One operation: its write intervals, nested transactions checked on the way. *)
Fixpoint check_op (op : RequestOp) : outcome (list interval) :=
  let check_branch (ops : list RequestOp) : outcome unit :=
    let? ivs := (fix collect (ops : list RequestOp) : outcome (list interval) :=
                   match ops with
                   | [] => Ok []
                   | op :: ops => let? iv := check_op op in
                                  let? ivs := collect ops in Ok (iv ++ ivs)
                   end) ops in
    check_disjoint ivs in
  match op with
  | RequestPut p => let? _ := check_key (pr_key p) in Ok [point_interval (pr_key p)]
  | RequestDeleteRange d =>
      let? _ := check_key (dr_key d) in
      Ok [bound_interval (resolve_range (dr_key d) (dr_range_end d))]
  | RequestRange r => let? _ := check_key (rr_key r) in Ok []
  | RequestTxn (mkTxn _ success failure) =>
      let? _ := check_branch success in
      let? _ := check_branch failure in Ok []
  | RequestNone => Ok []
  end.

Fixpoint collect_intervals (ops : list RequestOp) : outcome (list interval) :=
  match ops with
  | [] => Ok []
  | op :: ops => let? iv := check_op op in let? ivs := collect_intervals ops in Ok (iv ++ ivs)
  end.

Definition check_txn_branch (ops : list RequestOp) : outcome unit :=
  let? ivs := collect_intervals ops in check_disjoint ivs.

Definition check_txn_duplicate_keys (req : TxnRequest) : outcome unit :=
  let 'mkTxn _ success failure := req in
  let? _ := check_txn_branch success in check_txn_branch failure.

(** ** Lexicographic order and prefixes *)

Lemma bytes_cmp_cons a b x y :
  bytes_cmp (a :: x) (b :: y) = match u8 a ?= u8 b with Eq => bytes_cmp x y | c => c end.
Proof. done. Qed.

Lemma prefix_le p k : p `prefix_of` k -> bytes_le p k.
Proof.
  intros [l ->]. unfold bytes_le. induction p as [|a p IH]; [by destruct l|].
  cbn [app]. by rewrite bytes_cmp_cons, Z.compare_refl.
Qed.

Lemma prefix_end_loop_snoc r a :
  prefix_end_loop (r ++ [a]) =
  match prefix_end_loop r with
  | Some e => Some (a :: e)
  | None => if u8 a =? 255 then None else Some [to_u8 (u8 a + 1)]
  end.
Proof.
  induction r as [|b r IH]; cbn [prefix_end_loop app]; [by destruct (u8 a =? 255)|].
  destruct (u8 b =? 255); [done|]. by rewrite app_comm_cons, reverse_app.
Qed.

Lemma prefix_end_cons a p :
  prefix_end (a :: p) =
  match prefix_end p with
  | Some e => Some (a :: e)
  | None => if u8 a =? 255 then None else Some [to_u8 (u8 a + 1)]
  end.
Proof. unfold prefix_end. by rewrite reverse_cons, prefix_end_loop_snoc. Qed.

(** [k] is below the (possibly missing) upper bound. *)
Definition below (k : bytes) (e : option bytes) : Prop :=
  match e with Some e => bytes_lt k e | None => True end.

(** The interval \[p, prefix_end p) is exactly the set of keys with prefix [p]. *)
Lemma prefix_interval p k : p `prefix_of` k <-> bytes_le p k /\ below k (prefix_end p).
Proof.
  revert k. induction p as [|a p IH]; intros k.
  { split; [intros _|intros _; apply prefix_nil]. split; [apply bytes_nil_le|done]. }
  destruct k as [|b k].
  { split; [intros H; by apply prefix_nil_not in H|]. intros [H _]. by destruct H. }
  rewrite prefix_end_cons. pose proof (u8_range a). pose proof (u8_range b).
  split.
  - intros H'. pose proof (prefix_le _ _ H') as Hle. split; [done|].
    apply prefix_cons_inv_1 in H' as Hab. apply prefix_cons_inv_2 in H'. subst b.
    apply IH in H' as [_ Hb]. destruct (prefix_end p) as [e|]; cbn [below] in *.
    + unfold bytes_lt in *. by rewrite bytes_cmp_cons, Z.compare_refl.
    + destruct (Z.eqb_spec (u8 a) 255); [done|]. cbn. unfold bytes_lt.
      rewrite bytes_cmp_cons, u8_to_u8 by lia.
      by rewrite (proj2 (Z.compare_lt_iff _ _)) by lia.
  - intros [Hle Hb]. unfold bytes_le in Hle. rewrite bytes_cmp_cons in Hle.
    destruct (Z.compare_spec (u8 a) (u8 b)) as [E|Hlt|]; [|exfalso|done].
    + apply u8_inj in E as <-. apply prefix_cons, IH. split; [done|].
      destruct (prefix_end p) as [e|]; [|done]. cbn [below] in *. unfold bytes_lt in *.
      by rewrite bytes_cmp_cons, Z.compare_refl in Hb.
    + destruct (prefix_end p) as [e|]; cbn [below] in Hb.
      * unfold bytes_lt in Hb. rewrite bytes_cmp_cons in Hb.
        by rewrite (proj2 (Z.compare_gt_iff _ _)) in Hb by lia.
      * destruct (Z.eqb_spec (u8 a) 255); [lia|]. cbn in Hb. unfold bytes_lt in Hb.
        rewrite bytes_cmp_cons, u8_to_u8 in Hb by lia.
        destruct (Z.compare_spec (u8 b) (u8 a + 1)); [|lia|done]. by destruct k.
Qed.

(** [k ++ \[0\]] is the immediate successor of [k]. *)
Lemma successor_lt k k' : bytes_lt k' (k ++ [Byte.x00]) <-> bytes_le k' k.
Proof.
  revert k'. induction k as [|a k IH]; intros k'.
  - destruct k' as [|b k']; [done|]. unfold bytes_lt, bytes_le. cbn [app]. rewrite bytes_cmp_cons.
    change (u8 Byte.x00) with 0. pose proof (u8_range b).
    destruct (Z.compare_spec (u8 b) 0); [destruct k'|lia|]; cbn; split; congruence.
  - destruct k' as [|b k']; [done|]. cbn [app]. unfold bytes_lt, bytes_le.
    rewrite !bytes_cmp_cons. destruct (u8 b ?= u8 a); [apply IH|split; congruence..].
Qed.

Lemma point_between k k' : bytes_le k k' /\ bytes_lt k' (k ++ [Byte.x00]) <-> k' = k.
Proof.
  rewrite successor_lt. split; [intros []; by apply (key_le_antisymm (K:=list Byte.byte))|].
  intros ->. split; apply bytes_le_lteq; auto.
Qed.

(** ** Membership of an interval *)

Definition in_interval (k : bytes) (iv : interval) : Prop := bytes_le iv.1 k /\ below k iv.2.

Lemma matches_bound_interval b k : matches_range b k = true <-> in_interval k (bound_interval b).
Proof.
  unfold in_interval. destruct b; cbn [matches_range bound_interval point_interval fst snd].
  - split; [intros _; split; [apply bytes_nil_le|done]|done].
  - unfold bytes_eqb. rewrite bool_decide_eq_true. cbn [below]. by rewrite point_between.
  - rewrite bytes_leb_le. cbn. naive_solver.
  - unfold starts_with. rewrite bool_decide_eq_true. apply prefix_interval.
  - rewrite andb_true_iff, bytes_leb_le, bytes_ltb_lt. done.
Qed.

Lemma interval_empty_spec a : interval_empty a = true <-> forall k, ~ in_interval k a.
Proof.
  unfold interval_empty, in_interval. destruct a as [s [e|]]; cbn [fst snd below].
  - rewrite bytes_leb_le. split.
    + intros Hes k [Hs He]. by apply (bytes_lt_irrefl k), (bytes_lt_le_trans _ e), (bytes_le_trans _ s).
    + intros Hn. apply bytes_not_lt. intros Hlt. apply (Hn s). split; [apply bytes_le_lteq; auto|done].
  - split; [done|]. intros Hn. destruct (Hn s). split; [apply bytes_le_lteq; auto|done].
Qed.

Lemma starts_before_end_spec s e : starts_before_end s e = true <-> below s e.
Proof. destruct e; cbn; [apply bytes_ltb_lt|done]. Qed.

Lemma below_le k k' e : bytes_le k k' -> below k' e -> below k e.
Proof. destruct e; cbn; [apply bytes_le_lt_trans|done]. Qed.

(** The overlap test is exact: it fires iff some key lies in both intervals. *)
Lemma intervals_overlap_spec a b :
  intervals_overlap a b = true <-> exists k, in_interval k a /\ in_interval k b.
Proof.
  unfold intervals_overlap.
  destruct (interval_empty a) eqn:Ea.
  { rewrite interval_empty_spec in Ea. split; [done|]. intros (k & Hk & _). by destruct (Ea k). }
  destruct (interval_empty b) eqn:Eb.
  { rewrite interval_empty_spec in Eb. split; [done|]. intros (k & _ & Hk). by destruct (Eb k). }
  rewrite andb_true_iff, !starts_before_end_spec. split.
  - intros [Hab Hba].
    assert (forall iv, interval_empty iv = false -> below iv.1 iv.2) as Hne.
    { intros [s [e|]]; cbn; [|done]. intros Hf. apply bytes_ltb_lt. unfold bytes_leb in Hf.
      unfold bytes_ltb. rewrite (bytes_cmp_antisym e s) in *. by destruct (bytes_cmp e s). }
    destruct (key_le_total (K:=list Byte.byte) a.1 b.1) as [Hle|Hle].
    + exists b.1. split; split; auto. apply bytes_le_lteq; auto.
    + exists a.1. split; split; auto. apply bytes_le_lteq; auto.
  - intros (k & [Ha1 Ha2] & [Hb1 Hb2]). split; eapply below_le; eauto.
Qed.

(** ** [resolve_range] against its documented meaning *)

(** rpc.proto: no [range_end] is the key alone, "\0" is every key from [key] on,
    anything else the half-open range \[key, range_end). *)
Definition documented_range (key range_end k : bytes) : Prop :=
  match range_end with
  | [] => k = key
  | _ => if decide (range_end = [Byte.x00]) then bytes_le key k
         else bytes_le key k /\ bytes_lt k range_end
  end.

Lemma byte_at_snoc l b : byte_at (l ++ [b]) (length l) = u8 b.
Proof. unfold byte_at. by rewrite lookup_app_r, Nat.sub_diag by lia. Qed.

Lemma byte_at_0 l : length l = 1%nat -> byte_at l 0 = 0 -> l = [Byte.x00].
Proof.
  destruct l as [|b [|]]; try done. intros _ E. unfold byte_at in E. cbn in E.
  f_equal. by apply u8_inj.
Qed.

(** Incrementing a last byte other than 0xFF is [prefix_end]. *)
Lemma prefix_end_snoc l b :
  u8 b <> 255 -> prefix_end (l ++ [b]) = Some (l ++ [to_u8 (u8 b + 1)]).
Proof.
  intros Hb. unfold prefix_end. rewrite reverse_app. change (reverse [b]) with [b].
  cbn [app prefix_end_loop].
  rewrite (proj2 (Z.eqb_neq _ _)) by done. by rewrite reverse_cons, reverse_involutive.
Qed.

Inductive resolve_case (key range_end : bytes) : RangeBound -> Prop :=
| rc_point : range_end = [] -> resolve_case key range_end (Point key)
| rc_all : range_end = [Byte.x00] -> key = [] -> resolve_case key range_end All
| rc_from : range_end = [Byte.x00] -> key <> [] -> resolve_case key range_end (From key)
| rc_prefix : range_end <> [] -> range_end <> [Byte.x00] -> prefix_end key = Some range_end ->
    resolve_case key range_end (Prefix key)
| rc_succ : key <> [] -> range_end = key ++ [Byte.x00] -> resolve_case key range_end (Prefix key)
| rc_range : range_end <> [] -> range_end <> [Byte.x00] -> ~ (key <> [] /\ range_end = key ++ [Byte.x00]) ->
    resolve_case key range_end (Range key range_end).

Lemma resolve_range_cases key range_end : resolve_case key range_end (resolve_range key range_end).
Proof.
  unfold resolve_range. destruct (Nat.eqb_spec (length range_end) 0) as [E|Hne].
  { apply rc_point. by apply nil_length_inv. }
  assert (range_end <> []) as Hne' by (by intros ->).
  destruct ((length range_end =? 1)%nat && (byte_at range_end 0 =? 0)) eqn:E0.
  { apply andb_true_iff in E0 as [E1 E2]. apply Nat.eqb_eq in E1. apply Z.eqb_eq in E2.
    pose proof (byte_at_0 _ E1 E2) as ->. destruct (Nat.eqb_spec (length key) 0).
    - apply rc_all; [done|by apply nil_length_inv].
    - apply rc_from; [done|by intros ->]. }
  assert (range_end <> [Byte.x00]) as Hn0 by (by intros ->).
  rewrite <- andb_assoc, E0, andb_false_r.
  match goal with |- context [if ?c then _ else _] => destruct c eqn:E3 end.
  { rewrite !andb_true_iff in E3. destruct E3 as [[[[Hl _] Ht] Hb] Hff].
    apply Nat.eqb_eq in Hl. apply bool_decide_eq_true in Ht. apply Z.eqb_eq in Hb.
    apply negb_true_iff, Z.eqb_neq in Hff. apply rc_prefix; try done.
    destruct key as [|b key _] using rev_ind; [simpl in *; lia|].
    destruct range_end as [|e re _] using rev_ind; [done|].
    rewrite !length_app in *. cbn [length] in *.
    replace (length key + 1 - 1)%nat with (length key) in * by lia.
    replace (length re + 1 - 1)%nat with (length re) in * by lia.
    rewrite !take_app_length in Ht. subst re. rewrite !byte_at_snoc in *.
    rewrite prefix_end_snoc by done. do 3 f_equal. apply u8_inj.
    pose proof (u8_range b). rewrite u8_to_u8 by lia. rewrite Hb. by rewrite Z.mod_small by lia. }
  clear E3. match goal with |- context [if ?c then _ else _] => destruct c eqn:E4 end.
  { rewrite !andb_true_iff in E4. destruct E4 as [[Hl Ht] Hb].
    apply Nat.eqb_eq in Hl. apply bool_decide_eq_true in Ht. apply Z.eqb_eq in Hb.
    assert (range_end = key ++ [Byte.x00]) as Hr.
    { rewrite <- (take_drop (length key) range_end), Ht. f_equal. apply byte_at_0.
      - rewrite length_drop. lia.
      - unfold byte_at in *. by rewrite lookup_drop, Nat.add_0_r. }
    apply rc_succ; [|done]. by intros ->. }
  apply rc_range; try done. intros [Hk ->]. rewrite length_app, take_app_length, byte_at_snoc in E4.
  cbn [length] in E4. rewrite Nat.eqb_refl in E4. unfold bytes_eqb in E4.
  by rewrite bool_decide_eq_true_2 in E4.
Qed.

Lemma matches_documented key range_end k :
  ~ (key <> [] /\ range_end = key ++ [Byte.x00]) ->
  matches_range (resolve_range key range_end) k = true <-> documented_range key range_end k.
Proof.
  intros Hd. destruct (resolve_range_cases key range_end) as [E|E Ek|E Hk|Hn H0 Hp|Hk E|Hn H0 _]; subst;
    rewrite matches_bound_interval; unfold in_interval; cbn [bound_interval point_interval fst snd below].
  - apply point_between.
  - cbn. split; [intros [? _]; apply bytes_nil_le|]. intros _. split; [apply bytes_nil_le|done].
  - cbn. naive_solver.
  - rewrite Hp. cbn [below]. unfold documented_range. destruct range_end; [done|].
    by rewrite decide_False.
  - by destruct Hd.
  - unfold documented_range. destruct range_end; [done|]. by rewrite decide_False.
Qed.

(** ** Iteration bounds *)

Definition prefix_guard (b : RangeBound) (k : bytes) : bool :=
  match b with Prefix p => starts_with k p | _ => true end.

Lemma matches_btree_bounds b k :
  matches_range b k = true <->
  in_bounds (btree_bounds b).1 (btree_bounds b).2 k /\ prefix_guard b k = true.
Proof.
  assert (forall e, ~ bytes_le e k <-> bytes_lt k e) as Hlt.
  { intros e. rewrite <- (bytes_not_lt k e). destruct (decide (bytes_lt k e)); tauto. }
  unfold in_bounds. destruct b; cbn [btree_bounds fst snd prefix_guard matches_range key_le bytes_ord].
  - naive_solver.
  - rewrite Hlt. unfold bytes_eqb. rewrite bool_decide_eq_true, point_between. naive_solver.
  - rewrite bytes_leb_le. naive_solver.
  - unfold starts_with. rewrite !bool_decide_eq_true. split; [|naive_solver].
    intros Hp. pose proof (prefix_le _ _ Hp). naive_solver.
  - rewrite Hlt, andb_true_iff, bytes_leb_le, bytes_ltb_lt. naive_solver.
Qed.

(** Keys sharing a prefix are contiguous. *)
Lemma prefix_convex p k k' :
  bytes_le p k -> bytes_le k k' -> p `prefix_of` k' -> p `prefix_of` k.
Proof. rewrite !prefix_interval. intros Hp Hk [_ Hb]. split; [done|by eapply below_le]. Qed.

(** ** What the validation of a transaction accepts *)

(** The keys an operation of a branch writes itself; a nested transaction writes
    through the operations of its own branches. *)
Definition writes_directly (op : RequestOp) (k : bytes) : Prop :=
  match op with
  | RequestPut p => k = pr_key p
  | RequestDeleteRange d => matches_range (resolve_range (dr_key d) (dr_range_end d)) k = true
  | _ => False
  end.

(** No key is written by two of the operations themselves. *)
Definition apart (ops : list RequestOp) : Prop :=
  forall i j opi opj k, (i < j)%nat -> ops !! i = Some opi -> ops !! j = Some opj ->
    writes_directly opi k -> writes_directly opj k -> False.

Definition has_key (op : RequestOp) : Prop :=
  match op with
  | RequestPut p => pr_key p <> []
  | RequestDeleteRange d => dr_key d <> []
  | RequestRange r => rr_key r <> []
  | _ => True
  end.

(** The branches of a transaction and of the transactions nested in it. *)
Inductive branch_of : TxnRequest -> list RequestOp -> Prop :=
| br_success cmp suc fl : branch_of (mkTxn cmp suc fl) suc
| br_failure cmp suc fl : branch_of (mkTxn cmp suc fl) fl
| br_nested req ops t ops' : branch_of req ops -> RequestTxn t ∈ ops -> branch_of t ops' -> branch_of req ops'.

Lemma outcome_bind_ok {A B} (o : outcome A) (f : A -> outcome B) b :
  outcome_bind o f = Ok b <-> exists a, o = Ok a /\ f a = Ok b.
Proof. destruct o; cbn; naive_solver. Qed.

(** The interval of an operation that writes. *)
Definition op_intervals (op : RequestOp) : list interval :=
  match op with
  | RequestPut p => [point_interval (pr_key p)]
  | RequestDeleteRange d => [bound_interval (resolve_range (dr_key d) (dr_range_end d))]
  | _ => []
  end.

Lemma writes_interval op k : writes_directly op k <-> exists iv, iv ∈ op_intervals op /\ in_interval k iv.
Proof.
  destruct op as [r|p|d|t|]; cbn [writes_directly op_intervals];
    try (split; [done|]; by intros (iv & ?%not_elem_of_nil & _)).
  - rewrite <- (point_between (pr_key p) k). setoid_rewrite list_elem_of_singleton. unfold in_interval. naive_solver.
  - rewrite matches_bound_interval. setoid_rewrite list_elem_of_singleton. naive_solver.
Qed.

(** Two operations write a common key iff their intervals overlap. *)
Lemma overlap_common op op' :
  (exists a b, a ∈ op_intervals op /\ b ∈ op_intervals op' /\ intervals_overlap a b = true)
  <-> exists k, writes_directly op k /\ writes_directly op' k.
Proof. setoid_rewrite writes_interval. setoid_rewrite intervals_overlap_spec. naive_solver. Qed.

Lemma apart_cons op ops :
  apart (op :: ops) <-> (forall op' k, op' ∈ ops -> writes_directly op k -> writes_directly op' k -> False) /\ apart ops.
Proof.
  split.
  - intros Ha. split.
    + intros op' k [j Hj]%list_elem_of_lookup Hw Hw'. by apply (Ha 0%nat (S j) op op' k); [lia|..].
    + intros i j opi opj k Hij Hi Hj. apply (Ha (S i) (S j)); [lia|done|done].
  - intros [Hh Ha] [|i] [|j] opi opj k Hij Hi Hj; try lia; cbn in Hi, Hj.
    + injection Hi as <-. apply Hh. by eapply list_elem_of_lookup_2.
    + apply (Ha i j); [lia|done|done].
Qed.

Lemma existsb_overlap iv (ivs : list interval) : existsb (intervals_overlap iv) ivs = false <-> forall b, b ∈ ivs -> intervals_overlap iv b = false.
Proof.
  induction ivs as [|x ivs IH]; cbn [existsb]; [split; [by intros _ b ?%not_elem_of_nil|done]|].
  rewrite orb_false_iff, IH. setoid_rewrite elem_of_cons. naive_solver.
Qed.

Lemma any_overlap_apart ops : any_overlap (ops ≫= op_intervals) = false <-> apart ops.
Proof.
  induction ops as [|op ops IH]; [split; [by intros _ ? ? ? ? ? ? ?|done]|].
  rewrite bind_cons, apart_cons, <- IH.
  assert ((forall op' k, op' ∈ ops -> writes_directly op k -> writes_directly op' k -> False)
    <-> forall a b, a ∈ op_intervals op -> b ∈ ops ≫= op_intervals -> intervals_overlap a b = false) as ->.
  { split.
    - intros Hn a b Ha (op' & Hb & Hin)%list_elem_of_bind. destruct (intervals_overlap a b) eqn:E; [|done].
      destruct (proj1 (overlap_common op op')) as (k & ? & ?); [eauto|]. by destruct (Hn op' k).
    - intros Hn op' k Hin Hw Hw'. destruct (proj2 (overlap_common op op')) as (a & b & Ha & Hb & E); [eauto|].
      rewrite (Hn a b) in E; [done|done|]. apply list_elem_of_bind. eauto. }
  destruct op as [r|p|d|t|]; cbn [op_intervals app any_overlap]; rewrite ?orb_false_iff, ?existsb_overlap;
    setoid_rewrite list_elem_of_singleton || setoid_rewrite elem_of_nil; naive_solver.
Qed.

Lemma check_op_txn t : check_op (RequestTxn t) = (let? _ := check_txn_duplicate_keys t in Ok []).
Proof.
  destruct t as [cmp suc fl].
  change (check_op (RequestTxn (mkTxn cmp suc fl)))
    with (let? _ := check_txn_branch suc in let? _ := check_txn_branch fl in Ok ([] : list interval)).
  unfold check_txn_duplicate_keys. by destruct (check_txn_branch suc).
Qed.

Lemma check_key_ok key : check_key key = Ok tt <-> key <> [].
Proof. by destruct key. Qed.

Lemma check_op_ok op ivs :
  check_op op = Ok ivs <->
  ivs = op_intervals op /\ has_key op /\ match op with RequestTxn t => check_txn_duplicate_keys t = Ok tt | _ => True end.
Proof.
  destruct op as [r|p|d|t|]; [..|rewrite check_op_txn|];
    cbn [check_op has_key op_intervals]; rewrite ?outcome_bind_ok; try setoid_rewrite <- check_key_ok;
    try (split; [intros ([] & ? & [= <-])|intros (-> & ? & ?)]; eauto; done).
  split; [by intros [= <-]|by intros (-> & _)].
Qed.

Lemma collect_ok ops ivs :
  collect_intervals ops = Ok ivs <-> ivs = ops ≫= op_intervals /\ Forall (fun op => check_op op = Ok (op_intervals op)) ops.
Proof.
  revert ivs. induction ops as [|op ops IH]; intros ivs; cbn [collect_intervals].
  { split; [by intros [= <-]|by intros [-> _]]. }
  rewrite bind_cons, Forall_cons, outcome_bind_ok. split.
  - intros (iv & Hop & (ivs' & [-> Hops]%IH & [= <-])%outcome_bind_ok).
    assert (iv = op_intervals op) as -> by by apply check_op_ok in Hop as [? _]. done.
  - intros [-> [Hop Hops]]. exists (op_intervals op). split; [done|]. apply outcome_bind_ok. eexists. by rewrite IH.
Qed.

(** A branch passes iff its operations do and are apart. *)
Lemma check_txn_branch_ok ops :
  check_txn_branch ops = Ok tt <->
  Forall has_key ops /\ apart ops /\ forall t, RequestTxn t ∈ ops -> check_txn_duplicate_keys t = Ok tt.
Proof.
  unfold check_txn_branch, check_disjoint. rewrite outcome_bind_ok, <- any_overlap_apart. setoid_rewrite collect_ok.
  assert (Forall (fun op => check_op op = Ok (op_intervals op)) ops
    <-> Forall has_key ops /\ forall t, RequestTxn t ∈ ops -> check_txn_duplicate_keys t = Ok tt) as Hf.
  { rewrite !Forall_forall. setoid_rewrite check_op_ok. split.
    - intros Ha. split; [naive_solver|]. intros t Ht. by destruct (Ha _ Ht) as (_ & _ & ?).
    - intros [Hk Ht] op Hin. split; [done|]. split; [by apply Hk|]. destruct op; try done. by apply Ht. }
  split.
  - intros (ivs & [-> Ha] & Ho). destruct (any_overlap _); [done|]. tauto.
  - intros (Hk & Ho & Ht). eexists. split; [split; [done|tauto]|]. by rewrite Ho.
Qed.

(** Induction over nested transactions. *)
Lemma txn_induction (P : TxnRequest -> Prop) :
  (forall cmp suc fl, (forall t, RequestTxn t ∈ suc -> P t) -> (forall t, RequestTxn t ∈ fl -> P t) -> P (mkTxn cmp suc fl)) ->
  forall t, P t.
Proof.
  intros Hstep. fix IH 1. intros [cmp suc fl].
  assert (forall ops : list RequestOp, (forall op, op ∈ ops -> match op with RequestTxn t => P t | _ => True end) ->
    forall t, RequestTxn t ∈ ops -> P t) as Hops by (intros ops Ha t Ht; exact (Ha _ Ht)).
  apply Hstep; apply Hops; clear Hops; [induction suc as [|op ops IHops]|induction fl as [|op ops IHops]]; intros op' Hop';
    (exfalso; exact (not_elem_of_nil _ Hop')) || (apply elem_of_cons in Hop' as [->|Hop']; [|exact (IHops _ Hop')]);
    destruct op as [r|p|d|t'|]; try exact I; exact (IH t').
Qed.

Lemma validation_exact req :
  check_txn_duplicate_keys req = Ok tt <-> forall ops, branch_of req ops -> Forall has_key ops /\ apart ops.
Proof.
  split.
  - intros Hc ops Hb. enough (check_txn_branch ops = Ok tt) as (? & ? & _)%check_txn_branch_ok by done.
    induction Hb as [cmp suc fl|cmp suc fl|req ops t ops' _ IH1 Hin _ IH2].
    + by apply outcome_bind_ok in Hc as ([] & ? & _).
    + by apply outcome_bind_ok in Hc as ([] & _ & ?).
    + apply IH2. specialize (IH1 Hc). apply check_txn_branch_ok in IH1 as (_ & _ & Ht). by apply Ht.
  - induction req as [cmp suc fl IHs IHf] using txn_induction. intros Hb. apply outcome_bind_ok. exists tt.
    rewrite !check_txn_branch_ok. destruct (Hb suc) as [? ?]; [constructor|]. destruct (Hb fl) as [? ?]; [constructor|].
    split; (split; [done|]); (split; [done|]); intros t Ht; [apply (IHs t Ht)|apply (IHf t Ht)]; intros ops Hops; apply Hb.
    + by eapply br_nested; [apply br_success|..].
    + by eapply br_nested; [apply br_failure|..].
Qed.

End Range.
