(* ===== verification/SortKvs.v ===== *)
(** * Ordering of range results (src/storage/store.rs, [sort_kvs])

    Results are blobs in ascending key order; [sort_kvs] reorders them by one
    parsed field with the key as tiebreak, and keeps only the first [limit] of
    them when the limit is a small fraction of the result.

    The slice methods [sort_unstable_by] and [select_nth_unstable_by] do not fix
    the order of equal elements, so they are an interface: [UnstableSort] has
    their documented guarantees, and the results hold for every implementation. *)
From S2P Require Import Prelude Varint KvCodec.
Local Open Scope Z_scope.

Module SortKvs.
Import KvCodec.

(** ** Comparators and the unstable slice methods *)

Definition cmp_le {A} (cmp : A -> A -> comparison) (a b : A) : Prop := cmp a b <> Gt.

#[global] Instance cmp_le_dec {A} (cmp : A -> A -> comparison) a b : Decision (cmp_le cmp a b).
Proof. unfold cmp_le. apply _. Defined.

(** A comparator is a total preorder: what the slice methods ask of their closure. *)
Record comparator {A} (cmp : A -> A -> comparison) : Prop := {
  comparator_opp a b : cmp b a = CompOpp (cmp a b);
  comparator_trans a b c : cmp_le cmp a b -> cmp_le cmp b c -> cmp_le cmp a c }.

Class UnstableSort := {
  sort_unstable_by : forall {A}, (A -> A -> comparison) -> list A -> list A;
  select_nth_unstable_by : forall {A}, (A -> A -> comparison) -> nat -> list A -> list A;
  sort_unstable_perm A (cmp : A -> A -> comparison) l : sort_unstable_by cmp l ≡ₚ l;
  sort_unstable_sorted A (cmp : A -> A -> comparison) l :
    comparator cmp -> StronglySorted (cmp_le cmp) (sort_unstable_by cmp l);
  select_nth_perm A (cmp : A -> A -> comparison) n l : select_nth_unstable_by cmp n l ≡ₚ l;
  select_nth_spec A (cmp : A -> A -> comparison) n l :
    comparator cmp -> (n < length l)%nat ->
    exists pre x post, select_nth_unstable_by cmp n l = pre ++ x :: post /\ length pre = n
      /\ (forall a, a ∈ pre -> cmp_le cmp a x) /\ (forall b, b ∈ post -> cmp_le cmp x b) }.

(** ** The source *)

Inductive SortValue := SInt (z : Z) | SBytes (b : bytes).

Definition cmp_sort_value (a b : SortValue) : comparison :=
  match a, b with
  | SInt x, SInt y => x ?= y
  | SBytes x, SBytes y => bytes_cmp x y
  | SInt _, SBytes _ => Lt
  | SBytes _, SInt _ => Gt
  end.

(** [SortOrder] and [SortTarget] as integers (proto/rpc.proto). *)
Definition ASCEND : Z := 1.
Definition DESCEND : Z := 2.
Definition T_KEY : Z := 0.
Definition T_VERSION : Z := 1.
Definition T_CREATE : Z := 2.
Definition T_MOD : Z := 3.
Definition T_VALUE : Z := 4.

Record Entry := mkEntry { e_value : SortValue; e_key : bytes; e_idx : Z }.

Definition entry_of (target : Z) (idx : nat) (blob : bytes) : Entry :=
  match parse_kv blob with
  | Some f =>
      mkEntry (if target =? T_CREATE then SInt (f_create_revision f)
               else if target =? T_VERSION then SInt (f_version f)
               else if target =? T_VALUE then SBytes (f_value f)
               else SInt (f_mod_revision f))
        (f_key f) (u32_wrap (Z.of_nat idx))
  | None => mkEntry (SInt 0) [] (u32_wrap (Z.of_nat idx))
  end.

Definition then_with (c d : comparison) : comparison := match c with Eq => d | _ => c end.

Definition cmp_entry (descending : bool) (a b : Entry) : comparison :=
  let ord := then_with (cmp_sort_value (e_value a) (e_value b)) (bytes_cmp (e_key a) (e_key b)) in
  if descending then CompOpp ord else ord.

(** [limit.saturating_mul(64)] on [usize]. *)
Definition saturating_mul64 (limit : Z) : Z := Z.min (limit * 64) (2 ^ 64 - 1).

(** The final loop: [std::mem::take] empties each slot it moves out. *)
Fixpoint take_slots (order : list nat) (kvs : list (list Byte.byte)) : list (list Byte.byte) :=
  match order with
  | [] => []
  | i :: order => default [] (kvs !! i) :: take_slots order (<[i := []]> kvs)
  end.

Definition sort_kvs `{UnstableSort} (kvs : list (list Byte.byte)) (order target limit : Z)
    : list (list Byte.byte) :=
  if negb (order =? ASCEND) && negb (order =? DESCEND) then kvs
  else if target =? T_KEY then (if order =? DESCEND then reverse kvs else kvs)
  else
    let descending := order =? DESCEND in
    if negb (target =? T_CREATE) && negb (target =? T_MOD)
       && negb (target =? T_VERSION) && negb (target =? T_VALUE) then kvs
    else
      let entries := imap (entry_of target) kvs in
      let cmp := cmp_entry descending in
      let entries :=
        if (0 <? limit) && (saturating_mul64 limit <=? Z.of_nat (length entries))
        then take (Z.to_nat limit) (select_nth_unstable_by cmp (Z.to_nat (limit - 1)) entries)
        else entries in
      let entries := sort_unstable_by cmp entries in
      take_slots ((fun e => Z.to_nat (e_idx e)) <$> entries) kvs.

(** ** Comparators *)

Lemma cmp_sort_value_opp a b : cmp_sort_value b a = CompOpp (cmp_sort_value a b).
Proof. destruct a, b; simpl; auto using Z.compare_antisym, bytes_cmp_antisym. Qed.

Lemma bytes_cmp_lt_trans a b c : bytes_cmp a b = Lt -> bytes_cmp b c = Lt -> bytes_cmp a c = Lt.
Proof. apply bytes_lt_trans. Qed.

Lemma cmp_sort_value_eq a b : cmp_sort_value a b = Eq <-> a = b.
Proof.
  destruct a, b; simpl; rewrite ?Z.compare_eq_iff, ?bytes_cmp_eq; split; intros; congruence.
Qed.

Lemma cmp_sort_value_trans a b c :
  cmp_sort_value a b = Lt -> cmp_sort_value b c = Lt -> cmp_sort_value a c = Lt.
Proof.
  destruct a, b, c; simpl; try done; [|apply bytes_cmp_lt_trans].
  rewrite !Z.compare_lt_iff. lia.
Qed.

(** A lexicographic comparison whose equality is equality of the two components. *)
Definition cmp_asc (a b : Entry) : comparison :=
  then_with (cmp_sort_value (e_value a) (e_value b)) (bytes_cmp (e_key a) (e_key b)).

Lemma cmp_asc_opp a b : cmp_asc b a = CompOpp (cmp_asc a b).
Proof.
  unfold cmp_asc. rewrite (cmp_sort_value_opp (e_value a)), (bytes_cmp_antisym (e_key a)).
  by destruct (cmp_sort_value (e_value a) (e_value b)).
Qed.

Lemma cmp_asc_eq a b : cmp_asc a b = Eq <-> e_value a = e_value b /\ e_key a = e_key b.
Proof.
  unfold cmp_asc. rewrite <- cmp_sort_value_eq, <- bytes_cmp_eq.
  destruct (cmp_sort_value (e_value a) (e_value b)); naive_solver.
Qed.

Lemma cmp_asc_lt_trans a b c : cmp_asc a b = Lt -> cmp_asc b c = Lt -> cmp_asc a c = Lt.
Proof.
  unfold cmp_asc.
  destruct (cmp_sort_value (e_value a) (e_value b)) eqn:E1,
    (cmp_sort_value (e_value b) (e_value c)) eqn:E2; simpl; try done.
  - apply cmp_sort_value_eq in E1, E2. rewrite E1, E2.
    rewrite (proj2 (cmp_sort_value_eq _ _) eq_refl). simpl. apply bytes_cmp_lt_trans.
  - apply cmp_sort_value_eq in E1. by rewrite E1, E2.
  - apply cmp_sort_value_eq in E2. by rewrite <- E2, E1.
  - by rewrite (cmp_sort_value_trans _ _ _ E1 E2).
Qed.

Lemma cmp_asc_congr a a' b b' :
  cmp_asc a a' = Eq -> cmp_asc b b' = Eq -> cmp_asc a b = cmp_asc a' b'.
Proof. unfold cmp_asc at 3 4. intros [-> ->]%cmp_asc_eq [-> ->]%cmp_asc_eq. done. Qed.

Lemma cmp_asc_refl a : cmp_asc a a = Eq.
Proof. by apply cmp_asc_eq. Qed.

Lemma cmp_asc_le_trans a b c : cmp_le cmp_asc a b -> cmp_le cmp_asc b c -> cmp_le cmp_asc a c.
Proof.
  unfold cmp_le. destruct (cmp_asc a b) eqn:E1; try done; intros _;
    destruct (cmp_asc b c) eqn:E2; try done; intros _.
  - rewrite (cmp_asc_congr a b c c E1 (cmp_asc_refl c)). congruence.
  - rewrite (cmp_asc_congr a b c c E1 (cmp_asc_refl c)). congruence.
  - rewrite <- (cmp_asc_congr a a b c (cmp_asc_refl a) E2). congruence.
  - by rewrite (cmp_asc_lt_trans a b c E1 E2).
Qed.

Lemma cmp_entry_asc d a b : cmp_entry d a b = if d then cmp_asc b a else cmp_asc a b.
Proof. destruct d; [|done]. by rewrite (cmp_asc_opp a b). Qed.

Lemma cmp_entry_comparator d : comparator (cmp_entry d).
Proof.
  split; intros *; unfold cmp_le; rewrite !cmp_entry_asc; destruct d.
  - apply cmp_asc_opp.
  - apply cmp_asc_opp.
  - intros. by apply (cmp_asc_le_trans c b a).
  - apply cmp_asc_le_trans.
Qed.

Lemma comparator_total {A} (cmp : A -> A -> comparison) a b :
  comparator cmp -> cmp_le cmp a b \/ cmp_le cmp b a.
Proof.
  intros C. unfold cmp_le. rewrite (comparator_opp _ C a b). destruct (cmp a b); naive_solver.
Qed.

(** Two entries that compare equal have the same key. *)
Lemma cmp_entry_antisym d a b :
  cmp_le (cmp_entry d) a b -> cmp_le (cmp_entry d) b a -> e_key a = e_key b.
Proof.
  unfold cmp_le. rewrite (comparator_opp _ (cmp_entry_comparator d) a b), cmp_entry_asc.
  destruct d; destruct (cmp_asc _ _) eqn:E; try done; apply cmp_asc_eq in E; naive_solver.
Qed.

(** ** Partial selection agrees with the full sort *)

Section TopK.
Context `{UnstableSort} {A : Type} (cmp : A -> A -> comparison) (C : comparator cmp).

(** [cmp]-equivalent elements of the list are equal. *)
Definition distinct (l : list A) : Prop :=
  forall a b, a ∈ l -> b ∈ l -> cmp_le cmp a b -> cmp_le cmp b a -> a = b.

Lemma sort_unique l l' :
  distinct l -> StronglySorted (cmp_le cmp) l' -> l' ≡ₚ l -> l' = sort_unstable_by cmp l.
Proof.
  intros Hd Hs Hp. apply (StronglySorted_unique_strong (cmp_le cmp)).
  - intros a b Ha Hb. rewrite Hp in Ha. rewrite (sort_unstable_perm A cmp l) in Hb. by apply Hd.
  - done.
  - by apply sort_unstable_sorted.
  - by rewrite Hp, sort_unstable_perm.
Qed.

Lemma select_then_sort k l :
  distinct l -> (0 < k <= length l)%nat ->
  sort_unstable_by cmp (take k (select_nth_unstable_by cmp (k - 1) l))
  = take k (sort_unstable_by cmp l).
Proof.
  intros Hd Hk. destruct (select_nth_spec A cmp (k - 1) l C) as (pre & x & post & E & Hl & Hpre & Hpost); [lia|].
  pose proof (select_nth_perm A cmp (k - 1) l) as Hp. rewrite E in Hp |- *.
  replace (pre ++ x :: post) with ((pre ++ [x]) ++ post) in * by by rewrite <- app_assoc.
  rewrite take_app_length' by (rewrite length_app; simpl; lia).
  rewrite <- (sort_unique l (sort_unstable_by cmp (pre ++ [x]) ++ sort_unstable_by cmp post)); [|done| |].
  - rewrite take_app_length'; [done|].
    rewrite (Permutation_length (sort_unstable_perm A cmp (pre ++ [x]))), length_app. simpl. lia.
  - apply StronglySorted_app_2; [|by apply sort_unstable_sorted..].
    intros a b Ha Hb. rewrite (sort_unstable_perm A cmp _) in Ha. rewrite (sort_unstable_perm A cmp _) in Hb.
    apply (comparator_trans _ C a x b); [|by apply Hpost].
    apply elem_of_app in Ha as [Ha|Ha]; [by apply Hpre|].
    apply list_elem_of_singleton in Ha as ->. by destruct (comparator_total cmp x x C).
  - by rewrite !sort_unstable_perm.
Qed.
End TopK.

(** ** What [sort_kvs] returns *)

(** The order of the results: by the parsed field, then by key. *)
Definition blob_cmp (descending : bool) (target : Z) (a b : list Byte.byte) : comparison :=
  cmp_entry descending (entry_of target 0 a) (entry_of target 0 b).

Definition by_field (target : Z) : bool :=
  (target =? T_CREATE) || (target =? T_MOD) || (target =? T_VERSION) || (target =? T_VALUE).

(** Blobs of pairwise different keys. *)
Definition distinct_keys (kvs : list (list Byte.byte)) : Prop :=
  Forall (fun b => is_Some (parse_kv b)) kvs /\ NoDup ((fun b => f_key <$> parse_kv b) <$> kvs).

(** How many results survive: all, or [limit] when the top-k path is taken. *)
Definition kept (n : nat) (limit : Z) : nat :=
  if (0 <? limit) && (saturating_mul64 limit <=? Z.of_nat n) then Z.to_nat limit else n.

Lemma take_slots_NoDup order kvs :
  NoDup order -> take_slots order kvs = (fun i => default [] (kvs !! i)) <$> order.
Proof.
  revert kvs. induction order as [|i order IH]; intros kvs; [done|].
  intros [Hi Hnd]%NoDup_cons. cbn [take_slots fmap list_fmap]. f_equal. rewrite IH by done.
  apply list_fmap_ext. intros j x Hj. rewrite list_lookup_insert_ne; [done|].
  intros ->. by apply list_elem_of_lookup_2 in Hj.
Qed.

Lemma entry_of_value target i j b :
  e_value (entry_of target i b) = e_value (entry_of target j b)
  /\ e_key (entry_of target i b) = e_key (entry_of target j b).
Proof. unfold entry_of. by destruct (parse_kv b). Qed.

Lemma entry_of_idx target i b : Z.of_nat i < 2 ^ 32 -> e_idx (entry_of target i b) = Z.of_nat i.
Proof.
  intros Hi. unfold entry_of. destruct (parse_kv b); simpl; apply u32_wrap_small; unfold is_u32; lia.
Qed.

Section Spec.
Context `{UnstableSort} (kvs : list (list Byte.byte)) (descending : bool) (target : Z).
Context (Hlen : Z.of_nat (length kvs) < 2 ^ 32) (Hkeys : distinct_keys kvs).

Local Definition slot (e : Entry) : list Byte.byte := default [] (kvs !! Z.to_nat (e_idx e)).
Local Definition entries := imap (entry_of target) kvs.

Lemma elem_of_entries e :
  e ∈ entries -> exists i b, kvs !! i = Some b /\ e = entry_of target i b /\ e_idx e = Z.of_nat i /\ slot e = b.
Proof.
  intros (i & b & -> & Hi)%elem_of_lookup_imap_1. exists i, b.
  pose proof (lookup_lt_Some _ _ _ Hi). unfold slot.
  rewrite entry_of_idx by lia. by rewrite Nat2Z.id, Hi.
Qed.

Lemma slots_of_entries : slot <$> entries = kvs.
Proof.
  apply list_eq. intros i. unfold entries. rewrite list_lookup_fmap, list_lookup_imap.
  destruct (kvs !! i) as [b|] eqn:Hi; [|done]. cbn. pose proof (lookup_lt_Some _ _ _ Hi).
  unfold slot. rewrite entry_of_idx by lia. by rewrite Nat2Z.id, Hi.
Qed.

Lemma cmp_entry_slot a b :
  a ∈ entries -> b ∈ entries -> cmp_entry descending a b = blob_cmp descending target (slot a) (slot b).
Proof.
  intros (i & x & _ & -> & _ & ->)%elem_of_entries (j & y & _ & -> & _ & ->)%elem_of_entries.
  unfold blob_cmp, cmp_entry.
  by destruct (entry_of_value target i 0 x) as [-> ->], (entry_of_value target j 0 y) as [-> ->].
Qed.

Lemma blob_key_inj a b :
  a ∈ kvs -> b ∈ kvs -> e_key (entry_of target 0 a) = e_key (entry_of target 0 b) -> a = b.
Proof.
  destruct Hkeys as [Hp Hnd]. rewrite Forall_forall in Hp. intros Ha Hb.
  destruct (Hp a Ha) as [fa Ea], (Hp b Hb) as [fb Eb]. unfold entry_of. rewrite Ea, Eb. simpl. intros Ek.
  apply list_elem_of_lookup in Ha as [i Hi], Hb as [j Hj].
  assert (i = j) as <-; [|congruence].
  eapply NoDup_lookup; [done|rewrite list_lookup_fmap, Hi; done|rewrite list_lookup_fmap, Hj].
  cbn. rewrite Ea, Eb. cbn. congruence.
Qed.

Lemma blob_distinct a b :
  a ∈ kvs -> b ∈ kvs -> cmp_le (blob_cmp descending target) a b ->
  cmp_le (blob_cmp descending target) b a -> a = b.
Proof. intros Ha Hb H1 H2. apply blob_key_inj; [done..|]. by apply (cmp_entry_antisym descending). Qed.

Lemma entries_distinct : distinct (cmp_entry descending) entries.
Proof.
  intros a b Ha Hb H1 H2. unfold cmp_le in H1, H2. rewrite cmp_entry_slot in H1, H2 by done.
  apply elem_of_entries in Ha as (i & x & Hi & -> & Ei & Ex), Hb as (j & y & Hj & -> & Ej & Ey).
  rewrite Ex, Ey in *.
  assert (x = y) as <- by (apply blob_distinct; eauto using list_elem_of_lookup_2).
  f_equal. destruct Hkeys as [_ Hnd]. apply NoDup_fmap_1 in Hnd. by eapply NoDup_lookup.
Qed.

Lemma sorted_slots :
  slot <$> sort_unstable_by (cmp_entry descending) entries
  = merge_sort (cmp_le (blob_cmp descending target)) kvs.
Proof.
  pose proof (cmp_entry_comparator descending) as C.
  pose proof (sort_unstable_perm _ (cmp_entry descending) entries) as Hp.
  apply (StronglySorted_unique_strong (cmp_le (blob_cmp descending target))).
  - intros a b Ha Hb. rewrite Hp, slots_of_entries in Ha.
    rewrite (merge_sort_Permutation _ kvs) in Hb. by apply blob_distinct.
  - assert (forall e, e ∈ sort_unstable_by (cmp_entry descending) entries -> e ∈ entries) as Hin
      by (intros e; by rewrite Hp).
    pose proof (sort_unstable_sorted _ (cmp_entry descending) entries C) as Hs. clear Hp. revert Hs Hin.
    induction (sort_unstable_by (cmp_entry descending) entries) as [|e l IH]; [constructor|].
    intros [Hf Hs]%StronglySorted_cons Hin. cbn [fmap list_fmap]. apply StronglySorted_cons.
    split; [|apply IH; [done|set_solver]].
    apply Forall_forall. intros b (e' & -> & He')%list_elem_of_fmap. unfold cmp_le.
    rewrite <- cmp_entry_slot by set_solver. by eapply Forall_forall in Hf.
  - apply StronglySorted_merge_sort.
    + intros a b c. unfold cmp_le, blob_cmp. apply (comparator_trans _ C).
    + intros a b. unfold cmp_le, blob_cmp. apply (comparator_total _ _ _ C).
  - rewrite Hp, slots_of_entries, merge_sort_Permutation. done.
Qed.

(** Moving a prefix of the sorted entries out of their slots. *)
Lemma take_slots_sorted m :
  let sorted := sort_unstable_by (cmp_entry descending) entries in
  take_slots ((fun e => Z.to_nat (e_idx e)) <$> take m sorted) kvs = slot <$> take m sorted.
Proof.
  intros sorted. rewrite take_slots_NoDup; [by rewrite <- list_fmap_compose|].
  rewrite fmap_take. eapply sublist_NoDup; [|apply sublist_take].
  unfold sorted. rewrite (sort_unstable_perm _ (cmp_entry descending) entries).
  unfold entries. rewrite fmap_imap.
  rewrite (imap_ext _ (fun i _ => i)), imap_seq_0; [by rewrite list_fmap_id; apply NoDup_seq|].
  intros i b Hi%lookup_lt_Some. cbn. rewrite entry_of_idx by lia. apply Nat2Z.id.
Qed.

Lemma select_sorted limit :
  let cmp := cmp_entry descending in
  sort_unstable_by cmp
    (if (0 <? limit) && (saturating_mul64 limit <=? Z.of_nat (length entries))
     then take (Z.to_nat limit) (select_nth_unstable_by cmp (Z.to_nat (limit - 1)) entries)
     else entries)
  = take (kept (length kvs) limit) (sort_unstable_by cmp entries).
Proof.
  intros cmp. assert (length entries = length kvs) as El by apply length_imap.
  rewrite El. unfold kept. destruct (_ && _) eqn:E.
  - apply andb_true_iff in E as [E1%Z.ltb_lt E2%Z.leb_le]. unfold saturating_mul64 in E2.
    replace (Z.to_nat (limit - 1)) with (Z.to_nat limit - 1)%nat by lia.
    apply select_then_sort; [apply cmp_entry_comparator|apply entries_distinct|lia].
  - symmetry. apply take_ge. by rewrite sort_unstable_perm, El.
Qed.
End Spec.

Lemma sort_kvs_by_field `{UnstableSort} kvs order target limit :
  Z.of_nat (length kvs) < 2 ^ 32 -> distinct_keys kvs ->
  order = ASCEND \/ order = DESCEND -> by_field target = true ->
  sort_kvs kvs order target limit
  = take (kept (length kvs) limit)
      (merge_sort (cmp_le (blob_cmp (order =? DESCEND) target)) kvs).
Proof.
  intros Hlen Hkeys Ho Ht. unfold sort_kvs.
  replace (negb (order =? ASCEND) && negb (order =? DESCEND)) with false by by destruct Ho; subst.
  assert ((target =? T_KEY) = false) as -> by (unfold by_field, T_CREATE, T_MOD, T_VERSION, T_VALUE, T_KEY in *; lia).
  replace (_ && negb (target =? T_VALUE)) with false
    by (unfold by_field in Ht; destruct (_ =? _), (_ =? _), (_ =? _), (_ =? _); done).
  fold (entries kvs target).
  rewrite select_sorted, take_slots_sorted by done. by rewrite fmap_take, sorted_slots.
Qed.

(** ** An implementation of the interface: merge sort *)

Lemma merge_sort_cmp_sorted {A} (cmp : A -> A -> comparison) l :
  comparator cmp -> StronglySorted (cmp_le cmp) (merge_sort (cmp_le cmp) l).
Proof.
  intros C. apply StronglySorted_merge_sort.
  - intros a b c. apply (comparator_trans _ C).
  - intros a b. apply (comparator_total _ _ _ C).
Qed.

Lemma blob_cmp_comparator descending target : comparator (blob_cmp descending target).
Proof.
  pose proof (cmp_entry_comparator descending) as C. split; unfold cmp_le, blob_cmp.
  - intros a b. apply (comparator_opp _ C).
  - intros a b c. apply (comparator_trans _ C).
Qed.

Lemma sorted_select {A} (cmp : A -> A -> comparison) n l :
  comparator cmp -> (n < length l)%nat ->
  exists pre x post, merge_sort (cmp_le cmp) l = pre ++ x :: post /\ length pre = n
    /\ (forall a, a ∈ pre -> cmp_le cmp a x) /\ (forall b, b ∈ post -> cmp_le cmp x b).
Proof.
  intros C Hn. pose proof (merge_sort_cmp_sorted cmp l C) as Hs.
  rewrite <- (Permutation_length (merge_sort_Permutation (cmp_le cmp) l)) in Hn.
  destruct (lookup_lt_is_Some_2 _ _ Hn) as [x Hx].
  rewrite <- (take_drop_middle _ _ _ Hx) in Hs.
  eexists (take n _), x, (drop (S n) _). split; [by rewrite take_drop_middle|].
  split; [rewrite length_take; lia|]. split.
  - intros a Ha. eapply StronglySorted_app_1_elem_of; [done..|]. left.
  - apply StronglySorted_app_1_r, StronglySorted_cons in Hs as [Hf _]. by apply Forall_forall.
Qed.

Definition merge_sort_impl : UnstableSort := {|
  sort_unstable_by _ cmp l := merge_sort (cmp_le cmp) l;
  select_nth_unstable_by _ cmp _ l := merge_sort (cmp_le cmp) l;
  sort_unstable_perm _ cmp l := merge_sort_Permutation (cmp_le cmp) l;
  sort_unstable_sorted _ cmp l := merge_sort_cmp_sorted cmp l;
  select_nth_perm _ cmp _ l := merge_sort_Permutation (cmp_le cmp) l;
  select_nth_spec _ cmp n l := sorted_select cmp n l |}.

End SortKvs.
