(* ===== verification/State.v ===== *)
(** * In-memory state and its primitive mutations

    src/storage/state.rs (the records, revision and lease-id allocation),
    src/storage/watcher.rs (registration and fan-out) and src/storage/apply.rs
    (applying a put, a delete, a lease's deletions and a replayed record).

    Operations under the write lock run in the monad [M]: they thread the state
    and end in an [outcome]. An error keeps the state reached so far, as the
    Rust code does when it returns early after mutating [&mut self]. *)
From S2P Require Import Prelude Varint KvCodec Wire Crc WalRecord Proto Range.
Local Open Scope Z_scope.

Module State.
Import KvCodec Wire Crc Wal Proto Range.

(** ** Records *)

Record KeyState := mkKeyState {
  ks_value : bytes; ks_mod_revision : Z; ks_create_revision : Z; ks_version : Z;
  ks_lease : Z; ks_delete_revision : Z; ks_rebirth : bool; ks_kv_bytes : bytes }.

Definition is_alive (ks : KeyState) : bool := ks_delete_revision ks =? 0.

Definition make_kv_bytes (key : bytes) (ks : KeyState) : bytes :=
  let '(kv_bytes, _, _) :=
    encode_kv key (ks_value ks) (i64_wrap (ks_create_revision ks)) (i64_wrap (ks_mod_revision ks))
      (ks_version ks) (ks_lease ks) in kv_bytes.

(** Instants are nanoseconds on the monotonic clock. *)
Record LeaseState := mkLease { ls_id : Z; ls_ttl : Z; ls_expires_at : Z; ls_key_count : Z }.

Record WatchEvent := mkEvent {
  ev_revision : Z; ev_type : EventType; ev_key : bytes; ev_kv_bytes : bytes; ev_prev_kv_bytes : bytes }.

(** [wr_sender] names the channel the registration's sender feeds. *)
Record WatchRegistration := mkReg {
  wr_key : bytes; wr_range_end : bytes; wr_start_revision : Z; wr_sender : nat;
  wr_watch_id : Z; wr_progress_notify : bool; wr_filters : list Z; wr_prev_kv : bool;
  wr_bound : RangeBound }.

(** An unbounded channel: what was sent, and whether the receiver is still there. *)
Record Channel := mkChan { ch_sent : list WatchEvent; ch_open : bool }.

Record StoreState := mkStore {
  keys : gmap (list Byte.byte) KeyState;
  leases : gmap Z LeaseState;
  watchers : list WatchRegistration;
  next_rev : Z;
  next_lease_id : Z;
  key_count : Z;
  compact_rev : Z;
  wal : WalFile;
  expiry_notified : bool;
  chans : gmap nat Channel }.

Definition StoreState_new (w : WalFile) : StoreState := mkStore ∅ ∅ [] 1 1 0 0 w false ∅.

Definition set_keys k s := mkStore k (leases s) (watchers s) (next_rev s) (next_lease_id s)
  (key_count s) (compact_rev s) (wal s) (expiry_notified s) (chans s).
Definition set_leases l s := mkStore (keys s) l (watchers s) (next_rev s) (next_lease_id s)
  (key_count s) (compact_rev s) (wal s) (expiry_notified s) (chans s).
Definition set_watchers w s := mkStore (keys s) (leases s) w (next_rev s) (next_lease_id s)
  (key_count s) (compact_rev s) (wal s) (expiry_notified s) (chans s).
Definition set_next_rev r s := mkStore (keys s) (leases s) (watchers s) r (next_lease_id s)
  (key_count s) (compact_rev s) (wal s) (expiry_notified s) (chans s).
Definition set_next_lease_id i s := mkStore (keys s) (leases s) (watchers s) (next_rev s) i
  (key_count s) (compact_rev s) (wal s) (expiry_notified s) (chans s).
Definition set_key_count c s := mkStore (keys s) (leases s) (watchers s) (next_rev s) (next_lease_id s)
  c (compact_rev s) (wal s) (expiry_notified s) (chans s).
Definition set_compact_rev r s := mkStore (keys s) (leases s) (watchers s) (next_rev s) (next_lease_id s)
  (key_count s) r (wal s) (expiry_notified s) (chans s).
Definition set_wal w s := mkStore (keys s) (leases s) (watchers s) (next_rev s) (next_lease_id s)
  (key_count s) (compact_rev s) w (expiry_notified s) (chans s).
Definition set_notified b s := mkStore (keys s) (leases s) (watchers s) (next_rev s) (next_lease_id s)
  (key_count s) (compact_rev s) (wal s) b (chans s).
Definition set_chans c s := mkStore (keys s) (leases s) (watchers s) (next_rev s) (next_lease_id s)
  (key_count s) (compact_rev s) (wal s) (expiry_notified s) c.

(** ** The monad of operations under the write lock *)

Definition M (A : Type) : Type := StoreState -> StoreState * outcome A.
Definition ret {A} (a : A) : M A := fun s => (s, Ok a).
Definition bind {A B} (m : M A) (f : A -> M B) : M B := fun s =>
  match m s with
  | (s', Ok a) => f a s'
  | (s', Err e) => (s', Err e)
  | (s', Panic w) => (s', Panic w)
  end.
Definition lift {A} (o : outcome A) : M A := fun s => (s, o).
Definition fail {A} (c : Code) (msg : string) : M A := lift (Err (mkStatus c msg)).
Definition get : M StoreState := fun s => (s, Ok s).
Definition modify (f : StoreState -> StoreState) : M unit := fun s => (f s, Ok tt).

Notation "'let*' x := m 'in' k" := (bind m (fun x => k))
  (at level 10, x pattern, m at level 100, k at level 200).

(** A [for] loop that stops at the first error. *)
Fixpoint for_each {A} (f : A -> M unit) (l : list A) : M unit :=
  match l with [] => ret tt | a :: l => let* _ := f a in for_each f l end.

(** ** Allocation (state.rs) *)

Definition alloc_revision : M Z := fun s =>
  (set_next_rev (u64_wrap (next_rev s + 1)) s, Ok (next_rev s)).

Definition current_revision (s : StoreState) : Z := Z.max 0 (next_rev s - 1).

Definition alloc_lease_id : M Z := fun s =>
  (set_next_lease_id (i64_wrap (next_lease_id s + 1)) s, Ok (next_lease_id s)).

Definition state_header (s : StoreState) : ResponseHeader :=
  mkHeader 1 1 (i64_wrap (current_revision s)) 1.

(** ** Watchers (watcher.rs) *)

Definition register_watcher (reg : WatchRegistration) (s : StoreState) : StoreState * Z :=
  (set_watchers (watchers s ++ [reg]) s, wr_watch_id reg).

Definition cancel_watcher (watch_id : Z) (s : StoreState) : StoreState * bool :=
  let ws := base.filter (fun w => wr_watch_id w <> watch_id) (watchers s) in
  (set_watchers ws s, negb (length (watchers s) =? length ws)%nat).

(** The filter loop: 0 is NOPUT, 1 is NODELETE, anything else is ignored. *)
Definition filter_hits (f : Z) (t : EventType) : bool :=
  match t with EvPut => f =? 0 | EvDelete => f =? 1 end.

(** [sender.send(event)]: lost when the receiver is gone. *)
Definition send (c : nat) (ev : WatchEvent) (cs : gmap nat Channel) : gmap nat Channel :=
  match cs !! c with
  | Some ch => if ch_open ch then <[c := mkChan (ch_sent ch ++ [ev]) true]> cs else cs
  | None => cs
  end.

Definition notify_one (ev : WatchEvent) (cs : gmap nat Channel) (w : WatchRegistration)
    : gmap nat Channel :=
  if negb (matches_range (wr_bound w) (ev_key ev)) then cs
  else if ev_revision ev <? wr_start_revision w then cs
  else if existsb (fun f => filter_hits f (ev_type ev)) (wr_filters w) then cs
  else
    let ev := if wr_prev_kv w then ev
              else mkEvent (ev_revision ev) (ev_type ev) (ev_key ev) (ev_kv_bytes ev) [] in
    send (wr_sender w) ev cs.

Definition notify_watchers (ev : WatchEvent) : M unit := fun s =>
  (set_chans (foldl (notify_one ev) (chans s) (watchers s)) s, Ok tt).

Section Apply.
Context `{Crc32c} `{KvDecoder}.

(** ** Applying a write (apply.rs) *)

(** [self.keys.get(&key).filter(|k| k.is_alive())] *)
Definition get_alive (s : StoreState) (key : bytes) : option KeyState :=
  match keys s !! key with Some ks => if is_alive ks then Some ks else None | None => None end.

Definition apply (key value : bytes) (lease rev : Z) (kv_bytes : option bytes)
    : M (option KeyState) :=
  let* s := get in
  let prev := get_alive s key in
  let is_new := match prev with None => true | Some _ => false end in
  let rebirth := match keys s !! key with
                 | Some k => negb (ks_delete_revision k =? 0) | None => false end in
  let entry := mkKeyState value rev
    (match prev with Some k => ks_create_revision k | None => rev end)
    (match prev with Some k => i64_wrap (ks_version k + 1) | None => 1 end)
    lease 0 rebirth [] in
  let blob := match kv_bytes with Some b => b | None => make_kv_bytes key entry end in
  let entry := mkKeyState (ks_value entry) (ks_mod_revision entry) (ks_create_revision entry)
    (ks_version entry) (ks_lease entry) (ks_delete_revision entry) (ks_rebirth entry) blob in
  let* _ := modify (fun s => set_keys (<[key := entry]> (keys s)) s) in
  let* _ := modify (fun s => if is_new then set_key_count (u64_wrap (key_count s + 1)) s else s) in
  let* _ := notify_watchers (mkEvent rev EvPut key blob
              (match prev with Some p => ks_kv_bytes p | None => [] end)) in
  ret prev.

Definition apply_delete (key : bytes) (rev : Z) : M (option KeyState) :=
  let* s := get in
  match keys s !! key with
  | None => ret None
  | Some prev =>
      if negb (ks_delete_revision prev =? 0) then ret None
      else
        let entry := mkKeyState (ks_value prev) (ks_mod_revision prev) (ks_create_revision prev)
          (ks_version prev) (ks_lease prev) rev (ks_rebirth prev) (ks_kv_bytes prev) in
        let* _ := modify (fun s => set_keys (<[key := entry]> (keys s)) s) in
        let* _ := modify (fun s => set_key_count (Z.max 0 (key_count s - 1)) s) in
        match with_mod_revision (ks_kv_bytes prev) rev with
        | None => lift (Panic "index out of bounds")
        | Some tombstone_bytes =>
            let* _ := notify_watchers (mkEvent rev EvDelete key tombstone_bytes (ks_kv_bytes prev)) in
            ret (Some prev)
        end
  end.

(** The WAL record of a deletion, built before the state changes. *)
Definition delete_record (rev : Z) (key : bytes) (p : KeyState) : KvWalRecord :=
  KvWalRecord_new (if negb (ks_lease p =? 0) then Z.lor DELETED HAS_LEASE else DELETED)
    key (ks_value p) (i64_wrap (ks_create_revision p)) (i64_wrap rev) (ks_version p) (ks_lease p).

(** [for key in &keys_to_delete]: one record per key that is still alive. *)
Definition delete_records (s : StoreState) (rev : Z) (ks : list (list Byte.byte)) : list KvWalRecord :=
  omap (fun key => delete_record rev key <$> get_alive s key) ks.

(** The keys attached to a lease, in key order. *)
Definition lease_keys (s : StoreState) (id : Z) : list (list Byte.byte) :=
  (base.filter (fun e => ks_lease e.2 = id /\ is_alive e.2 = true) (btree_iter (keys s))).*1.

Definition wal_append_batch (rs : list KvWalRecord) (msg : string) : M unit := fun s =>
  match append_kv_batch (wal s) rs with
  | (w, inl _) => (set_wal w s, Ok tt)
  | (w, inr _) => (set_wal w s, Err (mkStatus Internal msg))
  end.

Definition delete_keys_for_lease (id : Z) : M unit :=
  let* s := get in
  let keys_to_delete := lease_keys s id in
  match keys_to_delete with
  | [] => ret tt
  | _ =>
      let* rev := alloc_revision in
      let* s := get in
      let records := delete_records s rev keys_to_delete in
      let* _ := wal_append_batch records "WAL write failed during lease key deletion" in
      for_each (fun key => let* _ := apply_delete key rev in ret tt) keys_to_delete
  end.

Definition record_deleted (r : KvWalRecord) : bool := negb (Z.land (flags r) DELETED =? 0).

(** [rec.mod_revision().unwrap_or(0) as u64] *)
Definition record_rev (r : KvWalRecord) : Z := u64_wrap (default 0 (rec_mod_revision r)).

Definition apply_record (r : KvWalRecord) : M unit :=
  let rev := record_rev r in
  if record_deleted r then
    let* key := lift (rec_key r) in
    let* _ := apply_delete (default [] key) rev in ret tt
  else match kv_decode (kv_bytes r) with
       | Some kv =>
           let* _ := apply (kv_key kv) (kv_value kv) (kv_lease kv) rev (Some (kv_bytes r)) in ret tt
       | None => ret tt
       end.

(** ** The effect of a write on the key map *)

Definition alive_in (m : gmap (list Byte.byte) KeyState) (key : bytes) : option KeyState :=
  match m !! key with Some ks => if is_alive ks then Some ks else None | None => None end.

(** The entry [apply] stores. *)
Definition put_entry (m : gmap (list Byte.byte) KeyState) (key value : bytes) (lease rev : Z)
    (blob : option bytes) : KeyState :=
  let prev := alive_in m key in
  let cr := match prev with Some k => ks_create_revision k | None => rev end in
  let ver := match prev with Some k => i64_wrap (ks_version k + 1) | None => 1 end in
  let rebirth := match m !! key with Some k => negb (ks_delete_revision k =? 0) | None => false end in
  mkKeyState value rev cr ver lease 0 rebirth
    (default (kv_blob key value (i64_wrap cr) (i64_wrap rev) ver lease) blob).

Definition put_keys (m : gmap (list Byte.byte) KeyState) (key value : bytes) (lease rev : Z)
    (blob : option bytes) : gmap (list Byte.byte) KeyState :=
  <[key := put_entry m key value lease rev blob]> m.

Definition tombstone (rev : Z) (ks : KeyState) : KeyState :=
  mkKeyState (ks_value ks) (ks_mod_revision ks) (ks_create_revision ks) (ks_version ks) (ks_lease ks)
    rev (ks_rebirth ks) (ks_kv_bytes ks).

Definition del_keys (m : gmap (list Byte.byte) KeyState) (key : bytes) (rev : Z)
    : gmap (list Byte.byte) KeyState :=
  match alive_in m key with Some ks => <[key := tombstone rev ks]> m | None => m end.

(** The event each write fans out. *)
Definition put_event (m : gmap (list Byte.byte) KeyState) (key value : bytes) (lease rev : Z)
    (blob : option bytes) : WatchEvent :=
  mkEvent rev EvPut key (ks_kv_bytes (put_entry m key value lease rev blob))
    (match alive_in m key with Some p => ks_kv_bytes p | None => [] end).

Definition del_event (key : bytes) (rev : Z) (p : KeyState) : WatchEvent :=
  mkEvent rev EvDelete key (default [] (with_mod_revision (ks_kv_bytes p) rev)) (ks_kv_bytes p).

Definition notified (ev : WatchEvent) (s : StoreState) : StoreState :=
  set_chans (foldl (notify_one ev) (chans s) (watchers s)) s.

Definition put_effect (key value : bytes) (lease rev : Z) (blob : option bytes) (s : StoreState)
    : StoreState :=
  notified (put_event (keys s) key value lease rev blob)
    (set_key_count (match alive_in (keys s) key with None => u64_wrap (key_count s + 1) | Some _ => key_count s end)
      (set_keys (put_keys (keys s) key value lease rev blob) s)).

Definition del_effect (rev : Z) (s : StoreState) (key : list Byte.byte) : StoreState :=
  match alive_in (keys s) key with
  | None => s
  | Some p => notified (del_event key rev p)
                (set_key_count (Z.max 0 (key_count s - 1)) (set_keys (del_keys (keys s) key rev) s))
  end.

Lemma get_alive_in s key : get_alive s key = alive_in (keys s) key.
Proof. done. Qed.

Lemma make_kv_bytes_blob key ks :
  make_kv_bytes key ks = kv_blob key (ks_value ks) (i64_wrap (ks_create_revision ks))
    (i64_wrap (ks_mod_revision ks)) (ks_version ks) (ks_lease ks).
Proof. unfold make_kv_bytes. by rewrite encode_kv_offsets. Qed.

Lemma apply_effect key value lease rev blob s :
  apply key value lease rev blob s = (put_effect key value lease rev blob s, Ok (get_alive s key)).
Proof.
  unfold put_effect, put_keys, put_event, put_entry, notified, apply, bind, get, modify, notify_watchers, ret.
  rewrite get_alive_in, make_kv_bytes_blob.
  destruct (alive_in (keys s) key), blob; reflexivity.
Qed.

(** The stored blob has the layout deletion relies on. *)
Definition blob_patchable (blob : bytes) : Prop := forall rev, is_Some (with_mod_revision blob rev).

Lemma apply_delete_effect key rev s :
  (forall p, get_alive s key = Some p -> blob_patchable (ks_kv_bytes p)) ->
  apply_delete key rev s = (del_effect rev s key, Ok (get_alive s key)).
Proof.
  rewrite get_alive_in. intros Hb. unfold del_effect, del_keys, apply_delete, del_event, bind, get, ret.
  unfold alive_in, is_alive in *.
  destruct (keys s !! key) as [p|]; [|done].
  destruct (Z.eqb_spec (ks_delete_revision p) 0) as [E|E]; [|done]. cbn.
  destruct (Hb p eq_refl rev) as [b Hw]. rewrite Hw. reflexivity.
Qed.

End Apply.
End State.
