(* ===== verification/Store.v ===== *)
(** * The store: KV, lease and maintenance operations (src/storage/store.rs)

    One definition per RPC handler and helper. Operations that take the write
    lock run in the monad [M]; reads are functions of the state. Instants are
    nanoseconds and are passed in where the code asks the clock. *)
From S2P Require Import Prelude Varint KvCodec Wire Crc WalRecord Proto Range SortKvs State.
Local Open Scope Z_scope.

Module Store.
Import KvCodec Wire Crc Wal Proto Range SortKvs State.

(** ** Shared pieces *)

Definition LEASE_MAX_TTL : Z := (2 ^ 63 - 1) / 1000000000 - 1.
Definition LEASE_MIN_TTL : Z := 2.

Definition check_lease_ttl (ttl : Z) : outcome Z :=
  if LEASE_MAX_TTL <? ttl then Err (mkStatus OutOfRange "etcdserver: too large lease TTL")
  else Ok (Z.max ttl LEASE_MIN_TTL).

(** [Instant::now() + Duration::from_secs(secs as u64)]: panics when the seconds
    of the sum leave [i64]. *)
Definition instant_add (now secs : Z) : outcome Z :=
  let secs := u64_wrap secs in
  if now / 1000000000 + secs <? 2 ^ 63 then Ok (now + secs * 1000000000)
  else Panic "overflow when adding duration to instant".

(** [Vec::<Bytes>::with_capacity(cap)]: a [Bytes] takes 32 bytes and no
    allocation may exceed [isize::MAX]. *)
Definition with_capacity (cap : Z) : outcome unit :=
  if cap * 32 <? 2 ^ 63 then Ok tt else Panic "capacity overflow".

(** [wal::encode_kv(k, b"", 0, 0, 0, 0)], the blob of a [keys_only] result. *)
Definition keys_only_blob (key : bytes) : bytes :=
  let '(b, _, _) := encode_kv key [] 0 0 0 0 in b.

(** [KeyState::to_key_value] (state.rs). *)
Definition to_key_value `{KvDecoder} (ks : KeyState) (key : bytes) : KeyValue :=
  let from_fields := mkKeyValue key (i64_wrap (ks_create_revision ks)) (i64_wrap (ks_mod_revision ks))
    (ks_version ks) (ks_value ks) (ks_lease ks) in
  match ks_kv_bytes ks with
  | [] => from_fields
  | _ => match kv_decode (ks_kv_bytes ks) with
         | Some kv => mkKeyValue key (kv_create_revision kv) (kv_mod_revision kv) (kv_version kv)
                        (kv_value kv) (kv_lease kv)
         | None => from_fields
         end
  end.

(** ** Reading the current state *)

(** The four optional revision filters. *)
Definition revision_filters (req : RangeRequest) (ks : KeyState) : bool :=
  ((rr_min_mod_revision req <=? 0) || (rr_min_mod_revision req <=? i64_wrap (ks_mod_revision ks)))
  && ((rr_max_mod_revision req <=? 0) || (i64_wrap (ks_mod_revision ks) <=? rr_max_mod_revision req))
  && ((rr_min_create_revision req <=? 0) || (rr_min_create_revision req <=? i64_wrap (ks_create_revision ks)))
  && ((rr_max_create_revision req <=? 0) || (i64_wrap (ks_create_revision ks) <=? rr_max_create_revision req)).

(** The point lookup of [range_current]. *)
Definition range_point (s : StoreState) (req : RangeRequest) (key : bytes) : RangeResponse :=
  let kvs := match keys s !! key with
             | Some ks =>
                 if (ks_delete_revision ks =? 0) && revision_filters req ks
                 then [if rr_keys_only req then keys_only_blob key else ks_kv_bytes ks] else []
             | None => []
             end in
  let count := Z.of_nat (length kvs) in
  if rr_count_only req then mkRangeResponse (Some (state_header s)) [] false count
  else mkRangeResponse (Some (state_header s)) kvs false count.

(** [(range_start, range_end)] of [range_current]. *)
Definition range_bounds (bound : RangeBound) : outcome (option bytes * option bytes) :=
  match bound with
  | All => Ok (None, None)
  | Point _ => Panic "point range handled before bounds"
  | From k => Ok (Some k, None)
  | Prefix p => Ok (Some p, None)
  | Range a b => Ok (Some a, Some b)
  end.

(** The boxed iterator over optional bounds. *)
Definition bounds_iter (s : StoreState) (bounds : option bytes * option bytes)
    : outcome (list (list Byte.byte * KeyState)) :=
  match bounds with
  | (Some lo, Some hi) => btree_range (Some lo) (Some hi) (keys s)
  | (Some lo, None) => btree_range (Some lo) None (keys s)
  | (None, Some hi) => btree_range None (Some hi) (keys s)
  | (None, None) => Ok (btree_iter (keys s))
  end.

Definition prefix_key (bound : RangeBound) : option bytes :=
  match bound with Prefix p => Some p | _ => None end.

(** [if let Some(p) = prefix_key { if !k.starts_with(p) { break; } }] *)
Definition past_prefix (prefix : option bytes) (k : bytes) : bool :=
  match prefix with Some p => negb (starts_with k p) | None => false end.

Fixpoint range_loop (req : RangeRequest) (prefix : option bytes)
    (l : list (list Byte.byte * KeyState)) : list (list Byte.byte) :=
  match l with
  | [] => []
  | (k, ks) :: l =>
      if past_prefix prefix k then []
      else if negb (ks_delete_revision ks =? 0) then range_loop req prefix l
      else if negb (revision_filters req ks) then range_loop req prefix l
      else (if rr_keys_only req then keys_only_blob k else ks_kv_bytes ks) :: range_loop req prefix l
  end.

Section Reads.
Context `{UnstableSort}.

Definition range_current (s : StoreState) (req : RangeRequest) : outcome RangeResponse :=
  let bound := resolve_range (rr_key req) (rr_range_end req) in
  match bound with
  | Point key => Ok (range_point s req key)
  | _ =>
      let cap := if 0 <? rr_limit req then rr_limit req else Z.of_nat (size (keys s)) in
      let? _ := with_capacity cap in
      let? bounds := range_bounds bound in
      let? iter := bounds_iter s bounds in
      let kvs := range_loop req (prefix_key bound) iter in
      let count := Z.of_nat (length kvs) in
      if rr_count_only req then Ok (mkRangeResponse (Some (state_header s)) [] false count)
      else
        let limit := if 0 <? rr_limit req then rr_limit req else 0 in
        let kvs := sort_kvs kvs (rr_sort_order req) (rr_sort_target req) limit in
        let more := (0 <? rr_limit req) && (rr_limit req <? count) in
        let kvs := if more then take (Z.to_nat (rr_limit req)) kvs else kvs in
        Ok (mkRangeResponse (Some (state_header s)) kvs more count)
  end.

End Reads.

Record StoreStats := mkStats { st_revision : Z; st_keys : Z; st_watchers : Z; st_leases : Z }.

Definition stats (s : StoreState) : StoreStats :=
  mkStats (current_revision s) (key_count s) (Z.of_nat (length (watchers s))) (Z.of_nat (size (leases s))).

Definition db_size (s : StoreState) : Z := i64_wrap (Z.of_nat (length (file (wal s)))).

(** [store_hash]: the hasher is the xxh3 crate's; [Vec<u8>] and [Arc<\[u8\]>]
    hash as a length prefix followed by the bytes. *)
Section Hash.
Context {H : Type} (new : H) (write_length_prefix : Z -> H -> H) (write : bytes -> H -> H) (finish : H -> Z).

Definition hash_slice (b : bytes) (h : H) : H := write b (write_length_prefix (Z.of_nat (length b)) h).

Fixpoint hash_loop (l : list (list Byte.byte * KeyState)) (h : H) : H :=
  match l with
  | [] => h
  | (k, ks) :: l =>
      if negb (ks_delete_revision ks =? 0) then hash_loop l h
      else hash_loop l (hash_slice (ks_value ks) (hash_slice k h))
  end.

Definition store_hash (s : StoreState) : Z := finish (hash_loop (btree_iter (keys s)) new).
End Hash.

(** ** Writing *)

Section Writes.
Context `{Crc32c} `{KvDecoder}.

Definition validate_put (s : StoreState) (req : PutRequest) : outcome unit :=
  let? _ := check_key (pr_key req) in
  if pr_ignore_value req && negb (bytes_eqb (pr_value req) [])
  then Err (mkStatus InvalidArgument "etcdserver: value is provided")
  else if pr_ignore_lease req && negb (pr_lease req =? 0)
  then Err (mkStatus InvalidArgument "etcdserver: lease is provided")
  else
    let prev_alive := get_alive s (pr_key req) in
    if (pr_ignore_value req || pr_ignore_lease req) && match prev_alive with None => true | _ => false end
    then Err (mkStatus InvalidArgument "etcdserver: key not found")
    else
      let lease := if pr_ignore_lease req
                   then match prev_alive with Some k => ks_lease k | None => pr_lease req end
                   else pr_lease req in
      if negb (lease =? 0) && match leases s !! lease with None => true | _ => false end
      then Err (mkStatus NotFound "etcdserver: requested lease not found")
      else Ok tt.

(** The record [put_at] logs before it applies the write. *)
Definition put_record (prev : option KeyState) (key value : bytes) (lease rev : Z) : KvWalRecord :=
  let flags := match prev with None => IS_CREATE | Some _ => 0 end in
  let flags := if negb (lease =? 0) then Z.lor flags HAS_LEASE else flags in
  let create_revision := match prev with Some k => ks_create_revision k | None => rev end in
  let version := match prev with Some k => i64_wrap (ks_version k + 1) | None => 1 end in
  KvWalRecord_new flags key value (i64_wrap create_revision) (i64_wrap rev) version lease.

Definition put_at (req : PutRequest) (rev : Z) : M PutResponse := fun s =>
  let key := pr_key req in
  let prev_alive := get_alive s key in
  if (pr_ignore_value req || pr_ignore_lease req) && match prev_alive with None => true | _ => false end
  then fail InvalidArgument "etcdserver: key not found" s
  else
    let value := if pr_ignore_value req
                 then match prev_alive with Some k => ks_value k | None => [] end
                 else pr_value req in
    let lease := if pr_ignore_lease req
                 then match prev_alive with Some k => ks_lease k | None => pr_lease req end
                 else pr_lease req in
    if negb (lease =? 0) && match leases s !! lease with None => true | _ => false end
    then fail NotFound "etcdserver: requested lease not found" s
    else
      match append_kv (wal s) (put_record prev_alive key value lease rev) with
      | (w, inr _) => fail Internal "etcdserver: wal write failed" (set_wal w s)
      | (w, inl _) =>
          (let* prev := apply key value lease rev None in
           let* s := get in
           let prev_kv := if pr_prev_kv req
                          then match prev with Some p => ks_kv_bytes p | None => [] end else [] in
           ret (mkPutResponse (Some (state_header s)) prev_kv)) (set_wal w s)
      end.

Fixpoint take_while {A} (p : A -> bool) (l : list A) : list A :=
  match l with [] => [] | a :: l => if p a then a :: take_while p l else [] end.

(** [filter(is_alive).map(|(k, _)| k.clone())] *)
Definition alive_keys (l : list (list Byte.byte * KeyState)) : list (list Byte.byte) :=
  (base.filter (fun e => is_alive e.2 = true) l).*1.

Definition keys_to_delete (s : StoreState) (bound : RangeBound) : outcome (list (list Byte.byte)) :=
  match bound with
  | Point k => Ok (match get_alive s k with Some _ => [k] | None => [] end)
  | From k => let? it := btree_range (Some k) None (keys s) in Ok (alive_keys it)
  | Prefix p => let? it := btree_range (Some p) None (keys s) in
                Ok (alive_keys (take_while (fun e => starts_with e.1 p) it))
  | Range a b => let? it := btree_range (Some a) (Some b) (keys s) in Ok (alive_keys it)
  | All => Ok (alive_keys (btree_iter (keys s)))
  end.

(** The application loop, collecting [prev_kvs]. *)
Fixpoint delete_loop (prev_kv : bool) (rev : Z) (l : list (list Byte.byte * option KeyState))
    : M (list (list Byte.byte)) :=
  match l with
  | [] => ret []
  | (key, prev) :: l =>
      let* _ := apply_delete key rev in
      let* rest := delete_loop prev_kv rev l in
      ret (match prev with Some p => if prev_kv then ks_kv_bytes p :: rest else rest | None => rest end)
  end.

Definition delete_range_at (req : DeleteRangeRequest) (rev : Z) : M DeleteRangeResponse :=
  let* s := get in
  let bound := resolve_range (dr_key req) (dr_range_end req) in
  let* ks := lift (keys_to_delete s bound) in
  let records := delete_records s rev ks in
  let prevs := get_alive s <$> ks in
  let* _ := wal_append_batch records "etcdserver: wal write failed" in
  let* prev_kvs := delete_loop (dr_prev_kv req) rev (zip ks prevs) in
  let* s := get in
  ret (mkDeleteResponse (Some (state_header s)) (Z.of_nat (length ks)) prev_kvs).

Definition put (req : PutRequest) : M PutResponse :=
  let* s := get in
  let* _ := lift (validate_put s req) in
  let* rev := alloc_revision in
  put_at req rev.

Definition delete_range (req : DeleteRangeRequest) : M DeleteRangeResponse :=
  let* _ := lift (check_key (dr_key req)) in
  let* rev := alloc_revision in
  delete_range_at req rev.

(** [compact]: only moves [compact_rev]. *)
Definition compact (revision : Z) : M ResponseHeader := fun s =>
  let rev := u64_wrap revision in
  let current := current_revision s in
  if current <? rev
  then fail OutOfRange "etcdserver: mvcc: required revision is a future revision" s
  else if rev <=? compact_rev s
  then fail OutOfRange "etcdserver: mvcc: required revision has been compacted" s
  else let s := set_compact_rev rev s in (s, Ok (state_header s)).

(** ** Leases *)

Definition lease_grant (now : Z) (req : LeaseGrantRequest) : M LeaseGrantResponse :=
  let* ttl := lift (check_lease_ttl (lg_ttl req)) in
  let* id := if negb (lg_id req =? 0) then ret (lg_id req) else alloc_lease_id in
  let* s := get in
  match leases s !! id with
  | Some _ => fail FailedPrecondition "etcdserver: lease already exists"
  | None =>
      let* expires_at := lift (instant_add now ttl) in
      let* _ := modify (fun s => set_leases (<[id := mkLease id ttl expires_at 0]> (leases s)) s) in
      let* _ := modify (set_notified true) in
      let* s := get in
      ret (mkGrantResponse (Some (state_header s)) id ttl)
  end.

Definition lease_revoke (id : Z) : M ResponseHeader :=
  let* s := get in
  match leases s !! id with
  | None => fail NotFound "etcdserver: requested lease not found"
  | Some _ =>
      let* _ := modify (fun s => set_leases (delete id (leases s)) s) in
      let* _ := modify (set_notified true) in
      let* _ := delete_keys_for_lease id in
      let* s := get in
      ret (state_header s)
  end.

Definition lease_keep_alive (now id : Z) : M LeaseKeepAliveResponse :=
  let* s := get in
  match leases s !! id with
  | None => fail NotFound "etcdserver: lease not found"
  | Some ls =>
      let* expires_at := lift (instant_add now (ls_ttl ls)) in
      let* _ := modify (fun s => set_leases
        (<[id := mkLease (ls_id ls) (ls_ttl ls) expires_at (ls_key_count ls)]> (leases s)) s) in
      let* _ := modify (set_notified true) in
      let* s := get in
      ret (mkKeepAlive (Some (state_header s)) id (ls_ttl ls))
  end.

Definition lease_time_to_live (now : Z) (s : StoreState) (req : LeaseTimeToLiveRequest)
    : LeaseTimeToLiveResponse :=
  match leases s !! lt_id req with
  | Some ls =>
      let remaining := i64_wrap (Z.max 0 (ls_expires_at ls - now) / 1000000000) in
      let ks := if lt_keys req then lease_keys s (lt_id req) else [] in
      mkTtlResponse (Some (state_header s)) (lt_id req) (Z.max remaining 0) (ls_ttl ls) ks
  | None => mkTtlResponse (Some (state_header s)) (lt_id req) (-1) (-1) []
  end.

Definition lease_leases (s : StoreState) : list Z := (btree_iter (leases s)).*1.

End Writes.

(** ** Iterating a bound *)

(** The entries of a map in a bound, in key order. *)
Definition in_range {V} (bound : RangeBound) (m : gmap (list Byte.byte) V) : list (list Byte.byte * V) :=
  base.filter (fun e => matches_range bound e.1 = true) (btree_iter m).

Lemma elem_of_in_range {V} (bound : RangeBound) (m : gmap (list Byte.byte) V) k v :
  (k, v) ∈ in_range bound m <-> matches_range bound k = true /\ m !! k = Some v.
Proof. unfold in_range. by rewrite list_elem_of_filter, elem_of_btree_iter. Qed.

Lemma in_range_NoDup {V} (bound : RangeBound) (m : gmap (list Byte.byte) V) : NoDup (in_range bound m).*1.
Proof. eapply sublist_NoDup; [apply (btree_iter_NoDup m)|apply filter_sublist_fst]. Qed.

(** An inverted explicit range, on which [BTreeMap::range] panics. *)
Definition inverted (bound : RangeBound) : bool :=
  match bound with Range a b => bytes_ltb b a | _ => false end.

(** Among sorted keys from [p] on, those with prefix [p] come first. *)
Lemma take_while_prefix {V} p (l : list (list Byte.byte * V)) :
  StronglySorted key_le l.*1 -> Forall (fun e => bytes_le p e.1) l ->
  take_while (fun e => starts_with e.1 p) l = base.filter (fun e => starts_with e.1 p = true) l.
Proof.
  induction l as [|[k v] l IH]; [done|]. cbn [fmap list_fmap].
  intros [Hk Hs]%StronglySorted_cons [Hp Hps]%Forall_cons. cbn [take_while fst] in *. rewrite filter_cons. cbn [fst].
  destruct (starts_with k p) eqn:E.
  - rewrite decide_True by done. by rewrite IH.
  - rewrite decide_False by congruence. symmetry. apply filter_none, Forall_forall.
    intros [k' v'] Hin. cbn. intros Hp'. unfold starts_with in *.
    apply bool_decide_eq_true in Hp'. apply bool_decide_eq_false in E. apply E.
    apply (prefix_convex p k k'); [done| |done].
    eapply Forall_forall in Hk; [exact Hk|]. apply list_elem_of_fmap. by exists (k', v').
Qed.

Lemma take_while_true {A} (p : A -> bool) l : (forall a, p a = true) -> take_while p l = l.
Proof. intros Hp. induction l as [|a l IH]; cbn; [done|]. by rewrite Hp, IH. Qed.

Lemma take_while_ext {A} (p q : A -> bool) l : (forall a, p a = q a) -> take_while p l = take_while q l.
Proof. intros Hp. induction l as [|a l IH]; cbn; [done|]. by rewrite Hp, IH. Qed.

Lemma bounds_iter_ok s bound :
  inverted bound = false ->
  bounds_iter s (btree_bounds bound)
  = Ok (base.filter (fun e => in_bounds (btree_bounds bound).1 (btree_bounds bound).2 e.1) (btree_iter (keys s))).
Proof.
  destruct bound as [|k|k|p|a b]; cbn [inverted btree_bounds bounds_iter fst snd]; intros Hi; try done.
  - by rewrite filter_all by by apply Forall_true; intros [].
  - unfold btree_range. rewrite decide_True; [done|]. cbn.
    apply bytes_le_lteq. left. apply (successor_lt k k), bytes_le_lteq. auto.
  - unfold btree_range. rewrite decide_True; [done|]. cbn. apply bytes_not_lt.
    intros Hlt%bytes_ltb_lt. congruence.
Qed.

Lemma bounds_iter_inverted s bound :
  inverted bound = true ->
  bounds_iter s (btree_bounds bound) = Panic "range start is greater than range end in BTreeMap".
Proof.
  destruct bound as [|k|k|p|a b]; try done. cbn. intros Hlt%bytes_ltb_lt. unfold btree_range.
  rewrite decide_False; [done|]. cbn. intros Hle%bytes_not_lt. done.
Qed.

Lemma bounds_iter_matches s bound it :
  bounds_iter s (btree_bounds bound) = Ok it ->
  take_while (fun e => negb (past_prefix (prefix_key bound) e.1)) it = in_range bound (keys s).
Proof.
  destruct (inverted bound) eqn:Ei; [by rewrite bounds_iter_inverted|].
  rewrite bounds_iter_ok by done. intros [= <-]. unfold in_range.
  assert ((exists p, bound = Prefix p) \/ ~ exists p, bound = Prefix p) as [[p ->]|Hn]
    by (destruct bound; naive_solver).
  - cbn [prefix_key past_prefix btree_bounds fst snd].
    transitivity (take_while (fun e : list Byte.byte * KeyState => starts_with e.1 p)
      (base.filter (fun e => in_bounds (Some p) None e.1) (btree_iter (keys s)))).
    { apply take_while_ext. intros e. apply negb_involutive. }
    rewrite take_while_prefix.
    + rewrite filter_filter. apply list_filter_iff. intros [k ks]. cbn [fst].
      rewrite (matches_btree_bounds (Prefix p)). cbn. tauto.
    + eapply StronglySorted_sublist; [apply filter_sublist_fst|apply btree_iter_sorted].
    + apply Forall_forall. intros e [[Hb _] _]%list_elem_of_filter. done.
  - assert (prefix_key bound = None) as -> by (destruct bound; naive_solver).
    cbn [past_prefix negb].
    transitivity (base.filter (fun e : list Byte.byte * KeyState =>
      in_bounds (btree_bounds bound).1 (btree_bounds bound).2 e.1) (btree_iter (keys s))).
    { by apply take_while_true. }
    apply list_filter_iff. intros [k ks]. cbn [fst]. rewrite matches_btree_bounds.
    assert (prefix_guard bound k = true) by (destruct bound; naive_solver). tauto.
Qed.

Lemma filter_point {V} (m : gmap (list Byte.byte) V) (k : list Byte.byte) :
  in_range (Point k) m = match m !! k with Some v => [(k, v)] | None => [] end.
Proof.
  symmetry. unfold in_range. rewrite btree_iter_filter. apply btree_iter_unique.
  - destruct (m !! k); repeat constructor.
  - destruct (m !! k); [apply NoDup_singleton|constructor].
  - intros k' v'. rewrite map_lookup_filter_Some. cbn. unfold bytes_eqb. rewrite bool_decide_eq_true.
    destruct (m !! k) as [v|] eqn:E.
    + rewrite list_elem_of_singleton. naive_solver.
    + rewrite elem_of_nil. naive_solver.
Qed.

Lemma keys_to_delete_ok s bound :
  inverted bound = false -> keys_to_delete s bound = Ok (alive_keys (in_range bound (keys s))).
Proof.
  intros Hi. destruct (bounds_iter s (btree_bounds bound)) as [it|e|w] eqn:Eit;
    [|by rewrite bounds_iter_ok in Eit..].
  pose proof (bounds_iter_matches _ _ _ Eit) as Hm.
  destruct bound as [|k|k|p|a b]; cbn [keys_to_delete btree_bounds bounds_iter prefix_key past_prefix] in *.
  - rewrite <- Hm, take_while_true by done. by injection Eit as <-.
  - rewrite filter_point. unfold get_alive, alive_keys. destruct (keys s !! k) as [ks|]; [|done].
    rewrite filter_cons, filter_nil. cbn. by destruct (is_alive ks).
  - rewrite Eit. cbn. by rewrite <- Hm, take_while_true by done.
  - rewrite Eit. cbn. rewrite <- Hm. do 2 f_equal. apply take_while_ext.
    intros e. symmetry. apply negb_involutive.
  - rewrite Eit. cbn. by rewrite <- Hm, take_while_true by done.
Qed.

Lemma elem_of_alive_keys k l :
  k ∈ alive_keys l <-> exists ks, (k, ks) ∈ l /\ is_alive ks = true.
Proof.
  unfold alive_keys. rewrite list_elem_of_fmap. split.
  - intros ([k' ks] & -> & [Ha Hl]%list_elem_of_filter). eauto.
  - intros (ks & Hl & Ha). exists (k, ks). by rewrite list_elem_of_filter.
Qed.

Lemma keys_to_delete_Ok s bound ks :
  keys_to_delete s bound = Ok ks -> inverted bound = false /\ ks = alive_keys (in_range bound (keys s)).
Proof.
  intros E. destruct (inverted bound) eqn:Ei.
  - destruct bound as [|k|k|p|a b]; try done.
    assert (btree_range (Some a) (Some b) (keys s) = Panic "range start is greater than range end in BTreeMap")
      as Ep by exact (bounds_iter_inverted s (Range a b) Ei).
    cbn [keys_to_delete] in E. by rewrite Ep in E.
  - rewrite keys_to_delete_ok in E by done. by injection E as <-.
Qed.

Lemma alive_keys_NoDup s bound : NoDup (alive_keys (in_range bound (keys s))).
Proof. eapply sublist_NoDup; [apply (in_range_NoDup bound (keys s))|apply filter_sublist_fst]. Qed.

End Store.
