(* ===== verification/Historical.v ===== *)
(** * Reads at a past revision

    [scan_wal_range] (src/storage/mod.rs), [Store::range_historical] with its
    three phases and [Store::range] (src/storage/store.rs).

    A historical read takes the read lock three times: phase 1 sees the state
    [s1], the WAL is scanned when the file is that of [s2], and the fallback of
    phase 3 sees [s3]. *)
From S2P Require Import Prelude Varint KvCodec Wire Crc WalRecord Proto Range SortKvs State Store.
Local Open Scope Z_scope.

Module Historical.
Import KvCodec Wire Crc Wal Proto Range SortKvs State Store.

Section Historical.
Context `{Crc32c} `{UnstableSort}.

(** ** Scanning the WAL *)

(** The callback of [scan_wal_range], over the records in file order. *)
Fixpoint scan_range_loop (bound : RangeBound) (up_to_rev : Z) (rs : list KvWalRecord)
    (state : gmap (list Byte.byte) bytes) : outcome (gmap (list Byte.byte) bytes) :=
  match rs with
  | [] => Ok state
  | r :: rs =>
      let? k := rec_key r in
      match k with
      | None => scan_range_loop bound up_to_rev rs state
      | Some k =>
          if negb (matches_range bound k) then scan_range_loop bound up_to_rev rs state
          else if record_rev r <=? up_to_rev
          then scan_range_loop bound up_to_rev rs
                 (if record_deleted r then delete k state else <[k := kv_bytes r]> state)
          else scan_range_loop bound up_to_rev rs state
      end
  end.

(** [path] is the content behind the path, [None] when the file is missing. *)
Definition scan_wal_range (path : option bytes) (key range_end : bytes) (up_to_rev : Z)
    : outcome (gmap (list Byte.byte) bytes) :=
  match path with
  | None => Ok ∅
  | Some contents =>
      let bound := resolve_range key range_end in
      let '(rs, e) := scan_kv_file contents 0 in
      let? state := scan_range_loop bound up_to_rev rs ∅ in
      match e with
      | inl _ => Ok state
      | inr e => Err (mkStatus Internal ("wal scan failed: " +:+ detail e))
      end
  end.

(** ** Phase 1 *)

Inductive verdict := Skip | Direct | Stale.

(** The body of the phase-1 loop after the prefix test. *)
Definition phase1_verdict (req : RangeRequest) (target_rev : Z) (ks : KeyState) : verdict :=
  if negb (ks_delete_revision ks =? 0) then
    if target_rev <? ks_create_revision ks then Skip
    else if ks_delete_revision ks <=? target_rev then Skip
    else if ks_mod_revision ks <=? target_rev then Direct
    else Stale
  else if negb (revision_filters req ks) then Skip
  else if target_rev <? ks_create_revision ks then (if ks_rebirth ks then Stale else Skip)
  else if ks_mod_revision ks <=? target_rev then Direct
  else Stale.

Definition historical_kv (req : RangeRequest) (k blob : bytes) : bytes :=
  if rr_keys_only req then keys_only_blob k else blob.

Fixpoint phase1_loop (req : RangeRequest) (target_rev : Z) (prefix : option bytes)
    (l : list (list Byte.byte * KeyState))
    : list (list Byte.byte * list Byte.byte) * list (list Byte.byte) :=
  match l with
  | [] => ([], [])
  | (k, ks) :: l =>
      if past_prefix prefix k then ([], [])
      else
        let '(direct, stale) := phase1_loop req target_rev prefix l in
        match phase1_verdict req target_rev ks with
        | Skip => (direct, stale)
        | Direct => ((k, historical_kv req k (ks_kv_bytes ks)) :: direct, stale)
        | Stale => (direct, k :: stale)
        end
  end.

Definition historical_header (target_rev : Z) : ResponseHeader :=
  mkHeader 1 1 (i64_wrap target_rev) 1.

(** The early return when no key needs the WAL. *)
Definition phase1_response (req : RangeRequest) (target_rev : Z)
    (direct : list (list Byte.byte * list Byte.byte)) : RangeResponse :=
  let count := Z.of_nat (length direct) in
  if rr_count_only req then mkRangeResponse (Some (historical_header target_rev)) [] false count
  else
    let limit := if 0 <? rr_limit req then rr_limit req else 0 in
    let kvs := sort_kvs direct.*2 (rr_sort_order req) (rr_sort_target req) limit in
    let more := (0 <? rr_limit req) && (rr_limit req <? count) in
    let kvs := if more then take (Z.to_nat (rr_limit req)) kvs else kvs in
    mkRangeResponse (Some (historical_header target_rev)) kvs more count.

(** ** Phase 3: merging *)

Definition merge_direct (req : RangeRequest) (direct : list (list Byte.byte * list Byte.byte))
    : gmap (list Byte.byte) bytes :=
  foldl (fun m e => <[e.1 := historical_kv req e.1 e.2]> m) ∅ direct.

Definition merge_stale (req : RangeRequest) (s3 : StoreState) (wal_state : gmap (list Byte.byte) bytes)
    (merged : gmap (list Byte.byte) bytes) (key : list Byte.byte) : gmap (list Byte.byte) bytes :=
  let merged := match wal_state !! key with
                | Some wal_kv => <[key := historical_kv req key wal_kv]> merged
                | None => merged
                end in
  match merged !! key with
  | Some _ => merged
  | None =>
      match keys s3 !! key with
      | Some ks => if is_alive ks then <[key := historical_kv req key (ks_kv_bytes ks)]> merged else merged
      | None => merged
      end
  end.

Definition merge_wal (req : RangeRequest) (bound : RangeBound)
    (merged : gmap (list Byte.byte) bytes) (e : list Byte.byte * bytes) : gmap (list Byte.byte) bytes :=
  match merged !! e.1 with
  | Some _ => merged
  | None => if negb (matches_range bound e.1) then merged
            else <[e.1 := historical_kv req e.1 e.2]> merged
  end.

(** The WAL map is a [HashMap]: its iteration order is irrelevant here, each key
    is inserted at most once. *)
Definition merge_phases (req : RangeRequest) (bound : RangeBound) (s3 : StoreState)
    (direct : list (list Byte.byte * list Byte.byte)) (stale : list (list Byte.byte))
    (wal_state : gmap (list Byte.byte) bytes) : gmap (list Byte.byte) bytes :=
  let merged := merge_direct req direct in
  let merged := foldl (merge_stale req s3 wal_state) merged stale in
  foldl (merge_wal req bound) merged (map_to_list wal_state).

Definition usize_max : Z := 2 ^ 64 - 1.

(** [Vec::truncate]. *)
Definition truncate {A} (n : Z) (l : list A) : list A :=
  if n <? Z.of_nat (length l) then take (Z.to_nat n) l else l.

Definition merged_response (req : RangeRequest) (target_rev : Z) (merged : gmap (list Byte.byte) bytes)
    : RangeResponse :=
  let limit := if 0 <? rr_limit req then rr_limit req else usize_max in
  let count := Z.of_nat (size merged) in
  if rr_count_only req then mkRangeResponse (Some (historical_header target_rev)) [] false count
  else
    let kvs := (btree_iter merged).*2 in
    let kvs := sort_kvs kvs (rr_sort_order req) (rr_sort_target req) limit in
    let kvs := truncate limit kvs in
    let more := (0 <? rr_limit req) && (rr_limit req <? count) in
    mkRangeResponse (Some (historical_header target_rev)) kvs more count.

Definition range_historical (s1 s2 s3 : StoreState) (req : RangeRequest) (target_rev : Z)
    : outcome RangeResponse :=
  let bound := resolve_range (rr_key req) (rr_range_end req) in
  let? iter := bounds_iter s1 (btree_bounds bound) in
  let '(direct, stale) := phase1_loop req target_rev (prefix_key bound) iter in
  match stale with
  | [] => Ok (phase1_response req target_rev direct)
  | _ =>
      let? wal_state := scan_wal_range (Some (file (wal s2))) (rr_key req) (rr_range_end req) target_rev in
      Ok (merged_response req target_rev (merge_phases req bound s3 direct stale wal_state))
  end.

(** ** [Store::range]

    The handler takes the lock once to learn the current revision, once for the
    compaction mark, and then for the read itself; other tasks may run in
    between, so each lock section has its own state. *)

Definition range_locks (a b s1 s2 s3 : StoreState) (req : RangeRequest) : outcome RangeResponse :=
  let? _ := check_key (rr_key req) in
  let target_rev := if 0 <? rr_revision req then rr_revision req else 0 in
  let current_rev := current_revision a in
  if current_rev <? target_rev
  then Err (mkStatus OutOfRange "etcdserver: mvcc: required revision is a future revision")
  else if (0 <? target_rev) && (target_rev <? compact_rev b)
  then Err (mkStatus OutOfRange "etcdserver: mvcc: required revision has been compacted")
  else if 0 <? target_rev then range_historical s1 s2 s3 req target_rev
  else range_current s1 req.

(** A read no writer interrupts. *)
Definition range (s : StoreState) (req : RangeRequest) : outcome RangeResponse :=
  range_locks s s s s s req.

End Historical.
End Historical.
