(* ===== verification/Txn.v ===== *)
(** * Transactions (eval_compare of src/storage/mod.rs, txn of store.rs) *)
From S2P Require Import Prelude Varint KvCodec Wire Crc WalRecord Proto Range SortKvs State Store.
From S2P Require Import Historical.
Local Open Scope Z_scope.

Module Txn.
Import KvCodec Wire Crc Wal Proto Range SortKvs State Store Historical.

(** ** Comparisons *)

Inductive CompareResult := Equal | Greater | Less | NotEqual.
Inductive CompareTarget := CVersion | CCreate | CMod | CValue | CLease.

Definition result_from_i32 (v : Z) : CompareResult :=
  match v with 0 => Equal | 1 => Greater | 2 => Less | 3 => NotEqual | _ => Equal end.

Definition target_from_i32 (v : Z) : CompareTarget :=
  match v with 0 => CVersion | 1 => CCreate | 2 => CMod | 3 => CValue | 4 => CLease | _ => CVersion end.

Definition cmp_i64 (result : CompareResult) (actual expected : Z) : bool :=
  match result with
  | Equal => actual =? expected
  | Greater => expected <? actual
  | Less => actual <? expected
  | NotEqual => negb (actual =? expected)
  end.

Definition cmp_bytes (result : CompareResult) (actual expected : bytes) : bool :=
  match result with
  | Equal => bytes_eqb actual expected
  | Greater => bytes_ltb expected actual
  | Less => bytes_ltb actual expected
  | NotEqual => negb (bytes_eqb actual expected)
  end.

Definition eval_compare (s : StoreState) (cmp : Compare) : bool :=
  let alive := get_alive s (cmp_key cmp) in
  let result := result_from_i32 (cmp_result cmp) in
  match target_from_i32 (cmp_target cmp) with
  | CVersion =>
      let actual := match alive with Some k => ks_version k | None => 0 end in
      let expected := match cmp_target_union cmp with Some (TVersion v) => v | _ => 0 end in
      cmp_i64 result actual expected
  | CCreate =>
      let actual := match alive with Some k => i64_wrap (ks_create_revision k) | None => 0 end in
      let expected := match cmp_target_union cmp with Some (TCreateRevision v) => v | _ => 0 end in
      cmp_i64 result actual expected
  | CMod =>
      let actual := match alive with Some k => i64_wrap (ks_mod_revision k) | None => 0 end in
      let expected := match cmp_target_union cmp with Some (TModRevision v) => v | _ => 0 end in
      cmp_i64 result actual expected
  | CValue =>
      let actual := match alive with Some k => ks_value k | None => [] end in
      let expected := match cmp_target_union cmp with Some (TValue v) => v | _ => [] end in
      cmp_bytes result actual expected
  | CLease =>
      let actual := match alive with Some k => ks_lease k | None => 0 end in
      let expected := match cmp_target_union cmp with Some (TLease v) => v | _ => 0 end in
      cmp_i64 result actual expected
  end.

Section Txn.
Context `{Crc32c} `{KvDecoder} `{UnstableSort}.

(** ** Applying the operations *)

(** [rev] and [deferred], the mutable borrows threaded through the calls. *)
Definition TxnAcc : Type := (option Z * list (list nat * RangeRequest))%type.

(** [*rev.get_or_insert_with(|| state.alloc_revision())] *)
Definition get_or_alloc (rev : option Z) : M Z :=
  match rev with Some r => ret r | None => alloc_revision end.

(** [for (i, op) in ops.into_iter().enumerate()] around the loop body [body]. *)
Definition ops_loop (body : RequestOp -> list nat -> TxnAcc -> M (ResponseOp * TxnAcc)) (path : list nat)
    : list RequestOp -> nat -> TxnAcc -> M (list ResponseOp * TxnAcc) :=
  fix go ops i acc :=
    match ops with
    | [] => ret ([], acc)
    | op :: ops =>
        let* (r, acc) := body op (path ++ [i]) acc in
        let* (rs, acc) := go ops (S i) acc in ret (r :: rs, acc)
    end.

(** The loop body; [path] already ends with the operation's index. *)
Fixpoint apply_txn_op (depth : Z) (op : RequestOp) (path : list nat) (acc : TxnAcc) {struct op}
    : M (ResponseOp * TxnAcc) :=
  let '(rev, deferred) := acc in
  match op with
  | RequestRange r =>
      if 0 <? rr_revision r then ret (ResponseNone, (rev, deferred ++ [(path, r)]))
      else let* s := get in
           let* resp := lift (range_current s r) in ret (ResponseRange resp, acc)
  | RequestPut p =>
      let* s := get in
      let* _ := lift (validate_put s p) in
      let* r := get_or_alloc rev in
      let* resp := put_at p r in
      ret (ResponsePut resp, (Some r, deferred))
  | RequestDeleteRange d =>
      let* _ := lift (check_key (dr_key d)) in
      let* r := get_or_alloc rev in
      let* resp := delete_range_at d r in
      ret (ResponseDeleteRange resp, (Some r, deferred))
  | RequestTxn (mkTxn compare success failure) =>
      if 1 <=? depth then fail InvalidArgument "etcdserver: nested txn is not allowed"
      else
        let* s := get in
        let nested_succeeded := forallb (eval_compare s) compare in
        let* (nested, acc) :=
          if nested_succeeded then ops_loop (apply_txn_op (depth + 1)) path success O acc
          else ops_loop (apply_txn_op (depth + 1)) path failure O acc in
        let* s := get in
        ret (ResponseTxn (mkTxnResponse (Some (state_header s)) nested_succeeded nested), acc)
  | RequestNone => ret (ResponseNone, acc)
  end.

Definition apply_txn_ops (ops : list RequestOp) (path : list nat) (depth : Z) (acc : TxnAcc)
    : M (list ResponseOp * TxnAcc) := ops_loop (apply_txn_op depth) path ops O acc.

(** ** Deferred historical ranges *)

Fixpoint patch_deferred_range (responses : list ResponseOp) (path : list nat) (resp : RangeResponse)
    : outcome (list ResponseOp) :=
  match path with
  | [] => Ok responses
  | first :: rest =>
      match responses !! first with
      | None => Panic "index out of bounds"
      | Some r =>
          match rest with
          | [] => Ok (<[first := ResponseRange resp]> responses)
          | _ => match r with
                 | ResponseTxn (mkTxnResponse h b nested) =>
                     let? nested := patch_deferred_range nested rest resp in
                     Ok (<[first := ResponseTxn (mkTxnResponse h b nested)]> responses)
                 | _ => Ok responses
                 end
          end
      end
  end.

(** The loop after the write lock is released. Each call of [Store::range] takes
    its own locks, so the states it finds may differ from one call to the next:
    [read i] is what the call of the [i]th iteration answers. *)
Fixpoint run_deferred (read : nat -> RangeRequest -> outcome RangeResponse)
    (deferred : list (list nat * RangeRequest)) (responses : list ResponseOp) : outcome (list ResponseOp) :=
  match deferred with
  | [] => Ok responses
  | (path, req) :: deferred =>
      let? resp := read O req in
      let? responses := patch_deferred_range responses path resp in
      run_deferred (fun i => read (S i)) deferred responses
  end.

(** The part under the write lock. *)
Definition txn_locked (req : TxnRequest) : M (bool * ResponseHeader * list ResponseOp * list (list nat * RangeRequest)) :=
  let 'mkTxn compare success failure := req in
  let* s := get in
  let succeeded := forallb (eval_compare s) compare in
  let ops := if succeeded then success else failure in
  let* (responses, (_, deferred)) := apply_txn_ops ops [] 0 (None, []) in
  let* s := get in
  ret (succeeded, state_header s, responses, deferred).

(** The whole call; [read] tells, for the state in which the write lock is
    released, how the later reads are answered. *)
Definition txn_among (read : StoreState -> nat -> RangeRequest -> outcome RangeResponse) (req : TxnRequest)
    : M TxnResponse :=
  let* _ := lift (check_txn_duplicate_keys req) in
  let* (succeeded, header, responses, deferred) := txn_locked req in
  let* s := get in
  let* responses := lift (run_deferred (read s) deferred responses) in
  ret (mkTxnResponse (Some header) succeeded responses).

(** A transaction no other task interrupts. *)
Definition txn (req : TxnRequest) : M TxnResponse := txn_among (fun s _ => range s) req.

End Txn.
End Txn.
