(* ===== verification/Recovery.v ===== *)
(** * Opening the store and compacting its WAL (src/storage/store.rs) *)
From S2P Require Import Prelude Varint KvCodec Wire Crc WalRecord Proto Range State Store.
Local Open Scope Z_scope.

Module Recovery.
Import KvCodec Wire Crc Wal Proto Range State Store.

Section Recovery.
Context `{Crc32c} `{KvDecoder}.

(** ** [Store::open] *)

(** [for rec in &records], with the running [max_rev]. *)
Fixpoint replay (rs : list KvWalRecord) (max_rev : Z) : M Z :=
  match rs with
  | [] => ret max_rev
  | r :: rs =>
      let rev := record_rev r in
      let* s := get in
      if rev <=? compact_rev s then replay rs max_rev
      else
        let* _ := apply_record r in
        replay rs (if max_rev <? rev then rev else max_rev)
  end.

(** The set of lease ids alive keys still carry, in ascending order. *)
Definition restored_leases (s : StoreState) : list Z :=
  let carried := (fun e => ks_lease e.2) <$>
    base.filter (fun e => is_alive e.2 = true /\ ks_lease e.2 <> 0) (btree_iter (keys s)) in
  (btree_iter (list_to_map ((fun id => (id, tt)) <$> carried) : gmap Z unit)).*1.

Definition default_ttl : Z := 3600.

Definition restore_leases (now : Z) : M Z := fun s =>
  let unique := restored_leases s in
  let max_id := default 0 (last unique) in
  let s := if 0 <? max_id then set_next_lease_id (i64_wrap (max_id + 1)) s else s in
  match instant_add now default_ttl with
  | Ok expires_at =>
      (set_leases (foldl (fun m id => <[id := mkLease id default_ttl expires_at 0]> m) (leases s) unique) s,
       Ok (Z.of_nat (length unique)))
  | Err e => (s, Err e)
  | Panic w => match unique with [] => (s, Ok 0) | _ => (s, Panic w) end
  end.

Definition open_store (now : Z) (contents : bytes) : outcome StoreState :=
  let w := WalFile_open contents in
  match scan_kv_collect w with
  | inr e => Err (mkStatus Internal (detail e))
  | inl records =>
      let m := (let* max_rev := replay records 0 in
                let* _ := modify (set_next_rev (u64_wrap (max_rev + 1))) in
                restore_leases now) in
      match m (StoreState_new w) with
      | (s, Ok _) => Ok s
      | (_, Err e) => Err e
      | (_, Panic w) => Panic w
      end
  end.

(** ** [Store::compact_wal]

    The temporary file is a [WalFile] of its own: its faults decide which write
    fails. *)

Record Snapshot := mkSnapshot { sn_records : list KvWalRecord; sn_rev : Z; sn_wal_size : Z }.

Definition snapshot_record (key : bytes) (ks : KeyState) : KvWalRecord :=
  KvWalRecord_new (if negb (ks_lease ks =? 0) then HAS_LEASE else 0) key (ks_value ks)
    (i64_wrap (ks_create_revision ks)) (i64_wrap (ks_mod_revision ks)) (ks_version ks) (ks_lease ks).

Fixpoint snapshot_loop (l : list (list Byte.byte * KeyState)) : list KvWalRecord :=
  match l with
  | [] => []
  | (key, ks) :: l =>
      if negb (ks_delete_revision ks =? 0) then snapshot_loop l
      else snapshot_record key ks :: snapshot_loop l
  end.

(** Phase A, under the read lock. *)
Definition compact_phase_a (s : StoreState) : Snapshot :=
  mkSnapshot (snapshot_loop (btree_iter (keys s))) (current_revision s) (Z.of_nat (length (file (wal s)))).

(** Phase B, without a lock: the temporary file. *)
Definition compact_phase_b (fs : list (option nat)) (sn : Snapshot) : WalFile * io_result unit :=
  write_records (mkWalFile [] false fs) (sn_records sn).

(** The bytes appended to the active WAL since phase A. *)
Definition wal_tail (s : StoreState) (sn : Snapshot) : bytes :=
  if sn_wal_size sn <? Z.of_nat (length (file (wal s)))
  then drop (Z.to_nat (sn_wal_size sn)) (file (wal s)) else [].

(** Phase C, under the write lock: append the tail, rename over the active WAL,
    swap the handle. *)
Definition compact_phase_c (sn : Snapshot) (target : WalFile) (s : StoreState)
    : StoreState * io_result unit :=
  let tail := wal_tail s sn in
  let swap (t : WalFile) := set_wal (mkWalFile (file t) true (faults (wal s))) s in
  match tail with
  | [] => (swap target, inl tt)
  | _ => match write_all target tail with
         | (target, inl _) => (swap target, inl tt)
         | (_, inr e) => (s, inr e)
         end
  end.

(** The three phases without a writer in between. *)
Definition compact_wal (fs : list (option nat)) (s : StoreState) : StoreState * io_result unit :=
  let sn := compact_phase_a s in
  match compact_phase_b fs sn with
  | (_, inr e) => (s, inr e)
  | (target, inl _) => compact_phase_c sn target s
  end.

End Recovery.
End Recovery.
