(* ===== verification/Background.v ===== *)
(** * Background tasks (src/storage/background.rs)

    Each task is an endless loop around one step; the step is what touches the
    store. Clocks are arguments. *)
From S2P Require Import Prelude Varint KvCodec Wire Crc WalRecord Proto Range State Store Recovery.
Local Open Scope Z_scope.

Module Background.
Import KvCodec Wire Crc Wal Proto Range State Store Recovery.

(** ** fsync *)

(** One tick: [dirty.swap(false)], and whether the file is synced. *)
Definition fsync_tick (w : WalFile) : WalFile * bool := (set_dirty false w, dirty w).

(** ** Lease expiry *)

Definition duration_max : Z := 2 ^ 64 * 1000000000 - 1.

(** How long the task sleeps: until the earliest expiry. *)
Definition sleep_dur (now : Z) (s : StoreState) : Z :=
  match (fun e => ls_expires_at e.2) <$> btree_iter (leases s) with
  | [] => duration_max
  | e :: es => let earliest := foldl Z.min e es in
               if earliest <=? now then 0 else earliest - now
  end.

Definition expired_leases (now : Z) (s : StoreState) : list Z :=
  (base.filter (fun e => ls_expires_at e.2 <= now) (btree_iter (leases s))).*1.

Section Background.
Context `{Crc32c} `{KvDecoder}.

(** [if let Err(e) = s.delete_keys_for_lease(id) { error!(...) }] *)
Definition log_error {A} (m : M A) : M unit := fun s =>
  match m s with
  | (s, Panic w) => (s, Panic w)
  | (s, _) => (s, Ok tt)
  end.

Definition expire_lease (id : Z) : M unit :=
  let* _ := modify (fun s => set_leases (delete id (leases s)) s) in
  log_error (delete_keys_for_lease id).

(** The locked block; [notify_one] follows only when something expired. *)
Definition expiry_step (now : Z) : M unit :=
  let* s := get in
  match expired_leases now s with
  | [] => ret tt
  | expired =>
      let* _ := for_each expire_lease expired in
      modify (set_notified true)
  end.

(** ** WAL compaction *)

Definition COMPACT_THRESHOLD : Z := 64 * 1024 * 1024.

(** One tick: [None] when the file cannot be inspected. *)
Definition compaction_tick (size : option Z) (fs : list (option nat)) (s : StoreState) : StoreState :=
  match size with
  | None => s
  | Some size => if size <? COMPACT_THRESHOLD then s else (compact_wal fs s).1
  end.

End Background.
End Background.
