(* ===== verification/System.v ===== *)
(** * Transitions of the store and the memory invariant

    Every handler is a sequence of a few primitive transitions ([trans]): a
    revision is allocated, a put or a batch of deletions is logged and applied, a
    failed write leaves bytes in the WAL, or bookkeeping (leases, watchers, the
    compaction mark) changes. The invariant [inv] is preserved by each of them;
    [runs] carries this through the handlers. *)
From S2P Require Import Prelude Varint KvCodec Wire Crc WalRecord Proto Range SortKvs State Store.
From S2P Require Import Historical Txn Recovery Background.
Local Open Scope Z_scope.

Module System.
Import KvCodec Wire Crc Wal Proto Range SortKvs State Store Historical Txn Recovery Background.

(** ** Sizes *)

(** The offset of [mod_revision] fits the record header's 16-bit field. *)
Definition key_small (key : bytes) : Prop := Z.of_nat (length key) + 18 < 2 ^ 16.

Definition kv_fits (key value : bytes) : Prop := key_small key /\ record_fits key value.

Lemma kv_fits_sizes key value : kv_fits key value -> kv_sizes_ok key value.
Proof. intros [_ ?]. by apply record_fits_sizes. Qed.

(** ** The memory invariant *)

Record ks_ok (nr : Z) (key : bytes) (ks : KeyState) : Prop := {
  ok_fits : kv_fits key (ks_value ks);
  ok_create : 1 <= ks_create_revision ks <= ks_mod_revision ks;
  ok_mod : ks_mod_revision ks < nr;
  ok_delete : ks_delete_revision ks = 0 \/ ks_mod_revision ks <= ks_delete_revision ks < nr;
  ok_version : is_i64 (ks_version ks);
  ok_lease : is_i64 (ks_lease ks);
  ok_blob : exists cr ver, ks_kv_bytes ks = kv_blob key (ks_value ks) cr (ks_mod_revision ks) ver (ks_lease ks)
}.

(** The alive keys. *)
Definition live (m : gmap (list Byte.byte) KeyState) : gmap (list Byte.byte) KeyState :=
  base.filter (fun e => is_alive e.2 = true) m.

(** The counter is the number of live keys, as long as a [u64] can count the keys. *)
Definition count_ok (s : StoreState) : Prop :=
  Z.of_nat (size (keys s)) < 2 ^ 64 -> key_count s = Z.of_nat (size (live (keys s))).

Record inv (s : StoreState) : Prop := {
  inv_rev : 1 <= next_rev s < 2 ^ 63;
  inv_keys : map_Forall (ks_ok (next_rev s)) (keys s);
  inv_count : count_ok s;
  inv_compact : 0 <= compact_rev s < next_rev s
}.

Lemma lookup_live m key : live m !! key = alive_in m key.
Proof.
  unfold live, alive_in. destruct (m !! key) as [ks|] eqn:E.
  - destruct (is_alive ks) eqn:A.
    + by apply map_lookup_filter_Some.
    + apply map_lookup_filter_None. right. intros x Hx Ha. cbn in Ha. congruence.
  - by apply map_lookup_filter_None; left.
Qed.

Lemma alive_in_Some m key ks : alive_in m key = Some ks <-> m !! key = Some ks /\ ks_delete_revision ks = 0.
Proof.
  unfold alive_in, is_alive. destruct (m !! key) as [k|]; [|naive_solver].
  destruct (Z.eqb_spec (ks_delete_revision k) 0); naive_solver.
Qed.

Lemma alive_in_put m key value lease rev blob k :
  alive_in (put_keys m key value lease rev blob) k
  = if decide (k = key) then Some (put_entry m key value lease rev blob) else alive_in m k.
Proof.
  unfold put_keys. unfold alive_in at 1. destruct (decide (k = key)) as [->|Hne].
  - by rewrite lookup_insert_eq.
  - by rewrite lookup_insert_ne.
Qed.

Lemma alive_in_del m key rev k :
  rev <> 0 -> alive_in (del_keys m key rev) k = if decide (k = key) then None else alive_in m k.
Proof.
  intros Hr. unfold del_keys. destruct (alive_in m key) as [p|] eqn:E.
  - unfold alive_in at 1. destruct (decide (k = key)) as [->|Hne].
    + rewrite lookup_insert_eq. unfold is_alive, tombstone. cbn. by rewrite (proj2 (Z.eqb_neq _ _)).
    + by rewrite lookup_insert_ne.
  - destruct (decide (k = key)) as [->|]; done.
Qed.

Lemma live_put m key value lease rev blob :
  live (put_keys m key value lease rev blob) = <[key := put_entry m key value lease rev blob]> (live m).
Proof.
  apply map_eq. intros k. rewrite lookup_live, alive_in_put. destruct (decide (k = key)) as [->|].
  - by rewrite lookup_insert_eq.
  - by rewrite lookup_insert_ne, lookup_live.
Qed.

Lemma live_del m key rev : rev <> 0 -> live (del_keys m key rev) = delete key (live m).
Proof.
  intros Hr. apply map_eq. intros k. rewrite lookup_live, alive_in_del by done.
  destruct (decide (k = key)) as [->|].
  - by rewrite lookup_delete_eq.
  - by rewrite lookup_delete_ne, lookup_live.
Qed.

Lemma ks_ok_mono nr nr' key ks : nr <= nr' -> ks_ok nr key ks -> ks_ok nr' key ks.
Proof. intros Hle []. split; try done; [lia|]. destruct ok_delete0; [by left|right; lia]. Qed.

Lemma kv_blob_patchable key value cr mr ver lease :
  kv_sizes_ok key value -> blob_patchable (kv_blob key value cr mr ver lease).
Proof.
  intros Hs rev. unfold with_mod_revision. rewrite mod_revision_field_offset_blob by done.
  rewrite (proj2 (Nat.ltb_ge _ _)) by (rewrite length_kv_blob; lia). eauto.
Qed.

Lemma ks_ok_patchable nr key ks : ks_ok nr key ks -> blob_patchable (ks_kv_bytes ks).
Proof. intros [Hf _ _ _ _ _ (cr & ver & ->)]. by apply kv_blob_patchable, kv_fits_sizes. Qed.

Lemma inv_patchable s key p : inv s -> get_alive s key = Some p -> blob_patchable (ks_kv_bytes p).
Proof.
  intros I [Hp _]%alive_in_Some. by eapply ks_ok_patchable, (inv_keys s I).
Qed.

(** *** Preservation by the effects *)

Lemma put_entry_ok nr m key value lease rev blob :
  map_Forall (ks_ok nr) m -> kv_fits key value -> is_i64 lease -> 1 <= rev < nr -> nr <= 2 ^ 63 ->
  (forall ks, m !! key = Some ks -> ks_mod_revision ks <= rev) ->
  (forall b, blob = Some b -> exists cr ver, b = kv_blob key value cr rev ver lease) ->
  ks_ok nr key (put_entry m key value lease rev blob).
Proof.
  intros Hm Hf Hl Hr Hnr Hmod Hb. unfold put_entry.
  assert (forall cr ver, exists cr' ver',
    default (kv_blob key value (i64_wrap cr) (i64_wrap rev) ver lease) blob = kv_blob key value cr' rev ver' lease)
    as Hblob.
  { intros cr ver. destruct blob as [b|]; [by apply Hb|]. eexists _, _. cbn.
    by rewrite (i64_wrap_small rev) by (unfold is_i64; lia). }
  destruct (alive_in m key) as [p|] eqn:E.
  - apply alive_in_Some in E as [E _]. pose proof (Hm _ _ E) as [? [? ?] ? ? ? ? ?].
    pose proof (Hmod _ E). split; cbn; auto using i64_wrap_range; lia.
  - split; cbn; auto; [lia|lia|unfold is_i64; lia].
Qed.

Lemma size_live_le m : (size (live m) <= size m)%nat.
Proof. apply map_subseteq_size, map_filter_subseteq. Qed.

Lemma count_put_effect s key value lease rev blob :
  count_ok s -> count_ok (put_effect key value lease rev blob s).
Proof.
  intros Hc Hs. cbn [keys key_count put_effect notified set_chans set_key_count set_keys] in *.
  rewrite live_put. pose proof (size_live_le (keys s)). unfold put_keys in Hs. rewrite map_size_insert in Hs.
  destruct (alive_in (keys s) key) as [p|] eqn:E; rewrite <- lookup_live in E.
  - rewrite map_size_insert_Some by eauto. apply Hc. destruct (keys s !! key); cbn in Hs; lia.
  - rewrite map_size_insert_None by done.
    assert (Z.of_nat (size (live (keys s))) < 2 ^ 64 - 1).
    { destruct (keys s !! key) as [ks|] eqn:Ek; [|cbn in Hs; lia].
      assert (size (live (keys s)) < size (keys s))%nat; [|cbn in Hs; lia].
      apply map_subset_size. split; [apply map_filter_subseteq|].
      intros Hsub. rewrite map_subseteq_spec in Hsub. apply Hsub in Ek. congruence. }
    rewrite Hc by (destruct (keys s !! key); cbn in Hs; lia).
    rewrite u64_wrap_small by (unfold is_u64; lia). lia.
Qed.

Lemma count_del_effect s key rev : rev <> 0 -> count_ok s -> count_ok (del_effect rev s key).
Proof.
  intros Hr Hc. unfold del_effect. destruct (alive_in (keys s) key) as [p|] eqn:E; [|done].
  intros Hs. cbn [keys key_count notified set_chans set_key_count set_keys] in *.
  rewrite live_del by done. unfold del_keys in Hs. rewrite E in Hs.
  apply alive_in_Some in E as E'. rewrite map_size_insert_Some in Hs by naive_solver.
  rewrite Hc by done. rewrite map_size_delete, lookup_live, E. cbn.
  assert (size (live (keys s)) <> 0)%nat; [|lia].
  intros E0%map_size_empty_iff. rewrite <- lookup_live, E0 in E. done.
Qed.

Lemma inv_put_effect s key value lease :
  inv s -> kv_fits key value -> is_i64 lease -> 2 <= next_rev s ->
  inv (put_effect key value lease (next_rev s - 1) None s).
Proof.
  intros I Hf Hl Hn. destruct I as [Hr Hk Hc Hcr].
  assert (forall k ks, keys s !! k = Some ks -> ks_mod_revision ks <= next_rev s - 1) as Hmod
    by (intros k ks E; pose proof (ok_mod _ _ _ (Hk _ _ E)); lia).
  split; [done| |by apply count_put_effect|done].
  apply map_Forall_insert_2; [|done]. apply put_entry_ok; try done; try (cbn; lia). intros ks. apply Hmod.
Qed.

Lemma del_keys_ok nr m key rev :
  map_Forall (ks_ok nr) m -> 1 <= rev < nr ->
  (forall ks, m !! key = Some ks -> ks_mod_revision ks <= rev) ->
  map_Forall (ks_ok nr) (del_keys m key rev).
Proof.
  intros Hm Hr Hmod. unfold del_keys. destruct (alive_in m key) as [p|] eqn:E; [|done].
  apply alive_in_Some in E as [E _]. apply map_Forall_insert_2; [|done].
  pose proof (Hmod _ E). destruct (Hm _ _ E). split; cbn; try done. right; lia.
Qed.

Lemma inv_del_effect s key rev :
  inv s -> 1 <= rev < next_rev s -> (forall k ks, keys s !! k = Some ks -> ks_mod_revision ks <= rev) ->
  inv (del_effect rev s key).
Proof.
  intros I Hr Hmod. pose proof (count_del_effect s key rev ltac:(lia) (inv_count s I)) as Hc'.
  unfold del_effect in *. destruct (alive_in (keys s) key) as [p|] eqn:E; [|done].
  destruct I as [Hnr Hk Hc Hcr]. split; [done| |done|done].
  cbn. apply del_keys_ok; try done. intros ks. apply Hmod.
Qed.

(** [n] more revisions can be allocated. *)
Definition room (n : Z) (s : StoreState) : Prop := next_rev s + n < 2 ^ 63.

(** ** Transitions *)

Section Transitions.
Context `{Crc32c} `{KvDecoder} `{UnstableSort}.

(** [watching] says whether watch registrations may change; everything logged is
    logged at revision [floor] or later. *)
Inductive wtrans (watching : bool) (floor : Z) (s : StoreState) : StoreState -> Prop :=
| t_alloc : next_rev s + 1 < 2 ^ 63 -> wtrans watching floor s (set_next_rev (next_rev s + 1) s)
| t_put key value lease w :
    kv_fits key value -> is_i64 lease -> 2 <= next_rev s -> floor < next_rev s ->
    append_kv (wal s) (put_record (get_alive s key) key value lease (next_rev s - 1)) = (w, inl tt) ->
    wtrans watching floor s (put_effect key value lease (next_rev s - 1) None (set_wal w s))
| t_delete ks w :
    NoDup ks -> Forall (fun k => is_Some (get_alive s k)) ks -> 2 <= next_rev s -> floor < next_rev s ->
    append_kv_batch (wal s) (delete_records s (next_rev s - 1) ks) = (w, inl tt) ->
    wtrans watching floor s (foldl (del_effect (next_rev s - 1)) (set_wal w s) ks)
| t_torn w : faults (wal s) <> [] -> wtrans watching floor s (set_wal w s)
| t_admin s' :
    keys s' = keys s -> next_rev s' = next_rev s -> key_count s' = key_count s -> wal s' = wal s ->
    watchers s' = watchers s -> chans s' = chans s ->
    compact_rev s <= compact_rev s' < next_rev s -> wtrans watching floor s s'
| t_watch ws : watching = true -> wtrans watching floor s (set_watchers ws s).

(** The transitions of the handlers other than watch registration. *)
Abbreviation trans := (wtrans false).

Lemma trans_floor b floor floor' s s' : floor' <= floor -> wtrans b floor s s' -> wtrans b floor' s s'.
Proof.
  intros Hle T. destruct T;
    [apply t_alloc|apply t_put|apply t_delete|apply t_torn|apply t_admin|apply t_watch]; (done || lia).
Qed.

Lemma inv_same s s' :
  keys s' = keys s -> next_rev s' = next_rev s -> key_count s' = key_count s ->
  0 <= compact_rev s' < next_rev s -> inv s -> inv s'.
Proof. intros Ek En Ec Hr []. split; unfold count_ok in *; rewrite ?Ek, ?En, ?Ec; done. Qed.

Lemma del_effect_fields rev s key :
  next_rev (del_effect rev s key) = next_rev s /\ wal (del_effect rev s key) = wal s
  /\ leases (del_effect rev s key) = leases s /\ watchers (del_effect rev s key) = watchers s
  /\ compact_rev (del_effect rev s key) = compact_rev s
  /\ keys (del_effect rev s key) = del_keys (keys s) key rev.
Proof.
  unfold del_effect. destruct (alive_in (keys s) key) eqn:E; [done|].
  repeat split. unfold del_keys. by rewrite E.
Qed.

Lemma next_rev_deletes rev ks s : next_rev (foldl (del_effect rev) s ks) = next_rev s.
Proof.
  revert s. induction ks as [|k ks IH]; intros s; cbn [foldl]; [done|]. rewrite IH. apply del_effect_fields.
Qed.

Lemma trans_rev_le b floor s s' : wtrans b floor s s' -> next_rev s <= next_rev s'.
Proof.
  destruct 1 as [| | | |s' _ En _ _ _ _ _|]; cbn; rewrite ?next_rev_deletes, ?En; cbn; lia.
Qed.

Lemma rtc_trans_rev_le b floor s s' : rtc (wtrans b floor) s s' -> next_rev s <= next_rev s'.
Proof. induction 1 as [|s s1 s' T _ IH]; [lia|]. apply trans_rev_le in T. lia. Qed.

Lemma rtc_trans_floor b floor floor' s s' :
  floor' <= floor -> rtc (wtrans b floor) s s' -> rtc (wtrans b floor') s s'.
Proof. intros Hle. induction 1; [done|]. eapply rtc_l; [by eapply trans_floor|done]. Qed.

Lemma del_keys_mod m key rev n :
  map_Forall (fun _ ks => ks_mod_revision ks <= n) m ->
  map_Forall (fun _ ks => ks_mod_revision ks <= n) (del_keys m key rev).
Proof.
  intros Hm. unfold del_keys. destruct (alive_in m key) as [p|] eqn:E; [|done].
  apply alive_in_Some in E as [E _]. apply map_Forall_insert_2; [|done]. apply (Hm _ _ E).
Qed.

Lemma inv_deletes ks s rev :
  inv s -> 1 <= rev < next_rev s -> map_Forall (fun _ ks => ks_mod_revision ks <= rev) (keys s) ->
  inv (foldl (del_effect rev) s ks) /\ next_rev (foldl (del_effect rev) s ks) = next_rev s
  /\ wal (foldl (del_effect rev) s ks) = wal s.
Proof.
  revert s. induction ks as [|k ks IH]; intros s I Hr Hm; [done|]. cbn [foldl].
  destruct (del_effect_fields rev s k) as (En & Ew & _ & _ & _ & Ek).
  rewrite <- En, <- Ew. apply IH; rewrite ?En, ?Ek; auto using del_keys_mod, inv_del_effect.
Qed.

Lemma inv_mod_le s : inv s -> map_Forall (fun _ ks => ks_mod_revision ks <= next_rev s - 1) (keys s).
Proof. intros I k ks E. pose proof (ok_mod _ _ _ (inv_keys s I _ _ E)). lia. Qed.

Lemma inv_set_wal w s : inv s -> inv (set_wal w s).
Proof. intros []. by split. Qed.

Lemma inv_set_chans cs s : inv s -> inv (set_chans cs s).
Proof. intros []. by split. Qed.

Lemma trans_inv b floor s s' : wtrans b floor s s' -> inv s -> inv s'.
Proof.
  intros T I. destruct T as [Hn|key value lease w Hf Hl Hn _ Hw|ks w Hnd Ha Hn _ Hw|w Hw|s' Ek En Ec _ _ _ Hr|ws _].
  - destruct I as [? Hk ? ?]. split; cbn; try done; try lia.
    eapply map_Forall_impl; [apply Hk|]. intros k ks. apply ks_ok_mono. lia.
  - pose proof (inv_set_wal w s I). by apply (inv_put_effect (set_wal w s)).
  - pose proof (inv_set_wal w s I) as I'.
    apply (inv_deletes ks (set_wal w s)); [done|cbn; lia|]. by apply inv_mod_le in I'.
  - destruct I. by split.
  - eapply inv_same; try done. pose proof (inv_compact s I). lia.
  - apply (inv_same s); try done. apply (inv_compact s I).
Qed.

Lemma rtc_trans_inv b floor s s' : rtc (wtrans b floor) s s' -> inv s -> inv s'.
Proof. induction 1; eauto using trans_inv. Qed.

(** ** Handlers as transition sequences

    [runs P m Q]: from a state with the invariant and [P], whatever way [m] ends
    the state was reached by transitions; if it succeeds, [Q] holds. *)

Section Handlers.
Context (floor : Z).

Definition runs {A} (P : StoreState -> Prop) (m : M A) (Q : A -> StoreState -> Prop) : Prop :=
  forall s, inv s -> P s ->
  let '(s', o) := m s in rtc (trans floor) s s' /\ match o with Ok a => Q a s' | _ => True end.

Lemma runs_bind {A B} P (m : M A) Q (f : A -> M B) R :
  runs P m Q -> (forall a, runs (Q a) (f a) R) -> runs P (bind m f) R.
Proof.
  intros Hm Hf s I HP. specialize (Hm s I HP). unfold bind.
  destruct (m s) as [s' [a|e|w]]; [|done..]. destruct Hm as [Ht HQ].
  specialize (Hf a s' (rtc_trans_inv _ _ _ _ Ht I) HQ). destruct (f a s') as [s'' o].
  destruct Hf as [Ht' HR]. split; [by etrans|done].
Qed.

Lemma runs_weaken {A} (P P' : StoreState -> Prop) (m : M A) (Q Q' : A -> StoreState -> Prop) :
  runs P m Q -> (forall s, inv s -> P' s -> P s) -> (forall a s, inv s -> Q a s -> Q' a s) -> runs P' m Q'.
Proof.
  intros Hm HP HQ s I HP'. specialize (Hm s I (HP s I HP')). destruct (m s) as [s' o].
  destruct Hm as [Ht Hq]. split; [done|]. destruct o; eauto using rtc_trans_inv.
Qed.

Lemma runs_pre {A} (P P' : StoreState -> Prop) (m : M A) Q :
  runs P m Q -> (forall s, P' s -> P s) -> runs P' m Q.
Proof. intros Hm HP. eapply runs_weaken; eauto. Qed.

Lemma runs_post {A} P (m : M A) (Q Q' : A -> StoreState -> Prop) :
  runs P m Q -> (forall a s, Q a s -> Q' a s) -> runs P m Q'.
Proof. intros Hm HQ. eapply runs_weaken; eauto. Qed.

Lemma runs_ret {A} (a : A) P (Q : A -> StoreState -> Prop) : (forall s, P s -> Q a s) -> runs P (ret a) Q.
Proof. intros Hq s I HP. split; [done|]. by apply Hq. Qed.

Lemma runs_lift {A B} (o : outcome A) (f : A -> M B) P R :
  (forall a, o = Ok a -> runs P (f a) R) -> runs P (bind (lift o) f) R.
Proof. intros Hf s I HP. unfold bind, lift. destruct o; [by apply Hf|done..]. Qed.

Lemma runs_get {B} (f : StoreState -> M B) P R :
  (forall s0, runs P (f s0) R) -> runs P (bind get f) R.
Proof. intros Hf s I HP. by apply Hf. Qed.

Lemma runs_fail {A} c msg P (Q : A -> StoreState -> Prop) : runs P (fail c msg) Q.
Proof. by intros s I HP. Qed.

(** [r] is the revision allocated last. *)
Definition at_rev (r : Z) (s : StoreState) : Prop := next_rev s = r + 1 /\ 1 <= r /\ floor <= r.

(** [n] more revisions can be allocated, from [floor] on. *)
Definition ready (n : Z) (s : StoreState) : Prop := room n s /\ floor <= next_rev s.

Lemma runs_alloc n : 0 <= n -> runs (ready (n + 1)) alloc_revision (fun r s => at_rev r s /\ ready n s).
Proof.
  intros Hn s I HP. unfold ready, room, alloc_revision, at_rev in *. cbn.
  pose proof (inv_rev s I). rewrite u64_wrap_small by (unfold is_u64; lia). split; [|lia].
  apply rtc_once, t_alloc. lia.
Qed.

Lemma runs_admin (f : StoreState -> StoreState) P :
  (forall s, keys (f s) = keys s /\ next_rev (f s) = next_rev s /\ key_count (f s) = key_count s
     /\ wal (f s) = wal s /\ watchers (f s) = watchers s /\ chans (f s) = chans s
     /\ compact_rev (f s) = compact_rev s) ->
  (forall s, P s -> P (f s)) ->
  runs P (modify f) (fun _ => P).
Proof.
  intros Hf HP s I HPs. destruct (Hf s) as (? & ? & ? & ? & ? & ? & Hc). unfold modify. split; [|auto].
  apply rtc_once, t_admin; try done. pose proof (inv_compact s I). rewrite Hc. lia.
Qed.

(** *** KV writes *)

Definition put_ok (req : PutRequest) : Prop := kv_fits (pr_key req) (pr_value req) /\ is_i64 (pr_lease req).

Lemma append_kv_fault w r w' e : append_kv w r = (w', inr e) -> faults w <> [].
Proof. unfold append_kv, write_all. destruct (faults w) as [|[n|] fs]; done. Qed.

Lemma write_records_fault w rs w' e : write_records w rs = (w', inr e) -> faults w <> [].
Proof.
  revert w. induction rs as [|r rs IH]; intros w; cbn [write_records]; [done|].
  unfold write_all. destruct (faults w) as [|[n|] fs]; [|done..].
  intros Hw _. by eapply IH.
Qed.

Lemma append_kv_batch_fault w rs w' e : append_kv_batch w rs = (w', inr e) -> faults w <> [].
Proof.
  unfold append_kv_batch. destruct (write_records w rs) as [w1 [[]|e1]] eqn:E; [done|]. intros _.
  by eapply write_records_fault.
Qed.

Lemma runs_put_at req r :
  put_ok req -> runs (at_rev r) (put_at req r) (fun _ => at_rev r).
Proof.
  intros [Hf Hl] s I [Hn Hr]. unfold put_at.
  destruct (_ && _) eqn:E1; [done|].
  assert (forall p, get_alive s (pr_key req) = Some p -> ks_ok (next_rev s) (pr_key req) p) as Hprev
    by (intros p [Hp _]%alive_in_Some; by apply (inv_keys s I)).
  set (value := if pr_ignore_value req then _ else _). set (lease := if pr_ignore_lease req then _ else _).
  assert (kv_fits (pr_key req) value /\ is_i64 lease) as [Hv Hle].
  { subst value lease. destruct (get_alive s (pr_key req)) as [p|]; [destruct (Hprev p eq_refl)|];
      destruct (pr_ignore_value req), (pr_ignore_lease req); done. }
  destruct (negb (lease =? 0) && _) eqn:E2; [done|].
  destruct (append_kv _ _) as [w [[]|e]] eqn:Ew.
  - unfold bind, get, ret. rewrite apply_effect. cbn [fst snd]. split; [|done].
    apply rtc_once. replace r with (next_rev s - 1) in * by lia. apply t_put; (done || lia).
  - cbn. split; [|done]. apply rtc_once, t_torn. by eapply append_kv_fault.
Qed.

(** The deletion loops apply [del_effect] to each key. *)
Lemma delete_loop_effect prev_kv rev l s :
  inv s -> 1 <= rev < next_rev s -> map_Forall (fun _ ks => ks_mod_revision ks <= rev) (keys s) ->
  delete_loop prev_kv rev l s
  = (foldl (del_effect rev) s l.*1,
     Ok (omap (fun e => match e.2 with Some p => if prev_kv then Some (ks_kv_bytes p) else None | None => None end) l)).
Proof.
  revert s. induction l as [|[k prev] l IH]; intros s I Hr Hm; [done|].
  cbn [delete_loop fmap list_fmap foldl fst]. unfold bind at 1.
  rewrite apply_delete_effect by (intros p; by apply inv_patchable).
  destruct (del_effect_fields rev s k) as (En & _ & _ & _ & _ & Ek).
  unfold bind. rewrite IH by (rewrite ?En, ?Ek; auto using inv_del_effect, del_keys_mod).
  cbn. destruct prev as [p|]; [destruct prev_kv|]; done.
Qed.

Lemma for_each_delete_effect rev ks s :
  inv s -> 1 <= rev < next_rev s -> map_Forall (fun _ ks => ks_mod_revision ks <= rev) (keys s) ->
  for_each (fun key => let* _ := apply_delete key rev in ret tt) ks s
  = (foldl (del_effect rev) s ks, Ok tt).
Proof.
  revert s. induction ks as [|k ks IH]; intros s I Hr Hm; [done|].
  cbn [for_each foldl]. unfold bind at 1 2.
  rewrite apply_delete_effect by (intros p; by apply inv_patchable).
  destruct (del_effect_fields rev s k) as (En & _ & _ & _ & _ & Ek). cbn [ret].
  apply IH; rewrite ?En, ?Ek; auto using inv_del_effect, del_keys_mod.
Qed.

(** The state a batch starts from, once it is logged. *)
Lemma batch_ready s w r :
  inv s -> at_rev r s -> inv (set_wal w s) /\ 1 <= r < next_rev (set_wal w s)
  /\ map_Forall (fun _ ks => ks_mod_revision ks <= r) (keys (set_wal w s)).
Proof.
  intros I [Hn Hr]. split; [by apply inv_set_wal|]. split; [cbn; lia|].
  replace r with (next_rev s - 1) by lia. exact (inv_mod_le s I).
Qed.

Lemma batch_trans s ks w r :
  inv s -> at_rev r s -> NoDup ks -> Forall (fun k => is_Some (get_alive s k)) ks ->
  append_kv_batch (wal s) (delete_records s r ks) = (w, inl tt) ->
  let s' := foldl (del_effect r) (set_wal w s) ks in rtc (trans floor) s s' /\ at_rev r s'.
Proof.
  intros I Hr Hnd Ha Hw s'. subst s'. destruct (batch_ready s w r I Hr) as (I' & Hr' & Hm).
  destruct (inv_deletes ks _ r I' Hr' Hm) as (_ & En & _). destruct Hr as [Hn Hr]. split.
  - apply rtc_once. replace r with (next_rev s - 1) in * by lia. apply t_delete; (done || lia).
  - split; [|done]. rewrite En. done.
Qed.

Lemma alive_keys_alive s bound :
  Forall (fun k => is_Some (get_alive s k)) (alive_keys (in_range bound (keys s))).
Proof.
  apply Forall_forall. intros k (ks & [_ Hk]%elem_of_in_range & Ha)%elem_of_alive_keys.
  unfold get_alive. rewrite Hk, Ha. eauto.
Qed.

Lemma runs_delete_range_at req r : runs (at_rev r) (delete_range_at req r) (fun _ => at_rev r).
Proof.
  intros s I Hr. unfold delete_range_at, bind at 1, get at 1.
  destruct (keys_to_delete s _) as [ks|e|w] eqn:Eks; unfold lift, bind at 1; [|done..].
  apply keys_to_delete_Ok in Eks as [_ ->].
  set (ks := alive_keys _). unfold wal_append_batch, bind at 1.
  destruct (append_kv_batch _ _) as [w [[]|e]] eqn:Ew.
  - destruct (batch_ready s w r I Hr) as (I' & Hr' & Hm).
    unfold bind. rewrite delete_loop_effect by done.
    rewrite fst_zip by by rewrite length_fmap. cbn [get ret fst snd].
    apply batch_trans; try done; [apply alive_keys_NoDup|apply alive_keys_alive].
  - cbn. split; [|done]. apply rtc_once, t_torn. by eapply append_kv_batch_fault.
Qed.

Lemma lease_keys_NoDup s id : NoDup (lease_keys s id).
Proof. eapply sublist_NoDup; [apply (btree_iter_NoDup (keys s))|apply filter_sublist_fst]. Qed.

Lemma elem_of_lease_keys s id k :
  k ∈ lease_keys s id <-> exists ks, get_alive s k = Some ks /\ ks_lease ks = id.
Proof.
  unfold lease_keys. rewrite list_elem_of_fmap. split.
  - intros ([k' ks] & -> & [[Hl Ha] Hin%elem_of_btree_iter]%list_elem_of_filter). cbn in *.
    exists ks. unfold get_alive. by rewrite Hin, Ha.
  - intros (ks & Hg & Hl). unfold get_alive in Hg. destruct (keys s !! k) as [ks'|] eqn:E; [|done].
    destruct (is_alive ks') eqn:Ea; [|done]. injection Hg as ->. exists (k, ks).
    by rewrite list_elem_of_filter, elem_of_btree_iter.
Qed.

Lemma lease_keys_alive s id : Forall (fun k => is_Some (get_alive s k)) (lease_keys s id).
Proof. apply Forall_forall. intros k (ks & -> & _)%elem_of_lease_keys. eauto. Qed.

(** A lease's deletions take at most one revision, and never panic. *)
Lemma delete_keys_for_lease_run id n s :
  0 <= n -> inv s -> ready (n + 1) s ->
  let '(s', o) := delete_keys_for_lease id s in
  rtc (trans floor) s s' /\ ready n s' /\ match o with Panic _ => False | _ => True end.
Proof.
  intros Hn I HP. unfold delete_keys_for_lease, bind at 1, get at 1.
  destruct (lease_keys s id) as [|k0 ks0] eqn:Eks; [by split; [|unfold ready, room in *; cbn; lia]|].
  rewrite <- Eks. unfold bind at 1.
  pose proof (runs_alloc n Hn s I HP) as Hal. destruct (alloc_revision s) as [s1 o] eqn:Ea.
  assert (exists r, o = Ok r) as [r ->] by (injection Ea as <- <-; eauto).
  assert (keys s1 = keys s) as Ek by by injection Ea as <- _.
  destruct Hal as (Ht & Hr & Hroom). pose proof (rtc_trans_inv _ _ _ _ Ht I) as I1.
  unfold bind at 1, get at 1, bind at 1, wal_append_batch.
  destruct (append_kv_batch _ _) as [w [[]|e]] eqn:Ew.
  - destruct (batch_ready s1 w r I1 Hr) as (I' & Hr' & Hm).
    rewrite for_each_delete_effect by done.
    assert (lease_keys s1 id = lease_keys s id) as El by (unfold lease_keys; by rewrite Ek).
    rewrite <- El in *.
    destruct (batch_trans s1 (lease_keys s1 id) w r) as [Ht' [Hn' _]];
      auto using lease_keys_NoDup, lease_keys_alive.
    split; [by etrans|]. destruct Hr as [Hr1 _]. unfold ready, room in *. split; [lia|done].
  - split; [|done]. etrans; [done|]. apply rtc_once, t_torn. by eapply append_kv_batch_fault.
Qed.

Lemma runs_delete_keys_for_lease id n :
  0 <= n -> runs (ready (n + 1)) (delete_keys_for_lease id) (fun _ => ready n).
Proof.
  intros Hn s I HP. pose proof (delete_keys_for_lease_run id n s Hn I HP) as Hd.
  destruct (delete_keys_for_lease id s) as [s' []]; naive_solver.
Qed.

(** *** The handlers *)

Lemma runs_put req n : 0 <= n -> put_ok req -> runs (ready (n + 1)) (put req) (fun _ => ready n).
Proof.
  intros Hn Hok. unfold put. apply runs_get. intros s0. apply runs_lift. intros _ _.
  eapply runs_bind; [by apply runs_alloc|]. intros r. cbn beta.
  intros s I [Hr Hroom]. pose proof (runs_put_at req r Hok s I Hr) as Hp.
  destruct (put_at req r s) as [s' o]. destruct Hp as [Ht Hq]. split; [done|]. destruct o; [|done..].
  unfold ready, room, at_rev in *. lia.
Qed.

Lemma runs_delete_range req n : 0 <= n -> runs (ready (n + 1)) (delete_range req) (fun _ => ready n).
Proof.
  intros Hn. unfold delete_range. apply runs_lift. intros _ _.
  eapply runs_bind; [by apply runs_alloc|]. intros r. cbn beta.
  intros s I [Hr Hroom]. pose proof (runs_delete_range_at req r s I Hr) as Hp.
  destruct (delete_range_at req r s) as [s' o]. destruct Hp as [Ht Hq]. split; [done|]. destruct o; [|done..].
  unfold ready, room, at_rev in *. lia.
Qed.

Lemma runs_compact rev : runs (fun _ => True) (compact rev) (fun _ _ => True).
Proof.
  intros s I _. unfold compact. destruct (Z.ltb_spec (current_revision s) (u64_wrap rev)); [done|].
  destruct (Z.leb_spec (u64_wrap rev) (compact_rev s)); [done|]. split; [|done].
  apply rtc_once, t_admin; try done. cbn. unfold current_revision in *. pose proof (inv_rev s I). lia.
Qed.

Lemma runs_lease_grant now req : runs (fun _ => True) (lease_grant now req) (fun _ _ => True).
Proof.
  intros s I _. unfold lease_grant, bind, lift, get, modify, ret, alloc_lease_id, fail.
  pose proof (inv_compact s I).
  destruct (check_lease_ttl _) as [ttl|e|w]; [|done..].
  destruct (negb (lg_id req =? 0)).
  - destruct (leases s !! lg_id req); [done|]. destruct (instant_add now ttl); try done.
    split; [|done]. apply rtc_once, t_admin; try done. cbn. lia.
  - cbn [leases set_next_lease_id].
    destruct (leases s !! next_lease_id s); [|destruct (instant_add now ttl)];
      (split; [|done]); apply rtc_once, t_admin; try done; cbn; lia.
Qed.

Lemma runs_lease_keep_alive now id : runs (fun _ => True) (lease_keep_alive now id) (fun _ _ => True).
Proof.
  intros s I _. unfold lease_keep_alive, bind, lift, get, modify, ret, fail.
  destruct (leases s !! id) as [ls|]; [|done]. destruct (instant_add now (ls_ttl ls)); try done.
  split; [|done]. apply rtc_once, t_admin; try done. cbn. pose proof (inv_compact s I). lia.
Qed.

Lemma runs_lease_revoke id n : 0 <= n -> runs (ready (n + 1)) (lease_revoke id) (fun _ => ready n).
Proof.
  intros Hn. unfold lease_revoke. apply runs_get. intros s0.
  destruct (leases s0 !! id); [|apply runs_fail].
  eapply runs_bind; [by apply runs_admin|]. intros []. eapply runs_bind; [by apply runs_admin|]. intros [].
  eapply runs_bind; [by apply runs_delete_keys_for_lease|]. intros [].
  apply runs_get. intros s1. by apply runs_ret.
Qed.

Lemma runs_expire_lease id n : 0 <= n -> runs (ready (n + 1)) (expire_lease id) (fun _ => ready n).
Proof.
  intros Hn. unfold expire_lease. eapply runs_bind; [by apply runs_admin|]. intros []. cbn beta.
  intros s I HP. pose proof (delete_keys_for_lease_run id n s Hn I HP) as Hd. unfold log_error.
  destruct (delete_keys_for_lease id s) as [s' [[]|e|w]]; naive_solver.
Qed.

Lemma runs_for_each_expire ids :
  runs (ready (Z.of_nat (length ids))) (for_each expire_lease ids) (fun _ => ready 0).
Proof.
  induction ids as [|id ids IH]; cbn [for_each length]; [by apply runs_ret|].
  eapply (runs_bind _ _ (fun _ => ready (Z.of_nat (length ids)))); [|intros []; exact IH].
  eapply runs_pre; [apply runs_expire_lease; lia|]. unfold ready, room. intros s. lia.
Qed.

(** One pass of the expiry task, with a revision in store for every lease. *)
Lemma runs_expiry_step now :
  runs (fun s => ready (Z.of_nat (size (leases s))) s) (expiry_step now) (fun _ _ => True).
Proof.
  intros s I HP. unfold expiry_step, bind at 1, get at 1.
  assert (length (expired_leases now s) <= size (leases s))%nat as Hl.
  { unfold expired_leases. rewrite length_fmap, <- btree_iter_length. apply length_filter. }
  assert (runs (ready (Z.of_nat (length (expired_leases now s))))
    (let* _ := for_each expire_lease (expired_leases now s) in modify (set_notified true)) (fun _ _ => True)) as Hr.
  { eapply runs_bind; [apply runs_for_each_expire|]. intros []. eapply runs_post; [by apply runs_admin|done]. }
  destruct (expired_leases now s) eqn:E; [done|]. apply Hr; [done|]. unfold ready, room in *. lia.
Qed.

(** *** Transactions *)

Fixpoint op_ok (op : RequestOp) : Prop :=
  match op with
  | RequestPut p => put_ok p
  | RequestTxn (mkTxn _ success failure) =>
      foldr (fun op P => op_ok op /\ P) True success /\ foldr (fun op P => op_ok op /\ P) True failure
  | _ => True
  end.

Definition ops_ok (ops : list RequestOp) : Prop := foldr (fun op P => op_ok op /\ P) True ops.

Definition txn_ok (req : TxnRequest) : Prop :=
  let 'mkTxn _ success failure := req in ops_ok success /\ ops_ok failure.

(** Either the transaction's revision was allocated last, or one can be. *)
Definition acc_ok (acc : TxnAcc) (s : StoreState) : Prop :=
  match acc.1 with Some r => at_rev r s | None => ready 1 s end.

Lemma runs_get_or_alloc rev deferred :
  runs (acc_ok (rev, deferred)) (get_or_alloc rev) (fun r => at_rev r).
Proof.
  destruct rev as [r|]; [by apply runs_ret|].
  eapply runs_post; [apply (runs_alloc 0); lia|]. by intros r s [].
Qed.

Lemma runs_ops_loop body path ops :
  (forall op p acc, op ∈ ops -> runs (acc_ok acc) (body op p acc) (fun r => acc_ok r.2)) ->
  forall i acc, runs (acc_ok acc) (ops_loop body path ops i acc) (fun r => acc_ok r.2).
Proof.
  intros Hb. induction ops as [|op ops IH]; intros i acc; cbn [ops_loop]; [by apply runs_ret|].
  eapply runs_bind; [apply Hb; left|]. intros [r acc']. cbn [snd].
  eapply runs_bind; [apply IH; intros; apply Hb; by right|]. intros [rs acc'']. by apply runs_ret.
Qed.

Lemma ops_ok_elem ops op : ops_ok ops -> op ∈ ops -> op_ok op.
Proof.
  induction ops as [|o ops IH]; [by intros _ ?%not_elem_of_nil|].
  intros [Ho Hops] [->|Hin]%elem_of_cons; auto.
Qed.

(** One operation, given the statement for the operations nested in it. *)
Lemma runs_txn_op_step depth op path acc :
  op_ok op ->
  (forall o p a, op_ok o -> depth < 1 -> runs (acc_ok a) (apply_txn_op (depth + 1) o p a) (fun r => acc_ok r.2)) ->
  runs (acc_ok acc) (apply_txn_op depth op path acc) (fun r => acc_ok r.2).
Proof.
  intros Hok Hnest. destruct acc as [rev deferred]. destruct op as [r|p|d|[cmp suc fl]|]; cbn [apply_txn_op].
  - destruct (0 <? rr_revision r); [by apply runs_ret|].
    apply runs_get. intros s0. apply runs_lift. intros resp _. by apply runs_ret.
  - apply runs_get. intros s0. apply runs_lift. intros _ _.
    eapply runs_bind; [apply runs_get_or_alloc|]. intros r. cbn beta.
    eapply runs_bind; [by apply runs_put_at|]. intros resp. by apply runs_ret.
  - apply runs_lift. intros _ _.
    eapply runs_bind; [apply runs_get_or_alloc|]. intros r. cbn beta.
    eapply runs_bind; [by apply runs_delete_range_at|]. intros resp. by apply runs_ret.
  - destruct (Z.leb_spec 1 depth); [apply runs_fail|]. destruct Hok as [Hs Hf].
    apply runs_get. intros s0. eapply runs_bind.
    + instantiate (1 := fun r => acc_ok r.2).
      destruct (forallb _ cmp); apply runs_ops_loop; intros o p a Hin; apply Hnest; try lia.
      * by apply (ops_ok_elem suc).
      * by apply (ops_ok_elem fl).
    + intros [nested acc']. apply runs_get. intros s1. by apply runs_ret.
  - by apply runs_ret.
Qed.

Lemma runs_txn_op op path acc :
  op_ok op -> runs (acc_ok acc) (apply_txn_op 0 op path acc) (fun r => acc_ok r.2).
Proof.
  intros Hok. apply runs_txn_op_step; [done|]. intros o p a Ho _.
  apply runs_txn_op_step; [done|]. intros. lia.
Qed.

Lemma runs_txn req : txn_ok req -> runs (ready 1) (txn req) (fun _ _ => True).
Proof.
  intros Hok. unfold txn. apply runs_lift. intros _ _. eapply (runs_bind _ _ (fun _ _ => True)).
  - destruct req as [cmp suc fl]. unfold txn_locked. apply runs_get. intros s0.
    eapply (runs_bind _ _ (fun r => acc_ok r.2));
      [|intros [rs [rev deferred]]; apply runs_get; intros s1; by apply runs_ret].
    apply (runs_pre (acc_ok (None, []))); [|done].
    apply runs_ops_loop. intros op p acc Hin. apply runs_txn_op.
    destruct Hok. destruct (forallb _ cmp); [by apply (ops_ok_elem suc)|by apply (ops_ok_elem fl)].
  - intros [[[succeeded hd] rs] deferred]. apply runs_get. intros s1. apply runs_lift. intros rs' _.
    by apply runs_ret.
Qed.

End Handlers.
End Transitions.

Abbreviation trans := (wtrans false).

End System.
