(* ===== verification/CodecProps.v ===== *)
(** * Encodings, ranges and sorting: the properties clients and the log rely on

    The byte formats of src/storage/wal.rs and the readers of store.rs and
    state.rs agree with each other and with protobuf's wire format; the log
    accepts exactly what it writes and loses only a torn last record; range
    requests mean what proto/rpc.proto documents; a validated transaction branch
    writes no key twice; sorted results are the best of a sorted permutation. *)
From S2P Require Import Prelude Varint KvCodec Wire Crc WalRecord Proto Range SortKvs State Store.
From S2P Require Import Historical Txn Recovery Background System.
Local Open Scope Z_scope.

Module CodecProps.
Import Varint KvCodec Wire Crc Wal Proto Range SortKvs State Store Historical Txn Recovery Background System.

(** ** Integers *)

(** Varints. The general decoder reads the minimal form of every 64-bit value
    and both fixed-width ("overlong") forms back to the same value, consuming
    exactly the bytes written, whatever follows; the fixed-width decoders invert
    their encoders; every form has the length the layout reserves for it. *)
Theorem varint_forms_agree v rest :
  is_u64 v ->
  decode_varint (encode_varint v ++ rest) = Some (v, length (encode_varint v))
  /\ (1 <= length (encode_varint v) <= 10)%nat
  /\ decode_varint (encode_overlong_u64 v ++ rest) = Some (v, 10%nat)
  /\ decode_overlong_u64 (encode_overlong_u64 v ++ rest) = Some v
  /\ (is_u32 v -> decode_varint (encode_overlong_u32 v ++ rest) = Some (v, 5%nat)
        /\ decode_overlong_u32 (encode_overlong_u32 v ++ rest) = Some v).
Proof.
  intros Hv. split; [by apply decode_encode_varint|]. split; [by apply length_encode_varint|].
  split; [by apply decode_varint_overlong_u64|]. split; [by apply decode_overlong_u64_encode|].
  intros Hw. split; [by apply decode_varint_overlong_u32|by apply decode_overlong_u32_encode].
Qed.

Lemma varint_forms_agree_witness :
  decode_varint (encode_overlong_u64 (2 ^ 64 - 1) ++ [Byte.x2a]) = Some (2 ^ 64 - 1, 10%nat).
Proof. apply (varint_forms_agree (2 ^ 64 - 1) [Byte.x2a]). unfold is_u64. lia. Defined.

(** ** Key-value blobs *)

(** One blob, four readers. The blob [encode_kv] builds is read back field by
    field by the protobuf decoder clients use, by the sorter's cursor, and at the
    two offsets the log keeps, all with the same result. *)
Theorem kv_blob_readers_agree `{KvDecoder} key value cr mr ver lease :
  kv_fits key value -> is_i64 cr -> is_i64 mr -> is_i64 ver -> is_i64 lease ->
  let '(blob, key_offset, mod_rev_offset) := encode_kv key value cr mr ver lease in
  kv_decode blob = Some (mkKeyValue key cr mr ver value lease)
  /\ parse_kv blob = Some (mkKvFields key (u64_wrap cr) (u64_wrap mr) (u64_wrap ver) value)
  /\ read_key_from_kv blob key_offset = Ok (Some key)
  /\ read_mod_revision_from_kv blob mod_rev_offset = Some mr.
Proof.
  intros [Hk Hf] Hcr Hmr Hver Hl. pose proof (record_fits_sizes _ _ Hf) as Hs.
  rewrite encode_kv_offsets. split; [by apply kv_decode_blob|]. split; [by apply parse_kv_blob|].
  split; [by apply read_key_blob|]. apply read_mod_revision_blob; [done|].
  apply u16_wrap_small. unfold key_small, is_u16, mod_rev_pos in *.
  pose proof (length_encode_varint_wrap cr). lia.
Qed.

Lemma kv_blob_readers_agree_witness :
  let _ := ref_decoder in
  let '(blob, ko, mo) := encode_kv (lit "k") (lit "v") 3 (-1) 2 7 in
  kv_decode blob = Some (mkKeyValue (lit "k") 3 (-1) 2 (lit "v") 7)
  /\ parse_kv blob = Some (mkKvFields (lit "k") (u64_wrap 3) (u64_wrap (-1)) (u64_wrap 2) (lit "v"))
  /\ read_key_from_kv blob ko = Ok (Some (lit "k")) /\ read_mod_revision_from_kv blob mo = Some (-1).
Proof.
  intros inst. apply (@kv_blob_readers_agree ref_decoder); try (unfold is_i64; lia). split; by vm_compute.
Defined.

(** Patching the revision. Overwriting the fixed-width [mod_revision] field in
    place gives the same bytes as encoding the key-value again with that revision. *)
Theorem patch_is_reencoding key value cr mr ver lease rev :
  kv_sizes_ok key value -> is_u64 rev ->
  with_mod_revision (encode_kv key value cr mr ver lease).1.1 rev
  = Some (encode_kv key value cr rev ver lease).1.1.
Proof.
  intros Hs Hr. rewrite !encode_kv_offsets. cbn [fst].
  rewrite <- (u64_wrap_small rev) at 1 by done. by apply with_mod_revision_blob.
Qed.

Lemma patch_is_reencoding_witness :
  with_mod_revision (encode_kv (lit "k") (lit "v") 3 4 2 7).1.1 (2 ^ 40)
  = Some (encode_kv (lit "k") (lit "v") 3 (2 ^ 40) 2 7).1.1.
Proof.
  apply (patch_is_reencoding (lit "k") (lit "v") 3 4 2 7 (2 ^ 40)); [split|unfold is_u64; lia]; by vm_compute.
Defined.

(** ** The log *)

Section Log.
Context `{Crc32c}.

(** C30. Records. The reader accepts a byte string exactly when it starts with the
    serialisation of a well-formed record, and then returns that record and its
    length: nothing it writes is refused, nothing it did not write is accepted
    (the checksum, the length field and the offsets are all verified). *)
Theorem deserialize_exact data r n :
  deserialize data = inl (r, n)
  <-> rec_wf r /\ n = rec_len r /\ exists rest, data = serialize r ++ rest.
Proof.
  split; [apply deserialize_inv|]. intros (Hr & -> & rest & ->). by apply deserialize_serialize.
Qed.

(** Torn log. Scanning a log cut after any number of bytes returns exactly the
    records that fit entirely before the cut, in order, without an error. *)
Theorem torn_log_scan rs n :
  Forall rec_wf rs ->
  exists k, scan_kv_file (take n (log_bytes rs)) 0
            = (take k rs, inl (Z.of_nat (length (log_bytes (take k rs)))))
    /\ (length (log_bytes (take k rs)) <= n)%nat
    /\ (k < length rs -> n < length (log_bytes (take (S k) rs)))%nat.
Proof.
  intros Hwf. destruct (log_bytes_cut rs n) as (k & tail & E & Ht). exists k.
  assert (Forall rec_wf (take k rs)) as Hk by by apply Forall_take.
  rewrite E. split; [|split].
  - apply scan_log_tail; [done|]. destruct Ht as [[? _]|(r & m & Hr & ? & ?)]; [by left|].
    right. exists r, m. split; [|done]. by eapply Forall_lookup_1 in Hr.
  - assert (length (log_bytes (take k rs) ++ tail) <= n)%nat as Hl
      by (rewrite <- E, length_take; lia).
    rewrite length_app in Hl. lia.
  - intros Hlt. destruct Ht as [[_ ?]|(r & m & Hr & -> & Hm)]; [lia|].
    assert (length (log_bytes (take (S k) rs)) = length (log_bytes (take k rs)) + length (serialize r))%nat as Es
      by by rewrite (take_S_r _ _ r Hr), log_bytes_app, length_app, log_bytes_one.
    assert (length (log_bytes (take (S k) rs)) <= length (log_bytes rs))%nat as Hle
      by (rewrite <- (take_drop (S k) rs) at 2; rewrite log_bytes_app, length_app; lia).
    apply (f_equal length) in E. rewrite length_app, !length_take in E. lia.
Qed.

End Log.

Lemma torn_log_scan_witness :
  let _ := bitwise_crc in
  let rs := [KvWalRecord_new IS_CREATE (lit "a") (lit "1") 1 1 1 0; KvWalRecord_new 0 (lit "a") (lit "2") 1 2 2 0] in
  exists k, scan_kv_file (take 60 (log_bytes rs)) 0
            = (take k rs, inl (Z.of_nat (length (log_bytes (take k rs)))))
    /\ (length (log_bytes (take k rs)) <= 60)%nat
    /\ (k < length rs -> 60 < length (log_bytes (take (S k) rs)))%nat.
Proof.
  intros inst rs. apply (@torn_log_scan bitwise_crc rs 60).
  repeat (apply Forall_cons; split); [| |constructor]; apply KvWalRecord_new_wf; (lia || by vm_compute).
Defined.

(** ** Ranges *)

(** Range requests. The resolved bound of a request selects exactly the keys
    the protocol documents for its key and range end, except when the range end is
    the key followed by a zero byte (which the code serves as a prefix scan). *)
Theorem range_meaning key range_end k :
  ~ (key <> [] /\ range_end = key ++ [Byte.x00]) ->
  matches_range (resolve_range key range_end) k = true <-> documented_range key range_end k.
Proof. apply matches_documented. Qed.

Lemma range_meaning_witness :
  matches_range (resolve_range (lit "ab") (lit "ac")) (lit "abz") = true
  <-> documented_range (lit "ab") (lit "ac") (lit "abz").
Proof. apply (range_meaning (lit "ab") (lit "ac") (lit "abz")). vm_compute. naive_solver. Defined.

(** The excluded case: the documented single-key range answers with every key that
    has the prefix. *)
Example successor_range_is_prefix :
  let key := lit "a" in
  matches_range (resolve_range key (key ++ [Byte.x00])) (lit "ab") = true
  /\ ~ documented_range key (key ++ [Byte.x00]) (lit "ab").
Proof. split; [by vm_compute|]. vm_compute. naive_solver. Qed.

(** C31. Validation of transactions. A request passes validation exactly when, in each
    of its branches and of the branches of the transactions nested in it, at any
    depth, every operation that names a key names a non-empty one, and no key is
    written by two of the branch's own puts and range deletions. What a nested
    transaction writes is not compared with its siblings. *)
Theorem txn_validation_exact req :
  check_txn_duplicate_keys req = Ok tt
  <-> forall ops, branch_of req ops ->
        Forall has_key ops
        /\ forall i j opi opj k, (i < j)%nat -> ops !! i = Some opi -> ops !! j = Some opj ->
             writes_directly opi k -> writes_directly opj k -> False.
Proof. apply validation_exact. Qed.

(** A put inside the range of a deletion of the same branch, one level down, is
    refused; apart from it, it is accepted. *)
Example nested_overlap_refused :
  let inner k := RequestTxn (mkTxn [] [RequestDeleteRange (mkDelete (lit "c") (lit "z") false);
                                       RequestPut (mkPut (lit k) [] 0 false false false)] []) in
  is_ok (check_txn_duplicate_keys (mkTxn [] [inner "d"%string] [])) = false
  /\ is_ok (check_txn_duplicate_keys (mkTxn [] [inner "b"%string] [])) = true.
Proof. by vm_compute. Qed.

(** ** Sorting *)

(** Sorted results. Sorting by a field, with any correct unstable sort and
    selection, yields the blobs in the requested order, keeps the smallest ones
    (all of them, or at least as many as the limit asks for), and loses or
    duplicates none: what was dropped does not sort before what was kept. *)
Theorem sort_kvs_sorted `{UnstableSort} kvs order target limit :
  Z.of_nat (length kvs) < 2 ^ 32 -> distinct_keys kvs ->
  order = ASCEND \/ order = DESCEND -> by_field target = true -> limit < 2 ^ 63 ->
  let le := cmp_le (blob_cmp (order =? DESCEND) target) in
  let r := sort_kvs kvs order target limit in
  exists dropped, Permutation (r ++ dropped) kvs /\ StronglySorted le r
    /\ (forall a b, a ∈ r -> b ∈ dropped -> le a b)
    /\ (dropped = [] \/ 0 < limit <= Z.of_nat (length r)).
Proof.
  intros Hl Hk Ho Ht Hlim le r. subst r. rewrite sort_kvs_by_field by done. fold le.
  set (ms := merge_sort le kvs). set (n := kept (length kvs) limit).
  assert (Permutation ms kvs) as Hp by apply merge_sort_Permutation.
  assert (StronglySorted le ms) as Hs by apply merge_sort_cmp_sorted, blob_cmp_comparator.
  exists (drop n ms). rewrite take_drop. split; [done|].
  rewrite <- (take_drop n ms) in Hs. apply StronglySorted_app in Hs as (Hab & Hs1 & _).
  split; [done|]. split; [done|].
  assert (length ms = length kvs) as Hlen by by apply Permutation_length.
  destruct (decide (n < length kvs)%nat) as [Hn|Hn]; [right|left; apply drop_ge; lia].
  rewrite length_take. unfold n, kept in *. destruct (Z.ltb_spec 0 limit); cbn [andb] in *; [|lia].
  unfold saturating_mul64 in *. destruct (Z.leb_spec (Z.min (limit * 64) (2 ^ 64 - 1)) (Z.of_nat (length kvs))); lia.
Qed.

(** Two stored values by value, descending, with the reference sort. *)
Lemma sort_kvs_sorted_witness :
  let _ := merge_sort_impl in
  let kvs := [kv_blob (lit "a") (lit "1") 1 1 1 0; kv_blob (lit "b") (lit "2") 2 2 1 0] in
  let le := cmp_le (blob_cmp true T_VALUE) in
  let r := sort_kvs kvs DESCEND T_VALUE 1 in
  exists dropped, Permutation (r ++ dropped) kvs /\ StronglySorted le r
    /\ (forall a b, a ∈ r -> b ∈ dropped -> le a b)
    /\ (dropped = [] \/ 0 < 1 <= Z.of_nat (length r)).
Proof.
  intros inst kvs le r. apply (@sort_kvs_sorted merge_sort_impl kvs DESCEND T_VALUE 1).
  - by vm_compute.
  - split; (apply (bool_decide_unpack _); by vm_compute).
  - by right.
  - done.
  - lia.
Defined.

End CodecProps.
