(* ===== verification/Replay.v ===== *)
(** * Durability: what the WAL rebuilds

    The abstract specification is the map from live keys to (value, mod revision,
    lease). Each record acts on that map; [Store::open] computes the fold of a
    log's records, every transition of the store appends the records that move
    the map as the transition does, and WAL compaction replaces the log by one
    with the same fold. *)
From S2P Require Import Prelude Varint KvCodec Wire Crc WalRecord Proto Range SortKvs State Store.
From S2P Require Import Historical Txn Recovery Background System.
Local Open Scope Z_scope.

Module Replay.
Import KvCodec Wire Crc Wal Proto Range SortKvs State Store Historical Txn Recovery Background System.

(** ** The abstract store *)

Record Live := mkLive { lv_value : bytes; lv_mod_revision : Z; lv_lease : Z }.

Definition live_of (ks : KeyState) : option Live :=
  if is_alive ks then Some (mkLive (ks_value ks) (ks_mod_revision ks) (ks_lease ks)) else None.

Definition view (m : gmap (list Byte.byte) KeyState) : gmap (list Byte.byte) Live := omap live_of m.

Lemma lookup_view m k :
  view m !! k = (fun ks => mkLive (ks_value ks) (ks_mod_revision ks) (ks_lease ks)) <$> alive_in m k.
Proof.
  unfold view, alive_in, live_of. rewrite lookup_omap. destruct (m !! k) as [ks|]; [|done].
  cbn. by destruct (is_alive ks).
Qed.

Lemma view_put m key value lease rev blob :
  view (put_keys m key value lease rev blob) = <[key := mkLive value rev lease]> (view m).
Proof.
  apply map_eq. intros k. rewrite lookup_view, alive_in_put. destruct (decide (k = key)) as [->|].
  - by rewrite lookup_insert_eq.
  - by rewrite lookup_insert_ne, lookup_view.
Qed.

Lemma view_del m key rev : rev <> 0 -> view (del_keys m key rev) = delete key (view m).
Proof.
  intros Hr. apply map_eq. intros k. rewrite lookup_view, alive_in_del by done.
  destruct (decide (k = key)) as [->|].
  - by rewrite lookup_delete_eq.
  - by rewrite lookup_delete_ne, lookup_view.
Qed.

Section Replay.
Context `{Crc32c} `{KvDecoder} `{UnstableSort}.

(** ** Records the store writes *)

Record kv_args := mkArgs {
  a_key : bytes; a_value : bytes; a_create : Z; a_mod : Z; a_version : Z; a_lease : Z }.

Record args_ok (a : kv_args) : Prop := {
  ao_fits : kv_fits (a_key a) (a_value a);
  ao_create : is_i64 (a_create a);
  ao_mod : 1 <= a_mod a < 2 ^ 63;
  ao_version : is_i64 (a_version a);
  ao_lease : is_i64 (a_lease a) }.

Definition record_of (fl : Z) (a : kv_args) : KvWalRecord :=
  KvWalRecord_new fl (a_key a) (a_value a) (a_create a) (a_mod a) (a_version a) (a_lease a).

Definition genuine (fl : Z) (a : kv_args) (r : KvWalRecord) : Prop :=
  args_ok a /\ 0 <= fl < 256 /\ r = record_of fl a.

Definition args_blob (a : kv_args) : bytes :=
  kv_blob (a_key a) (a_value a) (a_create a) (a_mod a) (a_version a) (a_lease a).

Lemma genuine_facts fl a r :
  genuine fl a r ->
  rec_wf r /\ rec_key r = Ok (Some (a_key a)) /\ record_rev r = a_mod a
  /\ record_deleted r = negb (Z.land fl DELETED =? 0) /\ kv_bytes r = args_blob a
  /\ kv_decode (kv_bytes r)
     = Some (mkKeyValue (a_key a) (a_create a) (a_mod a) (a_version a) (a_value a) (a_lease a)).
Proof.
  intros ([[Hs Hf] Hc Hm Hv Hl] & Hfl & ->).
  pose proof (record_fits_sizes _ _ Hf) as Hsz. unfold record_of.
  destruct (KvWalRecord_new_fields fl (a_key a) (a_value a) (a_create a) (a_mod a) (a_version a) (a_lease a))
    as (E1 & E2 & E3 & E4 & E5).
  split; [by apply KvWalRecord_new_wf|]. split; [|split; [|split; [|split]]].
  - unfold rec_key. rewrite E2, E3. by apply read_key_blob.
  - unfold record_rev, rec_mod_revision. rewrite E2, E4.
    assert (is_u16 (Z.of_nat (mod_rev_pos (a_key a) (a_create a)))) as Hp.
    { unfold key_small in Hs. unfold is_u16, mod_rev_pos.
      pose proof (length_encode_varint_wrap (a_create a)). lia. }
    rewrite u16_wrap_small by done.
    rewrite read_mod_revision_blob by (unfold is_i64; try lia; done). cbn.
    apply u64_wrap_small. unfold is_u64. lia.
  - unfold record_deleted. by rewrite E1.
  - done.
  - rewrite E2. apply kv_decode_blob; try done. unfold is_i64. lia.
Qed.

(** ** What a record does to the key map and to the view *)

Definition keys_record (m : gmap (list Byte.byte) KeyState) (r : KvWalRecord)
    : gmap (list Byte.byte) KeyState :=
  if record_deleted r
  then match rec_key r with Ok (Some k) => del_keys m k (record_rev r) | _ => m end
  else match kv_decode (kv_bytes r) with
       | Some kv => put_keys m (kv_key kv) (kv_value kv) (kv_lease kv) (record_rev r) (Some (kv_bytes r))
       | None => m
       end.

Definition view_record (v : gmap (list Byte.byte) Live) (r : KvWalRecord) : gmap (list Byte.byte) Live :=
  if record_deleted r
  then match rec_key r with Ok (Some k) => delete k v | _ => v end
  else match kv_decode (kv_bytes r) with
       | Some kv => <[kv_key kv := mkLive (kv_value kv) (record_rev r) (kv_lease kv)]> v
       | None => v
       end.

(** The record was built by the store, as a deletion or as a write. *)
Definition store_record (r : KvWalRecord) : Prop := exists fl a, genuine fl a r.

Lemma store_record_wf r : store_record r -> rec_wf r.
Proof. intros (fl & a & G). apply (genuine_facts _ _ _ G). Qed.

Lemma store_record_rev r : store_record r -> 1 <= record_rev r < 2 ^ 63.
Proof. intros (fl & a & G). destruct (genuine_facts _ _ _ G) as (_ & _ & -> & _). apply G. Qed.

Lemma view_keys_record m r : store_record r -> view (keys_record m r) = view_record (view m) r.
Proof.
  intros R. pose proof (store_record_rev r R). destruct R as (fl & a & G).
  destruct (genuine_facts _ _ _ G) as (_ & Ek & _ & _ & _ & Ed).
  unfold keys_record, view_record. rewrite Ek, Ed. destruct (record_deleted r).
  - apply view_del. lia.
  - apply view_put.
Qed.

(** ** [Store::open] folds the records *)

(** What replay keeps true of the key map: blobs can be patched. *)
Definition patchable_map (m : gmap (list Byte.byte) KeyState) : Prop :=
  map_Forall (fun _ ks => blob_patchable (ks_kv_bytes ks)) m.

Lemma keys_record_patchable m r : store_record r -> patchable_map m -> patchable_map (keys_record m r).
Proof.
  intros (fl & a & G) Hm. destruct (genuine_facts _ _ _ G) as (_ & Ek & _ & _ & Eb & Ed).
  unfold keys_record. rewrite Ek, Ed. destruct (record_deleted r).
  - unfold del_keys. destruct (alive_in m (a_key a)) as [p|] eqn:E; [|done].
    apply alive_in_Some in E as [E _]. apply map_Forall_insert_2; [|done]. apply (Hm _ _ E).
  - apply map_Forall_insert_2; [|done].
    change (blob_patchable (kv_bytes r)). rewrite Eb. unfold args_blob.
    apply kv_blob_patchable. apply kv_fits_sizes. by destruct G as [[? _ _ _ _] _].
Qed.

Lemma apply_record_keys r s :
  store_record r -> patchable_map (keys s) ->
  exists s', apply_record r s = (s', Ok tt) /\ keys s' = keys_record (keys s) r
    /\ wal s' = wal s /\ compact_rev s' = compact_rev s /\ leases s' = leases s /\ watchers s' = watchers s.
Proof.
  intros (fl & a & G) Hp. destruct (genuine_facts _ _ _ G) as (_ & Ek & Er & _ & Eb & Ed).
  unfold apply_record, keys_record, bind, ret, lift. rewrite Ek, Ed. destruct (record_deleted r).
  - cbn [default].
    rewrite apply_delete_effect by (intros p [Ep _]%alive_in_Some; by apply (Hp _ _ Ep)).
    destruct (del_effect_fields (record_rev r) s (a_key a)) as (_ & Ew & El & Ewt & Ec & Ekk).
    eexists. split; [done|]. done.
  - rewrite apply_effect. eexists. split; [done|]. done.
Qed.

Lemma replay_keys rs mr s :
  Forall store_record rs -> patchable_map (keys s) -> compact_rev s = 0 ->
  exists s', replay rs mr s = (s', Ok (foldl Z.max mr (record_rev <$> rs)))
    /\ keys s' = foldl keys_record (keys s) rs
    /\ wal s' = wal s /\ compact_rev s' = 0 /\ leases s' = leases s /\ watchers s' = watchers s.
Proof.
  revert mr s. induction rs as [|r rs IH]; intros mr s; [eexists; by split|].
  intros [Hr Hrs]%Forall_cons Hp Hc. cbn [replay]. unfold bind at 1, get at 1. rewrite Hc.
  pose proof (store_record_rev r Hr). rewrite (proj2 (Z.leb_gt _ _)) by lia.
  destruct (apply_record_keys r s Hr Hp) as (s1 & E1 & Ek & Ew & Ec & El & Ewt).
  unfold bind. rewrite E1.
  destruct (IH (if mr <? record_rev r then record_rev r else mr) s1) as (s' & E' & Ek' & Ew' & Ec' & El' & Ewt');
    [done|rewrite Ek; by apply keys_record_patchable|by rewrite Ec|].
  exists s'. rewrite E', Ek', Ek, Ew', Ew, El', El, Ewt', Ewt. cbn [fmap list_fmap foldl].
  split; [|done]. do 3 f_equal. destruct (Z.ltb_spec mr (record_rev r)); lia.
Qed.

(** ** The records a transition logs *)

Definition put_args (prev : option KeyState) (key value : bytes) (lease rev : Z) : kv_args :=
  mkArgs key value
    (i64_wrap (match prev with Some k => ks_create_revision k | None => rev end)) (i64_wrap rev)
    (match prev with Some k => i64_wrap (ks_version k + 1) | None => 1 end) lease.

Definition put_flags (prev : option KeyState) (lease : Z) : Z :=
  let flags := match prev with None => IS_CREATE | Some _ => 0 end in
  if negb (lease =? 0) then Z.lor flags HAS_LEASE else flags.

Lemma put_record_genuine prev key value lease rev :
  kv_fits key value -> is_i64 lease -> 1 <= rev < 2 ^ 63 ->
  genuine (put_flags prev lease) (put_args prev key value lease rev) (put_record prev key value lease rev)
  /\ Z.land (put_flags prev lease) DELETED = 0.
Proof.
  intros Hf Hl Hr. split; [split; [|split]|].
  - split; cbn [put_args a_key a_value a_create a_mod a_version a_lease]; auto using i64_wrap_range;
      [rewrite i64_wrap_small; unfold is_i64; lia|].
    destruct prev; [apply i64_wrap_range|unfold is_i64; lia].
  - unfold put_flags, IS_CREATE, HAS_LEASE. destruct prev, (negb (lease =? 0)); by split; vm_compute.
  - done.
  - unfold put_flags. by destruct prev, (negb (lease =? 0)).
Qed.

Lemma put_record_keys m key value lease rev :
  kv_fits key value -> is_i64 lease -> 1 <= rev < 2 ^ 63 ->
  let r := put_record (alive_in m key) key value lease rev in
  store_record r /\ record_rev r = rev /\ keys_record m r = put_keys m key value lease rev None.
Proof.
  intros Hf Hl Hr r. destruct (put_record_genuine (alive_in m key) key value lease rev Hf Hl Hr) as [G Hd].
  fold r in G. destruct (genuine_facts _ _ _ G) as (_ & _ & Er & Edel & Eb & Ed). rewrite Hd in Edel.
  cbn [put_args a_mod] in Er. rewrite i64_wrap_small in Er by (unfold is_i64; lia).
  split; [by eexists _, _|]. split; [done|]. unfold keys_record. rewrite Edel, Ed, Er. cbn [negb Z.eqb kv_key kv_value kv_lease put_args a_key a_value a_lease].
  unfold put_keys, put_entry. cbn [default]. by rewrite Eb.
Qed.

Lemma delete_record_keys nr m key p rev :
  ks_ok nr key p -> nr <= 2 ^ 63 -> 1 <= rev < 2 ^ 63 ->
  let r := delete_record rev key p in
  store_record r /\ record_rev r = rev /\ keys_record m r = del_keys m key rev.
Proof.
  intros [Hf Hc Hm Hd Hv Hl _] Hnr Hr r.
  set (fl := if negb (ks_lease p =? 0) then Z.lor DELETED HAS_LEASE else DELETED).
  assert (genuine fl (mkArgs key (ks_value p) (i64_wrap (ks_create_revision p)) (i64_wrap rev)
    (ks_version p) (ks_lease p)) r) as G.
  { split; [|split; [|done]].
    - split; cbn [a_key a_value a_create a_mod a_version a_lease]; auto using i64_wrap_range.
      rewrite i64_wrap_small; unfold is_i64; lia.
    - subst fl. unfold DELETED, HAS_LEASE. destruct (negb (ks_lease p =? 0)); by split; vm_compute. }
  assert ((Z.land fl DELETED =? 0) = false) as Hfl by by (subst fl; destruct (negb (ks_lease p =? 0))).
  destruct (genuine_facts _ _ _ G) as (_ & Ek & Er & Edel & _ & _). rewrite Hfl in Edel.
  cbn [a_mod a_key] in Er, Ek. rewrite i64_wrap_small in Er by (unfold is_i64; lia).
  split; [by eexists _, _|]. split; [done|]. unfold keys_record. by rewrite Edel, Ek, Er.
Qed.

Lemma delete_records_alive s rev ks :
  Forall (fun k => is_Some (get_alive s k)) ks -> inv s -> 1 <= rev < next_rev s ->
  Forall store_record (delete_records s rev ks)
  /\ Forall (fun r => record_rev r = rev) (delete_records s rev ks)
  /\ forall m, foldl keys_record m (delete_records s rev ks) = foldl (fun m k => del_keys m k rev) m ks.
Proof.
  intros Ha I Hr. pose proof (inv_rev s I).
  induction Ha as [|k ks [p Hp] Ha (IH1 & IH2 & IH3)]; [done|].
  unfold delete_records. cbn [omap list_omap]. rewrite Hp. cbn [fmap option_fmap option_map].
  fold (delete_records s rev ks). apply alive_in_Some in Hp as [Ep _].
  assert (forall m, let r := delete_record rev k p in
    store_record r /\ record_rev r = rev /\ keys_record m r = del_keys m k rev) as Hrec
    by (intros m; apply (delete_record_keys (next_rev s)); [by apply (inv_keys s I)|lia..]).
  split; [constructor; [apply (Hrec ∅)|done]|]. split; [constructor; [apply (Hrec ∅)|done]|].
  intros m. cbn [foldl]. destruct (Hrec m) as (_ & _ & ->). apply IH3.
Qed.

Lemma keys_deletes rev ks s :
  keys (foldl (del_effect rev) s ks) = foldl (fun m k => del_keys m k rev) (keys s) ks
  /\ wal (foldl (del_effect rev) s ks) = wal s.
Proof.
  revert s. induction ks as [|k ks IH]; intros s; [done|]. cbn [foldl].
  destruct (del_effect_fields rev s k) as (_ & Ew & _ & _ & _ & Ek).
  destruct (IH (del_effect rev s k)) as [-> ->]. by rewrite Ek, Ew.
Qed.

(** A transition appends to the log the records that replay it. *)
Definition logs (s s' : StoreState) (rs : list KvWalRecord) : Prop :=
  file (wal s') = file (wal s) ++ log_bytes rs /\ faults (wal s') = []
  /\ Forall store_record rs /\ keys s' = foldl keys_record (keys s) rs
  /\ Forall (fun r => record_rev r = next_rev s - 1 /\ next_rev s' = next_rev s) rs
  /\ next_rev s <= next_rev s'.

Lemma trans_logs b floor s s' :
  wtrans b floor s s' -> inv s -> faults (wal s) = [] ->
  exists rs, logs s s' rs /\ (rs <> [] -> floor < next_rev s).
Proof.
  intros T I Hno. pose proof (inv_rev s I).
  destruct T as [Hn|key value lease w Hf Hl Hn Hfl Hw|ks w Hnd Ha Hn Hfl Hw|w Hw|s' Ek En Ec Ew _ _ Hr|ws _].
  - exists []. split; [|done]. unfold logs. cbn. rewrite app_nil_r. repeat split; try done. lia.
  - apply append_kv_ok in Hw as (Efile & _ & Efa). rewrite Hno in Efa.
    destruct (put_record_keys (keys s) key value lease (next_rev s - 1) Hf Hl ltac:(lia)) as (R & Er & Ek).
    exists [put_record (alive_in (keys s) key) key value lease (next_rev s - 1)]. split; [|done].
    unfold logs. rewrite log_bytes_one. cbn [wal keys put_effect notified set_chans set_key_count set_keys set_wal next_rev].
    split; [done|]. split; [done|]. split; [by repeat constructor|]. split; [by cbn [foldl]; rewrite Ek|].
    split; [by repeat constructor|lia].
  - apply append_kv_batch_ok in Hw as (Efile & _ & Efa). rewrite Hno, drop_nil in Efa.
    destruct (delete_records_alive s (next_rev s - 1) ks Ha I ltac:(lia)) as (R & Er & Ek).
    exists (delete_records s (next_rev s - 1) ks). split; [|done]. unfold logs.
    destruct (keys_deletes (next_rev s - 1) ks (set_wal w s)) as [Ekk Eww].
    rewrite Eww, Ekk, Ek, next_rev_deletes. repeat split; try done.
    eapply Forall_impl; [apply Er|]. naive_solver.
  - done.
  - exists []. split; [|done]. unfold logs. cbn. rewrite Ew, app_nil_r, Ek, En. repeat split; try done.
  - exists []. split; [|done]. unfold logs. cbn. rewrite app_nil_r. repeat split; try done.
Qed.

(** The same for a sequence of transitions: revisions never decrease along the log. *)
Record logs_run (s s' : StoreState) (rs : list KvWalRecord) : Prop := {
  lr_file : file (wal s') = file (wal s) ++ log_bytes rs;
  lr_faults : faults (wal s') = [];
  lr_records : Forall store_record rs;
  lr_keys : keys s' = foldl keys_record (keys s) rs;
  lr_sorted : StronglySorted Z.le (record_rev <$> rs);
  lr_range : Forall (fun r => next_rev s - 1 <= record_rev r < next_rev s') rs;
  lr_rev : next_rev s <= next_rev s' }.

(** The key a record is about. *)
Definition r_key (r : KvWalRecord) : bytes := match rec_key r with Ok (Some k) => k | _ => [] end.

(** Revisions never decrease along the records of one key. *)
Definition key_le_rev (r1 r2 : KvWalRecord) : Prop := r_key r1 = r_key r2 -> record_rev r1 <= record_rev r2.

Lemma StronglySorted_weaken {A} (R R' : relation A) l :
  (forall a b, R a b -> R' a b) -> StronglySorted R l -> StronglySorted R' l.
Proof. intros HR. induction 1 as [|a l Hs IH Hf]; constructor; [done|]. eapply Forall_impl; eauto. Qed.

Lemma sorted_key_le rs : StronglySorted Z.le (record_rev <$> rs) -> StronglySorted key_le_rev rs.
Proof.
  induction rs as [|r rs IH]; [constructor|]. cbn. intros [Hf Hs]%StronglySorted_cons.
  apply StronglySorted_cons. split; [|auto]. apply Forall_forall.
  intros r' Hin _. eapply Forall_forall in Hf; [exact Hf|]. apply list_elem_of_fmap. eauto.
Qed.

Lemma sorted_const c (l : list Z) : Forall (eq c) l -> StronglySorted Z.le l.
Proof.
  induction 1 as [|x l <- Hl IH]; constructor; [done|]. eapply Forall_impl; [apply Hl|]. intros y <-. done.
Qed.

Lemma logs_run_app s s1 s' rs1 rs2 :
  logs_run s s1 rs1 -> logs_run s1 s' rs2 -> logs_run s s' (rs1 ++ rs2).
Proof.
  intros [Ef Hno R Ek Hs Hr Hle] [Ef2 Hno2 R2 Ek2 Hs2 Hr2 Hle2]. split; try done.
  - by rewrite Ef2, Ef, log_bytes_app, <- app_assoc.
  - by apply Forall_app.
  - by rewrite foldl_app, <- Ek.
  - rewrite fmap_app. apply StronglySorted_app. split; [|done].
    intros x y (r1 & -> & H1r)%list_elem_of_fmap (r2 & -> & H2r)%list_elem_of_fmap.
    eapply Forall_forall in Hr; [|done]. eapply Forall_forall in Hr2; [|done]. cbn in *. lia.
  - apply Forall_app. split; (eapply Forall_impl; [eassumption|]); cbn; intros r ?; lia.
  - lia.
Qed.

Lemma rtc_trans_logs b floor s s' :
  rtc (wtrans b floor) s s' -> inv s -> faults (wal s) = [] ->
  exists rs, logs_run s s' rs /\ Forall (fun r => floor <= record_rev r) rs.
Proof.
  induction 1 as [s|s s1 s' T Ht IH]; intros I Hno.
  - exists []. split; [|constructor]. split; cbn; rewrite ?app_nil_r; try done. constructor.
  - destruct (trans_logs _ _ _ _ T I Hno) as (rs1 & (Ef & Hno1 & R1 & Ek & Hrev & Hle) & Hfl).
    destruct (IH (trans_inv _ _ _ _ T I) Hno1) as (rs2 & L2 & Hfl2).
    exists (rs1 ++ rs2). split; [eapply logs_run_app; [|exact L2]; split; try done|].
    + apply (sorted_const (next_rev s - 1)), Forall_fmap. eapply Forall_impl; [apply Hrev|]. cbn. naive_solver.
    + eapply Forall_impl; [apply Hrev|]. cbn. intros r [-> ?]. lia.
    + apply Forall_app. split; [|done]. destruct rs1 as [|r0 rs1]; [done|].
      specialize (Hfl ltac:(done)). eapply Forall_impl; [apply Hrev|]. cbn. intros r [-> ?]. lia.
Qed.

(** ** Durable states *)

(** The log replays to the memory's view. *)
Record durable_by (s : StoreState) (rs : list KvWalRecord) : Prop := {
  du_faults : faults (wal s) = [];
  du_file : file (wal s) = log_bytes rs;
  du_records : Forall store_record rs;
  du_view : view (keys s) = foldl view_record ∅ rs;
  du_revs : Forall (fun r => record_rev r < next_rev s) rs;
  du_mono : StronglySorted key_le_rev rs }.

Lemma view_fold m rs :
  Forall store_record rs -> view (foldl keys_record m rs) = foldl view_record (view m) rs.
Proof.
  intros R. revert m. induction R as [|r rs Hr R IH]; intros m; [done|]. cbn [foldl].
  by rewrite IH, view_keys_record.
Qed.

Lemma durable_run s s' rs rs' : durable_by s rs -> logs_run s s' rs' -> durable_by s' (rs ++ rs').
Proof.
  intros [Hno Hf R Hv Hr Hmo] [Ef Hno' R' Ek Hs Hrange Hle]. split; try done.
  - by rewrite Ef, Hf, log_bytes_app.
  - by apply Forall_app.
  - by rewrite Ek, view_fold, foldl_app, Hv.
  - apply Forall_app. split; (eapply Forall_impl; [done|]); cbn; intros; lia.
  - apply StronglySorted_app. split; [|split; [done|by apply sorted_key_le]].
    intros r1 r2 H1r H2r _. eapply Forall_forall in Hr; [|done]. eapply Forall_forall in Hrange; [|done].
    cbn in *. lia.
Qed.

(** *** The snapshot of a compaction *)

Lemma snapshot_record_genuine nr key ks :
  ks_ok nr key ks -> nr <= 2 ^ 63 -> store_record (snapshot_record key ks)
  /\ record_rev (snapshot_record key ks) = ks_mod_revision ks
  /\ forall v, view_record v (snapshot_record key ks)
       = <[key := mkLive (ks_value ks) (ks_mod_revision ks) (ks_lease ks)]> v.
Proof.
  intros [Hf Hc Hm Hd Hv Hl _] Hnr.
  set (fl := if negb (ks_lease ks =? 0) then HAS_LEASE else 0).
  assert (genuine fl (mkArgs key (ks_value ks) (i64_wrap (ks_create_revision ks)) (i64_wrap (ks_mod_revision ks))
    (ks_version ks) (ks_lease ks)) (snapshot_record key ks)) as G.
  { split; [|split; [|done]].
    - split; cbn [a_key a_value a_create a_mod a_version a_lease]; auto using i64_wrap_range.
      rewrite i64_wrap_small; unfold is_i64; lia.
    - subst fl. unfold HAS_LEASE. destruct (negb (ks_lease ks =? 0)); by split; vm_compute. }
  assert ((Z.land fl DELETED =? 0) = true) as Hfl by by (subst fl; destruct (negb (ks_lease ks =? 0))).
  destruct (genuine_facts _ _ _ G) as (_ & _ & Er & Edel & _ & Ed). rewrite Hfl in Edel.
  cbn [a_mod] in Er. rewrite i64_wrap_small in Er by (unfold is_i64; lia).
  split; [by eexists _, _|]. split; [done|]. intros v. unfold view_record. by rewrite Edel, Ed, Er.
Qed.

Lemma snapshot_loop_view nr l v k :
  nr <= 2 ^ 63 -> Forall (fun e => ks_ok nr e.1 e.2) l -> NoDup l.*1 ->
  foldl view_record v (snapshot_loop l) !! k
  = match (list_to_map l : gmap (list Byte.byte) KeyState) !! k with
    | Some ks => if is_alive ks then Some (mkLive (ks_value ks) (ks_mod_revision ks) (ks_lease ks)) else v !! k
    | None => v !! k
    end.
Proof.
  intros Hnr. revert v. induction l as [|[k0 ks0] l IH]; intros v; [done|].
  intros [Hok Hl]%Forall_cons [Hk0 Hnd]%NoDup_cons. cbn [snapshot_loop fst snd list_to_map foldr uncurry] in *.
  apply not_elem_of_list_to_map_1 in Hk0.
  transitivity (foldl view_record
    (if is_alive ks0 then <[k0 := mkLive (ks_value ks0) (ks_mod_revision ks0) (ks_lease ks0)]> v else v)
    (snapshot_loop l) !! k).
  { f_equal. unfold is_alive. destruct (Z.eqb_spec (ks_delete_revision ks0) 0); cbn [negb]; [|done].
       cbn [foldl]. by destruct (snapshot_record_genuine nr k0 ks0 Hok Hnr) as (_ & _ & ->). }
  rewrite IH by done. destruct (decide (k = k0)) as [->|Hne].
  - rewrite Hk0, lookup_insert_eq. destruct (is_alive ks0); [by rewrite lookup_insert_eq|done].
  - rewrite lookup_insert_ne by done.
    destruct (list_to_map l !! k) as [ks|]; [destruct (is_alive ks); [done|]|];
      destruct (is_alive ks0); by rewrite ?lookup_insert_ne.
Qed.

Lemma list_to_map_btree_iter {V} (m : gmap (list Byte.byte) V) : list_to_map (btree_iter m) = m.
Proof.
  apply map_eq. intros k. destruct (m !! k) as [v|] eqn:E.
  - apply elem_of_list_to_map_1; [apply btree_iter_NoDup|]. by apply elem_of_btree_iter.
  - apply not_elem_of_list_to_map_1. intros ([k' v] & -> & Hin%elem_of_btree_iter)%list_elem_of_fmap. cbn in E. congruence.
Qed.

Lemma snapshot_loop_records nr l :
  nr <= 2 ^ 63 -> Forall (fun e => ks_ok nr e.1 e.2) l ->
  Forall (fun r => store_record r /\ record_rev r < nr) (snapshot_loop l).
Proof.
  intros Hnr. induction l as [|[k ks] l IH]; [constructor|]. intros [Hok Hl]%Forall_cons.
  cbn [snapshot_loop fst snd] in *. destruct (negb _); [auto|].
  destruct (snapshot_record_genuine nr k ks Hok Hnr) as (R & Er & _). constructor; [|auto].
  split; [done|]. rewrite Er. apply Hok.
Qed.

Lemma iter_ks_ok s : inv s -> Forall (fun e => ks_ok (next_rev s) e.1 e.2) (btree_iter (keys s)).
Proof.
  intros I. apply Forall_forall. intros [k ks] Hin%elem_of_btree_iter. by apply (inv_keys s I).
Qed.

(** The snapshot alone replays to the view it was taken of. *)
Lemma snapshot_view s : inv s ->
  foldl view_record ∅ (sn_records (compact_phase_a s)) = view (keys s).
Proof.
  intros I. cbn. apply map_eq. intros k.
  rewrite (snapshot_loop_view (next_rev s)), list_to_map_btree_iter, lookup_view;
    [|pose proof (inv_rev s I); lia|by apply iter_ks_ok|apply btree_iter_NoDup].
  unfold alive_in. destruct (keys s !! k) as [ks|]; [|done]. by destruct (is_alive ks).
Qed.

(** ** The opened store *)

(** Every entry stems from a record of its key. *)
Definition sourced (rs : list KvWalRecord) (m : gmap (list Byte.byte) KeyState) : Prop :=
  forall k ks, m !! k = Some ks -> exists r, r ∈ rs /\ r_key r = k /\ record_rev r = ks_mod_revision ks.

Lemma keys_record_ok nr m r :
  store_record r -> record_rev r < nr -> nr <= 2 ^ 63 -> map_Forall (ks_ok nr) m ->
  (forall ks, m !! r_key r = Some ks -> ks_mod_revision ks <= record_rev r) ->
  map_Forall (ks_ok nr) (keys_record m r).
Proof.
  intros R Hr Hnr Hm Hmod. pose proof (store_record_rev r R). destruct R as (fl & a & G).
  destruct (genuine_facts _ _ _ G) as (_ & Ek & Er & _ & Eb & Ed).
  unfold keys_record. unfold r_key in Hmod. rewrite Ek in *. rewrite Ed. destruct (record_deleted r).
  - apply del_keys_ok; try done; lia.
  - destruct G as [[Hf _ _ _ Hl] _]. apply map_Forall_insert_2; [|done].
    apply put_entry_ok; try done; try lia. intros b [= <-]. rewrite Eb, Er. by eexists _, _.
Qed.

Lemma keys_record_sourced rs m r : store_record r -> sourced rs m -> sourced (rs ++ [r]) (keys_record m r).
Proof.
  intros (fl & a & G) Hs. destruct (genuine_facts _ _ _ G) as (_ & Ek & Er & _ & _ & Ed).
  assert (sourced (rs ++ [r]) m) as Hs'
    by (intros k ks E; destruct (Hs k ks E) as (r' & ? & ?); exists r'; rewrite elem_of_app; naive_solver).
  unfold keys_record. rewrite Ek, Ed. destruct (record_deleted r).
  - unfold del_keys. destruct (alive_in m (a_key a)) as [p|] eqn:E; [|done].
    apply alive_in_Some in E as [E _]. intros k ks. rewrite lookup_insert_Some.
    intros [[<- <-]|[_ Hk]]; [|by apply Hs']. by apply Hs' in E.
  - intros k ks. unfold put_keys. rewrite lookup_insert_Some. intros [[<- <-]|[_ Hk]]; [|by apply Hs'].
    exists r. rewrite elem_of_app, list_elem_of_singleton. unfold r_key. rewrite Ek. auto.
Qed.

Lemma fold_keys_ok nr rs :
  Forall store_record rs -> Forall (fun r => record_rev r < nr) rs -> nr <= 2 ^ 63 ->
  StronglySorted key_le_rev rs ->
  map_Forall (ks_ok nr) (foldl keys_record ∅ rs) /\ sourced rs (foldl keys_record ∅ rs).
Proof.
  intros R Hr Hnr Hs. induction rs as [|r rs IH] using rev_ind.
  { cbn. split; [apply map_Forall_empty|]. intros k ks. by rewrite lookup_empty. }
  apply Forall_app in R as [R1 [R2 _]%Forall_cons]. apply Forall_app in Hr as [Hr1 [Hr2 _]%Forall_cons].
  apply StronglySorted_app in Hs as (Hx & Hs1 & _). destruct (IH R1 Hr1 Hs1) as [Hok Hsrc].
  rewrite foldl_app. cbn [foldl]. split; [|by apply keys_record_sourced].
  apply keys_record_ok; try done. intros ks Hk. destruct (Hsrc _ _ Hk) as (r' & Hin & Hkey & <-).
  apply (Hx r' r Hin); [by apply list_elem_of_singleton|done].
Qed.

Lemma apply_record_count r s :
  store_record r -> patchable_map (keys s) -> count_ok s -> count_ok (apply_record r s).1.
Proof.
  intros R Hp Hc. pose proof (store_record_rev r R). destruct R as (fl & a & G).
  destruct (genuine_facts _ _ _ G) as (_ & Ek & Er & _ & Eb & Ed).
  unfold apply_record, bind, ret, lift. rewrite Ek, Ed. destruct (record_deleted r).
  - cbn [default]. rewrite apply_delete_effect by (intros p [Ep _]%alive_in_Some; by apply (Hp _ _ Ep)).
    apply count_del_effect; [lia|done].
  - rewrite apply_effect. by apply count_put_effect.
Qed.

Lemma replay_count rs mr s :
  Forall store_record rs -> patchable_map (keys s) -> compact_rev s = 0 -> count_ok s ->
  count_ok (replay rs mr s).1.
Proof.
  revert mr s. induction rs as [|r rs IH]; intros mr s; [done|].
  intros [Hr Hrs]%Forall_cons Hp Hc Hco. cbn [replay]. unfold bind at 1, get at 1. rewrite Hc.
  pose proof (store_record_rev r Hr). rewrite (proj2 (Z.leb_gt _ _)) by lia.
  pose proof (apply_record_count r s Hr Hp Hco) as Hc1.
  destruct (apply_record_keys r s Hr Hp) as (s1 & E1 & Ek & Ew & Ec & El & Ewt).
  unfold bind. rewrite E1 in *. apply IH; try done; [|by rewrite Ec].
  rewrite Ek. by apply keys_record_patchable.
Qed.

Lemma elem_of_restored_leases s id :
  id ∈ restored_leases s <-> id <> 0 /\ exists k ks, get_alive s k = Some ks /\ ks_lease ks = id.
Proof.
  unfold restored_leases. rewrite list_elem_of_fmap. split.
  - intros ([i []] & -> & Hin%elem_of_btree_iter). cbn.
    apply elem_of_list_to_map_2 in Hin as Hin. apply list_elem_of_fmap in Hin as (i' & [= <-] & Hc).
    apply list_elem_of_fmap in Hc as ([k ks] & -> & [[Ha Hl] Hin%elem_of_btree_iter]%list_elem_of_filter).
    cbn in *. split; [done|]. exists k, ks. unfold get_alive. by rewrite Hin, Ha.
  - intros (Hid & k & ks & [Hk Ha]%alive_in_Some & Hl). exists (id, tt). split; [done|].
    apply elem_of_btree_iter. match goal with |- list_to_map ?l !! _ = _ =>
      destruct ((list_to_map l : gmap Z unit) !! id) as [[]|] eqn:E end; [done|].
    apply not_elem_of_list_to_map_2 in E. destruct E. rewrite <- list_fmap_compose.
    apply list_elem_of_fmap. exists id. split; [done|]. apply list_elem_of_fmap. exists (k, ks).
    split; [done|]. apply list_elem_of_filter. unfold is_alive. cbn. rewrite Ha, elem_of_btree_iter.
    by subst.
Qed.

Lemma foldl_max_ge (l : list Z) a : a <= foldl Z.max a l.
Proof. revert a. induction l as [|x l IH]; intros a; cbn; [lia|]. specialize (IH (Z.max a x)). lia. Qed.

Lemma foldl_max_elem (l : list Z) a x : x ∈ l -> x <= foldl Z.max a l.
Proof.
  revert a. induction l as [|y l IH]; intros a; [by intros ?%not_elem_of_nil|]. cbn.
  intros [->|Hx]%elem_of_cons; [|by apply IH]. pose proof (foldl_max_ge l (Z.max a y)). lia.
Qed.

Lemma foldl_max_lt (l : list Z) a b : a < b -> Forall (fun x => x < b) l -> foldl Z.max a l < b.
Proof. intros Ha Hl. revert a Ha. induction Hl as [|x l Hx Hl IH]; intros a Ha; cbn; [done|]. apply IH. lia. Qed.

(** The highest revision of a log. *)
Definition max_rev (rs : list KvWalRecord) : Z := foldl Z.max 0 (record_rev <$> rs).

Definition torn_tail (tail : bytes) : Prop :=
  tail = [] \/ exists r m, rec_wf r /\ tail = take m (serialize r) /\ (m < length (serialize r))%nat.

Lemma lookup_insert_leases e ids (m : gmap Z LeaseState) id :
  foldl (fun m id => <[id := mkLease id default_ttl e 0]> m) m ids !! id
  = if decide (id ∈ ids) then Some (mkLease id default_ttl e 0) else m !! id.
Proof.
  revert m. induction ids as [|i ids IH]; intros m; [done|]. cbn [foldl]. rewrite IH.
  destruct (decide (id = i)) as [->|Hne].
  - rewrite lookup_insert_eq, (decide_True (P := i ∈ i :: ids)) by left. by destruct (decide (i ∈ ids)).
  - rewrite lookup_insert_ne by done. destruct (decide (id ∈ ids)), (decide (id ∈ i :: ids)); set_solver.
Qed.

Lemma count_new w : count_ok (StoreState_new w).
Proof. intros _. cbn [keys key_count StoreState_new]. unfold live. by rewrite map_filter_empty, map_size_empty. Qed.

(** [Store::open] on a log, with or without a torn last record. *)
Lemma open_store_log now e rs tail :
  Forall store_record rs -> torn_tail tail -> instant_add now default_ttl = Ok e ->
  Forall (fun r => record_rev r < 2 ^ 63 - 1) rs ->
  exists s, open_store now (log_bytes rs ++ tail) = Ok s
    /\ keys s = foldl keys_record ∅ rs /\ next_rev s = max_rev rs + 1
    /\ wal s = WalFile_open (log_bytes rs ++ tail) /\ compact_rev s = 0 /\ watchers s = [] /\ count_ok s
    /\ (forall id, leases s !! id = if decide (id ∈ restored_leases s)
                                  then Some (mkLease id default_ttl e 0) else None).
Proof.
  intros R Ht He Hr. unfold open_store, scan_kv_collect, scan_kv. cbn [file WalFile_open].
  rewrite scan_log_tail; [|eapply Forall_impl; [apply R|apply store_record_wf]|exact Ht].
  set (s0 := StoreState_new _).
  destruct (replay_keys rs 0 s0 R) as (s1 & E1 & Ek & Ew & Ec & El & Ewt); [apply map_Forall_empty|done|].
  pose proof (replay_count rs 0 s0 R) as Hco. rewrite E1 in Hco.
  unfold bind at 1. rewrite E1. unfold bind at 1, modify at 1, restore_leases. rewrite He.
  eexists. split; [reflexivity|].
  assert (0 <= foldl Z.max 0 (record_rev <$> rs) < 2 ^ 63 - 1) as Hmax.
  { split; [apply foldl_max_ge|]. apply foldl_max_lt; [lia|]. by apply Forall_fmap. }
  set (s2 := set_next_rev (u64_wrap (foldl Z.max 0 (record_rev <$> rs) + 1)) s1).
  destruct (0 <? default 0 (last (restored_leases s2)));
    cbn [keys next_rev wal compact_rev watchers leases set_leases set_next_lease_id set_next_rev];
    (split; [done|]; split; [subst s2; cbn; by rewrite u64_wrap_small by (unfold is_u64; lia)|];
     split; [done|]; split; [done|]; split; [done|]; split;
     [apply Hco; [apply map_Forall_empty|done|apply count_new]|];
     intros id; rewrite lookup_insert_leases;
     match goal with |- _ = if decide (_ ∈ restored_leases ?x) then _ else _ =>
       change (restored_leases x) with (restored_leases s2) end;
     destruct (decide _); [done|subst s2; cbn; rewrite El; apply lookup_empty]).
Qed.

End Replay.
End Replay.
