(* ===== verification/Durability.v ===== *)
(** * The running server: commands, compaction and restarts interleaved

    [sys_step] interleaves the commands clients and the background tasks issue
    with the phases of a WAL compaction and with restarts. [sys_inv] is its
    inductive invariant: the memory invariant, and a log that replays to the
    memory's live view, also across a compaction in progress. *)
From S2P Require Import Prelude Varint KvCodec Wire Crc WalRecord Proto Range SortKvs State Store.
From S2P Require Import Historical Txn Recovery Background System Replay.
Local Open Scope Z_scope.

Module Durability.
Import KvCodec Wire Crc Wal Proto Range SortKvs State Store Historical Txn Recovery Background System Replay.

Section Durability.
Context `{Crc32c} `{KvDecoder} `{UnstableSort}.

(** ** Commands *)

(** Everything that takes the write lock. *)
Inductive Command :=
| CmdPut (req : PutRequest)
| CmdDeleteRange (req : DeleteRangeRequest)
| CmdTxn (req : TxnRequest)
| CmdCompact (rev : Z)
| CmdLeaseGrant (now : Z) (req : LeaseGrantRequest)
| CmdLeaseRevoke (id : Z)
| CmdLeaseKeepAlive (now id : Z)
| CmdExpire (now : Z)
| CmdRegister (reg : WatchRegistration)
| CmdCancel (watch_id : Z).

(** The state a command leaves behind, whatever it answers. *)
Definition exec (c : Command) (s : StoreState) : StoreState :=
  match c with
  | CmdPut req => (put req s).1
  | CmdDeleteRange req => (delete_range req s).1
  | CmdTxn req => (txn req s).1
  | CmdCompact rev => (compact rev s).1
  | CmdLeaseGrant now req => (lease_grant now req s).1
  | CmdLeaseRevoke id => (lease_revoke id s).1
  | CmdLeaseKeepAlive now id => (lease_keep_alive now id s).1
  | CmdExpire now => (expiry_step now s).1
  | CmdRegister reg => (register_watcher reg s).1
  | CmdCancel id => (cancel_watcher id s).1
  end.

(** Keys and values fit a WAL record, lease ids are 64-bit, and the revision
    counter is not about to overflow. *)
Definition cmd_ok (c : Command) (s : StoreState) : Prop :=
  match c with
  | CmdPut req => put_ok req /\ room 1 s
  | CmdDeleteRange _ | CmdLeaseRevoke _ => room 1 s
  | CmdTxn req => txn_ok req /\ room 1 s
  | CmdExpire _ => room (Z.of_nat (size (leases s))) s
  | CmdLeaseGrant _ req => is_i64 (lg_id req)
  | _ => True
  end.

Lemma runs_exec {A} floor P (m : M A) Q s : runs floor P m Q -> inv s -> P s -> rtc (trans floor) s (m s).1.
Proof. intros Hm I HP. specialize (Hm s I HP). destruct (m s). apply Hm. Qed.

Lemma trans_watching floor s s' : trans floor s s' -> wtrans true floor s s'.
Proof. destruct 1; by econstructor. Qed.

Lemma rtc_trans_watching floor s s' : rtc (trans floor) s s' -> rtc (wtrans true floor) s s'.
Proof. induction 1; [done|]. eapply rtc_l; [by apply trans_watching|done]. Qed.

(** Commands other than watch registration and cancellation. *)
Definition quiet (c : Command) : bool :=
  match c with CmdRegister _ | CmdCancel _ => false | _ => true end.

Lemma room_ready n s : room n s -> ready (next_rev s) n s.
Proof. intros Hr. by split. Qed.

(** A command logs at revisions it allocated. *)
Lemma exec_quiet c s : inv s -> cmd_ok c s -> quiet c = true -> rtc (trans (next_rev s)) s (exec c s).
Proof.
  intros I. destruct c; cbn [exec cmd_ok quiet]; try done.
  - intros [Hok Hr%room_ready] _. eapply runs_exec; [by apply (runs_put _ req 0)|done|done].
  - intros Hr%room_ready _. eapply runs_exec; [by apply (runs_delete_range _ req 0)|done|done].
  - intros [Hok Hr%room_ready] _. eapply runs_exec; [by apply runs_txn|done|done].
  - intros _ _. eapply runs_exec; [apply runs_compact|done|done].
  - intros _ _. eapply runs_exec; [apply runs_lease_grant|done|done].
  - intros Hr%room_ready _. eapply runs_exec; [by apply (runs_lease_revoke _ id 0)|done|done].
  - intros _ _. eapply runs_exec; [apply runs_lease_keep_alive|done|done].
  - intros Hr%room_ready _. eapply runs_exec; [apply runs_expiry_step|done|done].
Qed.

Lemma exec_trans c s : inv s -> cmd_ok c s -> rtc (wtrans true (next_rev s)) s (exec c s).
Proof.
  intros I Hc. destruct (quiet c) eqn:Hq; [by apply rtc_trans_watching, exec_quiet|].
  destruct c; try done; by apply rtc_once, t_watch.
Qed.

(** ** The system *)

(** The store, and the snapshot of a compaction between its phases A and C. *)
Record Sys := mkSys { sys_store : StoreState; sys_compaction : option Snapshot }.

Definition clock_ok (now : Z) : Prop := 0 <= now < 2 ^ 62 * 1000000000.

Inductive sys_step : Sys -> Sys -> Prop :=
| ss_cmd c s cp : cmd_ok c s -> sys_step (mkSys s cp) (mkSys (exec c s) cp)
| ss_snapshot s : sys_step (mkSys s None) (mkSys s (Some (compact_phase_a s)))
| ss_swap s sn fs target :
    compact_phase_b fs sn = (target, inl tt) ->
    sys_step (mkSys s (Some sn)) (mkSys (compact_phase_c sn target s).1 None)
| ss_abort s sn : sys_step (mkSys s (Some sn)) (mkSys s None)
| ss_restart s cp now s' :
    clock_ok now -> open_store now (file (wal s)) = Ok s' -> sys_step (mkSys s cp) (mkSys s' None).

(** A fresh store on an empty file. *)
Definition sys_init : Sys := mkSys (StoreState_new (WalFile_open [])) None.

(** ** The invariant *)

Record snap_ok (s : StoreState) (sn : Snapshot) (rs1 rs2 : list KvWalRecord) : Prop := {
  so_durable : durable_by s (rs1 ++ rs2);
  so_size : sn_wal_size sn = Z.of_nat (length (log_bytes rs1));
  so_records : Forall store_record (sn_records sn);
  so_view : foldl view_record ∅ (sn_records sn) = foldl view_record ∅ rs1;
  so_revs : Forall (fun r => record_rev r < next_rev s) (sn_records sn ++ rs2);
  so_mono : StronglySorted key_le_rev (sn_records sn ++ rs2) }.

Definition sys_inv (y : Sys) : Prop :=
  inv (sys_store y) /\
  match sys_compaction y with
  | None => exists rs, durable_by (sys_store y) rs
  | Some sn => exists rs1 rs2, snap_ok (sys_store y) sn rs1 rs2
  end.

Lemma mono_app nr l rs s' s :
  Forall (fun r => record_rev r < nr) l -> StronglySorted key_le_rev l -> logs_run s s' rs -> nr = next_rev s ->
  StronglySorted key_le_rev (l ++ rs).
Proof.
  intros Hl Hs [_ _ _ _ Hso Hr _] ->. apply StronglySorted_app.
  split; [|split; [done|by apply sorted_key_le]].
  intros r1 r2 H1r H2r _. eapply Forall_forall in Hl; [|done]. eapply Forall_forall in Hr; [|done].
  cbn in *. lia.
Qed.

Lemma snap_ok_run s s' sn rs1 rs2 rs :
  snap_ok s sn rs1 rs2 -> logs_run s s' rs -> snap_ok s' sn rs1 (rs2 ++ rs).
Proof.
  intros [Hd Hsz Hr Hv Hre Hm] L. split; try done.
  - rewrite app_assoc. by eapply durable_run.
  - rewrite app_assoc. apply Forall_app. destruct L. split; (eapply Forall_impl; [done|]); cbn; intros; lia.
  - rewrite app_assoc. by eapply mono_app.
Qed.

Lemma snapshot_record_key nr k ks : ks_ok nr k ks -> nr <= 2 ^ 63 -> r_key (snapshot_record k ks) = k.
Proof.
  intros [Hf _ _ _ _ _ _] _. unfold r_key, rec_key, snapshot_record.
  destruct (KvWalRecord_new_fields (if negb (ks_lease ks =? 0) then HAS_LEASE else 0) k (ks_value ks)
    (i64_wrap (ks_create_revision ks)) (i64_wrap (ks_mod_revision ks)) (ks_version ks) (ks_lease ks))
    as (_ & -> & -> & _). by rewrite read_key_blob by by apply kv_fits_sizes.
Qed.

Lemma snapshot_loop_mono nr l :
  nr <= 2 ^ 63 -> Forall (fun e => ks_ok nr e.1 e.2) l -> NoDup l.*1 ->
  StronglySorted key_le_rev (snapshot_loop l)
  /\ Forall (fun r => r_key r ∈ l.*1) (snapshot_loop l).
Proof.
  intros Hnr. induction l as [|[k ks] l IH]; [split; constructor|].
  intros [Hok Hl]%Forall_cons. cbn [fmap list_fmap fst]. intros [Hk Hnd]%NoDup_cons.
  destruct (IH Hl Hnd) as [Hs Hin]. cbn [snapshot_loop fst snd] in *.
  assert (Forall (fun r => r_key r ∈ k :: l.*1) (snapshot_loop l)) as Hin'
    by (eapply Forall_impl; [apply Hin|]; intros r; by right).
  destruct (negb _); [done|]. pose proof (snapshot_record_key nr k ks Hok Hnr) as Ek. split.
  - apply StronglySorted_cons. split; [|done]. eapply Forall_impl; [apply Hin|].
    cbn. intros r Hr E. rewrite Ek in E. by rewrite <- E in Hr.
  - constructor; [rewrite Ek; left|done].
Qed.

Lemma snapshot_ok s rs : inv s -> durable_by s rs -> snap_ok s (compact_phase_a s) rs [].
Proof.
  intros I D. pose proof (inv_rev s I).
  pose proof (snapshot_loop_records (next_rev s) (btree_iter (keys s)) ltac:(lia) (iter_ks_ok s I)) as Hrec.
  split.
  - by rewrite app_nil_r.
  - cbn. by rewrite (du_file _ _ D).
  - eapply Forall_impl; [apply Hrec|]. naive_solver.
  - rewrite snapshot_view by done. apply D.
  - rewrite app_nil_r. eapply Forall_impl; [apply Hrec|]. naive_solver.
  - rewrite app_nil_r. apply (snapshot_loop_mono (next_rev s)); [lia|by apply iter_ks_ok|apply btree_iter_NoDup].
Qed.

(** The swap puts the snapshot and the records logged since in place, or fails and
    changes nothing. *)
Lemma swap_result s sn rs1 rs2 fs target :
  snap_ok s sn rs1 rs2 -> compact_phase_b fs sn = (target, inl tt) ->
  compact_phase_c sn target s = (set_wal (mkWalFile (log_bytes (sn_records sn ++ rs2)) true (faults (wal s))) s, inl tt)
  \/ exists e, compact_phase_c sn target s = (s, inr e).
Proof.
  intros [D Hsz _ _ _ _] Hb. apply write_records_ok in Hb as [Ef _]. cbn [file app] in Ef.
  assert (wal_tail s sn = log_bytes rs2) as Et.
  { unfold wal_tail. rewrite (du_file _ _ D), log_bytes_app, Hsz, length_app, Nat2Z.id, drop_app_length.
    destruct (Z.ltb_spec (Z.of_nat (length (log_bytes rs1))) (Z.of_nat (length (log_bytes rs1) + length (log_bytes rs2))));
      [done|]. symmetry. apply nil_length_inv. lia. }
  unfold compact_phase_c. rewrite Et, log_bytes_app. destruct (log_bytes rs2) as [|b bs] eqn:Eb.
  - left. by rewrite Ef, app_nil_r.
  - unfold write_all. destruct (faults target) as [|[n|] fs']; cbn; rewrite ?Ef; eauto.
Qed.

(** Swapping the compacted file in keeps the state durable. *)
Lemma swapped_durable s sn rs1 rs2 :
  snap_ok s sn rs1 rs2 ->
  durable_by (set_wal (mkWalFile (log_bytes (sn_records sn ++ rs2)) true (faults (wal s))) s) (sn_records sn ++ rs2).
Proof.
  intros [[Hno Hf R Hvw Hrv Hmo] Hsz Hr Hv Hre Hm]. apply Forall_app in R as [_ R2].
  split; try done; [by apply Forall_app|]. rewrite foldl_app, Hv, <- foldl_app. exact Hvw.
Qed.

Lemma swap_durable s sn rs1 rs2 fs target :
  snap_ok s sn rs1 rs2 -> compact_phase_b fs sn = (target, inl tt) ->
  exists rs, durable_by (compact_phase_c sn target s).1 rs.
Proof.
  intros So Hb. destruct (swap_result _ _ _ _ _ _ So Hb) as [->|[e ->]]; eexists; [by eapply swapped_durable|apply So].
Qed.

Lemma clock_instant now : clock_ok now -> instant_add now default_ttl = Ok (now + default_ttl * 1000000000).
Proof.
  unfold clock_ok, instant_add, default_ttl. intros Hn. rewrite u64_wrap_small by (unfold is_u64; lia).
  assert (now / 1000000000 < 2 ^ 62) by (apply Z.div_lt_upper_bound; lia).
  by rewrite (proj2 (Z.ltb_lt _ _)) by lia.
Qed.

Lemma max_rev_range rs nr :
  Forall store_record rs -> 1 <= nr -> Forall (fun r => record_rev r < nr) rs -> 1 <= max_rev rs + 1 <= nr.
Proof.
  intros R Hnr Hr. unfold max_rev. pose proof (foldl_max_ge (record_rev <$> rs) 0).
  pose proof (foldl_max_lt (record_rev <$> rs) 0 nr ltac:(lia) ltac:(by apply Forall_fmap)). lia.
Qed.

(** Reopening a durable state: it succeeds, the live view is the same, and the
    opened state is again one the server can run from. *)
Lemma reopen s rs now :
  inv s -> durable_by s rs -> clock_ok now ->
  exists s', open_store now (file (wal s)) = Ok s' /\ inv s' /\ durable_by s' rs
    /\ view (keys s') = view (keys s) /\ keys s' = foldl keys_record ∅ rs /\ next_rev s' <= next_rev s
    /\ next_rev s' = max_rev rs + 1.
Proof.
  intros I [Hno Hf R Hv Hrv Hmo] Hc. pose proof (inv_rev s I) as Hnr.
  destruct (open_store_log now _ rs [] R ltac:(by left) (clock_instant now Hc)) as
    (s' & Eo & Ek & En & Ew & Ecr & _ & Hco & _).
  { eapply Forall_impl; [apply Hrv|]. cbn. intros; lia. }
  rewrite app_nil_r in *. exists s'. rewrite Hf. split; [done|].
  pose proof (max_rev_range rs (next_rev s) R ltac:(lia) Hrv) as Hmax.
  assert (Forall (fun r => record_rev r < next_rev s') rs) as Hrv'.
  { apply Forall_forall. intros r Hin. rewrite En. unfold max_rev.
    assert (record_rev r <= foldl Z.max 0 (record_rev <$> rs)); [|lia].
    apply foldl_max_elem, list_elem_of_fmap. eauto. }
  assert (view (keys s') = foldl view_record ∅ rs) as Ev
    by (rewrite Ek, view_fold by done; f_equal; apply omap_empty).
  split.
  - split; [lia| |done|lia]. rewrite Ek. apply fold_keys_ok; try done. lia.
  - split; [by split; rewrite ?Ew|]. split; [congruence|]. split; [done|]. split; [lia|done].
Qed.

Lemma sys_init_inv : sys_inv sys_init.
Proof.
  split; [split; cbn; try lia|].
  - apply map_Forall_empty.
  - apply count_new.
  - exists []. split; cbn; try done. constructor.
Qed.

Lemma durable_no_faults s rs : durable_by s rs -> faults (wal s) = [].
Proof. by intros []. Qed.

Lemma sys_inv_durable y : sys_inv y -> exists rs, durable_by (sys_store y) rs.
Proof. intros [_ D]. destruct (sys_compaction y); [destruct D as (? & ? & [])|destruct D]; by eexists. Qed.

(** The parts of the state the log depends on are the same. *)
Definition light (s s' : StoreState) : Prop :=
  keys s' = keys s /\ wal s' = wal s /\ next_rev s' = next_rev s /\ key_count s' = key_count s
  /\ compact_rev s' = compact_rev s.

Lemma durable_light s s' rs : light s s' -> durable_by s rs -> durable_by s' rs.
Proof. intros (Ek & Ew & En & _) []. by split; rewrite ?Ek, ?Ew, ?En. Qed.

Lemma sys_inv_light s s' cp : light s s' -> sys_inv (mkSys s cp) -> sys_inv (mkSys s' cp).
Proof.
  intros L [I D]. pose proof L as (Ek & Ew & En & Ec & Er). split; cbn in *.
  - apply (inv_same s); try done. rewrite Er. apply (inv_compact s I).
  - destruct cp as [sn|].
    + destruct D as (rs1 & rs2 & []). exists rs1, rs2. split; try done; [by eapply durable_light|by rewrite En].
    + destruct D as (rs & D). exists rs. by eapply durable_light.
Qed.

Lemma sys_step_inv y y' : sys_step y y' -> sys_inv y -> sys_inv y'.
Proof.
  intros T [I D]. destruct T as [c s cp Hc|s|s sn fs target Hb|s sn|s cp now s' Hc Ho]; cbn in *.
  - pose proof (exec_trans c s I Hc) as Ht. split; [by eapply rtc_trans_inv|]. cbn.
    assert (faults (wal s) = []) as Hno
      by (destruct cp; [destruct D as (? & ? & [])|destruct D as (? & [])]; by eauto using durable_no_faults).
    destruct (rtc_trans_logs _ _ _ _ Ht I Hno) as (rs & L & _). destruct cp as [sn|].
    + destruct D as (rs1 & rs2 & D). eexists _, _. by eapply snap_ok_run.
    + destruct D as (rs0 & D). eexists. by eapply durable_run.
  - destruct D as (rs & D). split; [done|]. eexists _, []. by apply snapshot_ok.
  - destruct D as (rs1 & rs2 & D). split; [|by eapply swap_durable].
    destruct (swap_result _ _ _ _ _ _ D Hb) as [->|[e ->]]; [by apply inv_set_wal|done].
  - split; [done|]. destruct D as (rs1 & rs2 & D). eexists. apply D.
  - destruct (sys_inv_durable (mkSys s cp)) as (rs & D'); [by split|].
    destruct (reopen s rs now I D' Hc) as (s2 & E & I2 & D2 & _). rewrite E in Ho. injection Ho as <-.
    split; [done|]. by eexists.
Qed.

Lemma sys_reachable_inv y : rtc sys_step sys_init y -> sys_inv y.
Proof.
  intros Hr. assert (forall y0, rtc sys_step y0 y -> sys_inv y0 -> sys_inv y) as Hgen
    by (induction 1; eauto using sys_step_inv).
  by eapply Hgen, sys_init_inv.
Qed.

Lemma sys_reachable y : rtc sys_step sys_init y -> inv (sys_store y) /\ exists rs, durable_by (sys_store y) rs.
Proof. intros Hr%sys_reachable_inv. split; [apply Hr|by apply sys_inv_durable]. Qed.

(** A predicate of the store that every step keeps holds in every reachable state. *)
Lemma sys_invariant (P : StoreState -> Prop) y :
  P (sys_store sys_init) ->
  (forall y y', sys_step y y' -> sys_inv y -> P (sys_store y) -> P (sys_store y')) ->
  rtc sys_step sys_init y -> P (sys_store y).
Proof.
  intros Hi Hs. assert (forall y0, rtc sys_step y0 y -> sys_inv y0 -> P (sys_store y0) -> P (sys_store y)) as Hgen
    by (induction 1; eauto using sys_step_inv).
  intros Hr. exact (Hgen _ Hr sys_init_inv Hi).
Qed.

(** ** A single lifetime: sequences of commands *)

Fixpoint run (cs : list Command) (s : StoreState) : StoreState :=
  match cs with [] => s | c :: cs => run cs (exec c s) end.

Fixpoint cmds_ok (cs : list Command) (s : StoreState) : Prop :=
  match cs with [] => True | c :: cs => cmd_ok c s /\ cmds_ok cs (exec c s) end.

Lemma run_app cs cs' s : run (cs ++ cs') s = run cs' (run cs s).
Proof. revert s. induction cs as [|c cs IH]; intros s; [done|]. apply IH. Qed.

Lemma cmds_ok_app cs cs' s : cmds_ok (cs ++ cs') s <-> cmds_ok cs s /\ cmds_ok cs' (run cs s).
Proof. revert s. induction cs as [|c cs IH]; intros s; cbn; [tauto|]. rewrite IH. tauto. Qed.

Lemma run_trans cs s : inv s -> cmds_ok cs s -> rtc (wtrans true (next_rev s)) s (run cs s).
Proof.
  revert s. induction cs as [|c cs IH]; intros s I; cbn [run cmds_ok]; [done|]. intros [Hc Hcs].
  pose proof (exec_trans c s I Hc) as Ht. etrans; [exact Ht|].
  apply (rtc_trans_floor _ (next_rev (exec c s))); [by eapply rtc_trans_rev_le|].
  apply IH; [by eapply rtc_trans_inv|done].
Qed.

Lemma run_steps cs s cp : cmds_ok cs s -> rtc sys_step (mkSys s cp) (mkSys (run cs s) cp).
Proof.
  revert s. induction cs as [|c cs IH]; intros s; cbn [run cmds_ok]; [done|]. intros [Hc Hcs].
  eapply rtc_l; [by apply ss_cmd|]. by apply IH.
Qed.

Definition fresh : StoreState := StoreState_new (WalFile_open []).

Lemma fresh_inv : inv fresh.
Proof. apply (sys_init_inv). Qed.

(** The log of a lifetime: the records that rebuild its key map, in revision order. *)
Lemma run_logs cs :
  cmds_ok cs fresh -> inv (run cs fresh) /\ exists rs, logs_run fresh (run cs fresh) rs.
Proof.
  intros Hc. pose proof (run_trans cs fresh fresh_inv Hc) as Ht.
  split; [by eapply rtc_trans_inv, fresh_inv|].
  destruct (rtc_trans_logs _ _ _ _ Ht fresh_inv) as (rs & L & _); [done|]. by exists rs.
Qed.

Lemma run_durable cs rs : logs_run fresh (run cs fresh) rs -> durable_by (run cs fresh) rs.
Proof.
  intros L. assert (durable_by fresh []) as D0 by (split; cbn; try done; constructor).
  exact (durable_run _ _ [] rs D0 L).
Qed.

(** *** What a compaction followed by a restart makes of an entry *)

Definition reloaded (key : list Byte.byte) (ks : KeyState) : KeyState :=
  mkKeyState (ks_value ks) (ks_mod_revision ks) (ks_mod_revision ks) 1 (ks_lease ks) 0 false
    (make_kv_bytes key ks).

Lemma snapshot_keys_record nr m k ks :
  ks_ok nr k ks -> nr <= 2 ^ 63 -> m !! k = None ->
  keys_record m (snapshot_record k ks) = <[k := reloaded k ks]> m.
Proof.
  intros Hok Hnr Hm. pose proof (snapshot_record_genuine nr k ks Hok Hnr) as (_ & Er & _).
  destruct Hok as [Hf Hc Hmd Hd Hv Hl _].
  set (fl := if negb (ks_lease ks =? 0) then HAS_LEASE else 0).
  assert (record_deleted (snapshot_record k ks) = false) as Edel.
  { unfold record_deleted, snapshot_record. rewrite (proj1 (KvWalRecord_new_fields _ _ _ _ _ _ _)).
    by destruct (negb (ks_lease ks =? 0)). }
  assert (Wal.kv_bytes (snapshot_record k ks) = make_kv_bytes k ks) as Eb.
  { rewrite make_kv_bytes_blob. unfold snapshot_record.
    by rewrite (proj1 (proj2 (KvWalRecord_new_fields _ _ _ _ _ _ _))). }
  unfold keys_record. rewrite Edel, Eb, make_kv_bytes_blob, Er.
  rewrite kv_decode_blob; auto using kv_fits_sizes, i64_wrap_range. cbn [kv_key kv_value kv_lease].
  unfold put_keys, put_entry, alive_in, reloaded. rewrite Hm. cbn. by rewrite make_kv_bytes_blob.
Qed.

Lemma snapshot_loop_keys nr l m :
  nr <= 2 ^ 63 -> Forall (fun e => ks_ok nr e.1 e.2) l -> NoDup l.*1 -> (forall k, k ∈ l.*1 -> m !! k = None) ->
  forall k, foldl keys_record m (snapshot_loop l) !! k
  = match (list_to_map l : gmap (list Byte.byte) KeyState) !! k with
    | Some ks => if is_alive ks then Some (reloaded k ks) else m !! k
    | None => m !! k
    end.
Proof.
  intros Hnr. revert m. induction l as [|[k0 ks0] l IH]; intros m; [done|].
  intros [Hok Hl]%Forall_cons [Hk0 Hnd]%NoDup_cons Hm k.
  cbn [snapshot_loop fst snd list_to_map foldr uncurry fmap list_fmap] in *.
  pose proof (not_elem_of_list_to_map_1 _ _ Hk0) as Hn0.
  transitivity (foldl keys_record (if is_alive ks0 then <[k0 := reloaded k0 ks0]> m else m) (snapshot_loop l) !! k).
  { f_equal. unfold is_alive. destruct (Z.eqb_spec (ks_delete_revision ks0) 0); cbn [negb]; [|done].
    cbn [foldl]. rewrite (snapshot_keys_record nr); [done|done|done|]. apply Hm. left. }
  rewrite IH; [|done|done|].
  - destruct (decide (k = k0)) as [->|Hne].
    + rewrite Hn0, lookup_insert_eq. destruct (is_alive ks0); [by rewrite lookup_insert_eq|done].
    + rewrite lookup_insert_ne by done.
      destruct (list_to_map l !! k) as [ks|]; [destruct (is_alive ks); [done|]|];
        destruct (is_alive ks0); by rewrite ?lookup_insert_ne.
  - intros k' Hk'. assert (k' <> k0) by (intros ->; done).
    destruct (is_alive ks0); rewrite ?lookup_insert_ne by done; apply Hm; by right.
Qed.

(** *** Opening a cut file *)

Lemma length_log_take_S rs k r :
  rs !! k = Some r -> length (log_bytes (take (S k) rs)) = (length (log_bytes (take k rs)) + length (serialize r))%nat.
Proof. intros Hk. by rewrite (take_S_r _ _ _ Hk), log_bytes_app, length_app, log_bytes_one. Qed.

Lemma reopen_cut s rs n now :
  inv s -> durable_by s rs -> clock_ok now ->
  exists k s', log_bytes (take k rs) `prefix_of` take n (log_bytes rs)
    /\ (k < length rs -> n < length (log_bytes (take (S k) rs)))%nat
    /\ open_store now (take n (file (wal s))) = Ok s' /\ keys s' = foldl keys_record ∅ (take k rs).
Proof.
  intros I D Hnow. pose proof (inv_rev s I) as Hnr. destruct D as [_ Hf R _ Hrv _].
  destruct (log_bytes_cut rs n) as (k & tail & Ecut & Htail). exists k.
  destruct (open_store_log now (now + default_ttl * 1000000000) (take k rs) tail) as (s' & Eo & Ek & _); [by apply Forall_take| |by apply clock_instant|..].
  - destruct Htail as [[? _]|(r & m & Hr & ? & ?)]; [by left|right]. exists r, m. split; [|done].
    apply store_record_wf. by eapply Forall_lookup_1 in R.
  - apply Forall_take. eapply Forall_impl; [apply Hrv|]. cbn. intros; lia.
  - exists s'. rewrite Hf, Ecut. split; [by eexists|]. split; [|done].
    intros Hk. destruct Htail as [[_ Hlen]|(r & m & Hr & -> & Hm)]; [lia|].
    rewrite (length_log_take_S _ _ _ Hr).
    apply (f_equal length) in Ecut. rewrite length_app, !length_take in Ecut.
    assert (length (log_bytes (take k rs)) + length (serialize r) <= length (log_bytes rs))%nat; [|lia].
    rewrite <- (length_log_take_S _ _ _ Hr). rewrite <- (take_drop (S k) rs) at 2.
    rewrite log_bytes_app, length_app. lia.
Qed.

Lemma compact_wal_file s :
  faults (wal s) = [] -> file (wal (compact_wal [] s).1) = log_bytes (sn_records (compact_phase_a s)).
Proof.
  intros Hno. unfold compact_wal. destruct (compact_phase_b [] (compact_phase_a s)) as [t [[]|e]] eqn:E.
  - apply write_records_ok in E as [Ef _]. unfold compact_phase_c, wal_tail. cbn [sn_wal_size compact_phase_a].
    rewrite Z.ltb_irrefl. exact Ef.
  - by apply write_records_fault in E.
Qed.

(** A blob only depends on its numbers up to two's complement. *)
Lemma kv_blob_wrap key value cr mr ver lease :
  kv_blob key value cr mr ver lease = kv_blob key value (i64_wrap cr) mr (i64_wrap ver) lease.
Proof. by rewrite !kv_blob_layout, !u64_i64_wrap. Qed.

(** ** Properties *)

(** C1. Durability. Whatever sequence of commands, compaction phases and
    restarts the server went through, reopening its WAL file succeeds and gives
    a well-formed store with the same live keys, values, modification revisions
    and leases as the memory had. *)
Theorem durable_recovery y now :
  rtc sys_step sys_init y -> clock_ok now ->
  exists s', open_store now (file (wal (sys_store y))) = Ok s'
    /\ view (keys s') = view (keys (sys_store y)) /\ inv s'.
Proof.
  intros Hr Hc. destruct (sys_reachable y Hr) as (I & rs & D').
  destruct (reopen _ rs now I D' Hc) as (s' & E & I' & _ & Ev & _). by exists s'.
Qed.

(** C13. Memory invariant. In every state the server can reach, revisions are
    ordered (creation, modification, deletion, current), the counter is the number
    of live keys, the compaction mark is not in the future, and every entry's
    blob decodes to the entry's key, value, modification revision and lease. *)
Theorem reachable_well_formed y :
  rtc sys_step sys_init y ->
  let s := sys_store y in let current := current_revision s in
  (Z.of_nat (size (keys s)) < 2 ^ 64 -> key_count s = Z.of_nat (size (live (keys s))))
  /\ 0 <= compact_rev s <= current
  /\ forall k ks, keys s !! k = Some ks ->
       1 <= ks_create_revision ks <= ks_mod_revision ks /\ ks_mod_revision ks <= current
       /\ (is_alive ks = false -> ks_mod_revision ks <= ks_delete_revision ks <= current)
       /\ match kv_decode (ks_kv_bytes ks) with
          | Some kv => kv_key kv = k /\ kv_value kv = ks_value ks /\ kv_lease kv = ks_lease ks
                       /\ kv_mod_revision kv = ks_mod_revision ks
          | None => False
          end.
Proof.
  intros [I _]%sys_reachable_inv s current. pose proof (inv_rev _ I) as Hnr. pose proof (inv_compact _ I) as Hc.
  unfold current, current_revision. fold s in I, Hnr, Hc. split; [apply (inv_count _ I)|]. split; [lia|].
  intros k ks Hk. destruct (inv_keys _ I _ _ Hk) as [Hf Hcr Hm Hd Hv Hl (cr & ver & Eb)]. fold s in Hm, Hd.
  split; [done|]. split; [lia|]. split; [unfold is_alive; lia|].
  rewrite Eb, (kv_blob_wrap k), kv_decode_blob;
    auto using kv_fits_sizes, i64_wrap_range. unfold is_i64. lia.
Qed.

(** C22. Exact recovery. Within one lifetime without WAL compaction, replaying the
    log rebuilds the key map exactly: tombstones, versions, creation revisions,
    rebirth marks and encoded blobs included. *)
Theorem exact_recovery cs now :
  cmds_ok cs fresh -> clock_ok now ->
  exists s', open_store now (file (wal (run cs fresh))) = Ok s'
    /\ keys s' = keys (run cs fresh) /\ next_rev s' <= next_rev (run cs fresh).
Proof.
  intros Hc Hnow. destruct (run_logs cs Hc) as (I & rs & L).
  destruct (reopen _ rs now I (run_durable cs rs L) Hnow) as (s' & E & _ & _ & _ & Ek & Hn & _).
  exists s'. split; [done|]. split; [|done]. rewrite Ek. symmetry. apply (lr_keys _ _ _ L).
Qed.

(** C11. Crash recovery. If the file was cut at an arbitrary byte [n], opening it
    still succeeds and yields the key map of exactly the records completely
    written before the cut: a prefix of the history, never a mixture. *)
Theorem crash_recovery cs n now :
  cmds_ok cs fresh -> clock_ok now ->
  exists rs k s',
    keys (run cs fresh) = foldl keys_record ∅ rs
    /\ file (wal (run cs fresh)) = log_bytes rs
    /\ log_bytes (take k rs) `prefix_of` take n (log_bytes rs)
    /\ (k < length rs -> n < length (log_bytes (take (S k) rs)))%nat
    /\ open_store now (take n (file (wal (run cs fresh)))) = Ok s'
    /\ keys s' = foldl keys_record ∅ (take k rs).
Proof.
  intros Hc Hnow. destruct (run_logs cs Hc) as (I & rs & L). pose proof (run_durable cs rs L) as D.
  destruct (reopen_cut _ rs n now I D Hnow) as (k & s' & Hp & Hk & Ho & Ek).
  exists rs, k, s'. split; [apply (lr_keys _ _ _ L)|]. split; [apply (du_file _ _ D)|]. done.
Qed.

(** Reload after compaction. Compacting the WAL and restarting keeps exactly
    the live keys with their value, modification revision and lease, re-encodes
    their blob from the stored fields, and forgets everything else: the version
    restarts at 1, the creation revision becomes the modification revision, and
    tombstones and rebirth marks are gone. *)
Theorem compaction_reload s now :
  inv s -> faults (wal s) = [] -> clock_ok now ->
  exists s', open_store now (file (wal (compact_wal [] s).1)) = Ok s'
    /\ forall k, keys s' !! k = reloaded k <$> get_alive s k.
Proof.
  intros I Hno Hnow. pose proof (inv_rev s I) as Hnr.
  assert (file (wal (compact_wal [] s).1) = log_bytes (sn_records (compact_phase_a s))) as Ef
    by by apply compact_wal_file.
  pose proof (snapshot_loop_records (next_rev s) (btree_iter (keys s)) ltac:(lia) (iter_ks_ok s I)) as Hrec.
  destruct (open_store_log now (now + default_ttl * 1000000000) (sn_records (compact_phase_a s)) []) as (s' & Eo & Ek & _);
    [eapply Forall_impl; [apply Hrec|naive_solver]|by left|by apply clock_instant|
     eapply Forall_impl; [apply Hrec|cbn; intros; lia]|].
  rewrite app_nil_r in Eo. exists s'. rewrite Ef. split; [done|]. intros k. rewrite Ek. cbn [sn_records compact_phase_a].
  rewrite (snapshot_loop_keys (next_rev s)), list_to_map_btree_iter;
    [|lia|by apply iter_ks_ok|apply btree_iter_NoDup|intros; apply lookup_empty].
  unfold get_alive. destruct (keys s !! k) as [ks|]; [|apply lookup_empty]. destruct (is_alive ks); [done|apply lookup_empty].
Qed.

End Durability.

(** ** Concrete runs

    With the bitwise checksum, the reference decoder and merge sort. *)

#[local] Existing Instance bitwise_crc.
#[local] Existing Instance ref_decoder.
#[local] Existing Instance merge_sort_impl.

Definition put_req (k v : string) : PutRequest := mkPut (lit k) (lit v) 0 false false false.
Definition del_req (k : string) : DeleteRangeRequest := mkDelete (lit k) [] false.

Lemma put_req_ok k v : Z.of_nat (length (lit k)) < 1000 -> Z.of_nat (length (lit v)) < 1000 -> put_ok (put_req k v).
Proof. intros. repeat split; cbn; unfold is_i64, key_small, record_fits; lia. Qed.

(** Two writes of one key, a deletion of another. *)
Definition demo : list Command :=
  [CmdPut (put_req "a" "1"); CmdPut (put_req "b" "2"); CmdPut (put_req "a" "3"); CmdDeleteRange (del_req "b")].

Lemma demo_ok : cmds_ok demo fresh.
Proof. repeat split; by vm_compute. Qed.

(** The same, then a compaction with a write between its phases. *)
Definition demo_snapshot : Snapshot := compact_phase_a (run demo fresh).
Definition demo_target : WalFile := (compact_phase_b [] demo_snapshot).1.
Definition demo_sys : Sys :=
  mkSys (compact_phase_c demo_snapshot demo_target (exec (CmdPut (put_req "c" "4")) (run demo fresh))).1 None.

Lemma demo_reachable : rtc sys_step sys_init demo_sys.
Proof.
  etrans; [exact (run_steps demo fresh None demo_ok)|].
  eapply rtc_l; [exact (ss_snapshot (run demo fresh))|].
  eapply rtc_l; [apply (ss_cmd (CmdPut (put_req "c" "4")) (run demo fresh) (Some demo_snapshot));
    repeat split; by vm_compute|].
  apply rtc_once. apply (ss_swap _ demo_snapshot [] demo_target). by vm_compute.
Qed.

Lemma durable_recovery_witness :
  exists s', open_store 0 (file (wal (sys_store demo_sys))) = Ok s'
    /\ view (keys s') = view (keys (sys_store demo_sys)) /\ inv s'.
Proof. apply (durable_recovery demo_sys 0 demo_reachable). unfold clock_ok; lia. Defined.

Lemma reachable_well_formed_witness :
  let s := sys_store demo_sys in let current := current_revision s in
  (Z.of_nat (size (keys s)) < 2 ^ 64 -> key_count s = Z.of_nat (size (live (keys s))))
  /\ 0 <= compact_rev s <= current.
Proof.
  intros s current. destruct (reachable_well_formed demo_sys demo_reachable) as (Hc & Hr & _). by split.
Defined.

Lemma exact_recovery_witness :
  exists s', open_store 0 (file (wal (run demo fresh))) = Ok s'
    /\ keys s' = keys (run demo fresh) /\ next_rev s' <= next_rev (run demo fresh).
Proof. apply (exact_recovery demo 0); [repeat split; by vm_compute|unfold clock_ok; lia]. Defined.

Lemma crash_recovery_witness :
  exists rs k s',
    keys (run demo fresh) = foldl keys_record ∅ rs
    /\ file (wal (run demo fresh)) = log_bytes rs
    /\ log_bytes (take k rs) `prefix_of` take 100 (log_bytes rs)
    /\ (k < length rs -> 100 < length (log_bytes (take (S k) rs)))%nat
    /\ open_store 0 (take 100 (file (wal (run demo fresh)))) = Ok s'
    /\ keys s' = foldl keys_record ∅ (take k rs).
Proof. apply (crash_recovery demo 100 0); [repeat split; by vm_compute|unfold clock_ok; lia]. Defined.

Lemma compaction_reload_witness :
  exists s', open_store 0 (file (wal (compact_wal [] (run demo fresh)).1)) = Ok s'
    /\ forall k, keys s' !! k = reloaded k <$> get_alive (run demo fresh) k.
Proof.
  apply (compaction_reload (run demo fresh) 0); [|by vm_compute|unfold clock_ok; lia].
  apply (run_logs demo demo_ok).
Defined.

(** After a compaction and a restart the version of [a] is 1 instead of 2, and
    the store's revision falls back from 4 to 3. *)
Example compaction_loses_version :
  (ks_version <$> get_alive (run demo fresh) (lit "a"), current_revision (run demo fresh)) = (Some 2, 4)
  /\ match open_store 0 (file (wal (compact_wal [] (run demo fresh)).1)) with
     | Ok s => (ks_version <$> get_alive s (lit "a"), current_revision s) = (Some 1, 3)
     | _ => False
     end.
Proof. by vm_compute. Qed.

End Durability.
