(* ===== verification/Sync.v ===== *)
(** * What survives a power failure (src/storage/background.rs, compact_wal of store.rs)

    The log is written through the page cache: a write is on the medium only after
    the task of background.rs has synced the file, and a compaction replaces the
    file by a rename, which reaches the medium when the file system writes the
    directory, for nothing syncs that. A machine is the server together with what has
    reached the medium. Beside it, as ghost state, runs the log of a server that never
    compacts: every byte ever appended, and how many of them the last sync of each
    file covered. *)
From S2P Require Import Prelude Varint KvCodec Wire Crc WalRecord Proto Range SortKvs State Store.
From S2P Require Import Historical Txn Recovery Background System Replay Durability.
Local Open Scope Z_scope.

Module Sync.
Import KvCodec Wire Crc Wal Proto Range SortKvs State Store Historical Txn Recovery Background System Replay
  Durability.

(** A file that a rename has replaced, with the number of its bytes that are on the
    medium, and the length of the history its last sync covered. *)
Record Replaced := mkReplaced { rp_data : list Byte.byte; rp_synced : nat; rp_covered : nat }.

(** [mc_synced] bytes of the active file are on the medium; the sync that put them
    there covered [mc_covered] bytes of the history. [mc_replaced] are the files the
    path may still name on the medium, the oldest first: the renames that replaced
    them have not reached it. [mc_orphan] is the file at the path when the server's handle
    is on another one. [mc_fsync] is set while the task is between clearing the
    dirty flag and syncing. *)
Record Machine := mkMachine {
  mc_sys : Sys;
  mc_synced : nat;
  mc_replaced : list Replaced;
  mc_orphan : option (list Byte.byte);
  mc_fsync : bool;
  mc_history : list Byte.byte;
  mc_covered : nat }.

Definition mc_store (m : Machine) : StoreState := sys_store (mc_sys m).
Definition mc_file (m : Machine) : bytes := file (wal (mc_store m)).

Definition machine_init : Machine := mkMachine sys_init O [] None false [] O.

Inductive PowerLabel :=
| PwCommand (c : Command)
| PwSnapshot
| PwSwap (faults : list (option nat))
| PwSwapReopenFails (faults : list (option nat))
| PwGiveUp
| PwFsyncBegin
| PwFsyncDone
| PwFsyncFailed
| PwDirectory (n : nat)
| PwRestart (now : Z).

Section Sync.
Context `{Crc32c} `{KvDecoder} `{UnstableSort}.

(** A step of the server; what it appended joins the history. *)
Definition advance (y : Sys) (m : Machine) : Machine :=
  mkMachine y (mc_synced m) (mc_replaced m) (mc_orphan m) (mc_fsync m)
    (mc_history m ++ drop (length (mc_file m)) (file (wal (sys_store y)))) (mc_covered m).

(** The task's turn, first half: [dirty.swap(false)]. *)
Definition fsync_begin (m : Machine) : option Machine :=
  let '(w, was_dirty) := fsync_tick (wal (mc_store m)) in
  if mc_fsync m then None
  else Some (mkMachine (mkSys (set_wal w (mc_store m)) (sys_compaction (mc_sys m))) (mc_synced m) (mc_replaced m)
               (mc_orphan m) was_dirty (mc_history m) (mc_covered m)).

(** Second half: [sync_all] on the file now behind the handle; it says nothing about
    the directory. *)
Definition fsync_done (m : Machine) : option Machine :=
  if mc_fsync m
  then Some (mkMachine (mc_sys m) (length (mc_file m)) (mc_replaced m) (mc_orphan m) false
               (mc_history m) (length (mc_history m)))
  else None.

(** [sync_all] fails: the error is logged and the flag stays clear. *)
Definition fsync_failed (m : Machine) : option Machine :=
  if mc_fsync m
  then Some (mkMachine (mc_sys m) (mc_synced m) (mc_replaced m) (mc_orphan m) false (mc_history m) (mc_covered m))
  else None.

(** Phases B and C: the new file is synced before it is renamed over the old one;
    the rename itself need not reach the medium. *)
Definition power_swap (faults : list (option nat)) (m : Machine) : option Machine :=
  match sys_compaction (mc_sys m) with
  | None => None
  | Some sn =>
      match compact_phase_b faults sn with
      | (_, inr _) => Some (mkMachine (mkSys (mc_store m) None) (mc_synced m) (mc_replaced m) (mc_orphan m) (mc_fsync m)
                              (mc_history m) (mc_covered m))
      | (target, inl _) =>
          match compact_phase_c sn target (mc_store m) with
          | (s, inl _) =>
              Some (mkMachine (mkSys s None) (length (file (wal s)))
                      (mc_replaced m ++ [mkReplaced (mc_file m) (mc_synced m) (mc_covered m)])
                      (mc_orphan m) (mc_fsync m) (mc_history m) (length (mc_history m)))
          | (s, inr _) => Some (mkMachine (mkSys s None) (mc_synced m) (mc_replaced m) (mc_orphan m) (mc_fsync m)
                                  (mc_history m) (mc_covered m))
          end
      end
  end.

(** The rename succeeds but opening the new file does not: [compact_wal] returns an
    error, and the handle stays on the file that was replaced. *)
Definition power_swap_orphan (faults : list (option nat)) (m : Machine) : option Machine :=
  match sys_compaction (mc_sys m) with
  | None => None
  | Some sn =>
      match compact_phase_b faults sn with
      | (_, inr _) => None
      | (target, inl _) =>
          match compact_phase_c sn target (mc_store m) with
          | (s, inl _) => Some (mkMachine (mkSys (mc_store m) None) (mc_synced m) (mc_replaced m) (Some (file (wal s)))
                                  (mc_fsync m) (mc_history m) (mc_covered m))
          | (_, inr _) => None
          end
      end
  end.

(** The file system writes the directory, in its own time: the first [n] of the
    pending renames, which it keeps in order, are on the medium. *)
Definition write_directory (n : nat) (m : Machine) : Machine :=
  mkMachine (mc_sys m) (mc_synced m) (drop n (mc_replaced m)) (mc_orphan m) (mc_fsync m) (mc_history m) (mc_covered m).

(** The process ends and a new one opens the path; the page cache survives. *)
Definition power_restart (now : Z) (m : Machine) : option Machine :=
  match open_store now (default (mc_file m) (mc_orphan m)) with
  | Ok s => Some (mkMachine (mkSys s None) (mc_synced m) (mc_replaced m) None false (mc_history m) (mc_covered m))
  | _ => None
  end.

Definition power_next (l : PowerLabel) (m : Machine) : option Machine :=
  let s := mc_store m in
  match l with
  | PwCommand c => Some (advance (mkSys (exec c s) (sys_compaction (mc_sys m))) m)
  | PwSnapshot =>
      match sys_compaction (mc_sys m) with
      | None => Some (advance (mkSys s (Some (compact_phase_a s))) m)
      | Some _ => None
      end
  | PwSwap faults => power_swap faults m
  | PwSwapReopenFails faults => power_swap_orphan faults m
  | PwGiveUp => Some (advance (mkSys s None) m)
  | PwFsyncBegin => fsync_begin m
  | PwFsyncDone => fsync_done m
  | PwFsyncFailed => fsync_failed m
  | PwDirectory n => Some (write_directory n m)
  | PwRestart now => power_restart now m
  end.

(** Steps with well-sized commands, in which opening the renamed file works. *)
Definition power_ok (l : PowerLabel) (m : Machine) : Prop :=
  match l with
  | PwCommand c => cmd_ok c (mc_store m)
  | PwSwapReopenFails _ => False
  | PwRestart now => clock_ok now
  | _ => True
  end.

(** What may be at the path after a power failure, and how much of the history the
    last completed sync of that file covered: the active file, or one whose
    replacement has not reached the medium, cut at or after its synced part. *)
Inductive power_image (m : Machine) : list Byte.byte -> nat -> Prop :=
| pi_active n : (mc_synced m <= n)%nat -> power_image m (take n (mc_file m)) (mc_covered m)
| pi_replaced r n : r ∈ mc_replaced m -> (rp_synced r <= n)%nat -> power_image m (take n (rp_data r)) (rp_covered r).

End Sync.

Abbreviation power_step := (lstep power_next power_ok).
Abbreviation power_run := (lrun power_next power_ok).

Section SyncProofs.
Context `{Crc32c} `{KvDecoder} `{UnstableSort}.

(** ** Proofs *)

Abbreviation fold_view := (foldl view_record ∅).

(** Records the store wrote, with revisions that leave room for another. *)
Definition log_fine (rs : list KvWalRecord) : Prop :=
  Forall store_record rs /\ Forall (fun r => record_rev r < 2 ^ 63 - 1) rs.

Lemma log_fine_app l l' : log_fine (l ++ l') <-> log_fine l /\ log_fine l'.
Proof. unfold log_fine. rewrite !Forall_app. tauto. Qed.

Lemma log_fine_take k l : log_fine l -> log_fine (take k l).
Proof. intros []. split; by apply Forall_take. Qed.

(** [data] is a log that shows what the history [h] shows, continued by records
    [tl] the history has too. *)
Record tracked (hist : list KvWalRecord) (covered : nat) (data : bytes) (synced : nat) (h base tl : list KvWalRecord) : Prop := {
  tr_data : data = log_bytes (base ++ tl);
  tr_prefix : h ++ tl `prefix_of` hist;
  tr_view : fold_view base = fold_view h;
  tr_fine : log_fine (base ++ tl);
  tr_base : (length (log_bytes base) <= synced <= length data)%nat;
  tr_covered : (covered + length (log_bytes base) <= length (log_bytes h) + synced)%nat }.

Lemma log_bytes_inj rs rs' :
  Forall store_record rs -> Forall store_record rs' -> log_bytes rs = log_bytes rs' -> rs = rs'.
Proof.
  intros R R' E. assert (forall l, Forall store_record l -> (scan_kv_file (log_bytes l) 0).1 = l) as Hscan
    by (intros l Hl; rewrite scan_log; [done|]; eapply Forall_impl; [exact Hl|apply store_record_wf]).
  by rewrite <- (Hscan rs R), E, Hscan.
Qed.

(** A cut log opens to the view of its complete records, whatever precedes the cut. *)
Lemma open_prefix now tl n :
  clock_ok now -> log_fine tl ->
  exists k, forall base, log_fine base -> exists s,
    open_store now (log_bytes base ++ take n (log_bytes tl)) = Ok s /\ view (keys s) = fold_view (base ++ take k tl).
Proof.
  intros Hc Ht. destruct (log_bytes_cut tl n) as (k & tail & Ecut & Htail). exists k. intros base Hb.
  assert (log_fine (base ++ take k tl)) as [R Hrv] by (apply log_fine_app; split; [done|by apply log_fine_take]).
  assert (torn_tail tail) as Htorn.
  { destruct Htail as [[-> _]|(r & m & Hr & -> & Hm)]; [by left|right]. exists r, m. split; [|done].
    apply store_record_wf. destruct Ht as [Rt _]. by eapply Forall_lookup_1 in Rt. }
  rewrite Ecut, app_assoc, <- log_bytes_app.
  destruct (open_store_log now _ (base ++ take k tl) tail R Htorn (clock_instant now Hc) Hrv) as (s & Eo & Ek & _).
  exists s. split; [done|]. rewrite Ek, view_fold by done. done.
Qed.

(** Opening a cut of a tracked file looks like opening a cut of the history. *)
Lemma tracked_open hist covered data synced h base tl n now :
  tracked hist covered data synced h base tl -> (synced <= n)%nat -> clock_ok now ->
  log_fine hist ->
  exists k s s0, (covered <= k <= length (log_bytes hist))%nat
    /\ open_store now (take n data) = Ok s /\ open_store now (take k (log_bytes hist)) = Ok s0
    /\ view (keys s) = view (keys s0).
Proof.
  intros [-> [rest ->] Hv [Fb Ft]%log_fine_app [Hb Hs] Hcov] Hn Hc [[Fh _]%log_fine_app _]%log_fine_app.
  rewrite !log_bytes_app, !length_app in *. set (b := length (log_bytes base)) in *. set (t := length (log_bytes tl)) in *.
  set (m := (min n (b + t) - b)%nat).
  assert (take n (log_bytes base ++ log_bytes tl) = log_bytes base ++ take m (log_bytes tl)) as ->.
  { rewrite take_app, take_ge by (fold b; lia). fold b. f_equal. unfold m. destruct (decide (n <= b + t))%nat.
    - f_equal. lia.
    - rewrite !take_ge; [done|fold t; lia..]. }
  destruct (open_prefix now tl m Hc Ft) as (j & Hopen).
  destruct (Hopen base Fb) as (s & Eo & Ev), (Hopen h Fh) as (s0 & Eo' & Ev').
  exists (length (log_bytes h) + m)%nat, s, s0. split; [unfold m; lia|]. split; [done|].
  rewrite <- app_assoc, take_app_add, take_app_le by (fold t; unfold m; lia). split; [done|].
  rewrite Ev, Ev', !foldl_app. by rewrite Hv.
Qed.

Lemma image_of_replaced m data synced covered n :
  mc_replaced m = [mkReplaced data synced covered] -> (synced <= n)%nat -> power_image m (take n data) covered.
Proof. intros E Hn. apply (pi_replaced m (mkReplaced data synced covered)); [rewrite E; by apply list_elem_of_singleton|done]. Qed.

(** *** The invariant *)

Record power_inv (m : Machine) (hist h base tl : list KvWalRecord) : Prop := {
  pw_sys : sys_inv (mc_sys m);
  pw_orphan : mc_orphan m = None;
  pw_history : mc_history m = log_bytes hist;
  pw_fine : log_fine hist;
  pw_active : tracked hist (mc_covered m) (mc_file m) (mc_synced m) h base tl;
  pw_whole : hist = h ++ tl;
  pw_replaced : Forall (fun r => exists h base tl, tracked hist (rp_covered r) (rp_data r) (rp_synced r) h base tl) (mc_replaced m) }.

Definition powered (m : Machine) : Prop := exists hist h base tl, power_inv m hist h base tl.

Lemma tracked_extend hist covered data synced h base tl rs :
  tracked hist covered data synced h base tl -> tracked (hist ++ rs) covered data synced h base tl.
Proof. intros []. split; try done. by apply prefix_app_r. Qed.

(** The state of the power inventory follows the server's own steps. *)
Lemma powered_same m m' hist h base tl :
  power_inv m hist h base tl -> sys_inv (mc_sys m') -> mc_file m' = mc_file m -> mc_orphan m' = None ->
  mc_history m' = mc_history m -> mc_covered m' = mc_covered m -> mc_synced m' = mc_synced m ->
  mc_replaced m' = mc_replaced m -> powered m'.
Proof.
  intros [Hs Ho Hh Hf Ha Hw Hr] Hs' Ef Eo Eh Ec Ey Er. exists hist, h, base, tl.
  split; rewrite ?Ef, ?Eh, ?Ec, ?Ey, ?Er; done.
Qed.

Lemma drop_nothing {A} (l : list A) : drop (length l) l = [].
Proof. by rewrite drop_ge. Qed.

Lemma advance_same y m hist h base tl :
  power_inv m hist h base tl -> sys_inv y -> file (wal (sys_store y)) = mc_file m -> powered (advance y m).
Proof.
  intros P Hs Ef. apply (powered_same m _ hist h base tl P); try done; [apply P|].
  cbn. rewrite Ef, drop_nothing. by apply app_nil_r.
Qed.

(** A command appends its records to the file and to the history. *)
Lemma powered_command c m hist h base tl :
  cmd_ok c (mc_store m) -> power_inv m hist h base tl ->
  powered (advance (mkSys (exec c (mc_store m)) (sys_compaction (mc_sys m))) m).
Proof.
  intros Hc P. pose proof P as [Hs Ho Hh Hf Ha Hw Hr]. destruct (sys_inv_durable _ Hs) as (rs0 & D).
  destruct (rtc_trans_logs _ _ _ _ (exec_trans c _ (proj1 Hs) Hc) (proj1 Hs) (durable_no_faults _ _ D)) as (rs & L & _).
  fold (mc_store m) in L, D.
  assert (sys_step (mc_sys m) (mkSys (exec c (mc_store m)) (sys_compaction (mc_sys m)))) as Hstep
    by (unfold mc_store in *; destruct (mc_sys m); by constructor).
  pose proof (sys_step_inv _ _ Hstep Hs) as Hs'. pose proof (inv_rev _ (proj1 Hs')) as Hn. cbn in Hn.
  assert (log_fine rs) as Frs.
  { split; [apply (lr_records _ _ _ L)|]. eapply Forall_impl; [apply (lr_range _ _ _ L)|]. cbn. intros; lia. }
  exists (hist ++ rs), h, base, (tl ++ rs). destruct Ha as [Hd Hp Hv Hfi Hb Hcv]. split; cbn; try done.
  - rewrite (lr_file _ _ _ L), drop_app_length, Hh. by rewrite log_bytes_app.
  - by apply log_fine_app.
  - unfold mc_file, mc_store at 1. cbn. rewrite (lr_file _ _ _ L). fold (mc_file m). split.
    + by rewrite Hd, <- log_bytes_app, app_assoc.
    + rewrite Hw. by rewrite app_assoc.
    + done.
    + rewrite app_assoc. by apply log_fine_app.
    + rewrite length_app. lia.
    + done.
  - rewrite Hw. by rewrite app_assoc.
  - eapply Forall_impl; [exact Hr|]. intros r (h' & b' & t' & T). eauto using tracked_extend.
Qed.

Lemma sys_inv_dirty b y : sys_inv y -> sys_inv (mkSys (set_wal (set_dirty b (wal (sys_store y))) (sys_store y)) (sys_compaction y)).
Proof.
  assert (forall s rs, durable_by s rs -> durable_by (set_wal (set_dirty b (wal s)) s) rs) as Hd by (intros s rs []; by split).
  destruct y as [s cp]. intros [I D]. split; [by apply inv_set_wal|]. cbn in *. destruct cp as [sn|].
  - destruct D as (rs1 & rs2 & []). exists rs1, rs2. split; auto.
  - destruct D as (rs & D). eauto.
Qed.

(** The swap: the new file shows what the whole history shows, and is synced. *)
Lemma powered_swap m sn fs target s hist h base tl :
  power_inv m hist h base tl -> sys_compaction (mc_sys m) = Some sn -> compact_phase_b fs sn = (target, inl tt) ->
  compact_phase_c sn target (mc_store m) = (s, inl tt) ->
  powered (mkMachine (mkSys s None) (length (file (wal s)))
             (mc_replaced m ++ [mkReplaced (mc_file m) (mc_synced m) (mc_covered m)])
             (mc_orphan m) (mc_fsync m) (mc_history m) (length (mc_history m))).
Proof.
  intros [Hs Ho Hh Hf Ha Hw Hr] Hcp Hb Hc. pose proof Hs as [I D]. rewrite Hcp in D. destruct D as (rs1 & rs2 & So).
  fold (mc_store m) in I, So. destruct (swap_result _ _ _ _ _ _ So Hb) as [E|[e E]]; rewrite E in Hc; [|done].
  injection Hc as <-. destruct Ha as [Hd Hp Hv Hfi Hba Hcv].
  assert (rs1 ++ rs2 = base ++ tl) as Ers.
  { apply log_bytes_inj; [apply So|apply Hfi|]. rewrite <- Hd. symmetry. apply So. }
  assert (sys_inv (mkSys (set_wal (mkWalFile (log_bytes (sn_records sn ++ rs2)) true (faults (wal (mc_store m)))) (mc_store m)) None)) as Hs'.
  { split; [by apply inv_set_wal|]. cbn. eexists. by eapply swapped_durable. }
  assert (log_fine (sn_records sn ++ rs2)) as Fn.
  { pose proof (inv_rev _ I). split; [apply (swapped_durable _ _ _ _ So)|]. eapply Forall_impl; [apply So|]. cbn. intros; lia. }
  exists hist, hist, (sn_records sn ++ rs2), []. split; cbn; try done.
  - unfold mc_file. cbn. split; cbn; rewrite ?app_nil_r; try done.
    + rewrite foldl_app, (so_view _ _ _ _ So), <- foldl_app, Ers, Hw, !foldl_app. by rewrite Hv.
    + by rewrite Hh.
  - by rewrite app_nil_r.
  - apply Forall_app. split; [done|]. constructor; [|constructor]. exists h, base, tl. by split.
Qed.

Lemma power_step_inv l m m' : power_step l m m' -> powered m -> powered m'.
Proof.
  intros [Hok E] (hist & h & base & tl & P). pose proof (pw_sys _ _ _ _ _ P) as Hs. pose proof (pw_orphan _ _ _ _ _ P) as Ho.
  assert (sys_inv (mkSys (mc_store m) None)) as Hnone
    by (split; [apply Hs|exact (sys_inv_durable _ Hs)]).
  destruct l; cbn [power_next power_ok] in *.
  - injection E as <-. by eapply powered_command.
  - destruct (sys_compaction (mc_sys m)) eqn:Ec; [done|]. injection E as <-. eapply advance_same; [done| |done].
    eapply sys_step_inv; [|exact Hs]. unfold mc_store. destruct (mc_sys m) as [s cp]. cbn in *. subst cp. constructor.
  - unfold power_swap in E. destruct (sys_compaction (mc_sys m)) as [sn|] eqn:Ec; [|done].
    destruct (compact_phase_b _ sn) as [target [[]|e]] eqn:Eb.
    + destruct (compact_phase_c sn target (mc_store m)) as [s [[]|e]] eqn:Ep; injection E as <-; [by eapply powered_swap|].
      assert (s = mc_store m) as ->.
      { unfold compact_phase_c in Ep. destruct (wal_tail _ _); [done|]. destruct (write_all _ _) as [? [[]|?]]; naive_solver. }
      by apply (powered_same m _ hist h base tl).
    + injection E as <-. by apply (powered_same m _ hist h base tl).
  - done.
  - injection E as <-. by eapply advance_same.
  - unfold fsync_begin in E. cbn in E. destruct (mc_fsync m); [done|]. injection E as <-.
    apply (powered_same m _ hist h base tl); try done. by apply (sys_inv_dirty false).
  - unfold fsync_done in E. destruct (mc_fsync m); [|done]. injection E as <-.
    destruct P as [_ _ Hh Hf Ha Hw Hr]. exists hist, h, base, tl. split; cbn; try done.
    unfold mc_file, mc_store. cbn. fold (mc_store m) (mc_file m). destruct Ha as [Hd Hp Hv Hfi Hb Hcv]. split; try done; [lia|].
    rewrite Hh, Hw, Hd, !log_bytes_app, !length_app. lia.
  - unfold fsync_failed in E. destruct (mc_fsync m); [|done]. injection E as <-. by apply (powered_same m _ hist h base tl).
  - injection E as <-. destruct P as [_ _ Hh Hf Ha Hw Hr]. exists hist, h, base, tl. split; try done. cbn. by apply Forall_drop.
  - unfold power_restart in E. rewrite Ho in E. cbn [default] in E. destruct (open_store now (mc_file m)) as [s| |] eqn:Eo; [|done..].
    injection E as <-. destruct (sys_inv_durable _ Hs) as (rs & D).
    destruct (reopen (mc_store m) rs now (proj1 Hs) D Hok) as (s2 & E2 & I2 & D2 & _).
    unfold mc_file in Eo. rewrite Eo in E2. injection E2 as <-. apply (powered_same m _ hist h base tl); try done.
    + split; [done|]. by eexists.
    + unfold mc_file, mc_store in *. cbn. by rewrite (du_file _ _ D2), (du_file _ _ D).
Qed.

Lemma machine_init_inv : powered machine_init.
Proof.
  exists [], [], [], []. split; [apply sys_init_inv|done|done|done|by split|done|constructor].
Qed.

Lemma power_run_inv ls m m' : power_run ls m m' -> powered m -> powered m'.
Proof. apply lrun_keeps, power_step_inv. Qed.

Lemma image_tracked m hist h base tl img covered now :
  power_inv m hist h base tl -> power_image m img covered -> clock_ok now ->
  exists k s s0, (covered <= k <= length (log_bytes hist))%nat
    /\ open_store now img = Ok s /\ open_store now (take k (log_bytes hist)) = Ok s0 /\ view (keys s) = view (keys s0).
Proof.
  intros P [n Hn|r n Hr Hn] Hc.
  - by eapply tracked_open; [apply P|..|apply P].
  - pose proof (pw_replaced _ _ _ _ _ P) as Hall. rewrite Forall_forall in Hall. destruct (Hall r Hr) as (h' & b' & t' & T).
    by eapply tracked_open; [apply T|..|apply P].
Qed.

(** *** The dirty flag *)

(** Unless the flag is set or the task is about to sync, the last sync covered the
    whole history. *)
Definition flag_ok (m : Machine) : Prop :=
  dirty (wal (mc_store m)) = false -> mc_fsync m = false -> mc_covered m = length (mc_history m).

Definition never_lost (l : PowerLabel) : Prop := match l with PwFsyncFailed | PwRestart _ => False | _ => True end.

(** Whatever grows the log raises the flag, and only the task lowers it. *)
Definition raises (s s' : StoreState) : Prop :=
  dirty (wal s') = true \/ file (wal s') = file (wal s) /\ dirty (wal s') = dirty (wal s).

Lemma raises_trans s s1 s' : raises s s1 -> raises s1 s' -> raises s s'.
Proof. unfold raises. intros [T1|[E1 D1]] [T2|[E2 D2]]; rewrite ?E2, ?D2, ?E1, ?D1; eauto. Qed.

Lemma trans_raises b floor s s' : wtrans b floor s s' -> faults (wal s) = [] -> raises s s'.
Proof.
  intros T Hno. destruct T as [Hn|key value lease w Hf Hl Hn Hfl Hw|ks w Hnd Ha Hn Hfl Hw|w Hw|s' Ek En Ec Ew _ _ Hr|ws _];
    try by right.
  - left. by apply append_kv_ok in Hw as (_ & Hd & _).
  - left. apply append_kv_batch_ok in Hw as (_ & Hd & _).
    destruct (keys_deletes (next_rev s - 1) ks (set_wal w s)) as [_ ->]. done.
  - right. by rewrite Ew.
Qed.

Lemma rtc_trans_raises b floor s s' : rtc (wtrans b floor) s s' -> inv s -> faults (wal s) = [] -> raises s s'.
Proof.
  induction 1 as [s|s s1 s' T Ht IH]; intros I Hno; [by right|].
  destruct (trans_logs _ _ _ _ T I Hno) as (rs1 & (_ & Hno1 & _) & _).
  eapply raises_trans; [by eapply trans_raises|]. apply IH; [by eapply trans_inv|done].
Qed.

Lemma flag_raises m y :
  flag_ok m -> raises (mc_store m) (sys_store y) -> flag_ok (advance y m).
Proof.
  intros F R Hd Hf. cbn in *. unfold mc_store in Hd. cbn in Hd. destruct R as [R|[Ef Ed]]; [congruence|].
  rewrite Ef, drop_nothing, app_nil_r. apply F; [congruence|done].
Qed.

Lemma flag_step l m m' : power_step l m m' -> never_lost l -> powered m -> flag_ok m -> flag_ok m'.
Proof.
  intros [Hok E] Hl (hist & h & base & tl & P) F. pose proof (pw_sys _ _ _ _ _ P) as Hs.
  destruct l; cbn [power_next power_ok never_lost] in *; try done.
  - injection E as <-. apply flag_raises; [done|]. destruct (sys_inv_durable _ Hs) as (rs0 & D).
    eapply rtc_trans_raises; [by apply exec_trans; [apply Hs|]|apply Hs|by eapply durable_no_faults].
  - destruct (sys_compaction (mc_sys m)); [done|]. injection E as <-. apply flag_raises; [done|by right].
  - unfold power_swap in E. destruct (sys_compaction (mc_sys m)) as [sn|]; [|done].
    destruct (compact_phase_b _ sn) as [target [[]|e]]; [|by injection E as <-].
    unfold compact_phase_c in E. destruct (wal_tail _ _); [injection E as <-; by intros|].
    destruct (write_all _ _) as [t [[]|e]]; injection E as <-; [by intros|done].
  - injection E as <-. apply flag_raises; [done|by right].
  - unfold fsync_begin in E. cbn in E. destruct (mc_fsync m) eqn:Ef; [done|]. injection E as <-. intros _ Hd. by apply F.
  - unfold fsync_done in E. destruct (mc_fsync m); [|done]. by injection E as <-.
  - injection E as <-. exact F.
Qed.

Lemma flag_run ls m m' :
  power_run ls m m' -> Forall never_lost ls -> powered m -> flag_ok m -> flag_ok m'.
Proof.
  induction 1 as [|l ls m m1 m' T R IH]; [done|]. intros [Hl Hls]%Forall_cons P F.
  eauto using flag_step, power_step_inv.
Qed.

End SyncProofs.

(** ** Properties *)

Section Properties.
Context `{Crc32c} `{KvDecoder} `{UnstableSort}.

(** C2. Power failure. Take any run of the server with well-sized commands, log
    compactions whose renamed file can be opened again, restarts, syncs that succeed
    or fail, and a file system that writes the directory when it pleases. If the
    power fails, whatever is then found at the log's path opens without an error, and
    shows exactly the keys, values, revisions and leases that a server that never
    compacts would show after a prefix of everything it logged. The prefix contains
    at least what the last completed sync of that file covered; and that file is the
    one the server writes to, unless a rename has not reached the directory on the
    medium, in which case it may be a file that was replaced since. *)
Theorem power_loss_recovery ls m img covered now :
  power_run ls machine_init m -> power_image m img covered -> clock_ok now ->
  (exists k s s0, (covered <= k <= length (mc_history m))%nat
    /\ open_store now img = Ok s /\ open_store now (take k (mc_history m)) = Ok s0
    /\ view (keys s) = view (keys s0))
  /\ (mc_replaced m = [] -> covered = mc_covered m).
Proof.
  intros R Him Hc. destruct (power_run_inv ls _ _ R machine_init_inv) as (hist & h & base & tl & P).
  rewrite (pw_history _ _ _ _ _ P). split; [by eapply image_tracked|].
  intros E. destruct Him as [|r n Hr]; [done|]. rewrite E in Hr. by apply not_elem_of_nil in Hr.
Qed.

(** C23. A clean flag is honest. As long as no sync fails and the process is not
    restarted, when the dirty flag is clear, the task is not about to sync, and the
    renames of past compactions have reached the directory on the medium, a power
    failure loses nothing: what is found at the log's path opens to exactly the live
    keys, values, revisions and leases the server has in memory. *)
Theorem clean_flag_loses_nothing ls m img covered now :
  power_run ls machine_init m -> Forall never_lost ls ->
  dirty (wal (mc_store m)) = false -> mc_fsync m = false -> mc_replaced m = [] ->
  power_image m img covered -> clock_ok now ->
  exists s, open_store now img = Ok s /\ view (keys s) = view (keys (mc_store m)).
Proof.
  intros R Hls Hd Hf Hrep Him Hc.
  assert (covered = mc_covered m) as -> by (destruct Him as [|r n Hr]; [done|]; rewrite Hrep in Hr; by apply not_elem_of_nil in Hr).
  destruct (power_run_inv ls _ _ R machine_init_inv) as (hist & h & base & tl & P).
  destruct (image_tracked m hist h base tl img _ now P Him Hc) as (k & s & s0 & Hk & Eo & Eo' & Ev). exists s. split; [done|].
  assert (flag_ok m) as F by (by eapply flag_run; [done..|apply machine_init_inv|]).
  rewrite (F Hd Hf), (pw_history _ _ _ _ _ P) in Hk. rewrite take_ge in Eo' by lia.
  destruct (pw_fine _ _ _ _ _ P) as [R0 Hr]. destruct (open_store_log now _ hist [] R0 ltac:(by left) (clock_instant now Hc) Hr) as (s1 & E1 & Ek & _).
  rewrite app_nil_r, Eo' in E1. injection E1 as <-. rewrite Ev, Ek, view_fold by done.
  destruct (sys_inv_durable _ (pw_sys _ _ _ _ _ P)) as (rs & D). fold (mc_store m) in D.
  destruct (pw_active _ _ _ _ _ P) as [Hdt _ Hv Hfi _ _].
  assert (rs = base ++ tl) as -> by (apply log_bytes_inj; [apply D|apply Hfi|]; rewrite <- Hdt; symmetry; apply D).
  rewrite (du_view _ _ D), (pw_whole _ _ _ _ _ P), !foldl_app. change (view ∅) with (∅ : gmap (list Byte.byte) Live). by rewrite Hv.
Qed.

End Properties.

#[local] Existing Instance bitwise_crc.
#[local] Existing Instance ref_decoder.
#[local] Existing Instance merge_sort_impl.

(** *** Concrete runs *)

Abbreviation ran ls := (lend power_next ls machine_init).

(** A write, a sync, and a compaction with writes on both sides of its snapshot. *)
Definition demo_power : list PowerLabel :=
  [PwCommand (CmdPut (put_req "a" "1")); PwFsyncBegin; PwFsyncDone; PwCommand (CmdPut (put_req "a" "2")); PwSnapshot;
   PwCommand (CmdPut (put_req "b" "1")); PwSwap []; PwCommand (CmdPut (put_req "c" "1"))].

Lemma demo_power_run : power_run demo_power machine_init (ran demo_power).
Proof. apply lend_run; [by_running|vm_compute; eauto]. Qed.

(** The power fails while the rename and the last writes are in the page cache: the
    old file comes back, torn in its third record. *)
Lemma demo_image : power_image (ran demo_power) (take 100 (mc_file (ran (take 6 demo_power)))) 44.
Proof. apply (image_of_replaced _ _ 44); [by vm_compute|lia]. Qed.

Lemma power_loss_recovery_witness :
  exists k s s0, (44 <= k <= length (mc_history (ran demo_power)))%nat
    /\ open_store 0 (take 100 (mc_file (ran (take 6 demo_power)))) = Ok s
    /\ open_store 0 (take k (mc_history (ran demo_power))) = Ok s0 /\ view (keys s) = view (keys s0).
Proof.
  destruct (power_loss_recovery demo_power (ran demo_power) _ 44 0 demo_power_run demo_image (conj (Z.le_refl 0) eq_refl)) as [Hk _].
  exact Hk.
Defined.

(** The same run, synced once more, and the directory written. *)
Definition demo_synced : list PowerLabel := demo_power ++ [PwFsyncBegin; PwFsyncDone; PwDirectory 1].

Lemma demo_synced_run :
  power_run demo_synced machine_init (ran demo_synced) /\ dirty (wal (mc_store (ran demo_synced))) = false
  /\ mc_fsync (ran demo_synced) = false /\ mc_replaced (ran demo_synced) = [].
Proof. split; [apply lend_run; [by_running|vm_compute; eauto]|by vm_compute]. Qed.

Lemma demo_synced_labels : Forall never_lost demo_synced.
Proof. by repeat constructor. Qed.

Lemma clean_flag_loses_nothing_witness :
  exists s, open_store 0 (take (mc_synced (ran demo_synced)) (mc_file (ran demo_synced))) = Ok s
    /\ view (keys s) = view (keys (mc_store (ran demo_synced))).
Proof.
  destruct demo_synced_run as (R & Hd & Hf & Hr).
  exact (clean_flag_loses_nothing demo_synced (ran demo_synced) _ _ 0 R demo_synced_labels Hd Hf Hr
    (pi_active _ _ (le_n _)) (conj (Z.le_refl 0) eq_refl)).
Defined.

(** *** What the theorems exclude *)

Definition shown (img : list Byte.byte) : list (list Byte.byte * list Byte.byte) :=
  match open_store 0 img with Ok s => (fun e => (e.1, ks_value e.2)) <$> btree_iter (keys s) | _ => [] end.

(** Nothing syncs the directory. As long as a rename has not reached the medium, a
    write synced after the compaction can vanish with it. *)
Example rename_not_committed :
  let m := ran [PwSnapshot; PwSwap []; PwCommand (CmdPut (put_req "a" "1")); PwFsyncBegin; PwFsyncDone] in
  mc_covered m = length (mc_history m) /\ shown (mc_file m) = [(lit "a", lit "1")] /\ power_image m [] 0.
Proof.
  split; [by vm_compute|]. split; [by vm_compute|].
  apply (image_of_replaced _ [] 0 0 0); [by vm_compute|done].
Qed.

(** The flag is cleared before the sync and not raised again when the sync fails. *)
Example failed_sync_forgotten :
  let m := ran [PwCommand (CmdPut (put_req "a" "1")); PwFsyncBegin; PwFsyncFailed] in
  dirty (wal (mc_store m)) = false /\ mc_fsync m = false /\ shown (mc_file m) = [(lit "a", lit "1")] /\ mc_synced m = O.
Proof. by vm_compute. Qed.

(** A new process starts with a clear flag, whatever the old one left unsynced. *)
Example restart_forgets_dirty :
  let m := ran [PwCommand (CmdPut (put_req "a" "1")); PwRestart 0] in
  dirty (wal (mc_store m)) = false /\ shown (mc_file m) = [(lit "a", lit "1")] /\ mc_synced m = O.
Proof. by vm_compute. Qed.

(** When the renamed file cannot be opened the server goes on writing to the file it
    replaced, and a restart loses those writes. *)
Example reopen_failure_orphans_log :
  let before := [PwCommand (CmdPut (put_req "a" "1")); PwSnapshot; PwSwapReopenFails []; PwCommand (CmdPut (put_req "b" "2"))] in
  shown (mc_file (ran before)) = [(lit "a", lit "1"); (lit "b", lit "2")]
  /\ shown (mc_file (ran (before ++ [PwRestart 0]))) = [(lit "a", lit "1")].
Proof. split; by vm_compute. Qed.

End Sync.
