(* ===== verification/ReadProps.v ===== *)
(** * What reads return

    [Store::range] and [range_current] against a declarative reading: the live
    entries of the bound that pass the revision filters, ordered as requested and
    cut at the limit; and every way a read can fail. *)
From S2P Require Import Prelude Varint KvCodec Wire Crc WalRecord Proto Range SortKvs State Store.
From S2P Require Import Historical Txn Recovery Background System Replay Durability.
Local Open Scope Z_scope.

Module ReadProps.
Import KvCodec Wire Crc Wal Proto Range SortKvs State Store Historical Txn Recovery Background System Replay Durability.

(** ** The declarative reading *)

(** The order [sort_order]/[sort_target] ask for; the input is in key order. *)
Definition ordered (order target : Z) (kvs : list (list Byte.byte)) : list (list Byte.byte) :=
  if negb (order =? ASCEND) && negb (order =? DESCEND) then kvs
  else if target =? T_KEY then (if order =? DESCEND then reverse kvs else kvs)
  else if by_field target then merge_sort (cmp_le (blob_cmp (order =? DESCEND) target)) kvs
  else kvs.

Definition limited {A} (limit : Z) (l : list A) : list A :=
  if 0 <? limit then take (Z.to_nat limit) l else l.

Definition req_bound (req : RangeRequest) : RangeBound := resolve_range (rr_key req) (rr_range_end req).

(** The live entries the request selects, in key order. *)
Definition selected (req : RangeRequest) (m : gmap (list Byte.byte) KeyState)
    : list (list Byte.byte * KeyState) :=
  base.filter (fun e => is_alive e.2 = true /\ revision_filters req e.2 = true) (in_range (req_bound req) m).

Definition result_kv (req : RangeRequest) (e : list Byte.byte * KeyState) : list Byte.byte :=
  if rr_keys_only req then keys_only_blob e.1 else ks_kv_bytes e.2.

(** A client's answer for a selection of blobs. *)
Definition answer (header : ResponseHeader) (req : RangeRequest) (kvs : list (list Byte.byte)) : RangeResponse :=
  let count := Z.of_nat (length kvs) in
  if rr_count_only req then mkRangeResponse (Some header) [] false count
  else mkRangeResponse (Some header)
    (limited (rr_limit req) (ordered (rr_sort_order req) (rr_sort_target req) kvs))
    ((0 <? rr_limit req) && (rr_limit req <? count)) count.

(** ** Sorting, then cutting *)

Lemma ordered_length order target kvs : length (ordered order target kvs) = length kvs.
Proof.
  unfold ordered. repeat case_match; rewrite ?length_reverse; try done.
  apply Permutation_length, merge_sort_Permutation.
Qed.

Lemma kept_enough n limit : 0 < limit -> (Z.to_nat limit <= n -> Z.to_nat limit <= kept n limit)%nat.
Proof. intros Hl Hn. unfold kept. destruct (_ && _); lia. Qed.

Lemma kept_all n limit : limit <= 0 \/ Z.of_nat n <= limit -> limit < 2 ^ 64 -> kept n limit = n.
Proof.
  intros Hl Hm. unfold kept, saturating_mul64.
  destruct (Z.ltb_spec 0 limit), (Z.leb_spec (Z.min (limit * 64) (2 ^ 64 - 1)) (Z.of_nat n)); cbn; lia.
Qed.

Section Reads.
Context `{UnstableSort}.

Lemma sort_kvs_ordered kvs order target limit :
  Z.of_nat (length kvs) < 2 ^ 32 -> distinct_keys kvs ->
  exists m, sort_kvs kvs order target limit = take m (ordered order target kvs)
    /\ (m = kept (length kvs) limit \/ m = length kvs).
Proof.
  intros Hl Hk. destruct (by_field target) eqn:Ef.
  - destruct (decide (order = ASCEND \/ order = DESCEND)) as [Ho|Ho].
    + exists (kept (length kvs) limit). split; [|by left]. rewrite sort_kvs_by_field by done. f_equal.
      unfold ordered. rewrite Ef.
      replace (negb (order =? ASCEND) && negb (order =? DESCEND)) with false by by destruct Ho; subst.
      assert ((target =? T_KEY) = false) as ->; [|done].
      unfold by_field, T_CREATE, T_MOD, T_VERSION, T_VALUE, T_KEY in *. lia.
    + exists (length kvs). split; [|by right]. unfold sort_kvs, ordered.
      replace (negb (order =? ASCEND) && negb (order =? DESCEND)) with true by (unfold ASCEND, DESCEND in *; lia).
      by rewrite take_ge.
  - exists (length kvs). split; [|by right]. rewrite <- (ordered_length order target kvs), take_ge by done.
    unfold sort_kvs, ordered. rewrite Ef. repeat case_match; try done;
    unfold by_field, T_CREATE, T_MOD, T_VERSION, T_VALUE in *; lia.
Qed.

(** [sort_kvs] with its limit hint, then [truncate], is the declarative order cut
    at the limit. *)
Lemma sort_truncate kvs order target limit :
  Z.of_nat (length kvs) < 2 ^ 32 -> distinct_keys kvs -> limit < 2 ^ 63 ->
  let r := sort_kvs kvs order target (if 0 <? limit then limit else 0) in
  (if (0 <? limit) && (limit <? Z.of_nat (length kvs)) then take (Z.to_nat limit) r else r)
  = limited limit (ordered order target kvs).
Proof.
  intros Hl Hk Hm r. subst r. unfold limited.
  destruct (sort_kvs_ordered kvs order target (if 0 <? limit then limit else 0) Hl Hk) as (m & -> & Hmk).
  pose proof (ordered_length order target kvs) as Hol.
  destruct (Z.ltb_spec 0 limit); cbn [andb].
  - destruct (Z.ltb_spec limit (Z.of_nat (length kvs))).
    + rewrite take_take. f_equal. pose proof (kept_enough (length kvs) limit). lia.
    + rewrite kept_all in Hmk by lia. rewrite !take_ge by lia. done.
  - rewrite kept_all in Hmk by lia. rewrite take_ge by lia. done.
Qed.

Lemma truncate_take {A} n (l : list A) : truncate n l = take (Z.to_nat n) l.
Proof. unfold truncate. destruct (Z.ltb_spec n (Z.of_nat (length l))); [done|]. rewrite take_ge; [done|lia]. Qed.

(** The same with the hint and the cut of the merged historical path. *)
Lemma sort_take kvs order target limit :
  Z.of_nat (length kvs) < 2 ^ 32 -> distinct_keys kvs -> limit < 2 ^ 63 ->
  let hint := if 0 <? limit then limit else usize_max in
  truncate hint (sort_kvs kvs order target hint) = limited limit (ordered order target kvs).
Proof.
  intros Hl Hk Hm hint. rewrite truncate_take. unfold limited.
  destruct (sort_kvs_ordered kvs order target hint Hl Hk) as (m & -> & Hmk).
  pose proof (ordered_length order target kvs) as Hol. subst hint.
  destruct (Z.ltb_spec 0 limit).
  - destruct (decide (limit < Z.of_nat (length kvs))).
    + rewrite take_take. f_equal. pose proof (kept_enough (length kvs) limit). lia.
    + rewrite kept_all in Hmk by lia. rewrite !take_ge; rewrite ?length_take; lia || done.
  - unfold usize_max in *. rewrite kept_all in Hmk by lia. rewrite !take_ge; rewrite ?length_take; lia || done.
Qed.

(** ** The selected entries *)

Lemma range_loop_filter req prefix l :
  range_loop req prefix l
  = result_kv req <$> base.filter (fun e => is_alive e.2 = true /\ revision_filters req e.2 = true)
      (take_while (fun e => negb (past_prefix prefix e.1)) l).
Proof.
  induction l as [|[k ks] l IH]; [done|]. cbn [range_loop take_while fst].
  destruct (past_prefix prefix k); [done|]. cbn [negb]. rewrite filter_cons. cbn [snd]. unfold is_alive.
  destruct (ks_delete_revision ks =? 0), (revision_filters req ks); cbn [negb];
    case_decide; rewrite ?IH; (done || by intuition).
Qed.

Lemma keys_only_blob_kv key : keys_only_blob key = kv_blob key [] 0 0 0 0.
Proof. unfold keys_only_blob. by rewrite encode_kv_offsets. Qed.

Lemma result_kv_key nr req k ks : ks_ok nr k ks -> f_key <$> parse_kv (result_kv req (k, ks)) = Some k.
Proof.
  intros [Hf _ _ _ _ _ (cr & ver & Eb)]. pose proof (kv_fits_sizes _ _ Hf) as [Hk Hv].
  unfold result_kv. cbn [fst snd]. destruct (rr_keys_only req).
  - rewrite keys_only_blob_kv, parse_kv_blob; [done|]. split; [done|]. unfold is_u32. cbn. lia.
  - by rewrite Eb, parse_kv_blob.
Qed.

Lemma results_distinct nr req l :
  Forall (fun e => ks_ok nr e.1 e.2) l -> NoDup l.*1 -> distinct_keys (result_kv req <$> l).
Proof.
  intros Hok Hnd.
  assert ((fun b => f_key <$> parse_kv b) <$> (result_kv req <$> l) = Some <$> l.*1) as E.
  { rewrite <- !list_fmap_compose. apply list_fmap_ext. intros i [k ks] Hi. cbn.
    eapply Forall_lookup_1 in Hok; [|done]. by eapply result_kv_key. }
  split; [|rewrite E; by apply NoDup_fmap_2; [apply _|]].
  apply Forall_forall. intros b ([k ks] & -> & Hin)%list_elem_of_fmap.
  eapply Forall_forall in Hok; [|done]. pose proof (result_kv_key nr req k ks Hok) as Ek.
  by destruct (parse_kv (result_kv req (k, ks))).
Qed.

Lemma selected_sublist req m : (selected req m).*1 `sublist_of` (btree_iter m).*1.
Proof. etrans; [apply filter_sublist_fst|apply filter_sublist_fst]. Qed.

Lemma elem_of_selected req m k ks :
  (k, ks) ∈ selected req m <->
  m !! k = Some ks /\ matches_range (req_bound req) k = true /\ is_alive ks = true /\ revision_filters req ks = true.
Proof. unfold selected. rewrite list_elem_of_filter, elem_of_in_range. cbn. tauto. Qed.

Lemma selected_distinct s req : inv s -> distinct_keys (result_kv req <$> selected req (keys s)).
Proof.
  intros I. apply (results_distinct (next_rev s)).
  - apply Forall_forall. intros [k ks] (Hk & _)%elem_of_selected. by apply (inv_keys s I).
  - eapply sublist_NoDup; [apply (btree_iter_NoDup (keys s))|apply selected_sublist].
Qed.

Lemma selected_length req m : (length (selected req m) <= size m)%nat.
Proof.
  rewrite <- (length_fmap fst), <- btree_iter_length, <- (length_fmap fst (btree_iter m)).
  apply sublist_length, selected_sublist.
Qed.

Lemma ordered_short order target kvs : (length kvs <= 1)%nat -> ordered order target kvs = kvs.
Proof. destruct kvs as [|x [|]]; cbn; try lia; intros _; unfold ordered; by repeat case_match. Qed.

Lemma limited_short {A} limit (l : list A) : (length l <= 1)%nat -> limited limit l = l.
Proof. intros Hl. unfold limited. destruct (Z.ltb_spec 0 limit); [|done]. apply take_ge. lia. Qed.

(** The point path is the general answer on at most one entry. *)
Lemma range_point_answer s req k :
  req_bound req = Point k ->
  range_point s req k = answer (state_header s) req (result_kv req <$> selected req (keys s)).
Proof.
  intros Hb.
  assert (result_kv req <$> selected req (keys s)
    = match keys s !! k with
      | Some ks => if (ks_delete_revision ks =? 0) && revision_filters req ks
                   then [if rr_keys_only req then keys_only_blob k else ks_kv_bytes ks] else []
      | None => [] end) as ->.
  { unfold selected. rewrite Hb, filter_point. destruct (keys s !! k) as [ks|]; [|done].
    rewrite filter_cons, filter_nil. cbn [snd]. unfold is_alive.
    destruct (ks_delete_revision ks =? 0), (revision_filters req ks); cbn [andb];
      case_decide; (done || by intuition). }
  unfold range_point, answer.
  match goal with |- context [length ?l] => assert (length l <= 1)%nat as Hl by (repeat case_match; cbn; lia);
    generalize dependent l end.
  intros l Hl. destruct (rr_count_only req); [done|]. rewrite ordered_short, limited_short by done. f_equal.
  destruct (Z.ltb_spec 0 (rr_limit req)); [|done]. cbn. symmetry. apply Z.ltb_ge. lia.
Qed.

(** What [range_current] needs not to panic: a proper range and a capacity the
    allocator accepts. *)
Definition range_safe (s : StoreState) (req : RangeRequest) : Prop :=
  inverted (req_bound req) = false /\ rr_limit req * 32 < 2 ^ 63 /\ Z.of_nat (size (keys s)) < 2 ^ 32.

Lemma range_current_answer s req :
  inv s -> range_safe s req ->
  range_current s req = Ok (answer (state_header s) req (result_kv req <$> selected req (keys s))).
Proof.
  intros I (Hinv & Hcap & Hsz). unfold range_current. fold (req_bound req).
  destruct (req_bound req) eqn:Eb; try (rewrite <- Eb in * );
    [|by rewrite (range_point_answer s req k)|..].
  all: assert (with_capacity (if 0 <? rr_limit req then rr_limit req else Z.of_nat (size (keys s))) = Ok tt) as ->
    by (unfold with_capacity; destruct (Z.ltb_spec 0 (rr_limit req)); by rewrite (proj2 (Z.ltb_lt _ _)) by lia).
  all: cbn [outcome_bind].
  all: assert (range_bounds (req_bound req) = Ok (btree_bounds (req_bound req))) as -> by by rewrite Eb.
  all: cbn [outcome_bind]; destruct (bounds_iter s (btree_bounds (req_bound req))) as [it|err|why] eqn:Eit;
    [|by rewrite bounds_iter_ok in Eit..].
  all: cbn [outcome_bind]; rewrite range_loop_filter, (bounds_iter_matches _ _ _ Eit).
  all: fold (selected req (keys s)); unfold answer; destruct (rr_count_only req); [done|].
  all: f_equal; f_equal; apply sort_truncate; [|by apply selected_distinct|lia].
  all: rewrite length_fmap; pose proof (selected_length req (keys s)); lia.
Qed.

(** ** Properties *)

(** C19. Reads of the current state. A range request for the current revision
    answers with exactly the live keys of the requested range that pass the
    revision filters, in the requested order and cut at the limit, together with
    the full count, and touches nothing else. *)
Theorem range_current_correct `{Crc32c} s req :
  inv s -> rr_key req <> [] -> rr_revision req <= 0 -> range_safe s req ->
  range s req = Ok (answer (state_header s) req (result_kv req <$> selected req (keys s)))
  /\ forall k ks, (k, ks) ∈ selected req (keys s) <->
       keys s !! k = Some ks /\ matches_range (req_bound req) k = true
       /\ is_alive ks = true /\ revision_filters req ks = true.
Proof.
  intros I Hk Hr Hs. split; [|intros; apply elem_of_selected]. unfold range, range_locks.
  destruct (rr_key req) as [|b key] eqn:Ek; [done|]. cbn [check_key outcome_bind].
  assert ((0 <? rr_revision req) = false) as -> by lia. cbn [Z.ltb andb].
  rewrite (proj2 (Z.ltb_ge (current_revision s) 0)) by (unfold current_revision; lia).
  cbn. by apply range_current_answer.
Qed.

(** Inverted ranges. A current read or a deletion whose range end lies below
    its start never answers: [BTreeMap::range] panics on every state. *)
Theorem inverted_range_panics `{Crc32c} s req dreq :
  rr_key req <> [] -> rr_revision req <= 0 -> rr_limit req * 32 < 2 ^ 63 ->
  Z.of_nat (size (keys s)) < 2 ^ 32 -> inverted (req_bound req) = true ->
  dr_key dreq = rr_key req -> dr_range_end dreq = rr_range_end req ->
  let boom := "range start is greater than range end in BTreeMap"%string in
  range s req = Panic boom /\ (delete_range dreq s).2 = Panic boom.
Proof.
  intros Hk Hr Hcap Hsz Hi Ek Ee boom. unfold req_bound in Hi. split.
  - unfold range, range_locks. destruct (rr_key req) as [|c key] eqn:Ekey; [done|]. cbn [check_key outcome_bind].
    assert ((0 <? rr_revision req) = false) as -> by lia. cbn [Z.ltb andb].
    rewrite (proj2 (Z.ltb_ge (current_revision s) 0)) by (unfold current_revision; lia).
    cbn. unfold range_current. rewrite Ekey.
    destruct (resolve_range (c :: key) (rr_range_end req)) as [| | | |x y] eqn:E; try done.
    assert (with_capacity (if 0 <? rr_limit req then rr_limit req else Z.of_nat (size (keys s))) = Ok tt) as ->
      by (unfold with_capacity; destruct (Z.ltb_spec 0 (rr_limit req)); by rewrite (proj2 (Z.ltb_lt _ _)) by lia).
    cbn [outcome_bind range_bounds]. pose proof (bounds_iter_inverted s (Range x y) Hi) as Hp.
    cbn [btree_bounds] in Hp. by rewrite Hp.
  - unfold delete_range, bind, lift. rewrite Ek. destruct (rr_key req) as [|c key] eqn:Ekey; [done|].
    cbn [check_key alloc_revision]. unfold delete_range_at, bind, get, lift. rewrite Ek, Ee.
    destruct (resolve_range (c :: key) (rr_range_end req)) as [| | | |x y] eqn:E; try done.
    cbn [keys_to_delete].
    pose proof (bounds_iter_inverted (set_next_rev (next_rev s + 1) s) (Range x y) Hi) as Hp.
    cbn [btree_bounds bounds_iter keys set_next_rev] in Hp. unfold alloc_revision. cbn -[btree_range]. by rewrite Hp.
Qed.

End Reads.

#[local] Existing Instance bitwise_crc.
#[local] Existing Instance ref_decoder.
#[local] Existing Instance merge_sort_impl.

Lemma demo_inv : inv (run demo fresh).
Proof. exact (proj1 (run_logs demo demo_ok)). Qed.

(** A descending read by value of the whole key space of the demo run, cut at one. *)
Definition top_value : RangeRequest :=
  mkRange (lit "a") (lit "z") 1 0 DESCEND T_VALUE false false 0 0 0 0.

Lemma range_current_correct_witness :
  range (run demo fresh) top_value
  = Ok (answer (state_header (run demo fresh)) top_value (result_kv top_value <$> selected top_value (keys (run demo fresh)))).
Proof.
  apply (range_current_correct (run demo fresh) top_value).
  - exact demo_inv.
  - vm_compute. congruence.
  - vm_compute. congruence.
  - split; [by vm_compute|]. by vm_compute.
Defined.

Lemma inverted_range_panics_witness :
  range (run demo fresh) (range_req (lit "m") (lit "b") 0)
  = Panic "range start is greater than range end in BTreeMap".
Proof.
  apply (inverted_range_panics (run demo fresh) (range_req (lit "m") (lit "b") 0)
           (mkDelete (lit "m") (lit "b") false)); by vm_compute.
Defined.

(** A limit near [i64::MAX] is passed to [Vec::with_capacity] unchecked. *)
Example huge_limit_panics :
  range (run demo fresh) (mkRange (lit "a") (lit "z") (2 ^ 63 - 1) 0 0 0 false false 0 0 0 0)
  = Panic "capacity overflow".
Proof. by vm_compute. Qed.

End ReadProps.
