(* ===== verification/HistRead.v ===== *)
(** * Correctness of historical reads

    The abstract multi-version store is the log: [state_at t] folds the records
    up to revision [t]. A read at [t] must answer from that map. The entry kept in
    memory decides most keys without the WAL; [at_rev_spec] says what it knows
    about the past of its key. *)
From S2P Require Import Prelude Varint KvCodec Wire Crc WalRecord Proto Range SortKvs State Store.
From S2P Require Import Historical Txn Recovery Background System Replay Durability ReadProps.
Local Open Scope Z_scope.

Module HistRead.
Import KvCodec Wire Crc Wal Proto Range SortKvs State Store Historical Txn Recovery Background System Replay
  Durability ReadProps.

Section History.
Context `{Crc32c} `{KvDecoder} `{UnstableSort}.

(** ** The abstract store at a revision *)

Definition record_at (t : Z) (st : gmap (list Byte.byte) bytes) (r : KvWalRecord)
    : gmap (list Byte.byte) bytes :=
  if record_rev r <=? t
  then if record_deleted r then delete (r_key r) st else <[r_key r := kv_bytes r]> st
  else st.

Definition state_at (t : Z) (rs : list KvWalRecord) : gmap (list Byte.byte) bytes :=
  foldl (record_at t) ∅ rs.

(** No key of the bound is written again after it was deleted. *)
Definition single_lifetime (P : list Byte.byte -> Prop) (rs : list KvWalRecord) : Prop :=
  forall i j ri rj, (i < j)%nat -> rs !! i = Some ri -> rs !! j = Some rj ->
  r_key ri = r_key rj -> P (r_key ri) -> record_deleted ri = true -> record_deleted rj = true.

(** What the in-memory entry of a key says about its value at [t]. *)
Definition at_rev_spec (t : Z) (e : option KeyState) (v : option (list Byte.byte)) : Prop :=
  match e with
  | None => v = None
  | Some ks =>
      ks_rebirth ks = false /\
      if t <? ks_create_revision ks then v = None
      else if negb (ks_delete_revision ks =? 0) && (ks_delete_revision ks <=? t) then v = None
      else if ks_mod_revision ks <=? t then v = Some (ks_kv_bytes ks)
      else is_Some v
  end.

Lemma store_record_key r : store_record r -> rec_key r = Ok (Some (r_key r)).
Proof. intros (fl & a & G). unfold r_key. by destruct (genuine_facts _ _ _ G) as (_ & -> & _). Qed.

(** A record changes the entry of its own key only. *)
Lemma keys_record_ne m r k : store_record r -> r_key r <> k -> keys_record m r !! k = m !! k.
Proof.
  intros R Hne. pose proof (store_record_key r R) as Ek. destruct R as (fl & a & G).
  destruct (genuine_facts _ _ _ G) as (_ & Ek' & _ & _ & _ & Ed). rewrite Ek in Ek'. injection Ek' as Eka.
  unfold keys_record. rewrite Ek, Ed. destruct (record_deleted r).
  - unfold del_keys. destruct (alive_in m (r_key r)); [by rewrite lookup_insert_ne|done].
  - unfold put_keys. cbn. rewrite <- Eka. by rewrite lookup_insert_ne.
Qed.

Lemma keys_record_put m r :
  store_record r -> record_deleted r = false ->
  exists value lease, keys_record m r !! r_key r
    = Some (put_entry m (r_key r) value lease (record_rev r) (Some (kv_bytes r))).
Proof.
  intros R Hd. pose proof (store_record_key r R) as Ek. destruct R as (fl & a & G).
  destruct (genuine_facts _ _ _ G) as (_ & Ek' & _ & _ & _ & Ed). rewrite Ek in Ek'. injection Ek' as Eka.
  exists (a_value a), (a_lease a). unfold keys_record. rewrite Hd, Ed. unfold put_keys. cbn [kv_key kv_value kv_lease].
  by rewrite <- Eka, lookup_insert_eq.
Qed.

Lemma keys_record_del m r :
  store_record r -> record_deleted r = true -> keys_record m r = del_keys m (r_key r) (record_rev r).
Proof. intros R Hd. unfold keys_record. by rewrite Hd, (store_record_key r R). Qed.

(** Revisions stored in an entry are bounded by those of the log. *)
Definition bounded (n : Z) (ks : KeyState) : Prop :=
  ks_create_revision ks <= ks_mod_revision ks <= n /\ ks_delete_revision ks <= n.

Lemma keys_record_bounded m r n :
  store_record r -> map_Forall (fun _ => bounded n) m -> n <= record_rev r ->
  map_Forall (fun _ => bounded (record_rev r)) (keys_record m r).
Proof.
  intros R Hm Hn. pose proof (store_record_rev r R) as Hr.
  assert (map_Forall (fun _ => bounded (record_rev r)) m) as Hm'
    by (eapply map_Forall_impl; [apply Hm|]; unfold bounded; cbn; intros; lia).
  destruct (record_deleted r) eqn:Ed.
  - rewrite keys_record_del by done. unfold del_keys.
    destruct (alive_in m (r_key r)) as [p|] eqn:E; [|done]. apply alive_in_Some in E as [E _].
    apply map_Forall_insert_2; [|done]. pose proof (Hm' _ _ E) as Hb. unfold bounded in *. cbn. lia.
  - intros k ks Hk. destruct (decide (r_key r = k)) as [<-|Hne];
      [|rewrite keys_record_ne in Hk by done; by apply (Hm' k)].
    destruct (keys_record_put m r R Ed) as (v & l & E). rewrite E in Hk. injection Hk as <-.
    unfold put_entry, bounded. cbn. destruct (alive_in m (r_key r)) as [p|] eqn:Ea; [|lia].
    apply alive_in_Some in Ea as [Ea _]. pose proof (Hm' _ _ Ea) as Hb. unfold bounded in Hb. lia.
Qed.

Lemma record_at_ne t st r k : r_key r <> k -> record_at t st r !! k = st !! k.
Proof.
  intros Hne. unfold record_at. destruct (_ <=? _); [|done].
  destruct (record_deleted r); [by rewrite lookup_delete_ne|by rewrite lookup_insert_ne].
Qed.

(** One record, on its own key. *)
Lemma at_rev_spec_record t m st r n :
  store_record r -> map_Forall (fun _ => bounded n) m -> n <= record_rev r ->
  (record_deleted r = false -> forall ks, m !! r_key r = Some ks -> ks_delete_revision ks = 0) ->
  at_rev_spec t (m !! r_key r) (st !! r_key r) ->
  at_rev_spec t (keys_record m r !! r_key r) (record_at t st r !! r_key r).
Proof.
  intros R Hm Hn Hlife IH. pose proof (store_record_rev r R) as Hr. unfold record_at.
  destruct (record_deleted r) eqn:Ed.
  - rewrite keys_record_del by done. unfold del_keys, alive_in.
    destruct (m !! r_key r) as [p|] eqn:E; cbn [at_rev_spec] in IH.
    + pose proof (Hm _ _ E) as Hb. unfold bounded in Hb. destruct IH as [Hrb IH]. unfold is_alive.
      destruct (Z.eqb_spec (ks_delete_revision p) 0) as [E0|E0].
      * rewrite lookup_insert_eq. cbn [at_rev_spec tombstone ks_rebirth ks_create_revision ks_delete_revision ks_mod_revision ks_kv_bytes].
        split; [done|]. cbn [negb andb] in IH. rewrite (proj2 (Z.eqb_neq (record_rev r) 0)) by lia. cbn [negb andb].
        destruct (Z.leb_spec (record_rev r) t).
        -- rewrite lookup_delete_eq. by destruct (t <? ks_create_revision p).
        -- exact IH.
      * rewrite E. cbn [at_rev_spec]. split; [done|]. rewrite (proj2 (Z.eqb_neq _ 0)) by done. cbn [negb andb] in *.
        destruct (Z.leb_spec (record_rev r) t); [|exact IH].
        rewrite lookup_delete_eq, (proj2 (Z.leb_le (ks_delete_revision p) t)) by lia.
        by destruct (t <? ks_create_revision p).
    + rewrite E. cbn. destruct (Z.leb_spec (record_rev r) t); [by rewrite lookup_delete_eq|done].
  - specialize (Hlife eq_refl). destruct (keys_record_put m r R Ed) as (v & l & ->).
    unfold put_entry, alive_in, is_alive.
    destruct (m !! r_key r) as [p|] eqn:E; cbn [at_rev_spec] in IH.
    + rewrite (Hlife p eq_refl) in *. pose proof (Hm _ _ E) as Hb. unfold bounded in Hb. destruct IH as [Hrb IH].
      cbn in *. split; [done|]. destruct (Z.leb_spec (record_rev r) t).
      * rewrite lookup_insert_eq, (proj2 (Z.ltb_ge t (ks_create_revision p))) by lia. done.
      * destruct (t <? ks_create_revision p); [done|]. destruct (ks_mod_revision p <=? t); [by eexists|done].
    + cbn. split; [done|]. destruct (Z.leb_spec (record_rev r) t).
      * by rewrite lookup_insert_eq, (proj2 (Z.ltb_ge t (record_rev r))) by lia.
      * by rewrite (proj2 (Z.ltb_lt t (record_rev r))) by lia.
Qed.

(** ** The whole log *)

Lemma sorted_snoc rs r :
  StronglySorted Z.le (record_rev <$> (rs ++ [r])) ->
  StronglySorted Z.le (record_rev <$> rs) /\ Forall (fun r' => record_rev r' <= record_rev r) rs.
Proof.
  rewrite fmap_app. intros (Hx & Hs & _)%StronglySorted_app. split; [done|].
  apply Forall_forall. intros r' Hin. apply Hx; [|by left].
  apply list_elem_of_fmap. eauto.
Qed.

Lemma fold_bounded rs n :
  Forall store_record rs -> StronglySorted Z.le (record_rev <$> rs) -> Forall (fun r => record_rev r <= n) rs ->
  map_Forall (fun _ => bounded n) (foldl keys_record ∅ rs).
Proof.
  revert n. induction rs as [|r rs IH] using rev_ind; intros n R Hs Hn; [apply map_Forall_empty|].
  apply Forall_app in R as [R1 [R2 _]%Forall_cons]. apply sorted_snoc in Hs as [Hs Hle].
  apply Forall_app in Hn as [_ [Hrn _]%Forall_cons]. rewrite foldl_app. cbn [foldl].
  eapply map_Forall_impl; [apply (keys_record_bounded _ r (record_rev r)); [done|by apply IH|done]|].
  unfold bounded. cbn. intros; lia.
Qed.

Lemma fold_tombstone rs k ks :
  Forall store_record rs -> foldl keys_record ∅ rs !! k = Some ks -> ks_delete_revision ks <> 0 ->
  exists i r, rs !! i = Some r /\ r_key r = k /\ record_deleted r = true.
Proof.
  revert ks. induction rs as [|r rs IH] using rev_ind; intros ks R; [cbn; by rewrite lookup_empty|].
  apply Forall_app in R as [R1 [R2 _]%Forall_cons]. rewrite foldl_app. cbn [foldl]. intros Hk Hd.
  assert (forall i r', rs !! i = Some r' -> (rs ++ [r]) !! i = Some r') as Happ
    by (intros; by apply lookup_app_l_Some).
  destruct (decide (r_key r = k)) as [<-|Hne].
  - destruct (record_deleted r) eqn:Ed.
    + exists (length rs), r. by rewrite lookup_app_r, Nat.sub_diag.
    + destruct (keys_record_put (foldl keys_record ∅ rs) r R2 Ed) as (v & l & E).
      rewrite E in Hk. injection Hk as <-. done.
  - rewrite keys_record_ne in Hk by done. destruct (IH ks R1 Hk Hd) as (i & r' & ? & ? & ?).
    exists i, r'. eauto.
Qed.

Lemma single_lifetime_init P rs r : single_lifetime P (rs ++ [r]) -> single_lifetime P rs.
Proof. intros Hs i j ri rj Hij Hi Hj. eapply Hs; [done|by apply lookup_app_l_Some..]. Qed.

Lemma fold_at_rev t P rs :
  Forall store_record rs -> StronglySorted Z.le (record_rev <$> rs) -> single_lifetime P rs ->
  forall k, P k -> at_rev_spec t (foldl keys_record ∅ rs !! k) (state_at t rs !! k).
Proof.
  induction rs as [|r rs IH] using rev_ind; intros R Hs HP k Hk; [done|].
  apply Forall_app in R as [R1 [R2 _]%Forall_cons]. apply sorted_snoc in Hs as [Hs Hle].
  pose proof (single_lifetime_init _ _ _ HP) as HP1. specialize (IH R1 Hs HP1 k Hk).
  unfold state_at. rewrite !foldl_app. cbn [foldl]. fold (state_at t rs).
  destruct (decide (r_key r = k)) as [<-|Hne]; [|by rewrite keys_record_ne, record_at_ne].
  apply (at_rev_spec_record t _ _ r (record_rev r)); [done|by apply fold_bounded|done| |done].
  intros Hput ks Hks. destruct (decide (ks_delete_revision ks = 0)) as [|Hd]; [done|].
  destruct (fold_tombstone rs _ ks R1 Hks Hd) as (i & ri & Hi & Ek & Edel).
  assert (record_deleted r = true); [|congruence].
  eapply (HP i (length rs) ri r); [by eapply lookup_lt_Some|by apply lookup_app_l_Some| |done|by rewrite Ek|done].
  by rewrite lookup_app_r, Nat.sub_diag.
Qed.

(** Later writes do not change the past. *)
Lemma state_at_newer t rs rs' :
  Forall (fun r => t < record_rev r) rs' -> state_at t (rs ++ rs') = state_at t rs.
Proof.
  intros Hn. unfold state_at. rewrite foldl_app. induction Hn as [|r rs' Hr Hn IH]; [done|].
  cbn [foldl]. unfold record_at at 2. by rewrite (proj2 (Z.leb_gt _ _)).
Qed.

(** Blobs of the abstract store are blobs of their key. *)
Lemma state_at_blob t rs k b :
  Forall store_record rs -> state_at t rs !! k = Some b ->
  exists value cr mr ver lease, b = kv_blob k value cr mr ver lease /\ kv_sizes_ok k value.
Proof.
  induction rs as [|r rs IH] using rev_ind; intros R; [cbn; by rewrite lookup_empty|].
  apply Forall_app in R as [R1 [R2 _]%Forall_cons]. unfold state_at. rewrite foldl_app. cbn [foldl].
  fold (state_at t rs). intros Hk.
  destruct (decide (r_key r = k)) as [<-|Hne]; [|rewrite record_at_ne in Hk by done; by apply IH].
  unfold record_at in Hk. destruct (_ <=? _); [|by apply IH].
  destruct (record_deleted r); [by rewrite lookup_delete_eq in Hk|].
  rewrite lookup_insert_eq in Hk. injection Hk as <-.
  pose proof (store_record_key r R2) as Ek. destruct R2 as (fl & a & G).
  destruct (genuine_facts _ _ _ G) as (_ & Ek' & _ & _ & -> & _). rewrite Ek in Ek'. injection Ek' as Eka.
  rewrite Eka. eexists _, _, _, _, _. split; [reflexivity|]. by apply kv_fits_sizes, (ao_fits a), (proj1 G).
Qed.

(** ** The WAL scan computes the abstract store, restricted to the bound *)

Definition in_bound (bound : RangeBound) (m : gmap (list Byte.byte) bytes) : gmap (list Byte.byte) bytes :=
  base.filter (fun e => matches_range bound e.1 = true) m.

Lemma in_bound_delete_out bound k m :
  matches_range bound k = false -> in_bound bound (delete k m) = in_bound bound m.
Proof.
  intros Hm. unfold in_bound. rewrite map_filter_delete. apply delete_id.
  apply map_lookup_filter_None. right. intros b _ Hb. cbn in Hb. congruence.
Qed.

Lemma scan_range_loop_state bound t rs st st' :
  Forall store_record rs -> st = in_bound bound st' ->
  scan_range_loop bound t rs st = Ok (in_bound bound (foldl (record_at t) st' rs)).
Proof.
  intros R. revert st st'. induction R as [|r rs Hr R IH]; intros st st' ->; [done|].
  cbn [scan_range_loop foldl]. rewrite (store_record_key r Hr). cbn [outcome_bind]. unfold record_at at 2.
  destruct (matches_range bound (r_key r)) eqn:Em; cbn [negb].
  - destruct (record_rev r <=? t); [|by apply IH]. destruct (record_deleted r); apply IH.
    + unfold in_bound. by rewrite map_filter_delete.
    + unfold in_bound. by rewrite map_filter_insert_True.
  - apply IH. destruct (record_rev r <=? t); [|done].
    destruct (record_deleted r); [by rewrite in_bound_delete_out|].
    unfold in_bound at 2. rewrite map_filter_insert_False by (cbn; congruence). by rewrite <- (in_bound_delete_out bound (r_key r)).
Qed.

Lemma scan_wal_range_state rs key range_end t :
  Forall store_record rs ->
  scan_wal_range (Some (log_bytes rs)) key range_end t
  = Ok (in_bound (resolve_range key range_end) (state_at t rs)).
Proof.
  intros R. unfold scan_wal_range.
  rewrite scan_log by (eapply Forall_impl; [apply R|apply store_record_wf]).
  rewrite (scan_range_loop_state _ t rs ∅ ∅); [done|done|].
  unfold in_bound. by rewrite map_filter_empty.
Qed.

(** ** Phase 1 *)

Definition no_filters (req : RangeRequest) : Prop :=
  rr_min_mod_revision req <= 0 /\ rr_max_mod_revision req <= 0
  /\ rr_min_create_revision req <= 0 /\ rr_max_create_revision req <= 0.

Lemma no_filters_pass req ks : no_filters req -> revision_filters req ks = true.
Proof.
  intros (? & ? & ? & ?). unfold revision_filters.
  by rewrite !(proj2 (Z.leb_le _ 0)) by done.
Qed.

#[local] Instance verdict_eq_dec : EqDecision verdict.
Proof. solve_decision. Defined.

Lemma verdict_spec req t ks v :
  no_filters req -> at_rev_spec t (Some ks) v ->
  match phase1_verdict req t ks with
  | Skip => v = None | Direct => v = Some (ks_kv_bytes ks) | Stale => is_Some v
  end.
Proof.
  intros Hf [Hrb Hv]. unfold phase1_verdict. rewrite (no_filters_pass req ks Hf), Hrb. cbn [negb].
  destruct (ks_delete_revision ks =? 0); cbn [negb andb] in *;
    destruct (t <? ks_create_revision ks); try done;
    [|destruct (ks_delete_revision ks <=? t); [done|]]; by destruct (ks_mod_revision ks <=? t).
Qed.

Definition direct_of (req : RangeRequest) (e : list Byte.byte * KeyState) : list Byte.byte * list Byte.byte :=
  (e.1, historical_kv req e.1 (ks_kv_bytes e.2)).

Lemma phase1_loop_filter req t prefix l :
  let l' := take_while (fun e => negb (past_prefix prefix e.1)) l in
  phase1_loop req t prefix l
  = (direct_of req <$> base.filter (fun e => phase1_verdict req t e.2 = Direct) l',
     (base.filter (fun e => phase1_verdict req t e.2 = Stale) l').*1).
Proof.
  induction l as [|[k ks] l IH]; [done|]. cbn [phase1_loop take_while fst].
  destruct (past_prefix prefix k); [done|]. cbn [negb]. rewrite IH, !filter_cons. cbn [snd].
  by destruct (phase1_verdict req t ks).
Qed.

(** ** The expected answer *)

Definition expected (req : RangeRequest) (t : Z) (rs : list KvWalRecord) : gmap (list Byte.byte) bytes :=
  map_imap (fun k b => Some (historical_kv req k b)) (in_bound (req_bound req) (state_at t rs)).

Lemma lookup_in_bound bound m k :
  in_bound bound m !! k = if matches_range bound k then m !! k else None.
Proof.
  unfold in_bound. destruct (matches_range bound k) eqn:E.
  - destruct (m !! k) as [b|] eqn:Ek; [by apply map_lookup_filter_Some|].
    apply map_lookup_filter_None. by left.
  - apply map_lookup_filter_None. right. intros b _ Hb. cbn in Hb. congruence.
Qed.

Lemma lookup_expected req t rs k :
  expected req t rs !! k
  = if matches_range (req_bound req) k then historical_kv req k <$> state_at t rs !! k else None.
Proof.
  unfold expected. rewrite map_lookup_imap, lookup_in_bound.
  destruct (matches_range (req_bound req) k); [|done]. by destruct (state_at t rs !! k).
Qed.

Lemma historical_kv_idem req k b : historical_kv req k (historical_kv req k b) = historical_kv req k b.
Proof. unfold historical_kv. by destruct (rr_keys_only req). Qed.

Lemma historical_kv_key req k b value cr mr ver lease :
  b = kv_blob k value cr mr ver lease -> kv_sizes_ok k value ->
  f_key <$> parse_kv (historical_kv req k b) = Some k.
Proof.
  intros -> Hs. unfold historical_kv. destruct (rr_keys_only req); [|by rewrite parse_kv_blob].
  rewrite keys_only_blob_kv, parse_kv_blob; [done|]. destruct Hs. split; [done|]. unfold is_u32. cbn. lia.
Qed.

Lemma expected_distinct req t rs : Forall store_record rs -> distinct_keys (btree_iter (expected req t rs)).*2.
Proof.
  intros R.
  assert (forall e, e ∈ btree_iter (expected req t rs) -> f_key <$> parse_kv e.2 = Some e.1) as Hkey.
  { intros [k b] Hin%elem_of_btree_iter. rewrite lookup_expected in Hin.
    destruct (matches_range (req_bound req) k); [|done].
    destruct (state_at t rs !! k) as [b0|] eqn:E; [|done]. injection Hin as <-.
    destruct (state_at_blob t rs k b0 R E) as (value & cr & mr & ver & lease & Eb & Hs).
    by eapply historical_kv_key. }
  assert ((fun b => f_key <$> parse_kv b) <$> (btree_iter (expected req t rs)).*2
          = Some <$> (btree_iter (expected req t rs)).*1) as E.
  { rewrite <- !list_fmap_compose. apply list_fmap_ext. intros i e Hi. cbn.
    by apply Hkey, (list_elem_of_lookup_2 _ i). }
  split; [|rewrite E; apply NoDup_fmap_2; [apply _|apply btree_iter_NoDup]].
  apply Forall_forall. intros b (e & -> & Hin)%list_elem_of_fmap. specialize (Hkey e Hin).
  by destruct (parse_kv e.2).
Qed.

Lemma direct_sorted (req : RangeRequest) (t : Z) (bound : RangeBound) (m : gmap (list Byte.byte) KeyState) :
  let l := direct_of req <$> base.filter (fun e => phase1_verdict req t e.2 = Direct) (in_range bound m) in
  l.*1 `sublist_of` (btree_iter m).*1.
Proof.
  intros l. subst l. rewrite <- list_fmap_compose.
  rewrite (list_fmap_ext _ fst) by done.
  etrans; [apply filter_sublist_fst|apply filter_sublist_fst].
Qed.

(** Phase 1 sees the memory of [s], whose log is [rs]. The WAL scan may also meet
    the records [rs'] that other tasks log meanwhile, all newer than [t]; the
    fallback sees the memory of an arbitrary [s3]. *)
Section Read.
Context (s s2 s3 : StoreState) (rs rs' : list KvWalRecord) (req : RangeRequest) (t : Z).
Context (Ek : keys s = foldl keys_record ∅ rs) (Ef : file (wal s2) = log_bytes (rs ++ rs')).
Context (R : Forall store_record rs) (R' : Forall store_record rs').
Context (Hnew : Forall (fun r => t < record_rev r) rs') (Hs : StronglySorted Z.le (record_rev <$> rs)).
Context (Hlife : single_lifetime (fun k => matches_range (req_bound req) k = true) rs).
Context (Hfilt : no_filters req) (Hsz : Z.of_nat (size (keys s)) < 2 ^ 32) (Hlim : rr_limit req < 2 ^ 63).

Lemma past_of k : matches_range (req_bound req) k = true -> at_rev_spec t (keys s !! k) (state_at t rs !! k).
Proof. rewrite Ek. by apply (fold_at_rev t (fun k => matches_range (req_bound req) k = true)). Qed.

Lemma elem_of_direct k b :
  (k, b) ∈ direct_of req <$> base.filter (fun e => phase1_verdict req t e.2 = Direct) (in_range (req_bound req) (keys s)) ->
  expected req t rs !! k = Some b.
Proof.
  intros ([k' ks] & [= -> ->] & [Hv [Hm Hk]%elem_of_in_range]%list_elem_of_filter)%list_elem_of_fmap.
  cbn in *. rewrite lookup_expected, Hm. pose proof (past_of k' Hm) as Hp. rewrite Hk in Hp.
  pose proof (verdict_spec req t ks _ Hfilt Hp) as Hd. rewrite Hv in Hd. by rewrite Hd.
Qed.

(** Every expected key is in memory, and phase 1 does not skip it. *)
Lemma expected_in_memory k b :
  expected req t rs !! k = Some b ->
  exists ks, (k, ks) ∈ in_range (req_bound req) (keys s) /\ phase1_verdict req t ks <> Skip
    /\ (phase1_verdict req t ks = Direct -> b = historical_kv req k (ks_kv_bytes ks)).
Proof.
  rewrite lookup_expected. destruct (matches_range (req_bound req) k) eqn:Hm; [|done].
  destruct (state_at t rs !! k) as [b0|] eqn:Eb; [|done]. intros [= <-].
  pose proof (past_of k Hm) as Hp. rewrite Eb in Hp. destruct (keys s !! k) as [ks|] eqn:Ekk; [|done].
  pose proof (verdict_spec req t ks _ Hfilt Hp) as Hd. exists ks.
  split; [by apply elem_of_in_range|]. destruct (phase1_verdict req t ks); [done| |]; (split; [done|]); [|done].
  intros _. by injection Hd as <-.
Qed.

Lemma expected_size : Z.of_nat (size (expected req t rs)) < 2 ^ 32.
Proof.
  assert (size (expected req t rs) <= size (keys s))%nat; [|lia].
  rewrite <- !size_dom. apply subseteq_size. intros k (b & Hb)%elem_of_dom.
  destruct (expected_in_memory k b Hb) as (ks & [_ Hk]%elem_of_in_range & _). apply elem_of_dom. eauto.
Qed.

Local Definition directs := direct_of req <$>
  base.filter (fun e => phase1_verdict req t e.2 = Direct) (in_range (req_bound req) (keys s)).
Local Definition stales := (base.filter (fun e => phase1_verdict req t e.2 = Stale) (in_range (req_bound req) (keys s))).*1.

(** Without stale keys, phase 1 alone enumerates the expected answer. *)
Lemma directs_expected : stales = [] -> directs = btree_iter (expected req t rs).
Proof.
  intros Hno. apply btree_iter_unique.
  - eapply StronglySorted_sublist; [apply direct_sorted|apply btree_iter_sorted].
  - eapply sublist_NoDup; [apply (btree_iter_NoDup (keys s))|apply direct_sorted].
  - intros k b. split; [apply elem_of_direct|]. intros Hk.
    destruct (expected_in_memory k b Hk) as (ks & Hin & Hskip & Hdir).
    apply list_elem_of_fmap. exists (k, ks). rewrite list_elem_of_filter. cbn [snd].
    destruct (phase1_verdict req t ks) eqn:Ev; [done| |].
    + unfold direct_of. cbn. rewrite Hdir by done. done.
    + exfalso. assert (k ∈ stales) as Hst; [|rewrite Hno in Hst; by apply not_elem_of_nil in Hst].
      apply list_elem_of_fmap. exists (k, ks). by rewrite list_elem_of_filter.
Qed.

(** *** Merging *)

#[local] Abbreviation wal_state := (in_bound (req_bound req) (state_at t rs)).

Lemma merge_direct_sub : merge_direct req directs ⊆ expected req t rs.
Proof.
  assert (forall l m, m ⊆ expected req t rs -> (forall k b, (k, b) ∈ l -> expected req t rs !! k = Some b) ->
    foldl (fun m (e : list Byte.byte * list Byte.byte) => <[e.1 := historical_kv req e.1 e.2]> m) m l ⊆ expected req t rs) as Hgen.
  { induction l as [|[k b] l IH]; intros m Hm Hl; cbn [foldl]; [done|].
    apply IH; [|intros; apply Hl; by right]. apply insert_subseteq_l; [|done]. cbn.
    assert (expected req t rs !! k = Some b) as Eb by (apply Hl; left). rewrite Eb.
    rewrite lookup_expected in Eb. destruct (matches_range (req_bound req) k); [|done].
    destruct (state_at t rs !! k); [|done]. injection Eb as <-. by rewrite historical_kv_idem. }
  apply Hgen; [apply map_empty_subseteq|]. intros k b. apply elem_of_direct.
Qed.

Lemma merge_stale_sub m k : m ⊆ expected req t rs -> k ∈ stales ->
  merge_stale req s3 wal_state m k ⊆ expected req t rs.
Proof.
  intros Hm ([k' ks] & -> & [Hv [Hmt Hk]%elem_of_in_range]%list_elem_of_filter)%list_elem_of_fmap.
  cbn [fst snd] in *. pose proof (past_of k' Hmt) as Hp. rewrite Hk in Hp.
  pose proof (verdict_spec req t ks _ Hfilt Hp) as Hd. rewrite Hv in Hd. destruct Hd as [b Eb].
  unfold merge_stale. rewrite lookup_in_bound, Hmt, Eb, lookup_insert_eq.
  apply insert_subseteq_l; [|done]. by rewrite lookup_expected, Hmt, Eb.
Qed.

Lemma merge_stales_sub m l : m ⊆ expected req t rs -> l ⊆ stales ->
  foldl (merge_stale req s3 wal_state) m l ⊆ expected req t rs.
Proof.
  revert m. induction l as [|k l IH]; intros m Hm Hl; cbn [foldl]; [done|].
  apply IH; [|set_solver]. apply merge_stale_sub; [done|set_solver].
Qed.

Lemma merge_wal_expected m l :
  m ⊆ expected req t rs -> (forall k b, (k, b) ∈ l -> wal_state !! k = Some b) ->
  let m' := foldl (merge_wal req (req_bound req)) m l in
  m' ⊆ expected req t rs /\ m ⊆ m' /\ (forall k b, (k, b) ∈ l -> is_Some (m' !! k)).
Proof.
  revert m. induction l as [|[k b] l IH]; intros m Hm Hl; cbn [foldl].
  { split; [done|]. split; [done|]. by intros k b ?%not_elem_of_nil. }
  assert (wal_state !! k = Some b) as Eb by (apply Hl; left). rewrite lookup_in_bound in Eb.
  destruct (matches_range (req_bound req) k) eqn:Emt; [|done].
  assert (merge_wal req (req_bound req) m (k, b) ⊆ expected req t rs
    /\ m ⊆ merge_wal req (req_bound req) m (k, b) /\ is_Some (merge_wal req (req_bound req) m (k, b) !! k)) as (H1' & H2' & H3').
  { unfold merge_wal. cbn [fst snd]. rewrite Emt. cbn [negb]. destruct (m !! k) as [b'|] eqn:E.
    - rewrite E. eauto.
    - split; [|split; [by apply insert_subseteq|rewrite lookup_insert_eq; eauto]].
      apply insert_subseteq_l; [|done]. by rewrite lookup_expected, Emt, Eb. }
  destruct (IH _ H1' ltac:(intros; apply Hl; by right)) as (I1 & I2 & I3).
  split; [done|]. split; [by etrans|]. intros k' b' [[= -> ->]|Hin]%elem_of_cons; [|by eapply I3].
  destruct H3' as [x Hx]. exists x. by eapply lookup_weaken.
Qed.

Lemma merge_phases_expected :
  merge_phases req (req_bound req) s3 directs stales wal_state = expected req t rs.
Proof.
  unfold merge_phases.
  destruct (merge_wal_expected (foldl (merge_stale req s3 wal_state) (merge_direct req directs) stales)
    (map_to_list wal_state)) as (H1' & _ & H3').
  - apply merge_stales_sub; [apply merge_direct_sub|done].
  - intros k b. apply elem_of_map_to_list.
  - apply (anti_symm (⊆)); [done|]. apply map_subseteq_spec. intros k b Hk.
    rewrite lookup_expected in Hk. destruct (matches_range (req_bound req) k) eqn:Em; [|done].
    destruct (state_at t rs !! k) as [b0|] eqn:Eb; [|done].
    destruct (H3' k b0) as [x Hx]; [apply elem_of_map_to_list; by rewrite lookup_in_bound, Em|].
    rewrite Hx. rewrite map_subseteq_spec in H1'. apply H1' in Hx.
    rewrite lookup_expected, Em, Eb in Hx. congruence.
Qed.

Lemma range_historical_expected :
  inverted (req_bound req) = false ->
  range_historical s s2 s3 req t
  = Ok (answer (historical_header t) req (btree_iter (expected req t rs)).*2).
Proof.
  intros Hinv. unfold range_historical. fold (req_bound req).
  destruct (bounds_iter s (btree_bounds (req_bound req))) as [it|err|why] eqn:Eit;
    [|by rewrite bounds_iter_ok in Eit..].
  cbn [outcome_bind]. rewrite phase1_loop_filter, (bounds_iter_matches _ _ _ Eit).
  fold directs. fold stales.
  assert (Z.of_nat (length (btree_iter (expected req t rs)).*2) < 2 ^ 32) as Hlen
    by (rewrite length_fmap, btree_iter_length; apply expected_size).
  pose proof (expected_distinct req t rs R) as Hdist.
  destruct stales as [|k ks] eqn:Est.
  - rewrite directs_expected by done. unfold phase1_response, answer. rewrite length_fmap.
    destruct (rr_count_only req); [done|]. do 2 f_equal. rewrite <- sort_truncate by done. by rewrite length_fmap.
  - rewrite <- Est, Ef, scan_wal_range_state by by apply Forall_app. cbn [outcome_bind].
    rewrite state_at_newer by done. fold (req_bound req).
    rewrite merge_phases_expected. unfold merged_response, answer. rewrite length_fmap, btree_iter_length.
    destruct (rr_count_only req); [done|]. do 2 f_equal. by apply sort_take.
Qed.
End Read.

(** ** Properties *)

(** The records in the WAL file. *)
Definition log_of (s : StoreState) : list KvWalRecord := (scan_kv_file (file (wal s)) 0).1.

Lemma log_of_logs s rs : logs_run fresh s rs -> log_of s = rs.
Proof.
  intros [Hf _ R _ _ _ _]. unfold log_of. rewrite Hf.
  change (file (wal fresh)) with (@nil Byte.byte). rewrite app_nil_l, scan_log; [done|]. eapply Forall_impl; [apply R|apply store_record_wf].
Qed.

Lemma expected_newer req t rs rs' :
  Forall (fun r => t < record_rev r) rs' -> expected req t (rs ++ rs') = expected req t rs.
Proof. intros Hn. unfold expected. by rewrite state_at_newer. Qed.

(** The log of a lifetime grows by records newer than the revision it had. *)
Lemma run_extends cs s rs :
  inv s -> logs_run fresh s rs -> cmds_ok cs s ->
  exists rs', inv (run cs s) /\ logs_run fresh (run cs s) (rs ++ rs') /\ next_rev s <= next_rev (run cs s)
    /\ Forall (fun r => next_rev s <= record_rev r) rs'.
Proof.
  intros I L Hc. pose proof (run_trans cs s I Hc) as Ht.
  destruct (rtc_trans_logs _ _ _ _ Ht I (lr_faults _ _ _ L)) as (rs' & L' & Hfl).
  exists rs'. split; [by eapply rtc_trans_inv|]. split; [by eapply logs_run_app|].
  split; [apply L'|done].
Qed.

Lemma read_among_commands (cs c1 c2 : list Command) (b s3 : StoreState) (req : RangeRequest) :
  let a := run cs fresh in let s1 := run c1 a in let s2 := run c2 s1 in
  cmds_ok cs fresh -> cmds_ok c1 a -> cmds_ok c2 s1 -> rr_key req <> [] ->
  0 < rr_revision req <= current_revision a -> compact_rev b <= rr_revision req ->
  single_lifetime (fun k => matches_range (req_bound req) k = true) (log_of s1) -> no_filters req ->
  inverted (req_bound req) = false -> Z.of_nat (size (keys s1)) < 2 ^ 32 -> rr_limit req < 2 ^ 63 ->
  range_locks a b s1 s2 s3 req
  = Ok (answer (historical_header (rr_revision req)) req
          (btree_iter (expected req (rr_revision req) (log_of a))).*2).
Proof.
  intros a s1 s2 Hc Hc1 Hc2 Hkey Hrev Hcomp Hlife Hf Hi Hsz Hlim.
  destruct (run_logs cs Hc) as (I & rs & L). pose proof (inv_rev _ I) as Hnr.
  destruct (run_extends c1 _ _ I L Hc1) as (rs1 & I1 & L1 & Hle & F1).
  destruct (run_extends c2 _ _ I1 L1 Hc2) as (rs2 & I2 & L2 & _ & F2).
  subst a s1 s2. rewrite (log_of_logs _ _ L1) in Hlife. rewrite (log_of_logs _ _ L).
  unfold current_revision in Hrev.
  assert (forall l n, Forall (fun r => n <= record_rev r) l -> next_rev (run cs fresh) <= n ->
    Forall (fun r => rr_revision req < record_rev r) l) as Hnewer.
  { intros l n Fl Hn. eapply Forall_impl; [exact Fl|]. cbn. lia. }
  unfold range_locks. destruct (rr_key req) as [|k0 key] eqn:Ekey; [done|]. cbn [check_key outcome_bind].
  assert ((0 <? rr_revision req) = true) as Hpos by lia. rewrite !Hpos.
  rewrite (proj2 (Z.ltb_ge (current_revision (run cs fresh)) _)) by (unfold current_revision; lia).
  rewrite (proj2 (Z.ltb_ge (rr_revision req) (compact_rev b))) by lia. cbn [andb].
  rewrite <- (expected_newer req _ rs rs1) by (eapply Hnewer; [exact F1|lia]).
  pose proof (lr_records _ _ _ L2) as [_ R2]%Forall_app. pose proof (lr_file _ _ _ L2) as E2.
  apply (range_historical_expected _ _ s3 (rs ++ rs1) rs2); try done; try apply L1.
  eapply Hnewer; [exact F2|lia].
Qed.

(** C10. Historical reads. A read at a past revision [t] answers exactly with the
    keys of the range alive at [t] and their values at [t], ordered and cut as
    requested, whatever other tasks write between its lock sections: the revision
    is checked in the state [a], the compaction mark in [b], memory is read after
    the commands [c1], the WAL after [c2] more, and the state [s3] seen by the
    fallback does not matter. This holds within one process that started on an empty
    log and has not compacted it, for a proper range without revision filters in which
    no key was written again after a deletion; after a compaction of the log the code
    falls back on current values. *)
Theorem historical_read_correct (cs c1 c2 : list Command) (b s3 : StoreState) (req : RangeRequest) :
  let a := run cs fresh in let s1 := run c1 a in let s2 := run c2 s1 in
  cmds_ok cs fresh -> cmds_ok c1 a -> cmds_ok c2 s1 -> rr_key req <> [] ->
  0 < rr_revision req <= current_revision a -> compact_rev b <= rr_revision req ->
  single_lifetime (fun k => matches_range (req_bound req) k = true) (log_of s1) -> no_filters req ->
  inverted (req_bound req) = false -> Z.of_nat (size (keys s1)) < 2 ^ 32 -> rr_limit req < 2 ^ 63 ->
  range_locks a b s1 s2 s3 req
  = Ok (answer (historical_header (rr_revision req)) req
          (btree_iter (expected req (rr_revision req) (log_of a))).*2).
Proof. apply read_among_commands. Qed.

Lemma single_lifetime_split P l1 l2 :
  Forall (fun r => record_deleted r = false) l1 -> Forall (fun r => record_deleted r = true) l2 ->
  single_lifetime P (l1 ++ l2).
Proof.
  intros H1' H2' i j ri rj Hij Hi Hj _ _ Hd. apply lookup_app_Some in Hi as [Hi|[Hi1 Hi2]].
  - eapply Forall_lookup_1 in H1'; [|exact Hi]. cbn in H1'. congruence.
  - apply lookup_app_Some in Hj as [Hj|[_ Hj]]; [apply lookup_lt_Some in Hj; lia|].
    by eapply Forall_lookup_1 in H2'; [|exact Hj].
Qed.

End History.

#[local] Existing Instance bitwise_crc.
#[local] Existing Instance ref_decoder.
#[local] Existing Instance merge_sort_impl.

(** The whole key space at revision 2 of the demo run. *)
Definition demo_read : RangeRequest := range_req (lit "a") (lit "z") 2.

(** The commands of [demo], with the memory read after three of them and the WAL
    after all. *)
Definition demo_before : list Command := take 2 demo.
Definition demo_meanwhile : list Command := take 1 (drop 2 demo).
Definition demo_later : list Command := drop 3 demo.

Lemma historical_read_correct_witness :
  let a := run demo_before fresh in let s1 := run demo_meanwhile a in
  range_locks a s1 s1 (run demo_later s1) fresh demo_read
  = Ok (answer (historical_header 2) demo_read (btree_iter (expected demo_read 2 (log_of a))).*2).
Proof.
  apply (historical_read_correct demo_before demo_meanwhile demo_later (run demo_meanwhile (run demo_before fresh)) fresh demo_read).
  - repeat split; by vm_compute.
  - repeat split; by vm_compute.
  - repeat split; by vm_compute.
  - vm_compute. congruence.
  - vm_compute. split; congruence.
  - vm_compute. congruence.
  - rewrite <- (take_drop 3 (log_of (run demo_meanwhile (run demo_before fresh)))).
    apply single_lifetime_split; (apply (bool_decide_unpack _); by vm_compute).
  - vm_compute. repeat split; congruence.
  - by vm_compute.
  - by vm_compute.
  - by vm_compute.
Defined.

(** A put, a deletion and a second life of the same key, at revisions 1, 2, 3. *)
Definition reborn : list Command :=
  [CmdPut (put_req "k" "old"); CmdDeleteRange (del_req "k"); CmdPut (put_req "k" "new")].

(** At revision 2 the key does not exist, but the read answers with the value
    written at revision 3. *)
Example deleted_key_resurrected :
  state_at 2 (log_of (run reborn fresh)) !! lit "k" = None
  /\ match range (run reborn fresh) (range_req (lit "k") [] 2) with
     | Ok r => rs_kvs r = [kv_blob (lit "k") (lit "new") 3 3 1 0]
     | _ => False
     end.
Proof. by vm_compute. Qed.

(** One more write clears the rebirth mark: the first life, alive at revision 1,
    is no longer found. *)
Example earlier_life_lost :
  let s := run (reborn ++ [CmdPut (put_req "k" "newer")]) fresh in
  state_at 1 (log_of s) !! lit "k" = Some (kv_blob (lit "k") (lit "old") 1 1 1 0)
  /\ match range s (range_req (lit "k") [] 1) with Ok r => rs_count r = 0 | _ => False end.
Proof. by vm_compute. Qed.

End HistRead.
