(* ===== verification/Notify.v ===== *)
(** * Watch delivery inside the store (src/storage/watcher.rs)

    [notify_watchers] sends an event to a watcher's channel exactly when the
    watcher wants it; and as every write goes through it, a watcher receives the
    logged writes it wants, each once, in log order. *)
From S2P Require Import Prelude Varint KvCodec Wire Crc WalRecord Proto Range SortKvs State Store.
From S2P Require Import Historical Txn Recovery Background System Replay Durability HistRead.
Local Open Scope Z_scope.

Module Notify.
Import KvCodec Wire Crc Wal Proto Range SortKvs State Store Historical Txn Recovery Background System Replay
  Durability HistRead.

(** ** One event *)

(** What a watcher learns of a write: its revision, its kind, its key and, for a
    put, the encoded key-value. *)
Definition signature : Type := (Z * EventType * list Byte.byte * list Byte.byte)%type.
Definition content (ty : EventType) (kv : bytes) : bytes := match ty with EvPut => kv | EvDelete => [] end.
Definition event_sig (ev : WatchEvent) : signature :=
  (ev_revision ev, ev_type ev, ev_key ev, content (ev_type ev) (ev_kv_bytes ev)).

(** In range, not before the start revision, not filtered out. *)
Definition wants (w : WatchRegistration) (sg : signature) : bool :=
  let '(rev, ty, key, _) := sg in
  matches_range (wr_bound w) key && (wr_start_revision w <=? rev)
  && negb (existsb (fun f => filter_hits f ty) (wr_filters w)).

(** The same, whatever the start revision. *)
Definition selects (w : WatchRegistration) (sg : signature) : bool :=
  let '(_, ty, key, _) := sg in
  matches_range (wr_bound w) key && negb (existsb (fun f => filter_hits f ty) (wr_filters w)).

Lemma selects_wants w (sg : signature) : wr_start_revision w <= sg.1.1.1 -> selects w sg = wants w sg.
Proof.
  destruct sg as [[[rev ty] key] kv]. cbn. intros Hr. by rewrite (proj2 (Z.leb_le _ _) Hr), andb_true_r.
Qed.

(** The event as that watcher gets it. *)
Definition tailored (w : WatchRegistration) (ev : WatchEvent) : WatchEvent :=
  if wr_prev_kv w then ev
  else mkEvent (ev_revision ev) (ev_type ev) (ev_key ev) (ev_kv_bytes ev) [].

Definition receive (w : WatchRegistration) (ev : WatchEvent) (ch : Channel) : Channel :=
  if wants w (event_sig ev) && ch_open ch then mkChan (ch_sent ch ++ [tailored w ev]) true else ch.

Lemma notify_one_lookup ev cs w c :
  notify_one ev cs w !! c = if decide (c = wr_sender w) then receive w ev <$> cs !! c else cs !! c.
Proof.
  unfold notify_one, receive, wants, event_sig, send, tailored.
  rewrite (Z.leb_antisym (ev_revision ev)).
  destruct (matches_range (wr_bound w) (ev_key ev)); cbn [negb andb].
  2: { destruct (decide _); [|done]. by destruct (cs !! c). }
  destruct (ev_revision ev <? wr_start_revision w); cbn [negb andb].
  { destruct (decide _); [|done]. by destruct (cs !! c). }
  destruct (existsb _ _); cbn [negb andb].
  { destruct (decide _); [|done]. by destruct (cs !! c). }
  destruct (decide (c = wr_sender w)) as [->|Hne].
  - destruct (cs !! wr_sender w) as [ch|] eqn:E; [|done]. cbn. destruct (ch_open ch) eqn:Eo.
    + by rewrite lookup_insert_eq.
    + by rewrite E.
  - destruct (cs !! wr_sender w) as [ch|]; [|done]. destruct (ch_open ch); [by rewrite lookup_insert_ne|done].
Qed.

(** Watchers have channels of their own. *)
Definition own_channels (ws : list WatchRegistration) : Prop := NoDup (wr_sender <$> ws).

Lemma notify_all_other ev cs ws c :
  c ∉ wr_sender <$> ws -> foldl (notify_one ev) cs ws !! c = cs !! c.
Proof.
  revert cs. induction ws as [|w ws IH]; intros cs Hc; cbn [foldl]; [done|].
  cbn in Hc. rewrite not_elem_of_cons in Hc. destruct Hc as [Hc Hcs]. rewrite IH by done.
  rewrite notify_one_lookup. by rewrite decide_False.
Qed.

Lemma notify_all_lookup ev cs ws w :
  own_channels ws -> w ∈ ws ->
  foldl (notify_one ev) cs ws !! wr_sender w = receive w ev <$> cs !! wr_sender w.
Proof.
  unfold own_channels. revert cs. induction ws as [|w' ws IH]; intros cs Hnd Hw; [by apply not_elem_of_nil in Hw|].
  cbn in Hnd. apply NoDup_cons in Hnd as [Hn Hnd]. cbn [foldl].
  apply elem_of_cons in Hw as [->|Hw].
  - rewrite notify_all_other by done. rewrite notify_one_lookup. by rewrite decide_True.
  - rewrite IH by done. rewrite notify_one_lookup, decide_False; [done|].
    intros E. apply Hn. rewrite <- E. apply list_elem_of_fmap. eauto.
Qed.

(** ** A sequence of events *)

Definition notify_events (ws : list WatchRegistration) (cs : gmap nat Channel) (evs : list WatchEvent)
    : gmap nat Channel := foldl (fun cs ev => foldl (notify_one ev) cs ws) cs evs.

Lemma notify_events_lookup ws cs evs w ch :
  own_channels ws -> w ∈ ws -> cs !! wr_sender w = Some ch -> ch_open ch = true ->
  notify_events ws cs evs !! wr_sender w
  = Some (mkChan (ch_sent ch ++ (tailored w <$> base.filter (fun ev => wants w (event_sig ev) = true) evs)) true).
Proof.
  intros Ho Hw. revert cs ch. induction evs as [|ev evs IH]; intros cs ch Hc Hop; cbn [notify_events foldl].
  - rewrite Hc. destruct ch as [sent op]. cbn in *. subst. by rewrite app_nil_r.
  - fold (notify_events ws (foldl (notify_one ev) cs ws) evs).
    assert (foldl (notify_one ev) cs ws !! wr_sender w = Some (receive w ev ch)) as E
      by by rewrite notify_all_lookup, Hc.
    unfold receive in E. rewrite Hop, andb_true_r in E. rewrite filter_cons.
    destruct (wants w (event_sig ev)) eqn:Ew; cbn in E.
    + rewrite decide_True by done. rewrite (IH _ _ E eq_refl). cbn. by rewrite <- app_assoc.
    + rewrite decide_False by congruence. by rewrite (IH _ _ E Hop).
Qed.

Lemma tailored_sig w (evs : list WatchEvent) : event_sig <$> (tailored w <$> evs) = event_sig <$> evs.
Proof.
  rewrite <- list_fmap_compose. apply list_fmap_ext. intros i ev _. cbn. unfold tailored. by destruct (wr_prev_kv w).
Qed.

Lemma filter_event_sig (p : signature -> bool) (evs : list WatchEvent) :
  event_sig <$> base.filter (fun ev => p (event_sig ev) = true) evs
  = base.filter (fun sg => p sg = true) (event_sig <$> evs).
Proof.
  induction evs as [|ev evs IH]; [done|]. cbn [fmap list_fmap]. rewrite !filter_cons.
  destruct (decide _); cbn [fmap list_fmap]; by rewrite IH.
Qed.

Section Notify.
Context `{Crc32c} `{KvDecoder} `{UnstableSort}.

(** ** Transitions notify what they log *)

Definition record_sig (r : KvWalRecord) : signature :=
  let ty := if record_deleted r then EvDelete else EvPut in
  (record_rev r, ty, r_key r, content ty (kv_bytes r)).

(** [s'] was reached from [s] notifying [evs], the events of the records [rs]. *)
Definition feeds (s s' : StoreState) (rs : list KvWalRecord) (evs : list WatchEvent) : Prop :=
  file (wal s') = file (wal s) ++ log_bytes rs /\ Forall store_record rs
  /\ event_sig <$> evs = record_sig <$> rs
  /\ watchers s' = watchers s /\ chans s' = notify_events (watchers s) (chans s) evs.

(** A put's event carries the bytes that were logged. *)
Lemma put_record_sig m key value lease rev :
  kv_fits key value -> is_i64 lease -> 1 <= rev < 2 ^ 63 ->
  let r := put_record (alive_in m key) key value lease rev in
  store_record r /\ record_sig r = event_sig (put_event m key value lease rev None).
Proof.
  intros Hf Hl Hr. cbv zeta. destruct (put_record_genuine (alive_in m key) key value lease rev Hf Hl Hr) as [G Hd].
  split; [by eexists _, _|]. destruct (genuine_facts _ _ _ G) as (_ & Ek & Er & Edel & Eb & _).
  unfold record_sig, r_key, event_sig. rewrite Ek, Er, Edel, Hd, Eb. unfold args_blob. cbn.
  by rewrite (i64_wrap_small rev) by (unfold is_i64; lia).
Qed.

Lemma delete_record_sig nr key p rev :
  ks_ok nr key p -> nr <= 2 ^ 63 -> 1 <= rev < 2 ^ 63 ->
  store_record (delete_record rev key p) /\ record_sig (delete_record rev key p) = (rev, EvDelete, key, []).
Proof.
  intros Hok Hnr Hr. destruct (delete_record_keys nr ∅ key p rev Hok Hnr Hr) as (R & Er & _).
  split; [done|]. unfold record_sig. rewrite Er. destruct Hok as [Hf _ _ _ _ _ _].
  unfold delete_record, record_deleted, r_key, rec_key.
  destruct (KvWalRecord_new_fields (if negb (ks_lease p =? 0) then Z.lor DELETED HAS_LEASE else DELETED) key
    (ks_value p) (i64_wrap (ks_create_revision p)) (i64_wrap rev) (ks_version p) (ks_lease p)) as (-> & -> & -> & _).
  rewrite read_key_blob by by apply kv_fits_sizes. by destruct (negb (ks_lease p =? 0)).
Qed.

(** The events of a batch of deletions. *)
Definition del_events (s : StoreState) (rev : Z) (ks : list (list Byte.byte)) : list WatchEvent :=
  omap (fun k => del_event k rev <$> get_alive s k) ks.

Lemma deletes_notify rev ks s :
  rev <> 0 -> NoDup ks ->
  watchers (foldl (del_effect rev) s ks) = watchers s
  /\ chans (foldl (del_effect rev) s ks) = notify_events (watchers s) (chans s) (del_events s rev ks).
Proof.
  intros Hrev. revert s. induction ks as [|k ks IH]; intros s; [done|].
  intros [Hk Hnd]%NoDup_cons. cbn [foldl].
  destruct (del_effect_fields rev s k) as (_ & _ & _ & Ew & _ & Ekk).
  destruct (IH (del_effect rev s k) Hnd) as [Ew' Ec']. rewrite Ew', Ec', Ew. split; [done|].
  assert (del_events (del_effect rev s k) rev ks = del_events s rev ks) as ->.
  { apply list_omap_ext, Forall2_same_length_lookup_2; [done|]. intros i x y Hx Hy. simplify_eq.
    rewrite !get_alive_in, Ekk, alive_in_del by done. rewrite decide_False; [done|]. intros ->. apply Hk. by eapply list_elem_of_lookup_2. }
  unfold del_events at 2. cbn [omap list_omap]. unfold del_effect. rewrite get_alive_in.
  destruct (alive_in (keys s) k) as [p|]; [|done]. cbn [fmap option_fmap option_map notify_events foldl]. done.
Qed.

Lemma deletes_events rev ks s :
  rev <> 0 -> NoDup ks -> Forall (fun k => is_Some (get_alive s k)) ks ->
  exists evs, event_sig <$> evs = (fun k => (rev, EvDelete, k, [])) <$> ks
    /\ watchers (foldl (del_effect rev) s ks) = watchers s
    /\ chans (foldl (del_effect rev) s ks) = notify_events (watchers s) (chans s) evs.
Proof.
  intros Hrev Hnd Ha. destruct (deletes_notify rev ks s Hrev Hnd) as [Ew Ec]. eexists. split; [|by split].
  unfold del_events. clear -Ha. induction Ha as [|k ks [p Hp] Ha IH]; [done|]. cbn [omap list_omap]. rewrite Hp. cbn. by rewrite IH.
Qed.

Lemma delete_records_sig s rev ks :
  Forall (fun k => is_Some (get_alive s k)) ks -> inv s -> 1 <= rev < next_rev s ->
  record_sig <$> delete_records s rev ks = (fun k => (rev, EvDelete, k, [])) <$> ks.
Proof.
  intros Ha I Hr. pose proof (inv_rev s I). induction Ha as [|k ks [p Hp] Ha IH]; [done|].
  unfold delete_records. cbn [omap list_omap]. rewrite Hp. cbn [fmap option_fmap option_map list_fmap].
  fold (delete_records s rev ks). rewrite IH. f_equal. apply alive_in_Some in Hp as [Ep _].
  apply (delete_record_sig (next_rev s)); [by apply (inv_keys s I)|lia..].
Qed.

Lemma trans_feeds floor s s' :
  trans floor s s' -> inv s -> faults (wal s) = [] -> exists rs evs, feeds s s' rs evs.
Proof.
  intros T I Hno. pose proof (inv_rev s I). unfold feeds.
  destruct T as [Hn|key value lease w Hf Hl Hn _ Hw|ks w Hnd Ha Hn _ Hw|w Hw|s' Ek En Ec Ew Ewt Ech Hr|ws Hf];
    [| | |done| |done].
  - exists [], []. cbn. by rewrite app_nil_r.
  - apply append_kv_ok in Hw as (Efile & _ & _).
    destruct (put_record_sig (keys s) key value lease (next_rev s - 1) Hf Hl ltac:(lia)) as (R & Esig).
    eexists [_], [put_event (keys s) key value lease (next_rev s - 1) None]. rewrite log_bytes_one.
    split; [exact Efile|]. split; [rewrite get_alive_in; by repeat constructor|]. cbn [fmap list_fmap]. rewrite get_alive_in. by rewrite Esig.
  - apply append_kv_batch_ok in Hw as (Efile & _ & _).
    destruct (deletes_events (next_rev s - 1) ks (set_wal w s)) as (evs & Esig & Ewt & Ech); [lia|done|done|].
    destruct (delete_records_alive s (next_rev s - 1) ks Ha I ltac:(lia)) as (R & _).
    exists (delete_records s (next_rev s - 1) ks), evs.
    destruct (keys_deletes (next_rev s - 1) ks (set_wal w s)) as [_ ->].
    rewrite Esig, delete_records_sig, Ewt, Ech by (done || lia). done.
  - exists [], []. cbn. rewrite app_nil_r. by rewrite Ew, Ewt, Ech.
Qed.

Lemma rtc_trans_feeds floor s s' :
  rtc (trans floor) s s' -> inv s -> faults (wal s) = [] -> exists rs evs, feeds s s' rs evs.
Proof.
  induction 1 as [s|s s1 s' T Ht IH]; intros I Hno.
  - exists [], []. unfold feeds. cbn. by rewrite app_nil_r.
  - destruct (trans_feeds _ _ _ T I Hno) as (rs1 & evs1 & Ef1 & R1 & Es1 & Ew1 & Ec1).
    destruct (trans_logs _ _ _ _ T I Hno) as (? & (_ & Hno1 & _) & _).
    destruct (IH (trans_inv _ _ _ _ T I) Hno1) as (rs2 & evs2 & Ef2 & R2 & Es2 & Ew2 & Ec2).
    exists (rs1 ++ rs2), (evs1 ++ evs2). unfold feeds.
    rewrite Ef2, Ef1, log_bytes_app, <- app_assoc, !fmap_app, Es1, Es2, Ew2, Ew1, Ec2, Ec1.
    split; [done|]. split; [by apply Forall_app|]. split; [done|]. split; [done|].
    unfold notify_events. by rewrite foldl_app, Ew1.
Qed.

Lemma run_quiet cs s :
  inv s -> cmds_ok cs s -> Forall (fun c => quiet c = true) cs -> rtc (trans (next_rev s)) s (run cs s).
Proof.
  revert s. induction cs as [|c cs IH]; intros s I; cbn [run cmds_ok]; [done|].
  intros [Hc Hcs] [Hq Hqs]%Forall_cons. pose proof (exec_quiet c s I Hc Hq) as Ht.
  etrans; [exact Ht|]. apply (rtc_trans_floor _ (next_rev (exec c s))); [by eapply rtc_trans_rev_le|].
  apply IH; [by eapply rtc_trans_inv|done|done].
Qed.

(** While a watcher stays registered with an open channel of its own, it receives
    exactly the writes it wants among those logged (in its range, from its start
    revision on, not filtered), each once and in log order, whatever commands run. *)
Lemma watched_run cs s w ch :
  inv s -> faults (wal s) = [] -> cmds_ok cs s -> Forall (fun c => quiet c = true) cs ->
  own_channels (watchers s) -> w ∈ watchers s -> chans s !! wr_sender w = Some ch -> ch_open ch = true ->
  exists rs evs,
    file (wal (run cs s)) = file (wal s) ++ log_bytes rs
    /\ chans (run cs s) !! wr_sender w = Some (mkChan (ch_sent ch ++ evs) true)
    /\ event_sig <$> evs = base.filter (fun sg => wants w sg = true) (record_sig <$> rs).
Proof.
  intros I Hno Hc Hq Ho Hw Hch Hop.
  destruct (rtc_trans_feeds _ _ _ (run_quiet cs s I Hc Hq) I Hno) as (rs & evs & Ef & R & Es & _ & Ec).
  eexists rs, _. split; [done|]. split; [rewrite Ec; by apply notify_events_lookup|].
  by rewrite tailored_sig, filter_event_sig, Es.
Qed.

End Notify.

(** ** Properties *)

(** Notification. [notify_watchers] appends the event to the channel of each
    registered watcher that wants it and is still listening, without the previous
    value unless the watcher asked for it, and touches no other channel. *)
Theorem notify_watchers_exact ev s :
  own_channels (watchers s) ->
  exists s', notify_watchers ev s = (s', Ok tt) /\ keys s' = keys s
  /\ (forall w, w ∈ watchers s -> chans s' !! wr_sender w = receive w ev <$> chans s !! wr_sender w)
  /\ (forall c, c ∉ wr_sender <$> watchers s -> chans s' !! c = chans s !! c).
Proof.
  intros Ho. eexists. split; [reflexivity|]. split; [done|]. split.
  - intros w Hw. by apply notify_all_lookup.
  - intros c Hc. by apply notify_all_other.
Qed.

#[local] Existing Instance bitwise_crc.
#[local] Existing Instance ref_decoder.
#[local] Existing Instance merge_sort_impl.

(** A watcher on the prefix "a", without deletions, listening on channel 0. *)
Definition demo_watcher : WatchRegistration :=
  mkReg (lit "a") (lit "b") 0 0 7 false [1] false (resolve_range (lit "a") (lit "b")).
Definition demo_watched : StoreState :=
  set_chans {[ O := mkChan [] true ]} (set_watchers [demo_watcher] fresh).

Lemma demo_watched_inv : inv demo_watched.
Proof. apply (inv_same fresh); [done..| |apply fresh_inv]. cbn. lia. Qed.

Lemma notify_watchers_exact_witness :
  exists s', notify_watchers (mkEvent 1 EvPut (lit "a") [] []) demo_watched = (s', Ok tt)
  /\ keys s' = keys demo_watched
  /\ (forall w, w ∈ watchers demo_watched ->
        chans s' !! wr_sender w = receive w (mkEvent 1 EvPut (lit "a") [] []) <$> chans demo_watched !! wr_sender w)
  /\ (forall c, c ∉ wr_sender <$> watchers demo_watched -> chans s' !! c = chans demo_watched !! c).
Proof. apply (notify_watchers_exact (mkEvent 1 EvPut (lit "a") [] []) demo_watched). apply NoDup_singleton. Defined.

End Notify.
