(* ===== verification/OpProps.v ===== *)
(** * What each KV and lease operation does

    Functional specifications of the handlers of src/storage/store.rs on every
    branch: the answer, the entries that change and the ones that do not. *)
From S2P Require Import Prelude Varint KvCodec Wire Crc WalRecord Proto Range SortKvs State Store.
From S2P Require Import Historical Txn Recovery Background System Replay Durability Notify.
Local Open Scope Z_scope.

Module OpProps.
Import KvCodec Wire Crc Wal Proto Range SortKvs State Store Historical Txn Recovery Background System Replay Durability
  Notify.

Section OpProps.
Context `{Crc32c} `{KvDecoder} `{UnstableSort}.

(** ** Put *)

(** The value and lease a request resolves to, given the stored entry. *)
Definition put_value (req : PutRequest) (prev : option KeyState) : bytes :=
  if pr_ignore_value req then match prev with Some k => ks_value k | None => [] end else pr_value req.
Definition put_lease (req : PutRequest) (prev : option KeyState) : Z :=
  if pr_ignore_lease req then match prev with Some k => ks_lease k | None => pr_lease req end else pr_lease req.

(** Validation makes the checks [put_at] repeats pass. *)
Lemma validate_put_ok s req :
  validate_put s req = Ok tt ->
  let prev := get_alive s (pr_key req) in
  ((pr_ignore_value req || pr_ignore_lease req) && match prev with None => true | _ => false end) = false
  /\ (negb (put_lease req prev =? 0)
      && match leases s !! put_lease req prev with None => true | _ => false end) = false.
Proof.
  intros Hv prev. unfold validate_put in Hv. fold prev in Hv. unfold check_key in Hv.
  destruct (pr_key req); [done|]. cbn [outcome_bind] in Hv.
  destruct (pr_ignore_value req && _); [done|]. destruct (pr_ignore_lease req && _); [done|].
  destruct ((pr_ignore_value req || pr_ignore_lease req) && _) eqn:E; [done|]. split; [done|].
  unfold put_lease. by destruct (negb _ && _).
Qed.

Lemma validate_put_no_panic s req w : validate_put s req <> Panic w.
Proof.
  unfold validate_put, check_key. destruct (pr_key req); [done|]. cbn [outcome_bind].
  repeat match goal with |- context [if ?c then Err _ else _] => destruct c; [done|] end. done.
Qed.

(** The record a valid put logs. *)
Definition logged_put (s : StoreState) (req : PutRequest) : KvWalRecord :=
  let prev := get_alive s (pr_key req) in
  put_record prev (pr_key req) (put_value req prev) (put_lease req prev) (next_rev s).

Definition write_failed : Status := mkStatus Internal "etcdserver: wal write failed".

Lemma put_outcome s req :
  inv s -> room 1 s -> validate_put s req = Ok tt ->
  let prev := get_alive s (pr_key req) in
  let s1 := set_next_rev (next_rev s + 1) s in
  put req s
  = match append_kv (wal s) (logged_put s req) with
    | (w, inl _) =>
        (put_effect (pr_key req) (put_value req prev) (put_lease req prev) (next_rev s) None (set_wal w s1),
         Ok (mkPutResponse (Some (mkHeader 1 1 (next_rev s) 1))
               (if pr_prev_kv req then match prev with Some p => ks_kv_bytes p | None => [] end else [])))
    | (w, inr _) => (set_wal w s1, Err write_failed)
    end.
Proof.
  intros I Hroom Hv prev s1. destruct (validate_put_ok s req Hv) as [Hc1 Hc2]. fold prev in Hc1, Hc2.
  pose proof (inv_rev s I). unfold room in Hroom. unfold logged_put. fold prev.
  destruct (append_kv (wal s) (put_record prev (pr_key req) (put_value req prev) (put_lease req prev) (next_rev s)))
    as [w res] eqn:Ew.
  unfold put, bind at 1, get at 1, bind at 1, lift. rewrite Hv. unfold bind at 1, alloc_revision.
  rewrite u64_wrap_small by (unfold is_u64; lia). unfold put_at.
  change (get_alive (set_next_rev (next_rev s + 1) s) (pr_key req)) with prev. rewrite Hc1.
  fold (put_value req prev). fold (put_lease req prev).
  change (leases (set_next_rev (next_rev s + 1) s)) with (leases s). rewrite Hc2.
  change (wal (set_next_rev (next_rev s + 1) s)) with (wal s). rewrite Ew. destruct res as [[]|e]; [|done].
  unfold bind, get, ret. rewrite apply_effect. f_equal. f_equal. f_equal. unfold state_header, current_revision. cbn.
  do 2 f_equal. rewrite Z.max_r by lia. rewrite Z.add_simpl_r. apply i64_wrap_small. unfold is_i64. lia.
Qed.

Lemma put_run s req :
  inv s -> room 1 s -> validate_put s req = Ok tt -> faults (wal s) = [] ->
  let prev := get_alive s (pr_key req) in
  exists w, append_kv (wal s) (logged_put s req) = (w, inl tt)
  /\ put req s
     = (put_effect (pr_key req) (put_value req prev) (put_lease req prev) (next_rev s) None
          (set_wal w (set_next_rev (next_rev s + 1) s)),
        Ok (mkPutResponse (Some (mkHeader 1 1 (next_rev s) 1))
              (if pr_prev_kv req then match prev with Some p => ks_kv_bytes p | None => [] end else []))).
Proof.
  intros I Hroom Hv Hno prev. pose proof (put_outcome s req I Hroom Hv) as E.
  destruct (append_kv (wal s) (logged_put s req)) as [w [[]|e]] eqn:Ew; [|by apply append_kv_fault in Ew]. by exists w.
Qed.

(** ** Delete range *)

(** The blobs [delete_loop] collects, for keys that are alive. *)
Lemma prev_kvs_alive s (want : bool) ks :
  Forall (fun k => is_Some (get_alive s k)) ks ->
  omap (fun e => match e.2 with Some p => if want then Some (ks_kv_bytes p) else None | None => None end)
    (zip ks (get_alive s <$> ks))
  = if want then (fun k => match get_alive s k with Some p => ks_kv_bytes p | None => [] end) <$> ks else [].
Proof.
  induction 1 as [|k ks [p Hp] Ha IH]; [by destruct want|].
  cbn [zip fmap list_fmap zip_with omap list_omap snd]. rewrite Hp. destruct want; [by rewrite <- IH|]. exact IH.
Qed.

(** The header of a store that has just allocated [r]. *)
Lemma header_at r s : inv s -> next_rev s = r + 1 -> 1 <= r -> state_header s = mkHeader 1 1 r 1.
Proof.
  intros I Hn Hr. pose proof (inv_rev s I). unfold state_header, current_revision.
  f_equal. rewrite Hn, Z.add_simpl_r, Z.max_r by lia. apply i64_wrap_small. unfold is_i64. lia.
Qed.

(** The keys a deletion finds. *)
Definition found (s : StoreState) (req : DeleteRangeRequest) : list (list Byte.byte) :=
  alive_keys (in_range (resolve_range (dr_key req) (dr_range_end req)) (keys s)).

Lemma delete_range_run s req :
  inv s -> room 1 s -> dr_key req <> [] -> inverted (resolve_range (dr_key req) (dr_range_end req)) = false ->
  let ks := found s req in
  let s1 := set_next_rev (next_rev s + 1) s in
  delete_range req s
  = match append_kv_batch (wal s) (delete_records s (next_rev s) ks) with
    | (w, inl _) =>
        (foldl (del_effect (next_rev s)) (set_wal w s1) ks,
         Ok (mkDeleteResponse (Some (mkHeader 1 1 (next_rev s) 1)) (Z.of_nat (length ks))
               (if dr_prev_kv req then (fun k => match get_alive s k with Some p => ks_kv_bytes p | None => [] end) <$> ks
                else [])))
    | (w, inr _) => (set_wal w s1, Err write_failed)
    end.
Proof.
  intros I Hroom Hkey Hinv ks s1. pose proof (inv_rev s I) as Hnr. unfold room in Hroom.
  destruct (append_kv_batch (wal s) (delete_records s (next_rev s) ks)) as [w res] eqn:Ew.
  unfold delete_range. destruct (dr_key req) as [|k0 kk] eqn:Ekey; [done|].
  unfold bind at 1, lift at 1, check_key, bind at 1, alloc_revision.
  rewrite u64_wrap_small by (unfold is_u64; lia). fold s1.
  assert (inv s1) as I1.
  { destruct I as [? Hk ? ?]. split; cbn; try done; try lia.
    eapply map_Forall_impl; [apply Hk|]. intros k x. apply ks_ok_mono. lia. }
  unfold delete_range_at, bind at 1, get at 1, bind at 1, lift.
  rewrite Ekey, keys_to_delete_ok by done. change (keys s1) with (keys s). rewrite <- Ekey. fold (found s req). fold ks.
  unfold bind at 1, wal_append_batch. change (wal s1) with (wal s).
  change (delete_records s1 (next_rev s) ks) with (delete_records s (next_rev s) ks). rewrite Ew. destruct res as [[]|e]; [|done].
  destruct (batch_ready 0 s1 w (next_rev s) I1) as (I' & Hr' & Hm); [split; cbn; lia|].
  unfold bind at 1. rewrite delete_loop_effect by done.
  rewrite fst_zip by by rewrite length_fmap. unfold bind, get, ret. f_equal. f_equal. f_equal.
  - destruct (inv_deletes ks _ (next_rev s) I' Hr' Hm) as (I2 & En & _). f_equal. apply header_at; [done|by rewrite En|lia].
  - change (get_alive s1) with (get_alive s). apply prev_kvs_alive, alive_keys_alive.
Qed.

Lemma fold_del_alive m ks rev k :
  rev <> 0 ->
  alive_in (foldl (fun m k => del_keys m k rev) m ks) k = if decide (k ∈ ks) then None else alive_in m k.
Proof.
  intros Hr. revert m. induction ks as [|k0 ks IH]; intros m; [done|]. cbn [foldl].
  rewrite IH, alive_in_del by done. destruct (decide (k ∈ ks)), (decide (k = k0)), (decide (k ∈ k0 :: ks)); set_solver.
Qed.

Lemma fold_del_entry m ks rev k p :
  rev <> 0 -> k ∈ ks -> alive_in m k = Some p ->
  foldl (fun m k => del_keys m k rev) m ks !! k = Some (tombstone rev p).
Proof.
  intros Hr. revert m. induction ks as [|k0 ks IH]; intros m Hk Hp; [by apply not_elem_of_nil in Hk|]. cbn [foldl].
  destruct (decide (k0 = k)) as [->|Hne].
  - assert (del_keys m k rev !! k = Some (tombstone rev p)) as E
      by (unfold del_keys; rewrite Hp; apply lookup_insert_eq).
    assert (forall m, m !! k = Some (tombstone rev p) -> foldl (fun m k => del_keys m k rev) m ks !! k = Some (tombstone rev p))
      as Hkeep; [|by apply Hkeep].
    clear -Hr. induction ks as [|k1 ks IH]; intros m Hm; [done|]. cbn [foldl]. apply IH. unfold del_keys.
    destruct (alive_in m k1) as [q|] eqn:E; [|done]. destruct (decide (k1 = k)) as [->|]; [|by rewrite lookup_insert_ne].
    apply alive_in_Some in E as [E Hd]. rewrite Hm in E. injection E as <-. done.
  - apply elem_of_cons in Hk as [->|Hk]; [done|]. apply IH; [done|].
    rewrite alive_in_del by done. by rewrite decide_False.
Qed.

Lemma fold_del_other m ks rev k :
  k ∉ ks -> foldl (fun m k => del_keys m k rev) m ks !! k = m !! k.
Proof.
  revert m. induction ks as [|k0 ks IH]; intros m Hk; [done|]. cbn [foldl].
  rewrite IH by set_solver. unfold del_keys. destruct (alive_in m k0); [|done].
  rewrite lookup_insert_ne by set_solver. done.
Qed.

(** ** Leases *)

Lemma delete_keys_for_lease_spec id s :
  inv s -> room 1 s -> faults (wal s) = [] ->
  exists s', delete_keys_for_lease id s = (s', Ok tt)
    /\ leases s' = leases s /\ watchers s' = watchers s /\ inv s' /\ faults (wal s') = []
    /\ next_rev s' = (if decide (lease_keys s id = []) then next_rev s else next_rev s + 1)
    /\ (forall k, keys s' !! k = if decide (k ∈ lease_keys s id)
                               then tombstone (next_rev s) <$> get_alive s k else keys s !! k).
Proof.
  intros I Hroom Hno. pose proof (inv_rev s I) as Hnr. unfold room in Hroom.
  unfold delete_keys_for_lease, bind at 1, get at 1.
  destruct (lease_keys s id) as [|k0 ks0] eqn:Eks.
  { exists s. repeat (split; [done|]). intros k. by rewrite decide_False by apply not_elem_of_nil. }
  rewrite <- Eks. unfold bind at 1, alloc_revision. rewrite u64_wrap_small by (unfold is_u64; lia).
  set (s1 := set_next_rev (next_rev s + 1) s). unfold bind at 1, get at 1.
  assert (inv s1) as I1 by (eapply (trans_inv false 0); [apply t_alloc; lia|done]).
  change (delete_records s1 (next_rev s) (lease_keys s id)) with (delete_records s (next_rev s) (lease_keys s id)).
  unfold bind at 1, wal_append_batch. change (wal s1) with (wal s).
  destruct (append_kv_batch (wal s) _) as [w [[]|e]] eqn:Ew; [|by apply append_kv_batch_fault in Ew].
  destruct (batch_ready 0 s1 w (next_rev s) I1) as (I' & Hr' & Hm); [split; cbn; lia|].
  rewrite for_each_delete_effect by done. eexists. split; [reflexivity|].
  destruct (inv_deletes (lease_keys s id) _ _ I' Hr' Hm) as (I2 & En & Ewal).
  destruct (keys_deletes (next_rev s) (lease_keys s id) (set_wal w s1)) as [Ekeys _].
  apply append_kv_batch_ok in Ew as (_ & _ & Efa). rewrite Hno, drop_nil in Efa.
  assert (forall ks s, leases (foldl (del_effect (next_rev s1 - 1)) s ks) = leases s
    /\ watchers (foldl (del_effect (next_rev s1 - 1)) s ks) = watchers s) as Hl.
  { induction ks as [|k ks IH]; intros x; [done|]. cbn [foldl]. destruct (IH (del_effect (next_rev s1 - 1) x k)) as [-> ->].
    by destruct (del_effect_fields (next_rev s1 - 1) x k) as (_ & _ & -> & -> & _). }
  replace (next_rev s1 - 1) with (next_rev s) in Hl by (cbn; lia).
  destruct (Hl (lease_keys s id) (set_wal w s1)) as [-> ->].
  split; [done|]. split; [done|]. split; [done|]. split; [by rewrite Ewal|].
  split; [by rewrite En, decide_False by (by rewrite Eks)|]. intros k. rewrite Ekeys. change (keys (set_wal w s1)) with (keys s).
  destruct (decide (k ∈ lease_keys s id)) as [Hin|Hout]; [|by apply fold_del_other].
  apply elem_of_lease_keys in Hin as Hal. destruct Hal as (p & Hp & _). rewrite Hp. cbn.
  apply fold_del_entry; [lia|done|done].
Qed.

(** ** Properties *)

(** Everything but keys, revision counter, log and channels. *)
Record untouched (s s' : StoreState) : Prop := {
  un_leases : leases s' = leases s;
  un_next_lease_id : next_lease_id s' = next_lease_id s;
  un_watchers : watchers s' = watchers s;
  un_compact : compact_rev s' = compact_rev s;
  un_expiry : expiry_notified s' = expiry_notified s }.

Lemma untouched_deletes rev ks s : untouched s (foldl (del_effect rev) s ks).
Proof.
  revert s. induction ks as [|k ks IH]; intros s; [done|]. cbn [foldl]. destruct (IH (del_effect rev s k)) as [E1 E2 E3 E4 E5].
  split; rewrite ?E1, ?E2, ?E3, ?E4, ?E5; unfold del_effect; by destruct (alive_in (keys s) k).
Qed.

Lemma inv_alloc s : inv s -> room 1 s -> inv (set_next_rev (next_rev s + 1) s).
Proof. intros I Hr. by eapply (trans_inv false 0); [apply t_alloc|]. Qed.

(** C17. Put. A request that fails validation changes nothing and gets the
    validation error. Any other put appends one record to the log. If that fails, the
    answer is an error, part of the record may be in the file, the revision is used
    up, and nothing else has changed. Otherwise the answer is the next revision, with
    the previous blob on demand; the resolved value and lease are stored at that
    revision with the creation revision and version continued from the live entry (or
    started), marked as a rebirth if the key had been deleted, with the blob encoded
    from exactly those fields; every other key is as before, the number of live keys
    is right, and the watchers are sent one event with the new and the previous blob.
    Leases, watchers and the compaction mark are not touched. *)
Theorem put_spec s req :
  inv s -> room 1 s ->
  let key := pr_key req in let prev := get_alive s key in let rev := next_rev s in
  let prev_blob := match prev with Some p => ks_kv_bytes p | None => [] end in
  match validate_put s req with
  | Ok _ =>
      match append_kv (wal s) (logged_put s req) with
      | (w, inl _) =>
          exists s' ks,
            put req s = (s', Ok (mkPutResponse (Some (mkHeader 1 1 rev 1)) (if pr_prev_kv req then prev_blob else [])))
            /\ get_alive s' key = Some ks
            /\ ks_value ks = put_value req prev /\ ks_lease ks = put_lease req prev /\ ks_mod_revision ks = rev
            /\ ks_create_revision ks = match prev with Some p => ks_create_revision p | None => rev end
            /\ ks_version ks = match prev with Some p => i64_wrap (ks_version p + 1) | None => 1 end
            /\ ks_rebirth ks = match keys s !! key with Some k => negb (is_alive k) | None => false end
            /\ ks_kv_bytes ks = make_kv_bytes key ks
            /\ next_rev s' = rev + 1 /\ (forall k, k <> key -> keys s' !! k = keys s !! k) /\ count_ok s'
            /\ wal s' = w /\ file w = file (wal s) ++ serialize (logged_put s req)
            /\ chans s' = notify_events (watchers s) (chans s) [mkEvent rev EvPut key (ks_kv_bytes ks) prev_blob]
            /\ untouched s s'
      | (w, inr _) =>
          put req s = (set_wal w (set_next_rev (rev + 1) s), Err write_failed)
          /\ exists n, file w = file (wal s) ++ take n (serialize (logged_put s req))
      end
  | Err e => put req s = (s, Err e)
  | Panic _ => False
  end.
Proof.
  intros I Hroom key prev rev prev_blob. destruct (validate_put s req) as [[]|e|w] eqn:Hv.
  2: { unfold put, bind, get, lift. by rewrite Hv. }
  2: { by apply validate_put_no_panic in Hv. }
  pose proof (put_outcome s req I Hroom Hv) as Ep. cbv zeta in Ep. fold key prev rev in Ep.
  destruct (append_kv (wal s) (logged_put s req)) as [w [[]|e]] eqn:Ew; [|split; [done|by eapply append_kv_err]].
  eexists _, (put_entry (keys s) key (put_value req prev) (put_lease req prev) rev None).
  split; [exact Ep|]. split.
  { rewrite get_alive_in. cbn [keys put_effect notified set_chans set_key_count set_keys set_wal set_next_rev].
    rewrite alive_in_put. by rewrite decide_True. }
  unfold put_entry. change (alive_in (keys s) key) with prev.
  do 6 (split; [reflexivity|]). split; [rewrite make_kv_bytes_blob; reflexivity|]. split; [done|]. split.
  { intros k Hk. cbn. unfold put_keys. by rewrite lookup_insert_ne. }
  split; [apply count_put_effect; exact (inv_count s I)|]. split; [done|].
  apply append_kv_ok in Ew as (Ef & _). by split.
Qed.

Lemma elem_of_found s req k :
  k ∈ found s req <-> matches_range (resolve_range (dr_key req) (dr_range_end req)) k = true /\ is_Some (get_alive s k).
Proof.
  unfold found. rewrite elem_of_alive_keys. unfold get_alive. split.
  - intros (x & [Hm Hk]%elem_of_in_range & Ha). rewrite Hk, Ha. eauto.
  - intros [Hm [p Hp]]. destruct (keys s !! k) as [x|] eqn:Hk; [|done].
    destruct (is_alive x) eqn:Ha; [|done]. exists x. by rewrite elem_of_in_range.
Qed.

(** What a logged deletion of live keys leaves. *)
Lemma deleted_state s w ks :
  inv s -> room 1 s -> NoDup ks -> Forall (fun k => is_Some (get_alive s k)) ks ->
  let rev := next_rev s in
  let s' := foldl (del_effect rev) (set_wal w (set_next_rev (rev + 1) s)) ks in
  next_rev s' = rev + 1 /\ inv s' /\ wal s' = w /\ untouched s s'
  /\ (forall k, keys s' !! k = if decide (k ∈ ks) then tombstone rev <$> get_alive s k else keys s !! k)
  /\ chans s' = notify_events (watchers s) (chans s) (del_events s rev ks).
Proof.
  intros I Hroom Hnd Ha rev s'. pose proof (inv_rev s I) as Hnr. set (s1 := set_wal w (set_next_rev (rev + 1) s)) in *.
  destruct (batch_ready 0 _ w rev (inv_alloc s I Hroom)) as (I' & Hr' & Hm); [split; cbn; lia|]. fold s1 in I', Hr', Hm.
  destruct (inv_deletes ks s1 _ I' Hr' Hm) as (I2 & En & Ew). split; [exact En|]. split; [done|]. split; [done|].
  split; [by destruct (untouched_deletes rev ks s1); split|]. split; [|by apply (deletes_notify rev ks s1); [lia|]].
  intros k. destruct (keys_deletes rev ks s1) as [Ek _]. unfold s'. rewrite Ek.
  destruct (decide (k ∈ ks)) as [Hin|Hout]; [|by apply fold_del_other].
  rewrite Forall_forall in Ha. destruct (Ha k Hin) as [p Hp]. rewrite Hp. apply fold_del_entry; [lia|done|done].
Qed.

Lemma prev_blobs s ks :
  Forall (fun k => is_Some (get_alive s k)) ks ->
  (fun k => match get_alive s k with Some p => ks_kv_bytes p | None => [] end) <$> ks = omap (fun k => ks_kv_bytes <$> get_alive s k) ks.
Proof. intros Ha. induction Ha as [|k ks [p Hp] Ha IH]; [done|]. cbn. rewrite Hp. cbn. by rewrite IH. Qed.

Lemma delete_range_outcome s req :
  let bound := resolve_range (dr_key req) (dr_range_end req) in
  inv s -> room 1 s -> faults (wal s) = [] -> dr_key req <> [] -> inverted bound = false ->
  exists s' ks prevs,
    delete_range req s = (s', Ok (mkDeleteResponse (Some (mkHeader 1 1 (next_rev s) 1)) (Z.of_nat (length ks)) prevs))
    /\ (forall k, k ∈ ks <-> matches_range bound k = true /\ is_Some (get_alive s k)) /\ NoDup ks
    /\ (forall k, keys s' !! k = if decide (k ∈ ks) then tombstone (next_rev s) <$> get_alive s k else keys s !! k).
Proof.
  intros bound I Hroom Hno Hkey Hinv. pose proof (delete_range_run s req I Hroom Hkey Hinv) as E.
  destruct (append_kv_batch (wal s) (delete_records s (next_rev s) (found s req))) as [w [[]|e]] eqn:Ew;
    cbv zeta in E; rewrite Ew in E; [|by apply append_kv_batch_fault in Ew].
  eexists _, (found s req), _. split; [exact E|]. split; [apply elem_of_found|]. split; [apply alive_keys_NoDup|].
  by apply (deleted_state s w); [..|apply alive_keys_NoDup|apply alive_keys_alive].
Qed.

Lemma found_sorted s req : StronglySorted key_le (found s req).
Proof.
  eapply StronglySorted_sublist; [|apply (btree_iter_sorted (keys s))]. unfold found, alive_keys, in_range.
  etrans; [apply filter_sublist_fst|apply filter_sublist_fst].
Qed.

Lemma inverted_delete s req :
  dr_key req <> [] -> inverted (resolve_range (dr_key req) (dr_range_end req)) = true ->
  exists w, (delete_range req s).2 = Panic w.
Proof.
  intros Hkey Hinv. unfold delete_range, bind, lift. destruct (dr_key req) as [|b k] eqn:Ek; [done|].
  cbn [check_key]. unfold alloc_revision, delete_range_at, bind, get, lift. rewrite Ek.
  destruct (resolve_range (b :: k) (dr_range_end req)) as [| | | |x y] eqn:Eb; try done.
  pose proof (bounds_iter_inverted (set_next_rev (u64_wrap (next_rev s + 1)) s) (Range x y) Hinv) as Hp.
  cbn [btree_bounds bounds_iter keys set_next_rev] in Hp. cbn -[btree_range]. rewrite Hp. by eexists.
Qed.

(** C18. Delete range. An empty key is refused. A range whose end lies below its
    start panics. Otherwise the live keys of the range are found, in key order, and one
    record for each is appended to the log. If that fails, the answer is an error, part of the
    records may be in the file, the revision is used up, and nothing else has changed.
    Otherwise exactly those keys become tombstones of their last values, all at one
    new revision; the answer has their number and, on demand, their blobs; the number
    of live keys is right; the watchers are sent one deletion event per key, in the
    same order; and every other key, leases, watchers and the compaction mark are as
    before. *)
Theorem delete_range_spec s req :
  inv s -> room 1 s ->
  let bound := resolve_range (dr_key req) (dr_range_end req) in let rev := next_rev s in
  if bytes_eqb (dr_key req) [] then exists e, delete_range req s = (s, Err e)
  else if inverted bound then exists w, (delete_range req s).2 = Panic w
  else exists ks, (forall k, k ∈ ks <-> matches_range bound k = true /\ is_Some (get_alive s k)) /\ NoDup ks /\ StronglySorted key_le ks
    /\ match append_kv_batch (wal s) (delete_records s rev ks) with
       | (w, inl _) =>
           exists s', delete_range req s
             = (s', Ok (mkDeleteResponse (Some (mkHeader 1 1 rev 1)) (Z.of_nat (length ks))
                          (if dr_prev_kv req then omap (fun k => ks_kv_bytes <$> get_alive s k) ks else [])))
             /\ next_rev s' = rev + 1
             /\ (forall k, keys s' !! k = if decide (k ∈ ks) then tombstone rev <$> get_alive s k else keys s !! k)
             /\ count_ok s' /\ wal s' = w /\ file w = file (wal s) ++ log_bytes (delete_records s rev ks)
             /\ chans s' = notify_events (watchers s) (chans s) (del_events s rev ks) /\ untouched s s'
       | (w, inr _) =>
           delete_range req s = (set_wal w (set_next_rev (rev + 1) s), Err write_failed)
           /\ exists n, file w = file (wal s) ++ take n (log_bytes (delete_records s rev ks))
       end.
Proof.
  intros I Hroom bound rev. unfold bytes_eqb. case_bool_decide as Hkey.
  { eexists. unfold delete_range, bind, lift. by rewrite Hkey. }
  destruct (inverted bound) eqn:Hinv; [by eapply inverted_delete|].
  exists (found s req). split; [apply elem_of_found|]. split; [apply alive_keys_NoDup|]. split; [apply found_sorted|].
  pose proof (delete_range_run s req I Hroom Hkey Hinv) as E. cbv zeta in E. fold rev in E.
  destruct (append_kv_batch (wal s) (delete_records s rev (found s req))) as [w [[]|e]] eqn:Ew;
    [|split; [done|by eapply append_kv_batch_err]].
  destruct (deleted_state s w (found s req) I Hroom) as (En & I' & Ewal & Hun & Hk & Hc); [apply alive_keys_NoDup|apply alive_keys_alive|].
  eexists. split; [rewrite E, prev_blobs by apply alive_keys_alive; reflexivity|]. do 2 (split; [done|]).
  split; [apply I'|]. split; [done|]. apply append_kv_batch_ok in Ew as (Ef & _). by split.
Qed.


(** Compact. The compaction mark moves only forward and never past the
    current revision; a request outside that window (a negative one included)
    is refused and changes nothing. *)
Theorem compact_spec s rev :
  inv s -> is_i64 rev ->
  (compact_rev s < rev <= current_revision s
   /\ compact rev s = (set_compact_rev rev s, Ok (state_header s)))
  \/ (~ compact_rev s < rev <= current_revision s /\ exists msg, compact rev s = (s, Err (mkStatus OutOfRange msg))).
Proof.
  intros I Hr. pose proof (inv_rev s I). pose proof (inv_compact s I). unfold compact, fail, lift.
  unfold current_revision in *. unfold is_i64 in Hr. destruct (decide (0 <= rev)) as [Hp|Hn].
  - rewrite (u64_wrap_small rev) by (unfold is_u64; lia).
    destruct (Z.ltb_spec (Z.max 0 (next_rev s - 1)) rev); [right; split; [lia|by eexists]|].
    destruct (Z.leb_spec rev (compact_rev s)); [right; split; [lia|by eexists]|left; split; [lia|done]].
  - right. split; [lia|].
    assert (u64_wrap rev = rev + 2 ^ 64) as ->.
    { unfold u64_wrap. rewrite <- (Z.mod_add rev 1) by lia. apply Z.mod_small. lia. }
    rewrite (proj2 (Z.ltb_lt _ _)) by lia. by eexists.
Qed.

(** C28. Lease grant. For every requested TTL the answer is an error or a lease
    that expires exactly its (clamped) TTL later: the deadline arithmetic never
    panics, and an accepted TTL is at least two seconds. *)
Theorem lease_grant_spec now req s :
  clock_ok now -> is_i64 (lg_ttl req) ->
  match lease_grant now req s with
  | (s', Ok resp) =>
      let id := lgs_id resp in let ttl := lgs_ttl resp in
      ttl = Z.max (lg_ttl req) 2 /\ lg_ttl req <= LEASE_MAX_TTL /\ (lg_id req <> 0 -> id = lg_id req)
      /\ leases s !! id = None
      /\ leases s' = <[id := mkLease id ttl (now + ttl * 1000000000) 0]> (leases s)
      /\ keys s' = keys s /\ expiry_notified s' = true
  | (s', Err e) => leases s' = leases s /\ keys s' = keys s
      /\ (code e = OutOfRange /\ LEASE_MAX_TTL < lg_ttl req \/ code e = FailedPrecondition)
  | (_, Panic _) => False
  end.
Proof.
  intros Hc Ht. unfold is_i64, clock_ok in *. unfold lease_grant, bind, lift, check_lease_ttl.
  destruct (Z.ltb_spec LEASE_MAX_TTL (lg_ttl req)) as [Hbig|Hok]; [cbn; auto|].
  assert (instant_add now (Z.max (lg_ttl req) LEASE_MIN_TTL)
    = Ok (now + Z.max (lg_ttl req) 2 * 1000000000)) as Ei.
  { unfold instant_add, LEASE_MIN_TTL. assert (LEASE_MAX_TTL = 9223372035) as E by reflexivity. rewrite E in Hok.
    rewrite u64_wrap_small by (unfold is_u64; lia).
    assert (now / 1000000000 < 2 ^ 62) by (apply Z.div_lt_upper_bound; lia).
    by rewrite (proj2 (Z.ltb_lt _ _)) by lia. }
  destruct (Z.eqb_spec (lg_id req) 0) as [E0|E0]; cbn [negb].
  - unfold alloc_lease_id, get, modify, ret. cbn [leases set_next_lease_id].
    destruct (leases s !! next_lease_id s) eqn:El; [cbn; auto|]. rewrite Ei. cbn.
    repeat split; try done.
  - unfold get, modify, ret. destruct (leases s !! lg_id req) eqn:El; [cbn; auto|]. rewrite Ei. cbn.
    repeat split; try done.
Qed.

(** C27. Lease revoke. Revoking an existing lease removes it and deletes exactly
    the live keys attached to it, all at one new revision (none is taken when no
    key is attached); revoking an unknown lease changes nothing. *)
Theorem lease_revoke_spec id s :
  inv s -> room 1 s -> faults (wal s) = [] ->
  match leases s !! id with
  | None => lease_revoke id s = (s, Err (mkStatus NotFound "etcdserver: requested lease not found"))
  | Some _ =>
      exists s', lease_revoke id s = (s', Ok (state_header s')) /\ leases s' = delete id (leases s)
        /\ next_rev s' = (if decide (lease_keys s id = []) then next_rev s else next_rev s + 1)
        /\ forall k, keys s' !! k
             = match get_alive s k with
               | Some p => if decide (ks_lease p = id) then Some (tombstone (next_rev s) p) else keys s !! k
               | None => keys s !! k
               end
  end.
Proof.
  intros I Hroom Hno. destruct (leases s !! id) as [ls|] eqn:El;
    [|unfold lease_revoke, bind, get; by rewrite El].
  set (s1 := set_notified true (set_leases (delete id (leases s)) s)).
  assert (inv s1) as I1 by (apply (inv_same s); try done; apply (inv_compact s I)).
  destruct (delete_keys_for_lease_spec id s1 I1 Hroom Hno) as (s' & Ed & Els & _ & _ & _ & En & Ek).
  exists s'. unfold lease_revoke, bind, get at 1. rewrite El. unfold modify. fold s1. rewrite Ed. unfold get, ret. split; [done|]. split; [done|].
  split; [done|]. intros k. rewrite Ek.
  change (lease_keys s1 id) with (lease_keys s id). change (get_alive s1 k) with (get_alive s k).
  change (keys s1) with (keys s). change (next_rev s1) with (next_rev s).
  destruct (decide (k ∈ lease_keys s id)) as [Hin|Hout].
  - apply elem_of_lease_keys in Hin as (p & -> & Hl). by rewrite decide_True.
  - destruct (get_alive s k) as [p|] eqn:Ep; [|done]. rewrite decide_False; [done|].
    intros Hl. apply Hout, elem_of_lease_keys. eauto.
Qed.

(** *** Expiry *)

(** What is alive once a lease's keys became tombstones. *)
Lemma lease_keys_dropped id s s' :
  1 <= next_rev s ->
  (forall k, keys s' !! k = if decide (k ∈ lease_keys s id)
                            then tombstone (next_rev s) <$> get_alive s k else keys s !! k) ->
  forall k, get_alive s' k
    = match get_alive s k with Some p => if decide (ks_lease p = id) then None else Some p | None => None end.
Proof.
  intros Hnr Ek k. unfold get_alive at 1. rewrite Ek. destruct (decide (k ∈ lease_keys s id)) as [Hin|Hout].
  - apply elem_of_lease_keys in Hin as (p & -> & Hl). cbn. unfold is_alive. cbn.
    rewrite (proj2 (Z.eqb_neq _ 0)) by lia. by rewrite decide_True.
  - fold (get_alive s k). destruct (get_alive s k) as [p|] eqn:Ep; [|done]. rewrite decide_False; [done|].
    intros Hl. apply Hout, elem_of_lease_keys. eauto.
Qed.

Lemma expire_lease_spec id s :
  inv s -> room 1 s -> faults (wal s) = [] ->
  exists s', expire_lease id s = (s', Ok tt) /\ leases s' = delete id (leases s) /\ inv s' /\ faults (wal s') = []
    /\ next_rev s <= next_rev s' <= next_rev s + 1
    /\ forall k, get_alive s' k
         = match get_alive s k with Some p => if decide (ks_lease p = id) then None else Some p | None => None end.
Proof.
  intros I Hroom Hno. set (s1 := set_leases (delete id (leases s)) s).
  assert (inv s1) as I1 by (apply (inv_same s); try done; apply (inv_compact s I)).
  destruct (delete_keys_for_lease_spec id s1 I1 Hroom Hno) as (s' & Ed & Els & _ & I' & Hno' & En & Ek).
  exists s'. unfold expire_lease, bind, modify, log_error. fold s1. rewrite Ed.
  split; [done|]. split; [done|]. split; [done|]. split; [done|].
  split; [rewrite En; cbn; destruct (decide _); lia|]. pose proof (inv_rev s I) as Hnr.
  apply (lease_keys_dropped id s1); [cbn; lia|done].
Qed.

Lemma expire_leases_spec ids s :
  inv s -> room (Z.of_nat (length ids)) s -> faults (wal s) = [] ->
  exists s', for_each expire_lease ids s = (s', Ok tt)
    /\ (forall id, leases s' !! id = if decide (id ∈ ids) then None else leases s !! id)
    /\ forall k, get_alive s' k
         = match get_alive s k with Some p => if decide (ks_lease p ∈ ids) then None else Some p | None => None end.
Proof.
  revert s. induction ids as [|id ids IH]; intros s I Hroom Hno.
  { exists s. split; [done|].
    split; [intros id|intros k; destruct (get_alive s k) as [p|]; [|done]]; by rewrite decide_False by apply not_elem_of_nil. }
  cbn [length] in Hroom. destruct (expire_lease_spec id s I) as (s1 & E1 & El1 & I1 & Hno1 & Hn1 & Ea1);
    [unfold room in *; lia|done|].
  destruct (IH s1 I1) as (s' & E' & El' & Ea'); [unfold room in *; lia|done|].
  exists s'. cbn [for_each]. unfold bind. rewrite E1. split; [done|]. split.
  - intros i. rewrite El', El1. destruct (decide (i = id)) as [->|Hne].
    + rewrite lookup_delete_eq, (decide_True (P := id ∈ id :: ids)) by left. by destruct (decide _).
    + rewrite lookup_delete_ne by done. destruct (decide (i ∈ ids)), (decide (i ∈ id :: ids)); set_solver.
  - intros k. rewrite Ea', Ea1. destruct (get_alive s k) as [p|]; [|done].
    destruct (decide (ks_lease p = id)) as [->|Hne].
    + by rewrite decide_True by left.
    + destruct (decide (ks_lease p ∈ ids)), (decide (ks_lease p ∈ id :: ids)); set_solver.
Qed.

Lemma expiry_pass now s :
  inv s -> room (Z.of_nat (size (leases s))) s -> faults (wal s) = [] ->
  exists s', expiry_step now s = (s', Ok tt)
    /\ (forall id, leases s' !! id
          = match leases s !! id with Some ls => if ls_expires_at ls <=? now then None else Some ls | None => None end)
    /\ forall k, get_alive s' k
         = match get_alive s k with
           | Some p => match leases s !! ks_lease p with
                       | Some ls => if ls_expires_at ls <=? now then None else Some p
                       | None => Some p
                       end
           | None => None
           end.
Proof.
  intros I Hroom Hno.
  assert (forall id, id ∈ expired_leases now s <-> exists ls, leases s !! id = Some ls /\ ls_expires_at ls <= now) as Hex.
  { intros id. unfold expired_leases. rewrite list_elem_of_fmap. split.
    - intros ([i ls] & -> & [He Hin%elem_of_btree_iter]%list_elem_of_filter). eauto.
    - intros (ls & Hl & He). exists (id, ls). by rewrite list_elem_of_filter, elem_of_btree_iter. }
  assert (length (expired_leases now s) <= size (leases s))%nat as Hlen.
  { unfold expired_leases. rewrite length_fmap, <- btree_iter_length. apply length_filter. }
  destruct (expire_leases_spec (expired_leases now s) s I) as (s1 & E1 & El & Ea);
    [unfold room in *; lia|done|].
  assert (exists s', expiry_step now s = (s', Ok tt) /\ leases s' = leases s1 /\ keys s' = keys s1) as (s' & E' & El' & Ek').
  { unfold expiry_step, bind at 1, get at 1. destruct (expired_leases now s) as [|i ids] eqn:Ee.
    - exists s. injection E1 as <-. done.
    - unfold bind. rewrite E1. eexists. done. }
  exists s'. split; [done|]. split.
  - intros id. rewrite El', El. destruct (decide (id ∈ expired_leases now s)) as [Hin|Hout].
    + apply Hex in Hin as (ls & -> & He). by rewrite (proj2 (Z.leb_le _ _)).
    + destruct (leases s !! id) as [ls|] eqn:E; [|done].
      destruct (Z.leb_spec (ls_expires_at ls) now); [|done]. destruct Hout. apply Hex. eauto.
  - intros k. change (get_alive s' k) with (alive_in (keys s') k). rewrite Ek'. change (alive_in (keys s1) k) with (get_alive s1 k).
    rewrite Ea. destruct (get_alive s k) as [p|]; [|done].
    destruct (decide (ks_lease p ∈ expired_leases now s)) as [Hin|Hout].
    + apply Hex in Hin as (ls & -> & He). by rewrite (proj2 (Z.leb_le _ _)).
    + destruct (leases s !! ks_lease p) as [ls|] eqn:E; [|done].
      destruct (Z.leb_spec (ls_expires_at ls) now); [|done]. destruct Hout. apply Hex. eauto.
Qed.

(** C26. Lease expiry. One pass of the expiry task removes exactly the leases whose
    deadline has passed and deletes exactly the live keys attached to them. *)
Theorem expiry_step_spec now s :
  inv s -> room (Z.of_nat (size (leases s))) s -> faults (wal s) = [] ->
  exists s', expiry_step now s = (s', Ok tt)
    /\ (forall id, leases s' !! id
          = match leases s !! id with Some ls => if ls_expires_at ls <=? now then None else Some ls | None => None end)
    /\ forall k, get_alive s' k
         = match get_alive s k with
           | Some p => match leases s !! ks_lease p with
                       | Some ls => if ls_expires_at ls <=? now then None else Some p
                       | None => Some p
                       end
           | None => None
           end.
Proof. apply expiry_pass. Qed.

End OpProps.

#[local] Existing Instance bitwise_crc.
#[local] Existing Instance ref_decoder.
#[local] Existing Instance merge_sort_impl.

(** A store with a lease and a key attached to it. *)
Definition leased : StoreState :=
  run [CmdLeaseGrant 0 (mkGrant 10 5); CmdPut (mkPut (lit "k") (lit "v") 5 false false false);
       CmdPut (put_req "free" "1")] fresh.

Lemma leased_inv : inv leased.
Proof. apply run_logs. repeat split; by vm_compute. Qed.

(** A put of a key under a lease that keeps value and lease, on a store whose watchers
    and log accept everything. *)
Lemma put_spec_witness :
  let req := mkPut (lit "k") [] 0 true true true in
  exists s' ks, put req leased = (s', Ok (mkPutResponse (Some (mkHeader 1 1 3 1)) (kv_blob (lit "k") (lit "v") 1 1 1 5)))
    /\ get_alive s' (lit "k") = Some ks /\ ks_value ks = lit "v" /\ ks_lease ks = 5 /\ ks_version ks = 2
    /\ count_ok s' /\ untouched leased s'.
Proof.
  intros req. pose proof (put_spec leased req leased_inv ltac:(by vm_compute)) as Hp. cbv zeta in Hp.
  assert (validate_put leased req = Ok tt) as Hv by by vm_compute.
  assert ((append_kv (wal leased) (logged_put leased req)).2 = inl tt) as Ha by by vm_compute.
  rewrite Hv in Hp. destruct (append_kv (wal leased) (logged_put leased req)) as [w [[]|e]]; [|by cbn in Ha].
  destruct Hp as (s' & ks & E & Hk & Hval & Hl & _ & _ & Hver & _ & _ & _ & _ & Hc & _ & _ & _ & Hu).
  exists s', ks. split; [rewrite E; by vm_compute|]. split; [exact Hk|]. split; [rewrite Hval; by vm_compute|].
  split; [rewrite Hl; by vm_compute|]. split; [rewrite Hver; by vm_compute|]. by split.
Defined.

Lemma delete_range_spec_witness :
  let req := mkDelete (lit "a") (lit "z") true in
  exists s' ks prevs,
    delete_range req leased = (s', Ok (mkDeleteResponse (Some (mkHeader 1 1 3 1)) (Z.of_nat (length ks)) prevs))
    /\ (forall k, k ∈ ks <-> matches_range (Range (lit "a") (lit "z")) k = true /\ is_Some (get_alive leased k)) /\ untouched leased s'.
Proof.
  intros req. pose proof (delete_range_spec leased req leased_inv ltac:(by vm_compute)) as Hd. cbv zeta in Hd.
  assert (bytes_eqb (dr_key req) [] = false) as E1 by by vm_compute.
  assert (inverted (resolve_range (dr_key req) (dr_range_end req)) = false) as E2 by by vm_compute.
  rewrite E1, E2 in Hd. destruct Hd as (ks & Hks & _ & _ & Hd).
  assert (faults (wal leased) = []) as Hno by by vm_compute.
  destruct (append_kv_batch (wal leased) (delete_records leased (next_rev leased) ks)) as [w [[]|e]] eqn:Ea;
    [|by apply append_kv_batch_fault in Ea].
  destruct Hd as (s' & E & _ & _ & _ & _ & _ & _ & Hu). exists s', ks. eexists. split; [exact E|]. split; [exact Hks|exact Hu].
Defined.




Lemma compact_spec_witness :
  (compact_rev leased < 1 <= current_revision leased
   /\ compact 1 leased = (set_compact_rev 1 leased, Ok (state_header leased)))
  \/ (~ compact_rev leased < 1 <= current_revision leased
      /\ exists msg, compact 1 leased = (leased, Err (mkStatus OutOfRange msg))).
Proof. apply (compact_spec leased 1); [exact leased_inv|unfold is_i64; lia]. Defined.

Lemma lease_grant_spec_witness :
  match lease_grant 7 (mkGrant (-1) 9) leased with
  | (s', Ok resp) =>
      let id := lgs_id resp in let ttl := lgs_ttl resp in
      ttl = Z.max (-1) 2 /\ -1 <= LEASE_MAX_TTL /\ (9 <> 0 -> id = 9)
      /\ leases leased !! id = None
      /\ leases s' = <[id := mkLease id ttl (7 + ttl * 1000000000) 0]> (leases leased)
      /\ keys s' = keys leased /\ expiry_notified s' = true
  | (s', Err e) => leases s' = leases leased /\ keys s' = keys leased
      /\ (code e = OutOfRange /\ LEASE_MAX_TTL < -1 \/ code e = FailedPrecondition)
  | (_, Panic _) => False
  end.
Proof. apply (lease_grant_spec 7 (mkGrant (-1) 9) leased); [unfold clock_ok; lia|unfold is_i64; cbn; lia]. Defined.

Lemma lease_revoke_spec_witness :
  match leases leased !! 5 with
  | None => lease_revoke 5 leased = (leased, Err (mkStatus NotFound "etcdserver: requested lease not found"))
  | Some _ =>
      exists s', lease_revoke 5 leased = (s', Ok (state_header s')) /\ leases s' = delete 5 (leases leased)
        /\ next_rev s' = (if decide (lease_keys leased 5 = []) then next_rev leased else next_rev leased + 1)
        /\ forall k, keys s' !! k
             = match get_alive leased k with
               | Some p => if decide (ks_lease p = 5) then Some (tombstone (next_rev leased) p) else keys leased !! k
               | None => keys leased !! k
               end
  end.
Proof. apply (lease_revoke_spec 5 leased); [exact leased_inv|by vm_compute|by vm_compute]. Defined.

Lemma expiry_step_spec_witness :
  exists s', expiry_step 20000000000 leased = (s', Ok tt)
    /\ (forall id, leases s' !! id
          = match leases leased !! id with
            | Some ls => if ls_expires_at ls <=? 20000000000 then None else Some ls | None => None end)
    /\ forall k, get_alive s' k
         = match get_alive leased k with
           | Some p => match leases leased !! ks_lease p with
                       | Some ls => if ls_expires_at ls <=? 20000000000 then None else Some p
                       | None => Some p
                       end
           | None => None
           end.
Proof. apply (expiry_step_spec 20000000000 leased); [exact leased_inv|by vm_compute|by vm_compute]. Defined.

(** A server-chosen lease id can collide with one a client chose, and is then
    refused instead of another being picked. *)
Example auto_lease_id_collides :
  (lease_grant 0 (mkGrant 10 0) (run [CmdLeaseGrant 0 (mkGrant 10 1)] fresh)).2
  = Err (mkStatus FailedPrecondition "etcdserver: lease already exists").
Proof. by vm_compute. Qed.

End OpProps.
