(* ===== verification/Preserve.v ===== *)
(** * Predicates that every operation keeps

    A predicate kept by the primitive updates (allocating a revision, writing the
    log, a put, a deletion) is kept by every command built from them, whatever the
    command answers. Components state theirs as a [Kept] instance. *)
From S2P Require Import Prelude Varint KvCodec Wire Crc WalRecord Proto Range SortKvs State Store.
From S2P Require Import Historical Txn Recovery Background.
Local Open Scope Z_scope.

Module Preserve.
Import KvCodec Wire Crc Wal Proto Range SortKvs State Store Historical Txn Recovery Background.

Section Preserve.
Context `{Crc32c} `{KvDecoder} `{UnstableSort}.

Definition keeps (P : StoreState -> Prop) {A} (m : M A) : Prop := forall s, P s -> P (m s).1.

(** What a predicate promises of the primitive updates. *)
Class Kept (P : StoreState -> Prop) : Prop := {
  kept_alloc_revision : keeps P alloc_revision;
  kept_apply_delete key rev : keeps P (apply_delete key rev);
  kept_wal_append_batch rs msg : keeps P (wal_append_batch rs msg);
  kept_put_at req rev : keeps P (put_at req rev) }.

Section Combinators.
Context (P : StoreState -> Prop).

Lemma keeps_bind {A B} (m : M A) (f : A -> M B) : keeps P m -> (forall a, keeps P (f a)) -> keeps P (bind m f).
Proof. intros Hm Hf s L. specialize (Hm s L). unfold bind. destruct (m s) as [s' [a|e|w]]; [by apply Hf|done..]. Qed.

Lemma keeps_pure {A} (m : M A) : (forall s, (m s).1 = s) -> keeps P m.
Proof. intros Hm s L. by rewrite Hm. Qed.

Lemma keeps_for_each {A} (f : A -> M unit) l : (forall a, keeps P (f a)) -> keeps P (for_each f l).
Proof. intros Hf. induction l; cbn [for_each]; [by apply keeps_pure|]. by apply keeps_bind. Qed.

Lemma keeps_ops_loop body path ops i acc :
  (forall op p a, keeps P (body op p a)) -> keeps P (ops_loop body path ops i acc).
Proof.
  intros Hb. revert i acc. induction ops as [|op ops IH]; intros i acc; cbn [ops_loop]; [by apply keeps_pure|].
  apply keeps_bind; [apply Hb|]. intros [r acc']. apply keeps_bind; [apply IH|]. intros [rs acc'']. by apply keeps_pure.
Qed.

Lemma keeps_log_error {A} (m : M A) : keeps P m -> keeps P (log_error m).
Proof. intros Hm s L. specialize (Hm s L). unfold log_error. by destruct (m s) as [s' []]. Qed.

End Combinators.

Section Commands.
Context (P : StoreState -> Prop) `{!Kept P}.

Lemma keeps_delete_loop want rev l : keeps P (delete_loop want rev l).
Proof.
  induction l as [|[k p] l IH]; cbn [delete_loop]; [by apply keeps_pure|].
  apply keeps_bind; [apply kept_apply_delete|]. intros _. apply keeps_bind; [done|]. intros rest. by apply keeps_pure.
Qed.

Lemma keeps_delete_range_at req rev : keeps P (delete_range_at req rev).
Proof.
  unfold delete_range_at. apply keeps_bind; [by apply keeps_pure|]. intros s.
  apply keeps_bind; [by apply keeps_pure|]. intros ks. apply keeps_bind; [apply kept_wal_append_batch|]. intros _.
  apply keeps_bind; [apply keeps_delete_loop|]. intros prevs. apply keeps_bind; [by apply keeps_pure|].
  intros s'. by apply keeps_pure.
Qed.

Lemma keeps_get_or_alloc rev : keeps P (get_or_alloc rev).
Proof. destruct rev; [by apply keeps_pure|apply kept_alloc_revision]. Qed.

Lemma keeps_txn_op_step depth op path acc :
  (forall o p a, depth < 1 -> keeps P (apply_txn_op (depth + 1) o p a)) -> keeps P (apply_txn_op depth op path acc).
Proof.
  intros Hnest. destruct acc as [rev deferred].
  destruct op as [r|p|d|[cmp suc fl]|]; cbn [apply_txn_op]; [destruct (0 <? _); [by apply keeps_pure|]| | | |by apply keeps_pure].
  - repeat (apply keeps_bind; [by apply keeps_pure|intros ?]). by apply keeps_pure.
  - do 2 (apply keeps_bind; [by apply keeps_pure|intros ?]). apply keeps_bind; [apply keeps_get_or_alloc|]. intros r.
    apply keeps_bind; [apply kept_put_at|]. intros resp. by apply keeps_pure.
  - apply keeps_bind; [by apply keeps_pure|intros ?]. apply keeps_bind; [apply keeps_get_or_alloc|]. intros r.
    apply keeps_bind; [apply keeps_delete_range_at|]. intros resp. by apply keeps_pure.
  - destruct (Z.leb_spec 1 depth); [by apply keeps_pure|]. apply keeps_bind; [by apply keeps_pure|]. intros s.
    apply keeps_bind; [|intros [nested acc']; apply keeps_bind; [by apply keeps_pure|intros ?; by apply keeps_pure]].
    destruct (forallb _ cmp); apply (keeps_ops_loop P (apply_txn_op (depth + 1))); intros; by apply Hnest.
Qed.

Lemma keeps_txn req : keeps P (txn req).
Proof.
  unfold txn. apply keeps_bind; [by apply keeps_pure|]. intros _. destruct req as [cmp suc fl].
  apply keeps_bind.
  - unfold txn_locked. apply keeps_bind; [by apply keeps_pure|]. intros s. apply keeps_bind.
    + apply keeps_ops_loop. intros op p a. apply keeps_txn_op_step. intros o p' a' _.
      apply keeps_txn_op_step. intros. lia.
    + intros [rs [rev deferred]]. apply keeps_bind; [by apply keeps_pure|]. intros s'. by apply keeps_pure.
  - intros [[[b h] rs] deferred]. repeat (apply keeps_bind; [by apply keeps_pure|intros ?]). by apply keeps_pure.
Qed.

Lemma keeps_put req : keeps P (put req).
Proof.
  unfold put. repeat (apply keeps_bind; [by apply keeps_pure|intros ?]).
  apply keeps_bind; [apply kept_alloc_revision|]. intros r. apply kept_put_at.
Qed.

Lemma keeps_delete_range req : keeps P (delete_range req).
Proof.
  unfold delete_range. apply keeps_bind; [by apply keeps_pure|]. intros _.
  apply keeps_bind; [apply kept_alloc_revision|]. intros r. apply keeps_delete_range_at.
Qed.

Lemma keeps_delete_keys_for_lease id : keeps P (delete_keys_for_lease id).
Proof.
  unfold delete_keys_for_lease. apply keeps_bind; [by apply keeps_pure|]. intros s.
  destruct (lease_keys s id); [by apply keeps_pure|]. apply keeps_bind; [apply kept_alloc_revision|]. intros rev.
  apply keeps_bind; [by apply keeps_pure|]. intros s'. apply keeps_bind; [apply kept_wal_append_batch|]. intros _.
  apply keeps_for_each. intros key. apply keeps_bind; [apply kept_apply_delete|]. intros ?. by apply keeps_pure.
Qed.

End Commands.
End Preserve.
End Preserve.
