(* ===== verification/Expiry.v ===== *)
(** * The lease expiry task (start_expiry_task of src/storage/background.rs)

    The task computes how long to sleep under a read lock, sleeps until then or
    until it is notified, and expires leases under the write lock. Here it runs
    beside the store and a clock, and other tasks run between its steps: no lease
    is slept past, in spite of grants and renewals between the computation and the
    sleep. *)
From S2P Require Import Prelude Varint KvCodec Wire Crc WalRecord Proto Range SortKvs State Store.
From S2P Require Import Historical Txn Recovery Background System Replay Durability OpProps Preserve.
Local Open Scope Z_scope.

Module Expiry.
Import KvCodec Wire Crc Wal Proto Range SortKvs State Store Historical Txn Recovery Background System Replay
  Durability OpProps Preserve.

(** Where the task is: before the read lock; with a duration computed at some
    instant; asleep, [late] nanoseconds after the computation, until an instant; or
    before the write lock. *)
Inductive ExpiryPhase :=
| ExCompute
| ExSelect (computed dur : Z)
| ExSleep (late until : Z)
| ExExpire.

(** The store carries the permit of [expiry_notify]. *)
Record Ticking := mkTicking { tk_store : StoreState; tk_clock : Z; tk_phase : ExpiryPhase }.

Inductive TickLabel :=
| TkCommand (c : Command)
| TkTime (elapsed : Z)
| TkTask (by_timer : bool).

Definition ticking_init (s : StoreState) (clock : Z) : Ticking := mkTicking s clock ExCompute.

Section Expiry.
Context `{Crc32c} `{KvDecoder} `{UnstableSort}.

(** One step of the task. When both arms of the [select!] are ready, [by_timer]
    says which one is taken; taking the other consumes the permit. *)
Definition expiry_task_step (by_timer : bool) (t : Ticking) : option Ticking :=
  let s := tk_store t in let now := tk_clock t in
  match tk_phase t with
  | ExCompute => Some (mkTicking s now (ExSelect now (sleep_dur now s)))
  | ExSelect computed dur => Some (mkTicking s now (ExSleep (now - computed) (now + dur)))
  | ExSleep _ until =>
      if by_timer then if until <=? now then Some (mkTicking s now ExExpire) else None
      else if expiry_notified s then Some (mkTicking (set_notified false s) now ExExpire) else None
  | ExExpire => Some (mkTicking (expiry_step now s).1 now ExCompute)
  end.

Definition tick_next (l : TickLabel) (t : Ticking) : option Ticking :=
  match l with
  | TkCommand c => Some (mkTicking (exec c (tk_store t)) (tk_clock t) (tk_phase t))
  | TkTime elapsed => if 0 <=? elapsed then Some (mkTicking (tk_store t) (tk_clock t + elapsed) (tk_phase t)) else None
  | TkTask by_timer => expiry_task_step by_timer t
  end.

(** Handlers read the clock; only the task expires leases, and it has revisions for
    the deletions. *)
Definition tick_ok (l : TickLabel) (t : Ticking) : Prop :=
  match l with
  | TkCommand c =>
      cmd_ok c (tk_store t)
      /\ match c with
         | CmdLeaseGrant now _ | CmdLeaseKeepAlive now _ => now = tk_clock t
         | CmdExpire _ => False
         | _ => True
         end
  | TkTime _ => True
  | TkTask _ => room (Z.of_nat (size (leases (tk_store t)))) (tk_store t)
  end.

End Expiry.

Abbreviation tick_run := (lrun tick_next tick_ok).

Section ExpiryProofs.
Context `{Crc32c} `{KvDecoder} `{UnstableSort}.

(** ** Proofs *)

(** How long after computing the duration the sleep began, or has not yet begun. *)
Definition lateness (t : Ticking) : Z :=
  match tk_phase t with ExSleep late _ => late | ExSelect computed _ => tk_clock t - computed | _ => 0 end.

(** The task will look at the store again in time for this deadline. *)
Definition watchful (t : Ticking) (deadline : Z) : Prop :=
  match tk_phase t with
  | ExSelect computed dur => dur <= Z.max 0 (deadline - computed)
  | ExSleep late until => until <= Z.max (deadline + late) (tk_clock t)
  | _ => True
  end.

Record ticking_ok (t : Ticking) : Prop := {
  to_store : sys_inv (mkSys (tk_store t) None);
  to_late : 0 <= lateness t;
  to_watch : expiry_notified (tk_store t) = false ->
             map_Forall (fun _ l => watchful t (ls_expires_at l)) (leases (tk_store t)) }.

Lemma foldl_min_le l a x : x ∈ a :: l -> foldl Z.min a l <= x.
Proof.
  assert (forall l a, foldl Z.min a l <= a) as Hle by (clear; induction l as [|y l IH]; intros a; cbn; [lia|]; specialize (IH (Z.min a y)); lia).
  revert a. induction l as [|y l IH]; intros a; cbn [foldl].
  - intros ->%list_elem_of_singleton. lia.
  - intros [->|[->|Hin]%elem_of_cons]%elem_of_cons.
    + specialize (Hle l (Z.min a y)). lia.
    + specialize (Hle l (Z.min a y)). lia.
    + apply IH. by right.
Qed.

(** The computed duration reaches no further than any deadline. *)
Lemma sleep_dur_le now s id l : leases s !! id = Some l -> sleep_dur now s <= Z.max 0 (ls_expires_at l - now).
Proof.
  intros Hl%elem_of_btree_iter. unfold sleep_dur.
  assert (ls_expires_at l ∈ (fun e : Z * LeaseState => ls_expires_at e.2) <$> btree_iter (leases s)) as Hin
    by (apply list_elem_of_fmap; by exists (id, l)).
  destruct (_ <$> btree_iter (leases s)) as [|e es]; [by apply not_elem_of_nil in Hin|].
  pose proof (foldl_min_le es e _ Hin). destruct (Z.leb_spec (foldl Z.min e es) now); lia.
Qed.

(** Commands other than the task's own leave the leases alone or notify. *)
Definition leases_are (m : gmap Z LeaseState) (b : bool) (s : StoreState) : Prop := leases s = m /\ expiry_notified s = b.

Lemma leases_kept m b : Kept (leases_are m b).
Proof.
  split.
  - by intros s.
  - intros key rev s E. unfold apply_delete, bind, get, modify, lift, ret.
    destruct (keys s !! key) as [prev|]; [|done]. destruct (negb _); [done|]. by destruct (with_mod_revision _ _).
  - intros rs msg s E. unfold wal_append_batch. by destruct (append_kv_batch _ _) as [w [[]|e]].
  - intros req rev s E. unfold put_at. destruct ((_ || _) && _); [done|]. destruct (negb _ && _); [done|].
    destruct (append_kv _ _) as [w [[]|e]]; [|done]. unfold bind, get, ret. by rewrite apply_effect.
Qed.

Lemma exec_notifies c s :
  (match c with CmdExpire _ => False | _ => True end) ->
  expiry_notified (exec c s) = true \/ leases (exec c s) = leases s /\ expiry_notified (exec c s) = expiry_notified s.
Proof.
  intros Hc. pose proof (leases_kept (leases s) (expiry_notified s)) as K. destruct c; cbn [exec]; try done.
  - right. by apply (keeps_put (leases_are _ _) req s).
  - right. by apply (keeps_delete_range (leases_are _ _) req s).
  - right. by apply (keeps_txn (leases_are _ _) req s).
  - right. unfold compact, fail, lift. destruct (_ <? _); [done|]. by destruct (_ <=? _).
  - unfold lease_grant, bind at 1, lift at 1. destruct (check_lease_ttl _) as [ttl|e|w]; [|by right..].
    unfold bind at 1. destruct (negb _); unfold bind, get, lift, modify, ret, alloc_lease_id, fail; cbn;
      (destruct (leases s !! _); [by right|]); (destruct (instant_add _ _); [by left|by right..]).
  - unfold lease_revoke, bind, get, fail, modify, ret, lift. destruct (leases s !! id) as [l|]; [left|by right].
    set (s1 := set_notified true _). pose proof (leases_kept (leases s1) true) as K1.
    pose proof (keeps_delete_keys_for_lease (leases_are (leases s1) true) id s1 (conj eq_refl eq_refl)) as [_ E].
    by destruct (delete_keys_for_lease id s1) as [s2 []].
  - unfold lease_keep_alive, bind, get, lift, modify, ret, fail. destruct (leases s !! id); [|by right].
    destruct (instant_add _ _); [by left|by right..].
  - by right.
  - by right.
Qed.

Lemma sys_inv_notified b s : sys_inv (mkSys s None) -> sys_inv (mkSys (set_notified b s) None).
Proof. by apply sys_inv_light. Qed.

Lemma sys_inv_exec c s : cmd_ok c s -> sys_inv (mkSys s None) -> sys_inv (mkSys (exec c s) None).
Proof. intros Hc. by eapply sys_step_inv, ss_cmd. Qed.

Lemma ticking_step l t t' : lstep tick_next tick_ok l t t' -> ticking_ok t -> ticking_ok t'.
Proof.
  intros [Hok E] [Hs Hl Hw]. destruct t as [s clock ph]. cbn [tk_store] in *. destruct l as [c|e|by_timer]; cbn in E.
  - destruct Hok as [Hc Ho]. injection E as <-. split; [by apply sys_inv_exec|done|]. cbn.
    destruct (exec_notifies c s) as [->|[-> ->]]; [by destruct c|done|exact Hw].
  - destruct (Z.leb_spec 0 e); [|done]. injection E as <-. split; [done|..]; cbn.
    + unfold lateness in *. destruct ph; cbn in *; lia.
    + intros Hn id l El. specialize (Hw Hn id l El). unfold watchful in *. destruct ph; cbn in *; lia.
  - unfold expiry_task_step in E. cbn in E, Hok. destruct ph as [|computed dur|late until|].
    + injection E as <-. split; [done|cbn; lia|]. intros _ id l El. cbn. by eapply sleep_dur_le.
    + injection E as <-. split; [done|done|]. intros Hn id l El. specialize (Hw Hn id l El). cbn in *. lia.
    + destruct by_timer; [destruct (until <=? clock)|destruct (expiry_notified s)]; try done; injection E as <-;
        (split; [|cbn; lia|done]); [done|by apply sys_inv_notified].
    + injection E as <-. split; [|cbn; lia|done]. by apply (sys_inv_exec (CmdExpire clock)).
Qed.

Lemma ticking_run ls t t' : tick_run ls t t' -> ticking_ok t -> ticking_ok t'.
Proof. apply lrun_keeps, ticking_step. Qed.

(** *** The task gets to an overdue lease *)

Section Overdue.
Context (id : Z) (l : LeaseState).

Definition overdue (t : Ticking) : Prop :=
  sys_inv (mkSys (tk_store t) None) /\ leases (tk_store t) !! id = Some l /\ ls_expires_at l <= tk_clock t
  /\ room (Z.of_nat (size (leases (tk_store t)))) (tk_store t).

(** The lease and the keys attached to it are gone. *)
Definition collected (t : Ticking) : Prop :=
  leases (tk_store t) !! id = None /\ forall k ks, get_alive (tk_store t) k = Some ks -> ks_lease ks <> id.

(** Within [n] steps of the task alone, and no time. *)
Definition collects (n : nat) (t : Ticking) : Prop :=
  exists ls t', (length ls <= n)%nat /\ Forall (fun l => exists b, l = TkTask b) ls /\ tick_run ls t t' /\ collected t'.

Lemma collects_step n b t t1 : overdue t -> expiry_task_step b t = Some t1 -> collects n t1 -> collects (S n) t.
Proof.
  intros (_ & _ & _ & Hr) E (ls & t' & Hlen & Hls & R & C). exists (TkTask b :: ls), t'. cbn.
  split; [lia|]. split; [constructor; eauto|]. split; [by eapply lrun_cons|done].
Qed.

Lemma collects_expire s clock : overdue (mkTicking s clock ExExpire) -> collects 1 (mkTicking s clock ExExpire).
Proof.
  intros Ho. apply (collects_step 0 true _ (mkTicking (expiry_step clock s).1 clock ExCompute)); [done|done|]. destruct Ho as (Hs & El & Hd & Hr). cbn in Hs, El, Hd, Hr.
  destruct (sys_inv_durable _ Hs) as (rs & D). cbn in D.
  destruct (expiry_pass clock s (proj1 Hs) Hr (durable_no_faults _ _ D)) as (s' & E & Els & Eks). rewrite E.
  exists [], (mkTicking s' clock ExCompute). split; [done|]. split; [constructor|]. split; [constructor|]. split; cbn.
  - rewrite Els, El. by rewrite (proj2 (Z.leb_le _ _)).
  - intros k ks Hk Hid. rewrite Eks in Hk. destruct (get_alive s k) as [p|]; [|done].
    assert (p = ks) as -> by (destruct (leases s !! ks_lease p) as [l'|]; [destruct (_ <=? _)|]; congruence).
    by rewrite Hid, El, (proj2 (Z.leb_le _ _)) in Hk.
Qed.

Lemma collects_sleep s clock late until :
  overdue (mkTicking s clock (ExSleep late until)) -> until <= clock \/ expiry_notified s = true ->
  collects 2 (mkTicking s clock (ExSleep late until)).
Proof.
  intros Ho Hw. destruct (Z.leb_spec until clock) as [Hu|Hu].
  - eapply (collects_step 1 true); [done|cbn; by rewrite (proj2 (Z.leb_le _ _))|]. apply collects_expire, Ho.
  - destruct Hw as [|Hn]; [lia|]. eapply (collects_step 1 false); [done|cbn; by rewrite Hn|]. apply collects_expire.
    destruct Ho as (Hs & El & Hd & Hr). split; [by apply sys_inv_notified|done].
Qed.

Lemma collects_select s clock computed dur :
  overdue (mkTicking s clock (ExSelect computed dur)) -> dur <= 0 \/ expiry_notified s = true ->
  collects 3 (mkTicking s clock (ExSelect computed dur)).
Proof.
  intros Ho Hw. eapply (collects_step 2 true); [done|done|]. apply collects_sleep; [exact Ho|].
  destruct Hw; [left; lia|by right].
Qed.

Lemma collects_compute s clock :
  overdue (mkTicking s clock ExCompute) -> collects 4 (mkTicking s clock ExCompute).
Proof.
  intros Ho. eapply (collects_step 3 true); [done|done|]. apply collects_select; [exact Ho|]. left.
  destruct Ho as (_ & El & Hd & _). cbn in *. pose proof (sleep_dur_le clock s id l El). lia.
Qed.

Lemma collects_weaken n m t : (n <= m)%nat -> collects n t -> collects m t.
Proof. intros Hn (ls & t' & Hl & Hs). exists ls, t'. split; [lia|done]. Qed.

End Overdue.

(** ** Property *)

(** C14. No lease is slept past. Start the expiry task on any state the server can
    reach, and let commands, the clock and the task take steps in any order. If a
    lease is overdue by more than the time the task took between computing its sleep
    and going to sleep, the task is not asleep for good: it can take a step, and at
    most four steps of it alone, without waiting, remove the lease and delete all
    live keys attached to it. *)
Theorem expiry_in_time ls s0 clock t id l :
  rtc sys_step sys_init (mkSys s0 None) -> tick_run ls (ticking_init s0 clock) t ->
  leases (tk_store t) !! id = Some l -> ls_expires_at l + lateness t <= tk_clock t ->
  room (Z.of_nat (size (leases (tk_store t)))) (tk_store t) ->
  exists ls' t', (length ls' <= 4)%nat /\ Forall (fun l => exists b, l = TkTask b) ls' /\ tick_run ls' t t'
    /\ leases (tk_store t') !! id = None /\ forall k ks, get_alive (tk_store t') k = Some ks -> ks_lease ks <> id.
Proof.
  intros Hr R El Hd Hroom. destruct (ticking_run _ _ _ R) as [Hs Hl Hw].
  { split; [by apply sys_reachable_inv|done|done]. }
  assert (overdue id l t) as Ho by (split; [done|]; split; [done|]; split; [lia|done]).
  assert (collects id 4 t) as (ls' & t' & C); [|by exists ls', t'].
  destruct t as [s now ph]. destruct (expiry_notified s) eqn:En.
  - destruct ph; [apply (collects_compute id l)|eapply collects_weaken, (collects_select id l)|eapply collects_weaken, (collects_sleep id l)|eapply collects_weaken, (collects_expire id l)]; auto; lia.
  - specialize (Hw En id l El). cbn in Hw, Hd, Hl.
    destruct ph; [by apply (collects_compute id l)|eapply collects_weaken, (collects_select id l)|eapply collects_weaken, (collects_sleep id l)|eapply collects_weaken, (collects_expire id l)]; auto; cbn in *; (lia || left; lia).
Qed.

End ExpiryProofs.

#[local] Existing Instance bitwise_crc.
#[local] Existing Instance ref_decoder.
#[local] Existing Instance merge_sort_impl.

(** The task finds no lease and computes its longest sleep; before it goes to sleep
    a lease of ten seconds is granted and a key attached to it; eleven seconds pass. *)
Definition demo_ticks : list TickLabel :=
  [TkTask true; TkTime 5; TkCommand (CmdLeaseGrant 5 (mkGrant 10 7));
   TkCommand (CmdPut (mkPut (lit "a") (lit "1") 7 false false false)); TkTask true; TkTime 11000000000].

Abbreviation demo_ticking := (lend tick_next demo_ticks (ticking_init fresh 0)).

Lemma demo_ticking_run : tick_run demo_ticks (ticking_init fresh 0) demo_ticking.
Proof. apply lend_run; [by_running|vm_compute; eauto]. Qed.

Lemma demo_ticking_due :
  leases (tk_store demo_ticking) !! 7 = Some (mkLease 7 10 10000000005 0)
  /\ 10000000005 + lateness demo_ticking <= tk_clock demo_ticking
  /\ room (Z.of_nat (size (leases (tk_store demo_ticking)))) (tk_store demo_ticking).
Proof. split; [by vm_compute|]. split; by vm_compute. Qed.

Lemma expiry_in_time_witness :
  exists ls' t', (length ls' <= 4)%nat /\ Forall (fun l => exists b, l = TkTask b) ls' /\ tick_run ls' demo_ticking t'
    /\ leases (tk_store t') !! 7 = None /\ forall k ks, get_alive (tk_store t') k = Some ks -> ks_lease ks <> 7.
Proof.
  destruct demo_ticking_due as (El & Hd & Hr).
  exact (expiry_in_time demo_ticks fresh 0 demo_ticking 7 _ (rtc_refl _ _) demo_ticking_run El Hd Hr).
Defined.

End Expiry.
