(* ===== verification/TxnProps.v ===== *)
(** * Transactions

    A transaction applies the operations of the chosen branch one after the other
    at a single revision. [op_step] is the pure semantics of one operation on the
    key map; [Store::txn] of src/storage/store.rs refines it, whatever the WAL,
    the watchers and the lazily allocated revision do. *)
From S2P Require Import Prelude Varint KvCodec Wire Crc WalRecord Proto Range SortKvs State Store.
From S2P Require Import Historical Txn Recovery Background System Replay Durability OpProps.
Local Open Scope Z_scope.

Module TxnProps.
Import KvCodec Wire Crc Wal Proto Range SortKvs State Store Historical Txn Recovery Background System Replay
  Durability OpProps.

Abbreviation KeyMap := (gmap (list Byte.byte) KeyState).

Section TxnProps.
Context `{Crc32c} `{KvDecoder} `{UnstableSort}.

(** ** The pure semantics *)

Definition put_step (rev : Z) (req : PutRequest) (m : KeyMap) : KeyMap :=
  let prev := alive_in m (pr_key req) in
  put_keys m (pr_key req) (put_value req prev) (put_lease req prev) rev None.

Definition del_step (rev : Z) (req : DeleteRangeRequest) (m : KeyMap) : KeyMap :=
  foldl (fun m k => del_keys m k rev) m
    (alive_keys (in_range (resolve_range (dr_key req) (dr_range_end req)) m)).

(** [s0] only lends [eval_compare] a state to look keys up in. *)
Fixpoint op_step (s0 : StoreState) (rev : Z) (op : RequestOp) (m : KeyMap) : KeyMap :=
  match op with
  | RequestPut p => put_step rev p m
  | RequestDeleteRange d => del_step rev d m
  | RequestTxn (mkTxn compare success failure) =>
      if forallb (eval_compare (set_keys m s0)) compare
      then foldl (fun m op => op_step s0 rev op m) m success
      else foldl (fun m op => op_step s0 rev op m) m failure
  | _ => m
  end.

Definition branch_step (s0 : StoreState) (rev : Z) (ops : list RequestOp) (m : KeyMap) : KeyMap :=
  foldl (fun m op => op_step s0 rev op m) m ops.

(** ** The answers

    What a put or a deletion at revision [rev] answers on the key map [m]. *)

Definition put_answer (rev : Z) (req : PutRequest) (m : KeyMap) : PutResponse :=
  mkPutResponse (Some (mkHeader 1 1 rev 1))
    (if pr_prev_kv req then match alive_in m (pr_key req) with Some p => ks_kv_bytes p | None => [] end else []).

Definition del_answer (rev : Z) (req : DeleteRangeRequest) (m : KeyMap) : DeleteRangeResponse :=
  let ks := alive_keys (in_range (resolve_range (dr_key req) (dr_range_end req)) m) in
  mkDeleteResponse (Some (mkHeader 1 1 rev 1)) (Z.of_nat (length ks))
    (if dr_prev_kv req
     then (fun k => match alive_in m k with Some p => ks_kv_bytes p | None => [] end) <$> ks else []).

(** [answered m op r]: the answer [r] fits the operation [op] executed on the key
    map [m] by a transaction that began in [s0] at revision [rev]: current reads
    see the transaction's own earlier writes, reads of a past revision are done
    in [s'], after it. *)
Inductive answered (s0 s' : StoreState) (rev : Z) : KeyMap -> RequestOp -> ResponseOp -> Prop :=
| ans_past m r a :
    0 < rr_revision r -> range s' r = Ok a -> answered s0 s' rev m (RequestRange r) (ResponseRange a)
| ans_current m r s a :
    rr_revision r <= 0 -> keys s = m -> rev <= next_rev s <= rev + 1 -> range_current s r = Ok a ->
    answered s0 s' rev m (RequestRange r) (ResponseRange a)
| ans_put m p : answered s0 s' rev m (RequestPut p) (ResponsePut (put_answer rev p m))
| ans_delete m d : answered s0 s' rev m (RequestDeleteRange d) (ResponseDeleteRange (del_answer rev d m))
| ans_txn m cmp suc fl h b rs :
    b = forallb (eval_compare (set_keys m s0)) cmp ->
    answered_all s0 s' rev m (if b then suc else fl) rs ->
    answered s0 s' rev m (RequestTxn (mkTxn cmp suc fl)) (ResponseTxn (mkTxnResponse h b rs))
| ans_none m : answered s0 s' rev m RequestNone ResponseNone
with answered_all (s0 s' : StoreState) (rev : Z) : KeyMap -> list RequestOp -> list ResponseOp -> Prop :=
| ans_nil m : answered_all s0 s' rev m [] []
| ans_cons m op ops r rs :
    answered s0 s' rev m op r -> answered_all s0 s' rev (op_step s0 rev op m) ops rs ->
    answered_all s0 s' rev m (op :: ops) (r :: rs).

Abbreviation Holes := (list (list nat * RangeRequest)).

Definition prepend (path : list nat) (h : list nat * RangeRequest) : list nat * RangeRequest :=
  (path ++ h.1, h.2).

(** The answers under the write lock: as [answered], except that reads of a past
    revision are still open; the last argument lists them with their positions. *)
Inductive held (s0 : StoreState) (rev : Z) : KeyMap -> RequestOp -> ResponseOp -> Holes -> Prop :=
| held_past m r : 0 < rr_revision r -> held s0 rev m (RequestRange r) ResponseNone [([], r)]
| held_current m r s a :
    rr_revision r <= 0 -> keys s = m -> rev <= next_rev s <= rev + 1 -> range_current s r = Ok a ->
    held s0 rev m (RequestRange r) (ResponseRange a) []
| held_put m p : held s0 rev m (RequestPut p) (ResponsePut (put_answer rev p m)) []
| held_delete m d : held s0 rev m (RequestDeleteRange d) (ResponseDeleteRange (del_answer rev d m)) []
| held_txn m cmp suc fl h b rs holes :
    b = forallb (eval_compare (set_keys m s0)) cmp ->
    held_all s0 rev m O (if b then suc else fl) rs holes ->
    held s0 rev m (RequestTxn (mkTxn cmp suc fl)) (ResponseTxn (mkTxnResponse h b rs)) holes
| held_none m : held s0 rev m RequestNone ResponseNone []
with held_all (s0 : StoreState) (rev : Z) : KeyMap -> nat -> list RequestOp -> list ResponseOp -> Holes -> Prop :=
| held_nil m i : held_all s0 rev m i [] [] []
| held_cons m i op ops r rs hs hs' :
    held s0 rev m op r hs -> held_all s0 rev (op_step s0 rev op m) (S i) ops rs hs' ->
    held_all s0 rev m i (op :: ops) (r :: rs) ((prepend [i] <$> hs) ++ hs').

Scheme held_min := Minimality for held Sort Prop
  with held_all_min := Minimality for held_all Sort Prop.

Lemma held_all_paths s0 rev m i ops rs hs : held_all s0 rev m i ops rs hs -> Forall (fun h => h.1 <> []) hs.
Proof.
  revert m i rs hs. induction ops as [|op ops IH]; intros m i rs hs Hh; inversion Hh; subst; [constructor|].
  apply Forall_app. split; [|by eapply IH]. apply Forall_fmap, Forall_true. done.
Qed.

Lemma run_deferred_app s hs hs' rs :
  run_deferred (fun _ => range s) (hs ++ hs') rs
  = let? rs1 := run_deferred (fun _ => range s) hs rs in run_deferred (fun _ => range s) hs' rs1.
Proof.
  revert rs. induction hs as [|[p r] hs IH]; intros rs; [done|]. cbn [run_deferred app].
  destruct (range s r); [|done..]. cbn [outcome_bind]. destruct (patch_deferred_range rs p _); [|done..]. apply IH.
Qed.

(** Positions inside a nested answer patch that answer only. *)
Lemma run_deferred_nested s i hs rs h b nested out :
  Forall (fun h => h.1 <> []) hs -> rs !! i = Some (ResponseTxn (mkTxnResponse h b nested)) ->
  run_deferred (fun _ => range s) (prepend [i] <$> hs) rs = Ok out ->
  exists nested', run_deferred (fun _ => range s) hs nested = Ok nested'
    /\ out = <[i := ResponseTxn (mkTxnResponse h b nested')]> rs.
Proof.
  intros Hp. revert rs nested. induction Hp as [|[p r] hs Hpr Hp IH]; intros rs nested Hi.
  { intros [= <-]. exists nested. split; [done|]. by rewrite list_insert_id. }
  cbn [fmap list_fmap run_deferred prepend fst snd app]. destruct (range s r) as [a|e|w]; [|done..].
  cbn [outcome_bind patch_deferred_range]. rewrite Hi. destruct p as [|j p]; [done|].
  destruct (patch_deferred_range nested (j :: p) a) as [nested1|e|w] eqn:En; [|done..]. cbn [outcome_bind].
  intros Hout. apply (IH _ nested1) in Hout as (nested' & Hn & ->);
    [|apply list_lookup_insert_eq; by eapply lookup_lt_Some].
  exists nested'. split; [done|]. by rewrite list_insert_insert_eq.
Qed.

Lemma run_deferred_held s0 s' rev m i ops rs holes :
  held_all s0 rev m i ops rs holes ->
  forall pre out, length pre = i -> run_deferred (fun _ => range s') holes (pre ++ rs) = Ok out ->
  exists rs', out = pre ++ rs' /\ answered_all s0 s' rev m ops rs'.
Proof.
  revert m i ops rs holes.
  apply (held_all_min s0 rev
    (fun m op r hs => forall i rs out, rs !! i = Some r -> run_deferred (fun _ => range s') (prepend [i] <$> hs) rs = Ok out ->
       exists r', out = <[i := r']> rs /\ answered s0 s' rev m op r')
    (fun m i ops rs hs => forall pre out, length pre = i -> run_deferred (fun _ => range s') hs (pre ++ rs) = Ok out ->
       exists rs', out = pre ++ rs' /\ answered_all s0 s' rev m ops rs')).
  - intros m r Hr i rs out Hi. cbn. destruct (range s' r) as [a|e|w] eqn:Ea; [|done..]. cbn. rewrite Hi. cbn.
    intros [= <-]. eexists. split; [done|]. by apply ans_past.
  - intros m r s a Hr Ek Hn Ea i rs out Hi [= <-]. exists (ResponseRange a). rewrite list_insert_id by done.
    split; [done|]. by eapply ans_current.
  - intros m p i rs out Hi [= <-]. eexists. rewrite list_insert_id by done. split; [done|]. apply ans_put.
  - intros m d i rs out Hi [= <-]. eexists. rewrite list_insert_id by done. split; [done|]. apply ans_delete.
  - intros m cmp suc fl h b nested hs Hb Hall IH i rs out Hi Hrun.
    destruct (run_deferred_nested _ _ _ _ _ _ _ _ (held_all_paths _ _ _ _ _ _ _ Hall) Hi Hrun) as (nested' & Hn & ->).
    destruct (IH [] nested' eq_refl Hn) as (rs' & -> & Ha). eexists. split; [done|]. by apply ans_txn.
  - intros m i rs out Hi [= <-]. eexists. rewrite list_insert_id by done. split; [done|]. apply ans_none.
  - intros m i pre out _ [= <-]. exists []. split; [done|]. constructor.
  - intros m i op ops r rs hs hs' _ IHop _ IHops pre out <- Hrun. rewrite run_deferred_app in Hrun.
    destruct (run_deferred (fun _ => range s') (prepend [length pre] <$> hs) _) as [out1|e|w] eqn:E1; [|done..].
    cbn [outcome_bind] in Hrun. apply IHop in E1 as (r' & -> & Ha); [|by rewrite list_lookup_middle].
    rewrite insert_app_r_alt, Nat.sub_diag in Hrun by lia. cbn [insert list_insert] in Hrun.
    rewrite (cons_middle r' pre rs), app_assoc in Hrun.
    apply IHops in Hrun as (rs' & -> & Hall); [|rewrite length_app; cbn; lia].
    exists (r' :: rs'). split; [by rewrite <- app_assoc|]. by constructor.
Qed.

(** Filling the open reads turns the answers under the lock into the final ones. *)
Lemma run_deferred_fills s0 s' rev m ops rs holes out :
  held_all s0 rev m O ops rs holes -> run_deferred (fun _ => range s') holes rs = Ok out ->
  answered_all s0 s' rev m ops out.
Proof.
  intros Hh Hrun. destruct (run_deferred_held s0 s' rev m O ops rs holes Hh [] out eq_refl Hrun) as (rs' & -> & Ha).
  exact Ha.
Qed.

(** Every entry that differs from [m0] was written or deleted at [r]. *)
Definition stamped (m0 : KeyMap) (r : Z) (m : KeyMap) : Prop :=
  forall k, m !! k = m0 !! k \/ exists ks, m !! k = Some ks
    /\ (ks_delete_revision ks = r \/ ks_delete_revision ks = 0 /\ ks_mod_revision ks = r).

Lemma stamped_put m0 r m key value lease blob :
  stamped m0 r m -> stamped m0 r (put_keys m key value lease r blob).
Proof.
  intros Hs k. unfold put_keys. destruct (decide (k = key)) as [->|Hne].
  - right. rewrite lookup_insert_eq. eexists. split; [done|]. by right.
  - rewrite lookup_insert_ne by done. apply Hs.
Qed.

Lemma stamped_del m0 r m key : stamped m0 r m -> stamped m0 r (del_keys m key r).
Proof.
  intros Hs k. unfold del_keys. destruct (alive_in m key) as [p|]; [|apply Hs].
  destruct (decide (k = key)) as [->|Hne].
  - right. rewrite lookup_insert_eq. eexists. split; [done|]. by left.
  - rewrite lookup_insert_ne by done. apply Hs.
Qed.

Lemma stamped_dels m0 r ks m : stamped m0 r m -> stamped m0 r (foldl (fun m k => del_keys m k r) m ks).
Proof. revert m. induction ks as [|k ks IH]; intros m Hm; [done|]. by apply IH, stamped_del. Qed.

(** ** All outcomes *)

(** Like [runs], with a claim [E] about the state a failure leaves behind. *)
Definition tri {A} (P : StoreState -> Prop) (m : M A) (Q : A -> StoreState -> Prop) (E : StoreState -> Prop) : Prop :=
  forall s, inv s -> P s ->
  let '(s', o) := m s in inv s' /\ match o with Ok a => Q a s' | _ => E s' end.

Lemma tri_bind {A B} P (m : M A) Q (f : A -> M B) R E :
  tri P m Q E -> (forall a, tri (Q a) (f a) R E) -> tri P (bind m f) R E.
Proof.
  intros Hm Hf s I HP. specialize (Hm s I HP). unfold bind.
  destruct (m s) as [s' [a|e|w]]; [|done..]. destruct Hm as [I' HQ]. exact (Hf a s' I' HQ).
Qed.

Lemma tri_ret {A} (a : A) P (Q : A -> StoreState -> Prop) E : (forall s, P s -> Q a s) -> tri P (ret a) Q E.
Proof. intros Hq s I HP. split; [done|]. by apply Hq. Qed.

Lemma tri_lift {A B} (o : outcome A) (f : A -> M B) P R (E : StoreState -> Prop) :
  (forall a, o = Ok a -> tri P (f a) R E) -> (forall s, P s -> E s) -> tri P (bind (lift o) f) R E.
Proof. intros Hf He s I HP. unfold bind, lift. destruct o; [by apply Hf|split; [done|by apply He]..]. Qed.

Lemma tri_get {B} (f : StoreState -> M B) P R E :
  (forall s0, P s0 -> tri P (f s0) R E) -> tri P (bind get f) R E.
Proof. intros Hf s I HP. by apply Hf. Qed.

(** ** The state during a transaction *)

Section Run.
Context (s0 : StoreState) (I0 : inv s0) (R0 : room 1 s0).

(** The transaction started in [s0], its writes so far have produced the key map
    [m], at the revision [rev] if one was needed. *)
Definition linked (rev : option Z) (m : KeyMap) (s : StoreState) : Prop :=
  match rev with
  | None => s = s0 /\ m = keys s0
  | Some r => r = next_rev s0 /\ at_rev 0 r s /\ keys s = m /\ leases s = leases s0
      /\ watchers s = watchers s0 /\ compact_rev s = compact_rev s0 /\ stamped (keys s0) r m
  end.

Definition partial (s : StoreState) : Prop := exists rev m, linked rev m s.

Lemma linked_keys rev m s : linked rev m s -> keys s = m.
Proof. destruct rev; [by intros (_ & _ & ? & _)|by intros [-> ->]]. Qed.

Lemma linked_partial rev m s : linked rev m s -> partial s.
Proof. intros ?. by exists rev, m. Qed.

Lemma tri_get_or_alloc rev m :
  tri (linked rev m) (get_or_alloc rev) (fun r => linked (Some r) m) partial.
Proof.
  destruct rev as [r|]; [by apply tri_ret|]. intros s I [-> ->]. cbn.
  unfold room in R0. pose proof (inv_rev s0 I0) as Hnr.
  assert (u64_wrap (next_rev s0 + 1) = next_rev s0 + 1) as ->
    by (apply u64_wrap_small; unfold is_u64; lia).
  split; [by eapply (trans_inv false 0); [apply t_alloc; lia|]|].
  split; [done|]. split; [unfold at_rev; cbn; lia|]. repeat (split; [done|]). intros k. by left.
Qed.

Lemma linked_next rev m s : linked rev m s -> next_rev s0 <= next_rev s <= next_rev s0 + 1.
Proof. destruct rev; [intros (-> & [-> _] & _)|intros [-> _]]; lia. Qed.

Lemma tri_put_at req r m :
  put_ok req ->
  tri (linked (Some r) m) (put_at req r)
    (fun resp s => linked (Some r) (put_step r req m) s /\ resp = put_answer r req m) partial.
Proof.
  intros Hok s I L. pose proof (linked_keys _ _ _ L) as <-. destruct L as (-> & Hr & _ & Hl & Hw & Hc & Hs).
  pose proof (runs_put_at 0 req (next_rev s0) Hok s I Hr) as Hrun.
  assert (partial s) as Hp by (exists (Some (next_rev s0)), (keys s); done).
  revert Hrun. unfold put_at. change (get_alive s (pr_key req)) with (alive_in (keys s) (pr_key req)).
  destruct ((pr_ignore_value req || _) && _); [by intros [Ht%rtc_trans_inv _]|].
  fold (put_value req (alive_in (keys s) (pr_key req))). fold (put_lease req (alive_in (keys s) (pr_key req))).
  destruct (negb _ && _); [by intros [Ht%rtc_trans_inv _]|].
  destruct (append_kv _ _) as [w [[]|e]].
  - unfold bind, get, ret. rewrite apply_effect. cbn [fst snd]. intros [Ht Hr'].
    assert (inv _) as I' by (by eapply rtc_trans_inv; [exact Ht|]). split; [exact I'|]. split.
    + split; [done|]. split; [done|]. repeat (split; [done|]). by apply stamped_put.
    + unfold put_answer. by rewrite (header_at (next_rev s0) _ I') by apply Hr'.
  - intros [Ht _]. split; [by eapply rtc_trans_inv|]. exists (Some (next_rev s0)), (keys s). done.
Qed.

Lemma linked_set_wal r m s w : linked (Some r) m s -> linked (Some r) m (set_wal w s).
Proof. done. Qed.

Lemma linked_dels r ks m s :
  linked (Some r) m s ->
  next_rev (foldl (del_effect r) s ks) = next_rev s ->
  linked (Some r) (foldl (fun m k => del_keys m k r) m ks) (foldl (del_effect r) s ks).
Proof.
  revert m s. induction ks as [|k ks IH]; intros m s L Hn; [done|]. cbn [foldl] in *.
  destruct (del_effect_fields r s k) as (En & _ & El & Ew & Ec & Ek).
  apply IH; [|by rewrite Hn, En].
  destruct L as (-> & Hr & <- & Hl & Hw & Hc & Hs).
  split; [done|]. unfold at_rev. rewrite En, Ek, El, Ew, Ec. repeat (split; [done|]). by apply stamped_del.
Qed.

Lemma tri_delete_range_at req r m :
  tri (linked (Some r) m) (delete_range_at req r)
    (fun resp s => linked (Some r) (del_step r req m) s /\ resp = del_answer r req m) partial.
Proof.
  intros s I L. pose proof (linked_keys _ _ _ L) as <-. pose proof (linked_partial _ _ _ L) as Hp.
  assert (at_rev 0 r s) as Hr by apply L.
  unfold delete_range_at, bind at 1, get at 1.
  destruct (keys_to_delete s _) as [ks|e|w] eqn:Eks; unfold lift, bind at 1; [|done..].
  apply keys_to_delete_Ok in Eks as [_ ->]. unfold wal_append_batch, bind at 1.
  destruct (append_kv_batch _ _) as [w [[]|e]] eqn:Ew.
  - destruct (batch_ready 0 s w r I Hr) as (I' & Hr' & Hm).
    unfold bind. rewrite delete_loop_effect by done.
    rewrite fst_zip by by rewrite length_fmap. cbn [get ret fst snd].
    destruct (inv_deletes (alive_keys (in_range (resolve_range (dr_key req) (dr_range_end req)) (keys s))) _ r I' Hr' Hm)
      as (I2 & En & _).
    split; [done|]. split; [apply linked_dels; [by apply linked_set_wal|done]|]. unfold del_answer.
    rewrite (header_at r _ I2) by (rewrite ?En; apply Hr).
    by rewrite prev_kvs_alive by apply alive_keys_alive.
  - cbn. split; [by apply (inv_same s); try done; apply (inv_compact s I)|].
    exists (Some r), (keys s). by apply linked_set_wal.
Qed.

(** What one operation, or a list of them, does to the map, the answers and the
    list of open reads. *)
Definition op_post (op : RequestOp) (path : list nat) (acc : TxnAcc) (m : KeyMap)
    (r : ResponseOp * TxnAcc) (s : StoreState) : Prop :=
  linked r.2.1 (op_step s0 (next_rev s0) op m) s
  /\ exists hs, held s0 (next_rev s0) m op r.1 hs /\ r.2.2 = acc.2 ++ (prepend path <$> hs).

Definition ops_post (ops : list RequestOp) (path : list nat) (i : nat) (acc : TxnAcc) (m : KeyMap)
    (r : list ResponseOp * TxnAcc) (s : StoreState) : Prop :=
  linked r.2.1 (branch_step s0 (next_rev s0) ops m) s
  /\ exists hs, held_all s0 (next_rev s0) m i ops r.1 hs /\ r.2.2 = acc.2 ++ (prepend path <$> hs).

Lemma prepend_prepend p q (hs : Holes) : prepend p <$> (prepend q <$> hs) = prepend (p ++ q) <$> hs.
Proof. rewrite <- list_fmap_compose. apply list_fmap_ext. intros _ h _. unfold compose, prepend. cbn. by rewrite app_assoc. Qed.

Lemma tri_pure {A} (Phi : Prop) P (m : M A) Q E :
  (Phi -> tri P m Q E) -> tri (fun s => P s /\ Phi) m Q E.
Proof. intros Hm s I [HP Hphi]. by apply Hm. Qed.

Lemma tri_ops_loop body ops :
  (forall op p acc m, op ∈ ops -> tri (linked acc.1 m) (body op p acc) (op_post op p acc m) partial) ->
  forall path i acc m, tri (linked acc.1 m) (ops_loop body path ops i acc) (ops_post ops path i acc m) partial.
Proof.
  intros Hb path. induction ops as [|op ops IH]; intros i acc m; cbn [ops_loop].
  { apply tri_ret. intros s L. split; [done|]. exists []. split; [constructor|by rewrite app_nil_r]. }
  eapply tri_bind; [apply Hb; left|]. intros [r acc']. unfold op_post. cbn [fst snd].
  apply tri_pure. intros (hs & Hh & Ed).
  eapply tri_bind; [apply IH; intros; apply Hb; by right|]. intros [rs acc'']. apply tri_ret.
  intros s [L (hs' & Hh' & Ed')]. split; [done|]. exists ((prepend [i] <$> hs) ++ hs').
  split; [by constructor|]. cbn [fst snd] in *. by rewrite Ed', Ed, fmap_app, prepend_prepend, <- app_assoc.
Qed.

Lemma eval_compare_keys s cmp : eval_compare s cmp = eval_compare (set_keys (keys s) s0) cmp.
Proof. done. Qed.

Lemma op_post_closed op path rev deferred m r rev' s :
  linked rev' (op_step s0 (next_rev s0) op m) s -> held s0 (next_rev s0) m op r [] ->
  op_post op path (rev, deferred) m (r, (rev', deferred)) s.
Proof. intros L Hh. split; [done|]. exists []. split; [done|]. by rewrite app_nil_r. Qed.

Lemma tri_txn_op_step depth op path acc m :
  op_ok op ->
  (forall o p a m, op_ok o -> depth < 1 ->
     tri (linked a.1 m) (apply_txn_op (depth + 1) o p a) (op_post o p a m) partial) ->
  tri (linked acc.1 m) (apply_txn_op depth op path acc) (op_post op path acc m) partial.
Proof.
  intros Hok Hnest. destruct acc as [rev deferred].
  destruct op as [r|p|d|[cmp suc fl]|]; cbn [apply_txn_op fst].
  - destruct (Z.ltb_spec 0 (rr_revision r)).
    + apply tri_ret. intros s L. split; [done|]. exists [([], r)]. split; [by constructor|].
      cbn. unfold prepend. cbn. by rewrite app_nil_r.
    + apply tri_get. intros s1 L1. apply tri_lift; [|apply linked_partial]. intros resp Er. apply tri_ret.
      intros s L. apply op_post_closed; [done|].
      apply (held_current _ _ _ _ s1); [lia|exact (linked_keys _ _ _ L1)|exact (linked_next _ _ _ L1)|done].
  - apply tri_get. intros s1 _. apply tri_lift; [|apply linked_partial]. intros _ _.
    eapply tri_bind; [apply tri_get_or_alloc|]. intros r. cbn beta.
    eapply tri_bind; [by apply tri_put_at|]. intros resp. apply tri_ret. intros s [L ->].
    assert (r = next_rev s0) as -> by apply L. apply op_post_closed; [done|constructor].
  - apply tri_lift; [|apply linked_partial]. intros _ _.
    eapply tri_bind; [apply tri_get_or_alloc|]. intros r. cbn beta.
    eapply tri_bind; [by apply tri_delete_range_at|]. intros resp. apply tri_ret. intros s [L ->].
    assert (r = next_rev s0) as -> by apply L. apply op_post_closed; [done|constructor].
  - destruct (Z.leb_spec 1 depth); [intros s I L; split; [done|by eapply linked_partial]|].
    apply tri_get. intros s1 L1. pose proof (linked_keys _ _ _ L1) as Ek.
    set (b := forallb (eval_compare s1) cmp).
    assert (b = forallb (eval_compare (set_keys m s0)) cmp) as Eb by (unfold b; by rewrite <- Ek).
    apply (tri_bind _ _ (ops_post (if b then suc else fl) path O (rev, deferred) m)).
    + assert (forall ops, (forall o, o ∈ ops -> op_ok o) ->
        tri (linked rev m) (ops_loop (apply_txn_op (depth + 1)) path ops O (rev, deferred))
          (ops_post ops path O (rev, deferred) m) partial) as Hloop.
      { intros ops Hops. refine (tri_ops_loop (apply_txn_op (depth + 1)) ops _ path O (rev, deferred) m).
        intros o p a m' Hin. apply Hnest; [by apply Hops|lia]. }
      destruct Hok as [Hs Hf]. destruct b; apply Hloop; intros o; by apply ops_ok_elem.
    + intros [nested acc']. apply tri_get. intros s2 _. apply tri_ret. intros s [L (hs & Hh & Ed)]. cbn [fst snd] in *.
      split; [cbn [op_step fst snd]; rewrite <- Eb; by destruct b|]. exists hs. split; [by constructor|done].
  - apply tri_ret. intros s L. apply op_post_closed; [done|constructor].
Qed.

Lemma tri_txn_op depth op path acc m :
  0 <= depth -> op_ok op -> tri (linked acc.1 m) (apply_txn_op depth op path acc) (op_post op path acc m) partial.
Proof.
  intros Hd Hok. apply tri_txn_op_step; [done|]. intros o p a m' Ho _.
  apply tri_txn_op_step; [done|]. intros. lia.
Qed.

Lemma partial_start s : s = s0 -> partial s.
Proof. intros ->. by exists None, (keys s0). Qed.

(** The part under the write lock. *)
Lemma tri_txn_locked cmp suc fl :
  txn_ok (mkTxn cmp suc fl) ->
  let b := forallb (eval_compare s0) cmp in let ops := if b then suc else fl in
  tri (fun s => s = s0) (txn_locked (mkTxn cmp suc fl))
    (fun r s => partial s /\ keys s = branch_step s0 (next_rev s0) ops (keys s0)
       /\ r.1.1 = (b, state_header s) /\ held_all s0 (next_rev s0) (keys s0) O ops r.1.2 r.2)
    partial.
Proof.
  intros [Hs Hf] b ops. unfold txn_locked. apply tri_get. intros s1 ->. fold b. fold ops.
  apply (tri_bind _ _ (ops_post ops [] O (None, []) (keys s0))).
  - intros s I ->. refine (tri_ops_loop (apply_txn_op 0) ops _ [] O (None, []) (keys s0) s0 I _); [|done].
    intros op p acc m Hin. apply tri_txn_op; [done|]. unfold ops in Hin. destruct b; eauto using ops_ok_elem.
  - intros [rs [rev deferred]] s I [L (hs & Hh & Ed)]. cbn in *. split; [done|].
    split; [by eapply linked_partial|]. split; [by eapply linked_keys|]. split; [done|].
    rewrite Ed. by rewrite (list_fmap_ext _ id), list_fmap_id by by intros ? [].
Qed.

Lemma tri_txn cmp suc fl :
  txn_ok (mkTxn cmp suc fl) ->
  let b := forallb (eval_compare s0) cmp in let ops := if b then suc else fl in
  tri (fun s => s = s0) (txn (mkTxn cmp suc fl))
    (fun resp s => partial s /\ keys s = branch_step s0 (next_rev s0) ops (keys s0)
       /\ exists rs, resp = mkTxnResponse (Some (state_header s)) b rs
            /\ answered_all s0 s (next_rev s0) (keys s0) ops rs)
    partial.
Proof.
  intros Hok b ops. unfold txn, txn_among. apply tri_lift; [|apply partial_start]. intros _ _.
  eapply tri_bind; [by apply tri_txn_locked|]. fold b. fold ops.
  intros [[[succeeded hd] rs] deferred] s I (Hp & Ek & [= -> ->] & Hh). cbn [fst snd] in Hh.
  unfold bind, get, lift, ret. destruct (run_deferred (fun _ => range s) deferred rs) as [out|e|w] eqn:Er; [|done..].
  split; [done|]. split; [done|]. split; [done|]. exists out. split; [done|]. by eapply run_deferred_fills.
Qed.
End Run.

(** ** Properties *)

(** C16. One revision per transaction. Whatever a transaction answers, either it
    left the store exactly as it was, or it took one revision, and every entry
    that changed was written or deleted at that revision; leases, watchers and the
    compaction mark are not touched. *)
Theorem txn_one_revision s req :
  inv s -> room 1 s -> txn_ok req ->
  let s' := (txn req s).1 in
  s' = s \/ (next_rev s' = next_rev s + 1 /\ stamped (keys s) (next_rev s) (keys s')
             /\ leases s' = leases s /\ watchers s' = watchers s /\ compact_rev s' = compact_rev s).
Proof.
  intros I Hr Hok. destruct req as [cmp suc fl].
  pose proof (tri_txn s I Hr cmp suc fl Hok s I eq_refl) as Ht. cbn zeta.
  assert (partial s (txn (mkTxn cmp suc fl) s).1) as ([r|] & m & L).
  { destruct (txn (mkTxn cmp suc fl) s) as [s' [a|e|w]]; cbn; [apply Ht|by destruct Ht..]. }
  - right. destruct L as (-> & [Hn _] & <- & L). by destruct L as (? & ? & ? & ?).
  - left. apply L.
Qed.

(** C4. Transactions are serial. A transaction that answers has taken the branch
    its comparisons choose on the state it started from, and has left the key map
    that results from applying the branch's operations in order at one revision,
    nested transactions deciding on the state they find. *)
Theorem txn_refines s s' cmp suc fl resp :
  inv s -> room 1 s -> txn_ok (mkTxn cmp suc fl) ->
  txn (mkTxn cmp suc fl) s = (s', Ok resp) ->
  let b := forallb (eval_compare s) cmp in
  ts_succeeded resp = b
  /\ keys s' = branch_step s (next_rev s) (if b then suc else fl) (keys s).
Proof.
  intros I Hr Hok Et b. pose proof (tri_txn s I Hr cmp suc fl Hok s I eq_refl) as Ht.
  rewrite Et in Ht. destruct Ht as (_ & _ & Ek & rs & -> & _). by split.
Qed.

(** C7. Transaction answers. The answers of a transaction stand in the order of the
    operations of the chosen branch, nested ones inside their own answer. Each one
    is what the operation yields on the key map its predecessors left: the previous
    values of puts, the number and values of deletions, reads that see the
    transaction's own writes; reads of a past revision, done after the lock is
    released, are put back at their places. *)
Theorem txn_answers s s' cmp suc fl resp :
  inv s -> room 1 s -> txn_ok (mkTxn cmp suc fl) ->
  txn (mkTxn cmp suc fl) s = (s', Ok resp) ->
  let b := forallb (eval_compare s) cmp in
  exists rs, resp = mkTxnResponse (Some (state_header s')) b rs
    /\ answered_all s s' (next_rev s) (keys s) (if b then suc else fl) rs.
Proof.
  intros I Hr Hok Et b. pose proof (tri_txn s I Hr cmp suc fl Hok s I eq_refl) as Ht.
  rewrite Et in Ht. destruct Ht as (_ & _ & _ & Hrs). exact Hrs.
Qed.

(** Comparison guards. Comparing [create_revision] with 0 for equality tests
    that the key does not exist; comparing [mod_revision] with a positive revision
    tests that the key exists and was last written at that revision. These are the
    guards of create-if-absent and of optimistic updates. *)
Theorem compare_guards s key r :
  inv s -> 0 < r ->
  (eval_compare s (mkCompare 0 1 key [] (Some (TCreateRevision 0))) = true <-> get_alive s key = None)
  /\ (eval_compare s (mkCompare 0 2 key [] (Some (TModRevision r))) = true
      <-> exists ks, get_alive s key = Some ks /\ ks_mod_revision ks = r).
Proof.
  intros I Hr. unfold eval_compare. cbn.
  destruct (get_alive s key) as [ks|] eqn:E; cbn [cmp_i64]; [|split; [done|]; split; [lia|naive_solver]].
  apply alive_in_Some in E as [E _]. pose proof (inv_keys s I _ _ E) as [_ Hc Hm _ _ _ _].
  pose proof (inv_rev s I). rewrite !i64_wrap_small by (unfold is_i64; lia).
  split; [split; [lia|done]|]. rewrite Z.eqb_eq. naive_solver.
Qed.

(** *** A put behind a guard

    The transactions the clients of the repository send: comparisons, one put, and
    nothing to do when they fail. *)
Lemma guarded_put_run s cmps key value :
  inv s -> faults (wal s) = [] -> room 1 s -> key <> [] ->
  exists s' resp, txn (mkTxn cmps [RequestPut (mkPut key value 0 false false false)] []) s = (s', Ok resp)
    /\ ts_succeeded resp = forallb (eval_compare s) cmps /\ faults (wal s') = []
    /\ if forallb (eval_compare s) cmps
       then keys s' = put_keys (keys s) key value 0 (next_rev s) None /\ next_rev s' = next_rev s + 1
       else s' = s.
Proof.
  intros I Hno Hroom Hne. unfold room in Hroom. pose proof (inv_rev s I) as Hnr.
  set (p := mkPut key value 0 false false false).
  unfold txn, txn_among, bind at 1, lift at 1.
  assert (check_txn_duplicate_keys (mkTxn cmps [RequestPut p] []) = Ok tt) as -> by by destruct key.
  unfold txn_locked, apply_txn_ops, bind, lift, get, ret. cbn -[put_at validate_put eval_compare].
  destruct (forallb (eval_compare s) cmps); [|cbn; by eexists _, _].
  cbn -[put_at validate_put]. unfold bind, get, lift, ret, alloc_revision.
  assert (validate_put s p = Ok tt) as -> by (unfold validate_put, p; by destruct key).
  cbn -[put_at]. rewrite u64_wrap_small by (unfold is_u64; lia).
  set (s1 := set_next_rev (next_rev s + 1) s). unfold put_at. cbn -[append_kv put_record apply].
  unfold append_kv at 1, write_all at 1. change (wal s1) with (wal s). rewrite Hno. cbn -[put_record apply].
  unfold bind, get, ret. rewrite apply_effect. cbn. eexists _, _. split; [reflexivity|]. done.
Qed.

End TxnProps.

#[local] Existing Instance bitwise_crc.
#[local] Existing Instance ref_decoder.
#[local] Existing Instance merge_sort_impl.

(** Create [lock] if absent, with a nested transaction, else read it. *)
Definition try_lock : TxnRequest :=
  mkTxn [mkCompare 0 1 (lit "lock") [] (Some (TCreateRevision 0))]
    [RequestPut (put_req "lock" "me");
     RequestTxn (mkTxn [mkCompare 0 2 (lit "lock") [] (Some (TModRevision 3))]
       [RequestDeleteRange (mkDelete (lit "k") [] false)] [RequestPut (put_req "odd" "1")])]
    [RequestRange (range_req (lit "lock") [] 0)].

Lemma try_lock_ok : txn_ok try_lock.
Proof. repeat split; by vm_compute. Qed.

Lemma txn_one_revision_witness :
  let s' := (txn try_lock leased).1 in
  s' = leased \/ (next_rev s' = next_rev leased + 1 /\ stamped (keys leased) (next_rev leased) (keys s')
    /\ leases s' = leases leased /\ watchers s' = watchers leased /\ compact_rev s' = compact_rev leased).
Proof. apply (txn_one_revision leased try_lock); [exact leased_inv|by vm_compute|exact try_lock_ok]. Defined.

Lemma txn_refines_witness :
  match txn try_lock leased with
  | (s', Ok resp) => ts_succeeded resp = true
      /\ keys s' = branch_step leased 3
           [RequestPut (put_req "lock" "me");
            RequestTxn (mkTxn [mkCompare 0 2 (lit "lock") [] (Some (TModRevision 3))]
              [RequestDeleteRange (mkDelete (lit "k") [] false)] [RequestPut (put_req "odd" "1")])] (keys leased)
  | _ => False
  end.
Proof.
  assert (forallb (eval_compare leased) [mkCompare 0 1 (lit "lock") [] (Some (TCreateRevision 0))] = true) as Eb
    by by vm_compute.
  assert (next_rev leased = 3) as En by by vm_compute.
  assert (is_ok (txn try_lock leased).2 = true) as Eo by by vm_compute.
  destruct (txn try_lock leased) as [s' [resp|e|w]] eqn:Et; [|by cbn in Eo..].
  pose proof (txn_refines leased s' _ _ _ resp leased_inv ltac:(by vm_compute) try_lock_ok Et) as Ht.
  cbv zeta in Ht. rewrite Eb, En in Ht. exact Ht.
Defined.

(** A write, a read of it, and a nested read of the past. *)
Definition mixed_ops : list RequestOp :=
  [RequestPut (mkPut (lit "free") (lit "2") 0 true false false);
   RequestRange (range_req (lit "free") [] 0);
   RequestTxn (mkTxn [] [RequestNone; RequestRange (range_req (lit "free") [] 2)] [])].

Lemma txn_answers_witness :
  match txn (mkTxn [] mixed_ops []) leased with
  | (s', Ok resp) => exists rs, resp = mkTxnResponse (Some (state_header s')) true rs
      /\ answered_all leased s' (next_rev leased) (keys leased) mixed_ops rs
  | _ => False
  end.
Proof.
  assert (is_ok (txn (mkTxn [] mixed_ops []) leased).2 = true) as Eo by by vm_compute.
  destruct (txn (mkTxn [] mixed_ops []) leased) as [s' [resp|e|w]] eqn:Et; [|by cbn in Eo..].
  apply (txn_answers leased s' [] mixed_ops [] resp leased_inv);
    [by vm_compute|repeat split; by vm_compute|exact Et].
Defined.

(** The answers of that transaction: the previous value, the new one, and inside
    the nested answer the old one. *)
Example mixed_answers :
  match (txn (mkTxn [] mixed_ops []) leased).2 with
  | Ok (mkTxnResponse _ _ [ResponsePut p; ResponseRange r;
          ResponseTxn (mkTxnResponse _ _ [ResponseNone; ResponseRange old])]) =>
      ps_prev_kv p = kv_blob (lit "free") (lit "1") 2 2 1 0
      /\ rs_kvs r = [kv_blob (lit "free") (lit "2") 2 3 2 0]
      /\ rs_kvs old = [kv_blob (lit "free") (lit "1") 2 2 1 0]
  | _ => False
  end.
Proof. by vm_compute. Qed.

Lemma compare_guards_witness :
  eval_compare leased (mkCompare 0 1 (lit "lock") [] (Some (TCreateRevision 0))) = true
  <-> get_alive leased (lit "lock") = None.
Proof. apply (compare_guards leased (lit "lock") 1); [exact leased_inv|lia]. Defined.

(** A comparison over a range looks at its first key only: "b" exists, but the
    range from "a" to "z" counts as empty. *)
Example compare_ignores_range_end :
  let s := run [CmdPut (put_req "b" "1")] fresh in
  eval_compare s (mkCompare 0 0 (lit "a") (lit "z") (Some (TVersion 0))) = true
  /\ rs_count <$> match range_current s (range_req (lit "a") (lit "z") 0) with Ok r => Some r | _ => None end = Some 1.
Proof. split; by vm_compute. Qed.

(** A transaction whose second write names an unknown lease is refused, but its
    first write stays. *)
Example txn_failure_leaves_writes :
  let req := mkTxn [] [RequestPut (put_req "a" "1");
                       RequestPut (mkPut (lit "b") (lit "2") 99 false false false)] [] in
  (txn req fresh).2 = Err (mkStatus NotFound "etcdserver: requested lease not found")
  /\ is_Some (get_alive (txn req fresh).1 (lit "a")).
Proof. split; [by vm_compute|]. eexists. by vm_compute. Qed.

(** A nested transaction may write a key of the enclosing branch: the check only
    compares writes of the same branch. *)
Example nested_duplicate_accepted :
  check_txn_duplicate_keys (mkTxn [] [RequestPut (put_req "a" "1");
    RequestTxn (mkTxn [] [RequestPut (put_req "a" "2")] [])] []) = Ok tt.
Proof. by vm_compute. Qed.

End TxnProps.
