(* ===== verification/TxnTotal.v ===== *)
(** * Transactions: when they answer, and what other tasks can change

    [txn_refines] and [txn_answers] say what a transaction that answers has done.
    Here is when it answers: [txn_accepts] decides it from the request and the
    state alone. And the reads of past revisions, which [Store::txn] of
    src/storage/store.rs runs after releasing the write lock, are shown to answer
    as if no other task had run in between. *)
From S2P Require Import Prelude Varint KvCodec Wire Crc WalRecord Proto Range SortKvs State Store.
From S2P Require Import Historical Txn Recovery Background System Replay Durability ReadProps HistRead.
From S2P Require Import OpProps TxnProps.
Local Open Scope Z_scope.

Module TxnTotal.
Import KvCodec Wire Crc Wal Proto Range SortKvs State Store Historical Txn Recovery Background System Replay
  Durability ReadProps HistRead OpProps TxnProps.

Section Total.
Context `{Crc32c} `{KvDecoder} `{UnstableSort}.

(** ** The operations a transaction executes *)

(** An operation, its nesting depth and the key map it finds. *)
Record Executed := mkExecuted { ex_depth : Z; ex_op : RequestOp; ex_map : KeyMap }.

(** Lists of operations, each seeing the map its predecessors left. *)
Definition in_turn (s0 : StoreState) (rev : Z) (f : RequestOp -> KeyMap -> list Executed)
    : list RequestOp -> KeyMap -> list Executed :=
  fix go ops m := match ops with [] => [] | op :: ops => f op m ++ go ops (op_step s0 rev op m) end.

Fixpoint op_trail (s0 : StoreState) (rev depth : Z) (op : RequestOp) (m : KeyMap) : list Executed :=
  mkExecuted depth op m ::
  match op with
  | RequestTxn (mkTxn compare success failure) =>
      if forallb (eval_compare (set_keys m s0)) compare
      then in_turn s0 rev (op_trail s0 rev (depth + 1)) success m
      else in_turn s0 rev (op_trail s0 rev (depth + 1)) failure m
  | _ => []
  end.

Definition trail (s0 : StoreState) (rev depth : Z) : list RequestOp -> KeyMap -> list Executed :=
  in_turn s0 rev (op_trail s0 rev depth).

(** ** When an operation is accepted *)

Definition nonempty (key : bytes) : bool := negb (bytes_eqb key []).

Definition current_valid (m : KeyMap) (r : RangeRequest) : bool :=
  match req_bound r with
  | Point _ => true
  | bound => ((if (0 <? rr_limit r)%Z then rr_limit r else Z.of_nat (size m)) * 32 <? 2 ^ 63) && negb (inverted bound)
  end.

Definition put_valid (ls : gmap Z LeaseState) (m : KeyMap) (p : PutRequest) : bool :=
  let prev := alive_in m (pr_key p) in
  nonempty (pr_key p)
  && implb (pr_ignore_value p) (bytes_eqb (pr_value p) [])
  && implb (pr_ignore_lease p) (pr_lease p =? 0)
  && implb (pr_ignore_value p || pr_ignore_lease p) (bool_decide (is_Some prev))
  && ((put_lease p prev =? 0) || bool_decide (is_Some (ls !! put_lease p prev))).

Definition step_valid (ls : gmap Z LeaseState) (e : Executed) : bool :=
  match ex_op e with
  | RequestRange r => (0 <? rr_revision r) || current_valid (ex_map e) r
  | RequestPut p => put_valid ls (ex_map e) p
  | RequestDeleteRange d => nonempty (dr_key d) && negb (inverted (resolve_range (dr_key d) (dr_range_end d)))
  | RequestTxn _ => ex_depth e <? 1
  | RequestNone => true
  end.

Definition is_write (e : Executed) : bool :=
  match ex_op e with RequestPut _ | RequestDeleteRange _ => true | _ => false end.

Definition past_read (e : Executed) : option RangeRequest :=
  match ex_op e with RequestRange r => if 0 <? rr_revision r then Some r else None | _ => None end.

(** A past revision between the compaction mark and the current revision. *)
Definition past_valid (mark current : Z) (r : RangeRequest) : bool :=
  nonempty (rr_key r) && (rr_revision r <=? current) && (mark <=? rr_revision r) && negb (inverted (req_bound r)).

(** The operations of the branch the comparisons choose in [s], and below. *)
Definition txn_trail (s : StoreState) (req : TxnRequest) : list Executed :=
  let 'mkTxn compare success failure := req in
  trail s (next_rev s) 0 (if forallb (eval_compare s) compare then success else failure) (keys s).

Definition txn_accepts (s : StoreState) (req : TxnRequest) : bool :=
  let steps := txn_trail s req in
  let current := if existsb is_write steps then next_rev s else current_revision s in
  is_ok (check_txn_duplicate_keys req)
  && forallb (step_valid (leases s)) steps
  && forallb (past_valid (compact_rev s) current) (omap past_read steps).

Lemma nonempty_check key : is_ok (check_key key) = nonempty key.
Proof. by destruct key. Qed.

Lemma range_current_decides s r : is_ok (range_current s r) = current_valid (keys s) r.
Proof.
  unfold range_current, current_valid. fold (req_bound r). destruct (req_bound r) as [|k|k|p|a b] eqn:Eb; [|done|..].
  all: unfold with_capacity; destruct (_ * 32 <? 2 ^ 63); [|done]; cbn [outcome_bind range_bounds andb].
  all: destruct (inverted _) eqn:Ei; pose proof Ei as Eit;
    [apply (bounds_iter_inverted s) in Eit|apply (bounds_iter_ok s) in Eit]; cbn [btree_bounds] in Eit; rewrite Eit.
  all: cbn [outcome_bind negb]; try done; by destruct (rr_count_only r).
Qed.

Lemma validate_put_decides s p : is_ok (validate_put s p) = put_valid (leases s) (keys s) p.
Proof.
  unfold validate_put, put_valid, put_lease. change (get_alive s (pr_key p)) with (alive_in (keys s) (pr_key p)).
  destruct (pr_key p) as [|c key]; [done|]. cbn [check_key outcome_bind nonempty negb andb].
  destruct (pr_ignore_value p), (bytes_eqb (pr_value p) []), (pr_ignore_lease p), (pr_lease p =? 0) eqn:El;
    try done; destruct (alive_in _ _) as [k|]; try done; cbn [orb andb implb negb];
    rewrite ?El; cbn [negb andb orb]; try done;
    repeat match goal with |- context [?x =? 0] => destruct (x =? 0) end; try done;
    cbn [negb andb orb]; by destruct (leases s !! _).
Qed.
(** ** Exact outcomes

    With a WAL that accepts every write, [b] tells whether [m] answers, and [Q]
    holds of its answer. *)
Definition decides {A} (P : StoreState -> Prop) (m : M A) (b : bool) (Q : A -> Prop) : Prop :=
  forall s, inv s -> P s -> faults (wal s) = [] ->
  faults (wal (m s).1) = [] /\ match (m s).2 with Ok a => b = true /\ Q a | _ => b = false end.

Lemma decides_bind {A B} P (m : M A) Qt E b Q (f : A -> M B) c R :
  tri P m Qt E -> decides P m b Q -> (forall a, Q a -> decides (Qt a) (f a) c R) ->
  decides P (bind m f) (b && c) R.
Proof.
  intros Ht Hd Hf s I HP Hw. specialize (Ht s I HP). specialize (Hd s I HP Hw). unfold bind.
  destruct (m s) as [s' [a|e|w]]; cbn [fst snd] in *; destruct Hd as [Hw' Hb]; [|by subst b..].
  destruct Hb as [-> HQ], Ht as [I' Hq]. exact (Hf a HQ s' I' Hq Hw').
Qed.

Lemma decides_ret {A} P (a : A) (Q : A -> Prop) : Q a -> decides P (ret a) true Q.
Proof. by intros HQ s I HP Hw. Qed.

Lemma decides_lift {A B} P (o : outcome A) (f : A -> M B) c R :
  (forall a, o = Ok a -> decides P (f a) c R) -> decides P (bind (lift o) f) (is_ok o && c) R.
Proof.
  intros Hf s I HP Hw. unfold bind, lift. destruct o as [a|e|w]; [|done..]. exact (Hf a eq_refl s I HP Hw).
Qed.

Lemma decides_get {B} P (f : StoreState -> M B) c R :
  (forall s1, P s1 -> decides P (f s1) c R) -> decides P (bind get f) c R.
Proof. intros Hf s I HP Hw. exact (Hf s HP s I HP Hw). Qed.

Lemma decides_eq {A} P (m : M A) b b' Q : b = b' -> decides P m b Q -> decides P m b' Q.
Proof. by intros ->. Qed.

(** ** The operations *)

Section Run.
Context (s0 : StoreState) (I0 : inv s0) (R0 : room 1 s0).

(** The revision is allocated by the first write. *)
Definition allocates {A} (rev : option Z) (steps : list Executed) (r : A * TxnAcc) : Prop :=
  bool_decide (is_Some r.2.1) = bool_decide (is_Some rev) || existsb is_write steps.

Lemma decides_alloc rev m : decides (linked s0 rev m) (get_or_alloc rev) true (fun _ => True).
Proof. destruct rev as [r|]; [by apply decides_ret|]. by intros s I L Hw. Qed.

Lemma decides_put_at req r m :
  put_valid (leases s0) m req = true -> decides (linked s0 (Some r) m) (put_at req r) true (fun _ => True).
Proof.
  intros Hv s I L Hw. pose proof (linked_keys _ _ _ _ L) as Ek. destruct L as (_ & _ & _ & El & _).
  rewrite <- Ek, <- El, <- validate_put_decides in Hv.
  destruct (validate_put s req) as [[]|e|w] eqn:Ev; [|done..].
  destruct (validate_put_ok s req Ev) as [Hc1 Hc2]. unfold put_at. rewrite Hc1.
  fold (put_value req (get_alive s (pr_key req))). fold (put_lease req (get_alive s (pr_key req))). rewrite Hc2.
  destruct (append_kv _ _) as [w [[]|e]] eqn:Ew; [|by apply append_kv_fault in Ew].
  apply append_kv_ok in Ew as (_ & _ & Ef). rewrite Hw in Ef. unfold bind, get, ret. by rewrite apply_effect.
Qed.

Lemma decides_delete_range_at req r m :
  decides (linked s0 (Some r) m) (delete_range_at req r)
    (negb (inverted (resolve_range (dr_key req) (dr_range_end req)))) (fun _ => True).
Proof.
  intros s I L Hw. assert (at_rev 0 r s) as Hr by apply L. set (bound := resolve_range _ _).
  set (res := delete_range_at req r s).
  assert (faults (wal res.1) = [] /\ is_ok res.2 = negb (inverted bound)) as [Hf Ho].
  { subst res. unfold delete_range_at, wal_append_batch, bind, get, lift, ret. fold bound.
    destruct (keys_to_delete s bound) as [ks|e|w] eqn:Ek.
    - apply keys_to_delete_Ok in Ek as [-> _].
      destruct (append_kv_batch _ _) as [w [[]|e]] eqn:Ew; [|by apply append_kv_batch_fault in Ew].
      apply append_kv_batch_ok in Ew as (_ & _ & Ef). rewrite Hw, drop_nil in Ef.
      destruct (batch_ready 0 s w r I Hr) as (I' & Hr' & Hm). rewrite delete_loop_effect by done.
      split; [|done]. cbn [fst]. by rewrite (proj2 (keys_deletes _ _ _)).
    - split; [done|]. destruct (inverted bound) eqn:Ei; [done|]. by rewrite keys_to_delete_ok in Ek.
    - split; [done|]. destruct (inverted bound) eqn:Ei; [done|]. by rewrite keys_to_delete_ok in Ek. }
  split; [done|]. rewrite <- Ho. by destruct res.2.
Qed.

Lemma decides_post {A} P (m : M A) b (Q Q' : A -> Prop) : (forall a, Q a -> Q' a) -> decides P m b Q -> decides P m b Q'.
Proof.
  intros Hq Hd s I HP Hw. specialize (Hd s I HP Hw). destruct (m s) as [s' [a|e|w]]; [|done..]. naive_solver.
Qed.

Lemma decides_ops_loop body depth ops :
  (forall op p acc m, op ∈ ops -> tri (linked s0 acc.1 m) (body op p acc) (op_post s0 op p acc m) (partial s0)) ->
  (forall op p acc m, op ∈ ops ->
     decides (linked s0 acc.1 m) (body op p acc)
       (forallb (step_valid (leases s0)) (op_trail s0 (next_rev s0) depth op m))
       (allocates acc.1 (op_trail s0 (next_rev s0) depth op m))) ->
  forall path i acc m,
  decides (linked s0 acc.1 m) (ops_loop body path ops i acc)
    (forallb (step_valid (leases s0)) (trail s0 (next_rev s0) depth ops m))
    (allocates acc.1 (trail s0 (next_rev s0) depth ops m)).
Proof.
  intros Ht Hd path. induction ops as [|op ops IH]; intros i acc m; cbn [ops_loop trail in_turn].
  { apply decides_ret. unfold allocates. cbn. by rewrite orb_false_r. }
  rewrite forallb_app. eapply decides_bind; [apply Ht; left|apply Hd; left|]. intros [r acc'] Ha.
  rewrite <- (andb_true_r (forallb _ _)). unfold op_post. cbn [fst snd].
  intros s I [L _]. revert s I L. change (decides (linked s0 acc'.1 (op_step s0 (next_rev s0) op m))
    (let* (rs, acc) := ops_loop body path ops (S i) acc' in ret (r :: rs, acc))
    (forallb (step_valid (leases s0)) (trail s0 (next_rev s0) depth ops (op_step s0 (next_rev s0) op m)) && true)
    (allocates acc.1 (op_trail s0 (next_rev s0) depth op m
       ++ trail s0 (next_rev s0) depth ops (op_step s0 (next_rev s0) op m)))).
  eapply decides_bind; [apply tri_ops_loop; intros; apply Ht; by right|apply IH; intros; [apply Ht|apply Hd]; by right|].
  intros [rs acc''] Ha'. apply decides_ret. unfold allocates in *. cbn [fst snd] in *.
  by rewrite existsb_app, Ha', Ha, orb_assoc.
Qed.

Lemma linked_put_valid rev m s p :
  linked s0 rev m s -> is_ok (validate_put s p) = put_valid (leases s0) m p.
Proof.
  intros L. rewrite validate_put_decides, (linked_keys _ _ _ _ L). f_equal.
  destruct rev; [apply L|]. by destruct L as [-> _].
Qed.

Lemma decides_txn_op_step depth op path acc m :
  0 <= depth -> op_ok op ->
  (forall o p a m, op_ok o -> depth < 1 ->
     decides (linked s0 a.1 m) (apply_txn_op (depth + 1) o p a)
       (forallb (step_valid (leases s0)) (op_trail s0 (next_rev s0) (depth + 1) o m))
       (allocates a.1 (op_trail s0 (next_rev s0) (depth + 1) o m))) ->
  decides (linked s0 acc.1 m) (apply_txn_op depth op path acc)
    (forallb (step_valid (leases s0)) (op_trail s0 (next_rev s0) depth op m))
    (allocates acc.1 (op_trail s0 (next_rev s0) depth op m)).
Proof.
  intros Hd Hok Hnest. destruct acc as [rev deferred].
  destruct op as [r|p|d|[cmp suc fl]|]; cbn [apply_txn_op fst op_trail].
  - destruct (0 <? rr_revision r) eqn:Er.
    + apply (decides_eq _ _ true); [cbn; by rewrite Er|]. apply decides_ret. unfold allocates. cbn. by rewrite orb_false_r.
    + apply decides_get. intros s1 L1. apply (decides_eq _ _ (is_ok (range_current s1 r) && true)).
      { cbn. by rewrite Er, range_current_decides, (linked_keys _ _ _ _ L1). }
      apply decides_lift. intros resp _. apply decides_ret. unfold allocates. cbn. by rewrite orb_false_r.
  - apply decides_get. intros s1 L1. pose proof (linked_put_valid _ _ _ p L1) as Ev.
    apply (decides_eq _ _ (is_ok (validate_put s1 p) && true)); [cbn; by rewrite Ev|].
    apply decides_lift. intros [] Hv. rewrite Hv in Ev.
    eapply (decides_bind _ _ _ _ true); [by apply tri_get_or_alloc|apply decides_alloc|]. intros r _. cbn beta.
    eapply (decides_bind _ _ _ _ true); [by apply tri_put_at|by apply decides_put_at|]. intros resp _.
    apply decides_ret. unfold allocates. cbn. by rewrite orb_true_r.
  - set (proper := negb (inverted (resolve_range (dr_key d) (dr_range_end d)))).
    apply (decides_eq _ _ (is_ok (check_key (dr_key d)) && (true && (proper && true)))).
    { cbn. by rewrite nonempty_check, !andb_true_r. }
    apply decides_lift. intros [] _.
    eapply decides_bind; [by apply tri_get_or_alloc|apply decides_alloc|]. intros r _. cbn beta.
    eapply decides_bind; [by apply tri_delete_range_at|apply decides_delete_range_at|]. intros resp _.
    apply decides_ret. unfold allocates. cbn. by rewrite orb_true_r.
  - destruct (Z.ltb_spec depth 1) as [Hlt|Hge].
    2:{ destruct (Z.leb_spec 1 depth); [|lia]. intros s I L Hw. split; [done|].
        unfold step_valid at 1. cbn. by rewrite (proj2 (Z.ltb_ge depth 1)). }
    destruct (Z.leb_spec 1 depth); [lia|]. apply decides_get. intros s1 L1.
    assert (forallb (eval_compare s1) cmp = forallb (eval_compare (set_keys m s0)) cmp) as ->
      by (by rewrite <- (linked_keys _ _ _ _ L1)).
    set (b := forallb (eval_compare (set_keys m s0)) cmp).
    assert (ops_ok (if b then suc else fl)) as Hops by (destruct Hok; by destruct b).
    apply (decides_eq _ _ (forallb (step_valid (leases s0)) (trail s0 (next_rev s0) (depth + 1) (if b then suc else fl) m) && true)).
    { cbn. rewrite (proj2 (Z.ltb_lt depth 1)), andb_true_r by done. by destruct b. }
    assert (forall (f : RequestOp -> list nat -> TxnAcc -> M (ResponseOp * TxnAcc)) acc,
      (if b then ops_loop f path suc O acc else ops_loop f path fl O acc) = ops_loop f path (if b then suc else fl) O acc) as ->
      by (by destruct b).
    apply (decides_bind _ _ (ops_post s0 (if b then suc else fl) path O (rev, deferred) m) (partial s0) _
      (allocates rev (trail s0 (next_rev s0) (depth + 1) (if b then suc else fl) m))).
    + refine (tri_ops_loop s0 _ _ _ path O (rev, deferred) m). intros o p a m' Hin.
      apply tri_txn_op; [done|done|lia|by eapply ops_ok_elem].
    + refine (decides_ops_loop _ _ _ _ _ path O (rev, deferred) m); intros o p a m' Hin.
      * apply tri_txn_op; [done|done|lia|by eapply ops_ok_elem].
      * apply Hnest; [by eapply ops_ok_elem|done].
    + intros [nested acc'] Ha. apply decides_get. intros s2 _. apply decides_ret. unfold allocates in *. cbn in *.
      rewrite Ha. by destruct b.
  - apply decides_ret. unfold allocates. cbn. by rewrite orb_false_r.
Qed.

Lemma decides_txn_op depth op path acc m :
  0 <= depth -> op_ok op ->
  decides (linked s0 acc.1 m) (apply_txn_op depth op path acc)
    (forallb (step_valid (leases s0)) (op_trail s0 (next_rev s0) depth op m))
    (allocates acc.1 (op_trail s0 (next_rev s0) depth op m)).
Proof.
  intros Hd Hok. apply decides_txn_op_step; [done|done|]. intros o p a m' Ho Hlt.
  apply decides_txn_op_step; [lia|done|]. intros. lia.
Qed.

(** The reads left open are those of the executed operations. *)
Lemma held_reads rev m i ops rs hs :
  held_all s0 rev m i ops rs hs -> forall depth, hs.*2 = omap past_read (trail s0 rev depth ops m).
Proof.
  revert m i ops rs hs.
  apply (held_all_min s0 rev
    (fun m op r hs => forall depth, hs.*2 = omap past_read (op_trail s0 rev depth op m))
    (fun m i ops rs hs => forall depth, hs.*2 = omap past_read (trail s0 rev depth ops m))).
  - intros m r Hr depth. cbn. unfold past_read. cbn. by rewrite (proj2 (Z.ltb_lt _ _)).
  - intros m r s a Hr _ _ _ depth. cbn. unfold past_read. cbn. by rewrite (proj2 (Z.ltb_ge _ _)).
  - done.
  - done.
  - intros m cmp suc fl h b rs hs -> _ IH depth. cbn. rewrite (IH (depth + 1)). by destruct (forallb _ cmp).
  - done.
  - done.
  - intros m i op ops r rs hs hs' _ IHop _ IHops depth. cbn [trail in_turn]. rewrite omap_app, fmap_app.
    rewrite <- (IHop depth), <- (IHops depth). f_equal. by rewrite <- list_fmap_compose.
Qed.

End Run.

(** ** Filling the open reads *)

(** The position [p] exists in the answers [rs]. *)
Fixpoint position (rs : list ResponseOp) (p : list nat) : bool :=
  match p with
  | [] => true
  | i :: rest =>
      match rs !! i with
      | None => false
      | Some (ResponseTxn (mkTxnResponse _ _ nested)) => position nested rest
      | Some _ => true
      end
  end.

Lemma position_insert rs i r r' q :
  rs !! i = Some r -> (forall rest, position [r] (O :: rest) = true -> position [r'] (O :: rest) = true) ->
  position rs q = true -> position (<[i := r']> rs) q = true.
Proof.
  intros Hi Hr. destruct q as [|j rest]; [done|]. cbn [position]. destruct (decide (i = j)) as [<-|Hne].
  - rewrite Hi, list_lookup_insert_eq by by eapply lookup_lt_Some. exact (Hr rest).
  - by rewrite list_lookup_insert_ne.
Qed.

(** Writing at an existing position succeeds and keeps every position. *)
Lemma patch_total rs p a :
  position rs p = true ->
  exists rs', patch_deferred_range rs p a = Ok rs' /\ forall q, position rs q = true -> position rs' q = true.
Proof.
  revert rs. induction p as [|i rest IH]; intros rs; [by eauto|]. cbn [position patch_deferred_range].
  destruct (rs !! i) as [r|] eqn:Ei; [|done]. intros Hp. destruct rest as [|j rest].
  { eexists. split; [done|]. intros q. by apply (position_insert _ _ r). }
  destruct r as [| | |[h b nested]|]; try by eauto. destruct (IH nested Hp) as (nested' & -> & Hn).
  eexists. split; [done|]. intros q. by apply (position_insert _ _ _ _ _ Ei).
Qed.

Lemma held_positions s0 rev m i ops rs hs :
  held_all s0 rev m i ops rs hs -> forall pre, length pre = i -> Forall (fun h => position (pre ++ rs) h.1 = true) hs.
Proof.
  revert m i ops rs hs.
  apply (held_all_min s0 rev
    (fun m op r hs => Forall (fun h => position [r] (O :: h.1) = true) hs)
    (fun m i ops rs hs => forall pre, length pre = i -> Forall (fun h => position (pre ++ rs) h.1 = true) hs)); try by constructor.
  - intros m cmp suc fl h b rs hs _ _ IH. exact (IH [] eq_refl).
  - intros m i op ops r rs hs hs' _ IHop _ IHops pre <-. apply Forall_app. split.
    + apply Forall_fmap. eapply Forall_impl; [exact IHop|]. intros [p q]. cbn. by rewrite list_lookup_middle.
    + specialize (IHops (pre ++ [r])). rewrite length_app, Nat.add_1_r, <- app_assoc in IHops. by apply IHops.
Qed.

(** The loop answers when every read does. *)
Lemma run_deferred_decides read hs rs :
  Forall (fun h => position rs h.1 = true) hs ->
  is_ok (run_deferred (fun _ => read) hs rs) = forallb (fun r => is_ok (read r)) hs.*2.
Proof.
  revert rs. induction hs as [|[p r] hs IH]; intros rs; [done|]. intros [Hp Hps]%Forall_cons.
  cbn [run_deferred fmap list_fmap forallb fst snd] in *. destruct (read r) as [a|e|w]; [|done..].
  destruct (patch_total rs p a Hp) as (rs' & E & Hq). cbn [outcome_bind]. rewrite E. cbn [outcome_bind is_ok andb]. apply IH.
  eapply Forall_impl; [exact Hps|]. intros h. apply Hq.
Qed.

(** A read of the past on a store with a complete log. *)
Lemma range_past_decides s rs r :
  logs_run fresh s rs -> 0 < rr_revision r ->
  is_ok (range s r) = past_valid (compact_rev s) (current_revision s) r.
Proof.
  intros L Hr. unfold range, range_locks, past_valid. assert ((0 <? rr_revision r) = true) as Hpos by lia.
  destruct (rr_key r) as [|c key] eqn:Ek; [done|]. change (nonempty (c :: key)) with true.
  cbn [check_key outcome_bind andb]. rewrite Hpos. cbn [andb].
  destruct (Z.ltb_spec (current_revision s) (rr_revision r)), (Z.leb_spec (rr_revision r) (current_revision s));
    try lia; [done|]. rewrite Hpos. cbn [andb].
  destruct (Z.ltb_spec (rr_revision r) (compact_rev s)), (Z.leb_spec (compact_rev s) (rr_revision r));
    try lia; [done|].
  unfold range_historical. fold (req_bound r). destruct (inverted (req_bound r)) eqn:Ei.
  { by rewrite bounds_iter_inverted. }
  rewrite bounds_iter_ok by done. cbn [outcome_bind]. destruct (phase1_loop _ _ _ _) as [direct [|k stale]]; [done|].
  rewrite (lr_file _ _ _ L). change (file (wal fresh)) with (@nil Byte.byte). rewrite app_nil_l.
  by rewrite scan_wal_range_state by apply L.
Qed.

(** ** Reads among the writes of other tasks *)

(** What other tasks do around one deferred read: the commands executed between
    the release of the write lock and the section in which [Store::range] learns
    the current revision, and from there to each of its later sections. *)
Record Meanwhile := mkMeanwhile {
  mw_revision : list Command; mw_mark : list Command; mw_memory : list Command;
  mw_log : list Command; mw_fallback : list Command }.

Definition read_among (s : StoreState) (w : Meanwhile) : RangeRequest -> outcome RangeResponse :=
  let a := run (mw_revision w) s in let b := run (mw_mark w) a in
  let m := run (mw_memory w) b in let l := run (mw_log w) m in
  range_locks a b m l (run (mw_fallback w) l).

(** What [read_among_commands] asks of a read and of the commands around it. *)
Record undisturbed (s : StoreState) (w : Meanwhile) (r : RangeRequest) : Prop := {
  ud_key : rr_key r <> [];
  ud_revision : 0 < rr_revision r <= current_revision s;
  ud_filters : no_filters r;
  ud_proper : inverted (req_bound r) = false;
  ud_limit : rr_limit r < 2 ^ 63;
  ud_commands : cmds_ok (mw_revision w ++ mw_mark w ++ mw_memory w ++ mw_log w) s;
  ud_mark : compact_rev (run (mw_revision w ++ mw_mark w) s) <= rr_revision r;
  ud_lifetime : single_lifetime (fun k => matches_range (req_bound r) k = true)
                  (log_of (run (mw_revision w ++ mw_mark w ++ mw_memory w) s));
  ud_size : Z.of_nat (size (keys (run (mw_revision w ++ mw_mark w ++ mw_memory w) s))) < 2 ^ 32 }.

Lemma run_deferred_ext read read' hs rs :
  (forall i p r, hs !! i = Some (p, r) -> read i r = read' i r) ->
  run_deferred read hs rs = run_deferred read' hs rs.
Proof.
  revert read read' rs. induction hs as [|[p r] hs IH]; intros read read' rs Hr; [done|]. cbn [run_deferred].
  rewrite (Hr O p r eq_refl). destruct (read' O r) as [a|e|w]; [|done..]. cbn [outcome_bind].
  destruct (patch_deferred_range rs p a); [|done..]. apply IH. intros i q r'. exact (Hr (S i) q r').
Qed.

Lemma single_lifetime_prefix P l1 l2 : single_lifetime P (l1 ++ l2) -> single_lifetime P l1.
Proof. intros Hl i j ri rj Hij Hi Hj. by apply (Hl i j); try apply lookup_app_l_Some. Qed.

Lemma dom_keys_record m r : store_record r -> dom m ⊆ dom (keys_record m r).
Proof.
  intros R k Hk. destruct (decide (r_key r = k)) as [<-|Hne].
  - apply elem_of_dom. destruct (record_deleted r) eqn:Ed.
    + rewrite keys_record_del by done. unfold del_keys. destruct (alive_in m (r_key r)).
      * rewrite lookup_insert_eq. eauto.
      * by apply elem_of_dom.
    + destruct (keys_record_put m r R Ed) as (v & l & ->). eauto.
  - rewrite elem_of_dom, keys_record_ne by done. by apply elem_of_dom.
Qed.

Lemma size_keys_records rs m : Forall store_record rs -> (size m <= size (foldl keys_record m rs))%nat.
Proof.
  revert m. induction rs as [|r rs IH]; intros m; [done|]. intros [R Rs]%Forall_cons. cbn [foldl].
  etrans; [|by apply IH]. rewrite <- !size_dom. by apply subseteq_size, dom_keys_record.
Qed.

Lemma trans_compact b floor s s' : wtrans b floor s s' -> compact_rev s <= compact_rev s'.
Proof.
  assert (forall r ks x, compact_rev (foldl (del_effect r) x ks) = compact_rev x) as Hd.
  { intros r ks. induction ks as [|k ks IH]; intros x; [done|]. cbn [foldl]. rewrite IH. apply del_effect_fields. }
  destruct 1; rewrite ?Hd; cbn; lia.
Qed.

Lemma run_compact cs s : inv s -> cmds_ok cs s -> compact_rev s <= compact_rev (run cs s).
Proof.
  intros I Hc. pose proof (run_trans cs s I Hc) as Ht. clear Hc. induction Ht as [|x y z T _ IH]; [done|].
  etrans; [by eapply trans_compact|apply IH; by eapply trans_inv].
Qed.

(** A read other tasks interrupt answers as if it had been made at once. *)
Lemma read_undisturbed cs w r :
  let s := run cs fresh in
  cmds_ok cs fresh -> undisturbed s w r -> read_among s w r = range s r.
Proof.
  intros s Hc [Hkey Hrev Hf Hi Hlim Hcmds Hmark Hlife Hsz].
  destruct (run_logs cs Hc) as (I & rs & L). fold s in I, L.
  rewrite !cmds_ok_app in Hcmds. destruct Hcmds as (C1 & C2 & C3 & C4). rewrite !run_app in *.
  assert (cmds_ok (mw_revision w ++ mw_mark w ++ mw_memory w) s) as C by (by rewrite !cmds_ok_app).
  destruct (run_extends _ _ _ I L C) as (rs' & _ & L' & _). rewrite !run_app in L'.
  assert (compact_rev s <= rr_revision r) as Hm0.
  { etrans; [|exact Hmark]. rewrite <- run_app. apply run_compact; [done|]. by rewrite cmds_ok_app. }
  rewrite (log_of_logs _ _ L') in Hlife.
  destruct (run_extends _ _ _ I L C1) as (rs1 & _ & L1 & Hle1 & F1).
  assert (current_revision s <= current_revision (run (mw_revision w) s)) as Hcur by (unfold current_revision; lia).
  pose proof (read_among_commands (cs ++ mw_revision w) (mw_mark w ++ mw_memory w) (mw_log w)
    (run (mw_mark w) (run (mw_revision w) s))
    (run (mw_fallback w) (run (mw_log w) (run (mw_memory w) (run (mw_mark w) (run (mw_revision w) s))))) r) as Hr.
  cbv zeta in Hr. rewrite !run_app, !cmds_ok_app in Hr. fold s in Hr.
  rewrite (log_of_logs _ _ L'), (log_of_logs _ _ L1), expected_newer in Hr
    by (eapply Forall_impl; [exact F1|]; unfold current_revision in Hrev; pose proof (inv_rev _ I); cbn; lia).
  unfold read_among. rewrite Hr by (done || lia).
  symmetry. rewrite <- (log_of_logs _ _ L).
  apply (read_among_commands cs [] [] s s r); try (done || lia); cbn [run]; fold s.
  - rewrite (log_of_logs _ _ L). by eapply single_lifetime_prefix.
  - eapply Z.le_lt_trans; [|exact Hsz]. apply inj_le.
    rewrite (lr_keys _ _ _ L'), foldl_app, <- (lr_keys _ _ _ L). apply size_keys_records.
    by apply (Forall_app _ rs), (lr_records _ _ _ L').
Qed.

(** ** Properties *)

(** The part under the lock answers when every executed operation is valid; it
    allocates a revision when one of them writes. *)
Lemma txn_locked_decides s cmp suc fl :
  inv s -> room 1 s -> txn_ok (mkTxn cmp suc fl) -> faults (wal s) = [] ->
  let steps := trail s (next_rev s) 0 (if forallb (eval_compare s) cmp then suc else fl) (keys s) in
  let '(s', o) := txn_locked (mkTxn cmp suc fl) s in
  match o with
  | Ok _ => forallb (step_valid (leases s)) steps = true
      /\ compact_rev s' = compact_rev s
      /\ current_revision s' = (if existsb is_write steps then next_rev s else current_revision s)
  | _ => forallb (step_valid (leases s)) steps = false
  end.
Proof.
  intros I Hr Hok Hw. set (ops := if forallb _ _ then suc else fl). intros steps.
  assert (forall o, o ∈ ops -> op_ok o) as Hops.
  { intros o Hin. destruct Hok. subst ops. destruct (forallb _ _); eauto using ops_ok_elem. }
  assert (linked s None (keys s) s) as L0 by done.
  pose proof (tri_ops_loop s (apply_txn_op 0) ops
    (fun o p a m Hin => tri_txn_op s I Hr 0 o p a m ltac:(done) (Hops o Hin)) [] O (None, []) (keys s) s I L0) as Ht.
  pose proof (decides_ops_loop s (apply_txn_op 0) 0 ops
    (fun o p a m Hin => tri_txn_op s I Hr 0 o p a m ltac:(done) (Hops o Hin))
    (fun o p a m Hin => decides_txn_op s I Hr 0 o p a m ltac:(done) (Hops o Hin)) [] O (None, []) (keys s) s I L0 Hw) as [_ Hd].
  unfold txn_locked, apply_txn_ops, bind, get, ret. fold ops.
  destruct (ops_loop _ _ ops _ _ s) as [s' [[rs [rev deferred]]|e|w]]; cbn [snd] in Hd; [|done..].
  destruct Hd as [Hd Ha]. split; [done|]. unfold allocates in Ha. cbn [fst snd] in Ha. fold steps in Ha.
  destruct Ht as [_ [L _]]. cbn [fst snd] in L. destruct rev as [r|].
  - destruct L as (-> & [En _] & _ & _ & _ & Ec & _). split; [done|].
    replace (existsb is_write steps) with true by by rewrite <- (orb_false_l (existsb _ _)).
    unfold current_revision. pose proof (inv_rev s I). lia.
  - destruct L as [-> _]. split; [done|].
    by replace (existsb is_write steps) with false by by rewrite <- (orb_false_l (existsb _ _)).
Qed.

Lemma forallb_past (p q : RangeRequest -> bool) steps :
  (forall r, 0 < rr_revision r -> p r = q r) -> forallb p (omap past_read steps) = forallb q (omap past_read steps).
Proof.
  intros Hpq. induction steps as [|e steps IH]; [done|]. cbn. destruct (past_read e) as [r|] eqn:Er; [|done].
  cbn. rewrite IH, Hpq; [done|]. unfold past_read in Er. destruct (ex_op e) as [r'| | | |]; try done.
  destruct (Z.ltb_spec 0 (rr_revision r')); [by injection Er as <-|done].
Qed.

(** C5. When transactions answer. On every state commands lead to, a transaction
    answers exactly if [txn_accepts] says so: no key is written twice in a branch;
    every operation of the chosen branch, and of the branches nested transactions
    choose, is valid on the key map its predecessors leave (keys are given, ranges
    are not inverted, leases and the keys that [ignore_value] and [ignore_lease]
    refer to exist, nesting stops at depth one); and every past revision read lies
    between the compaction mark and the revision the store has after the writes. *)
Theorem txn_answers_iff (cs : list Command) (req : TxnRequest) :
  let s := run cs fresh in
  cmds_ok cs fresh -> cmd_ok (CmdTxn req) s ->
  is_ok (txn req s).2 = txn_accepts s req.
Proof.
  intros s Hc Ht. destruct (run_logs cs Hc) as (I & rs & L). fold s in I, L.
  destruct req as [cmp suc fl]. destruct Ht as [Hok Hr].
  pose proof (txn_locked_decides s cmp suc fl I Hr Hok (lr_faults _ _ _ L)) as Hd.
  pose proof (tri_txn_locked s I Hr cmp suc fl Hok s I eq_refl) as Hp.
  destruct (run_extends [CmdTxn (mkTxn cmp suc fl)] s rs I L (conj (conj Hok Hr) Logic.I)) as (rs' & _ & L' & _).
  cbn [run exec] in L'. revert L'. unfold txn, txn_among, txn_accepts, txn_trail, bind, get, lift, ret.
  destruct (check_txn_duplicate_keys _) as [[]|e|w]; [|done..]. cbn [is_ok andb].
  set (steps := trail _ _ _ _ _) in *.
  destruct (txn_locked _ s) as [s' [[[[b hd] out] holes]|e|w]]; [|by rewrite Hd..].
  destruct Hd as (-> & Ec & Er), Hp as (_ & _ & _ & _ & Hh). cbn [fst snd andb] in *. intros L'.
  transitivity (is_ok (run_deferred (fun _ => range s') holes out)); [by destruct (run_deferred _ _ _)|].
  assert (logs_run fresh s' (rs ++ rs')) as Ls by (by destruct (run_deferred _ _ _)).
  rewrite (run_deferred_decides (range s')) by (apply (held_positions _ _ _ _ _ _ _ Hh []); done).
  rewrite <- Ec, <- Er, (held_reads s _ _ _ _ _ _ Hh 0). fold (trail s (next_rev s) 0). fold steps.
  apply forallb_past. intros r Hpos. by eapply range_past_decides.
Qed.

(** C8. Deferred reads are not disturbed. The reads of past revisions run after
    the write lock is released, and other tasks may write before each of them and
    between the lock sections of each. The transaction answers as if they had all
    been made at the moment the lock was released, in a process that started on an
    empty log and has not compacted it, provided that each read ([undisturbed]) asks
    for a revision the store had then reached, has a proper range and no revision
    filters, is not overtaken by a compaction before its mark is checked, and that no
    key of its range is written again after a deletion, which historical reads do not
    survive (see [earlier_life_lost] of HistRead.v). *)
Theorem txn_reads_undisturbed (cs : list Command) (req : TxnRequest) (others : nat -> Meanwhile) :
  let s := run cs fresh in let s' := exec (CmdTxn req) s in
  cmds_ok cs fresh -> cmd_ok (CmdTxn req) s ->
  (forall i r, omap past_read (txn_trail s req) !! i = Some r -> undisturbed s' (others i) r) ->
  txn_among (fun s i => read_among s (others i)) req s = txn req s.
Proof.
  intros s s' Hc Ht Ho. destruct (run_logs cs Hc) as (I & rs & L). fold s in I, L.
  destruct req as [cmp suc fl]. pose proof Ht as [Hok Hr].
  pose proof (tri_txn_locked s I Hr cmp suc fl Hok s I eq_refl) as Hp.
  assert (cmds_ok (cs ++ [CmdTxn (mkTxn cmp suc fl)]) fresh) as Hc' by (rewrite cmds_ok_app; cbn; by fold s).
  pose proof (read_undisturbed (cs ++ [CmdTxn (mkTxn cmp suc fl)])) as Hread. cbv zeta in Hread.
  rewrite run_app in Hread. cbn [run] in Hread. fold s in Hread. fold s' in Hread.
  subst s'. cbn [exec] in *. revert Ho Hread. unfold txn, txn_among, bind, get, lift, ret.
  destruct (check_txn_duplicate_keys _) as [[]|e|w]; [|done..].
  destruct (txn_locked _ s) as [s' [[[[b hd] out] holes]|e|w]]; [|done..].
  destruct Hp as (_ & _ & _ & _ & Hh). cbn [fst snd] in Hh. intros Ho Hread.
  assert (forall o, (match o : outcome (list ResponseOp) with
    | Ok a => (s', Ok (mkTxnResponse (Some hd) b a)) | Err e => (s', Err e) | Panic w => (s', Panic w) end).1 = s') as Es
    by by intros [].
  rewrite Es in Ho, Hread.
  rewrite (run_deferred_ext (fun i => read_among s' (others i)) (fun _ => range s') holes out); [done|].
  intros i p r Hi. apply Hread; [done|]. apply Ho.
  unfold txn_trail. rewrite <- (held_reads s _ _ _ _ _ _ Hh 0), list_lookup_fmap, Hi. done.
Qed.

End Total.

#[local] Existing Instance bitwise_crc.
#[local] Existing Instance ref_decoder.
#[local] Existing Instance merge_sort_impl.

Lemma txn_answers_iff_witness :
  is_ok (txn try_lock (run demo fresh)).2 = txn_accepts (run demo fresh) try_lock.
Proof.
  apply (txn_answers_iff demo try_lock); [exact demo_ok|]. split; [exact try_lock_ok|by vm_compute].
Defined.

(** A read at the revision the transaction itself takes is accepted behind any
    write, and then sees the writes that come after it in the transaction. *)
Example past_read_of_own_revision :
  let s := run demo_before fresh in let read := RequestRange (range_req (lit "m") [] (next_rev s)) in
  txn_accepts s (mkTxn [] [read] []) = false
  /\ match (txn (mkTxn [] [read; RequestPut (put_req "m" "1")] []) s).2 with
     | Ok (mkTxnResponse _ _ [ResponseRange r; ResponsePut _]) => rs_kvs r = [kv_blob (lit "m") (lit "1") 3 3 1 0]
     | _ => False
     end.
Proof. by vm_compute. Qed.

(** A write, and a read of the past inside a nested transaction. *)
Definition write_then_read : TxnRequest :=
  mkTxn [] [RequestPut (put_req "m" "1"); RequestTxn (mkTxn [] [RequestNone; RequestRange demo_read] [])] [].

(** Another task writes before the read and between its sections. *)
Definition busy : Meanwhile :=
  mkMeanwhile [CmdPut (put_req "m" "2")] [CmdPut (put_req "n" "1")] [CmdPut (put_req "a" "3")]
    [CmdDeleteRange (del_req "m")] [CmdCompact 3].

Abbreviation before_txn := (run demo_before fresh).

Lemma busy_undisturbed : undisturbed (exec (CmdTxn write_then_read) before_txn) busy demo_read.
Proof.
  split.
  - vm_compute. congruence.
  - vm_compute. split; congruence.
  - vm_compute. repeat split; congruence.
  - by vm_compute.
  - by vm_compute.
  - repeat split; by vm_compute.
  - vm_compute. congruence.
  - rewrite <- (app_nil_r (log_of _)). apply single_lifetime_split; (apply (bool_decide_unpack _); by vm_compute).
  - by vm_compute.
Qed.

Lemma txn_reads_undisturbed_witness :
  txn_among (fun s _ => read_among s busy) write_then_read before_txn = txn write_then_read before_txn.
Proof.
  apply (txn_reads_undisturbed demo_before write_then_read (fun _ => busy)).
  - repeat split; by vm_compute.
  - split; [repeat split; by vm_compute|by vm_compute].
  - assert (omap past_read (txn_trail before_txn write_then_read) = [demo_read]) as -> by by vm_compute.
    intros [|i] r; [intros [= <-]; exact busy_undisturbed|done].
Defined.

End TxnTotal.
