(* ===== verification/LeaseProps.v ===== *)
(** * Leases across commands, expiry and restarts

    Every live key attached to a lease names a lease that exists, and every lease
    has a legal time to live, in every state the server reaches. With it, what
    renewing and inspecting a lease answers (src/storage/store.rs). *)
From S2P Require Import Prelude Varint KvCodec Wire Crc WalRecord Proto Range SortKvs State Store.
From S2P Require Import Historical Txn Recovery Background System Replay Durability OpProps Preserve.
Local Open Scope Z_scope.

Module LeaseProps.
Import KvCodec Wire Crc Wal Proto Range SortKvs State Store Historical Txn Recovery Background System Replay
  Durability OpProps Preserve.

Section LeaseProps.
Context `{Crc32c} `{KvDecoder} `{UnstableSort}.

Definition attached (s : StoreState) : Prop :=
  forall k ks, get_alive s k = Some ks -> ks_lease ks <> 0 -> is_Some (leases s !! ks_lease ks).

Definition ttl_ok (id : Z) (l : LeaseState) : Prop := ls_id l = id /\ LEASE_MIN_TTL <= ls_ttl l <= LEASE_MAX_TTL.

Record lease_ok (s : StoreState) : Prop := {
  lo_attached : attached s;
  lo_ttl : map_Forall ttl_ok (leases s) }.

(** ** Operations that keep it, whatever they answer *)

(** Live keys may disappear, but keep their lease. *)
Lemma lease_ok_sub s s' :
  leases s' = leases s ->
  (forall k ks', get_alive s' k = Some ks' -> exists ks, get_alive s k = Some ks /\ ks_lease ks = ks_lease ks') ->
  lease_ok s -> lease_ok s'.
Proof.
  intros El Hk [Ha Ht]. split; [|by rewrite El]. intros k ks' (ks & Hks & <-)%Hk Hn. rewrite El. by eapply Ha.
Qed.

Lemma lease_ok_same s s' : leases s' = leases s -> keys s' = keys s -> lease_ok s -> lease_ok s'.
Proof. intros El Ek. apply lease_ok_sub; [done|]. intros k ks. unfold get_alive. rewrite Ek. eauto. Qed.

Lemma lease_keeps_alloc_revision : keeps lease_ok alloc_revision.
Proof. intros s. by apply lease_ok_same. Qed.

Lemma lease_keeps_apply_delete key rev : keeps lease_ok (apply_delete key rev).
Proof.
  intros s L. unfold apply_delete, bind, get, modify, lift, ret.
  destruct (keys s !! key) as [prev|] eqn:Ek; [|done].
  destruct (Z.eqb_spec (ks_delete_revision prev) 0) as [Ed|]; [|done]. cbn [negb].
  assert (forall s', leases s' = leases s -> keys s' = <[key := tombstone rev prev]> (keys s) -> lease_ok s') as Hs.
  { intros s' El Ek'. revert L. apply lease_ok_sub; [done|]. intros k ks'. unfold get_alive. rewrite Ek'.
    destruct (decide (k = key)) as [->|Hne]; [|rewrite lookup_insert_ne by done; eauto].
    rewrite lookup_insert_eq, Ek. unfold is_alive at 2. rewrite Ed. cbn.
    destruct (is_alive _); [|done]. intros [= <-]. by exists prev. }
  destruct (with_mod_revision _ _); by apply Hs.
Qed.

Lemma lease_keeps_wal_append_batch rs msg : keeps lease_ok (wal_append_batch rs msg).
Proof.
  intros s. unfold wal_append_batch. destruct (append_kv_batch _ _) as [w [[]|e]]; by apply lease_ok_same.
Qed.

(** A put checks its lease, whether given or inherited. *)
Lemma lease_keeps_put_at req rev : keeps lease_ok (put_at req rev).
Proof.
  intros s L. unfold put_at. destruct ((_ || _) && _); [done|].
  fold (put_lease req (get_alive s (pr_key req))). fold (put_value req (get_alive s (pr_key req))).
  set (lease := put_lease _ _). set (value := put_value _ _). destruct (negb (lease =? 0) && _) eqn:El; [done|].
  destruct (append_kv _ _) as [w [[]|e]]; [|by revert L; apply lease_ok_same].
  unfold bind, get, ret. rewrite apply_effect. cbn [fst].
  destruct L as [Ha Ht]. split; [|done]. intros k ks.
  rewrite get_alive_in. cbn [keys put_effect notified set_chans set_key_count set_keys set_wal].
  rewrite alive_in_put. destruct (decide (k = pr_key req)) as [->|Hne].
  - intros [= <-]. cbn [put_entry ks_lease]. intros Hn.
    rewrite (proj2 (Z.eqb_neq lease 0)) in El by done. cbn [negb andb] in El.
    destruct (leases s !! lease) as [l|] eqn:E; [|done]. by exists l.
  - exact (Ha k ks).
Qed.

#[local] Instance lease_kept : Kept lease_ok :=
  {| kept_alloc_revision := lease_keeps_alloc_revision; kept_apply_delete := lease_keeps_apply_delete;
     kept_wal_append_batch := lease_keeps_wal_append_batch; kept_put_at := lease_keeps_put_at |}.

(** ** Lease operations *)

Lemma check_lease_ttl_ok ttl t : check_lease_ttl ttl = Ok t -> LEASE_MIN_TTL <= t <= LEASE_MAX_TTL.
Proof.
  unfold check_lease_ttl. destruct (Z.ltb_spec LEASE_MAX_TTL ttl); [done|]. intros [= <-].
  assert (LEASE_MIN_TTL <= LEASE_MAX_TTL) by by vm_compute. lia.
Qed.

Lemma lease_ok_insert id l s :
  ttl_ok id l -> lease_ok s -> lease_ok (set_leases (<[id := l]> (leases s)) s).
Proof.
  intros Hl [Ha Ht]. split; [|by apply map_Forall_insert_2]. intros k ks Hk Hn. cbn [leases set_leases].
  destruct (decide (id = ks_lease ks)) as [<-|Hne]; [rewrite lookup_insert_eq; eauto|].
  rewrite lookup_insert_ne by done. by eapply Ha.
Qed.

Lemma lease_keeps_lease_grant now req : keeps lease_ok (lease_grant now req).
Proof.
  intros s L. unfold lease_grant, bind at 1, lift at 1.
  destruct (check_lease_ttl (lg_ttl req)) as [ttl|e|w] eqn:Et; [|done..]. apply check_lease_ttl_ok in Et.
  unfold bind at 1. set (p := (if negb (lg_id req =? 0) then ret (lg_id req) else alloc_lease_id) s).
  assert (lease_ok p.1) as Lp by (unfold p; destruct (negb _); [done|by revert L; apply lease_ok_same]).
  destruct p as [s1 [id|e|w]]; [|done..]. cbn [fst] in Lp. unfold bind at 1, get at 1.
  destruct (leases s1 !! id); [done|]. unfold bind, lift, modify, get, ret.
  destruct (instant_add now ttl) as [ex|e|w]; [|done..]. cbn [fst].
  apply (lease_ok_same (set_leases (<[id := mkLease id ttl ex 0]> (leases s1)) s1)); [done..|].
  by apply lease_ok_insert.
Qed.

Lemma lease_keeps_lease_keep_alive now id : keeps lease_ok (lease_keep_alive now id).
Proof.
  intros s L. unfold lease_keep_alive, bind, get, lift, modify, ret, fail.
  destruct (leases s !! id) as [ls|] eqn:El; [|done]. destruct (instant_add now (ls_ttl ls)) as [ex|e|w]; [|done..].
  cbn [fst]. set (ls' := mkLease _ _ _ _).
  apply (lease_ok_same (set_leases (<[id := ls']> (leases s)) s)); [done..|].
  apply lease_ok_insert; [|done]. exact (lo_ttl s L id ls El).
Qed.

(** Removing leases together with the keys attached to them. *)
Lemma lease_ok_drop (ids : list Z) s s' :
  (forall id, leases s' !! id = if decide (id ∈ ids) then None else leases s !! id) ->
  (forall k, get_alive s' k
     = match get_alive s k with Some p => if decide (ks_lease p ∈ ids) then None else Some p | None => None end) ->
  lease_ok s -> lease_ok s'.
Proof.
  intros El Ek [Ha Ht]. split.
  - intros k ks Hk Hn. rewrite Ek in Hk. destruct (get_alive s k) as [p|] eqn:Ep; [|done].
    destruct (decide (ks_lease p ∈ ids)) as [|Hout]; [done|]. injection Hk as <-.
    rewrite El, decide_False by done. by eapply Ha.
  - intros id l Hl. rewrite El in Hl. destruct (decide _); [done|]. by apply Ht.
Qed.

Lemma lease_ok_drop_one id s s' :
  leases s' = delete id (leases s) ->
  (forall k, get_alive s' k
     = match get_alive s k with Some p => if decide (ks_lease p = id) then None else Some p | None => None end) ->
  lease_ok s -> lease_ok s'.
Proof.
  intros El Ek. apply (lease_ok_drop [id]).
  - intros i. rewrite El. destruct (decide (i ∈ [id])) as [->%list_elem_of_singleton|Hne]; [apply lookup_delete_eq|].
    apply lookup_delete_ne. intros ->. apply Hne. left.
  - intros k. rewrite Ek. destruct (get_alive s k) as [p|]; [|done].
    destruct (decide (ks_lease p = id)), (decide (ks_lease p ∈ [id])); set_solver.
Qed.

Lemma lease_ok_revoke id s :
  inv s -> room 1 s -> faults (wal s) = [] -> lease_ok s -> lease_ok (lease_revoke id s).1.
Proof.
  intros I Hr Hno L. unfold lease_revoke, bind, get, fail, modify, ret, lift.
  destruct (leases s !! id) eqn:El; [|done]. set (s1 := set_notified true (set_leases (delete id (leases s)) s)).
  assert (inv s1) as I1 by (apply (inv_same s); try done; apply (inv_compact s I)).
  destruct (delete_keys_for_lease_spec id s1 I1 Hr Hno) as (s' & Ed & Els & _ & _ & _ & _ & Ek).
  fold s1. rewrite Ed. cbn [fst]. apply (lease_ok_drop_one id s); [by rewrite Els| |done].
  apply (lease_keys_dropped id s1); [pose proof (inv_rev s I); cbn; lia|done].
Qed.

Lemma lease_ok_expiry now s :
  inv s -> room (Z.of_nat (size (leases s))) s -> faults (wal s) = [] -> lease_ok s -> lease_ok (expiry_step now s).1.
Proof.
  intros I Hr Hno L. unfold expiry_step, bind at 1, get at 1.
  destruct (expired_leases now s) as [|id ids] eqn:Ex; [done|]. rewrite <- Ex. unfold bind, modify.
  destruct (expire_leases_spec (expired_leases now s) s I) as (s' & -> & El & Ek); [|done|].
  - assert (length (expired_leases now s) <= size (leases s))%nat; [|unfold room in *; lia].
    unfold expired_leases. rewrite length_fmap, length_filter, btree_iter_length. done.
  - cbn [fst]. apply (lease_ok_same s'); [done..|]. by apply (lease_ok_drop (expired_leases now s) s).
Qed.

(** ** The running server *)

Lemma exec_lease_ok c s :
  inv s -> cmd_ok c s -> faults (wal s) = [] -> lease_ok s -> lease_ok (exec c s).
Proof.
  intros I Hc Hno L. destruct c; cbn [exec cmd_ok] in *.
  - exact (keeps_put lease_ok _ s L).
  - exact (keeps_delete_range lease_ok _ s L).
  - exact (keeps_txn lease_ok _ s L).
  - unfold compact, fail, lift. destruct (_ <? _); [done|]. destruct (_ <=? _); [done|].
    by revert L; apply lease_ok_same.
  - by apply lease_keeps_lease_grant.
  - by apply lease_ok_revoke.
  - by apply lease_keeps_lease_keep_alive.
  - by apply lease_ok_expiry.
  - by revert L; apply lease_ok_same.
  - by revert L; apply lease_ok_same.
Qed.

(** Opening the store re-creates a lease for every id a live key carries. *)
Lemma open_lease_ok now s rs s' :
  inv s -> durable_by s rs -> clock_ok now -> open_store now (file (wal s)) = Ok s' -> lease_ok s'.
Proof.
  intros I [Hno Hf R Hv Hrv Hmo] Hc Ho. pose proof (inv_rev s I) as Hnr.
  destruct (open_store_log now _ rs [] R ltac:(by left) (clock_instant now Hc)) as
    (s2 & Eo & _ & _ & _ & _ & _ & _ & El).
  { eapply Forall_impl; [apply Hrv|]. cbn. intros; lia. }
  rewrite app_nil_r, <- Hf, Ho in Eo. injection Eo as <-. split.
  - intros k ks Hk Hn. rewrite El, decide_True; [eauto|]. apply elem_of_restored_leases. eauto.
  - intros id l. rewrite El. destruct (decide _); [|done]. intros [= <-]. split; [done|]. by vm_compute.
Qed.

Lemma sys_step_lease_ok y y' :
  sys_step y y' -> sys_inv y -> lease_ok (sys_store y) -> lease_ok (sys_store y').
Proof.
  intros T Hi L. destruct (sys_inv_durable y Hi) as (rs & D'). destruct Hi as [I _].
  destruct T as [c s cp Hc|s|s sn fs target Hb|s sn|s cp now s' Hc Ho]; cbn in *; try done.
  - apply exec_lease_ok; try done. by eapply durable_no_faults.
  - revert L. unfold compact_phase_c. destruct (wal_tail s sn); [by apply lease_ok_same|].
    destruct (write_all _ _) as [t [[]|e]]; [by apply lease_ok_same|done].
  - by eapply open_lease_ok.
Qed.

Lemma sys_lease_ok y : rtc sys_step sys_init y -> lease_ok (sys_store y).
Proof.
  apply sys_invariant; [|exact sys_step_lease_ok]. split; [|apply map_Forall_empty]. intros k ks. unfold get_alive. cbn.
  by rewrite lookup_empty.
Qed.

Lemma lease_keys_sorted s id : StronglySorted bytes_le (lease_keys s id).
Proof.
  change bytes_le with (@key_le (list Byte.byte) _ _ _).
  eapply StronglySorted_sublist; [apply filter_sublist_fst|apply (btree_iter_sorted (keys s))].
Qed.

(** A legal time to live never overflows the clock. *)
Lemma ttl_instant now id l :
  clock_ok now -> ttl_ok id l -> instant_add now (ls_ttl l) = Ok (now + ls_ttl l * 1000000000).
Proof.
  unfold clock_ok, ttl_ok, instant_add. intros Hn [_ Ht].
  assert (LEASE_MIN_TTL = 2 /\ LEASE_MAX_TTL = 9223372035) as [E1 E2] by done. rewrite E1, E2 in Ht.
  rewrite u64_wrap_small by (unfold is_u64; lia).
  assert (now / 1000000000 < 2 ^ 62) by (apply Z.div_lt_upper_bound; lia).
  by rewrite (proj2 (Z.ltb_lt _ _)) by lia.
Qed.

Lemma keep_alive_run s now id :
  map_Forall ttl_ok (leases s) -> clock_ok now ->
  match leases s !! id with
  | None => lease_keep_alive now id s = (s, Err (mkStatus NotFound "etcdserver: lease not found"))
  | Some l => exists s',
      lease_keep_alive now id s = (s', Ok (mkKeepAlive (Some (state_header s)) id (ls_ttl l)))
      /\ leases s' = <[id := mkLease id (ls_ttl l) (now + ls_ttl l * 1000000000) (ls_key_count l)]> (leases s)
      /\ keys s' = keys s /\ next_rev s' = next_rev s /\ wal s' = wal s /\ expiry_notified s' = true
  end.
Proof.
  intros Ht Hc. unfold lease_keep_alive, bind, get, lift, modify, ret, fail.
  destruct (leases s !! id) as [l|] eqn:El; [|done]. specialize (Ht id l El).
  rewrite (ttl_instant now id l Hc Ht). destruct Ht as [-> _]. by eexists.
Qed.

(** ** Properties *)

(** C25. Lease integrity. In every state the server can reach, through commands,
    expiry, log compaction and restarts, the lease a live key names exists, it is
    registered under its own id, and its time to live is within the legal
    bounds. *)
Theorem leases_integral y :
  rtc sys_step sys_init y ->
  let s := sys_store y in
  (forall k ks, get_alive s k = Some ks -> ks_lease ks <> 0 -> is_Some (leases s !! ks_lease ks))
  /\ (forall id l, leases s !! id = Some l -> ls_id l = id /\ LEASE_MIN_TTL <= ls_ttl l <= LEASE_MAX_TTL).
Proof. intros Hr s. destruct (sys_lease_ok y Hr) as [Ha Ht]. split; [exact Ha|exact Ht]. Qed.

(** Renewing a lease. In every reachable state, renewing an unknown lease is
    refused and changes nothing; renewing a known one answers with its time to
    live, moves its deadline to exactly that many seconds from now, wakes the
    expiry task and changes no other lease and no key. It never panics. *)
Theorem keep_alive_spec y now id :
  rtc sys_step sys_init y -> clock_ok now ->
  let s := sys_store y in
  match leases s !! id with
  | None => lease_keep_alive now id s = (s, Err (mkStatus NotFound "etcdserver: lease not found"))
  | Some l => exists s',
      lease_keep_alive now id s = (s', Ok (mkKeepAlive (Some (state_header s)) id (ls_ttl l)))
      /\ leases s' = <[id := mkLease id (ls_ttl l) (now + ls_ttl l * 1000000000) (ls_key_count l)]> (leases s)
      /\ keys s' = keys s /\ next_rev s' = next_rev s /\ wal s' = wal s /\ expiry_notified s' = true
  end.
Proof.
  intros Hr Hc s. apply keep_alive_run; [|done]. apply (sys_lease_ok y Hr).
Qed.

(** Inspecting a lease. The answer for an unknown lease is -1; otherwise it is
    the granted time, the remaining time cut to whole seconds, never negative (as
    long as the deadline is representable); and on demand exactly the live keys
    attached to the lease, each once and in key order. *)
Theorem time_to_live_spec s now req :
  let r := lease_time_to_live now s req in
  match leases s !! lt_id req with
  | None => lts_ttl r = -1 /\ lts_granted_ttl r = -1 /\ lts_keys r = []
  | Some l =>
      lts_granted_ttl r = ls_ttl l /\ 0 <= lts_ttl r
      /\ (ls_expires_at l < now + 2 ^ 63 * 1000000000 ->
          lts_ttl r * 1000000000 <= Z.max 0 (ls_expires_at l - now) < (lts_ttl r + 1) * 1000000000)
      /\ (lt_keys req = true ->
            (forall k, k ∈ lts_keys r <-> exists ks, get_alive s k = Some ks /\ ks_lease ks = lt_id req)
            /\ NoDup (lts_keys r) /\ StronglySorted bytes_le (lts_keys r))
      /\ (lt_keys req = false -> lts_keys r = [])
  end.
Proof.
  intros r. unfold r, lease_time_to_live. destruct (leases s !! lt_id req) as [l|]; [|done].
  cbn [lts_ttl lts_granted_ttl lts_keys]. split; [done|]. split; [lia|]. split.
  - intros He. set (d := Z.max 0 (ls_expires_at l - now)).
    assert (0 <= d / 1000000000 < 2 ^ 63) by (split; [apply Z.div_pos; lia|apply Z.div_lt_upper_bound; lia]).
    rewrite i64_wrap_small, Z.max_l by (unfold is_i64; lia).
    pose proof (Z.div_mod d 1000000000 ltac:(lia)). pose proof (Z.mod_pos_bound d 1000000000 ltac:(lia)). lia.
  - split; [|by intros ->]. intros ->. split; [intros k; apply elem_of_lease_keys|].
    split; [apply lease_keys_NoDup|]. apply lease_keys_sorted.
Qed.

End LeaseProps.

#[local] Existing Instance bitwise_crc.
#[local] Existing Instance ref_decoder.
#[local] Existing Instance merge_sort_impl.

Lemma leased_reachable : rtc sys_step sys_init (mkSys leased None).
Proof. apply run_steps. repeat split; by vm_compute. Qed.

Lemma leases_integral_witness :
  (forall k ks, get_alive leased k = Some ks -> ks_lease ks <> 0 -> is_Some (leases leased !! ks_lease ks))
  /\ (forall id l, leases leased !! id = Some l -> ls_id l = id /\ LEASE_MIN_TTL <= ls_ttl l <= LEASE_MAX_TTL).
Proof. exact (leases_integral (mkSys leased None) leased_reachable). Defined.

Lemma keep_alive_spec_witness :
  exists s', lease_keep_alive 3 5 leased = (s', Ok (mkKeepAlive (Some (state_header leased)) 5 10))
    /\ leases s' !! 5 = Some (mkLease 5 10 10000000003 0).
Proof.
  assert (leases leased !! 5 = Some (mkLease 5 10 10000000000 0)) as El by by vm_compute.
  assert (clock_ok 3) as Hc by (unfold clock_ok; lia).
  pose proof (keep_alive_spec (mkSys leased None) 3 5 leased_reachable Hc) as Hk. cbn [sys_store] in Hk.
  rewrite El in Hk. destruct Hk as (s' & Ek & Els & _). exists s'. split; [exact Ek|]. by rewrite Els, lookup_insert_eq.
Defined.

End LeaseProps.
