(* ===== verification/Availability.v ===== *)
(** * Which requests are answered, refused or fatal

    An operation of the store ends in an answer, in an error or in a panic, and the
    release profile of Cargo.toml turns a panic into the end of the process. Here is
    which of the three: a verdict is computed from the request and the state alone,
    and shown to be the outcome of the operation in every state the server can reach.
    A request is fatal exactly if it reads or deletes an inverted range, or asks for
    a vector of more than [isize::MAX] bytes. *)
From S2P Require Import Prelude Varint KvCodec Wire Crc WalRecord Proto Range SortKvs State Store.
From S2P Require Import Historical Txn Recovery Background System Replay Durability ReadProps HistRead.
From S2P Require Import OpProps TxnProps TxnTotal LeaseProps.
Local Open Scope Z_scope.

Module Availability.
Import KvCodec Wire Crc Wal Proto Range SortKvs State Store Historical Txn Recovery Background System Replay
  Durability ReadProps HistRead OpProps TxnProps TxnTotal LeaseProps.

Inductive fate := Answers | Refuses | Dies.

#[export] Instance fate_eq_dec : EqDecision fate.
Proof. solve_decision. Defined.

Definition kind {A} (o : outcome A) : fate :=
  match o with Ok _ => Answers | Err _ => Refuses | Panic _ => Dies end.

(** One after the other, up to the first that does not answer. *)
Definition and_then (v w : fate) : fate := match v with Answers => w | _ => v end.
Definition in_order (vs : list fate) : fate := foldr and_then Answers vs.

Lemma in_order_app vs ws : in_order (vs ++ ws) = and_then (in_order vs) (in_order ws).
Proof. induction vs as [|v vs IH]; [done|]. cbn. unfold in_order in IH. rewrite IH. by destruct v. Qed.

Lemma and_then_answers v : and_then v Answers = v.
Proof. by destruct v. Qed.

Lemma kind_bind {A B} (o : outcome A) (f : A -> outcome B) w :
  (forall a, o = Ok a -> kind (f a) = w) -> kind (outcome_bind o f) = and_then (kind o) w.
Proof. destruct o; cbn; auto. Qed.

Section Availability.
Context `{Crc32c} `{KvDecoder} `{UnstableSort}.

(** ** The verdicts *)

(** A read of the current state has no errors of its own: what it does not answer kills. *)
Definition current_verdict (m : KeyMap) (r : RangeRequest) : fate :=
  if current_valid m r then Answers else Dies.

(** The checks of a past read, in their order. *)
Definition past_verdict (mark current : Z) (r : RangeRequest) : fate :=
  if negb (nonempty (rr_key r)) then Refuses
  else if (current <? rr_revision r) || (rr_revision r <? mark) then Refuses
  else if inverted (req_bound r) then Dies else Answers.

Definition range_verdict (s : StoreState) (r : RangeRequest) : fate :=
  if 0 <? rr_revision r then past_verdict (compact_rev s) (current_revision s) r
  else if negb (nonempty (rr_key r)) then Refuses else current_verdict (keys s) r.

Definition put_verdict (ls : gmap Z LeaseState) (m : KeyMap) (p : PutRequest) : fate :=
  if put_valid ls m p then Answers else Refuses.

Definition delete_verdict (d : DeleteRangeRequest) : fate :=
  if negb (nonempty (dr_key d)) then Refuses
  else if inverted (resolve_range (dr_key d) (dr_range_end d)) then Dies else Answers.

Definition step_verdict (ls : gmap Z LeaseState) (e : Executed) : fate :=
  match ex_op e with
  | RequestRange r => if 0 <? rr_revision r then Answers else current_verdict (ex_map e) r
  | RequestPut p => put_verdict ls (ex_map e) p
  | RequestDeleteRange d => delete_verdict d
  | RequestTxn _ => if ex_depth e <? 1 then Answers else Refuses
  | RequestNone => Answers
  end.

(** The validation, the operations in their order, and the reads left for later. *)
Definition txn_verdict (s : StoreState) (req : TxnRequest) : fate :=
  let steps := txn_trail s req in
  let current := if existsb is_write steps then next_rev s else current_revision s in
  if negb (is_ok (check_txn_duplicate_keys req)) then Refuses
  else and_then (in_order (step_verdict (leases s) <$> steps))
         (in_order (past_verdict (compact_rev s) current <$> omap past_read steps)).

Definition compact_verdict (s : StoreState) (rev : Z) : fate :=
  if (compact_rev s <? rev) && (rev <=? current_revision s) then Answers else Refuses.

Definition grant_verdict (s : StoreState) (req : LeaseGrantRequest) : fate :=
  let id := if lg_id req =? 0 then next_lease_id s else lg_id req in
  if (lg_ttl req <=? LEASE_MAX_TTL) && bool_decide (leases s !! id = None) then Answers else Refuses.

Definition revoke_verdict (s : StoreState) (id : Z) : fate :=
  if bool_decide (leases s !! id = None) then Refuses else Answers.

(** ** Reads *)

Lemma kind_check_key key : kind (check_key key) = if negb (nonempty key) then Refuses else Answers.
Proof. by destruct key. Qed.

Lemma kind_range_current s r : kind (range_current s r) = current_verdict (keys s) r.
Proof.
  unfold current_verdict. rewrite <- range_current_decides. unfold range_current.
  destruct (resolve_range _ _); [|done|..]; unfold with_capacity; destruct (_ * 32 <? 2 ^ 63); try done;
    cbn [outcome_bind range_bounds]; unfold bounds_iter, btree_range;
    repeat (case_match; cbn [outcome_bind]; try done).
Qed.

Lemma kind_range s rs r : durable_by s rs -> kind (range s r) = range_verdict s r.
Proof.
  intros D. unfold range, range_locks, range_verdict, past_verdict. destruct (rr_key r) as [|c key] eqn:Ek.
  { by destruct (0 <? rr_revision r). }
  change (nonempty (c :: key)) with true. cbn [check_key outcome_bind negb].
  destruct (0 <? rr_revision r) eqn:Hpos.
  - destruct (current_revision s <? rr_revision r); [done|]. rewrite Hpos. cbn [andb orb].
    destruct (rr_revision r <? compact_rev s); [done|].
    unfold range_historical. fold (req_bound r). destruct (inverted (req_bound r)) eqn:Ei; [by rewrite bounds_iter_inverted|].
    rewrite bounds_iter_ok by done. cbn [outcome_bind]. destruct (phase1_loop _ _ _ _) as [direct [|k stale]]; [done|].
    rewrite (du_file _ _ D). by rewrite scan_wal_range_state by apply D.
  - replace (current_revision s <? 0) with false by (unfold current_revision; lia). cbn [andb]. apply kind_range_current.
Qed.

(** ** Operations under the write lock *)

Definition judges {A} (P : StoreState -> Prop) (m : M A) (v : fate) : Prop :=
  forall s, inv s -> P s -> faults (wal s) = [] -> faults (wal (m s).1) = [] /\ kind (m s).2 = v.

Lemma judges_bind {A B} P (m : M A) Q E v (f : A -> M B) w :
  tri P m Q E -> judges P m v -> (forall a, judges (Q a) (f a) w) -> judges P (bind m f) (and_then v w).
Proof.
  intros Ht Hv Hf s I HP Hw. specialize (Ht s I HP). specialize (Hv s I HP Hw). unfold bind.
  destruct (m s) as [s' [a|e|why]]; cbn [fst snd kind] in *; destruct Hv as [Hw' <-]; [|done..].
  destruct Ht as [I' HQ]. exact (Hf a s' I' HQ Hw').
Qed.

Lemma judges_ret {A} P (a : A) : judges P (ret a) Answers.
Proof. by intros s I HP Hw. Qed.

Lemma judges_lift {A B} P (o : outcome A) (f : A -> M B) w :
  (forall a, o = Ok a -> judges P (f a) w) -> judges P (bind (lift o) f) (and_then (kind o) w).
Proof. intros Hf s I HP Hw. unfold bind, lift. destruct o as [a|e|why]; [|done..]. exact (Hf a eq_refl s I HP Hw). Qed.

Lemma judges_get {B} P (f : StoreState -> M B) w : (forall s1, P s1 -> judges P (f s1) w) -> judges P (bind get f) w.
Proof. intros Hf s I HP Hw. exact (Hf s HP s I HP Hw). Qed.

Lemma judges_eq {A} P (m : M A) v v' : v = v' -> judges P m v -> judges P m v'.
Proof. by intros ->. Qed.

(** A computation that is known to answer, or to answer or die. *)
Lemma decides_judges {A} P (m : M A) Q : decides P m true Q -> judges P m Answers.
Proof.
  intros Hd s I HP Hw. destruct (Hd s I HP Hw) as [Hf Hm]. split; [done|]. by destruct (m s).2.
Qed.

Lemma kind_validate_put s p : kind (validate_put s p) = put_verdict (leases s) (keys s) p.
Proof.
  unfold put_verdict. rewrite <- validate_put_decides. pose proof (validate_put_no_panic s p) as Hn.
  destruct (validate_put s p) as [[]|e|w]; [done..|]. by destruct (Hn w).
Qed.

Section Run.
Context (s0 : StoreState) (I0 : inv s0) (R0 : room 1 s0).

Lemma judges_delete_range_at req r m :
  judges (linked s0 (Some r) m) (delete_range_at req r)
    (if inverted (resolve_range (dr_key req) (dr_range_end req)) then Dies else Answers).
Proof.
  destruct (inverted _) eqn:Ei.
  - intros s I L Hw. unfold delete_range_at, bind, get, lift.
    destruct (keys_to_delete s _) as [ks|e|w] eqn:Ek; [|exfalso|done].
    + by apply keys_to_delete_Ok in Ek as [Hp _]; rewrite Ei in Hp.
    + revert Ek. unfold keys_to_delete, btree_range. by repeat case_match.
  - pose proof (decides_delete_range_at s0 req r m) as Hd. rewrite Ei in Hd. by eapply decides_judges.
Qed.

Lemma judges_ops_loop body depth ops :
  (forall op p acc m, op ∈ ops -> tri (linked s0 acc.1 m) (body op p acc) (op_post s0 op p acc m) (partial s0)) ->
  (forall op p acc m, op ∈ ops ->
     judges (linked s0 acc.1 m) (body op p acc)
       (in_order (step_verdict (leases s0) <$> op_trail s0 (next_rev s0) depth op m))) ->
  forall path i acc m,
  judges (linked s0 acc.1 m) (ops_loop body path ops i acc)
    (in_order (step_verdict (leases s0) <$> trail s0 (next_rev s0) depth ops m)).
Proof.
  intros Ht Hd path. induction ops as [|op ops IH]; intros i acc m; cbn [ops_loop trail in_turn]; [apply judges_ret|].
  rewrite fmap_app, in_order_app. eapply judges_bind; [apply Ht; left|apply Hd; left|]. intros [r acc'] s I [L _].
  rewrite <- (and_then_answers (in_order _)). revert s I L. fold (trail s0 (next_rev s0) depth).
  eapply judges_bind; [apply tri_ops_loop; intros; apply Ht; by right|apply IH; intros; [apply Ht|apply Hd]; by right|].
  intros [rs acc'']. apply judges_ret.
Qed.

Lemma judges_txn_op_step depth op path acc m :
  0 <= depth -> op_ok op ->
  (forall o p a m, op_ok o -> depth < 1 ->
     judges (linked s0 a.1 m) (apply_txn_op (depth + 1) o p a)
       (in_order (step_verdict (leases s0) <$> op_trail s0 (next_rev s0) (depth + 1) o m))) ->
  judges (linked s0 acc.1 m) (apply_txn_op depth op path acc)
    (in_order (step_verdict (leases s0) <$> op_trail s0 (next_rev s0) depth op m)).
Proof.
  intros Hd Hok Hnest. destruct acc as [rev deferred].
  destruct op as [r|p|d|[cmp suc fl]|]; cbn [apply_txn_op fst op_trail].
  - destruct (0 <? rr_revision r) eqn:Er.
    + apply (judges_eq _ _ Answers); [cbn; by rewrite Er|apply judges_ret].
    + apply judges_get. intros s1 L1. apply (judges_eq _ _ (and_then (kind (range_current s1 r)) Answers)).
      { cbn. by rewrite Er, kind_range_current, (linked_keys _ _ _ _ L1). }
      apply judges_lift. intros resp _. apply judges_ret.
  - apply judges_get. intros s1 L1. pose proof (linked_put_valid s0 _ _ _ p L1) as Ev.
    assert (kind (validate_put s1 p) = put_verdict (leases s0) m p) as Ek
      by (rewrite kind_validate_put; unfold put_verdict; by rewrite <- validate_put_decides, Ev).
    apply (judges_eq _ _ (and_then (kind (validate_put s1 p)) (and_then Answers (and_then Answers Answers)))); [cbn; by rewrite Ek|].
    apply judges_lift. intros [] Hv. rewrite Hv in Ev.
    eapply judges_bind; [by apply tri_get_or_alloc|eapply decides_judges, decides_alloc|]. intros r.
    eapply judges_bind; [by apply tri_put_at|by eapply decides_judges, decides_put_at|]. intros resp. apply judges_ret.
  - set (v := if inverted (resolve_range (dr_key d) (dr_range_end d)) then Dies else Answers).
    apply (judges_eq _ _ (and_then (kind (check_key (dr_key d))) (and_then Answers (and_then v Answers)))).
    { cbn. unfold delete_verdict. rewrite kind_check_key, !and_then_answers. by destruct (negb _). }
    apply judges_lift. intros [] _.
    eapply judges_bind; [by apply tri_get_or_alloc|eapply decides_judges, decides_alloc|]. intros r.
    eapply judges_bind; [by apply tri_delete_range_at|apply judges_delete_range_at|]. intros resp. apply judges_ret.
  - destruct (Z.leb_spec 1 depth) as [Hge|Hlt].
    { intros s I L Hw. split; [done|]. unfold step_verdict at 1. cbn. by rewrite (proj2 (Z.ltb_ge depth 1)). }
    apply judges_get. intros s1 L1.
    assert (forallb (eval_compare s1) cmp = forallb (eval_compare (set_keys m s0)) cmp) as ->
      by (by rewrite <- (linked_keys _ _ _ _ L1)).
    set (b := forallb (eval_compare (set_keys m s0)) cmp).
    assert (ops_ok (if b then suc else fl)) as Hops by (destruct Hok; by destruct b).
    apply (judges_eq _ _ (and_then (in_order (step_verdict (leases s0)
      <$> trail s0 (next_rev s0) (depth + 1) (if b then suc else fl) m)) Answers)).
    { cbn. rewrite (proj2 (Z.ltb_lt depth 1)), and_then_answers by done. by destruct b. }
    assert (forall (f : RequestOp -> list nat -> TxnAcc -> M (ResponseOp * TxnAcc)) acc,
      (if b then ops_loop f path suc O acc else ops_loop f path fl O acc) = ops_loop f path (if b then suc else fl) O acc) as ->
      by (by destruct b).
    apply (judges_bind _ _ (ops_post s0 (if b then suc else fl) path O (rev, deferred) m) (partial s0)).
    + refine (tri_ops_loop s0 _ _ _ path O (rev, deferred) m). intros o p a m' Hin.
      apply tri_txn_op; [done|done|lia|by eapply ops_ok_elem].
    + refine (judges_ops_loop _ _ _ _ _ path O (rev, deferred) m); intros o p a m' Hin.
      * apply tri_txn_op; [done|done|lia|by eapply ops_ok_elem].
      * apply Hnest; [by eapply ops_ok_elem|done].
    + intros [nested acc']. apply judges_get. intros s2 _. apply judges_ret.
  - apply judges_ret.
Qed.

Lemma judges_txn_op depth op path acc m :
  0 <= depth -> op_ok op ->
  judges (linked s0 acc.1 m) (apply_txn_op depth op path acc)
    (in_order (step_verdict (leases s0) <$> op_trail s0 (next_rev s0) depth op m)).
Proof.
  intros Hd Hok. apply judges_txn_op_step; [done|done|]. intros o p a m' Ho Hlt.
  apply judges_txn_op_step; [lia|done|]. intros. lia.
Qed.

End Run.

(** ** Transactions *)

Lemma kind_txn_locked s cmp suc fl :
  inv s -> room 1 s -> txn_ok (mkTxn cmp suc fl) -> faults (wal s) = [] ->
  kind (txn_locked (mkTxn cmp suc fl) s).2 = in_order (step_verdict (leases s) <$> txn_trail s (mkTxn cmp suc fl)).
Proof.
  intros I Hr Hok Hw. unfold txn_trail. set (ops := if forallb _ _ then suc else fl).
  assert (forall o, o ∈ ops -> op_ok o) as Hops.
  { intros o Hin. destruct Hok. subst ops. destruct (forallb _ _); eauto using ops_ok_elem. }
  assert (linked s None (keys s) s) as L0 by done.
  destruct (judges_ops_loop s (apply_txn_op 0) 0 ops
    (fun o p a m Hin => tri_txn_op s I Hr 0 o p a m ltac:(done) (Hops o Hin))
    (fun o p a m Hin => judges_txn_op s I Hr 0 o p a m ltac:(done) (Hops o Hin)) [] O (None, []) (keys s) s I L0 Hw) as [_ <-].
  unfold txn_locked, apply_txn_ops, bind, get, ret. fold ops. by destruct (ops_loop _ _ ops _ _ s) as [s' [[rs [rev deferred]]|e|w]].
Qed.

(** The validation has no panics. *)
Lemma check_txn_no_panic req : kind (check_txn_duplicate_keys req) <> Dies.
Proof.
  assert (forall A B (o : outcome A) (f : A -> outcome B),
    kind o <> Dies -> (forall a, kind (f a) <> Dies) -> kind (outcome_bind o f) <> Dies) as Hbind by (intros A B [a|e|w]; cbn; auto).
  assert (forall key, kind (check_key key) <> Dies) as Hkey by (intros key; rewrite kind_check_key; by destruct (negb _)).
  induction req as [cmp suc fl IHs IHf] using txn_induction.
  assert (forall ops, (forall t, RequestTxn t ∈ ops -> kind (check_txn_duplicate_keys t) <> Dies) -> kind (check_txn_branch ops) <> Dies) as Hops.
  { intros ops Ht. apply Hbind; [|intros ivs; unfold check_disjoint; by destruct (any_overlap ivs)].
    induction ops as [|op ops IHops]; [done|]. cbn [collect_intervals]. apply Hbind.
    - destruct op as [r|p|d|t|]; [apply Hbind; [apply Hkey|done]..| |done].
      rewrite check_op_txn. apply Hbind; [apply Ht; left|done].
    - intros iv. apply Hbind; [apply IHops; intros t Hin; apply Ht; by right|done]. }
  cbn [check_txn_duplicate_keys]. apply Hbind; [by apply Hops|]. intros _. by apply Hops.
Qed.

Lemma kind_run_deferred read hs rs :
  Forall (fun h => position rs h.1 = true) hs ->
  kind (run_deferred (fun _ => read) hs rs) = in_order ((fun r => kind (read r)) <$> hs.*2).
Proof.
  revert rs. induction hs as [|[p r] hs IH]; intros rs; [done|]. intros [Hp Hps]%Forall_cons.
  cbn [run_deferred fmap list_fmap fst snd in_order foldr] in *. destruct (read r) as [a|e|w]; [|done..].
  destruct (patch_total rs p a Hp) as (rs' & E & Hq). cbn [outcome_bind]. rewrite E. cbn [outcome_bind kind and_then]. apply IH.
  eapply Forall_impl; [exact Hps|]. intros h. apply Hq.
Qed.

Lemma kind_txn y req :
  rtc sys_step sys_init y -> cmd_ok (CmdTxn req) (sys_store y) ->
  kind (txn req (sys_store y)).2 = txn_verdict (sys_store y) req.
Proof.
  intros Hy Hc. destruct (sys_reachable y Hy) as (I & rs & D). destruct y as [s cp]. cbn [sys_store] in *.
  assert (rtc sys_step sys_init (mkSys (txn req s).1 cp)) as Hy'
    by (eapply rtc_r; [exact Hy|]; apply (ss_cmd (CmdTxn req)); done).
  apply sys_reachable in Hy' as (_ & rs' & D'). cbn [sys_store] in D'. revert D'.
  destruct req as [cmp suc fl], Hc as [Hok Hr].
  pose proof (kind_txn_locked s cmp suc fl I Hr Hok (du_faults _ _ D)) as Hk.
  pose proof (txn_locked_decides s cmp suc fl I Hr Hok (du_faults _ _ D)) as Hd.
  pose proof (tri_txn_locked s I Hr cmp suc fl Hok s I eq_refl) as Hp.
  pose proof (check_txn_no_panic (mkTxn cmp suc fl)) as Hn.
  unfold txn, txn_among, txn_verdict, bind, get, lift, ret. rewrite <- Hk. clear Hk.
  destruct (check_txn_duplicate_keys _) as [[]|e|w]; [|done..]. cbn [is_ok negb].
  destruct (txn_locked _ s) as [s' [[[[b hd] out] holes]|e|w]]; [|done..]. cbn [kind and_then fst snd] in *.
  destruct Hd as (_ & Ec & Er), Hp as (_ & _ & _ & _ & Hh). intros D'.
  transitivity (kind (run_deferred (fun _ => range s') holes out)); [by destruct (run_deferred _ _ _)|].
  rewrite (kind_run_deferred (range s')) by (apply (held_positions _ _ _ _ _ _ _ Hh []); done).
  unfold txn_trail. rewrite <- Ec, <- Er, (held_reads s _ _ _ _ _ _ Hh 0). f_equal.
  assert (durable_by s' rs') as Ds by by destruct (run_deferred _ _ _).
  apply list_fmap_ext. intros i r Hin%list_elem_of_lookup_2. rewrite (kind_range s' rs' r Ds). unfold range_verdict.
  apply list_elem_of_omap in Hin as (e & _ & Hp). unfold past_read in Hp. destruct (ex_op e) as [r'| | | |]; try done.
  destruct (0 <? rr_revision r') eqn:Hpos; [|done]. injection Hp as ->. by rewrite Hpos.
Qed.

(** ** The other operations *)

Lemma kind_put s req :
  inv s -> room 1 s -> faults (wal s) = [] -> kind (put req s).2 = put_verdict (leases s) (keys s) req.
Proof.
  intros I Hr Hw. rewrite <- kind_validate_put. destruct (validate_put s req) as [[]|e|w] eqn:Ev.
  - by destruct (put_run s req I Hr Ev Hw) as (w & _ & ->).
  - unfold put, bind, get, lift. by rewrite Ev.
  - unfold put, bind, get, lift. by rewrite Ev.
Qed.

Lemma kind_delete_range s req :
  inv s -> room 1 s -> faults (wal s) = [] -> kind (delete_range req s).2 = delete_verdict req.
Proof.
  intros I Hr Hw. unfold delete_verdict. destruct (dr_key req) as [|b k] eqn:Ek.
  { unfold delete_range, bind, lift. by rewrite Ek. }
  change (negb (nonempty (b :: k))) with false. rewrite <- Ek. assert (dr_key req <> []) as Hk by by rewrite Ek.
  destruct (inverted _) eqn:Ei; [by destruct (inverted_delete s req Hk Ei) as [w ->]|].
  by destruct (delete_range_outcome s req I Hr Hw Hk Ei) as (s' & ks & prevs & -> & _).
Qed.

Lemma kind_compact s rev : inv s -> is_i64 rev -> kind (compact rev s).2 = compact_verdict s rev.
Proof.
  intros I Hr. pose proof (inv_rev s I). pose proof (inv_compact s I). unfold compact, compact_verdict, fail, lift, is_i64 in *.
  assert (current_revision s = Z.max 0 (next_rev s - 1)) as Ec by done.
  assert (u64_wrap rev = if rev <? 0 then rev + 2 ^ 64 else rev) as ->.
  { destruct (Z.ltb_spec rev 0); [|apply u64_wrap_small; unfold is_u64; lia].
    unfold u64_wrap. rewrite <- (Z.mod_add rev 1) by lia. apply Z.mod_small. lia. }
  destruct (Z.ltb_spec rev 0), (Z.ltb_spec (compact_rev s) rev), (Z.leb_spec rev (current_revision s)); try lia;
    cbn [andb]; repeat (case_match; cbn [snd kind]; try done); lia.
Qed.

Lemma kind_lease_grant s now req :
  clock_ok now -> is_i64 (lg_ttl req) -> kind (lease_grant now req s).2 = grant_verdict s req.
Proof.
  intros Hc Ht. unfold is_i64 in Ht. unfold lease_grant, grant_verdict, bind, lift, check_lease_ttl.
  destruct (Z.ltb_spec LEASE_MAX_TTL (lg_ttl req)), (Z.leb_spec (lg_ttl req) LEASE_MAX_TTL) as [Hle|]; try lia; [done|].
  set (ttl := Z.max (lg_ttl req) LEASE_MIN_TTL). cbn [andb].
  assert (LEASE_MIN_TTL = 2 /\ LEASE_MAX_TTL = 9223372035) as [E2 Emax] by done.
  assert (instant_add now ttl = Ok (now + ttl * 1000000000)) as Ei
    by (apply (ttl_instant now 0 (mkLease 0 ttl 0 0) Hc); split; [done|]; cbn [ls_ttl]; unfold ttl; lia).
  destruct (Z.eqb_spec (lg_id req) 0) as [E0|E0]; cbn [negb].
  - unfold alloc_lease_id, get, modify, ret. cbn [leases set_next_lease_id].
    destruct (leases s !! next_lease_id s) eqn:El; [done|]. by rewrite Ei.
  - unfold get, modify, ret. destruct (leases s !! lg_id req) eqn:El; [done|]. by rewrite Ei.
Qed.

Lemma kind_lease_revoke s id :
  inv s -> room 1 s -> faults (wal s) = [] -> kind (lease_revoke id s).2 = revoke_verdict s id.
Proof.
  intros I Hr Hw. unfold lease_revoke, revoke_verdict, bind, get at 1. destruct (leases s !! id) as [l|]; [|done].
  unfold modify. set (s1 := set_notified true (set_leases (delete id (leases s)) s)).
  assert (inv s1) as I1 by (apply (inv_same s); try done; apply (inv_compact s I)).
  by destruct (delete_keys_for_lease_spec id s1 I1 Hr Hw) as (s' & -> & _).
Qed.

End Availability.
End Availability.
