(* ===== verification/WatchStream.v ===== *)
(** * The Watch service (src/server/watch.rs)

    Creating watches: requests are queued by the streams and flushed in batches;
    a flush refuses compacted, far-future and duplicate watches, replays the WAL
    up to a checkpoint without the lock, catches up under the lock, and registers
    the rest. The state each step sees is an argument, as other tasks run in
    between. Stream ids and remote addresses are only logged and are left out. *)
From stdpp Require Import pretty.
From S2P Require Import Prelude Varint KvCodec Wire Crc WalRecord Proto Range SortKvs State Store.
Local Open Scope Z_scope.

Module WatchStream.
Import KvCodec Wire Crc Wal Proto Range SortKvs State Store.

(** ** Messages *)

(** [mvccpb::Event], with both key-values as encoded blobs. *)
Record Event := mkPbEvent { pe_type : Z; pe_kv : bytes; pe_prev_kv : bytes }.

Record WatchResponse := mkWatchResponse {
  wp_header : option ResponseHeader; wp_watch_id : Z; wp_created : bool; wp_canceled : bool;
  wp_compact_revision : Z; wp_cancel_reason : string; wp_events : list Event; wp_fragment : bool }.

Record WatchCreateRequest := mkCreate {
  wc_key : bytes; wc_range_end : bytes; wc_start_revision : Z; wc_progress_notify : bool;
  wc_filters : list Z; wc_prev_kv : bool; wc_watch_id : Z }.

Definition make_header (revision : Z) : ResponseHeader := mkHeader 1 1 revision 1.

Definition resolve_start_revision (s : StoreState) (requested : Z) : Z :=
  if requested =? 0 then u64_wrap (current_revision s + 1) else requested.

Definition make_progress_response (rev : Z) : WatchResponse :=
  mkWatchResponse (Some (make_header rev)) (-1) false false 0 "" [] false.

Definition event_to_proto (event : WatchEvent) : Event :=
  mkPbEvent (event_code (ev_type event)) (ev_kv_bytes event) (ev_prev_kv_bytes event).

Fixpoint should_send_event (filters : list Z) (event_type : Z) : bool :=
  match filters with
  | [] => true
  | f :: filters =>
      if (f =? 0) && (event_type =? 0) then false
      else if (f =? 1) && (event_type =? 1) then false
      else should_send_event filters event_type
  end.

Record PendingCreate := mkPending {
  pc_key : bytes; pc_range_end : bytes; pc_start_revision : Z; pc_progress_notify : bool;
  pc_filters : list Z; pc_prev_kv : bool }.

(** [gc_event_tx] names the event channel, [gc_reply] the oneshot. *)
Record GlobalCreate := mkGlobal { gc_pending : PendingCreate; gc_event_tx : nat; gc_reply : nat; gc_watch_id : Z }.

Record WatchContext := mkCtx {
  cx_key : bytes; cx_range_end : bytes; cx_start_revision : Z; cx_watch_id : Z; cx_progress_notify : bool;
  cx_filters : list Z; cx_prev_kv : bool; cx_bound : RangeBound; cx_event_tx : nat; cx_reply : option nat }.

(** ** The stream task *)

(** [if create.watch_id != 0 { .. } else { next_watch_id() }]; the counter is the
    static [NEXT_WATCH_ID]. *)
Definition next_watch_id (counter : Z) : Z * Z := (counter, i64_wrap (counter + 1)).

Definition on_create (s : StoreState) (counter : Z) (event_tx reply : nat) (create : WatchCreateRequest)
    : GlobalCreate * Z :=
  let '(watch_id, counter) :=
    if negb (wc_watch_id create =? 0) then (wc_watch_id create, counter) else next_watch_id counter in
  let start_revision := resolve_start_revision s (u64_wrap (wc_start_revision create)) in
  (mkGlobal (mkPending (wc_key create) (wc_range_end create) start_revision (wc_progress_notify create)
               (wc_filters create) (wc_prev_kv create)) event_tx reply watch_id, counter).

(** What the event arm and the timer arm of a forwarding task send. *)
Definition event_response (watch_id : Z) (event : WatchEvent) : WatchResponse :=
  mkWatchResponse (Some (make_header (i64_wrap (ev_revision event)))) watch_id false false 0 ""
    [event_to_proto event] false.

Definition tick_response (watch_id : Z) (s : StoreState) : WatchResponse :=
  mkWatchResponse (Some (make_header (i64_wrap (current_revision s)))) watch_id false false 0 "" [] false.

Definition on_cancel (watch_id : Z) (s : StoreState) : StoreState * WatchResponse :=
  let s := (cancel_watcher watch_id s).1 in
  (s, mkWatchResponse (Some (make_header (i64_wrap (current_revision s)))) watch_id false true 0 "" [] false).

Definition on_progress (s : StoreState) : WatchResponse := make_progress_response (i64_wrap (current_revision s)).

(** ** Flushing a batch *)

Definition current_checkpoint (s : StoreState) : Z * Z :=
  (current_revision s, Z.of_nat (length (file (wal s)))).

Definition canceled (rev compact_revision : Z) (reason : string) : WatchResponse :=
  mkWatchResponse (Some (make_header (i64_wrap rev))) (-1) false true (i64_wrap compact_revision) reason [] false.

(** One round of the admission loop: refused with a response, or active. *)
Definition admission (compact_rev cur_rev : Z) (c : GlobalCreate) : (nat * WatchResponse) + WatchContext :=
  let p := gc_pending c in
  let start := pc_start_revision p in
  if (0 <? start) && (start <? compact_rev)
  then inl (gc_reply c, canceled cur_rev compact_rev "compacted")
  else
    let gap := Z.max 0 (start - cur_rev) in
    if (cur_rev <? start) && (10000 <? gap)
    then inl (gc_reply c, canceled cur_rev 0
                ("too large resource version: " +:+ pretty start +:+ ", current: " +:+ pretty cur_rev))
    else inr (mkCtx (pc_key p) (pc_range_end p) start (gc_watch_id c) (pc_progress_notify p) (pc_filters p)
                (pc_prev_kv p) (resolve_range (pc_key p) (pc_range_end p)) (gc_event_tx c) (Some (gc_reply c))).

(** The code asks for the current revision under a lock of its own for each request
    of the batch; here, as in the rejection of duplicates and the answers below, these
    sections of one flush find the same state. *)
Fixpoint admit_all (s : StoreState) (batch : list GlobalCreate) : list (nat * WatchResponse) * list WatchContext :=
  match batch with
  | [] => ([], [])
  | c :: batch =>
      let '(replies, active) := admit_all s batch in
      match admission (compact_rev s) (current_revision s) c with
      | inl r => (r :: replies, active)
      | inr ctx => (replies, ctx :: active)
      end
  end.

(** A watch id already registered, or used earlier in the batch. *)
Definition duplicate_id (ws : list WatchRegistration) (earlier : list WatchContext) (ctx : WatchContext) : bool :=
  existsb (fun w => wr_watch_id w =? cx_watch_id ctx) ws
  || existsb (fun other => cx_watch_id other =? cx_watch_id ctx) earlier.

Fixpoint rejected_from (ws : list WatchRegistration) (earlier : list WatchContext) (i : nat)
    (active : list WatchContext) : list nat :=
  match active with
  | [] => []
  | ctx :: active =>
      let rest := rejected_from ws (earlier ++ [ctx]) (S i) active in
      if duplicate_id ws earlier ctx then i :: rest else rest
  end.

(** [Vec::swap_remove]: the last element takes the place of the removed one. *)
Definition swap_remove {A} (i : nat) (l : list A) : option (A * list A) :=
  match l !! i, last l with
  | Some x, Some y => Some (x, take (length l - 1) (<[i := y]> l))
  | _, _ => None
  end.

Fixpoint reject_loop (s : StoreState) (idxs : list nat) (active : list WatchContext)
    : outcome (list (nat * WatchResponse) * list WatchContext) :=
  match idxs with
  | [] => Ok ([], active)
  | i :: idxs =>
      match swap_remove i active with
      | None => Panic "swap_remove index"
      | Some (ctx, active) =>
          let? (replies, active) := reject_loop s idxs active in
          Ok (match cx_reply ctx with
              | Some r => (r, canceled (current_revision s) 0 "duplicate watch_id") :: replies
              | None => replies
              end, active)
      end
  end.

Definition reject_duplicates (s : StoreState) (active : list WatchContext)
    : outcome (list (nat * WatchResponse) * list WatchContext) :=
  reject_loop s (reverse (rejected_from (watchers s) [] O active)) active.

(** *** Replay *)

Section Replay.
Context `{Crc32c}.

Abbreviation PrevMap := (gmap (list Byte.byte) bytes).

(** The event of a record, and the map of previous values after it. *)
Definition replay_event (prev : PrevMap) (r : KvWalRecord) (key : bytes) : WatchEvent * PrevMap :=
  let deleted := record_deleted r in
  let event_type := if deleted then EvDelete else EvPut in
  let prev_kv := default [] (prev !! key) in
  (mkEvent (record_rev r) event_type key (kv_bytes r) prev_kv,
   if deleted then delete key prev else <[key := kv_bytes r]> prev).

Definition phase1_send (ev : WatchEvent) (cs : gmap nat Channel) (ctx : WatchContext) : gmap nat Channel :=
  if (cx_start_revision ctx <=? ev_revision ev) && matches_range (cx_bound ctx) (ev_key ev)
     && should_send_event (cx_filters ctx) (event_code (ev_type ev))
  then send (cx_event_tx ctx) ev cs else cs.

(** Phase 1: the records up to the checkpoint, read without the lock. *)
Fixpoint phase1_scan (checkpoint_rev : Z) (active : list WatchContext) (rs : list KvWalRecord)
    (prev : PrevMap) (cs : gmap nat Channel) : outcome (PrevMap * gmap nat Channel) :=
  match rs with
  | [] => Ok (prev, cs)
  | r :: rs =>
      if checkpoint_rev <? record_rev r then phase1_scan checkpoint_rev active rs prev cs
      else
        let? k := rec_key r in
        match k with
        | None => phase1_scan checkpoint_rev active rs prev cs
        | Some key =>
            let '(ev, prev) := replay_event prev r key in
            phase1_scan checkpoint_rev active rs prev (foldl (phase1_send ev) cs active)
        end
  end.

Definition phase2_send (ev : WatchEvent) (cs : gmap nat Channel) (ctx : WatchContext) : gmap nat Channel :=
  if matches_range (cx_bound ctx) (ev_key ev) && should_send_event (cx_filters ctx) (event_code (ev_type ev))
  then send (cx_event_tx ctx) ev cs else cs.

(** Phase 2: the records after the checkpoint, under the write lock. *)
Fixpoint phase2_scan (checkpoint_rev : Z) (active : list WatchContext) (rs : list KvWalRecord)
    (prev : PrevMap) (cs : gmap nat Channel) : outcome (PrevMap * gmap nat Channel) :=
  match rs with
  | [] => Ok (prev, cs)
  | r :: rs =>
      if record_rev r <=? checkpoint_rev then phase2_scan checkpoint_rev active rs prev cs
      else
        let? k := rec_key r in
        match k with
        | None => phase2_scan checkpoint_rev active rs prev cs
        | Some key =>
            let '(ev, prev) := replay_event prev r key in
            phase2_scan checkpoint_rev active rs prev (foldl (phase2_send ev) cs active)
        end
  end.

Definition registration (ctx : WatchContext) : WatchRegistration :=
  mkReg (cx_key ctx) (cx_range_end ctx) (cx_start_revision ctx) (cx_event_tx ctx) (cx_watch_id ctx)
    (cx_progress_notify ctx) (cx_filters ctx) (cx_prev_kv ctx) (cx_bound ctx).

Definition register_all (active : list WatchContext) (s : StoreState) : StoreState :=
  foldl (fun s ctx => (register_watcher (registration ctx) s).1) s active.

(** A scan error is ignored; the callback has run for the records before it. *)
Definition flush_phase1 (checkpoint_rev : Z) (active : list WatchContext) (s : StoreState)
    : outcome (PrevMap * StoreState) :=
  let '(rs, _) := scan_kv (WalFile_open (file (wal s))) 0 in
  let? (prev, cs) := phase1_scan checkpoint_rev active rs ∅ (chans s) in
  Ok (prev, set_chans cs s).

Definition flush_phase2 (checkpoint_rev checkpoint_offset : Z) (active : list WatchContext) (prev : PrevMap)
    (s : StoreState) : outcome StoreState :=
  let '(rs, _) := scan_kv (wal s) checkpoint_offset in
  let? (_, cs) := phase2_scan checkpoint_rev active rs prev (chans s) in
  Ok (register_all active (set_chans cs s)).

Definition created_response (s : StoreState) (ctx : WatchContext) : option (nat * WatchResponse) :=
  (fun r => (r, mkWatchResponse (Some (make_header (i64_wrap (current_revision s)))) (cx_watch_id ctx) true false
                  0 "" [] false)) <$> cx_reply ctx.

(** [flush_global_batch_at]. [env i] is what other tasks do to the store between
    the [i]th section that looks at it and the next one. *)
Definition flush_global_batch_at (env : nat -> StoreState -> StoreState) (batch : list GlobalCreate)
    (checkpoint_rev checkpoint_offset : Z) (s : StoreState)
    : outcome (StoreState * list (nat * WatchResponse)) :=
  match batch with
  | [] => Ok (s, [])
  | _ =>
      let '(refused, active) := admit_all s batch in
      match active with
      | [] => Ok (s, refused)
      | _ =>
          let s := env 1%nat s in
          let? (duplicates, active) := reject_duplicates s active in
          match active with
          | [] => Ok (s, refused ++ duplicates)
          | _ =>
              let? (prev, s) := flush_phase1 checkpoint_rev active (env 2%nat s) in
              let? s := flush_phase2 checkpoint_rev checkpoint_offset active prev (env 3%nat s) in
              let s := env 4%nat s in
              Ok (s, refused ++ duplicates ++ omap (created_response s) active)
          end
      end
  end.

Definition flush_global_batch (env : nat -> StoreState -> StoreState) (batch : list GlobalCreate)
    (s : StoreState) : outcome (StoreState * list (nat * WatchResponse)) :=
  let '(checkpoint_rev, checkpoint_offset) := current_checkpoint s in
  flush_global_batch_at env batch checkpoint_rev checkpoint_offset (env 0%nat s).

End Replay.
End WatchStream.
