(* ===== verification/WatchProps.v ===== *)
(** * Watch creation loses and repeats nothing

    The replay of src/server/watch.rs in two phases around other tasks' writes,
    followed by live delivery, hands a new watcher exactly the part of the log it
    asked for; and duplicate watch ids never get registered. *)
From S2P Require Import Prelude Varint KvCodec Wire Crc WalRecord Proto Range SortKvs State Store.
From S2P Require Import Historical Txn Recovery Background System Replay Durability HistRead Notify.
From S2P Require Import WatchStream.
Local Open Scope Z_scope.

Module WatchProps.
Import KvCodec Wire Crc Wal Proto Range SortKvs State Store Historical Txn Recovery Background System Replay
  Durability HistRead Notify WatchStream.

(** ** Rejecting duplicate ids *)

(** The contexts whose id is new: not registered, not used earlier in the batch. *)
Fixpoint new_ids (ws : list WatchRegistration) (earlier active : list WatchContext) : list WatchContext :=
  match active with
  | [] => []
  | ctx :: active =>
      let rest := new_ids ws (earlier ++ [ctx]) active in
      if duplicate_id ws earlier ctx then rest else ctx :: rest
  end.

(** The elements of [l] outside the strictly descending positions [idxs]. *)
Fixpoint without {A} (idxs : list nat) (l : list A) : list A :=
  match idxs with [] => l | i :: idxs => without idxs (take i l) ++ drop (S i) l end.

Definition descending_below (n : nat) (idxs : list nat) : Prop :=
  StronglySorted (fun i j => j < i)%nat idxs /\ Forall (fun i => i < n)%nat idxs.

Lemma swap_remove_split {A} (l1 l2 : list A) x :
  exists l2', swap_remove (length l1) (l1 ++ x :: l2) = Some (x, l1 ++ l2') /\ l2' ≡ₚ l2.
Proof.
  unfold swap_remove. rewrite list_lookup_middle by done.
  destruct l2 as [|z l2 _] using rev_ind.
  - exists []. rewrite last_snoc. split; [|done]. do 2 f_equal.
    rewrite length_app. cbn. rewrite Nat.add_sub, insert_app_r_alt, Nat.sub_diag by lia. cbn.
    by rewrite take_app_length, app_nil_r.
  - exists (z :: l2). replace (l1 ++ x :: l2 ++ [z]) with ((l1 ++ x :: l2) ++ [z]) by by rewrite <- app_assoc.
    rewrite last_snoc. split; [|by rewrite Permutation_app_comm]. do 2 f_equal.
    rewrite length_app. cbn. rewrite Nat.add_sub, <- app_assoc, insert_app_r_alt, Nat.sub_diag by lia. cbn.
    replace (l1 ++ z :: l2 ++ [z]) with ((l1 ++ z :: l2) ++ [z]) by by rewrite <- app_assoc.
    replace (length (l1 ++ x :: l2)) with (length (l1 ++ z :: l2)) by (rewrite !length_app; done).
    apply take_app_length.
Qed.

Lemma reject_loop_without s idxs l1 l2 :
  descending_below (length l1) idxs ->
  exists replies kept, reject_loop s idxs (l1 ++ l2) = Ok (replies, kept) /\ kept ≡ₚ without idxs l1 ++ l2.
Proof.
  revert l1 l2. induction idxs as [|i idxs IH]; intros l1 l2 [Hs Hb]; cbn [reject_loop without]; [by eauto|].
  apply StronglySorted_cons in Hs as [Hi Hs]. apply Forall_cons in Hb as [Hlt _].
  destruct (lookup_lt_is_Some_2 l1 i Hlt) as [x Hx].
  replace (l1 ++ l2) with (take i l1 ++ x :: (drop (S i) l1 ++ l2))
    by (change (take i l1 ++ (x :: drop (S i) l1) ++ l2 = l1 ++ l2); by rewrite app_assoc, take_drop_middle).
  assert (length (take i l1) = i) as El by (rewrite length_take; lia).
  destruct (swap_remove_split (take i l1) (drop (S i) l1 ++ l2) x) as (l2' & E & Hp). rewrite El in E. rewrite E.
  destruct (IH (take i l1) l2') as (replies & kept & Er & Hk).
  { split; [done|]. by rewrite El. }
  rewrite Er. cbn. eexists _, kept. split; [done|]. by rewrite Hk, Hp, app_assoc.
Qed.

Lemma rejected_from_snoc ws earlier i active ctx :
  rejected_from ws earlier i (active ++ [ctx])
  = rejected_from ws earlier i active
    ++ (if duplicate_id ws (earlier ++ active) ctx then [(i + length active)%nat] else []).
Proof.
  revert earlier i. induction active as [|c active IH]; intros earlier i; cbn [app rejected_from length].
  - rewrite app_nil_r, Nat.add_0_r. by destruct (duplicate_id ws earlier ctx).
  - rewrite IH, <- app_assoc, Nat.add_succ_r. cbn [app plus]. by destruct (duplicate_id ws earlier c).
Qed.

Lemma new_ids_snoc ws earlier active ctx :
  new_ids ws earlier (active ++ [ctx])
  = new_ids ws earlier active ++ (if duplicate_id ws (earlier ++ active) ctx then [] else [ctx]).
Proof.
  revert earlier. induction active as [|c active IH]; intros earlier; cbn [app new_ids].
  - rewrite app_nil_r. by destruct (duplicate_id ws earlier ctx).
  - rewrite IH, <- app_assoc. cbn [app]. by destruct (duplicate_id ws earlier c).
Qed.

Lemma without_snoc {A} n idxs (l : list A) x :
  descending_below n idxs -> (n <= length l)%nat -> without idxs (l ++ [x]) = without idxs l ++ [x].
Proof.
  destruct idxs as [|i idxs]; intros [_ Hb] Hn; [done|]. apply Forall_cons in Hb as [Hi _]. cbn [without].
  rewrite take_app_le, drop_app_le by lia. by rewrite app_assoc.
Qed.

Lemma rejected_without ws active :
  let idxs := reverse (rejected_from ws [] O active) in
  descending_below (length active) idxs /\ without idxs active = new_ids ws [] active.
Proof.
  cbv zeta. induction active as [|ctx active [[Hs Hb] IH]] using rev_ind; [by repeat constructor|].
  rewrite rejected_from_snoc, new_ids_snoc, reverse_app. cbn [app Nat.add]. rewrite length_app. cbn [length].
  destruct (duplicate_id ws active ctx).
  - rewrite reverse_singleton. cbn [app without]. rewrite take_app_length, drop_ge by (rewrite length_app; cbn; lia).
    rewrite app_nil_r, app_nil_r. split; [|done]. split.
    + apply StronglySorted_cons. split; [done|done].
    + constructor; [lia|]. eapply Forall_impl; [apply Hb|]. cbn. lia.
  - rewrite reverse_nil. cbn [app]. split; [split; [done|]; eapply Forall_impl; [apply Hb|]; cbn; lia|].
    rewrite (without_snoc (length active)) by (done || by split). by rewrite IH.
Qed.

Lemma duplicate_id_false ws earlier ctx :
  duplicate_id ws earlier ctx = false <->
  (cx_watch_id ctx ∉ (wr_watch_id <$> ws)) /\ (cx_watch_id ctx ∉ (cx_watch_id <$> earlier)).
Proof.
  assert (forall {A} (f : A -> Z) l z, existsb (fun a => f a =? z) l = false <-> z ∉ (f <$> l)) as Hex.
  { intros A f l z. induction l as [|a l IH]; cbn; [by split; [intros _; apply not_elem_of_nil|]|].
    rewrite orb_false_iff, IH, not_elem_of_cons, Z.eqb_neq. naive_solver. }
  unfold duplicate_id. by rewrite orb_false_iff, !Hex.
Qed.

Lemma new_ids_fresh ws earlier active ctx :
  ctx ∈ new_ids ws earlier active ->
  ctx ∈ active /\ (cx_watch_id ctx ∉ (wr_watch_id <$> ws)) /\ (cx_watch_id ctx ∉ (cx_watch_id <$> earlier)).
Proof.
  revert earlier. induction active as [|c active IH]; intros earlier; cbn [new_ids]; [by intros ?%not_elem_of_nil|].
  assert (ctx ∈ new_ids ws (earlier ++ [c]) active -> ctx ∈ c :: active /\ (cx_watch_id ctx ∉ (wr_watch_id <$> ws))
    /\ (cx_watch_id ctx ∉ (cx_watch_id <$> earlier))) as Hrest.
  { intros (Ha & Hw & He)%IH. split; [by right|]. split; [done|]. rewrite fmap_app in He. set_solver. }
  destruct (duplicate_id ws earlier c) eqn:E; [done|].
  intros [->|Hin]%elem_of_cons; [|auto]. apply duplicate_id_false in E as []. split; [left|done].
Qed.

Lemma new_ids_NoDup ws earlier active : NoDup (cx_watch_id <$> new_ids ws earlier active).
Proof.
  revert earlier. induction active as [|c active IH]; intros earlier; cbn [new_ids]; [constructor|].
  destruct (duplicate_id ws earlier c); [done|]. cbn. constructor; [|done].
  intros (ctx & E & (_ & _ & Hf)%new_ids_fresh)%list_elem_of_fmap. apply Hf. rewrite <- E, fmap_app. set_solver.
Qed.

(** ** What the replay sends *)

Lemma should_send_filters filters t :
  should_send_event filters (event_code t) = negb (existsb (fun f => filter_hits f t) filters).
Proof.
  induction filters as [|f filters IH]; [done|]. cbn [should_send_event existsb]. rewrite IH.
  destruct t; cbn; destruct (Z.eqb_spec f 0), (Z.eqb_spec f 1); cbn; (done || lia).
Qed.

Definition ctx_wants (ctx : WatchContext) (ev : WatchEvent) : bool := wants (registration ctx) (event_sig ev).
Definition ctx_selects (ctx : WatchContext) (ev : WatchEvent) : bool := selects (registration ctx) (event_sig ev).

(** Delivery with an arbitrary condition; both phases are instances. *)
Definition deliver (want : WatchContext -> WatchEvent -> bool) (ev : WatchEvent) (cs : gmap nat Channel)
    (ctx : WatchContext) : gmap nat Channel := if want ctx ev then send (cx_event_tx ctx) ev cs else cs.

Definition delivers (want : WatchContext -> WatchEvent -> bool) (active : list WatchContext)
    (cs : gmap nat Channel) (evs : list WatchEvent) : gmap nat Channel :=
  foldl (fun cs ev => foldl (deliver want ev) cs active) cs evs.

Lemma send_ne c c' ev cs : c <> c' -> send c ev cs !! c' = cs !! c'.
Proof.
  intros Hne. unfold send. destruct (cs !! c) as [ch|]; [|done].
  destruct (ch_open ch); [by rewrite lookup_insert_ne|done].
Qed.

Lemma deliver_other want ev cs active c :
  c ∉ (cx_event_tx <$> active) -> foldl (deliver want ev) cs active !! c = cs !! c.
Proof.
  revert cs. induction active as [|ctx active IH]; intros cs; cbn; [done|].
  intros [Hne Hc]%not_elem_of_cons. rewrite IH by done. unfold deliver.
  destruct (want ctx ev); [|done]. by apply send_ne.
Qed.

Lemma deliver_one want ev cs active ctx ch :
  NoDup (cx_event_tx <$> active) -> ctx ∈ active -> cs !! cx_event_tx ctx = Some ch -> ch_open ch = true ->
  foldl (deliver want ev) cs active !! cx_event_tx ctx
  = Some (if want ctx ev then mkChan (ch_sent ch ++ [ev]) true else ch).
Proof.
  revert cs. induction active as [|c active IH]; intros cs; cbn; [by intros _ ?%not_elem_of_nil|].
  intros [Hn Hnd]%NoDup_cons Hin Hc Ho. apply elem_of_cons in Hin as [->|Hin].
  - rewrite deliver_other by done. unfold deliver. destruct (want c ev); [|done].
    unfold send. rewrite Hc, Ho. by rewrite lookup_insert_eq.
  - apply IH; try done. unfold deliver. destruct (want c ev); [|done]. rewrite send_ne; [done|].
    intros E. apply Hn. rewrite E. apply list_elem_of_fmap. eauto.
Qed.

Lemma delivers_other want active cs evs c :
  c ∉ (cx_event_tx <$> active) -> delivers want active cs evs !! c = cs !! c.
Proof.
  intros Hc. revert cs. induction evs as [|ev evs IH]; intros cs; [done|].
  unfold delivers. cbn [foldl]. fold (delivers want active (foldl (deliver want ev) cs active) evs).
  by rewrite IH, deliver_other.
Qed.

Lemma delivers_lookup want active cs evs ctx ch :
  NoDup (cx_event_tx <$> active) -> ctx ∈ active -> cs !! cx_event_tx ctx = Some ch -> ch_open ch = true ->
  delivers want active cs evs !! cx_event_tx ctx
  = Some (mkChan (ch_sent ch ++ base.filter (fun ev => want ctx ev = true) evs) true).
Proof.
  intros Hnd Hin. revert cs ch. induction evs as [|ev evs IH]; intros cs ch Hc Ho.
  - cbn. rewrite Hc. destruct ch; cbn in *. subst. by rewrite app_nil_r.
  - unfold delivers. cbn [foldl]. fold (delivers want active (foldl (deliver want ev) cs active) evs).
    pose proof (deliver_one want ev cs active ctx ch Hnd Hin Hc Ho) as E. rewrite filter_cons.
    destruct (want ctx ev).
    + rewrite decide_True by done. rewrite (IH _ _ E eq_refl). cbn. by rewrite <- app_assoc.
    + rewrite decide_False by done. by rewrite (IH _ _ E Ho).
Qed.

Section Replay.
Context `{Crc32c} `{KvDecoder} `{UnstableSort}.

(** The events of a log, each with the value the key had before it. *)
Fixpoint log_events (prev : gmap (list Byte.byte) bytes) (rs : list KvWalRecord) : list WatchEvent :=
  match rs with
  | [] => []
  | r :: rs => (replay_event prev r (r_key r)).1 :: log_events (replay_event prev r (r_key r)).2 rs
  end.

Definition log_prev (prev : gmap (list Byte.byte) bytes) (rs : list KvWalRecord) : gmap (list Byte.byte) bytes :=
  foldl (fun prev r => (replay_event prev r (r_key r)).2) prev rs.

Lemma log_events_app prev rs1 rs2 :
  log_events prev (rs1 ++ rs2) = log_events prev rs1 ++ log_events (log_prev prev rs1) rs2.
Proof. revert prev. induction rs1 as [|r rs1 IH]; intros prev; [done|]. cbn. by rewrite IH. Qed.

Lemma log_events_sig prev rs : event_sig <$> log_events prev rs = record_sig <$> rs.
Proof. revert prev. induction rs as [|r rs IH]; intros prev; [done|]. cbn. by rewrite IH. Qed.

Lemma log_events_rev prev rs (P : Z -> Prop) :
  Forall (fun r => P (record_rev r)) rs -> Forall (fun ev => P (ev_revision ev)) (log_events prev rs).
Proof. intros Hf. revert prev. induction Hf as [|r rs Hr Hf IH]; intros prev; constructor; [done|apply IH]. Qed.

Lemma phase1_scan_skip ck active rs prev cs :
  Forall (fun r => ck < record_rev r) rs -> phase1_scan ck active rs prev cs = Ok (prev, cs).
Proof.
  induction 1 as [|r rs Hr _ IH]; [done|]. cbn [phase1_scan]. by rewrite (proj2 (Z.ltb_lt _ _)).
Qed.

Lemma phase1_scan_log ck active rs rs' prev cs :
  Forall store_record rs -> Forall (fun r => record_rev r <= ck) rs -> Forall (fun r => ck < record_rev r) rs' ->
  phase1_scan ck active (rs ++ rs') prev cs
  = Ok (log_prev prev rs, delivers ctx_wants active cs (log_events prev rs)).
Proof.
  intros R Hle Hgt. revert prev cs. induction R as [|r rs Hr R IH]; intros prev cs; [by apply phase1_scan_skip|].
  apply Forall_cons in Hle as [Hle Hles]. cbn [app phase1_scan].
  rewrite (proj2 (Z.ltb_ge _ _)) by lia. rewrite store_record_key by done. cbn [outcome_bind].
  destruct (replay_event prev r (r_key r)) as [ev prev'] eqn:E.
  assert (foldl (phase1_send ev) cs active = foldl (deliver ctx_wants ev) cs active) as ->.
  { apply foldl_ext_elem. intros cs' ctx _. unfold phase1_send, deliver, ctx_wants, wants, event_sig.
    cbn [wr_bound wr_start_revision wr_filters registration]. rewrite should_send_filters.
    by rewrite (andb_comm (cx_start_revision ctx <=? _)). }
  rewrite IH by done. cbn [log_prev foldl log_events]. by rewrite E.
Qed.

(** The catch-up does not look at the start revision. *)
Lemma phase2_scan_log ck active rs prev cs :
  Forall store_record rs -> Forall (fun r => ck < record_rev r) rs ->
  phase2_scan ck active rs prev cs
  = Ok (log_prev prev rs, delivers ctx_selects active cs (log_events prev rs)).
Proof.
  intros R Hgt. revert prev cs. induction R as [|r rs Hr R IH]; intros prev cs; [done|].
  apply Forall_cons in Hgt as [Hgt Hgts]. cbn [phase2_scan].
  rewrite (proj2 (Z.leb_gt _ _)) by lia. rewrite store_record_key by done. cbn [outcome_bind].
  destruct (replay_event prev r (r_key r)) as [ev prev'] eqn:E.
  assert (foldl (phase2_send ev) cs active = foldl (deliver ctx_selects ev) cs active) as ->.
  { apply foldl_ext_elem. intros cs' ctx _. unfold phase2_send, deliver, ctx_selects, selects, event_sig.
    cbn [wr_bound wr_filters registration]. by rewrite should_send_filters. }
  rewrite IH by done. cbn [log_prev foldl log_events]. by rewrite E.
Qed.

(** Once the start revision has been reached, it makes no difference. *)
Lemma filter_selects (ctx : WatchContext) (evs : list WatchEvent) :
  Forall (fun ev => cx_start_revision ctx <= ev_revision ev) evs ->
  base.filter (fun ev => ctx_selects ctx ev = true) evs = base.filter (fun ev => ctx_wants ctx ev = true) evs.
Proof.
  induction 1 as [|ev evs Hr _ IH]; [done|]. rewrite !filter_cons, IH.
  unfold ctx_selects, ctx_wants. rewrite selects_wants; [done|exact Hr].
Qed.

Lemma scan_log_from w rs1 rs2 :
  Forall rec_wf rs2 -> file w = log_bytes (rs1 ++ rs2) ->
  (scan_kv w (Z.of_nat (length (log_bytes rs1)))).1 = rs2.
Proof.
  intros R Hf. unfold scan_kv, scan_kv_file. rewrite Hf, log_bytes_app, Nat2Z.id, drop_app_length.
  rewrite <- (app_nil_r (log_bytes rs2)), scan_loop_log by (done || (rewrite !app_nil_r; lia)).
  rewrite scan_loop_nil. apply app_nil_r.
Qed.

Lemma notify_events_other ws cs evs c : (c ∉ (wr_sender <$> ws)) -> notify_events ws cs evs !! c = cs !! c.
Proof.
  intros Hc. revert cs. induction evs as [|ev evs IH]; intros cs; [done|].
  unfold notify_events. cbn [foldl]. fold (notify_events ws (foldl (notify_one ev) cs ws) evs).
  by rewrite IH, notify_all_other.
Qed.

(** What other tasks' commands do to a durable state, and what they leave alone. *)
Lemma run_frame cs s rs :
  inv s -> durable_by s rs -> cmds_ok cs s -> Forall (fun c => quiet c = true) cs ->
  let s' := run cs s in
  inv s' /\ watchers s' = watchers s /\ next_rev s <= next_rev s'
  /\ (forall c, (c ∉ (wr_sender <$> watchers s)) -> chans s' !! c = chans s !! c)
  /\ exists rs', durable_by s' (rs ++ rs') /\ Forall (fun r => next_rev s <= record_rev r) rs'.
Proof.
  intros I D Hc Hq s'. pose proof (run_quiet cs s I Hc Hq) as Ht. pose proof (durable_no_faults _ _ D) as Hno.
  destruct (rtc_trans_feeds _ _ _ Ht I Hno) as (_ & evs & _ & _ & _ & Ew & Ec).
  destruct (rtc_trans_logs _ _ _ _ Ht I Hno) as (rs' & L & Hfl).
  split; [by eapply rtc_trans_inv|]. split; [done|]. split; [by eapply rtc_trans_rev_le|].
  split; [intros c Hcc; unfold s'; rewrite Ec; by apply notify_events_other|].
  exists rs'. split; [by eapply durable_run|done].
Qed.

Lemma durable_set_chans cs s rs : durable_by s rs -> durable_by (set_chans cs s) rs.
Proof. intros []. by split. Qed.

Lemma register_all_fields active s :
  watchers (register_all active s) = watchers s ++ (registration <$> active)
  /\ keys (register_all active s) = keys s /\ wal (register_all active s) = wal s
  /\ chans (register_all active s) = chans s /\ next_rev (register_all active s) = next_rev s
  /\ key_count (register_all active s) = key_count s /\ compact_rev (register_all active s) = compact_rev s.
Proof.
  revert s. induction active as [|ctx active IH]; intros s; [cbn; by rewrite app_nil_r|].
  change (register_all (ctx :: active) s) with (register_all active (set_watchers (watchers s ++ [registration ctx]) s)).
  destruct (IH (set_watchers (watchers s ++ [registration ctx]) s)) as (-> & -> & -> & -> & -> & -> & ->).
  cbn. by rewrite <- app_assoc.
Qed.

Lemma checkpoint_rev s : inv s -> (current_checkpoint s).1 = next_rev s - 1.
Proof. intros I. pose proof (inv_rev s I). cbn. unfold current_revision. lia. Qed.

(** The log of [s], cut where the checkpoint [ck] was taken. *)
Record log_cut (s : StoreState) (ck : Z * Z) (rs1 rs2 : list KvWalRecord) : Prop := {
  lc_durable : durable_by s (rs1 ++ rs2);
  lc_offset : ck.2 = Z.of_nat (length (log_bytes rs1));
  lc_before : Forall (fun r => record_rev r <= ck.1) rs1;
  lc_after : Forall (fun r => ck.1 < record_rev r) rs2 }.

Lemma log_cut_now s rs : inv s -> durable_by s rs -> log_cut s (current_checkpoint s) rs [].
Proof.
  intros I D. split; [by rewrite app_nil_r|cbn; by rewrite (du_file _ _ D)| |done].
  eapply Forall_impl; [apply (du_revs _ _ D)|]. rewrite checkpoint_rev by done. cbn. lia.
Qed.

Lemma log_cut_run s s' ck rs1 rs2 rs :
  log_cut s ck rs1 rs2 -> durable_by s' ((rs1 ++ rs2) ++ rs) -> Forall (fun r => next_rev s <= record_rev r) rs ->
  ck.1 < next_rev s -> log_cut s' ck rs1 (rs2 ++ rs).
Proof.
  intros [_ Ho Hb Ha] D Hr Hck. split; [by rewrite app_assoc|done|done|].
  apply Forall_app. split; [done|]. eapply Forall_impl; [apply Hr|]. cbn. lia.
Qed.

(** Phase 1 replays the log up to the checkpoint. *)
Lemma flush_phase1_log s ck rs1 rs2 active :
  log_cut s ck rs1 rs2 ->
  flush_phase1 ck.1 active s
  = Ok (log_prev ∅ rs1, set_chans (delivers ctx_wants active (chans s) (log_events ∅ rs1)) s).
Proof.
  intros [D _ Hb Ha]. unfold flush_phase1, scan_kv. cbn [file WalFile_open]. rewrite (du_file _ _ D), scan_log.
  2: { eapply Forall_impl; [apply (du_records _ _ D)|apply store_record_wf]. }
  pose proof (du_records _ _ D) as [R1 _]%Forall_app. by rewrite phase1_scan_log.
Qed.

(** Phase 2 replays what was logged since. *)
Lemma flush_phase2_log s ck rs1 rs2 active prev :
  log_cut s ck rs1 rs2 ->
  flush_phase2 ck.1 ck.2 active prev s
  = Ok (register_all active (set_chans (delivers ctx_selects active (chans s) (log_events prev rs2)) s)).
Proof.
  intros [D Ho Hb Ha]. unfold flush_phase2. rewrite Ho.
  assert (Forall store_record rs2) as R2 by (eapply Forall_app, (du_records _ _ D)).
  pose proof (scan_log_from (wal s) rs1 rs2 ltac:(eapply Forall_impl; [apply R2|apply store_record_wf]) (du_file _ _ D)) as Esc.
  destruct (scan_kv (wal s) _) as [rs e]. cbn in Esc. subst rs. by rewrite phase2_scan_log.
Qed.

(** ** Properties *)

(** Watch ids stay unique. The removal loop (which reorders the batch) never
    goes out of range, and keeps exactly the watches whose id is neither registered
    nor used earlier in the batch; so registering them keeps ids unique. *)
Theorem duplicate_ids_rejected s active :
  exists replies kept, reject_duplicates s active = Ok (replies, kept)
    /\ kept ≡ₚ new_ids (watchers s) [] active
    /\ (NoDup (wr_watch_id <$> watchers s) ->
        NoDup (wr_watch_id <$> watchers (register_all kept s))).
Proof.
  destruct (rejected_without (watchers s) active) as [Hd Ew].
  destruct (reject_loop_without s (reverse (rejected_from (watchers s) [] O active)) active [] Hd)
    as (replies & kept & Er & Hk).
  rewrite !app_nil_r in *. rewrite Ew in Hk. exists replies, kept. split; [done|]. split; [done|]. intros Hnd.
  destruct (register_all_fields kept s) as (-> & _). rewrite fmap_app, <- list_fmap_compose.
  apply NoDup_app. split; [done|]. split.
  - intros id Hid (ctx & -> & Hin)%list_elem_of_fmap. rewrite Hk in Hin.
    by apply new_ids_fresh in Hin as (_ & Hf & _).
  - change (NoDup (cx_watch_id <$> kept)). rewrite Hk. apply new_ids_NoDup.
Qed.

(** A new watch sees its whole history, once. A flush takes its checkpoint in
    [s0]; other tasks write ([cs1]), phase 1 replays, others write again ([cs2]),
    phase 2 catches up and registers, and then writes go on ([cs3]). Both phases
    succeed, and the new watcher's channel then holds exactly the events of the
    whole log it wants, in log order, none missing and none twice; the replayed
    ones carry the value the key had before. *)
Theorem watch_end_to_end s0 rs0 cs1 cs2 cs3 active ctx :
  let ck := current_checkpoint s0 in
  inv s0 -> durable_by s0 rs0 ->
  NoDup ((wr_sender <$> watchers s0) ++ (cx_event_tx <$> active)) ->
  Forall (fun ctx => cx_start_revision ctx <= ck.1 + 1) active ->
  ctx ∈ active -> chans s0 !! cx_event_tx ctx = Some (mkChan [] true) ->
  Forall (fun c => quiet c = true) (cs1 ++ cs2 ++ cs3) -> cmds_ok cs1 s0 ->
  exists prev s1, flush_phase1 ck.1 active (run cs1 s0) = Ok (prev, s1) /\ (cmds_ok cs2 s1 ->
  exists s3, flush_phase2 ck.1 ck.2 active prev (run cs2 s1) = Ok s3 /\ (cmds_ok cs3 s3 ->
  exists past recent live,
    file (wal (run cs2 s1)) = log_bytes past /\ file (wal (run cs3 s3)) = log_bytes (past ++ recent)
    /\ chans (run cs3 s3) !! cx_event_tx ctx
       = Some (mkChan (base.filter (fun ev => ctx_wants ctx ev = true) (log_events ∅ past) ++ live) true)
    /\ event_sig <$> live = base.filter (fun sg => wants (registration ctx) sg = true) (record_sig <$> recent))).
Proof.
  intros ck I0 D0 Hnd Hst Hin Hch [Hq1 [Hq2 Hq3]%Forall_app]%Forall_app Hc1.
  apply NoDup_app in Hnd as (Hnw & Hdis & Hna).
  assert (cx_event_tx ctx ∉ (wr_sender <$> watchers s0)) as Hfree.
  { intros Hi. apply (Hdis _ Hi), list_elem_of_fmap. eauto. }
  pose proof (log_cut_now s0 rs0 I0 D0) as C0. fold ck in C0. pose proof (checkpoint_rev s0 I0) as Hck. fold ck in Hck.
  destruct (run_frame cs1 s0 rs0 I0 D0 Hc1 Hq1) as (I1 & Ew1 & Hr1 & Ec1 & rs1 & D1 & Hfl1).
  assert (log_cut (run cs1 s0) ck rs0 rs1) as C1
    by (apply (log_cut_run s0 _ ck rs0 [] rs1); [done|by rewrite app_nil_r|done|lia]).
  eexists _, _. split; [by eapply flush_phase1_log|].
  set (s1 := set_chans _ _). intros Hc2.
  assert (inv s1) as I1' by by apply inv_set_chans.
  assert (durable_by s1 (rs0 ++ rs1)) as D1' by by apply durable_set_chans.
  destruct (run_frame cs2 s1 _ I1' D1' Hc2 Hq2) as (I2 & Ew2 & Hr2 & Ec2 & rs2 & D2 & Hfl2).
  assert (next_rev s1 = next_rev (run cs1 s0)) as En1 by done.
  assert (log_cut (run cs2 s1) ck rs0 (rs1 ++ rs2)) as C2.
  { apply (log_cut_run s1); [|done|done|lia]. destruct C1. by split. }
  rewrite <- app_assoc in D2.
  eexists. split; [by apply (flush_phase2_log _ ck rs0 (rs1 ++ rs2))|].
  set (s3 := register_all _ _). intros Hc3.
  destruct (register_all_fields active
    (set_chans (delivers ctx_selects active (chans (run cs2 s1)) (log_events (log_prev ∅ rs0) (rs1 ++ rs2))) (run cs2 s1)))
    as (Ews & Eks & Ewal & Ecs & Enr & Ekc & Ecr).
  fold s3 in Ews, Eks, Ewal, Ecs, Enr, Ekc, Ecr. cbn in Ews, Eks, Ewal, Ecs, Enr, Ekc, Ecr.
  assert (inv s3) as I3 by (apply (inv_same (run cs2 s1)); try done; rewrite Ecr; exact (inv_compact _ I2)).
  pose proof (durable_no_faults _ _ D2) as Hno2.
  assert (chans s3 !! cx_event_tx ctx = Some (mkChan
    (base.filter (fun ev => ctx_wants ctx ev = true) (log_events ∅ (rs0 ++ rs1 ++ rs2))) true)) as Ech3.
  { rewrite Ecs, (log_events_app ∅ rs0), filter_app, <- (filter_selects ctx (log_events (log_prev ∅ rs0) _)).
    2: { eapply (log_events_rev _ _ (fun rev => cx_start_revision ctx <= rev)), Forall_impl; [apply (lc_after _ _ _ _ C2)|].
         eapply Forall_forall in Hst; [|exact Hin]. cbn in *. lia. }
    refine (delivers_lookup ctx_selects active _ _ ctx (mkChan _ true) Hna Hin _ eq_refl).
    rewrite Ec2 by (cbn; by rewrite Ew1).
    refine (delivers_lookup ctx_wants active _ _ ctx (mkChan [] true) Hna Hin _ eq_refl). by rewrite Ec1. }
  assert (faults (wal s3) = []) as Hno3 by by rewrite Ewal.
  edestruct (watched_run cs3 s3 (registration ctx)) as (rs3 & evs & Ef3 & Ec3 & Es3);
    [exact I3|exact Hno3|exact Hc3|exact Hq3| | |exact Ech3|done|].
  - rewrite Ews, Ew2. cbn. rewrite Ew1. unfold own_channels. rewrite fmap_app, <- list_fmap_compose.
    by apply NoDup_app.
  - rewrite Ews. apply elem_of_app. right. apply list_elem_of_fmap. eauto.
  - exists (rs0 ++ rs1 ++ rs2), rs3, evs. split; [apply D2|].
    split; [by rewrite Ef3, Ewal, (du_file _ _ D2), <- log_bytes_app|]. done.
Qed.

End Replay.

#[local] Existing Instance bitwise_crc.
#[local] Existing Instance ref_decoder.
#[local] Existing Instance merge_sort_impl.

(** A watch on all keys from revision 2 on, over the demo run, with one write
    before phase 1, one before phase 2 and one after registration. *)
Definition demo_ctx : WatchContext :=
  mkCtx (lit "a") (lit "z") 2 7 false [] false (resolve_range (lit "a") (lit "z")) O (Some 1%nat).
Definition demo_start : StoreState := set_chans {[ O := mkChan [] true ]} (run demo fresh).

Lemma demo_start_ok : inv demo_start /\ exists rs, durable_by demo_start rs.
Proof.
  destruct (run_logs demo demo_ok) as (I & rs & L). split; [exact (inv_set_chans _ _ I)|].
  exists rs. exact (durable_set_chans _ _ _ (run_durable demo rs L)).
Qed.

Lemma watch_end_to_end_witness :
  exists rs0 : list KvWalRecord,
  exists prev s1, flush_phase1 4 [demo_ctx] (run [CmdPut (put_req "c" "5")] demo_start) = Ok (prev, s1).
Proof.
  destruct demo_start_ok as [I [rs D]]. exists rs.
  destruct (watch_end_to_end demo_start rs [CmdPut (put_req "c" "5")] [CmdPut (put_req "d" "6")]
    [CmdDeleteRange (del_req "a")] [demo_ctx] demo_ctx) as (prev & s1 & E & _).
  - exact I.
  - exact D.
  - apply (bool_decide_unpack _). by vm_compute.
  - repeat constructor. by vm_compute.
  - left.
  - by vm_compute.
  - by repeat constructor.
  - repeat split; by vm_compute.
  - exists prev, s1. exact E.
Defined.

(** A start revision ahead of the store (by at most 10000) is accepted, but the
    catch-up under the lock does not look at it: a watch from revision 9 gets the
    write at revision 1 that arrived while it was being created. *)
Example phase2_ignores_start_revision :
  let ctx := mkCtx (lit "a") [] 9 7 false [] false (Point (lit "a")) O None in
  let s0 := set_chans {[ O := mkChan [] true ]} fresh in
  match flush_phase2 (current_checkpoint s0).1 (current_checkpoint s0).2 [ctx] ∅ (run [CmdPut (put_req "a" "1")] s0) with
  | Ok s => (fun ch => ev_revision <$> ch_sent ch) <$> chans s !! O = Some [1]
  | _ => False
  end.
Proof. by vm_compute. Qed.

(** Replayed events carry the previous value whether or not it was asked for. *)
Example replay_ignores_prev_kv :
  match flush_phase1 4 [demo_ctx] demo_start with
  | Ok (_, s) => (fun ch => (fun ev => negb (bytes_eqb (ev_prev_kv_bytes ev) [])) <$> ch_sent ch) <$> chans s !! O
                 = Some [false; true; true] /\ cx_prev_kv demo_ctx = false
  | _ => False
  end.
Proof. by vm_compute. Qed.

(** A WAL compaction between the checkpoint and the catch-up shortens the file:
    the saved offset then points past the records written since, which are lost. *)
Example compaction_during_flush_loses_events :
  let s := run [CmdPut (put_req "a" "5")] (compact_wal [] demo_start).1 in
  match flush_phase2 (current_checkpoint demo_start).1 (current_checkpoint demo_start).2 [demo_ctx] ∅ s with
  | Ok s => ch_sent <$> chans s !! O = Some []
  | _ => False
  end /\ current_revision s = 5.
Proof. by vm_compute. Qed.

End WatchProps.
