(* ===== verification/WatchService.v ===== *)
(** * The tasks of the Watch service (src/server/watch.rs)

    The service is a set of tasks around the store: one task per client stream,
    one forwarding task per watch, and the loop that collects creates and flushes
    them in batches. A state holds what each task is doing and what the channels
    between them contain; [next] performs one step of one task, or one step of the
    clients and the other users of the store around them. A task can be preempted
    wherever it awaits or releases the store lock. *)
From S2P Require Import Prelude Varint KvCodec Wire Crc WalRecord Proto Range SortKvs State Store.
From S2P Require Import Historical Txn Recovery Background System Replay Durability WatchStream.
Local Open Scope Z_scope.

Module WatchService.
Import KvCodec Wire Crc Wal Proto Range SortKvs State Store Historical Txn Recovery Background System Replay
  Durability WatchStream.

(** ** State *)

(** [request_union]; [NoRequest] is the message without one. *)
Inductive WatchRequest :=
| CreateRequest (create : WatchCreateRequest)
| CancelRequest (watch_id : Z)
| ProgressRequest
| NoRequest.

(** The local variables the forwarding task takes over, if the response being
    sent belongs to a create. The number names both the event channel and the
    oneshot of the create. *)
Record Created := mkCreated { cr_chan : nat; cr_watch_id : Z; cr_progress : bool }.

(** Where a stream task is: at [in_stream.message()], at [reply_rx.await], at
    [tx.send(..).await], or returned. *)
Inductive StreamPhase :=
| Reading
| Awaiting (c : Created)
| Sending (resp : WatchResponse) (spawn : option Created)
| Returned.

(** [st_out] is everything sent on [tx], of which the client has taken [st_taken];
    each response is listed with the create it answers or comes from. *)
Record Stream := mkStream {
  st_in : list WatchRequest; st_in_closed : bool; st_phase : StreamPhase;
  st_out : list (option nat * WatchResponse); st_taken : nat; st_rx_open : bool }.

(** A forwarding task: how much of its channel it has received, and the response
    it is waiting to send. *)
Record Forwarder := mkFw {
  fw_stream : nat; fw_create : Created; fw_received : nat; fw_sending : option WatchResponse; fw_done : bool }.

Abbreviation PrevMap := (gmap (list Byte.byte) bytes).

(** [global_watch_loop]: waiting for the first request, collecting a batch (and
    whether the 50 ms are over), or between two sections of the flush. [Panicked]
    is a task that panicked; its queue and oneshots are dropped. *)
Inductive LoopPhase :=
| Idle
| Collecting (batch : list GlobalCreate) (notified : bool)
| Checkpointed (checkpoint : Z * Z) (batch : list GlobalCreate)
| Screened (checkpoint : Z * Z) (active : list WatchContext)
| Checked (checkpoint : Z * Z) (active : list WatchContext)
| Replayed (checkpoint : Z * Z) (active : list WatchContext) (prev : PrevMap)
| Registered (active : list WatchContext)
| Panicked.

Record Svc := mkSvc {
  sv_sys : Sys;
  sv_next_watch_id : Z;
  sv_fresh : nat;
  sv_streams : list Stream;
  sv_forwarders : list Forwarder;
  sv_queue : list GlobalCreate;
  sv_loop : LoopPhase;
  sv_replies : gmap nat WatchResponse }.

Definition svc_init : Svc := mkSvc sys_init 1 O [] [] [] Idle ∅.

Definition store (v : Svc) : StoreState := sys_store (sv_sys v).

Definition set_store (s : StoreState) (v : Svc) : Svc :=
  mkSvc (mkSys s (sys_compaction (sv_sys v))) (sv_next_watch_id v) (sv_fresh v) (sv_streams v) (sv_forwarders v)
    (sv_queue v) (sv_loop v) (sv_replies v).
Definition set_sys (y : Sys) (v : Svc) : Svc :=
  mkSvc y (sv_next_watch_id v) (sv_fresh v) (sv_streams v) (sv_forwarders v) (sv_queue v) (sv_loop v) (sv_replies v).
Definition set_streams (l : list Stream) (v : Svc) : Svc :=
  mkSvc (sv_sys v) (sv_next_watch_id v) (sv_fresh v) l (sv_forwarders v) (sv_queue v) (sv_loop v) (sv_replies v).
Definition set_forwarders (l : list Forwarder) (v : Svc) : Svc :=
  mkSvc (sv_sys v) (sv_next_watch_id v) (sv_fresh v) (sv_streams v) l (sv_queue v) (sv_loop v) (sv_replies v).
Definition set_queue (q : list GlobalCreate) (v : Svc) : Svc :=
  mkSvc (sv_sys v) (sv_next_watch_id v) (sv_fresh v) (sv_streams v) (sv_forwarders v) q (sv_loop v) (sv_replies v).
Definition set_loop (l : LoopPhase) (v : Svc) : Svc :=
  mkSvc (sv_sys v) (sv_next_watch_id v) (sv_fresh v) (sv_streams v) (sv_forwarders v) (sv_queue v) l (sv_replies v).
Definition set_replies (m : gmap nat WatchResponse) (v : Svc) : Svc :=
  mkSvc (sv_sys v) (sv_next_watch_id v) (sv_fresh v) (sv_streams v) (sv_forwarders v) (sv_queue v) (sv_loop v) m.
Definition set_counters (watch_id : Z) (fresh : nat) (v : Svc) : Svc :=
  mkSvc (sv_sys v) watch_id fresh (sv_streams v) (sv_forwarders v) (sv_queue v) (sv_loop v) (sv_replies v).

Definition set_stream (i : nat) (st : Stream) (v : Svc) : Svc := set_streams (<[i := st]> (sv_streams v)) v.
Definition set_forwarder (j : nat) (f : Forwarder) (v : Svc) : Svc := set_forwarders (<[j := f]> (sv_forwarders v)) v.

Definition with_phase (p : StreamPhase) (st : Stream) : Stream :=
  mkStream (st_in st) (st_in_closed st) p (st_out st) (st_taken st) (st_rx_open st).

(** A receiver is dropped: later sends fail. *)
Definition close_chan (c : nat) (s : StoreState) : StoreState :=
  set_chans (alter (fun ch => mkChan (ch_sent ch) false) c (chans s)) s.

(** ** The stream task *)

(** [mpsc::channel(4096)]: [tx.send(..).await] waits while the buffer is full. *)
Definition tx_room (st : Stream) : bool := (length (st_out st) - st_taken st <? 4096)%nat.

(** One message. *)
Definition read_message (i : nat) (st : Stream) (m : WatchRequest) (v : Svc) : Svc :=
  match m with
  | NoRequest => set_stream i st v
  | CreateRequest create =>
      let n := sv_fresh v in
      let '(c, counter) := on_create (store v) (sv_next_watch_id v) n n create in
      let v := set_counters counter (S n) v in
      match sv_loop v with
      | Panicked => set_stream i (with_phase Returned st) v
      | _ =>
          let v := set_store (set_chans (<[n := mkChan [] true]> (chans (store v))) (store v)) v in
          let v := set_queue (sv_queue v ++ [c]) v in
          set_stream i (with_phase (Awaiting (mkCreated n (gc_watch_id c) (wc_progress_notify create))) st) v
      end
  | CancelRequest watch_id =>
      let '(s, resp) := on_cancel watch_id (store v) in
      set_stream i (with_phase (Sending resp None) st) (set_store s v)
  | ProgressRequest => set_stream i (with_phase (Sending (on_progress (store v)) None) st) v
  end.

(** What ends a stream task drops the receiver of a create it was serving. *)
Definition abandon (spawn : option Created) (s : StoreState) : StoreState :=
  match spawn with Some c => close_chan (cr_chan c) s | None => s end.

Definition stream_step (i : nat) (v : Svc) : option Svc :=
  match sv_streams v !! i with
  | None => None
  | Some st =>
      match st_phase st with
      | Reading =>
          match st_in st with
          | m :: ms => Some (read_message i (mkStream ms (st_in_closed st) Reading (st_out st) (st_taken st) (st_rx_open st)) m v)
          | [] => if st_in_closed st then Some (set_stream i (with_phase Returned st) v) else None
          end
      | Awaiting c =>
          match sv_replies v !! cr_chan c with
          | Some resp =>
              Some (set_stream i (with_phase (Sending resp (Some c)) st)
                      (set_replies (delete (cr_chan c) (sv_replies v)) v))
          | None =>
              match sv_loop v with
              | Panicked => Some (set_stream i (with_phase Returned st) (set_store (abandon (Some c) (store v)) v))
              | _ => None
              end
          end
      | Sending resp spawn =>
          if negb (st_rx_open st)
          then Some (set_stream i (with_phase Returned st) (set_store (abandon spawn (store v)) v))
          else if tx_room st then
            let st := mkStream (st_in st) (st_in_closed st) Reading (st_out st ++ [(cr_chan <$> spawn, resp)])
                        (st_taken st) (st_rx_open st) in
            let v := set_stream i st v in
            Some (match spawn with
                  | Some c => set_forwarders (sv_forwarders v ++ [mkFw i c O None false]) v
                  | None => v
                  end)
          else None
      | Returned => None
      end
  end.

(** ** The forwarding task *)

(** The contexts and creates the loop still holds keep their senders alive. *)
Definition loop_senders (l : LoopPhase) : list nat :=
  match l with
  | Idle | Panicked => []
  | Collecting batch _ | Checkpointed _ batch => gc_event_tx <$> batch
  | Screened _ active | Checked _ active | Replayed _ active _ | Registered active => cx_event_tx <$> active
  end.

Definition tx_alive (v : Svc) (c : nat) : bool :=
  bool_decide (c ∈ (wr_sender <$> watchers (store v)) ++ (gc_event_tx <$> sv_queue v) ++ loop_senders (sv_loop v)).

(** [tx_clone.send(..).await] and what follows it. *)
Definition forwarder_send (j : nat) (f : Forwarder) (resp : WatchResponse) (st : Stream) (v : Svc) : option Svc :=
  let c := fw_create f in
  if negb (st_rx_open st) then
    let s := (cancel_watcher (cr_watch_id c) (store v)).1 in
    Some (set_forwarder j (mkFw (fw_stream f) c (fw_received f) None true) (set_store (close_chan (cr_chan c) s) v))
  else if tx_room st then
    let st := mkStream (st_in st) (st_in_closed st) (st_phase st) (st_out st ++ [(Some (cr_chan c), resp)])
                (st_taken st) (st_rx_open st) in
    Some (set_forwarder j (mkFw (fw_stream f) c (fw_received f) None false) (set_stream (fw_stream f) st v))
  else None.

(** The [select!]. [biased]: the timer arm runs only when nothing was received. *)
Definition forwarder_select (tick : bool) (j : nat) (f : Forwarder) (v : Svc) : option Svc :=
  let c := fw_create f in
  match chans (store v) !! cr_chan c with
  | None => None
  | Some ch =>
      match ch_sent ch !! fw_received f with
      | Some event =>
          Some (set_forwarder j (mkFw (fw_stream f) c (S (fw_received f))
                                   (Some (event_response (cr_watch_id c) event)) false) v)
      | None =>
          if negb (tx_alive v (cr_chan c))
          then Some (set_forwarder j (mkFw (fw_stream f) c (fw_received f) None true)
                       (set_store (close_chan (cr_chan c) (store v)) v))
          else if tick && cr_progress c
          then Some (set_forwarder j (mkFw (fw_stream f) c (fw_received f)
                                        (Some (tick_response (cr_watch_id c) (store v))) false) v)
          else None
      end
  end.

Definition forwarder_step (tick : bool) (j : nat) (v : Svc) : option Svc :=
  match sv_forwarders v !! j with
  | None => None
  | Some f =>
      if fw_done f then None
      else match fw_sending f, sv_streams v !! fw_stream f with
           | Some resp, Some st => forwarder_send j f resp st v
           | None, _ => forwarder_select tick j f v
           | _, _ => None
           end
  end.

(** ** The batching loop *)

Section Loop.
Context `{Crc32c} `{KvDecoder} `{UnstableSort}.

Definition answer_all (replies : list (nat * WatchResponse)) (v : Svc) : Svc :=
  set_replies (foldl (fun m r => <[r.1 := r.2]> m) (sv_replies v) replies) v.

(** One step of [global_watch_loop] and of the flush it calls. The timer task
    sets [notified]; the queue is drained before the notification is looked at. *)
Definition loop_step (v : Svc) : option Svc :=
  match sv_loop v with
  | Idle =>
      match sv_queue v with
      | c :: q => Some (set_loop (Collecting [c] false) (set_queue q v))
      | [] => None
      end
  | Collecting batch notified =>
      match sv_queue v with
      | c :: q => Some (set_loop (Collecting (batch ++ [c]) notified) (set_queue q v))
      | [] => if notified then Some (set_loop (Checkpointed (current_checkpoint (store v)) batch) v) else None
      end
  | Checkpointed ck batch =>
      let '(refused, active) := admit_all (store v) batch in
      Some (set_loop (match active with [] => Idle | _ => Screened ck active end) (answer_all refused v))
  | Screened ck active =>
      Some (match reject_duplicates (store v) active with
            | Ok (duplicates, active) =>
                set_loop (match active with [] => Idle | _ => Checked ck active end) (answer_all duplicates v)
            | _ => set_loop Panicked v
            end)
  | Checked ck active =>
      Some (match flush_phase1 ck.1 active (store v) with
            | Ok (prev, s) => set_loop (Replayed ck active prev) (set_store s v)
            | _ => set_loop Panicked v
            end)
  | Replayed ck active prev =>
      Some (match flush_phase2 ck.1 ck.2 active prev (store v) with
            | Ok s => set_loop (Registered active) (set_store s v)
            | _ => set_loop Panicked v
            end)
  | Registered active => Some (set_loop Idle (answer_all (omap (created_response (store v)) active) v))
  | Panicked => None
  end.

Definition timer_step (v : Svc) : option Svc :=
  match sv_loop v with
  | Collecting batch false => Some (set_loop (Collecting batch true) v)
  | _ => None
  end.

(** ** All steps *)

(** What a client does to its stream. *)
Inductive ClientAction := SendRequest (m : WatchRequest) | EndRequests | TakeResponse | Disconnect.

Inductive Label :=
| ClientOpen
| Client (i : nat) (a : ClientAction)
| StoreCommand (c : Command)
| WalSnapshot
| WalSwap (faults : list (option nat))
| StreamTask (i : nat)
| ForwardTask (j : nat) (tick : bool)
| LoopTask
| TimerTask.

Definition client_step (a : ClientAction) (st : Stream) : option Stream :=
  match a with
  | SendRequest m =>
      if st_in_closed st then None
      else Some (mkStream (st_in st ++ [m]) false (st_phase st) (st_out st) (st_taken st) (st_rx_open st))
  | EndRequests => Some (mkStream (st_in st) true (st_phase st) (st_out st) (st_taken st) (st_rx_open st))
  | TakeResponse =>
      if (st_taken st <? length (st_out st))%nat
      then Some (mkStream (st_in st) (st_in_closed st) (st_phase st) (st_out st) (S (st_taken st)) (st_rx_open st))
      else None
  | Disconnect => Some (mkStream [] true (st_phase st) (st_out st) (st_taken st) false)
  end.

Definition next (l : Label) (v : Svc) : option Svc :=
  match l with
  | ClientOpen => Some (set_streams (sv_streams v ++ [mkStream [] false Reading [] O true]) v)
  | Client i a =>
      match sv_streams v !! i with
      | Some st => (fun st => set_stream i st v) <$> client_step a st
      | None => None
      end
  | StoreCommand c => Some (set_store (exec c (store v)) v)
  | WalSnapshot =>
      match sys_compaction (sv_sys v) with
      | None => Some (set_sys (mkSys (store v) (Some (compact_phase_a (store v)))) v)
      | Some _ => None
      end
  | WalSwap faults =>
      match sys_compaction (sv_sys v) with
      | None => None
      | Some sn =>
          match compact_phase_b faults sn with
          | (target, inl _) => Some (set_sys (mkSys (compact_phase_c sn target (store v)).1 None) v)
          | (_, inr _) => Some (set_sys (mkSys (store v) None) v)
          end
      end
  | StreamTask i => stream_step i v
  | ForwardTask j tick => forwarder_step tick j v
  | LoopTask => loop_step v
  | TimerTask => timer_step v
  end.

(** Where the flush holds a checkpoint. *)
Definition checkpoint (l : LoopPhase) : option (Z * Z) :=
  match l with
  | Checkpointed ck _ | Screened ck _ | Checked ck _ | Replayed ck _ _ => Some ck
  | _ => None
  end.

(** Other users of the store issue well-sized commands and leave watches alone;
    and the log is not rewritten under a flush, which the code does not ensure. *)
Definition label_ok (l : Label) (v : Svc) : Prop :=
  match l with
  | StoreCommand c => cmd_ok c (store v) /\ quiet c = true
  | WalSwap _ => checkpoint (sv_loop v) = None
  | _ => True
  end.

End Loop.

Abbreviation svc_step := (lstep next label_ok).

(** A run, with the labels of its steps. *)
Abbreviation svc_run := (lrun next label_ok).

End WatchService.
