(* ===== verification/WatchServiceProps.v ===== *)
(** * The Watch service's tasks work together

    Invariants of the task system of [WatchService], and what follows: every watch
    request is answered within a bounded number of steps of the batching loop, and
    a client receives, per watch, the answer to its request followed by a prefix of
    the events on the watch's channel, in order. *)
From S2P Require Import Prelude Varint KvCodec Wire Crc WalRecord Proto Range SortKvs State Store.
From S2P Require Import Historical Txn Recovery Background System Replay Durability HistRead Notify.
From S2P Require Import WatchStream WatchProps WatchService.
Local Open Scope Z_scope.

Module WatchServiceProps.
Import KvCodec Wire Crc Wal Proto Range SortKvs State Store Historical Txn Recovery Background System Replay
  Durability HistRead Notify WatchStream WatchProps WatchService.

(** ** Lists indexed by task *)

Definition others {A} (i : nat) (l : list A) : list A := take i l ++ drop (S i) l.

Lemma omap_at {A B} (f : A -> option B) (l : list A) i x :
  l !! i = Some x -> omap f l ≡ₚ option_list (f x) ++ omap f (others i l).
Proof.
  intros Hx. unfold others. rewrite <- (take_drop_middle l i x Hx) at 1. rewrite !omap_app. cbn.
  destruct (f x) as [y|]; cbn; [by rewrite <- Permutation_middle|done].
Qed.

Lemma omap_insert_at {A B} (f : A -> option B) (l : list A) i x x' :
  l !! i = Some x -> omap f (<[i := x']> l) ≡ₚ option_list (f x') ++ omap f (others i l).
Proof.
  intros Hx. pose proof (lookup_lt_Some _ _ _ Hx). rewrite (omap_at f (<[i := x']> l) i x') by by apply list_lookup_insert_eq.
  unfold others. by rewrite take_insert_ge, drop_insert_lt by lia.
Qed.

Lemma omap_insert_same {A B} (f : A -> option B) (l : list A) i x x' :
  l !! i = Some x -> f x' = f x -> omap f (<[i := x']> l) = omap f l.
Proof.
  revert i. induction l as [|y l IH]; intros [|i] Hx E; cbn in *; simplify_eq; try done.
  - by rewrite E.
  - rewrite IH; done.
Qed.

(** ** Channels *)

(** Channels are only appended to or closed, *)
Definition extends (cs cs' : gmap nat Channel) : Prop :=
  forall n ch, cs !! n = Some ch -> exists evs o, cs' !! n = Some (mkChan (ch_sent ch ++ evs) o).

(** and none is added. *)
Definition grows (cs cs' : gmap nat Channel) : Prop := extends cs cs' /\ dom cs' = dom cs.

Lemma extends_refl cs : extends cs cs.
Proof. intros n ch E. exists [], (ch_open ch). rewrite app_nil_r. by destruct ch. Qed.

Lemma extends_trans cs1 cs2 cs3 : extends cs1 cs2 -> extends cs2 cs3 -> extends cs1 cs3.
Proof.
  intros H12 H23 n ch E. destruct (H12 _ _ E) as (evs & o & E2). destruct (H23 _ _ E2) as (evs' & o' & E3).
  exists (evs ++ evs'), o'. cbn in E3. by rewrite app_assoc.
Qed.

#[local] Instance extends_preorder : PreOrder extends.
Proof. split; [exact extends_refl|exact extends_trans]. Qed.

#[local] Instance grows_preorder : PreOrder grows.
Proof.
  split; [by intros cs; split|]. intros cs1 cs2 cs3 [E12 D12] [E23 D23]. split; [by etrans|congruence].
Qed.

Lemma grows_foldl {A} (f : gmap nat Channel -> A -> gmap nat Channel) l cs :
  (forall cs a, grows cs (f cs a)) -> grows cs (foldl f cs l).
Proof. intros Hf. revert cs. induction l as [|a l IH]; intros cs; cbn; [done|]. by etrans; [apply Hf|]. Qed.

Lemma grows_send c ev cs : grows cs (send c ev cs).
Proof.
  unfold send. destruct (cs !! c) as [ch|] eqn:Ec; [|done]. destruct (ch_open ch); [|done]. split.
  - intros n ch' En. destruct (decide (n = c)) as [->|Hne].
    + rewrite lookup_insert_eq. assert (ch' = ch) as -> by congruence. by eexists _, _.
    + rewrite lookup_insert_ne by done. by apply extends_refl.
  - by apply dom_insert_lookup_L.
Qed.

Lemma grows_notify_events ws cs evs : grows cs (notify_events ws cs evs).
Proof.
  apply grows_foldl. intros cs1 ev. apply grows_foldl. intros cs2 w. unfold notify_one.
  repeat (case_match; try done); apply grows_send.
Qed.

Lemma grows_delivers want active cs evs : grows cs (delivers want active cs evs).
Proof.
  apply grows_foldl. intros cs1 ev. apply grows_foldl. intros cs2 ctx. unfold deliver.
  case_match; [apply grows_send|done].
Qed.

Lemma grows_close c cs : grows cs (alter (fun ch => mkChan (ch_sent ch) false) c cs).
Proof.
  split; [|apply dom_alter_L]. intros n ch E. destruct (decide (n = c)) as [->|Hne].
  - rewrite lookup_alter_eq, E. exists [], false. cbn. by rewrite app_nil_r.
  - rewrite lookup_alter_ne by done. by apply extends_refl.
Qed.

Lemma extends_fresh n cs : n ∉ dom cs -> extends cs (<[n := mkChan [] true]> cs).
Proof.
  intros En%not_elem_of_dom m ch E. rewrite lookup_insert_ne by (intros ->; congruence). by apply extends_refl.
Qed.

Section Service.
Context `{Crc32c} `{KvDecoder} `{UnstableSort}.

(** ** What steps do to the store *)

(** The log, cut where the running flush took its checkpoint. *)
Definition log_ok (s : StoreState) (l : LoopPhase) : Prop :=
  forall ck, checkpoint l = Some ck -> exists rs1 rs2, file (wal s) = log_bytes (rs1 ++ rs2)
    /\ Forall store_record (rs1 ++ rs2) /\ ck.2 = Z.of_nat (length (log_bytes rs1)).

(** What another user's command does, seen from the watch service. *)
Lemma command_effect c y s l :
  sys_inv y -> s = sys_store y -> cmd_ok c s -> quiet c = true -> log_ok s l ->
  sys_inv (mkSys (exec c s) (sys_compaction y)) /\ log_ok (exec c s) l
  /\ exists evs, watchers (exec c s) = watchers s /\ chans (exec c s) = notify_events (watchers s) (chans s) evs.
Proof.
  intros V -> Hc Hq Hl. destruct (sys_inv_durable y V) as (rs & D). destruct y as [s cp]. cbn [sys_store sys_compaction] in *.
  pose proof (sys_step_inv _ _ (ss_cmd c s cp Hc) V) as V'. destruct V as [I _]. pose proof (durable_no_faults _ _ D) as Hno.
  pose proof (exec_quiet c s I Hc Hq) as Ht.
  destruct (rtc_trans_feeds _ _ _ Ht I Hno) as (rs' & evs & Ef & R' & _ & Ew & Ec).
  split; [done|]. split; [|by exists evs]. intros ck Hck. destruct (Hl ck Hck) as (rs1 & rs2 & E & R & El).
  exists rs1, (rs2 ++ rs'). rewrite Ef, E, app_assoc, (log_bytes_app (rs1 ++ rs2)). split; [done|]. split; [by apply Forall_app|done].
Qed.

(** ** The flush never panics *)

(** Only the channels of [active] are written to. *)
Definition feeds_only (active : list WatchContext) (cs cs' : gmap nat Channel) : Prop :=
  grows cs cs' /\ forall n, n ∉ (cx_event_tx <$> active) -> cs' !! n = cs !! n.

Lemma feeds_only_refl active cs : feeds_only active cs cs.
Proof. by split. Qed.

Lemma feeds_only_deliver want active ev cs cs' :
  feeds_only active (foldl (deliver want ev) cs active) cs' -> feeds_only active cs cs'.
Proof.
  intros [Hg Ho]. split.
  - etrans; [|exact Hg]. apply (grows_delivers want active cs [ev]).
  - intros n Hn. rewrite Ho by done. by apply deliver_other.
Qed.

Lemma phase1_scan_safe ck active rs prev cs :
  Forall store_record rs ->
  exists prev' cs', phase1_scan ck active rs prev cs = Ok (prev', cs') /\ feeds_only active cs cs'.
Proof.
  intros R. revert prev cs. induction R as [|r rs Hr R IH]; intros prev cs; cbn [phase1_scan];
    [eexists _, _; split; [done|apply feeds_only_refl]|].
  destruct (ck <? record_rev r); [apply IH|]. rewrite store_record_key by done. cbn [outcome_bind].
  destruct (replay_event prev r (r_key r)) as [ev prev'].
  destruct (IH prev' (foldl (phase1_send ev) cs active)) as (p' & cs' & E & Hf).
  exists p', cs'. split; [done|].
  by apply (feeds_only_deliver (fun ctx ev => (cx_start_revision ctx <=? ev_revision ev)
    && matches_range (cx_bound ctx) (ev_key ev) && should_send_event (cx_filters ctx) (event_code (ev_type ev))) _ ev).
Qed.

Lemma phase2_scan_safe ck active rs prev cs :
  Forall store_record rs ->
  exists prev' cs', phase2_scan ck active rs prev cs = Ok (prev', cs') /\ feeds_only active cs cs'.
Proof.
  intros R. revert prev cs. induction R as [|r rs Hr R IH]; intros prev cs; cbn [phase2_scan];
    [eexists _, _; split; [done|apply feeds_only_refl]|].
  destruct (record_rev r <=? ck); [apply IH|]. rewrite store_record_key by done. cbn [outcome_bind].
  destruct (replay_event prev r (r_key r)) as [ev prev'].
  destruct (IH prev' (foldl (phase2_send ev) cs active)) as (p' & cs' & E & Hf).
  exists p', cs'. split; [done|].
  by apply (feeds_only_deliver (fun ctx ev =>
    matches_range (cx_bound ctx) (ev_key ev) && should_send_event (cx_filters ctx) (event_code (ev_type ev))) _ ev).
Qed.

Lemma flush_phase1_safe ck active s rs :
  durable_by s rs ->
  exists prev cs, flush_phase1 ck active s = Ok (prev, set_chans cs s) /\ feeds_only active (chans s) cs.
Proof.
  intros D. unfold flush_phase1, scan_kv. cbn [file WalFile_open]. rewrite (du_file _ _ D), scan_log.
  2: { eapply Forall_impl; [apply (du_records _ _ D)|apply store_record_wf]. }
  destruct (phase1_scan_safe ck active rs ∅ (chans s) (du_records _ _ D)) as (prev & cs & E & Hf).
  rewrite E. by exists prev, cs.
Qed.

Lemma flush_phase2_safe ck active prev s l :
  log_ok s l -> checkpoint l = Some ck ->
  exists cs, flush_phase2 ck.1 ck.2 active prev s = Ok (register_all active (set_chans cs s))
    /\ feeds_only active (chans s) cs.
Proof.
  intros Hl Hck. destruct (Hl ck Hck) as (rs1 & rs2 & Ef & [_ R]%Forall_app & El).
  unfold flush_phase2. rewrite El.
  pose proof (scan_log_from (wal s) rs1 rs2 ltac:(eapply Forall_impl; [apply R|apply store_record_wf]) Ef) as Es.
  destruct (scan_kv (wal s) _) as [rs e]. cbn in Es. subst rs.
  destruct (phase2_scan_safe ck.1 active rs2 prev (chans s) R) as (p & cs & E & Hf). rewrite E. by exists cs.
Qed.

(** *** Requests are answered or kept *)

Lemma swap_remove_perm {A} i (l : list A) x l' : swap_remove i l = Some (x, l') -> l ≡ₚ x :: l'.
Proof.
  unfold swap_remove. destruct (l !! i) as [y|] eqn:Ei; [|done]. destruct (last l) as [z|] eqn:El; [|done].
  pose proof (lookup_lt_Some _ _ _ Ei) as Hi.
  destruct (swap_remove_split (take i l) (drop (S i) l) y) as (l2' & E & Hp).
  rewrite take_drop_middle, length_take, Nat.min_l in E by (done || lia). unfold swap_remove in E. rewrite Ei, El in E.
  injection E as E2. intros [= <- <-]. rewrite E2, Hp.
  rewrite <- (take_drop_middle l i y Ei) at 1. by rewrite <- Permutation_middle.
Qed.

(** A context that is answered through the oneshot it was created with. *)
Definition own_reply (ctx : WatchContext) : Prop := cx_reply ctx = Some (cx_event_tx ctx).

(** A refusal: a cancelation without an id. *)
Definition refusal (r : WatchResponse) : Prop :=
  wp_created r = false /\ wp_canceled r = true /\ wp_watch_id r = -1 /\ wp_events r = [].

Lemma reject_loop_answers s idxs active replies kept :
  reject_loop s idxs active = Ok (replies, kept) -> Forall own_reply active ->
  (cx_event_tx <$> active) ≡ₚ replies.*1 ++ (cx_event_tx <$> kept) /\ (forall ctx, ctx ∈ kept -> ctx ∈ active)
  /\ Forall (fun r => refusal r.2) replies.
Proof.
  revert active replies kept. induction idxs as [|i idxs IH]; intros active replies kept; cbn [reject_loop].
  - intros [= <- <-] _. done.
  - destruct (swap_remove i active) as [[ctx active1]|] eqn:E; [|done]. apply swap_remove_perm in E.
    destruct (reject_loop s idxs active1) as [[replies1 kept1]| |] eqn:Er; cbn [outcome_bind]; try done.
    intros [= <- <-]. rewrite E. intros [Ho Ha]%Forall_cons. destruct (IH _ _ _ Er Ha) as (Hp & Hin & Hf).
    rewrite Ho. cbn. rewrite Hp. split; [done|]. split; [|by constructor].
    intros c Hc. rewrite E. right. by apply Hin.
Qed.

Lemma reject_duplicates_answers s active :
  Forall own_reply active ->
  exists replies kept, reject_duplicates s active = Ok (replies, kept)
    /\ (cx_event_tx <$> active) ≡ₚ replies.*1 ++ (cx_event_tx <$> kept) /\ (forall ctx, ctx ∈ kept -> ctx ∈ active)
    /\ Forall (fun r => refusal r.2) replies.
Proof.
  intros Ha. destruct (rejected_without (watchers s) active) as [Hd _].
  destruct (reject_loop_without s (reverse (rejected_from (watchers s) [] O active)) active [] Hd)
    as (replies & kept & Er & _). rewrite app_nil_r in Er. exists replies, kept. split; [done|].
  by eapply reject_loop_answers.
Qed.

Lemma admit_all_answers s batch replies active :
  admit_all s batch = (replies, active) -> Forall (fun c => gc_reply c = gc_event_tx c) batch ->
  (gc_event_tx <$> batch) ≡ₚ replies.*1 ++ (cx_event_tx <$> active)
  /\ Forall (fun ctx => own_reply ctx /\ exists c, c ∈ batch /\ gc_event_tx c = cx_event_tx ctx /\ gc_watch_id c = cx_watch_id ctx)
       active
  /\ Forall (fun r => refusal r.2) replies.
Proof.
  revert replies active. induction batch as [|c batch IH]; intros replies active; cbn [admit_all].
  { intros [= <- <-] _. done. }
  destruct (admit_all s batch) as [replies1 active1]. intros E [Hc Hb]%Forall_cons.
  destruct (IH _ _ eq_refl Hb) as (Hp & Ha & Hr).
  assert (Forall (fun ctx => own_reply ctx /\ exists c', c' ∈ c :: batch /\ gc_event_tx c' = cx_event_tx ctx
    /\ gc_watch_id c' = cx_watch_id ctx) active1) as Ha'.
  { eapply Forall_impl; [exact Ha|]. intros ctx [? (c' & ? & ?)]. split; [done|]. exists c'. split; [by right|done]. }
  unfold admission in E. destruct (_ && _) in E; [|destruct (_ && _) in E]; injection E as <- <-; cbn [fmap list_fmap].
  - rewrite Hc. cbn. split; [by rewrite Hp|]. split; [done|by constructor].
  - rewrite Hc. cbn. split; [by rewrite Hp|]. split; [done|by constructor].
  - cbn. split; [by rewrite Hp, Permutation_middle|]. split; [|done]. constructor; [|done].
    split; [unfold own_reply; cbn; by rewrite Hc|]. exists c. split; [left|done].
Qed.

(** ** Requests in flight *)

(** The create a stream is waiting for, and the one it is still serving. *)
Definition awaited_of (st : Stream) : option nat :=
  match st_phase st with Awaiting c => Some (cr_chan c) | _ => None end.
Definition serving_of (st : Stream) : option nat :=
  match st_phase st with Awaiting c | Sending _ (Some c) => Some (cr_chan c) | _ => None end.

Definition fw_chan (f : Forwarder) : nat := cr_chan (fw_create f).

Definition loop_creates (l : LoopPhase) : list GlobalCreate :=
  match l with Collecting batch _ | Checkpointed _ batch => batch | _ => [] end.
Definition loop_ctxs (l : LoopPhase) : list WatchContext :=
  match l with Screened _ active | Checked _ active | Replayed _ active _ | Registered active => active | _ => [] end.

(** The creates that are queued or in the loop's hands. *)
Definition outstanding (v : Svc) : list nat := (gc_event_tx <$> sv_queue v) ++ loop_senders (sv_loop v).

(** Every create in flight or answered but not yet read is the one some stream
    waits for, and no number is in use twice. *)
Record flight_ok (v : Svc) : Prop := {
  fl_sys : sys_inv (sv_sys v);
  fl_log : log_ok (store v) (sv_loop v);
  fl_loop : sv_loop v <> Panicked;
  fl_creates : Forall (fun c => gc_reply c = gc_event_tx c) (sv_queue v ++ loop_creates (sv_loop v));
  fl_ctxs : Forall own_reply (loop_ctxs (sv_loop v));
  fl_perm : outstanding v ++ elements (dom (sv_replies v)) ≡ₚ omap awaited_of (sv_streams v);
  fl_nodup : NoDup (omap serving_of (sv_streams v) ++ (fw_chan <$> sv_forwarders v));
  fl_below : Forall (fun n => n < sv_fresh v)%nat (omap serving_of (sv_streams v) ++ (fw_chan <$> sv_forwarders v));
  fl_chans : dom (chans (store v)) = set_seq 0 (sv_fresh v) }.

Lemma awaited_serving l : omap awaited_of l `sublist_of` omap serving_of l.
Proof.
  induction l as [|st l IH]; [done|]. cbn. unfold awaited_of, serving_of.
  destruct (st_phase st) as [|c|r [c|]|]; cbn; try done; by constructor.
Qed.

Lemma flight_awaited v : flight_ok v -> NoDup (omap awaited_of (sv_streams v))
  /\ Forall (fun n => n < sv_fresh v)%nat (omap awaited_of (sv_streams v)).
Proof.
  intros F. pose proof (fl_nodup v F) as Hn. pose proof (fl_below v F) as Hb.
  apply NoDup_app in Hn as [Hn _]. apply Forall_app in Hb as [Hb _].
  split; [by eapply sublist_NoDup, awaited_serving|]. clear Hn.
  pose proof (awaited_serving (sv_streams v)) as Hs. rewrite Forall_forall in *. intros n Hin. apply Hb.
  by apply (elem_of_submseteq _ _ _ Hin), sublist_submseteq.
Qed.

Lemma outstanding_NoDup v : flight_ok v -> NoDup (outstanding v ++ elements (dom (sv_replies v))).
Proof. intros F. rewrite (fl_perm v F). by apply flight_awaited. Qed.

Lemma outstanding_below v n : flight_ok v -> n ∈ outstanding v -> (n < sv_fresh v)%nat.
Proof.
  intros F Hn. destruct (flight_awaited v F) as [_ Hb]. rewrite <- (fl_perm v F) in Hb.
  apply Forall_app in Hb as [Hb _]. eapply Forall_forall in Hb; [exact Hb|done].
Qed.

Lemma outstanding_length v : flight_ok v -> (length (outstanding v) <= length (sv_streams v))%nat.
Proof.
  intros F. pose proof (Permutation_length (fl_perm v F)) as Hp. rewrite length_app in Hp.
  assert (forall l, length (omap awaited_of l) <= length l)%nat as Ho
    by (induction l as [|st l IH]; cbn; [lia|]; destruct (awaited_of st); cbn; lia).
  specialize (Ho (sv_streams v)). lia.
Qed.

Lemma answer_dom rs (m : gmap nat WatchResponse) :
  NoDup (rs.*1 ++ elements (dom m)) ->
  elements (dom (foldl (fun m r => <[r.1 := r.2]> m) m rs)) ≡ₚ rs.*1 ++ elements (dom m).
Proof.
  revert m. induction rs as [|[n r] rs IH]; intros m; [done|]. cbn [fmap list_fmap foldl app fst snd].
  intros [Hn Hnd]%NoDup_cons. rewrite not_elem_of_app, elem_of_elements in Hn. destruct Hn as [Hrs Hm].
  assert (elements (dom (<[n := r]> m)) ≡ₚ n :: elements (dom m)) as E
    by by rewrite dom_insert_L, elements_union_singleton.
  rewrite IH; rewrite E; [by rewrite Permutation_middle|]. rewrite <- Permutation_middle. constructor; [|done].
  rewrite not_elem_of_app, elem_of_elements. done.
Qed.

(** The loop answers some of the creates it holds. *)
Lemma flight_answer v l rs :
  flight_ok v -> log_ok (store v) l -> l <> Panicked ->
  loop_senders (sv_loop v) ≡ₚ rs.*1 ++ loop_senders l ->
  Forall (fun c => gc_reply c = gc_event_tx c) (loop_creates l) -> Forall own_reply (loop_ctxs l) ->
  flight_ok (set_loop l (answer_all rs v)).
Proof.
  intros F Hl Hp Hs Hc Hx. pose proof (outstanding_NoDup v F) as Hnd. destruct F as [F1 F2 F3 F4 F5 F6 F7 F8 F9].
  split; try done; cbn [sv_queue sv_loop set_loop answer_all set_replies].
  - apply Forall_app in F4 as [F4 _]. by apply Forall_app.
  - unfold outstanding in *. cbn. rewrite Hs in Hnd, F6. rewrite <- F6.
    rewrite answer_dom; [by solve_Permutation|].
    apply (sublist_NoDup _ ((rs.*1 ++ elements (dom (sv_replies v))) ++ (gc_event_tx <$> sv_queue v) ++ loop_senders l));
      [|apply sublist_inserts_r; reflexivity].
    assert (forall a b c d : list nat, (a ++ b) ++ c ++ d ≡ₚ (c ++ a ++ d) ++ b) as Hperm by (intros; solve_Permutation).
    by rewrite Hperm.
Qed.

Lemma sys_eta v : mkSys (store v) (sys_compaction (sv_sys v)) = sv_sys v.
Proof. unfold store. by destruct (sv_sys v). Qed.

Lemma log_ok_light s s' l : light s s' -> log_ok s l -> log_ok s' l.
Proof. intros (_ & Ew & _) Hl ck Hck. rewrite Ew. by apply Hl. Qed.

Lemma flight_store s' v :
  light (store v) s' -> dom (chans s') = dom (chans (store v)) -> flight_ok v -> flight_ok (set_store s' v).
Proof.
  intros L Hd [F1 F2 F3 F4 F5 F6 F7 F8 F9]. split; try done.
  - cbn. apply (sys_inv_light (store v)); [done|]. by rewrite sys_eta.
  - by apply (log_ok_light (store v)).
  - cbn. by rewrite Hd.
Qed.

(** A stream that goes on serving what it served. *)
Lemma flight_stream v i st st' :
  sv_streams v !! i = Some st -> awaited_of st' = awaited_of st -> serving_of st' = serving_of st ->
  flight_ok v -> flight_ok (set_stream i st' v).
Proof.
  intros Hi Ha Hs [F1 F2 F3 F4 F5 F6 F7 F8 F9].
  split; try done; cbn [sv_streams set_stream set_streams sv_forwarders];
    by rewrite ?(omap_insert_same awaited_of _ i st), ?(omap_insert_same serving_of _ i st).
Qed.

(** A stream done with a create, which a new forwarding task may take over. *)
Lemma flight_release v i st st' fs :
  sv_streams v !! i = Some st -> awaited_of st = None -> awaited_of st' = None -> serving_of st' = None ->
  (fw_chan <$> fs) `sublist_of` option_list (serving_of st) ->
  flight_ok v -> flight_ok (set_forwarders (sv_forwarders v ++ fs) (set_stream i st' v)).
Proof.
  intros Hi Ha Ha' Hs' Hf [F1 F2 F3 F4 F5 F6 F7 F8 F9].
  assert (exists l, l ≡ₚ omap serving_of (sv_streams v) ++ (fw_chan <$> sv_forwarders v)
    /\ (omap serving_of (<[i := st']> (sv_streams v)) ++ (fw_chan <$> (sv_forwarders v ++ fs))) ⊆+ l) as (l & El & Hl).
  { eexists. split; [done|]. rewrite (omap_at serving_of _ i st Hi), (omap_insert_at serving_of _ i st st' Hi), Hs'.
    rewrite fmap_app. change (option_list (@None nat)) with (@nil nat). cbn [app]. set (o := omap serving_of (others i (sv_streams v))).
    assert (forall a b d : list nat, a ++ b ++ d ≡ₚ d ++ a ++ b) as Hp by (intros; solve_Permutation).
    rewrite Hp, <- (app_assoc (option_list _)).
    apply submseteq_app; [by apply sublist_submseteq|done]. }
  split; try done; cbn [sv_streams set_stream set_streams sv_forwarders set_forwarders].
  - by rewrite (omap_insert_same awaited_of _ i st) by (done || congruence).
  - rewrite <- El in F7. destruct (submseteq_Permutation _ _ Hl) as [k Hk]. rewrite Hk in F7. by apply NoDup_app in F7 as [? _].
  - rewrite <- El in F8. destruct (submseteq_Permutation _ _ Hl) as [k Hk]. rewrite Hk in F8. by apply Forall_app in F8 as [? _].
Qed.

(** A stream takes the answer to its create. *)
Lemma flight_consume v i st st' n :
  sv_streams v !! i = Some st -> awaited_of st = Some n -> awaited_of st' = None -> serving_of st' = serving_of st ->
  n ∈ dom (sv_replies v) ->
  flight_ok v -> flight_ok (set_stream i st' (set_replies (delete n (sv_replies v)) v)).
Proof.
  intros Hi Ha Ha' Hs Hn [F1 F2 F3 F4 F5 F6 F7 F8 F9].
  split; try done; cbn [sv_streams set_stream set_streams sv_forwarders sv_replies set_replies];
    rewrite ?(omap_insert_same serving_of _ i st) by done; try done.
  rewrite (omap_insert_at awaited_of _ i st st' Hi), Ha'. rewrite (omap_at awaited_of _ i st Hi), Ha in F6. cbn in *.
  apply (Permutation_cons_inv (a := n)). rewrite <- F6. unfold outstanding. cbn. rewrite dom_delete_L.
  rewrite (union_difference_L {[n]} (dom (sv_replies v))) at 2 by set_solver.
  rewrite elements_union_singleton by set_solver. by rewrite Permutation_middle.
Qed.

(** A stream queues a new create. *)
Lemma flight_create v i st st' c counter :
  sv_streams v !! i = Some st -> awaited_of st = None -> serving_of st = None ->
  awaited_of st' = Some (sv_fresh v) -> serving_of st' = Some (sv_fresh v) ->
  gc_event_tx c = sv_fresh v -> gc_reply c = sv_fresh v ->
  flight_ok v ->
  flight_ok (set_stream i st' (set_queue (sv_queue v ++ [c])
    (set_store (set_chans (<[sv_fresh v := mkChan [] true]> (chans (store v))) (store v))
      (set_counters counter (S (sv_fresh v)) v)))).
Proof.
  intros Hi Ha Hs Ha' Hs' Hc Hr F. pose proof F as [F1 F2 F3 F4 F5 F6 F7 F8 F9].
  assert (forall n, n ∈ omap serving_of (sv_streams v) ++ (fw_chan <$> sv_forwarders v) -> n <> sv_fresh v) as Hne
    by (intros n Hn; eapply Forall_forall in F8; [|exact Hn]; cbn in F8; lia).
  assert (omap serving_of (<[i := st']> (sv_streams v)) ++ (fw_chan <$> sv_forwarders v)
    ≡ₚ sv_fresh v :: omap serving_of (sv_streams v) ++ (fw_chan <$> sv_forwarders v)) as Es
    by by rewrite (omap_insert_at serving_of _ i st st' Hi), (omap_at serving_of _ i st Hi), Hs, Hs'.
  split; try done; cbn.
  - apply (sys_inv_light (store v)); [done|]. by rewrite sys_eta.
  - rewrite <- app_assoc, (Permutation_app_comm [c]), app_assoc. apply Forall_app. split; [done|].
    repeat constructor. congruence.
  - unfold outstanding in *. cbn. rewrite (omap_insert_at awaited_of _ i st st' Hi), Ha'.
    rewrite (omap_at awaited_of _ i st Hi), Ha in F6. cbn in *. rewrite <- F6, fmap_app. cbn. rewrite Hc.
    assert (forall (a b d : list nat) x, ((a ++ [x]) ++ b) ++ d ≡ₚ x :: (a ++ b) ++ d) as Hp by (intros; solve_Permutation).
    apply Hp.
  - rewrite Es. constructor; [|done]. intros Hin. by apply (Hne _ Hin).
  - rewrite Es. constructor; [lia|]. eapply Forall_impl; [exact F8|]. cbn. lia.
  - rewrite dom_insert_L, F9. apply set_eq. intros n.
    rewrite !elem_of_union, !elem_of_singleton, !elem_of_set_seq.
    lia.
Qed.

(** *** Preservation, task by task *)

Lemma light_close c s : light s (close_chan c s) /\ dom (chans (close_chan c s)) = dom (chans s).
Proof. split; [done|]. apply dom_alter_L. Qed.

Lemma light_abandon spawn s : light s (abandon spawn s) /\ dom (chans (abandon spawn s)) = dom (chans s).
Proof. destruct spawn as [c|]; [apply light_close|done]. Qed.

Lemma set_forwarders_nil v : set_forwarders (sv_forwarders v ++ []) v = v.
Proof. rewrite app_nil_r. by destruct v. Qed.

Lemma flight_read i v st m ms :
  flight_ok v -> sv_streams v !! i = Some st -> st_phase st = Reading ->
  flight_ok (read_message i (mkStream ms (st_in_closed st) Reading (st_out st) (st_taken st) (st_rx_open st)) m v).
Proof.
  intros F Hi Hp. pose proof (fl_loop v F) as Hloop.
  assert (awaited_of st = None /\ serving_of st = None) as [Ha Hs] by (unfold awaited_of, serving_of; by rewrite Hp).
  destruct m as [create|id| |]; cbn [read_message].
  - destruct (on_create (store v) (sv_next_watch_id v) (sv_fresh v) (sv_fresh v) create) as [c counter] eqn:Ec.
    assert (gc_event_tx c = sv_fresh v /\ gc_reply c = sv_fresh v) as [Ec1 Ec2].
    { unfold on_create in Ec. destruct (negb _); cbn in Ec; injection Ec as <- _; done. }
    cbn [sv_loop set_counters]. assert (forall T (a b : T), match sv_loop v with Panicked => a | _ => b end = b) as Hm
      by (intros T a b; by destruct (sv_loop v)). rewrite Hm.
    eapply (flight_create v i st); done.
  - cbn [on_cancel]. eapply (flight_stream (set_store _ v) i st); [done|done|done|]. by apply flight_store.
  - by eapply (flight_stream v i st).
  - by eapply (flight_stream v i st).
Qed.

Lemma flight_stream_step i v v' : stream_step i v = Some v' -> flight_ok v -> flight_ok v'.
Proof.
  unfold stream_step. destruct (sv_streams v !! i) as [st|] eqn:Hi; [|done].
  destruct (st_phase st) as [|c|resp spawn|] eqn:Hp; [| | |done].
  - destruct (st_in st) as [|m ms].
    + destruct (st_in_closed st); [|done]. intros [= <-] F.
      eapply (flight_stream v i st); unfold awaited_of, serving_of; by rewrite ?Hp.
    + intros [= <-] F. by apply flight_read.
  - destruct (sv_replies v !! cr_chan c) as [resp|] eqn:Hr.
    + intros [= <-] F. eapply (flight_consume v i st); unfold awaited_of, serving_of; rewrite ?Hp; try done.
      by eapply elem_of_dom_2.
    + intros E F. pose proof (fl_loop v F). by destruct (sv_loop v).
  - assert (awaited_of st = None) as Ha by (unfold awaited_of; by rewrite Hp).
    destruct (negb (st_rx_open st)).
    + intros [= <-] F. destruct (light_abandon spawn (store v)) as [L Hd].
      rewrite <- set_forwarders_nil. apply (flight_release (set_store (abandon spawn (store v)) v) i st); try done.
      * apply sublist_nil_l.
      * by apply flight_store.
    + destruct (tx_room st); [|done]. intros [= <-] F. destruct spawn as [c|].
      * apply (flight_release v i st); try done. unfold serving_of. by rewrite Hp.
      * rewrite <- set_forwarders_nil. apply (flight_release v i st); try done. apply sublist_nil_l.
Qed.

(** A forwarding task keeps its channel. *)
Lemma flight_forwarder v j f f' :
  sv_forwarders v !! j = Some f -> fw_chan f' = fw_chan f -> flight_ok v -> flight_ok (set_forwarder j f' v).
Proof.
  intros Hj Hc [F1 F2 F3 F4 F5 F6 F7 F8 F9].
  assert (fw_chan <$> <[j := f']> (sv_forwarders v) = fw_chan <$> sv_forwarders v) as E.
  { rewrite list_fmap_insert, list_insert_id; [done|]. rewrite list_lookup_fmap, Hj. cbn. by rewrite Hc. }
  split; try done; cbn [sv_forwarders set_forwarder set_forwarders sv_streams]; by rewrite E.
Qed.

Lemma flight_forwarder_step tick j v v' : forwarder_step tick j v = Some v' -> flight_ok v -> flight_ok v'.
Proof.
  unfold forwarder_step, forwarder_send, forwarder_select. destruct (sv_forwarders v !! j) as [f|] eqn:Hj; [|done].
  destruct (fw_done f); [done|]. destruct (fw_sending f) as [resp|].
  - destruct (sv_streams v !! fw_stream f) as [st|] eqn:Hst; [|done]. destruct (negb (st_rx_open st)).
    + intros [= <-] F. eapply flight_forwarder; [exact Hj|done|]. apply flight_store; [done|apply dom_alter_L|done].
    + destruct (tx_room st); [|done]. intros [= <-] F. eapply flight_forwarder; [exact Hj|done|].
      by eapply (flight_stream v _ st).
  - destruct (chans (store v) !! cr_chan (fw_create f)) as [ch|]; [|done].
    destruct (ch_sent ch !! fw_received f); [intros [= <-] F; by eapply flight_forwarder|].
    destruct (negb _); [intros [= <-] F; eapply flight_forwarder; [exact Hj|done|]; by apply flight_store, F; apply light_close|].
    destruct (tick && _); [|done]. intros [= <-] F. by eapply flight_forwarder.
Qed.

(** A loop step that only changes the phase. *)
Lemma flight_loop v l q :
  flight_ok v -> log_ok (store v) l -> l <> Panicked ->
  (gc_event_tx <$> sv_queue v) ++ loop_senders (sv_loop v) ≡ₚ (gc_event_tx <$> q) ++ loop_senders l ->
  sv_queue v ++ loop_creates (sv_loop v) ≡ₚ q ++ loop_creates l -> loop_ctxs l = loop_ctxs (sv_loop v) ->
  flight_ok (set_loop l (set_queue q v)).
Proof.
  intros [F1 F2 F3 F4 F5 F6 F7 F8 F9] Hl Hp Hs Hc Hx. split; try done; cbn.
  - by rewrite <- Hc.
  - by rewrite Hx.
  - unfold outstanding in *. cbn. by rewrite <- Hs.
Qed.

Lemma queue_eta v : set_queue (sv_queue v) v = v.
Proof. by destruct v. Qed.

Lemma flight_timer_step v v' : timer_step v = Some v' -> flight_ok v -> flight_ok v'.
Proof.
  unfold timer_step. destruct (sv_loop v) as [|batch []| | | | | |] eqn:E; try done. intros [= <-] F.
  rewrite <- (queue_eta v). apply (flight_loop v); rewrite ?E; try done.
Qed.

Lemma flight_loop_step v v' : loop_step v = Some v' -> flight_ok v -> flight_ok v'.
Proof.
  unfold loop_step. intros E F. pose proof (fl_log v F) as Hlog. pose proof (fl_creates v F) as Hcr.
  pose proof (fl_ctxs v F) as Hcx. destruct (sv_loop v) as [|batch nf|ck batch|ck active|ck active|ck active prev|active|] eqn:El;
    cbn [loop_creates loop_ctxs] in *; [| | | | | | |done].
  - destruct (sv_queue v) as [|c q] eqn:Eq; [done|]. injection E as <-. apply (flight_loop v); rewrite ?El, ?Eq; try done.
    + cbn. by rewrite app_nil_r, Permutation_app_comm.
    + cbn. by rewrite app_nil_r, Permutation_app_comm.
  - destruct (sv_queue v) as [|c q] eqn:Eq.
    + destruct nf; [|done]. injection E as <-. rewrite <- (queue_eta v). apply (flight_loop v); rewrite ?El, ?Eq; try done.
      intros ck [= <-]. destruct (sys_inv_durable _ (fl_sys v F)) as (rs & D). exists rs, [].
      rewrite app_nil_r. fold (store v) in D. change (store (set_queue [] v)) with (store v).
      unfold current_checkpoint. cbn [snd]. rewrite (du_file _ _ D). split; [done|]. split; [apply D|done].
    + injection E as <-. apply (flight_loop v); rewrite ?El, ?Eq; try done; cbn [loop_senders loop_creates].
      * rewrite fmap_app. cbn. by rewrite app_assoc, <- Permutation_cons_append.
      * cbn. by rewrite app_assoc, <- Permutation_cons_append.
  - destruct (admit_all (store v) batch) as [refused active] eqn:Ea. injection E as <-.
    apply Forall_app in Hcr as [_ Hb]. destruct (admit_all_answers _ _ _ _ Ea Hb) as (Hp & Ha & _).
    assert (Forall own_reply active) as Ho by (eapply Forall_impl; [exact Ha|]; naive_solver).
    apply flight_answer; rewrite ?El; try done; destruct active; try done.
  - destruct (reject_duplicates_answers (store v) active Hcx) as (replies & kept & -> & Hp & Hin & _) in E.
    injection E as <-. assert (Forall own_reply kept) as Ho
      by (apply Forall_forall; intros ctx Hk; eapply Forall_forall in Hcx; [exact Hcx|by apply Hin]).
    apply flight_answer; rewrite ?El; try done; destruct kept; try done.
  - destruct (sys_inv_durable _ (fl_sys v F)) as (rs & D).
    destruct (flush_phase1_safe ck.1 active (store v) rs D) as (prev & cs & Ep & [_ Hd] & _). rewrite Ep in E. injection E as <-.
    rewrite <- (queue_eta (set_store _ v)).
    apply (flight_loop (set_store (set_chans cs (store v)) v)); cbn [sv_loop set_store]; rewrite ?El; try done. by apply flight_store.
  - destruct (flush_phase2_safe ck active prev (store v) _ Hlog eq_refl) as (cs & Ep & [_ Hd] & _). rewrite Ep in E. injection E as <-.
    rewrite <- (queue_eta (set_store _ v)).
    destruct (register_all_fields active (set_chans cs (store v))) as (_ & E1 & E2 & E3 & E4 & E5 & E6).
    apply (flight_loop (set_store (register_all active (set_chans cs (store v))) v)); cbn [sv_loop set_store]; rewrite ?El; try done.
    apply flight_store; [|by rewrite E3|done]. by repeat split; rewrite ?E1, ?E2, ?E4, ?E5, ?E6.
  - injection E as <-. assert ((omap (created_response (store v)) active).*1 = cx_event_tx <$> active) as Er.
    { clear -Hcx. induction Hcx as [|ctx active Hc _ IH]; [done|]. cbn. unfold created_response at 1. rewrite Hc. cbn. by rewrite IH. }
    apply flight_answer; rewrite ?El; try done. cbn. by rewrite Er, app_nil_r.
Qed.

Lemma client_step_phase a st st' : client_step a st = Some st' -> st_phase st' = st_phase st.
Proof. unfold client_step. repeat case_match; naive_solver. Qed.

Lemma flight_step l v v' : svc_step l v v' -> flight_ok v -> flight_ok v'.
Proof.
  intros [Hok E] F. destruct l as [|i a|c| |fs|i|j tick| |]; cbn [next label_ok] in *.
  - injection E as <-. destruct F as [F1 F2 F3 F4 F5 F6 F7 F8 F9].
    split; try done; cbn; rewrite omap_app; cbn; by rewrite app_nil_r.
  - destruct (sv_streams v !! i) as [st|] eqn:Hi; [|done]. destruct (client_step a st) as [st'|] eqn:Hc; [|done].
    injection E as <-. apply client_step_phase in Hc.
    apply (flight_stream v i st); [done|unfold awaited_of, serving_of; by rewrite Hc..|done].
  - injection E as <-. destruct Hok as [Hc Hq]. destruct F as [F1 F2 F3 F4 F5 F6 F7 F8 F9].
    destruct (command_effect c _ _ _ F1 eq_refl Hc Hq F2) as (V & L & evs & Ew & Ec).
    split; try done. cbn. rewrite <- F9. unfold store. rewrite Ec. apply grows_notify_events.
  - destruct (sys_compaction (sv_sys v)) eqn:Ec; [done|]. injection E as <-. destruct F as [F1 F2 F3 F4 F5 F6 F7 F8 F9].
    split; try done. cbn. eapply sys_step_inv; [|exact F1]. destruct (sv_sys v) as [s cp] eqn:Es. cbn in Ec. subst cp.
    unfold store. rewrite Es. apply ss_snapshot.
  - destruct (sys_compaction (sv_sys v)) as [sn|] eqn:Ec; [|done]. destruct F as [F1 F2 F3 F4 F5 F6 F7 F8 F9].
    assert (mkSys (store v) (Some sn) = sv_sys v) as Ey by by rewrite <- Ec, sys_eta.
    destruct (compact_phase_b fs sn) as [target [[]|e]] eqn:Eb; injection E as <-.
    + assert (chans (compact_phase_c sn target (store v)).1 = chans (store v)) as Ech
        by (unfold compact_phase_c; repeat case_match; done).
      split; try done; cbn.
      * eapply sys_step_inv; [|exact F1]. rewrite <- Ey. by eapply ss_swap.
      * intros ck Hck. congruence.
      * by rewrite Ech.
    + split; try done; cbn. eapply sys_step_inv; [|exact F1]. rewrite <- Ey. apply ss_abort.
  - by eapply flight_stream_step.
  - by eapply flight_forwarder_step.
  - by eapply flight_loop_step.
  - by eapply flight_timer_step.
Qed.

Lemma flight_init : flight_ok svc_init.
Proof.
  split; try done; try constructor; apply sys_init_inv.
Qed.

Lemma flight_run ls v v' : svc_run ls v v' -> flight_ok v -> flight_ok v'.
Proof. induction 1; eauto using flight_step. Qed.

(** ** Every request is answered *)

(** How many loop steps are left before the create [n] is answered, with at most
    [N] streams: the phases of the flush, or of the collection still before it;
    a create that arrives during a flush waits for the next round. *)
Definition phase_rank (N : nat) (l : LoopPhase) : nat :=
  match l with
  | Idle => N + 9
  | Collecting batch notified => (N - length batch) + (if notified then 0 else 1) + 7
  | Checkpointed _ _ => 6
  | Screened _ _ => 5
  | Checked _ _ => 4
  | Replayed _ _ _ => 3
  | Registered _ => 2
  | Panicked => 0
  end.

Definition next_round (l : LoopPhase) : bool := match l with Idle | Collecting _ _ => false | _ => true end.

Definition rank (N n : nat) (v : Svc) : nat :=
  phase_rank N (sv_loop v)
  + (if next_round (sv_loop v) && bool_decide (n ∈ gc_event_tx <$> sv_queue v) then N + 10 else 0).

Lemma rank_bound N n v : (rank N n v <= N + 16 + N)%nat.
Proof.
  unfold rank, phase_rank. destruct (sv_loop v) as [|b []| | | | | |]; cbn [next_round andb]; try lia;
    destruct (bool_decide _); lia.
Qed.

Definition of_loop (l : Label) : bool := match l with LoopTask | TimerTask => true | _ => false end.

(** A flush step leaves the creates it does not answer to a later phase. *)
Lemma rank_flush N n v v' :
  next_round (sv_loop v) = true -> sv_queue v' = sv_queue v ->
  (sv_loop v' = Idle \/ next_round (sv_loop v') = true /\ phase_rank N (sv_loop v') < phase_rank N (sv_loop v))%nat ->
  n ∉ outstanding v' \/ (rank N n v' < rank N n v)%nat.
Proof.
  intros Hr Hq Hl. unfold outstanding, rank. rewrite Hr, Hq. cbn [andb].
  destruct (decide (n ∈ gc_event_tx <$> sv_queue v)) as [Hn|Hn].
  - right. rewrite bool_decide_eq_true_2 by done. destruct Hl as [->|[-> Hl]]; cbn; [|lia].
    destruct (sv_loop v); cbn in *; lia || done.
  - rewrite bool_decide_eq_false_2 by done. destruct Hl as [->|[Hl1 Hl2]].
    + left. cbn. by rewrite app_nil_r.
    + right. rewrite andb_false_r, Nat.add_0_r. lia.
Qed.

Lemma rank_loop N n v v' :
  flight_ok v -> (length (sv_streams v) <= N)%nat -> loop_step v = Some v' ->
  n ∉ outstanding v' \/ (rank N n v' < rank N n v)%nat.
Proof.
  intros F HN. pose proof (outstanding_length v F) as Hlen. unfold outstanding in Hlen. rewrite length_app, length_fmap in Hlen.
  pose proof (fl_ctxs v F) as Hcx. pose proof (fl_log v F) as Hlog. unfold loop_step.
  destruct (sv_loop v) as [|batch nf|ck batch|ck active|ck active|ck active prev|active|] eqn:El; [| | | | | | |done].
  - destruct (sv_queue v) as [|c q] eqn:Eq; [done|]. intros [= <-]. right. unfold rank. cbn. rewrite El. cbn in *. lia.
  - cbn in Hlen. rewrite length_fmap in Hlen. destruct (sv_queue v) as [|c q] eqn:Eq.
    + destruct nf; [|done]. intros [= <-]. right. unfold rank. cbn. rewrite El, Eq, bool_decide_eq_false_2 by apply not_elem_of_nil. cbn. lia.
    + intros [= <-]. right. unfold rank. cbn in *. rewrite El. cbn. rewrite length_app. cbn. destruct nf; lia.
  - destruct (admit_all (store v) batch) as [refused active]. intros [= <-].
    apply rank_flush; rewrite ?El; try done. cbn. destruct active; [by left|right; cbn; split; [done|lia]].
  - destruct (reject_duplicates_answers (store v) active Hcx) as (replies & kept & -> & _). intros [= <-].
    apply rank_flush; rewrite ?El; try done. cbn. destruct kept; [by left|right; cbn; split; [done|lia]].
  - destruct (sys_inv_durable _ (fl_sys v F)) as (rs & D).
    destruct (flush_phase1_safe ck.1 active (store v) rs D) as (prev & cs & -> & _). intros [= <-].
    apply rank_flush; rewrite ?El; try done. right. cbn. split; [done|lia].
  - destruct (flush_phase2_safe ck active prev (store v) _ Hlog eq_refl) as (cs & -> & _). intros [= <-].
    apply rank_flush; rewrite ?El; try done. right. cbn. split; [done|lia].
  - intros [= <-]. apply rank_flush; rewrite ?El; try done. by left.
Qed.

(** A create was queued, with a channel of its own. *)
Definition queued (c : GlobalCreate) (v v' : Svc) : Prop :=
  sv_queue v' = sv_queue v ++ [c] /\ gc_event_tx c = sv_fresh v
  /\ store v' = set_chans (<[sv_fresh v := mkChan [] true]> (chans (store v))) (store v).

(** The other tasks leave the loop and the creates it knows alone. *)
Lemma stream_step_frame i v v' :
  stream_step i v = Some v' ->
  sv_loop v' = sv_loop v /\ (sv_queue v' = sv_queue v \/ exists c, queued c v v').
Proof.
  unfold stream_step, read_message. intros E. repeat case_match; simplify_eq; cbn; auto; split; auto; right;
    unfold on_create in *; repeat case_match; simplify_eq; eexists; by split.
Qed.

Lemma forwarder_step_frame tick j v v' :
  forwarder_step tick j v = Some v' -> sv_loop v' = sv_loop v /\ sv_queue v' = sv_queue v.
Proof.
  unfold forwarder_step, forwarder_send, forwarder_select. intros E. repeat case_match; simplify_eq; done.
Qed.

Lemma step_frame l v v' :
  svc_step l v v' -> of_loop l = false ->
  sv_loop v' = sv_loop v /\ (sv_queue v' = sv_queue v \/ exists c, queued c v v').
Proof.
  intros [_ E] Hl. destruct l as [|i a|c| |fs|i|j tick| |]; cbn [next] in E; try done.
  - injection E as <-. auto.
  - destruct (sv_streams v !! i); [|done]. destruct (client_step a s); [|done]. injection E as <-. auto.
  - injection E as <-. auto.
  - destruct (sys_compaction _); [done|]. injection E as <-. auto.
  - destruct (sys_compaction _); [|done]. destruct (compact_phase_b _ _) as [? []]; injection E as <-; auto.
  - by eapply stream_step_frame.
  - apply forwarder_step_frame in E as []. auto.
Qed.

(** Numbers and streams are never taken back. *)
Lemma step_counts l v v' :
  svc_step l v v' -> (sv_fresh v <= sv_fresh v' /\ length (sv_streams v) <= length (sv_streams v'))%nat.
Proof.
  intros [_ E]. destruct l; cbn [next] in E; unfold stream_step, read_message, forwarder_step, forwarder_send,
    forwarder_select, loop_step, timer_step in E; repeat case_match; simplify_eq; cbn;
    rewrite ?length_insert, ?length_app; cbn; try lia.
  destruct (client_step a _); [|done]. injection E as <-. cbn. rewrite length_insert. lia.
Qed.

Lemma run_counts ls v v' :
  svc_run ls v v' -> (sv_fresh v <= sv_fresh v' /\ length (sv_streams v) <= length (sv_streams v'))%nat.
Proof. induction 1 as [|l ls v v1 v' E R IH]; [done|]. apply step_counts in E. lia. Qed.

Lemma answer_replies rs v : dom (sv_replies v) ⊆ dom (sv_replies (answer_all rs v)).
Proof.
  unfold answer_all. cbn. generalize (sv_replies v). induction rs as [|r rs IH]; intros m; cbn; [done|].
  etrans; [|apply IH]. rewrite dom_insert_L. set_solver.
Qed.

Lemma loop_step_replies v v' :
  loop_step v = Some v' \/ timer_step v = Some v' ->
  sv_streams v' = sv_streams v /\ dom (sv_replies v) ⊆ dom (sv_replies v').
Proof.
  unfold loop_step, timer_step. intros [E|E]; repeat case_match; simplify_eq; (split; [done|]); cbn;
    try done; apply (answer_replies _ v).
Qed.

(** A create that was answered is not asked for again. *)
Lemma answered_step l v v' n :
  svc_step l v v' -> flight_ok v -> (n < sv_fresh v)%nat -> n ∉ outstanding v -> n ∉ outstanding v'.
Proof.
  intros E F Hf Hn Hn'. pose proof (flight_step l v v' E F) as F'. destruct (of_loop l) eqn:Hl.
  - assert (loop_step v = Some v' \/ timer_step v = Some v') as Hs by (destruct E as [_ E]; destruct l; auto; done).
    apply loop_step_replies in Hs as [Es Hd].
    assert (n ∈ omap awaited_of (sv_streams v)) as Ha
      by (rewrite <- Es, <- (fl_perm v' F'); apply elem_of_app; by left).
    rewrite <- (fl_perm v F) in Ha. apply elem_of_app in Ha as [Ha|Ha%elem_of_elements]; [done|].
    pose proof (outstanding_NoDup v' F') as Hnd. apply NoDup_app in Hnd as (_ & Hdis & _).
    apply (Hdis n Hn'), elem_of_elements. set_solver.
  - apply step_frame in E as [El Eq]; [|done]. unfold outstanding in *. rewrite El in Hn'.
    destruct Eq as [->|(c & -> & Ec & _)] in Hn'; [done|]. rewrite fmap_app in Hn'. cbn in Hn'. rewrite Ec in Hn'. set_solver by lia.
Qed.

Lemma waiting_step l v v' n N :
  svc_step l v v' -> flight_ok v -> (n < sv_fresh v)%nat -> (length (sv_streams v) <= N)%nat ->
  n ∉ outstanding v' \/ (rank N n v' + (if of_loop l then 1 else 0) <= rank N n v)%nat.
Proof.
  intros E F Hn HN. destruct (of_loop l) eqn:Hl.
  - destruct E as [_ E]. destruct l; try done; cbn [next] in E.
    + destruct (rank_loop N n v v' F HN E); [by left|right; lia].
    + right. unfold timer_step in E. destruct (sv_loop v) as [|batch []| | | | | |] eqn:El; try done. injection E as <-.
      unfold rank. cbn. rewrite El. cbn. lia.
  - right. apply step_frame in E as [El Eq]; [|done]. unfold rank. rewrite El.
    destruct Eq as [->|(c & -> & Ec & _)]; [lia|]. rewrite fmap_app. cbn. rewrite Ec.
    assert (bool_decide (n ∈ (gc_event_tx <$> sv_queue v) ++ [sv_fresh v]) = bool_decide (n ∈ gc_event_tx <$> sv_queue v)) as ->; [|lia].
    apply bool_decide_ext. rewrite elem_of_app, list_elem_of_singleton. split; [|by left]. intros [?|?]; [done|lia].
Qed.

Lemma run_answered N n ls v v' :
  svc_run ls v v' -> flight_ok v -> (n < sv_fresh v)%nat -> (length (sv_streams v') <= N)%nat ->
  n ∉ outstanding v \/ (rank N n v < length (base.filter (fun l => of_loop l = true) ls))%nat -> n ∉ outstanding v'.
Proof.
  induction 1 as [v|l ls v v1 v' E R IH]; intros F Hn HN Hd; [destruct Hd as [|Hd]; [done|cbn in Hd; lia]|].
  pose proof (step_counts _ _ _ E) as [Hf Hs]. pose proof (run_counts _ _ _ R) as [_ Hs'].
  apply IH; [by eapply flight_step|lia|done|]. destruct Hd as [Hd|Hd]; [left; by eapply answered_step|].
  destruct (waiting_step l v v1 n N E F Hn ltac:(lia)) as [Hw|Hw]; [by left|]. right. rewrite filter_cons in Hd.
  destruct (of_loop l); [rewrite decide_True in Hd by done; cbn in Hd|rewrite decide_False in Hd by done]; lia.
Qed.

(** C21. Every watch request is answered. Take any reachable state of the service in
    which a stream waits for the answer to a create, and any way the clients, the
    store's other users and the tasks go on from there. While the create has not
    been answered the batching loop or its timer can take a step, however the queue
    is drained before the timer is looked at; the loop never panics; and by the time
    the two have taken 2N+17 steps, N being the number of streams, the create has been
    answered: its stream has taken the answer, or will find it. *)
Theorem watch_requests_answered ls0 ls v v' i st c :
  svc_run ls0 svc_init v -> sv_streams v !! i = Some st -> st_phase st = Awaiting c -> svc_run ls v v' ->
  (forall st', sv_streams v' !! i = Some st' -> st_phase st' = Awaiting c -> sv_replies v' !! cr_chan c = None ->
     is_Some (next LoopTask v') \/ is_Some (next TimerTask v'))
  /\ sv_loop v' <> Panicked
  /\ (2 * length (sv_streams v') + 17 <= length (base.filter (fun l => of_loop l = true) ls) ->
      forall st', sv_streams v' !! i = Some st' -> st_phase st' = Awaiting c -> is_Some (sv_replies v' !! cr_chan c))%nat.
Proof.
  intros R0 Hi Hp R. pose proof (flight_run _ _ _ R0 flight_init) as F. pose proof (flight_run _ _ _ R F) as F'.
  assert (forall st', sv_streams v' !! i = Some st' -> st_phase st' = Awaiting c ->
    cr_chan c ∈ outstanding v' \/ is_Some (sv_replies v' !! cr_chan c)) as Hwhere.
  { intros st' Hi' Hp'. assert (cr_chan c ∈ omap awaited_of (sv_streams v')) as Ha.
    { apply list_elem_of_omap. exists st'. split; [by eapply list_elem_of_lookup_2|]. unfold awaited_of. by rewrite Hp'. }
    rewrite <- (fl_perm v' F') in Ha. apply elem_of_app in Ha as [|Ha%elem_of_elements]; [by left|right].
    by apply elem_of_dom. }
  split; [|split; [apply (fl_loop v' F')|]].
  - intros st' Hi' Hp' Hr. destruct (Hwhere st' Hi' Hp') as [Hin|[? Hs]]; [|congruence]. unfold outstanding in Hin.
    cbn [next]. unfold loop_step, timer_step. pose proof (fl_loop v' F').
    destruct (sv_loop v') as [|b []| | | | | |]; destruct (sv_queue v'); cbn in Hin; eauto; try done;
      try (destruct (admit_all _ _)); eauto; by apply not_elem_of_nil in Hin.
  - intros Hcount st' Hi' Hp'. destruct (Hwhere st' Hi' Hp') as [Hin|]; [exfalso; revert Hin|done].
    assert (cr_chan c < sv_fresh v)%nat as Hb.
    { destruct (flight_awaited v F) as [_ Hb]. eapply Forall_forall in Hb; [exact Hb|]. apply list_elem_of_omap.
      exists st. split; [by eapply list_elem_of_lookup_2|]. unfold awaited_of. by rewrite Hp. }
    apply (run_answered (length (sv_streams v')) _ ls v); try done.
    right. pose proof (rank_bound (length (sv_streams v')) (cr_chan c) v). lia.
Qed.

End Service.

#[local] Existing Instance bitwise_crc.
#[local] Existing Instance ref_decoder.
#[local] Existing Instance merge_sort_impl.

(** One client asks for a watch on the keys from "a" to "z"; the loop serves it. *)
Definition demo_create (id : Z) : WatchRequest := CreateRequest (mkCreate (lit "a") (lit "z") 0 false [] false id).
Definition demo_ask : list Label := [ClientOpen; Client 0 (SendRequest (demo_create 0)); StreamTask 0].
Definition demo_round : list Label := [LoopTask; TimerTask; LoopTask; LoopTask; LoopTask; LoopTask; LoopTask; LoopTask].

Abbreviation after ls := (lend next ls svc_init).

Lemma demo_asks : svc_run demo_ask svc_init (after demo_ask).
Proof. apply lend_run; [by_running|vm_compute; eauto]. Qed.

Lemma demo_serves : svc_run demo_round (after demo_ask) (after (demo_ask ++ demo_round)).
Proof. apply lall_run; [by_running|vm_compute; reflexivity]. Qed.

Lemma demo_waits :
  sv_streams (after demo_ask) !! O = Some (mkStream [] false (Awaiting (mkCreated O 1 false)) [] O true).
Proof. vm_compute. reflexivity. Qed.

Lemma watch_requests_answered_witness :
  exists v v', v = after demo_ask /\ v' = after (demo_ask ++ demo_round) /\ sv_loop v' <> Panicked.
Proof.
  eexists _, _. split; [reflexivity|]. split; [reflexivity|].
  exact (proj1 (proj2 (watch_requests_answered _ _ _ _ _ _ _ demo_asks demo_waits eq_refl demo_serves))).
Defined.

End WatchServiceProps.
