(* ===== verification/WatchFeed.v ===== *)
(** * What a watching client receives

    The second invariant of the task system of [WatchService]: each client stream
    carries, per create, the answer to it and then the events of its channel, in
    order; and a refused create gets nothing after its refusal. *)
From S2P Require Import Prelude Varint KvCodec Wire Crc WalRecord Proto Range SortKvs State Store.
From S2P Require Import Historical Txn Recovery Background System Replay Durability HistRead Notify.
From S2P Require Import WatchStream WatchProps WatchService WatchServiceProps.
Local Open Scope Z_scope.

Module WatchFeed.
Import KvCodec Wire Crc Wal Proto Range SortKvs State Store Historical Txn Recovery Background System Replay
  Durability HistRead Notify WatchStream WatchProps WatchService WatchServiceProps.

(** ** What steps do to channels and watchers *)

(** Nobody has sent on the channel, and no registered watcher can. *)
Definition silent (s : StoreState) (n : nat) : Prop :=
  (n ∉ (wr_sender <$> watchers s)) /\ exists o, chans s !! n = Some (mkChan [] o).

(** Channels grow, and only those in [X] can start to. *)
Record evolves (X : list nat) (s s' : StoreState) : Prop := {
  ev_extends : extends (chans s) (chans s');
  ev_silent : forall n, n ∉ X -> silent s n -> silent s' n;
  ev_senders : forall n, n ∈ (wr_sender <$> watchers s') -> n ∈ (wr_sender <$> watchers s) \/ n ∈ X }.

Lemma evolves_refl X s : evolves X s s.
Proof. split; auto. apply extends_refl. Qed.

Lemma evolves_trans X s1 s2 s3 : evolves X s1 s2 -> evolves X s2 s3 -> evolves X s1 s3.
Proof.
  intros [E1 S1 W1] [E2 S2 W2]. split; [by eapply extends_trans|auto|].
  intros n [Hn|Hn]%W2; [auto|by right].
Qed.

(** The watchers stay, and channels outside [X] that no watcher feeds do not change. *)
Lemma evolves_chans X s cs :
  extends (chans s) cs ->
  (forall n, n ∉ X -> (n ∉ (wr_sender <$> watchers s)) -> ch_sent <$> cs !! n = ch_sent <$> chans s !! n) ->
  evolves X s (set_chans cs s).
Proof.
  intros Hx Hn. split; [done| |by left]. intros n HX [Hw (o & Ho)]. split; [done|]. cbn.
  specialize (Hn n HX Hw). rewrite Ho in Hn. destruct (cs !! n) as [[sent o']|]; cbn in Hn; [|done].
  injection Hn as ->. eauto.
Qed.

Lemma evolves_create X n s : n ∉ dom (chans s) -> evolves X s (set_chans (<[n := mkChan [] true]> (chans s)) s).
Proof.
  intros Hn. split; [by apply extends_fresh| |by left]. intros m _ [Hw (o & Ho)]. split; [done|]. exists o. cbn.
  rewrite lookup_insert_ne; [done|]. intros ->. by apply Hn, elem_of_dom.
Qed.

Lemma evolves_close X c s : evolves X s (close_chan c s).
Proof.
  apply evolves_chans; [apply grows_close|]. intros n _ _. destruct (decide (n = c)) as [->|Hne].
  - rewrite lookup_alter_eq. by destruct (chans s !! c).
  - by rewrite lookup_alter_ne.
Qed.

Lemma evolves_cancel X id s : evolves X s (cancel_watcher id s).1.
Proof.
  assert (forall n, n ∈ (wr_sender <$> watchers (cancel_watcher id s).1) -> n ∈ (wr_sender <$> watchers s)) as Hs.
  { intros n (w & -> & [_ Hw]%list_elem_of_filter)%list_elem_of_fmap. apply list_elem_of_fmap. eauto. }
  split; [apply extends_refl| |auto]. intros n _ [Hw Ho]. split; [auto|done].
Qed.

Lemma evolves_register active s : evolves (cx_event_tx <$> active) s (register_all active s).
Proof.
  assert (watchers (register_all active s) = watchers s ++ (registration <$> active)
    /\ chans (register_all active s) = chans s) as [Ew Ec]
    by (destruct (register_all_fields active s) as (? & _ & _ & ? & _); done).
  assert (wr_sender <$> (registration <$> active) = cx_event_tx <$> active) as Er by by rewrite <- list_fmap_compose.
  split.
  - rewrite Ec. apply extends_refl.
  - intros n HX [Hw Ho]. split; [|by rewrite Ec]. rewrite Ew, fmap_app, Er. set_solver.
  - intros n. rewrite Ew, fmap_app, Er. set_solver.
Qed.

Section Feed.
Context `{Crc32c} `{KvDecoder} `{UnstableSort}.

(** The channels the loop is about to write to. *)
Definition exposed (l : Label) (v : Svc) : list nat :=
  match l, sv_loop v with
  | LoopTask, Checked _ active | LoopTask, Replayed _ active _ => cx_event_tx <$> active
  | _, _ => []
  end.

Lemma evolves_feeds_only active cs s : feeds_only active (chans s) cs -> evolves (cx_event_tx <$> active) s (set_chans cs s).
Proof. intros [[Hx _] Ho]. apply evolves_chans; [done|]. intros n Hn _. by rewrite Ho. Qed.

Lemma evolves_loop v v' : flight_ok v -> loop_step v = Some v' -> evolves (exposed LoopTask v) (store v) (store v').
Proof.
  intros F. pose proof (fl_ctxs v F) as Hcx. pose proof (fl_log v F) as Hlog. unfold loop_step, exposed.
  destruct (sv_loop v) as [|batch nf|ck batch|ck active|ck active|ck active prev|active|] eqn:El; [| | | | | | |done].
  - destruct (sv_queue v); [done|]. intros [= <-]. apply evolves_refl.
  - destruct (sv_queue v); [destruct nf; [|done]|]; intros [= <-]; apply evolves_refl.
  - destruct (admit_all _ _). intros [= <-]. apply evolves_refl.
  - destruct (reject_duplicates_answers (store v) active Hcx) as (replies & kept & -> & _). intros [= <-]. apply evolves_refl.
  - destruct (sys_inv_durable _ (fl_sys v F)) as (rs & D).
    destruct (flush_phase1_safe ck.1 active (store v) rs D) as (prev & cs & -> & Hf). intros [= <-].
    by apply evolves_feeds_only.
  - destruct (flush_phase2_safe ck active prev (store v) _ Hlog eq_refl) as (cs & -> & Hf). intros [= <-].
    eapply evolves_trans; [by apply evolves_feeds_only|apply evolves_register].
  - intros [= <-]. apply evolves_refl.
Qed.

Lemma evolves_stream i v v' : flight_ok v -> stream_step i v = Some v' -> evolves [] (store v) (store v').
Proof.
  intros F E. unfold stream_step in E. destruct (sv_streams v !! i) as [st|]; [|done].
  destruct (st_phase st) as [|c|resp spawn|]; [| | |done].
  - destruct (st_in st) as [|m ms]; [destruct (st_in_closed st); [|done]; injection E as <-; apply evolves_refl|].
    injection E as <-. destruct m as [create|id| |]; cbn [read_message]; try apply evolves_refl.
    + destruct (on_create _ _ _ _ _) as [c counter]. cbn [sv_loop set_counters].
      assert (sv_fresh v ∉ dom (chans (store v))) as Hd by (rewrite (fl_chans v F), elem_of_set_seq; lia).
      destruct (sv_loop v); (apply evolves_refl || exact (evolves_create [] (sv_fresh v) (store v) Hd)).
    + apply (evolves_cancel [] id).
  - destruct (sv_replies v !! cr_chan c); [injection E as <-; apply evolves_refl|].
    destruct (sv_loop v); try done. injection E as <-. apply (evolves_close [] (cr_chan c)).
  - destruct (negb _).
    + injection E as <-. destruct spawn as [c|]; [apply (evolves_close [] (cr_chan c))|apply evolves_refl].
    + destruct (tx_room st); [|done]. injection E as <-. destruct spawn; apply evolves_refl.
Qed.

Lemma evolves_forwarder tick j v v' : forwarder_step tick j v = Some v' -> evolves [] (store v) (store v').
Proof.
  unfold forwarder_step, forwarder_send, forwarder_select. destruct (sv_forwarders v !! j) as [f|]; [|done].
  destruct (fw_done f); [done|]. destruct (fw_sending f) as [resp|].
  - destruct (sv_streams v !! fw_stream f) as [st|]; [|done]. destruct (negb _).
    + intros [= <-]. eapply evolves_trans; [apply evolves_cancel|apply evolves_close].
    + destruct (tx_room st); [|done]. intros [= <-]. apply evolves_refl.
  - destruct (chans (store v) !! _) as [ch|]; [|done]. destruct (ch_sent ch !! _); [intros [= <-]; apply evolves_refl|].
    destruct (negb _); [intros [= <-]; apply evolves_close|]. destruct (tick && _); [|done]. intros [= <-]. apply evolves_refl.
Qed.

Lemma step_evolves l v v' : svc_step l v v' -> flight_ok v -> evolves (exposed l v) (store v) (store v').
Proof.
  intros [Hok E] F. assert (forall s', evolves [] (store v) s' -> evolves (exposed l v) (store v) s') as Hsub.
  { intros s' [Hx Hs Hw]. split; [done| |]; [intros n _; apply Hs, not_elem_of_nil|].
    intros n [?|?%not_elem_of_nil]%Hw; [by left|done]. }
  destruct l as [|i a|c| |fs|i|j tick| |]; cbn [next label_ok] in *.
  - injection E as <-. apply evolves_refl.
  - destruct (sv_streams v !! i); [|done]. destruct (client_step a s); [|done]. injection E as <-. apply evolves_refl.
  - injection E as <-. destruct Hok as [Hc Hq].
    destruct (command_effect c _ _ _ (fl_sys v F) eq_refl Hc Hq (fl_log v F)) as (_ & _ & evs & Ew & Ec).
    fold (store v) in Ew, Ec. split; cbn [store set_store sv_sys sys_store].
    + rewrite Ec. apply grows_notify_events.
    + intros n _ [Hw (o & Ho)]. split; [by rewrite Ew|]. exists o. by rewrite Ec, notify_events_other.
    + intros n. rewrite Ew. by left.
  - destruct (sys_compaction _); [done|]. injection E as <-. apply evolves_refl.
  - destruct (sys_compaction _) as [sn|]; [|done]. destruct (compact_phase_b _ _) as [target []]; injection E as <-; [|apply evolves_refl].
    assert (chans (compact_phase_c sn target (store v)).1 = chans (store v)
      /\ watchers (compact_phase_c sn target (store v)).1 = watchers (store v)) as [Ec Ew]
      by (unfold compact_phase_c; repeat case_match; done).
    split; cbn; [rewrite Ec; apply extends_refl| |rewrite Ew; by left].
    intros n _ [Hw Ho]. split; cbn; [by rewrite Ew|by rewrite Ec].
  - by apply Hsub, (evolves_stream i).
  - by apply Hsub, (evolves_forwarder tick j).
  - by apply evolves_loop.
  - unfold timer_step in E. repeat case_match; simplify_eq. apply evolves_refl.
Qed.

(** ** The invariant *)

(** The responses on a stream that answer or come from a create. *)
Definition answers (n : nat) (out : list (option nat * WatchResponse)) : list WatchResponse :=
  (base.filter (fun e => e.1 = Some n) out).*2.
Definition received (v : Svc) (i n : nat) : list WatchResponse :=
  match sv_streams v !! i with Some st => answers n (st_out st) | None => [] end.

Definition owner (f : Forwarder) : nat * nat := (fw_stream f, fw_chan f).

(** A refused create: nothing was or will be sent on its channel. *)
Definition refused (v : Svc) (n : nat) : Prop :=
  silent (store v) n /\ (n < sv_fresh v)%nat /\ (n ∉ outstanding v).

(** The answer to a create: [created] with its id, or a refusal. *)
Definition answer_ok (v : Svc) (c : Created) (r : WatchResponse) : Prop :=
  wp_events r = [] /\ (wp_created r = true /\ wp_canceled r = false /\ wp_watch_id r = cr_watch_id c
                      \/ refusal r /\ refused v (cr_chan c)).

(** Requests and contexts carry the id their stream remembers. *)
Record agrees (v : Svc) (c : Created) : Prop := {
  ag_create : forall g, g ∈ sv_queue v ++ loop_creates (sv_loop v) -> gc_event_tx g = cr_chan c -> gc_watch_id g = cr_watch_id c;
  ag_ctx : forall x, x ∈ loop_ctxs (sv_loop v) -> cx_event_tx x = cr_chan c -> cx_watch_id x = cr_watch_id c;
  ag_reply : forall r, sv_replies v !! cr_chan c = Some r -> answer_ok v c r }.

Definition phase_ok (v : Svc) (p : StreamPhase) : Prop :=
  match p with
  | Awaiting c => agrees v c
  | Sending r (Some c) => answer_ok v c r
  | _ => True
  end.

(** An event or a progress notification of the watch. *)
Definition from_watch (id : Z) (r : WatchResponse) : Prop :=
  wp_watch_id r = id /\ wp_created r = false /\ wp_canceled r = false.

Definition events_of (rs : list WatchResponse) : list Event := concat (wp_events <$> rs).

(** What was sent for a forwarding task's create: the answer, and the events of
    the channel up to where the task is. *)
Record forwarder_ok (v : Svc) (f : Forwarder) (first : WatchResponse) (rest : list WatchResponse) (ch : Channel) : Prop := {
  fo_received : received v (fw_stream f) (fw_chan f) = first :: rest;
  fo_chan : chans (store v) !! fw_chan f = Some ch;
  fo_first : answer_ok v (fw_create f) first;
  fo_rest : Forall (from_watch (cr_watch_id (fw_create f))) (rest ++ option_list (fw_sending f));
  fo_refused : refusal first -> rest = [] /\ fw_sending f = None;
  fo_events : if fw_done f
              then exists k, (k <= length (ch_sent ch))%nat /\ events_of rest = event_to_proto <$> take k (ch_sent ch)
              else (fw_received f <= length (ch_sent ch))%nat
                   /\ events_of (rest ++ option_list (fw_sending f)) = event_to_proto <$> take (fw_received f) (ch_sent ch) }.

(** The creates whose replay has not started. *)
Definition early (v : Svc) : list nat :=
  (gc_event_tx <$> sv_queue v)
  ++ match sv_loop v with Replayed _ _ _ | Registered _ => [] | l => loop_senders l end.

Record feed_ok (v : Svc) : Prop := {
  fd_early : forall n, n ∈ early v -> silent (store v) n;
  fd_senders : forall n, n ∈ (wr_sender <$> watchers (store v)) -> (n < sv_fresh v)%nat;
  fd_owned : forall i n, received v i n <> [] -> (i, n) ∈ (owner <$> sv_forwarders v);
  fd_phases : forall i st, sv_streams v !! i = Some st -> phase_ok v (st_phase st);
  fd_forwarders : forall f, f ∈ sv_forwarders v -> exists first rest ch, forwarder_ok v f first rest ch }.

(** ** Preservation *)

Lemma exposed_outstanding l v n : n ∈ exposed l v -> n ∈ outstanding v.
Proof.
  unfold exposed, outstanding. intros Hn. apply elem_of_app. right.
  destruct l, (sv_loop v); cbn in *; by try apply not_elem_of_nil in Hn.
Qed.

Lemma refused_step l v v' n : svc_step l v v' -> flight_ok v -> refused v n -> refused v' n.
Proof.
  intros E F (Hs & Hf & Ho). pose proof (step_counts _ _ _ E) as [Hc _].
  split; [|split; [lia|by eapply answered_step]]. eapply ev_silent; [by eapply step_evolves| |done].
  by intros ?%exposed_outstanding.
Qed.

Lemma answer_ok_step l v v' c r : svc_step l v v' -> flight_ok v -> answer_ok v c r -> answer_ok v' c r.
Proof. intros E F [He [Hc|[Hr Hf]]]; split; auto. right. split; [done|]. by eapply refused_step. Qed.

(** Early creates come from early creates, or have just been made. *)
Lemma early_loop v v' n :
  flight_ok v -> loop_step v = Some v' -> n ∈ early v' -> n ∈ early v /\ n ∉ exposed LoopTask v.
Proof.
  intros F. pose proof (outstanding_NoDup v F) as Hnd. apply NoDup_app in Hnd as [Hnd _]. unfold outstanding in Hnd.
  apply NoDup_app in Hnd as (_ & Hdis & _). pose proof (fl_ctxs v F) as Hcx. pose proof (fl_creates v F) as Hcr.
  pose proof (fl_log v F) as Hlog. apply Forall_app in Hcr as [_ Hcr]. unfold loop_step, exposed, early.
  destruct (sv_loop v) as [|batch nf|ck batch|ck active|ck active|ck active prev|active|] eqn:El; cbn [loop_senders] in *; [| | | | | | |done].
  - destruct (sv_queue v) as [|c q]; [done|]. intros [= <-]. cbn. set_solver.
  - destruct (sv_queue v) as [|c q] eqn:Eq; [destruct nf; [|done]|]; intros [= <-]; cbn; rewrite ?Eq, ?fmap_app; set_solver.
  - destruct (admit_all (store v) batch) as [refs active] eqn:Ea. intros [= <-]. cbn.
    destruct (admit_all_answers _ _ _ _ Ea Hcr) as (Hp & _). rewrite Hp. destruct active; cbn; set_solver.
  - destruct (reject_duplicates_answers (store v) active Hcx) as (replies & kept & -> & Hp & _). intros [= <-]. cbn.
    rewrite Hp. destruct kept; cbn; set_solver.
  - destruct (sys_inv_durable _ (fl_sys v F)) as (rs & D).
    destruct (flush_phase1_safe ck.1 active (store v) rs D) as (prev & cs & -> & _). intros [= <-]. cbn.
    rewrite app_nil_r. intros Hn. split; [set_solver|by apply Hdis].
  - destruct (flush_phase2_safe ck active prev (store v) _ Hlog eq_refl) as (cs & -> & _). intros [= <-]. cbn.
    rewrite app_nil_r. intros Hn. split; [set_solver|by apply Hdis].
  - intros [= <-]. cbn. set_solver.
Qed.

Lemma early_step l v v' n :
  svc_step l v v' -> flight_ok v -> feed_ok v -> n ∈ early v' -> silent (store v') n.
Proof.
  intros E F D Hn. pose proof (step_evolves l v v' E F) as V.
  assert (n ∈ early v -> n ∉ exposed l v -> silent (store v') n) as Hold
    by (intros Hv Hx; apply (ev_silent _ _ _ V); [done|by apply (fd_early v D)]).
  destruct (of_loop l) eqn:Hl.
  - destruct E as [_ E]. destruct l; try done; cbn [next] in E.
    + destruct (early_loop v v' n F E Hn). auto.
    + unfold timer_step in E. destruct (sv_loop v) as [|b []| | | | | |] eqn:El; try done. injection E as <-.
      apply Hold; [|apply not_elem_of_nil]. unfold early in *. by rewrite El.
  - assert (exposed l v = []) as Ex by (by destruct l, (sv_loop v)). rewrite Ex in Hold.
    pose proof (step_frame l v v' E Hl) as [El Eq]. unfold early in Hn, Hold. rewrite El in Hn.
    destruct Eq as [Eq|(c & Eq & Ec & Es)]; [rewrite Eq in Hn; by apply Hold, not_elem_of_nil|].
    rewrite Eq, fmap_app in Hn. cbn in Hn. rewrite Ec in Hn.
    assert (n = sv_fresh v \/ n ∈ (gc_event_tx <$> sv_queue v)
      ++ match sv_loop v with Replayed _ _ _ | Registered _ => [] | l => loop_senders l end) as [->|Hn'] by set_solver.
    + rewrite Es. split; [|exists true; apply lookup_insert_eq]. cbn. intros Hw%(fd_senders v D). lia.
    + by apply Hold, not_elem_of_nil.
Qed.

Lemma replies_below v n r : flight_ok v -> sv_replies v !! n = Some r -> (n < sv_fresh v)%nat /\ n ∉ outstanding v.
Proof.
  intros F Hr%elem_of_dom_2%elem_of_elements. pose proof (outstanding_NoDup v F) as Hnd.
  destruct (flight_awaited v F) as [_ Hb]. rewrite <- (fl_perm v F) in Hb. apply Forall_app in Hb as [_ Hb].
  eapply Forall_forall in Hb; [|exact Hr]. split; [done|]. apply NoDup_app in Hnd as (_ & Hdis & _). intros Ho. by apply (Hdis n).
Qed.

Lemma answer_lookup rs v n r :
  sv_replies (answer_all rs v) !! n = Some r -> (n, r) ∈ rs \/ sv_replies v !! n = Some r.
Proof.
  unfold answer_all. cbn. generalize (sv_replies v). induction rs as [|[n' r'] rs IH]; intros m; cbn; [by right|].
  intros [?|E]%IH; [left; by right|]. apply lookup_insert_Some in E as [[-> ->]|[_ ?]]; [left; left|by right].
Qed.

(** A refusal during the flush. *)
Lemma refusal_ok v' c r :
  flight_ok v' -> silent (store v') (cr_chan c) -> sv_replies v' !! cr_chan c = Some r -> refusal r -> answer_ok v' c r.
Proof.
  intros F Hs Hr Hf. destruct (replies_below v' _ _ F Hr). split; [apply Hf|]. by right.
Qed.

(** A reply the flush gives: a refusal of a create whose replay has not started,
    or a confirmation. *)
Definition reply_ok (v : Svc) (c : Created) (r : nat * WatchResponse) : Prop :=
  refusal r.2 /\ r.1 ∈ early v
  \/ wp_events r.2 = [] /\ wp_created r.2 = true /\ wp_canceled r.2 = false
     /\ (r.1 = cr_chan c -> wp_watch_id r.2 = cr_watch_id c).

Lemma refusals_early v c (rs : list (nat * WatchResponse)) :
  Forall (fun r => refusal r.2) rs -> (forall n, n ∈ rs.*1 -> n ∈ early v) -> Forall (reply_ok v c) rs.
Proof.
  intros Hf He. apply Forall_forall. intros [n r] Hin. eapply Forall_forall in Hf; [|exact Hin]. left. split; [done|].
  apply He, list_elem_of_fmap. by exists (n, r).
Qed.

Lemma agrees_flush v v' c rs :
  svc_step LoopTask v v' -> flight_ok v -> feed_ok v -> agrees v c ->
  sv_queue v' = sv_queue v -> sv_replies v' = sv_replies (answer_all rs v) -> exposed LoopTask v = [] ->
  Forall (reply_ok v c) rs ->
  (forall g, g ∈ loop_creates (sv_loop v') -> g ∈ loop_creates (sv_loop v)) ->
  (forall x, x ∈ loop_ctxs (sv_loop v') -> cx_event_tx x = cr_chan c -> cx_watch_id x = cr_watch_id c) ->
  agrees v' c.
Proof.
  intros E F D [A1 A2 A3] Eq Er Ex Hrs Hg Hx. pose proof (flight_step _ _ _ E F) as F'. split; [|done|].
  - intros g. rewrite Eq. intros [?|?]%elem_of_app; apply A1, elem_of_app; auto.
  - intros r Hr. pose proof Hr as Hr0. rewrite Er in Hr. apply answer_lookup in Hr as [Hin|Hr].
    + eapply Forall_forall in Hrs; [|exact Hin]. cbn in Hrs. destruct Hrs as [[Hf He]|(? & ? & ? & Hid)].
      * apply refusal_ok; try done. eapply ev_silent; [by eapply step_evolves| |by apply (fd_early v D)].
        rewrite Ex. apply not_elem_of_nil.
      * split; [done|]. left. auto.
    + eapply answer_ok_step; eauto.
Qed.

Lemma agrees_loop v v' c :
  svc_step LoopTask v v' -> flight_ok v -> feed_ok v -> agrees v c -> agrees v' c.
Proof.
  intros E F D A. pose proof A as [A1 A2 A3]. pose proof E as [_ El]. cbn [next] in El. unfold loop_step in El.
  pose proof (fl_ctxs v F) as Hcx. pose proof (fl_log v F) as Hlog. pose proof (fl_creates v F) as Hcr.
  apply Forall_app in Hcr as [_ Hcr].
  assert (forall v'', svc_step LoopTask v v'' -> sv_replies v'' = sv_replies v -> forall r,
    sv_replies v'' !! cr_chan c = Some r -> answer_ok v'' c r) as Hsame
    by (intros v'' E'' Er r Hr; rewrite Er in Hr; eapply answer_ok_step; eauto).
  destruct (sv_loop v) as [|batch nf|ck batch|ck active|ck active|ck active prev|active|] eqn:Ep; [| | | | | | |done].
  - destruct (sv_queue v) as [|g q] eqn:Eq; [done|]. injection El as <-.
    split; [|by intros x ?%not_elem_of_nil|by apply Hsame]. cbn in *. intros g' Hg. apply A1. set_solver.
  - destruct (sv_queue v) as [|g q] eqn:Eq.
    + destruct nf; [|done]. injection El as <-. split; [|by intros x ?%not_elem_of_nil|by apply Hsame]. cbn. by rewrite Eq.
    + injection El as <-. split; [|by intros x ?%not_elem_of_nil|by apply Hsame]. cbn in *. intros g' Hg. apply A1. set_solver.
  - destruct (admit_all (store v) batch) as [refs active] eqn:Ea. injection El as <-.
    destruct (admit_all_answers _ _ _ _ Ea Hcr) as (Hp & Ha & Hf).
    apply (agrees_flush v _ c refs); try done; cbn.
    + unfold exposed. by rewrite Ep.
    + apply (refusals_early v); [done|]. intros n Hn. unfold early. rewrite Ep. cbn [loop_senders]. rewrite Hp. set_solver.
    + destruct active; intros g ?%not_elem_of_nil; done.
    + intros x Hin Hxe. assert (x ∈ active) as Hin' by by destruct active.
      eapply Forall_forall in Ha; [|exact Hin']. destruct Ha as (_ & g & Hg & Eg & <-). apply A1; [|congruence].
      apply elem_of_app. by right.
  - destruct (reject_duplicates_answers (store v) active Hcx) as (replies & kept & Hd & Hp & Hin & Hf).
    rewrite Hd in El. injection El as <-. apply (agrees_flush v _ c replies); try done; cbn.
    + unfold exposed. by rewrite Ep.
    + apply (refusals_early v); [done|]. intros n Hn. unfold early. rewrite Ep. cbn [loop_senders]. rewrite Hp. set_solver.
    + destruct kept; intros g ?%not_elem_of_nil; done.
    + intros x Hx Hxe. assert (x ∈ kept) as Hx' by by destruct kept. apply A2; [|done]. by apply Hin.
  - destruct (sys_inv_durable _ (fl_sys v F)) as (rs & Du).
    destruct (flush_phase1_safe ck.1 active (store v) rs Du) as (prev & cs & Hph & _). rewrite Hph in El. injection El as <-.
    split; [exact A1|exact A2|by apply Hsame].
  - destruct (flush_phase2_safe ck active prev (store v) _ Hlog eq_refl) as (cs & Hph & _). rewrite Hph in El. injection El as <-.
    split; [exact A1|exact A2|by apply Hsame].
  - injection El as <-. apply (agrees_flush v _ c (omap (created_response (store v)) active)); try done; cbn.
    + unfold exposed. by rewrite Ep.
    + apply Forall_forall. intros [n r] (x & Hx & Hr)%list_elem_of_omap. right. unfold created_response in Hr.
      eapply Forall_forall in Hcx; [|exact Hx]. rewrite Hcx in Hr. cbn in Hr. injection Hr as <- <-. cbn.
      do 3 (split; [done|]). intros En. by apply A2.
    + intros g ?%not_elem_of_nil; done.
    + intros x ?%not_elem_of_nil; done.
Qed.

(** The other tasks only take replies away. *)
Lemma step_replies l v v' n r :
  svc_step l v v' -> of_loop l = false -> sv_replies v' !! n = Some r -> sv_replies v !! n = Some r.
Proof.
  intros [_ E] Hl. destruct l; try done; cbn [next] in E; unfold stream_step, read_message, forwarder_step, forwarder_send,
    forwarder_select in E; repeat case_match; simplify_eq; cbn; try done; [|by intros [_ ?]%lookup_delete_Some].
  destruct (client_step a _); [|done]. injection E as <-. done.
Qed.

Lemma agrees_step l v v' c :
  svc_step l v v' -> flight_ok v -> feed_ok v -> (cr_chan c < sv_fresh v)%nat -> agrees v c -> agrees v' c.
Proof.
  intros E F D Hc A. destruct (of_loop l) eqn:Hl.
  - destruct l; try done; [by apply (agrees_loop v)|]. pose proof A as [A1 A2 A3]. pose proof E as [_ Et].
    cbn [next] in Et. unfold timer_step in Et. destruct (sv_loop v) as [|b []| | | | | |] eqn:El; try done.
    injection Et as <-. split; [done|done|]. intros r Hr. by eapply answer_ok_step, A3.
  - pose proof A as [A1 A2 A3]. destruct (step_frame l v v' E Hl) as [El Eq]. split; rewrite ?El; [|done|].
    + intros g Hg Ec. destruct Eq as [Eq|(g0 & Eq & Eg & _)]; rewrite Eq in Hg; [by apply A1|].
      rewrite <- app_assoc, !elem_of_app, list_elem_of_singleton in Hg. destruct Hg as [Hg|[->|Hg]]; [| |];
        [|lia|]; apply A1; try done; apply elem_of_app; auto.
    + intros r Hr. eapply answer_ok_step; [done|done|]. by eapply A3, step_replies.
Qed.

Lemma senders_step l v v' n :
  svc_step l v v' -> flight_ok v -> feed_ok v -> n ∈ (wr_sender <$> watchers (store v')) -> (n < sv_fresh v')%nat.
Proof.
  intros E F D Hn. pose proof (step_counts _ _ _ E) as [Hc _].
  apply (ev_senders _ _ _ (step_evolves l v v' E F)) in Hn as [Hn|Hn%exposed_outstanding].
  - apply (fd_senders v D) in Hn. lia.
  - apply (outstanding_below v n F) in Hn. lia.
Qed.

Lemma phase_below v i st c :
  flight_ok v -> sv_streams v !! i = Some st -> serving_of st = Some (cr_chan c) -> (cr_chan c < sv_fresh v)%nat.
Proof.
  intros F Hi Hs. pose proof (fl_below v F) as Hb. apply Forall_app in Hb as [Hb _].
  eapply Forall_forall in Hb; [exact Hb|]. apply list_elem_of_omap. exists st. split; [by eapply list_elem_of_lookup_2|done].
Qed.

(** A stream that stays in its phase. *)
Lemma phase_step l v v' i st :
  svc_step l v v' -> flight_ok v -> feed_ok v -> sv_streams v !! i = Some st -> phase_ok v' (st_phase st).
Proof.
  intros E F D Hi. pose proof (fd_phases v D i st Hi) as P. destruct (st_phase st) as [|c|r [c|]|] eqn:Hp; try done; cbn in *.
  - eapply agrees_step; try done. eapply (phase_below v i st); try done. unfold serving_of. by rewrite Hp.
  - by eapply answer_ok_step.
Qed.

Lemma take_extend {A} k (l l' : list A) : (k <= length l)%nat -> take k (l ++ l') = take k l.
Proof. intros. rewrite take_app_le; done. Qed.

(** A forwarding task and what it sent are not affected by the others. *)
Lemma forwarder_step_ok l v v' f first rest ch :
  svc_step l v v' -> flight_ok v -> forwarder_ok v f first rest ch ->
  received v' (fw_stream f) (fw_chan f) = received v (fw_stream f) (fw_chan f) ->
  exists ch', forwarder_ok v' f first rest ch'.
Proof.
  intros E F [O1 O2 O3 O4 O5 O6] Hr. destruct (ev_extends _ _ _ (step_evolves l v v' E F) _ _ O2) as (evs & o & Ech).
  exists (mkChan (ch_sent ch ++ evs) o). split; try done.
  - by rewrite Hr.
  - by eapply answer_ok_step.
  - cbn. rewrite length_app. destruct (fw_done f).
    + destruct O6 as (k & Hk & Hev). exists k. split; [lia|]. by rewrite take_extend.
    + destruct O6 as [Hk Hev]. split; [lia|]. by rewrite take_extend.
Qed.

Lemma answers_app n out out' : answers n (out ++ out') = answers n out ++ answers n out'.
Proof. unfold answers. by rewrite filter_app, fmap_app. Qed.

Lemma received_stream v v' i st st' es j n :
  sv_streams v !! i = Some st -> sv_streams v' = <[i := st']> (sv_streams v) -> st_out st' = st_out st ++ es ->
  received v' j n = received v j n ++ (if decide (j = i) then answers n es else []).
Proof.
  intros Hi Hs Ho. unfold received. rewrite Hs. destruct (decide (j = i)) as [->|Hne].
  - rewrite list_lookup_insert_eq by by eapply lookup_lt_Some. by rewrite Hi, Ho, answers_app.
  - rewrite list_lookup_insert_ne by done. by rewrite app_nil_r.
Qed.

Lemma streams_insert {A} (l : list A) i x x' j y :
  l !! i = Some x -> <[i := x']> l !! j = Some y -> j = i /\ y = x' \/ l !! j = Some y.
Proof. intros Hi Hy. apply list_lookup_insert_Some in Hy as [(-> & -> & _)|[_ ?]]; auto. Qed.

Lemma answers_none n es : Forall (fun e => e.1 = None) es -> answers n es = [].
Proof.
  unfold answers. induction 1 as [|[m r] es Hm He IH]; [done|]. cbn in Hm. subst m.
  rewrite filter_cons, decide_False; done.
Qed.

Lemma answers_one n m r : answers n [(m, r)] = if decide (m = Some n) then [r] else [].
Proof. unfold answers. rewrite filter_cons. cbn. by destruct (decide (m = Some n)). Qed.

(** Steps that send nothing to clients. *)
Lemma feed_frame l v v' :
  svc_step l v v' -> flight_ok v -> feed_ok v ->
  (forall i n, received v' i n = received v i n) -> sv_forwarders v' = sv_forwarders v ->
  (forall i st', sv_streams v' !! i = Some st' ->
     (exists st, sv_streams v !! i = Some st /\ st_phase st = st_phase st') \/ phase_ok v' (st_phase st')) ->
  feed_ok v'.
Proof.
  intros E F D Hr Hf Hp. split.
  - intros n. by eapply early_step.
  - intros n. by eapply senders_step.
  - intros i n. rewrite Hr, Hf. apply (fd_owned v D).
  - intros i st' Hi. destruct (Hp i st' Hi) as [(st & Hst & <-)|]; [|done]. by eapply phase_step.
  - intros f. rewrite Hf. intros (first & rest & ch & O)%(fd_forwarders v D).
    destruct (forwarder_step_ok l v v' f first rest ch E F O) as [ch' O']; [apply Hr|]. eauto.
Qed.

(** A step of the forwarding task [f]. *)
Lemma feed_forwarder l v v' j f f' :
  svc_step l v v' -> flight_ok v -> feed_ok v ->
  sv_forwarders v !! j = Some f -> sv_forwarders v' = <[j := f']> (sv_forwarders v) -> owner f' = owner f ->
  (forall i n, (i, n) <> owner f -> received v' i n = received v i n) ->
  (forall i st', sv_streams v' !! i = Some st' -> exists st, sv_streams v !! i = Some st /\ st_phase st = st_phase st') ->
  (exists first rest ch, forwarder_ok v' f' first rest ch) ->
  feed_ok v'.
Proof.
  intros E F D Hj Hf Ho Hr Hp Hok. assert (owner <$> sv_forwarders v' = owner <$> sv_forwarders v) as Eo.
  { rewrite Hf, list_fmap_insert, list_insert_id; [done|]. rewrite list_lookup_fmap, Hj. cbn. by rewrite Ho. }
  split.
  - intros n. by eapply early_step.
  - intros n. by eapply senders_step.
  - intros i n Hn. rewrite Eo. destruct (decide ((i, n) = owner f)) as [->|Hne].
    + apply list_elem_of_fmap. exists f. split; [done|by eapply list_elem_of_lookup_2].
    + apply (fd_owned v D). by rewrite <- Hr.
  - intros i st' Hi. destruct (Hp i st' Hi) as (st & Hst & <-). by eapply phase_step.
  - intros g Hg. rewrite Hf in Hg. apply list_elem_of_lookup in Hg as [k Hk]. destruct (decide (k = j)) as [->|Hne].
    + rewrite list_lookup_insert_eq in Hk by by eapply lookup_lt_Some. by injection Hk as <-.
    + rewrite list_lookup_insert_ne in Hk by done.
      destruct (fd_forwarders v D g) as (first & rest & ch & O); [by eapply list_elem_of_lookup_2|].
      destruct (forwarder_step_ok l v v' g first rest ch E F O) as [ch' O']; [|by eauto]. apply Hr. intros [= _ Ec].
      pose proof (fl_nodup v F) as Hn. apply NoDup_app in Hn as (_ & _ & Hn). apply Hne.
      eapply NoDup_lookup; [exact Hn|rewrite list_lookup_fmap, Hk; done|]. rewrite list_lookup_fmap, Hj. cbn. by rewrite Ec.
Qed.

(** The stream sends the answer and starts the forwarding task. *)
Lemma feed_spawn l v v' i st resp c :
  svc_step l v v' -> flight_ok v -> feed_ok v -> sv_streams v !! i = Some st -> st_phase st = Sending resp (Some c) ->
  sv_forwarders v' = sv_forwarders v ++ [mkFw i c O None false] -> store v' = store v ->
  (forall j n, received v' j n = received v j n ++ (if decide (j = i /\ n = cr_chan c) then [resp] else [])) ->
  (forall j st', sv_streams v' !! j = Some st' ->
     (exists st, sv_streams v !! j = Some st /\ st_phase st = st_phase st') \/ st_phase st' = Reading) ->
  feed_ok v'.
Proof.
  intros E F D Hi Hp Hf Hs Hr Hph.
  assert (forall f, f ∈ sv_forwarders v -> fw_chan f <> cr_chan c) as Hnew.
  { intros f Hin Ec. pose proof (fl_nodup v F) as Hn. apply NoDup_app in Hn as (_ & Hdis & _).
    apply (Hdis (cr_chan c)); [|apply list_elem_of_fmap; by exists f]. apply list_elem_of_omap. exists st.
    split; [by eapply list_elem_of_lookup_2|]. unfold serving_of. by rewrite Hp. }
  split.
  - intros n. by eapply early_step.
  - intros n. by eapply senders_step.
  - intros j n. rewrite Hr, Hf, fmap_app. intros Hne. apply elem_of_app. destruct (decide _) as [[-> ->]|_].
    + right. left.
    + left. rewrite app_nil_r in Hne. by apply (fd_owned v D).
  - intros j st' Hj. destruct (Hph j st' Hj) as [(st0 & Hst & <-)| ->]; [|done]. by eapply phase_step.
  - intros f. rewrite Hf. intros [Hin|Hin]%elem_of_app; [|apply list_elem_of_singleton in Hin as ->].
    + destruct (fd_forwarders v D f Hin) as (first & rest & ch & O).
      destruct (forwarder_step_ok l v v' f first rest ch E F O) as [ch' O']; [|by eauto].
      rewrite Hr, decide_False, app_nil_r; [done|]. intros [_ Ec]. by apply (Hnew f).
    + pose proof (fd_phases v D i st Hi) as P. rewrite Hp in P. cbn in P.
      assert (received v i (cr_chan c) = []) as Hempty.
      { destruct (received v i (cr_chan c)) eqn:Er; [done|]. exfalso.
        assert ((i, cr_chan c) ∈ (owner <$> sv_forwarders v)) as (f & [= _ Ec] & Hin)%list_elem_of_fmap
          by (apply (fd_owned v D); by rewrite Er). by apply (Hnew f Hin). }
      assert (is_Some (chans (store v) !! cr_chan c)) as [ch Hch].
      { apply elem_of_dom. rewrite (fl_chans v F), elem_of_set_seq. split; [lia|].
        eapply (phase_below v i st); try done. unfold serving_of. by rewrite Hp. }
      exists resp, [], ch. split; unfold fw_chan; cbn; try done; [| |by eapply answer_ok_step|by split; [lia|]].
      * rewrite Hr, Hempty, decide_True; done.
      * by rewrite Hs.
Qed.

(** One stream changes phase and sends nothing that belongs to a create. *)
Lemma feed_stream l v v' i st st' es :
  svc_step l v v' -> flight_ok v -> feed_ok v -> sv_streams v !! i = Some st ->
  sv_streams v' = <[i := st']> (sv_streams v) -> sv_forwarders v' = sv_forwarders v ->
  st_out st' = st_out st ++ es -> Forall (fun e => e.1 = None) es ->
  st_phase st' = st_phase st \/ phase_ok v' (st_phase st') -> feed_ok v'.
Proof.
  intros E F D Hi Hs Hf Ho He Hp. apply (feed_frame l v v' E F D); [|done|].
  - intros j n. rewrite (received_stream v v' i st st' es j n Hi Hs Ho).
    rewrite answers_none by done. by destruct (decide _); rewrite app_nil_r.
  - intros j st'' Hj. rewrite Hs in Hj. destruct (streams_insert _ i st st' j st'' Hi Hj) as [[-> ->]|Hj'].
    + destruct Hp as [Hp|]; [left; exists st; by rewrite Hp|by right].
    + left. by exists st''.
Qed.

Lemma agrees_new v v' i st c counter create :
  let n := sv_fresh v in
  flight_ok v -> sv_streams v !! i = Some st ->
  on_create (store v) (sv_next_watch_id v) n n create = (c, counter) ->
  sv_queue v' = sv_queue v ++ [c] -> sv_loop v' = sv_loop v -> sv_replies v' = sv_replies v ->
  agrees v' (mkCreated n (gc_watch_id c) (wc_progress_notify create)).
Proof.
  intros n F Hi Hc Hq Hl Hr.
  assert (forall m, m ∈ outstanding v -> m <> n) as Hne by (intros m ?%(outstanding_below v m F); unfold n; lia).
  unfold outstanding in Hne. split; cbn.
  - intros g Hg Eg. rewrite Hq, Hl, <- app_assoc in Hg. apply elem_of_app in Hg as [Hg|[Hg|Hg]%elem_of_app].
    + exfalso. apply (Hne n); [|done]. apply elem_of_app. left. apply list_elem_of_fmap. by exists g.
    + by apply list_elem_of_singleton in Hg as ->.
    + exfalso. apply (Hne n); [|done]. apply elem_of_app. right.
      destruct (sv_loop v); cbn in *; try (by apply not_elem_of_nil in Hg); apply list_elem_of_fmap; by exists g.
  - intros x Hx Ex. exfalso. rewrite Hl in Hx. apply (Hne n); [|done]. apply elem_of_app. right.
    destruct (sv_loop v); cbn in *; try (by apply not_elem_of_nil in Hx); apply list_elem_of_fmap; by exists x.
  - intros r Hr'. rewrite Hr in Hr'. destruct (replies_below v n r F Hr'). unfold n in *. lia.
Qed.

Lemma feed_stream_task i v v' : svc_step (StreamTask i) v v' -> flight_ok v -> feed_ok v -> feed_ok v'.
Proof.
  intros E F D. pose proof E as [_ Es]. cbn [next] in Es. unfold stream_step in Es.
  destruct (sv_streams v !! i) as [st|] eqn:Hi; [|done]. pose proof (fd_phases v D i st Hi) as P.
  destruct (st_phase st) as [|c|resp spawn|] eqn:Hp; [| | |done].
  - destruct (st_in st) as [|m ms].
    + destruct (st_in_closed st); [|done]. injection Es as <-.
      apply (feed_stream _ v _ i st (with_phase Returned st) [] E F D Hi); try done; [by rewrite app_nil_r|by right].
    + injection Es as <-. destruct m as [create|id| |]; cbn [read_message] in *.
      * destruct (on_create (store v) (sv_next_watch_id v) (sv_fresh v) (sv_fresh v) create) as [g counter] eqn:Eg.
        cbn [sv_loop set_counters] in *. pose proof (fl_loop v F) as Hloop.
        assert (forall T (a b : T), match sv_loop v with Panicked => a | _ => b end = b) as Hm
          by (intros T a b; by destruct (sv_loop v)). rewrite Hm in *.
        eapply (feed_stream _ v _ i st _ [] E F D Hi); try done; [by rewrite app_nil_r|]. right.
        by apply (agrees_new v _ i st g counter).
      * eapply (feed_stream _ v _ i st _ [] E F D Hi); try done; [by rewrite app_nil_r|by right].
      * eapply (feed_stream _ v _ i st _ [] E F D Hi); try done; [by rewrite app_nil_r|by right].
      * eapply (feed_stream _ v _ i st _ [] E F D Hi); try done; [by rewrite app_nil_r|by right].
  - destruct (sv_replies v !! cr_chan c) as [resp|] eqn:Hr.
    + injection Es as <-. eapply (feed_stream _ v _ i st _ [] E F D Hi); try done; [by rewrite app_nil_r|]. right.
      eapply answer_ok_step; [exact E|done|]. by apply P.
    + pose proof (fl_loop v F). by destruct (sv_loop v).
  - destruct (negb _).
    + injection Es as <-. eapply (feed_stream _ v _ i st _ [] E F D Hi); try done; [by rewrite app_nil_r|by right].
    + destruct (tx_room st); [|done]. injection Es as <-. destruct spawn as [c|].
      * eapply (feed_spawn _ v _ i st resp c E F D Hi Hp); try done.
        -- intros j n. erewrite (received_stream v _ i st _ [(Some (cr_chan c), resp)]); [|exact Hi|reflexivity|reflexivity].
           f_equal. rewrite answers_one. destruct (decide (j = i)); [|by rewrite decide_False by naive_solver].
           destruct (decide (Some (cr_chan c) = Some n)) as [[= <-]|Hne]; [by rewrite decide_True|].
           rewrite decide_False; [done|]. intros [_ ->]. done.
        -- cbn. intros j st' Hj. destruct (streams_insert _ i st _ j st' Hi Hj) as [[_ ->]|Hj']; [by right|]. left. by exists st'.
      * eapply (feed_stream _ v _ i st _ [(None, resp)] E F D Hi); try done; [by repeat constructor|by right].
Qed.

(** What [tx_alive] says of a refused create. *)
Lemma refused_dead v n : refused v n -> tx_alive v n = false.
Proof.
  intros ([Hw _] & _ & Ho). apply bool_decide_eq_false. unfold outstanding in Ho. set_solver.
Qed.

Lemma answer_exclusive v c r : answer_ok v c r -> refusal r -> refused v (cr_chan c).
Proof. intros [_ [(Hc & _)|[_ ?]]] (Hn & _); [congruence|done]. Qed.

Lemma events_of_app l l' : events_of (l ++ l') = events_of l ++ events_of l'.
Proof. unfold events_of. by rewrite fmap_app, concat_app. Qed.

Lemma events_prefix k rest p (sent : list WatchEvent) :
  events_of (rest ++ p) = event_to_proto <$> take k sent ->
  exists k', (k' <= length sent)%nat /\ events_of rest = event_to_proto <$> take k' sent.
Proof.
  rewrite events_of_app. intros E. pose proof (f_equal length E) as El.
  rewrite length_app, length_fmap, length_take in El. exists (length (events_of rest)). split; [lia|].
  rewrite <- (take_app_length (events_of rest) (events_of p)) at 1. rewrite E, <- fmap_take, take_take. do 2 f_equal. lia.
Qed.

(** [select!] took an event or a tick, or found the channel closed. *)
Lemma forwarder_select_ok tick j v v' f :
  svc_step (ForwardTask j tick) v v' -> flight_ok v -> feed_ok v -> sv_forwarders v !! j = Some f ->
  fw_done f = false -> fw_sending f = None -> forwarder_select tick j f v = Some v' ->
  exists f', sv_forwarders v' = <[j := f']> (sv_forwarders v) /\ owner f' = owner f /\ sv_streams v' = sv_streams v
    /\ exists first rest ch, forwarder_ok v' f' first rest ch.
Proof.
  intros E F D Hj Hd Hs Es. unfold forwarder_select in Es.
  destruct (fd_forwarders v D f) as (first & rest & ch & O); [by eapply list_elem_of_lookup_2|].
  fold (fw_chan f) in Es. rewrite (fo_chan _ _ _ _ _ O) in Es.
  assert (received v' (fw_stream f) (fw_chan f) = received v (fw_stream f) (fw_chan f)) as Hr.
  { assert (sv_streams v' = sv_streams v) as Est by (clear -Es; repeat case_match; simplify_eq; done).
    unfold received. by rewrite Est. }
  pose proof (forwarder_step_ok _ v v' f first rest ch E F O Hr) as (ch' & [O1 O2 O3 O4 O5 O6]).
  pose proof O as [_ Q2 Q3 _ Q5 Q6]. rewrite Hs, Hd in *. destruct Q6 as [Hk Hev], O6 as [Hk' Hev'].
  destruct (ch_sent ch !! fw_received f) as [event|] eqn:Eev.
  - injection Es as <-. eexists. split; [done|]. split; [done|]. split; [done|]. exists first, rest, ch.
    assert (~ refusal first) as Hnr.
    { intros [_ (o & Ho)]%(answer_exclusive v _ _ Q3)%proj1. change (cr_chan (fw_create f)) with (fw_chan f) in Ho.
      rewrite Q2 in Ho. injection Ho as ->. done. }
    split; cbn; try done.
    + apply Forall_app in O4 as [O4 _]. apply Forall_app. split; [done|by repeat constructor].
    + split; [by apply lookup_lt_Some in Eev|]. rewrite app_nil_r in Hev. rewrite events_of_app, Hev.
      rewrite (take_S_r _ _ _ Eev), fmap_app. done.
  - destruct (negb _) eqn:Et.
    + injection Es as <-. eexists. split; [done|]. split; [done|]. split; [done|]. exists first, rest, ch'.
      split; cbn; try done. exists (fw_received f). by rewrite app_nil_r in Hev'.
    + destruct (tick && _); [|done]. injection Es as <-. eexists. split; [done|]. split; [done|]. split; [done|].
      exists first, rest, ch'. assert (~ refusal first) as Hnr.
      { intros Hf%(answer_exclusive v _ _ Q3)%refused_dead. change (cr_chan (fw_create f)) with (fw_chan f) in Hf.
        by rewrite Hf in Et. }
      split; cbn; try done.
      * apply Forall_app in O4 as [O4 _]. apply Forall_app. split; [done|by repeat constructor].
      * split; [done|]. rewrite app_nil_r in Hev'. rewrite events_of_app, Hev'. apply app_nil_r.
Qed.

(** The pending response went out, or the client is gone. *)
Lemma forwarder_send_ok tick j v v' f resp st :
  svc_step (ForwardTask j tick) v v' -> flight_ok v -> feed_ok v -> sv_forwarders v !! j = Some f ->
  fw_done f = false -> fw_sending f = Some resp -> sv_streams v !! fw_stream f = Some st ->
  forwarder_send j f resp st v = Some v' -> feed_ok v'.
Proof.
  intros E F D Hj Hd Hs Hst Es. unfold forwarder_send in Es.
  destruct (fd_forwarders v D f) as (first & rest & ch & O); [by eapply list_elem_of_lookup_2|].
  pose proof O as [Q1 Q2 Q3 Q4 Q5 Q6]. rewrite Hs, Hd in *. destruct Q6 as [Hk Hev]. cbn [option_list] in *.
  assert (refusal first -> False) as Hnr by by intros [_ ?]%Q5.
  assert (Forall (from_watch (cr_watch_id (fw_create f))) rest) as Hrest by by apply Forall_app in Q4 as [? _].
  destruct (ev_extends _ _ _ (step_evolves _ v v' E F) _ _ Q2) as (evs & o & Ech).
  destruct (negb (st_rx_open st)).
  - injection Es as <-. eapply (feed_forwarder _ v _ j f _ E F D Hj); [done|done|done|by eauto|].
    exists first, rest, (mkChan (ch_sent ch ++ evs) o). split; cbn; try done.
    + by eapply answer_ok_step.
    + by rewrite app_nil_r.
    + destruct (events_prefix _ _ _ _ Hev) as (k & Hk' & Ek). exists k. rewrite length_app. split; [lia|].
      by rewrite take_extend.
  - destruct (tx_room st); [|done]. injection Es as <-.
    assert (forall k n, received (set_forwarder j (mkFw (fw_stream f) (fw_create f) (fw_received f) None false)
      (set_stream (fw_stream f) (mkStream (st_in st) (st_in_closed st) (st_phase st)
         (st_out st ++ [(Some (cr_chan (fw_create f)), resp)]) (st_taken st) (st_rx_open st)) v)) k n
      = received v k n ++ (if decide ((k, n) = owner f) then [resp] else [])) as Hr.
    { intros k n. erewrite (received_stream v _ (fw_stream f) st); [|exact Hst|reflexivity|reflexivity]. f_equal.
      rewrite answers_one. unfold owner, fw_chan. destruct (decide (k = fw_stream f)) as [->|Hne].
      - destruct (decide (Some _ = Some n)) as [[= <-]|Hne]; [by rewrite decide_True|]. rewrite decide_False; [done|].
        intros [= ->]. done.
      - rewrite decide_False; [done|]. by intros [= -> _]. }
    eapply (feed_forwarder _ v _ j f _ E F D Hj); [done|done| | |].
    + intros k n Hne. rewrite Hr, decide_False by done. apply app_nil_r.
    + cbn. intros k st' Hk'. destruct (streams_insert _ _ st _ k st' Hst Hk') as [[-> ->]|]; by eauto.
    + exists first, (rest ++ [resp]), (mkChan (ch_sent ch ++ evs) o). split; cbn [fw_stream fw_create fw_sending fw_done fw_received]; try done.
      * change (fw_chan (mkFw (fw_stream f) (fw_create f) (fw_received f) None false)) with (fw_chan f).
        rewrite Hr, decide_True, Q1 by done. done.
      * by rewrite app_nil_r.
      * cbn. rewrite length_app. split; [lia|]. by rewrite app_nil_r, take_extend.
Qed.

Lemma feed_step l v v' : svc_step l v v' -> flight_ok v -> feed_ok v -> feed_ok v'.
Proof.
  intros E F D. pose proof E as [_ Es].
  assert (sv_streams v' = sv_streams v -> sv_forwarders v' = sv_forwarders v -> feed_ok v') as Hsame.
  { intros E1 E2. apply (feed_frame l v v' E F D); [|done|].
    - intros i n. unfold received. by rewrite E1.
    - intros i st'. rewrite E1. by eauto. }
  destruct l as [|i a|c| |fs|i|j tick| |]; cbn [next] in Es.
  - injection Es as <-. apply (feed_frame _ v _ E F D); [|done|].
    + intros i n. unfold received. cbn. destruct (decide (i < length (sv_streams v))%nat) as [Hlt|Hge].
      * by rewrite lookup_app_l.
      * rewrite lookup_app_r, (lookup_ge_None_2 (sv_streams v)) by lia. by destruct (i - _)%nat as [|[|]].
    + cbn. intros i st' [Hi|[_ Hi]]%lookup_app_Some; [by eauto|]. apply list_lookup_singleton_Some in Hi as [_ <-]. by right.
  - destruct (sv_streams v !! i) as [st|] eqn:Hi; [|done]. destruct (client_step a st) as [st'|] eqn:Hc; [|done].
    injection Es as <-. pose proof (client_step_phase _ _ _ Hc).
    eapply (feed_stream _ v _ i st st' [] E F D Hi); try done; [|by left]. rewrite app_nil_r. clear -Hc.
    unfold client_step in Hc. repeat case_match; naive_solver.
  - injection Es as <-. by apply Hsame.
  - destruct (sys_compaction _); [done|]. injection Es as <-. by apply Hsame.
  - destruct (sys_compaction _); [|done]. destruct (compact_phase_b _ _) as [? []]; injection Es as <-; by apply Hsame.
  - by eapply feed_stream_task.
  - unfold forwarder_step in Es. destruct (sv_forwarders v !! j) as [f|] eqn:Hj; [|done].
    destruct (fw_done f) eqn:Hd; [done|]. destruct (fw_sending f) as [resp|] eqn:Hs.
    + destruct (sv_streams v !! fw_stream f) as [st|] eqn:Hst; [|done]. by eapply forwarder_send_ok.
    + destruct (forwarder_select_ok tick j v v' f E F D Hj Hd Hs Es) as (f' & Hf & Ho & Hst & Hok).
      eapply (feed_forwarder _ v v' j f f' E F D Hj); try done.
      * intros i n _. unfold received. by rewrite Hst.
      * intros i st'. rewrite Hst. by eauto.
  - apply Hsame; clear -Es; unfold loop_step in Es; repeat case_match; simplify_eq; done.
  - apply Hsame; clear -Es; unfold timer_step in Es; repeat case_match; simplify_eq; done.
Qed.

Lemma feed_init : feed_ok svc_init.
Proof.
  split; cbn; try (by intros n ?%not_elem_of_nil); try done.
Qed.

Lemma service_inv ls v : svc_run ls svc_init v -> flight_ok v /\ feed_ok v.
Proof.
  enough (forall v0, svc_run ls v0 v -> flight_ok v0 -> feed_ok v0 -> flight_ok v /\ feed_ok v) as Hgen
    by (intros R; eapply Hgen; [done|apply flight_init|apply feed_init]).
  induction 1; eauto using flight_step, feed_step.
Qed.

(** ** Nothing gets stuck on the way *)

(** Two steps forward an event: receive it, send it. *)
Lemma forward_one v j f st ch ev :
  sv_forwarders v !! j = Some f -> fw_done f = false -> fw_sending f = None ->
  chans (store v) !! fw_chan f = Some ch -> ch_sent ch !! fw_received f = Some ev ->
  sv_streams v !! fw_stream f = Some st -> st_rx_open st = true -> (length (st_out st) - st_taken st < 4096)%nat ->
  let resp := event_response (cr_watch_id (fw_create f)) ev in
  let st' := mkStream (st_in st) (st_in_closed st) (st_phase st) (st_out st ++ [(Some (fw_chan f), resp)]) (st_taken st) true in
  exists v', svc_run [ForwardTask j false; ForwardTask j false] v v' /\ store v' = store v
    /\ sv_forwarders v' !! j = Some (mkFw (fw_stream f) (fw_create f) (S (fw_received f)) None false)
    /\ sv_streams v' !! fw_stream f = Some st'.
Proof.
  intros Hj Hd Hs Hch Hev Hst Hop Hroom resp st'. pose proof (lookup_lt_Some _ _ _ Hj) as Hlj.
  pose proof (lookup_lt_Some _ _ _ Hst) as Hls.
  set (f1 := mkFw (fw_stream f) (fw_create f) (S (fw_received f)) (Some resp) false).
  set (v1 := set_forwarder j f1 v).
  exists (set_forwarder j (mkFw (fw_stream f) (fw_create f) (S (fw_received f)) None false)
    (set_stream (fw_stream f) st' v1)). split.
  - eapply (lrun_cons _ _ _ _ _ v1); [|eapply lrun_cons; [|apply lrun_nil]]; (split; [done|]); cbn [next]; unfold forwarder_step.
    + rewrite Hj, Hd, Hs. unfold forwarder_select. fold (fw_chan f). rewrite Hch, Hev. done.
    + change (sv_forwarders v1) with (<[j := f1]> (sv_forwarders v)). change (sv_streams v1) with (sv_streams v).
      rewrite list_lookup_insert_eq by done. cbn [f1 fw_done fw_sending fw_stream]. rewrite Hst. unfold forwarder_send. rewrite Hop. cbn [negb]. unfold tx_room.
      rewrite (proj2 (Nat.ltb_lt _ _)) by done. done.
  - split; [done|]. split; cbn; [by rewrite list_insert_insert_eq, list_lookup_insert_eq|by rewrite list_lookup_insert_eq].
Qed.

Lemma forward_all m v j f st ch :
  sv_forwarders v !! j = Some f -> fw_done f = false -> fw_sending f = None ->
  chans (store v) !! fw_chan f = Some ch -> (length (ch_sent ch) = fw_received f + m)%nat ->
  sv_streams v !! fw_stream f = Some st -> st_rx_open st = true -> (length (st_out st) - st_taken st + m <= 4096)%nat ->
  exists v' ls, svc_run ls v v' /\ Forall (fun l => l = ForwardTask j false) ls /\ store v' = store v
    /\ sv_forwarders v' !! j = Some (mkFw (fw_stream f) (fw_create f) (length (ch_sent ch)) None false).
Proof.
  revert v f st. induction m as [|m IH]; intros v f st Hj Hd Hs Hch Hl Hst Hop Hroom.
  - exists v, []. split; [apply lrun_nil|]. split; [done|]. split; [done|]. rewrite Hj, Hl, Nat.add_0_r.
    destruct f; cbn in *. by subst.
  - destruct (lookup_lt_is_Some_2 (ch_sent ch) (fw_received f)) as [ev Hev]; [lia|].
    destruct (forward_one v j f st ch ev Hj Hd Hs Hch Hev Hst Hop ltac:(lia)) as (v1 & R1 & Es & Hj1 & Hst1).
    destruct (fun A B C => IH v1 _ _ Hj1 eq_refl eq_refl A B Hst1 eq_refl C) as (v' & ls & R & Hls & Es' & Hj').
    + by rewrite Es.
    + cbn. lia.
    + cbn. rewrite length_app. cbn. lia.
    + exists v', ([ForwardTask j false; ForwardTask j false] ++ ls). split; [by eapply lrun_app|].
      split; [by repeat constructor|]. split; [congruence|done].
Qed.

(** ** Properties *)

(** C6. What a client sees of a watch. In every state the service can reach, the
    responses on a client's stream that belong to one create request are, in order:
    the answer to the request, and then responses that carry the watch's id and
    whose events are a prefix of the events sent to the watch's channel, each once
    and in order. A request that was refused gets its refusal and nothing else. *)
Theorem watch_stream_in_order ls v i n :
  svc_run ls svc_init v ->
  received v i n = []
  \/ exists first rest ch, received v i n = first :: rest /\ chans (store v) !! n = Some ch /\ wp_events first = []
     /\ (wp_created first = true /\ wp_canceled first = false /\ Forall (from_watch (wp_watch_id first)) rest
           /\ (exists k, events_of rest = event_to_proto <$> take k (ch_sent ch))
         \/ refusal first /\ rest = []).
Proof.
  intros R. destruct (service_inv ls v R) as [F D]. destruct (received v i n) as [|r0 rs0] eqn:Er; [by left|right].
  assert ((i, n) ∈ (owner <$> sv_forwarders v)) as (f & [= -> ->] & Hin)%list_elem_of_fmap
    by (apply (fd_owned v D); by rewrite Er).
  destruct (fd_forwarders v D f Hin) as (first & rest & ch & [Q1 Q2 [Q3 Q3'] Q4 Q5 Q6]). rewrite <- Er, Q1.
  exists first, rest, ch. split; [done|]. split; [done|]. split; [done|].
  destruct Q3' as [(Hc & Hn & Hid)|[Hf _]]; [left|right; split; [done|by apply Q5]].
  apply Forall_app in Q4 as [Q4 _]. rewrite Hid. do 3 (split; [done|]). destruct (fw_done f).
  - destruct Q6 as (k & _ & Hk). by exists k.
  - destruct Q6 as [_ (k & _ & Hk)%events_prefix]. by exists k.
Qed.

(** C12. Delivery cannot get stuck. In every reachable state, take a forwarding task
    that is waiting for events while its client listens and has room for the events
    not yet forwarded. Then steps of that task alone bring every event sent to the
    watch's channel to the client. *)
Theorem watch_events_delivered ls v j f st ch :
  svc_run ls svc_init v -> sv_forwarders v !! j = Some f -> fw_done f = false -> fw_sending f = None ->
  chans (store v) !! fw_chan f = Some ch -> sv_streams v !! fw_stream f = Some st -> st_rx_open st = true ->
  (length (st_out st) - st_taken st + (length (ch_sent ch) - fw_received f) <= 4096)%nat ->
  exists v' ls' first rest, svc_run ls' v v' /\ Forall (fun l => l = ForwardTask j false) ls'
    /\ store v' = store v /\ received v' (fw_stream f) (fw_chan f) = first :: rest
    /\ events_of rest = event_to_proto <$> ch_sent ch.
Proof.
  intros R Hj Hd Hs Hch Hst Hop Hroom. destruct (service_inv ls v R) as [F D].
  destruct (fd_forwarders v D f) as (? & ? & ? & [_ Q2 _ _ _ Q6]); [by eapply list_elem_of_lookup_2|].
  rewrite Hch in Q2. injection Q2 as <-. rewrite Hd in Q6. destruct Q6 as [Hk _].
  destruct (forward_all (length (ch_sent ch) - fw_received f) v j f st ch) as (v' & ls' & R' & Hls & Es & Hj'); try done; [lia|].
  destruct (service_inv (ls ++ ls') v') as [F' D']; [by eapply lrun_app|].
  eapply list_elem_of_lookup_2 in Hj'. destruct (fd_forwarders v' D' _ Hj') as (first & rest & ch' & [P1 P2 _ _ _ P6]).
  exists v', ls', first, rest. do 3 (split; [done|]). split; [exact P1|].
  assert (ch' = ch) as -> by (rewrite Es in P2; change (chans (store v) !! fw_chan f = Some ch') in P2; congruence).
  cbn in P6. destruct P6 as [_ P6]. by rewrite app_nil_r, take_ge in P6.
Qed.

End Feed.

#[local] Existing Instance bitwise_crc.
#[local] Existing Instance ref_decoder.
#[local] Existing Instance merge_sort_impl.

(** *** Concrete runs *)

(** The watch of [demo_ask] is created, and a key is written. *)
Definition demo_watch : list Label :=
  demo_ask ++ demo_round ++ [StreamTask 0; StreamTask 0; StoreCommand (CmdPut (put_req "k" "1"))].

Lemma demo_watches : svc_run demo_watch svc_init (after demo_watch).
Proof. apply lend_run; [by_running|vm_compute; eauto]. Qed.

Definition demo_fw : Forwarder := mkFw O (mkCreated O 1 false) O None false.

Lemma watch_stream_in_order_witness :
  exists first rest, received (after (demo_watch ++ [ForwardTask 0 false; ForwardTask 0 false])) 0 0 = first :: rest
    /\ rest <> [].
Proof.
  destruct (watch_stream_in_order (demo_watch ++ [ForwardTask 0 false; ForwardTask 0 false])
    (after (demo_watch ++ [ForwardTask 0 false; ForwardTask 0 false])) 0 0) as [E|(first & rest & ch & E & _)].
  - apply lend_run; [by_running|vm_compute; eauto].
  - vm_compute in E. discriminate E.
  - exists first, rest. split; [exact E|]. intros ->. vm_compute in E. discriminate E.
Defined.

Lemma demo_fw_at : sv_forwarders (after demo_watch) !! O = Some demo_fw.
Proof. vm_compute. reflexivity. Qed.

Definition demo_chan : Channel := default (mkChan [] true) (chans (store (after demo_watch)) !! O).
Definition demo_stream : Stream := default (mkStream [] false Reading [] O true) (sv_streams (after demo_watch) !! O).

Lemma demo_fw_ready :
  chans (store (after demo_watch)) !! fw_chan demo_fw = Some demo_chan
  /\ sv_streams (after demo_watch) !! fw_stream demo_fw = Some demo_stream /\ st_rx_open demo_stream = true
  /\ (length (st_out demo_stream) - st_taken demo_stream + (length (ch_sent demo_chan) - fw_received demo_fw) <= 4096)%nat
  /\ length (ch_sent demo_chan) = 1%nat.
Proof. vm_compute. do 3 (split; [reflexivity|]). split; [|reflexivity]. apply Nat.leb_le. vm_compute. reflexivity. Qed.

Lemma watch_events_delivered_witness :
  exists v' ls' first rest, svc_run ls' (after demo_watch) v' /\ Forall (fun l => l = ForwardTask 0 false) ls'
    /\ store v' = store (after demo_watch) /\ received v' 0 0 = first :: rest
    /\ events_of rest = event_to_proto <$> ch_sent demo_chan.
Proof.
  destruct demo_fw_ready as (Hc & Hs & Ho & Hr & _).
  exact (watch_events_delivered demo_watch _ O demo_fw demo_stream demo_chan demo_watches demo_fw_at eq_refl eq_refl Hc Hs Ho Hr).
Defined.

(** *** Watch ids are shared by all streams *)

Definition open_two : list Label := [ClientOpen; ClientOpen].
Definition ask (i : nat) (id : Z) : list Label := [Client i (SendRequest (demo_create id)); StreamTask i].
Definition take_answer (i : nat) : list Label := [StreamTask i; StreamTask i].

(** A cancel request on one stream cancels a watch of another client. *)
Example cancel_crosses_streams :
  let before := open_two ++ ask 0 5 ++ demo_round ++ take_answer 0 in
  (wr_watch_id <$> watchers (store (after before))) = [5]
  /\ (wr_watch_id <$> watchers (store (after (before ++ [Client 1 (SendRequest (CancelRequest 5)); StreamTask 1])))) = [].
Proof. split; by vm_compute. Qed.

(** An id in use on one stream is refused on another. *)
Example duplicate_id_crosses_streams :
  let v := after (open_two ++ ask 0 5 ++ demo_round ++ take_answer 0 ++ ask 1 5
                  ++ [LoopTask; TimerTask; LoopTask; LoopTask; LoopTask]) in
  wp_cancel_reason <$> sv_replies v !! 1%nat = Some "duplicate watch_id"%string.
Proof. by vm_compute. Qed.

(** An id the server chose itself can be one a client has chosen before. *)
Example server_id_collides :
  let v := after (open_two ++ ask 0 1 ++ demo_round ++ take_answer 0 ++ ask 1 0
                  ++ [LoopTask; TimerTask; LoopTask; LoopTask; LoopTask]) in
  wp_cancel_reason <$> sv_replies v !! 1%nat = Some "duplicate watch_id"%string.
Proof. by vm_compute. Qed.

(** *** Lifetimes *)

(** A client that disconnects before its [created] response is sent leaves the
    watcher registered, with nobody to receive its events or to cancel it. *)
Example disconnect_leaks_watcher :
  let v := after (demo_ask ++ demo_round ++ [Client 0 Disconnect] ++ take_answer 0) in
  (wr_watch_id <$> watchers (store v)) = [1] /\ sv_forwarders v = []
  /\ ch_open <$> chans (store v) !! O = Some false /\ (st_phase <$> sv_streams v !! O) = Some Returned.
Proof. repeat split; by vm_compute. Qed.

(** Events that were waiting when a watch was canceled follow the [canceled]
    response. *)
Example events_follow_cancel :
  let v := after (demo_watch ++ [Client 0 (SendRequest (CancelRequest 1)); StreamTask 0; StreamTask 0;
                                 ForwardTask 0 false; ForwardTask 0 false]) in
  (fun st => (fun e => (wp_created e.2, wp_canceled e.2, length (wp_events e.2))) <$> st_out st) <$> sv_streams v !! O
  = Some [(true, false, O); (false, true, O); (false, false, 1%nat)].
Proof. by vm_compute. Qed.

End WatchFeed.
