(* ===== verification/WatchLog.v ===== *)
(** * A watching client sees the log

    The watch service end to end: what a client asked for, the batch its request
    went through, the write-ahead log at the time its watch was registered and the
    records logged since determine what it receives. Over every run of the task
    system of [WatchService]. *)
From S2P Require Import Prelude Varint KvCodec Wire Crc WalRecord Proto Range SortKvs State Store.
From S2P Require Import Historical Txn Recovery Background System Replay Durability HistRead Notify.
From S2P Require Import WatchStream WatchProps WatchService WatchServiceProps WatchFeed.
Local Open Scope Z_scope.

Module WatchLog.
Import KvCodec Wire Crc Wal Proto Range SortKvs State Store Historical Txn Recovery Background System Replay
  Durability HistRead Notify WatchStream WatchProps WatchService WatchServiceProps WatchFeed.

(** ** Steps that send nothing *)

(** Channels keep what was sent and are not reopened; watchers only leave. *)
Record calm (s s' : StoreState) : Prop := {
  ca_chans : forall n ch, chans s !! n = Some ch ->
    exists o, chans s' !! n = Some (mkChan (ch_sent ch) o) /\ (o = true -> ch_open ch = true);
  ca_watchers : watchers s' `sublist_of` watchers s }.

#[local] Instance calm_preorder : PreOrder calm.
Proof.
  split.
  - intros s. split; [|done]. intros n ch E. exists (ch_open ch). by destruct ch.
  - intros s1 s2 s3 [C1 W1] [C2 W2]. split; [|by etrans]. intros n ch (o & E & Ho)%C1.
    destruct (C2 _ _ E) as (o' & E' & Ho'). exists o'. auto.
Qed.

Lemma calm_create n s : n ∉ dom (chans s) -> calm s (set_chans (<[n := mkChan [] true]> (chans s)) s).
Proof.
  intros Hn%not_elem_of_dom. split; [|done]. intros m ch E. exists (ch_open ch). cbn.
  rewrite lookup_insert_ne by (intros ->; congruence). by destruct ch.
Qed.

Lemma calm_close c s : calm s (close_chan c s).
Proof.
  split; [|done]. intros n ch E. cbn. destruct (decide (n = c)) as [->|Hne].
  - rewrite lookup_alter_eq, E. by exists false.
  - rewrite lookup_alter_ne by done. exists (ch_open ch). by destruct ch.
Qed.

Lemma calm_cancel id s : calm s (cancel_watcher id s).1.
Proof. split; [|apply sublist_filter]. intros n ch E. exists (ch_open ch). by destruct ch. Qed.

Lemma calm_same s s' : chans s' = chans s -> watchers s' = watchers s -> calm s s'.
Proof. intros Ec Ew. split; [|by rewrite Ew]. intros n ch E. rewrite Ec. exists (ch_open ch). by destruct ch. Qed.

Section Log.
Context `{Crc32c} `{KvDecoder} `{UnstableSort}.

Definition sends (l : Label) (v : Svc) : bool :=
  match l, sv_loop v with
  | StoreCommand _, _ | LoopTask, Checked _ _ | LoopTask, Replayed _ _ _ => true
  | _, _ => false
  end.

Lemma calm_stream i v v' : flight_ok v -> stream_step i v = Some v' -> calm (store v) (store v').
Proof.
  intros F E. unfold stream_step in E. destruct (sv_streams v !! i) as [st|]; [|done].
  destruct (st_phase st) as [|c|resp spawn|]; [| | |done].
  - destruct (st_in st) as [|m ms]; [destruct (st_in_closed st); [|done]; by injection E as <-|].
    injection E as <-. destruct m as [create|id| |]; cbn [read_message]; try done.
    + destruct (on_create _ _ _ _ _) as [c counter]. cbn [sv_loop set_counters].
      assert (sv_fresh v ∉ dom (chans (store v))) as Hd by (rewrite (fl_chans v F), elem_of_set_seq; lia).
      destruct (sv_loop v); (reflexivity || exact (calm_create (sv_fresh v) (store v) Hd)).
    + apply (calm_cancel id).
  - destruct (sv_replies v !! cr_chan c); [by injection E as <-|].
    destruct (sv_loop v); try done. injection E as <-. apply (calm_close (cr_chan c)).
  - destruct (negb _).
    + injection E as <-. destruct spawn as [c|]; [apply (calm_close (cr_chan c))|done].
    + destruct (tx_room st); [|done]. injection E as <-. by destruct spawn.
Qed.

Lemma calm_forwarder tick j v v' : forwarder_step tick j v = Some v' -> calm (store v) (store v').
Proof.
  unfold forwarder_step, forwarder_send, forwarder_select. destruct (sv_forwarders v !! j) as [f|]; [|done].
  destruct (fw_done f); [done|]. destruct (fw_sending f) as [resp|].
  - destruct (sv_streams v !! fw_stream f) as [st|]; [|done]. destruct (negb _).
    + intros [= <-]. etrans; [apply calm_cancel|apply calm_close].
    + destruct (tx_room st); [|done]. by intros [= <-].
  - destruct (chans (store v) !! _) as [ch|]; [|done]. destruct (ch_sent ch !! _); [by intros [= <-]|].
    destruct (negb _); [intros [= <-]; apply calm_close|]. destruct (tick && _); [|done]. by intros [= <-].
Qed.

Lemma step_calm l v v' : svc_step l v v' -> flight_ok v -> sends l v = false -> calm (store v) (store v').
Proof.
  intros [_ E] F Hs. destruct l as [|i a|c| |fs|i|j tick| |]; cbn [next] in E; try done.
  - by injection E as <-.
  - destruct (sv_streams v !! i); [|done]. destruct (client_step a s); [|done]. by injection E as <-.
  - destruct (sys_compaction _); [done|]. by injection E as <-.
  - destruct (sys_compaction _) as [sn|]; [|done]. destruct (compact_phase_b _ _) as [target []]; injection E as <-; [|done].
    apply calm_same; cbn; unfold compact_phase_c; repeat case_match; done.
  - by apply (calm_stream i).
  - by eapply calm_forwarder.
  - unfold loop_step in E. destruct (sv_loop v) eqn:El; unfold sends in Hs; rewrite El in Hs; try done;
      repeat case_match; simplify_eq; done.
  - unfold timer_step in E. repeat case_match; simplify_eq; done.
Qed.

(** *** The log *)

(** The steps that touch the log. *)
Definition rewrites (l : Label) : bool := match l with StoreCommand _ | WalSwap _ => true | _ => false end.

Lemma light_register active cs s : light s (register_all active (set_chans cs s)).
Proof. destruct (register_all_fields active (set_chans cs s)) as (_ & ? & ? & _ & ? & ? & ?). done. Qed.

Lemma light_stream i v v' : stream_step i v = Some v' -> light (store v) (store v').
Proof.
  unfold stream_step, read_message, on_cancel, abandon. intros E. repeat case_match; simplify_eq; try done.
Qed.

Lemma step_light l v v' : svc_step l v v' -> flight_ok v -> rewrites l = false -> light (store v) (store v').
Proof.
  intros [_ E] F Hr. destruct l as [|i a|c| |fs|i|j tick| |]; cbn [next] in E; try done.
  - by injection E as <-.
  - destruct (sv_streams v !! i); [|done]. destruct (client_step a s); [|done]. by injection E as <-.
  - destruct (sys_compaction _); [done|]. by injection E as <-.
  - by eapply light_stream.
  - unfold forwarder_step, forwarder_send, forwarder_select in E. repeat case_match; simplify_eq; done.
  - unfold loop_step in E. pose proof (fl_log v F) as Hlog.
    destruct (sv_loop v) as [|batch nf|ck batch|ck active|ck active|ck active prev|active|]; [| | | | | | |done];
      try (repeat case_match; simplify_eq; done).
    + destruct (sys_inv_durable _ (fl_sys v F)) as (rs & D).
      destruct (flush_phase1_safe ck.1 active (store v) rs D) as (prev & cs & Hph & _). rewrite Hph in E. by injection E as <-.
    + destruct (flush_phase2_safe ck active prev (store v) _ Hlog eq_refl) as (cs & Hph & _). rewrite Hph in E.
      injection E as <-. apply light_register.
  - unfold timer_step in E. repeat case_match; simplify_eq; done.
Qed.

(** The records a step of the store's other users appends. *)
Definition written (l : Label) (v : Svc) : list KvWalRecord :=
  match l with
  | StoreCommand c => (scan_kv (wal (exec c (store v))) (Z.of_nat (length (file (wal (store v)))))).1
  | _ => []
  end.

(** All records appended along a run. *)
Fixpoint writes (ls : list Label) (v : Svc) : list KvWalRecord :=
  match ls with
  | [] => []
  | l :: ls => written l v ++ match next l v with Some v' => writes ls v' | None => [] end
  end.

(** A command appends records, and sends their events to the watchers that want them. *)
Lemma command_writes c v v' rs :
  svc_step (StoreCommand c) v v' -> flight_ok v -> durable_by (store v) rs ->
  let new := written (StoreCommand c) v in
  durable_by (store v') (rs ++ new) /\ Forall (fun r => next_rev (store v) <= record_rev r) new
  /\ next_rev (store v) <= next_rev (store v')
  /\ exists evs, event_sig <$> evs = record_sig <$> new /\ watchers (store v') = watchers (store v)
     /\ chans (store v') = notify_events (watchers (store v)) (chans (store v)) evs.
Proof.
  intros [[Hc Hq] E] F D new. cbn [next] in E. injection E as <-. cbn [store set_store sv_sys sys_store].
  assert (inv (store v)) as I by apply (fl_sys v F). pose proof (durable_no_faults _ _ D) as Hno.
  pose proof (exec_quiet c _ I Hc Hq) as Ht.
  destruct (rtc_trans_feeds _ _ _ Ht I Hno) as (rs1 & evs & Ef & R & Es & Ew & Ec).
  destruct (rtc_trans_logs _ _ _ _ Ht I Hno) as (rs2 & L & Hfl).
  assert (forall rs', file (wal (exec c (store v))) = file (wal (store v)) ++ log_bytes rs' -> Forall store_record rs' ->
    new = rs') as Hnew.
  { intros rs' Ef' R'. subst new. cbn [written]. rewrite (du_file _ _ D). apply scan_log_from.
    - eapply Forall_impl; [apply R'|apply store_record_wf].
    - by rewrite log_bytes_app, Ef', (du_file _ _ D). }
  assert (new = rs2) as E2 by (apply Hnew; apply L). assert (new = rs1) as E1 by by apply Hnew.
  split; [rewrite E2; by eapply durable_run|]. split; [by rewrite E2|]. split; [apply L|].
  exists evs. by rewrite E1.
Qed.

(** ** The invariant *)

(** What a channel was sent, and was not if its receiver is gone. *)
Definition hears (sigs : list signature) (ch : Channel) : Prop :=
  (event_sig <$> ch_sent ch) `prefix_of` sigs /\ (ch_open ch = true -> event_sig <$> ch_sent ch = sigs).

Abbreviation picked p := (base.filter (fun sg : signature => p sg = true)).

(** The creates not registered yet. *)
Definition pending (v : Svc) : list nat :=
  (gc_event_tx <$> sv_queue v) ++ match sv_loop v with Registered _ => [] | l => loop_senders l end.

(** Between the two phases of the replay. *)
Definition replayed_ok (rs : list KvWalRecord) (v : Svc) : Prop :=
  match sv_loop v with
  | Replayed _ active _ =>
      Forall (fun ctx => exists ch, chans (store v) !! cx_event_tx ctx = Some ch
                         /\ hears (picked (wants (registration ctx)) (record_sig <$> rs)) ch) active
  | _ => True
  end.

Record flow_ok (v : Svc) : Prop := {
  fo_own : own_channels (watchers (store v));
  fo_apart : forall n, n ∈ pending v -> n ∉ (wr_sender <$> watchers (store v));
  fo_cut : forall ck, checkpoint (sv_loop v) = Some ck -> ck.1 < next_rev (store v)
    /\ exists rs1 rs2, log_cut (store v) ck rs1 rs2 /\ replayed_ok rs1 v }.

(** *** Delivery to one channel *)

Lemma send_closed c n ev ch (cs : gmap nat Channel) :
  ch_open ch = false -> cs !! n = Some ch -> send c ev cs !! n = Some ch.
Proof.
  intros Ho E. destruct (decide (c = n)) as [->|Hne]; [|by rewrite send_ne]. unfold send. by rewrite E, Ho.
Qed.

Lemma delivers_closed want active evs n ch (cs : gmap nat Channel) :
  ch_open ch = false -> cs !! n = Some ch -> delivers want active cs evs !! n = Some ch.
Proof.
  intros Ho. apply (foldl_keeps (fun cs => cs !! n = Some ch)). intros cs1 ev. apply (foldl_keeps (fun cs => cs !! n = Some ch)). intros cs2 ctx E.
  unfold deliver. destruct (want ctx ev); [by apply send_closed|done].
Qed.

Lemma notify_events_closed ws evs n ch (cs : gmap nat Channel) :
  ch_open ch = false -> cs !! n = Some ch -> notify_events ws cs evs !! n = Some ch.
Proof.
  intros Ho. apply (foldl_keeps (fun cs => cs !! n = Some ch)). intros cs1 ev. apply (foldl_keeps (fun cs => cs !! n = Some ch)). intros cs2 w E.
  rewrite notify_one_lookup. unfold receive. rewrite E. cbn. rewrite Ho, andb_false_r. by destruct (decide _).
Qed.

Lemma hears_closed sigs new ch : ch_open ch = false -> hears sigs ch -> hears (sigs ++ new) ch.
Proof. intros Ho [Hp _]. split; [by apply prefix_app_r|congruence]. Qed.

Lemma hears_more sigs ch evs (new : list signature) :
  ch_open ch = true -> hears sigs ch -> event_sig <$> evs = new -> hears (sigs ++ new) (mkChan (ch_sent ch ++ evs) true).
Proof. intros Ho [_ He] En. unfold hears. cbn. rewrite fmap_app, He, En by done. by split. Qed.

Lemma delivers_hears want (p : signature -> bool) active evs ctx ch sigs (cs : gmap nat Channel) :
  NoDup (cx_event_tx <$> active) -> ctx ∈ active -> cs !! cx_event_tx ctx = Some ch -> hears sigs ch ->
  (forall ev, want ctx ev = p (event_sig ev)) ->
  exists ch', delivers want active cs evs !! cx_event_tx ctx = Some ch' /\ hears (sigs ++ picked p (event_sig <$> evs)) ch'.
Proof.
  intros Hnd Hin E Hh Hw. destruct (ch_open ch) eqn:Ho.
  - eexists. split; [by apply delivers_lookup|]. apply hears_more; try done. rewrite <- filter_event_sig. f_equal.
    apply list_filter_iff. intros ev. by rewrite Hw.
  - exists ch. split; [by apply delivers_closed|by apply hears_closed].
Qed.

Lemma notify_hears ws evs w ch sigs (cs : gmap nat Channel) :
  own_channels ws -> w ∈ ws -> cs !! wr_sender w = Some ch -> hears sigs ch ->
  exists ch', notify_events ws cs evs !! wr_sender w = Some ch' /\ hears (sigs ++ picked (wants w) (event_sig <$> evs)) ch'.
Proof.
  intros Ho Hin E Hh. destruct (ch_open ch) eqn:Hop.
  - eexists. split; [by apply notify_events_lookup|]. apply hears_more; try done. by rewrite tailored_sig, filter_event_sig.
  - exists ch. split; [by apply notify_events_closed|by apply hears_closed].
Qed.

Lemma calm_hears s s' n ch sigs :
  calm s s' -> chans s !! n = Some ch -> hears sigs ch -> exists ch', chans s' !! n = Some ch' /\ hears sigs ch'.
Proof. intros [C _] E [Hp He]. destruct (C n ch E) as (o & E' & Ho). eexists. split; [done|]. split; [done|]. cbn. auto. Qed.

(** *** The two phases of the flush *)

Lemma phase1_step v v' ck active :
  svc_step LoopTask v v' -> flow_ok v -> sv_loop v = Checked ck active ->
  exists rs1 rs2, log_cut (store v) ck rs1 rs2 /\ sv_loop v' = Replayed ck active (log_prev ∅ rs1) /\ sv_queue v' = sv_queue v
    /\ store v' = set_chans (delivers ctx_wants active (chans (store v)) (log_events ∅ rs1)) (store v).
Proof.
  intros [_ E] W El. cbn [next] in E. unfold loop_step in E. rewrite El in E.
  destruct (fo_cut v W ck) as (_ & rs1 & rs2 & C & _); [by rewrite El|]. exists rs1, rs2. split; [done|].
  rewrite (flush_phase1_log _ _ _ _ active C) in E. by injection E as <-.
Qed.

Lemma phase2_step v v' ck active prev :
  svc_step LoopTask v v' -> flow_ok v -> sv_loop v = Replayed ck active prev ->
  exists rs1 rs2, log_cut (store v) ck rs1 rs2 /\ replayed_ok rs1 v /\ sv_loop v' = Registered active /\ sv_queue v' = sv_queue v
    /\ store v' = register_all active (set_chans (delivers ctx_selects active (chans (store v)) (log_events prev rs2)) (store v)).
Proof.
  intros [_ E] W El. cbn [next] in E. unfold loop_step in E. rewrite El in E.
  destruct (fo_cut v W ck) as (_ & rs1 & rs2 & C & Hr); [by rewrite El|]. exists rs1, rs2. split; [done|]. split; [done|].
  rewrite (flush_phase2_log _ _ _ _ active prev C) in E. by injection E as <-.
Qed.

(** *** Which creates are pending *)

Lemma pending_outstanding v n : n ∈ pending v -> n ∈ outstanding v.
Proof. unfold pending, outstanding. destruct (sv_loop v); set_solver. Qed.

Lemma pending_loop v v' n : flight_ok v -> loop_step v = Some v' -> n ∈ pending v' -> n ∈ pending v.
Proof.
  intros F. pose proof (fl_ctxs v F) as Hcx. pose proof (fl_creates v F) as Hcr. pose proof (fl_log v F) as Hlog.
  apply Forall_app in Hcr as [_ Hcr]. unfold loop_step, pending.
  destruct (sv_loop v) as [|batch nf|ck batch|ck active|ck active|ck active prev|active|] eqn:El; cbn [loop_senders] in *; [| | | | | | |done].
  - destruct (sv_queue v) as [|c q]; [done|]. intros [= <-]. cbn. set_solver.
  - destruct (sv_queue v) as [|c q] eqn:Eq; [destruct nf; [|done]|]; intros [= <-]; cbn; rewrite ?Eq, ?fmap_app; set_solver.
  - destruct (admit_all (store v) batch) as [refs active] eqn:Ea. intros [= <-]. cbn.
    destruct (admit_all_answers _ _ _ _ Ea Hcr) as (Hp & _). rewrite Hp. destruct active; cbn; set_solver.
  - destruct (reject_duplicates_answers (store v) active Hcx) as (replies & kept & -> & Hp & _). intros [= <-]. cbn.
    rewrite Hp. destruct kept; cbn; set_solver.
  - destruct (sys_inv_durable _ (fl_sys v F)) as (rs & D).
    by destruct (flush_phase1_safe ck.1 active (store v) rs D) as (prev & cs & -> & _); intros [= <-].
  - destruct (flush_phase2_safe ck active prev (store v) _ Hlog eq_refl) as (cs & -> & _). intros [= <-]. cbn. set_solver.
  - intros [= <-]. by cbn.
Qed.

Lemma pending_step l v v' n :
  svc_step l v v' -> flight_ok v -> n ∈ pending v' ->
  n ∈ pending v \/ n = sv_fresh v /\ watchers (store v') = watchers (store v).
Proof.
  intros E F Hn. destruct (of_loop l) eqn:Hl.
  - left. destruct E as [_ E]. destruct l; try done; cbn [next] in E; [by eapply pending_loop|].
    unfold timer_step in E. unfold pending. destruct (sv_loop v) as [|b []| | | | | |] eqn:El; try done. by injection E as <-.
  - destruct (step_frame l v v' E Hl) as [El [Eq|(c & Eq & Ec & Es)]]; unfold pending in *; rewrite El, Eq in Hn; [by left|].
    rewrite Es. rewrite fmap_app in Hn. cbn in *. rewrite Ec in Hn. set_solver.
Qed.

(** A create that was registered or refused does not come back. *)
Lemma settled_step l v v' n :
  svc_step l v v' -> flight_ok v -> (n < sv_fresh v)%nat -> n ∉ pending v -> (n < sv_fresh v')%nat /\ n ∉ pending v'.
Proof.
  intros E F Hn Hp. pose proof (step_counts _ _ _ E) as [Hc _]. split; [lia|].
  intros [?|[-> _]]%(pending_step l v v' n E F); [done|lia].
Qed.

(** The registered watchers only leave, except when a flush registers its own. *)
Lemma watchers_step l v v' :
  svc_step l v v' -> flight_ok v -> flow_ok v ->
  watchers (store v') `sublist_of` watchers (store v)
  \/ exists ck active prev, l = LoopTask /\ sv_loop v = Replayed ck active prev /\ sv_loop v' = Registered active
     /\ sv_queue v' = sv_queue v /\ watchers (store v') = watchers (store v) ++ (registration <$> active).
Proof.
  intros E F W. destruct (sends l v) eqn:Hs; [|left; by eapply step_calm].
  destruct l as [| |c| | | | | |]; try done.
  - left. destruct (sys_inv_durable _ (fl_sys v F)) as (rs & D).
    destruct (command_writes c v v' rs E F D) as (_ & _ & _ & evs & _ & -> & _). done.
  - unfold sends in Hs. destruct (sv_loop v) as [| | | |ck active|ck active prev| |] eqn:El; try done.
    + left. destruct (phase1_step v v' _ _ E W El) as (? & ? & _ & _ & _ & ->). done.
    + right. destruct (phase2_step v v' _ _ _ E W El) as (rs1 & rs2 & _ & _ & El' & Eq & Es).
      exists ck, active, prev. do 4 (split; [done|]). rewrite Es.
      match goal with |- watchers (register_all _ ?s) = _ => destruct (register_all_fields active s) as (-> & _) end. done.
Qed.

Lemma registration_senders (active : list WatchContext) : wr_sender <$> (registration <$> active) = cx_event_tx <$> active.
Proof. by rewrite <- list_fmap_compose. Qed.

Lemma active_pending v ck active prev :
  sv_loop v = Replayed ck active prev -> flight_ok v ->
  NoDup (cx_event_tx <$> active) /\ (forall n, n ∈ (cx_event_tx <$> active) -> n ∈ pending v)
  /\ forall n, n ∈ (cx_event_tx <$> active) -> n ∉ (gc_event_tx <$> sv_queue v).
Proof.
  intros El F. pose proof (outstanding_NoDup v F) as Hnd. apply NoDup_app in Hnd as [Hnd _].
  unfold outstanding, pending in *. rewrite El in *. apply NoDup_app in Hnd as (_ & Hdis & Hnd). cbn in *.
  split; [done|]. split; [set_solver|]. intros n Hn Hq. by apply (Hdis n).
Qed.

Lemma own_step l v v' : svc_step l v v' -> flight_ok v -> flow_ok v -> own_channels (watchers (store v')).
Proof.
  intros E F W. destruct (watchers_step l v v' E F W) as [Hs|(ck & active & prev & -> & El & _ & _ & Ew)].
  - eapply sublist_NoDup; [apply (fo_own v W)|by apply fmap_sublist].
  - destruct (active_pending v ck active prev El F) as (Hnd & Hp & _).
    unfold own_channels. rewrite Ew, fmap_app, registration_senders. apply NoDup_app. split; [apply (fo_own v W)|].
    split; [|done]. intros n Hn Ha. by apply (fo_apart v W n (Hp n Ha)).
Qed.

Lemma apart_step l v v' n :
  svc_step l v v' -> flight_ok v -> feed_ok v -> flow_ok v -> n ∈ pending v' -> n ∉ (wr_sender <$> watchers (store v')).
Proof.
  intros E F D W Hn Hw. destruct (watchers_step l v v' E F W) as [Hs|(ck & active & prev & -> & El & El' & Eq & Ew)].
  - assert (n ∈ (wr_sender <$> watchers (store v))) as Hw'
      by (eapply elem_of_submseteq; [exact Hw|]; by apply sublist_submseteq, fmap_sublist).
    destruct (pending_step l v v' n E F Hn) as [Hp|[-> _]]; [by apply (fo_apart v W n)|].
    apply (fd_senders v D) in Hw'. lia.
  - destruct (active_pending v ck active prev El F) as (Hnd & Hp & Hq).
    unfold pending in Hn. rewrite El', app_nil_r, Eq in Hn. rewrite Ew, fmap_app, registration_senders in Hw.
    apply elem_of_app in Hw as [Hw|Hw]; [|by apply (Hq n)]. apply (fo_apart v W n); [|done]. unfold pending. set_solver.
Qed.

(** *** The checkpoint and the replay *)

Lemma log_cut_light s s' ck rs1 rs2 : light s s' -> log_cut s ck rs1 rs2 -> log_cut s' ck rs1 rs2.
Proof. intros L []. split; try done. by eapply durable_light. Qed.

Definition cut_ok (v : Svc) (ck : Z * Z) : Prop :=
  ck.1 < next_rev (store v) /\ exists rs1 rs2, log_cut (store v) ck rs1 rs2 /\ replayed_ok rs1 v.

(** A checkpoint that is kept, over a step that sends nothing. *)
Lemma cut_calm v v' ck :
  light (store v) (store v') -> calm (store v) (store v') -> sv_loop v' = sv_loop v -> cut_ok v ck -> cut_ok v' ck.
Proof.
  intros L C El (Hck & rs1 & rs2 & Hc & Hr). split; [by destruct L as (_ & _ & -> & _)|].
  exists rs1, rs2. split; [by eapply log_cut_light|]. unfold replayed_ok in *. rewrite El. destruct (sv_loop v); try done.
  eapply Forall_impl; [exact Hr|]. intros ctx (ch & Ech & Hh). by eapply calm_hears.
Qed.

Lemma cut_command c v v' ck :
  svc_step (StoreCommand c) v v' -> flight_ok v -> flow_ok v -> cut_ok v ck -> cut_ok v' ck.
Proof.
  intros E F W (Hck & rs1 & rs2 & Hc & Hr).
  destruct (command_writes c v v' _ E F (lc_durable _ _ _ _ Hc)) as (D & Hfl & Hrev & evs & _ & _ & Ec).
  split; [lia|]. exists rs1, (rs2 ++ written (StoreCommand c) v). split; [by eapply log_cut_run|].
  destruct (step_frame _ _ _ E eq_refl) as [El _]. unfold replayed_ok in *. rewrite El, Ec.
  destruct (sv_loop v) as [| | | | |ck' active prev| |] eqn:El0; try done. apply Forall_forall. intros ctx Hin.
  eapply Forall_forall in Hr; [|exact Hin]. rewrite notify_events_other; [done|]. apply (fo_apart v W).
  eapply active_pending; [done|done|]. apply list_elem_of_fmap. eauto.
Qed.

(** Phase 1 starts on channels nobody has sent to. *)
Lemma cut_phase1 v v' ck active :
  svc_step LoopTask v v' -> flight_ok v -> feed_ok v -> flow_ok v -> sv_loop v = Checked ck active -> cut_ok v' ck.
Proof.
  intros E F D W El. destruct (fo_cut v W ck) as [Hck _]; [by rewrite El|].
  destruct (phase1_step v v' ck active E W El) as (rs1 & rs2 & C & El' & _ & Es).
  split; [by rewrite Es|]. exists rs1, rs2. split; [rewrite Es; by apply (log_cut_light (store v))|].
  unfold replayed_ok. rewrite El'. apply Forall_forall. intros ctx Hin.
  pose proof (outstanding_NoDup v F) as [Hnd _]%NoDup_app. unfold outstanding in Hnd. rewrite El in Hnd.
  apply NoDup_app in Hnd as (_ & _ & Hnd). cbn in Hnd.
  assert (cx_event_tx ctx ∈ early v) as He
    by (unfold early; rewrite El; apply elem_of_app; right; apply list_elem_of_fmap; eauto).
  destruct (fd_early v D _ He) as [_ (o & Eo)]. rewrite Es. cbn [chans set_chans].
  rewrite <- (log_events_sig ∅ rs1), <- (app_nil_l (picked _ _)). by eapply delivers_hears.
Qed.

Lemma cut_loop v v' ck :
  svc_step LoopTask v v' -> flight_ok v -> feed_ok v -> flow_ok v -> checkpoint (sv_loop v') = Some ck -> cut_ok v' ck.
Proof.
  intros E F D W Hck. pose proof E as [_ El]. cbn [next] in El. unfold loop_step in El.
  assert (forall l rs, cut_ok v ck -> checkpoint l = Some ck -> (forall ck active prev, l <> Replayed ck active prev) ->
    cut_ok (set_loop l (answer_all rs v)) ck) as Hkeep.
  { intros l rs (Hlt & rs1 & rs2 & Hc & _) _ Hl. split; [done|]. exists rs1, rs2. split; [done|].
    unfold replayed_ok. destruct l as [| | | | |k a p| |]; try done. by destruct (Hl k a p). }
  destruct (sv_loop v) as [|batch nf|ck0 batch|ck0 active|ck0 active|ck0 active prev|active|] eqn:El0; [| | | | | | |done].
  - destruct (sv_queue v); [done|]. by injection El as <-.
  - destruct (sv_queue v) as [|c q]; [|by injection El as <-]. destruct nf; [|done]. injection El as <-.
    cbn in Hck. injection Hck as <-. destruct (sys_inv_durable _ (fl_sys v F)) as (rs & Du).
    assert (inv (store v)) as I by apply (fl_sys v F). split; [change ((current_checkpoint (store v)).1 < next_rev (store v)); rewrite checkpoint_rev by done; lia|].
    exists rs, []. split; [by apply log_cut_now|done].
  - destruct (admit_all (store v) batch) as [refs active]. injection El as <-. destruct active; [done|].
    apply Hkeep; try done. apply (fo_cut v W). rewrite El0. by cbn in *.
  - destruct (reject_duplicates (store v) active) as [[dups active']| |]; [|by injection El as <-..]. injection El as <-.
    destruct active'; [done|]. apply Hkeep; try done. apply (fo_cut v W). rewrite El0. by cbn in *.
  - destruct (phase1_step v v' ck0 active E W El0) as (? & ? & _ & El' & _). rewrite El' in Hck. cbn in Hck.
    injection Hck as ->. by eapply cut_phase1.
  - destruct (phase2_step v v' ck0 active prev E W El0) as (? & ? & _ & _ & El' & _). by rewrite El' in Hck.
  - by injection El as <-.
Qed.

Lemma flow_step l v v' : svc_step l v v' -> flight_ok v -> feed_ok v -> flow_ok v -> flow_ok v'.
Proof.
  intros E F D W. split; [by eapply own_step|intros n Hn; by eapply apart_step|]. intros ck Hck. change (cut_ok v' ck).
  destruct (of_loop l) eqn:Hl.
  { destruct l; try done; [by apply (cut_loop v)|]. destruct E as [_ E]. cbn [next] in E. unfold timer_step in E.
    repeat case_match; simplify_eq; done. }
  destruct (step_frame l v v' E Hl) as [El _]. rewrite El in Hck. pose proof (fo_cut v W ck Hck) as Hc.
  destruct (rewrites l) eqn:Hr.
  - destruct l as [| |c| |fs| | | |]; try done; [by eapply cut_command|]. destruct E as [Hok _]. cbn in Hok. congruence.
  - apply (cut_calm v); [by eapply step_light| |done|done]. apply (step_calm l); try done.
    destruct l; try done.
Qed.

Lemma flow_init : flow_ok svc_init.
Proof. split; [apply NoDup_nil_2|by intros n ?%not_elem_of_nil|done]. Qed.

Record good (v : Svc) : Prop := { gd_flight : flight_ok v; gd_feed : feed_ok v; gd_flow : flow_ok v }.

Lemma good_step l v v' : svc_step l v v' -> good v -> good v'.
Proof. intros E [F D W]. split; [by eapply flight_step|by eapply feed_step|by eapply flow_step]. Qed.

Lemma good_run ls v v' : svc_run ls v v' -> good v -> good v'.
Proof. intros R. apply (lrun_keeps _ _ _ _ _ _ good_step R). Qed.

Lemma good_init : good svc_init.
Proof. split; [apply flight_init|apply feed_init|apply flow_init]. Qed.

(** ** After registration *)

(** The watcher's channel was sent a prefix of [sigs], and all of it while the
    watcher is registered and listened to. *)
Record tracks (v : Svc) (reg : WatchRegistration) (sigs : list signature) : Prop := {
  tr_settled : (wr_sender reg < sv_fresh v)%nat /\ wr_sender reg ∉ pending v;
  tr_only : forall w, w ∈ watchers (store v) -> wr_sender w = wr_sender reg -> w = reg;
  tr_chan : exists ch, chans (store v) !! wr_sender reg = Some ch /\ (event_sig <$> ch_sent ch) `prefix_of` sigs
    /\ (ch_open ch = true -> reg ∈ watchers (store v) -> event_sig <$> ch_sent ch = sigs) }.

Lemma tracks_calm v v' reg sigs :
  calm (store v) (store v') -> (wr_sender reg < sv_fresh v')%nat -> wr_sender reg ∉ pending v' ->
  tracks v reg sigs -> tracks v' reg sigs.
Proof.
  intros [C Ws] Hf Hp [_ T2 (ch & Ech & Hpre & Heq)].
  assert (forall w, w ∈ watchers (store v') -> w ∈ watchers (store v)) as Hin
    by (intros w Hw; eapply elem_of_submseteq; [exact Hw|by apply sublist_submseteq]).
  split; [done|by auto|]. destruct (C _ _ Ech) as (o & Eo & Ho). eexists. split; [exact Eo|]. cbn. auto.
Qed.

Lemma tracks_command c v v' reg sigs :
  svc_step (StoreCommand c) v v' -> good v -> (wr_sender reg < sv_fresh v')%nat -> wr_sender reg ∉ pending v' ->
  tracks v reg sigs -> tracks v' reg (sigs ++ picked (wants reg) (record_sig <$> written (StoreCommand c) v)).
Proof.
  intros E [F D W] Hf Hp [_ T2 (ch & Ech & Hpre & Heq)]. destruct (sys_inv_durable _ (fl_sys v F)) as (rs & Du).
  destruct (command_writes c v v' rs E F Du) as (_ & _ & _ & evs & Esig & Ew & Ec). rewrite <- Esig.
  split; [done|by rewrite Ew|]. rewrite Ec, Ew.
  destruct (decide (wr_sender reg ∈ (wr_sender <$> watchers (store v)))) as [Hin|Hout].
  - apply list_elem_of_fmap in Hin as (w & Es & Hw). assert (w = reg) as -> by by apply T2.
    destruct (notify_hears (watchers (store v)) evs reg ch sigs (chans (store v))) as (ch' & E' & [Hpre' Heq']); try done.
    + apply (fo_own v W).
    + split; [done|]. by auto.
    + exists ch'. split; [done|]. split; [done|]. auto.
  - rewrite notify_events_other by done. exists ch. split; [done|]. split; [by apply prefix_app_r|].
    intros _ Hreg. destruct Hout. apply list_elem_of_fmap. eauto.
Qed.

(** Another batch's replay and registration. *)
Lemma tracks_flush v v' reg sigs want active evs :
  (wr_sender reg < sv_fresh v')%nat -> wr_sender reg ∉ pending v' -> wr_sender reg ∉ (cx_event_tx <$> active) ->
  chans (store v') = delivers want active (chans (store v)) evs ->
  (forall w, w ∈ watchers (store v') -> w ∈ watchers (store v) \/ w ∈ (registration <$> active)) ->
  tracks v reg sigs -> tracks v' reg sigs.
Proof.
  intros Hf Hp Hn Ec Hw [_ T2 (ch & Ech & Hpre & Heq)].
  assert (forall w, w ∈ watchers (store v') -> wr_sender w = wr_sender reg -> w ∈ watchers (store v)) as Hin.
  { intros w [Hv|Ha]%Hw Es; [done|]. destruct Hn. rewrite <- Es, <- registration_senders. apply list_elem_of_fmap. eauto. }
  split; [done|by auto|]. exists ch. rewrite Ec, delivers_other by done. auto.
Qed.

Lemma tracks_step l v v' reg sigs :
  svc_step l v v' -> good v -> tracks v reg sigs -> tracks v' reg (sigs ++ picked (wants reg) (record_sig <$> written l v)).
Proof.
  intros E G T. pose proof G as [F D W]. pose proof T as [[Hf Hp] _ _].
  destruct (settled_step l v v' _ E F Hf Hp) as [Hf' Hp'].
  destruct (sends l v) eqn:Hs; [|].
  - destruct l as [| |c| | | | | |]; try done; [by apply tracks_command|]. cbn [written fmap list_fmap]. rewrite filter_nil, app_nil_r.
    unfold sends in Hs. destruct (sv_loop v) as [| | | |ck active|ck active prev| |] eqn:El; try done.
    + destruct (phase1_step v v' _ _ E W El) as (? & ? & _ & _ & _ & Es).
      eapply (tracks_flush v v' reg sigs); [done|done| |by rewrite Es|rewrite Es; by left|done].
      unfold pending in Hp. rewrite El in Hp. set_solver.
    + destruct (phase2_step v v' _ _ _ E W El) as (rs1 & rs2 & _ & _ & _ & _ & Es).
      match type of Es with _ = register_all _ ?s => destruct (register_all_fields active s) as (Ew & _ & _ & Ec & _) end.
      eapply (tracks_flush v v' reg sigs); [done|done| |by rewrite Es, Ec| |done].
      * unfold pending in Hp. rewrite El in Hp. set_solver.
      * intros w. rewrite Es, Ew. set_solver.
  - assert (written l v = []) as -> by (by destruct l). cbn [fmap list_fmap]. rewrite filter_nil, app_nil_r.
    apply (tracks_calm v); try done. by eapply step_calm.
Qed.

Lemma tracks_run ls v v' reg sigs :
  svc_run ls v v' -> good v -> tracks v reg sigs -> tracks v' reg (sigs ++ picked (wants reg) (record_sig <$> writes ls v)).
Proof.
  intros R. revert sigs. induction R as [v|l ls v v1 v' E R IH]; intros sigs G T; cbn [writes].
  - cbn [fmap list_fmap]. by rewrite filter_nil, app_nil_r.
  - pose proof E as [_ ->]. rewrite fmap_app, filter_app, app_assoc. apply IH; [by eapply good_step|by apply tracks_step].
Qed.

(** *** Registration *)

(** What was replayed to a watch whose batch took the checkpoint between [old] and
    [meanwhile], and what is due to it since. *)
Definition due (reg : WatchRegistration) (old meanwhile recent : list KvWalRecord) : list signature :=
  picked (wants reg) (record_sig <$> old) ++ picked (selects reg) (record_sig <$> meanwhile)
  ++ picked (wants reg) (record_sig <$> recent).

Lemma registers v v' ck active prev ctx :
  svc_step LoopTask v v' -> good v -> sv_loop v = Replayed ck active prev -> ctx ∈ active ->
  exists old meanwhile, log_cut (store v) ck old meanwhile /\ registration ctx ∈ watchers (store v')
    /\ tracks v' (registration ctx) (due (registration ctx) old meanwhile []).
Proof.
  intros E G El Hin. pose proof G as [F D W]. pose proof (good_step _ _ _ E G) as [_ _ W'].
  destruct (phase2_step v v' _ _ _ E W El) as (rs1 & rs2 & C & Hr & El' & Eq & Es). exists rs1, rs2. split; [done|].
  destruct (active_pending v ck active prev El F) as (Hnd & Hp & Hq).
  assert (cx_event_tx ctx ∈ (cx_event_tx <$> active)) as Hn by (apply list_elem_of_fmap; eauto).
  match type of Es with _ = register_all _ ?s => destruct (register_all_fields active s) as (Ew & _ & _ & Ec & _) end.
  rewrite <- Es in Ew, Ec. cbn [chans set_chans watchers] in Ew, Ec.
  assert (registration ctx ∈ watchers (store v')) as Hreg
    by (rewrite Ew; apply elem_of_app; right; apply list_elem_of_fmap; eauto).
  split; [done|]. unfold due. cbn [fmap list_fmap]. rewrite filter_nil, app_nil_r. split.
  - cbn. split.
    + pose proof (outstanding_below v _ F (pending_outstanding v _ (Hp _ Hn))). pose proof (step_counts _ _ _ E). lia.
    + unfold pending. rewrite El', app_nil_r, Eq. auto.
  - intros w Hw Esd. apply (NoDup_fmap_elem wr_sender (watchers (store v'))); [apply (fo_own v' W')|done..].
  - unfold replayed_ok in Hr. rewrite El in Hr. eapply Forall_forall in Hr; [|exact Hin]. destruct Hr as (ch & Ech & Hh).
    destruct (delivers_hears ctx_selects (selects (registration ctx)) active (log_events prev rs2) ctx ch _ _ Hnd Hin Ech Hh)
      as (ch' & Ech' & Hpre & Heq); [done|]. rewrite log_events_sig in Hpre, Heq.
    exists ch'. rewrite Ec. auto.
Qed.

(** ** Where a create comes from *)

(** The stream task [i] is about to read the request. *)
Definition asking (v : Svc) (i : nat) (c : Created) (create : WatchCreateRequest) (g : GlobalCreate) : Prop :=
  exists st ms, sv_streams v !! i = Some st /\ st_phase st = Reading /\ st_in st = CreateRequest create :: ms
    /\ g = (on_create (store v) (sv_next_watch_id v) (sv_fresh v) (sv_fresh v) create).1
    /\ c = mkCreated (sv_fresh v) (gc_watch_id g) (wc_progress_notify create).

Definition asked (ls : list Label) (i : nat) (c : Created) (create : WatchCreateRequest) (g : GlobalCreate) : Prop :=
  exists ls1 ls2 v, ls = ls1 ++ StreamTask i :: ls2 /\ svc_run ls1 svc_init v /\ asking v i c create g.

Lemma asked_app ls ls' i c create g : asked ls i c create g -> asked (ls ++ ls') i c create g.
Proof. intros (ls1 & ls2 & v & -> & R & A). exists ls1, (ls2 ++ ls'), v. by rewrite <- app_assoc. Qed.

(** The context of a create that is not refused. *)
Definition admitted (g : GlobalCreate) : WatchContext :=
  let p := gc_pending g in
  mkCtx (pc_key p) (pc_range_end p) (pc_start_revision p) (gc_watch_id g) (pc_progress_notify p) (pc_filters p)
    (pc_prev_kv p) (resolve_range (pc_key p) (pc_range_end p)) (gc_event_tx g) (Some (gc_reply g)).

Definition requests (v : Svc) : list GlobalCreate := sv_queue v ++ loop_creates (sv_loop v).

Definition serving (st : Stream) : option Created :=
  match st_phase st with Awaiting c | Sending _ (Some c) => Some c | _ => None end.

(** The stream [i] or a forwarding task of it works for the create. *)
Definition served (v : Svc) (i : nat) (c : Created) : Prop :=
  (exists st, sv_streams v !! i = Some st /\ serving st = Some c)
  \/ exists f, f ∈ sv_forwarders v /\ fw_stream f = i /\ fw_create f = c.

Lemma admit_all_ctxs s batch x : x ∈ (admit_all s batch).2 -> exists g, g ∈ batch /\ x = admitted g.
Proof.
  induction batch as [|g batch IH]; cbn [admit_all]; [by intros ?%not_elem_of_nil|].
  destruct (admit_all s batch) as [replies active]. cbn [snd] in IH.
  assert (x ∈ active -> exists g', g' ∈ g :: batch /\ x = admitted g') as Hrest
    by (intros (g' & Hg & ->)%IH; exists g'; split; [by right|done]).
  unfold admission. destruct (_ && _); [done|]. destruct (_ && _); [done|]. cbn.
  intros [->|?]%elem_of_cons; [|auto]. exists g. split; [left|done].
Qed.

(** A stream that goes on with what it was serving, or is done with it. *)
Lemma served_stream v v' i0 st st' i c :
  sv_streams v !! i0 = Some st -> sv_streams v' = <[i0 := st']> (sv_streams v) ->
  (serving st' = serving st \/ serving st' = None) ->
  (forall f, f ∈ sv_forwarders v' -> f ∈ sv_forwarders v \/ fw_stream f = i0 /\ serving st = Some (fw_create f)) ->
  served v' i c -> served v i c.
Proof.
  intros Hi0 Es Hst Hf [(st1 & E1 & Hs)|(f & [Hin|[<- Hs]]%Hf & <- & <-)].
  - rewrite Es in E1. destruct (streams_insert _ _ st _ i st1 Hi0 E1) as [[-> ->]|E]; [|left; eauto].
    left. exists st. split; [done|]. destruct Hst; congruence.
  - right. eauto.
  - left. eauto.
Qed.

(** A step of a stream task: a create is read, or the creates stay. *)
Lemma trace_stream i0 v v' :
  stream_step i0 v = Some v' -> flight_ok v ->
  (exists c create g, asking v i0 c create g /\ sv_queue v' = sv_queue v ++ [g]
     /\ forall i c', served v' i c' -> served v i c' \/ i = i0 /\ c' = c)
  \/ sv_queue v' = sv_queue v /\ forall i c', served v' i c' -> served v i c'.
Proof.
  unfold stream_step. intros E F. pose proof (fl_loop v F) as Hloop. destruct (sv_streams v !! i0) as [st|] eqn:Hi0; [|done].
  destruct (st_phase st) as [|c|resp spawn|] eqn:Hp; [| | |done].
  - assert (serving st = None) as Hs by (unfold serving; by rewrite Hp).
    destruct (st_in st) as [|m ms] eqn:Hin.
    + destruct (st_in_closed st); [|done]. injection E as <-. right. split; [done|]. intros i c.
      eapply (served_stream v _ i0 st); try done; by auto.
    + injection E as <-. destruct m as [create|id| |]; cbn [read_message];
        [|right; split; [done|]; intros i c; eapply (served_stream v _ i0 st); try done; by auto..].
      left. destruct (on_create (store v) (sv_next_watch_id v) (sv_fresh v) (sv_fresh v) create) as [g counter] eqn:Eg.
      cbn [sv_loop set_counters].
      assert (forall T (a b : T), match sv_loop v with Panicked => a | _ => b end = b) as Hm
        by (intros T a b; by destruct (sv_loop v)). rewrite Hm.
      eexists _, create, g. split; [|split; [done|]].
      * exists st, ms. rewrite Eg. done.
      * intros i c [(st1 & E1 & Hs1)|(f & Hf & Ef)]; [|left; right; eauto]. cbn in E1.
        destruct (streams_insert _ _ st _ i st1 Hi0 E1) as [[-> ->]|Eo]; [|left; left; eauto]. right. by injection Hs1 as <-.
  - right. assert (serving st = Some c) as Hs by (unfold serving; by rewrite Hp).
    destruct (sv_replies v !! cr_chan c); [|by destruct (sv_loop v)]. injection E as <-. split; [done|]. intros i c'.
    eapply (served_stream v _ i0 st); try done; by auto.
  - right. assert (serving st = spawn) as Hs by (unfold serving; rewrite Hp; by destruct spawn).
    destruct (negb _); [injection E as <-; split; [done|]; intros i c'; eapply (served_stream v _ i0 st); try done; by auto|].
    destruct (tx_room st); [|done]. injection E as <-. destruct spawn as [c|]; (split; [done|]); intros i c';
      eapply (served_stream v _ i0 st); try done; auto.
    cbn. intros f [?|Hf]%elem_of_app; [by left|]. apply list_elem_of_singleton in Hf as ->. by right.
Qed.

(** The other tasks leave it to the stream tasks to create and serve. *)
Lemma served_forwarder tick j v v' i c : forwarder_step tick j v = Some v' -> served v' i c -> served v i c.
Proof.
  unfold forwarder_step. destruct (sv_forwarders v !! j) as [f|] eqn:Hj; [|done]. destruct (fw_done f); [done|].
  assert (forall f' x, x ∈ <[j := f']> (sv_forwarders v) -> fw_stream f' = fw_stream f -> fw_create f' = fw_create f ->
    exists f0, f0 ∈ sv_forwarders v /\ fw_stream f0 = fw_stream x /\ fw_create f0 = fw_create x) as Hins.
  { intros f' x [k Hk]%list_elem_of_lookup Hs Hc. destruct (streams_insert _ _ f _ k x Hj Hk) as [[-> ->]|Hk'].
    - exists f. split; [by eapply list_elem_of_lookup_2|done].
    - exists x. split; [by eapply list_elem_of_lookup_2|done]. }
  assert (forall s f', fw_stream f' = fw_stream f -> fw_create f' = fw_create f ->
    served (set_forwarder j f' (set_store s v)) i c -> served v i c) as Hset.
  { intros s f' Hs Hc [?|(x & Hx & <- & <-)]; [by left|]. right. destruct (Hins f' x Hx Hs Hc) as (f0 & ? & ? & ?). eauto. }
  assert (forall f', fw_stream f' = fw_stream f -> fw_create f' = fw_create f ->
    served (set_forwarder j f' v) i c -> served v i c) as Hset'.
  { intros f' Hs Hc [?|(x & Hx & <- & <-)]; [by left|]. right. destruct (Hins f' x Hx Hs Hc) as (f0 & ? & ? & ?). eauto. }
  unfold forwarder_send, forwarder_select. destruct (fw_sending f) as [resp|].
  - destruct (sv_streams v !! fw_stream f) as [st|] eqn:Hst; [|done]. destruct (negb _); [intros [= <-]; by apply Hset|].
    destruct (tx_room st); [|done]. intros [= <-] [(st1 & E1 & Hs1)|(x & Hx & <- & <-)].
    + cbn in E1. destruct (streams_insert _ _ st _ i st1 Hst E1) as [[-> ->]|Eo]; left; eauto.
    + right. destruct (Hins _ x Hx eq_refl eq_refl) as (f0 & ? & ? & ?). eauto.
  - repeat case_match; try done; intros [= <-]; by (apply Hset || apply Hset').
Qed.

(** What the loop holds comes from the queue. *)
Lemma trace_loop v v' :
  loop_step v = Some v' \/ timer_step v = Some v' -> flight_ok v ->
  (forall g, g ∈ requests v' -> g ∈ requests v)
  /\ (forall x, x ∈ loop_ctxs (sv_loop v') -> x ∈ loop_ctxs (sv_loop v) \/ exists g, g ∈ requests v /\ x = admitted g)
  /\ forall i c, served v' i c -> served v i c.
Proof.
  intros E F. assert (sv_streams v' = sv_streams v /\ sv_forwarders v' = sv_forwarders v) as [Es Ef].
  { unfold loop_step, timer_step in E. destruct E as [E|E]; repeat case_match; simplify_eq; done. }
  pose proof (fl_ctxs v F) as Hcx. pose proof (fl_log v F) as Hlog.
  enough ((forall g, g ∈ requests v' -> g ∈ requests v)
    /\ (forall x, x ∈ loop_ctxs (sv_loop v') -> x ∈ loop_ctxs (sv_loop v) \/ exists g, g ∈ requests v /\ x = admitted g)) as [? ?]
    by (unfold served; rewrite Es, Ef; auto).
  unfold requests. destruct E as [E|E]; unfold loop_step, timer_step in E.
  2: { destruct (sv_loop v) as [|b []| | | | | |] eqn:El; try done. injection E as <-. by cbn; auto. }
  destruct (sv_loop v) as [|batch nf|ck batch|ck active|ck active|ck active prev|active|] eqn:El; [| | | | | | |done].
  - destruct (sv_queue v) as [|g q]; [done|]. injection E as <-. cbn. split; [set_solver|]. by intros x ?%not_elem_of_nil.
  - destruct (sv_queue v) as [|g q] eqn:Eq; [destruct nf; [|done]|]; injection E as <-; cbn; rewrite ?Eq;
      (split; [set_solver|]; by intros x ?%not_elem_of_nil).
  - destruct (admit_all (store v) batch) as [refs active] eqn:Ea. injection E as <-.
    split; [cbn; destruct active; cbn; set_solver|]. intros x Hx. right.
    destruct (admit_all_ctxs (store v) batch x) as (g & Hg & Ex); [rewrite Ea; by destruct active|].
    exists g. split; [set_solver|done].
  - destruct (reject_duplicates_answers (store v) active Hcx) as (replies & kept & Hd & _ & Hin & _). rewrite Hd in E.
    injection E as <-. split; [cbn; destruct kept; cbn; set_solver|]. intros x Hx. left. apply Hin. by destruct kept.
  - destruct (sys_inv_durable _ (fl_sys v F)) as (rs & Du).
    destruct (flush_phase1_safe ck.1 active (store v) rs Du) as (prev & cs & Hph & _). rewrite Hph in E. injection E as <-.
    cbn. auto.
  - destruct (flush_phase2_safe ck active prev (store v) _ Hlog eq_refl) as (cs & Hph & _). rewrite Hph in E.
    injection E as <-. cbn. auto.
  - injection E as <-. cbn. split; [set_solver|]. by intros x ?%not_elem_of_nil.
Qed.

Record provenance (ls : list Label) (v : Svc) : Prop := {
  tc_requests : forall g, g ∈ requests v -> exists i c create, asked ls i c create g;
  tc_ctxs : forall x, x ∈ loop_ctxs (sv_loop v) -> exists i c create g, asked ls i c create g /\ x = admitted g;
  tc_served : forall i c, served v i c -> exists create g, asked ls i c create g }.

Lemma traced_kept ls l v v' :
  provenance ls v -> (forall g, g ∈ requests v' -> g ∈ requests v) ->
  (forall x, x ∈ loop_ctxs (sv_loop v') -> x ∈ loop_ctxs (sv_loop v) \/ exists g, g ∈ requests v /\ x = admitted g) ->
  (forall i c, served v' i c -> served v i c) -> provenance (ls ++ [l]) v'.
Proof.
  intros [T1 T2 T3] Hg Hx Hs. split.
  - intros g (i & c & create & A)%Hg%T1. exists i, c, create. by apply asked_app.
  - intros x [(i & c & create & g & A & ->)%T2|(g & (i & c & create & A)%T1 & ->)]%Hx;
      exists i, c, create, g; (split; [by apply asked_app|done]).
  - intros i c (create & g & A)%Hs%T3. exists create, g. by apply asked_app.
Qed.

Lemma traced_step ls l v v' :
  svc_run ls svc_init v -> svc_step l v v' -> flight_ok v -> provenance ls v -> provenance (ls ++ [l]) v'.
Proof.
  intros R E F T. pose proof E as [_ Es].
  assert (sv_queue v' = sv_queue v -> sv_loop v' = sv_loop v -> (forall i c, served v' i c -> served v i c) ->
    provenance (ls ++ [l]) v') as Hsame.
  { intros Eq El Hs. apply (traced_kept ls l v); try done; unfold requests; rewrite ?Eq, ?El; auto. }
  destruct l as [|i0 a|c| |fs|i0|j tick| |]; cbn [next] in Es.
  - injection Es as <-. apply Hsame; try done. intros i c [(st & Hst & Hs)|?]; [left|by right].
    cbn in Hst. apply lookup_app_Some in Hst as [?|[_ Hst]]; [eauto|].
    apply list_lookup_singleton_Some in Hst as [_ <-]. done.
  - destruct (sv_streams v !! i0) as [st|] eqn:Hi; [|done]. destruct (client_step a st) as [st'|] eqn:Hc; [|done].
    injection Es as <-. apply Hsame; try done. intros i c. eapply (served_stream v _ i0 st); try done; [|by auto].
    left. unfold serving. by rewrite (client_step_phase _ _ _ Hc).
  - injection Es as <-. by apply Hsame.
  - destruct (sys_compaction _); [done|]. injection Es as <-. by apply Hsame.
  - destruct (sys_compaction _); [|done]. destruct (compact_phase_b _ _) as [? []]; injection Es as <-; by apply Hsame.
  - destruct (stream_step_frame _ _ _ Es) as [El _].
    destruct (trace_stream i0 v v' Es F) as [(c & create & g & A & Eq & Hs)|[Eq Hs]]; [|by apply Hsame].
    assert (asked (ls ++ [StreamTask i0]) i0 c create g) as Hnew by (exists ls, [], v; done).
    destruct T as [T1 T2 T3]. split.
    + intros g'. unfold requests. rewrite Eq, El, <- app_assoc, !elem_of_app, list_elem_of_singleton. intros Hg.
      assert (g' = g \/ g' ∈ requests v) as [->|(i & c' & cr & A')%T1] by (unfold requests; set_solver); [eauto|].
      exists i, c', cr. by apply asked_app.
    + intros x. rewrite El. intros (i & c' & cr & g' & A' & ->)%T2. exists i, c', cr, g'. split; [by apply asked_app|done].
    + intros i c' [(cr & g' & A')%T3|[-> ->]]%Hs; [exists cr, g'; by apply asked_app|eauto].
  - apply forwarder_step_frame in Es as Ef. destruct Ef as [El Eq]. apply Hsame; try done. intros i c. by eapply served_forwarder.
  - destruct (trace_loop v v' (or_introl Es) F) as (? & ? & ?). by apply (traced_kept ls _ v).
  - destruct (trace_loop v v' (or_intror Es) F) as (? & ? & ?). by apply (traced_kept ls _ v).
Qed.

Lemma traced_run ls v : svc_run ls svc_init v -> provenance ls v.
Proof.
  revert v. induction ls as [|l ls IH] using rev_ind; intros v R.
  - inversion R; subst. split; [by intros g ?%not_elem_of_nil|by intros x ?%not_elem_of_nil|].
    intros i c [(st & ? & _)|(f & Hf & _)]; [done|by apply not_elem_of_nil in Hf].
  - apply lrun_split in R as (v1 & R1 & E%lrun_one). eapply traced_step; eauto. eapply flight_run; [done|apply flight_init].
Qed.

(** No two creates have the same number. *)
Lemma asked_once ls i c create g i' c' create' g' :
  asked ls i c create g -> asked ls i' c' create' g' -> cr_chan c = cr_chan c' ->
  i = i' /\ c = c' /\ create = create' /\ g = g'.
Proof.
  assert (forall ls1 ls2 i i' v1 v2 c c' create create' g g',
    svc_run ls1 svc_init v1 -> svc_run (ls1 ++ StreamTask i :: ls2) svc_init v2 ->
    asking v1 i c create g -> asking v2 i' c' create' g' -> cr_chan c = cr_chan c' -> False) as Hlt.
  { intros ls1 ls2 j j' v1 v2 d d' cr cr' h h' R1 R2 (st & ms & Hst & Hp & Hin & -> & ->) (? & ? & _ & _ & _ & _ & ->) Hc.
    apply lrun_split in R2 as (v1' & R1' & R2). rewrite (lrun_det _ _ _ _ _ _ R1' R1) in R2.
    inversion R2 as [|? ? ? va ? E Rb]; subst. apply run_counts in Rb as [Hb _]. cbn in Hc.
    destruct E as [_ E]. cbn [next] in E. unfold stream_step in E. rewrite Hst, Hp, Hin in E. injection E as <-.
    cbn [read_message] in Hb. destruct (on_create _ _ _ _ _) as [g0 counter]. cbn [sv_loop set_counters] in Hb.
    destruct (sv_loop v1); cbn in Hb; lia. }
  intros (ls1 & ls2 & v1 & E1 & R1 & A1) (ls1' & ls2' & v1' & E1' & R1' & A1') Hc. rewrite E1 in E1'.
  destruct (lt_eq_lt_dec (length ls1) (length ls1')) as [[Hl|Hl]|Hl].
  - exfalso. assert (exists k, ls1' = ls1 ++ StreamTask i :: k) as [k ->].
    { apply app_eq_app in E1' as (k & [[-> E]|[-> E]]); [rewrite length_app in Hl; lia|].
      destruct k as [|l k]; [rewrite length_app in Hl; cbn in Hl; lia|]. injection E as <- _. by exists k. }
    eapply (Hlt ls1 k i i' v1 v1'); done.
  - apply app_inj_1 in E1' as [<- [= <- _]]; [|done]. rewrite (lrun_det _ _ _ _ _ _ R1' R1) in A1'.
    destruct A1 as (st & ms & Hst & _ & Hin & -> & ->), A1' as (st' & ms' & Hst' & _ & Hin' & -> & ->).
    rewrite Hst in Hst'. injection Hst' as <-. rewrite Hin in Hin'. by injection Hin' as <- _.
  - exfalso. assert (exists k, ls1 = ls1' ++ StreamTask i' :: k) as [k ->].
    { apply app_eq_app in E1' as (k & [[-> E]|[-> E]]); [|rewrite length_app in Hl; lia].
      destruct k as [|l k]; [rewrite length_app in Hl; cbn in Hl; lia|]. injection E as <- _. by exists k. }
    eapply (Hlt ls1' k i' i v1' v1); done.
Qed.

(** ** Where a confirmation comes from *)

Definition says (st : Stream) (n : nat) : Prop :=
  (exists r c, st_phase st = Sending r (Some c) /\ cr_chan c = n /\ wp_created r = true)
  \/ exists r, (Some n, r) ∈ st_out st /\ wp_created r = true.

(** The watch was registered, and its [created] response is made, waiting, being
    sent or sent. *)
Definition confirmed (v : Svc) (n : nat) : Prop :=
  (exists active, sv_loop v = Registered active /\ n ∈ (cx_event_tx <$> active))
  \/ (exists r, sv_replies v !! n = Some r /\ wp_created r = true)
  \/ exists i st, sv_streams v !! i = Some st /\ says st n.

Lemma confirmed_loop v v' n :
  svc_step LoopTask v v' -> flight_ok v -> confirmed v' n ->
  confirmed v n \/ exists ck active prev, sv_loop v = Replayed ck active prev /\ n ∈ (cx_event_tx <$> active).
Proof.
  intros [_ E] F. pose proof (fl_ctxs v F) as Hcx. pose proof (fl_creates v F) as Hcr. pose proof (fl_log v F) as Hlog.
  apply Forall_app in Hcr as [_ Hcr]. cbn [next] in E. unfold loop_step in E.
  assert (forall l rs, Forall (fun r => wp_created r.2 = true -> confirmed v n \/ r.1 <> n) rs ->
    (forall active, l <> Registered active) -> confirmed (set_loop l (answer_all rs v)) n -> confirmed v n) as Hans.
  { intros l rs Hrs Hl [(active & El & _)|[(r & Hr & Hc)|Hs]]; [by destruct (Hl active)| |by right; right].
    apply (answer_lookup rs v) in Hr as [Hin|Hr]; [|right; left; eauto]. eapply Forall_forall in Hrs; [|exact Hin].
    destruct Hrs as [?|?]; done. }
  assert (forall rs, Forall (fun r : nat * WatchResponse => refusal r.2) rs ->
    Forall (fun r => wp_created r.2 = true -> confirmed v n \/ r.1 <> n) rs) as Href.
  { intros rs Hrs. eapply Forall_impl; [exact Hrs|]. intros r [Hc _] Hc'. congruence. }
  destruct (sv_loop v) as [|batch nf|ck batch|ck active|ck active|ck active prev|active|] eqn:El; [| | | | | | |done].
  - destruct (sv_queue v) as [|g q]; [done|]. injection E as <-. intros [(? & ? & _)|?]; [done|]. left. by right.
  - destruct (sv_queue v) as [|g q]; [destruct nf; [|done]|]; injection E as <-; (intros [(? & ? & _)|?]; [done|]); left; by right.
  - destruct (admit_all (store v) batch) as [refs active] eqn:Ea. injection E as <-. intros Hc. left.
    destruct (admit_all_answers _ _ _ _ Ea Hcr) as (_ & _ & Hf). eapply Hans; [by apply Href| |exact Hc]. by destruct active.
  - destruct (reject_duplicates_answers (store v) active Hcx) as (replies & kept & Hd & _ & _ & Hf). rewrite Hd in E.
    injection E as <-. intros Hc. left. eapply Hans; [by apply Href| |exact Hc]. by destruct kept.
  - destruct (sys_inv_durable _ (fl_sys v F)) as (rs & Du).
    destruct (flush_phase1_safe ck.1 active (store v) rs Du) as (prev & cs & Hph & _). rewrite Hph in E. injection E as <-.
    intros [(? & ? & _)|?]; [done|]. left. by right.
  - destruct (flush_phase2_safe ck active prev (store v) _ Hlog eq_refl) as (cs & Hph & _). rewrite Hph in E.
    injection E as <-. intros [(active' & [= <-] & Hn)|?]; [right; eauto 10|]. left. by right.
  - injection E as <-. intros Hc. left. eapply Hans; [| |exact Hc]; [|done].
    apply Forall_forall. intros [m r] (x & Hx & Hr)%list_elem_of_omap _. destruct (decide (m = n)) as [->|]; [left; left|by right].
    exists active. split; [done|]. unfold created_response in Hr. eapply Forall_forall in Hcx; [|exact Hx]. rewrite Hcx in Hr.
    cbn in Hr. injection Hr as <- _. apply list_elem_of_fmap. eauto.
Qed.

Lemma says_out st st' n :
  st_out st' = st_out st -> (forall r c, st_phase st' <> Sending r (Some c)) -> says st' n -> says st n.
Proof. unfold says. intros -> Hp [(r & c & E & _)|?]; [by destruct (Hp r c)|by right]. Qed.

Lemma says_stream i0 v v' i st' n :
  stream_step i0 v = Some v' -> sv_streams v' !! i = Some st' -> says st' n -> confirmed v n.
Proof.
  unfold stream_step. intros E Hi Hs. destruct (sv_streams v !! i0) as [st|] eqn:Hi0; [|done].
  assert (forall st1, sv_streams v' = <[i0 := st1]> (sv_streams v) -> (says st1 n -> confirmed v n) -> confirmed v n) as Hset.
  { intros st1 Es Hst. rewrite Es in Hi. destruct (streams_insert _ _ st _ i st' Hi0 Hi) as [[-> ->]|]; [auto|right; right; eauto]. }
  assert (forall st1, sv_streams v' = <[i0 := st1]> (sv_streams v) -> st_out st1 = st_out st ->
    (forall r c, st_phase st1 <> Sending r (Some c)) -> confirmed v n) as Hout.
  { intros st1 Es Ho Hp. apply (Hset st1 Es). intros Hs1. right; right. exists i0, st. split; [done|]. by eapply says_out. }
  destruct (st_phase st) as [|c|resp spawn|] eqn:Hp; [| | |done].
  - destruct (st_in st) as [|m ms]; [destruct (st_in_closed st); [|done]|]; injection E as <-; [by eapply Hout|].
    destruct m as [create|id| |]; cbn [read_message] in *; try (by eapply Hout).
    destruct (on_create _ _ _ _ _) as [g counter]. cbn [sv_loop set_counters] in *. destruct (sv_loop v); by eapply Hout.
  - destruct (sv_replies v !! cr_chan c) as [resp|] eqn:Hr; [|destruct (sv_loop v); try done; injection E as <-; by eapply Hout].
    injection E as <-. eapply Hset; [done|]. intros [(r & c' & [= <- <-] & <- & Hc)|(r & Hr' & Hc)]; right; [left; eauto|].
    right. exists i0, st. split; [done|]. right. eauto.
  - destruct (negb _); [injection E as <-; by eapply Hout|]. destruct (tx_room st); [|done]. injection E as <-.
    eapply (Hset (mkStream (st_in st) (st_in_closed st) Reading (st_out st ++ [(cr_chan <$> spawn, resp)]) (st_taken st) (st_rx_open st)));
      [by destruct spawn|].
    intros [(r & c' & ? & _)|(r & [Hr|Hr]%elem_of_app & Hc)]; [done| |]; right; right; exists i0, st; (split; [done|]).
    + right. eauto.
    + apply list_elem_of_singleton in Hr as [= Hn ->]. destruct spawn as [c|]; [|done]. injection Hn as ->. left. eauto.
Qed.

(** Forwarding tasks confirm nothing. *)
Lemma says_forwarder tick j v v' i st' n :
  forwarder_step tick j v = Some v' -> feed_ok v -> sv_streams v' !! i = Some st' -> says st' n -> confirmed v n.
Proof.
  unfold forwarder_step. intros E D Hi Hs. destruct (sv_forwarders v !! j) as [f|] eqn:Hj; [|done]. destruct (fw_done f); [done|].
  assert (sv_streams v' = sv_streams v -> confirmed v n) as Hsame by (intros Es; rewrite Es in Hi; right; right; eauto).
  destruct (fw_sending f) as [resp|] eqn:Hf.
  2: { apply Hsame. unfold forwarder_select in E. repeat case_match; simplify_eq; done. }
  destruct (sv_streams v !! fw_stream f) as [st|] eqn:Hst; [|done]. unfold forwarder_send in E.
  destruct (negb _); [injection E as <-; by apply Hsame|]. destruct (tx_room st); [|done]. injection E as <-. cbn in Hi.
  destruct (streams_insert _ _ st _ i st' Hst Hi) as [[-> ->]|]; [|right; right; eauto].
  right; right. exists (fw_stream f), st. split; [done|]. destruct Hs as [?|(r & [Hr|Hr]%elem_of_app & Hc)]; [by left|right; eauto|].
  apply list_elem_of_singleton in Hr as [= -> ->]. destruct (fd_forwarders v D f) as (? & rest & ? & [_ _ _ Q4 _ _]);
    [by eapply list_elem_of_lookup_2|]. rewrite Hf in Q4. apply Forall_app in Q4 as [_ [Q4 _]%Forall_cons].
  destruct Q4 as (_ & Hn & _). congruence.
Qed.

(** A stream says what it said, or what the loop answered. *)
Lemma says_step l v v' i st' n :
  svc_step l v v' -> feed_ok v -> sv_streams v' !! i = Some st' -> says st' n -> confirmed v n.
Proof.
  intros [_ E] D Hi Hs.
  assert (forall st j, sv_streams v !! j = Some st -> says st n -> confirmed v n) as Hold by (right; right; eauto).
  assert (sv_streams v' = sv_streams v -> confirmed v n) as Hsame by (intros Es; rewrite Es in Hi; by eapply Hold).
  assert (forall j st st1, sv_streams v !! j = Some st -> sv_streams v' = <[j := st1]> (sv_streams v) ->
    (says st1 n -> says st n) -> confirmed v n) as Hset.
  { intros j st st1 Hj Es Hst. rewrite Es in Hi. destruct (streams_insert _ _ st _ i st' Hj Hi) as [[-> ->]|]; eauto. }
  destruct l as [|i0 a|c| |fs|i0|j tick| |]; cbn [next] in E.
  - injection E as <-. cbn in Hi. apply lookup_app_Some in Hi as [Hi|[_ Hi]]; [by eauto|].
    apply list_lookup_singleton_Some in Hi as [_ <-]. destruct Hs as [(? & ? & ? & _)|(r & Hr & _)]; [done|by apply not_elem_of_nil in Hr].
  - destruct (sv_streams v !! i0) as [st|] eqn:Hi0; [|done]. destruct (client_step a st) as [st1|] eqn:Hc; [|done].
    injection E as <-. eapply (Hset i0 st st1); [done|done|]. unfold says. rewrite (client_step_phase _ _ _ Hc).
    assert (st_out st1 = st_out st) as -> by (unfold client_step in Hc; repeat case_match; naive_solver). done.
  - injection E as <-. by apply Hsame.
  - destruct (sys_compaction _); [done|]. injection E as <-. by apply Hsame.
  - destruct (sys_compaction _); [|done]. destruct (compact_phase_b _ _) as [? []]; injection E as <-; by apply Hsame.
  - by eapply says_stream.
  - by eapply says_forwarder.
  - apply Hsame; clear -E; unfold loop_step in E; repeat case_match; simplify_eq; done.
  - apply Hsame; clear -E; unfold timer_step in E; repeat case_match; simplify_eq; done.
Qed.

Lemma confirmed_step l v v' n :
  svc_step l v v' -> good v -> confirmed v' n ->
  confirmed v n \/ l = LoopTask /\ exists ck active prev, sv_loop v = Replayed ck active prev /\ n ∈ (cx_event_tx <$> active).
Proof.
  intros E [F D _] Hc. assert (l = LoopTask \/ l <> LoopTask) as [->|Hne] by (destruct l; auto).
  { destruct (confirmed_loop v v' n E F Hc) as [?|?]; [by left|by right]. }
  left. destruct Hc as [(active & El & Hn)|[(r & Hr & Hc)|(i & st' & Hi & Hs)]]; [| |by eapply says_step].
  - left. exists active. split; [|done]. destruct (of_loop l) eqn:Hl; [|by destruct (step_frame l v v' E Hl) as [<- _]].
    destruct l; try done. destruct E as [_ E]. cbn [next] in E. unfold timer_step in E. by repeat case_match; simplify_eq.
  - right; left. exists r. split; [|done]. destruct (of_loop l) eqn:Hl; [|by eapply step_replies].
    destruct l; try done. destruct E as [_ E]. cbn [next] in E. unfold timer_step in E. by repeat case_match; simplify_eq.
Qed.

(** ** Registration in a run *)

(** The run up to [v] in which the watch was registered: the stream [i] read the
    request [create] and queued [g]; a batch with [g] took its checkpoint [ck] after
    the records [old] and was registered after the records [meanwhile]; and [recent]
    was logged since. *)
Definition registered (ls : list Label) (v : Svc) (i : nat) (create : WatchCreateRequest) (g : GlobalCreate)
    (ck : Z * Z) (old meanwhile recent : list KvWalRecord) : Prop :=
  exists ls1 ls2 v1 v2 c active prev,
    ls = ls1 ++ LoopTask :: ls2 /\ svc_run ls1 svc_init v1 /\ svc_step LoopTask v1 v2 /\ svc_run ls2 v2 v
    /\ asked ls1 i c create g /\ sv_loop v1 = Replayed ck active prev /\ admitted g ∈ active
    /\ log_cut (store v1) ck old meanwhile /\ registration (admitted g) ∈ watchers (store v2)
    /\ recent = writes ls2 v2.

Lemma confirmed_replayed ls v n :
  svc_run ls svc_init v -> confirmed v n ->
  exists ls1 ls2 v1 v2 ck active prev, ls = ls1 ++ LoopTask :: ls2 /\ svc_run ls1 svc_init v1 /\ svc_step LoopTask v1 v2
    /\ svc_run ls2 v2 v /\ sv_loop v1 = Replayed ck active prev /\ n ∈ (cx_event_tx <$> active).
Proof.
  revert v. induction ls as [|l ls IH] using rev_ind; intros v R Hc.
  - inversion R; subst. destruct Hc as [(? & ? & _)|[(? & ? & _)|(? & ? & ? & _)]]; done.
  - apply lrun_split in R as (v0 & R0 & E%lrun_one). pose proof (good_run _ _ _ R0 good_init) as G.
    destruct (confirmed_step l v0 v n E G Hc) as [Hc0|(-> & ck & active & prev & El & Hn)].
    + destruct (IH v0 R0 Hc0) as (ls1 & ls2 & v1 & v2 & ck & active & prev & -> & R1 & E1 & R2 & Hrest).
      exists ls1, (ls2 ++ [l]), v1, v2, ck, active, prev. rewrite <- app_assoc. do 3 (split; [done|]).
      split; [|done]. eapply lrun_app; [done|by apply lrun_one].
    + exists ls, [], v0, v, ck, active, prev. do 3 (split; [done|]). split; [apply lrun_nil|done].
Qed.

Lemma confirmed_registered ls v n :
  svc_run ls svc_init v -> confirmed v n ->
  exists i create g ck old meanwhile recent, gc_event_tx g = n /\ registered ls v i create g ck old meanwhile recent
    /\ tracks v (registration (admitted g)) (due (registration (admitted g)) old meanwhile recent).
Proof.
  intros R Hc. destruct (confirmed_replayed ls v n R Hc) as (ls1 & ls2 & v1 & v2 & ck & active & prev & -> & R1 & E1 & R2 & El & Hn).
  apply list_elem_of_fmap in Hn as (x & -> & Hx). pose proof (good_run _ _ _ R1 good_init) as G1.
  destruct (tc_ctxs _ _ (traced_run ls1 v1 R1) x) as (i & c & create & g & A & ->); [by rewrite El|].
  destruct (registers v1 v2 ck active prev (admitted g) E1 G1 El Hx) as (old & meanwhile & C & Hreg & T).
  exists i, create, g, ck, old, meanwhile, (writes ls2 v2). split; [done|]. split.
  - by exists ls1, ls2, v1, v2, c, active, prev.
  - pose proof (tracks_run ls2 v2 v _ _ R2 (good_step _ _ _ E1 G1) T) as T'. unfold due in *. cbn [fmap list_fmap] in T'.
    by rewrite filter_nil, app_nil_r, <- app_assoc in T'.
Qed.

(** With a start revision at most one past the checkpoint, what is due is what was
    asked for. *)
Lemma due_wants reg ck s old meanwhile recent :
  log_cut s ck old meanwhile -> wr_start_revision reg <= ck.1 + 1 ->
  due reg old meanwhile recent = picked (wants reg) (record_sig <$> old ++ meanwhile ++ recent).
Proof.
  intros C Hst. unfold due. rewrite !fmap_app, !filter_app. pose proof (lc_after _ _ _ _ C) as Ha.
  enough (picked (selects reg) (record_sig <$> meanwhile) = picked (wants reg) (record_sig <$> meanwhile)) as -> by done.
  clear C. induction Ha as [|r rs Hr _ IH]; [done|]. cbn [fmap list_fmap]. rewrite !filter_cons, IH.
  rewrite selects_wants; [done|]. cbn. lia.
Qed.

(** C3. A watching client sees the log. In every state the service can reach, take a
    client whose create request was answered with [created]. Then a stream task read
    that request, and the loop registered the watch it asks for, at a point of the run
    where the log was [old] up to the batch's checkpoint and [meanwhile] after it. The
    responses that followed carry, in order and without gaps, the events sent to the
    watch's channel from the first on; and these are the events of the log the watch
    is due, in log order, none missing and none twice: those of the log at
    registration, and those of the records logged since, as long as the watch is
    registered and listened to. What is due is every record in the watch's range and
    not filtered, from its start revision on; the records of [meanwhile] are not held
    against the start revision, which makes a difference only for a start revision
    beyond the checkpoint. Runs in which the log file is swapped during a flush are
    excluded: see [compaction_during_flush_loses_events]. *)
Theorem watch_sees_the_log ls v i n first rest :
  svc_run ls svc_init v -> received v i n = first :: rest -> wp_created first = true ->
  exists create g ck old meanwhile recent ch,
    registered ls v i create g ck old meanwhile recent /\ gc_event_tx g = n /\ wp_watch_id first = gc_watch_id g
    /\ chans (store v) !! n = Some ch /\ (exists k, events_of rest = event_to_proto <$> take k (ch_sent ch))
    /\ let reg := registration (admitted g) in
       (event_sig <$> ch_sent ch) `prefix_of` due reg old meanwhile recent
       /\ (reg ∈ watchers (store v) -> ch_open ch = true -> event_sig <$> ch_sent ch = due reg old meanwhile recent)
       /\ (wr_start_revision reg <= ck.1 + 1 ->
           due reg old meanwhile recent = picked (wants reg) (record_sig <$> old ++ meanwhile ++ recent)).
Proof.
  intros R Er Hc. destruct (service_inv ls v R) as [F D].
  assert ((i, n) ∈ (owner <$> sv_forwarders v)) as (f & [= -> ->] & Hin)%list_elem_of_fmap
    by (apply (fd_owned v D); by rewrite Er).
  destruct (fd_forwarders v D f Hin) as (first' & rest' & ch & [Q1 Q2 [_ Q3] _ _ Q6]).
  rewrite Er in Q1. injection Q1 as <- <-.
  assert (wp_watch_id first = cr_watch_id (fw_create f)) as Hid
    by (destruct Q3 as [(_ & _ & ?)|[(? & _) _]]; [done|congruence]).
  assert (confirmed v (fw_chan f)) as Hconf.
  { right; right. unfold received in Er. destruct (sv_streams v !! fw_stream f) as [st|] eqn:Hst; [|done].
    exists (fw_stream f), st. split; [done|]. right. exists first. split; [|done].
    assert (first ∈ answers (fw_chan f) (st_out st)) as ([m r] & -> & [Hm Hr]%list_elem_of_filter)%list_elem_of_fmap
      by (rewrite Er; left). cbn in Hm. by subst m. }
  destruct (confirmed_registered ls v _ R Hconf) as (i' & create & g & ck & old & meanwhile & recent & Hg & Hreg & [_ _ T]).
  destruct (tc_served _ _ (traced_run ls v R) (fw_stream f) (fw_create f)) as (create' & g' & A'); [right; eauto|].
  pose proof Hreg as (ls1 & ls2 & v1 & v2 & c & active & prev & -> & _ & _ & _ & A & _ & _ & C & _).
  assert (cr_chan c = gc_event_tx g /\ cr_watch_id c = gc_watch_id g) as [Hcc Hcw].
  { destruct A as (? & ? & v0 & _ & _ & st & ms & _ & _ & _ & -> & ->). cbn. unfold on_create.
    by destruct (negb _); cbn. }
  assert (cr_chan c = cr_chan (fw_create f)) as Hsame by (rewrite Hcc, Hg; done).
  destruct (asked_once _ _ _ _ _ _ _ _ _ (asked_app _ (LoopTask :: ls2) _ _ _ _ A) A' Hsame) as (-> & -> & -> & ->).
  exists create', g', ck, old, meanwhile, recent, ch. split; [done|]. split; [done|]. split; [congruence|]. split; [done|].
  split; [|].
  { destruct (fw_done f); [destruct Q6 as (k & _ & ?); eauto|]. destruct Q6 as [_ (k & _ & ?)%events_prefix]. eauto. }
  destruct T as (ch' & Ech & Hpre & Heq). change (wr_sender (registration (admitted g'))) with (gc_event_tx g') in Ech.
  rewrite Hg, Q2 in Ech. injection Ech as <-. cbv zeta. split; [done|]. split; [by auto|]. by eapply due_wants.
Qed.

End Log.

#[local] Existing Instance bitwise_crc.
#[local] Existing Instance ref_decoder.
#[local] Existing Instance merge_sort_impl.

(** *** A concrete run

    A key is written; a client asks for the keys from "a" to "z" from revision 1 on;
    another key is written after the batch's checkpoint, one after registration; and
    the events are forwarded. *)
Definition put_one (k : string) : Label := StoreCommand (CmdPut (put_req k "1")).
Definition demo_log : list Label :=
  [put_one "a"; ClientOpen; Client 0 (SendRequest (CreateRequest (mkCreate (lit "a") (lit "z") 1 false [] false 0))); StreamTask 0;
   LoopTask; TimerTask; LoopTask; put_one "b"; LoopTask; LoopTask; LoopTask; put_one "c"; LoopTask; LoopTask;
   StreamTask 0; StreamTask 0; put_one "d"]
  ++ replicate 8 (ForwardTask 0 false).

Lemma demo_logs : svc_run demo_log svc_init (after demo_log).
Proof. apply lend_run; [by_running|vm_compute; eauto]. Qed.

Definition demo_first : WatchResponse := mkWatchResponse (Some (make_header 3)) 1 true false 0 "" [] false.

Lemma demo_received : exists rest, received (after demo_log) 0 0 = demo_first :: rest /\ length rest = 4%nat.
Proof. eexists. split; [vm_compute; reflexivity|vm_compute; reflexivity]. Qed.

Lemma demo_sent : length <$> (ch_sent <$> chans (store (after demo_log)) !! O) = Some 4%nat.
Proof. vm_compute. reflexivity. Qed.

Lemma watch_sees_the_log_witness :
  exists create g ck old meanwhile recent ch,
    registered demo_log (after demo_log) 0 create g ck old meanwhile recent
    /\ (event_sig <$> ch_sent ch) `prefix_of` due (registration (admitted g)) old meanwhile recent
    /\ length (ch_sent ch) = 4%nat.
Proof.
  destruct demo_received as (rest & Er & _).
  destruct (watch_sees_the_log demo_log (after demo_log) 0 0 demo_first rest demo_logs Er eq_refl)
    as (create & g & ck & old & meanwhile & recent & ch & Hr & _ & _ & Hc & _ & Hp & _).
  exists create, g, ck, old, meanwhile, recent, ch. split; [exact Hr|]. split; [exact Hp|].
  pose proof demo_sent as E. rewrite Hc in E. injection E as E. exact E.
Defined.

End WatchLog.
