(* ===== verification/SortBench.v ===== *)
(** * The benchmark's reference routines (src/storage/mod.rs, [sort_bench])

    The benchmark keeps the routines that the store's field reader and its sort
    replaced: decoding every blob with prost, walking the protobuf tags, and a
    stable sort of the decoded values. Here they are the references: on the blobs
    the store writes, all of them agree with the routines in use. *)
From S2P Require Import Prelude Varint KvCodec Wire SortKvs.
Local Open Scope Z_scope.

Module SortBench.
Import Varint KvCodec Wire SortKvs.

(** ** Reading fields *)

Fixpoint read_varint_loop (buf : bytes) (value shift : Z) (i : nat) : option (Z * nat) :=
  match buf with
  | [] => None
  | b :: buf =>
      let value := Z.lor value (u64_wrap (Z.shiftl (Z.land (u8 b) 127) shift)) in
      if Z.land (u8 b) 128 =? 0 then Some (value, S i)
      else if 63 <? shift + 7 then None else read_varint_loop buf value (shift + 7) (S i)
  end.

Definition read_varint (buf : bytes) : option (Z * nat) := read_varint_loop buf 0 0 O.

(** [buf.get(n..)]. *)
Definition get_from (n : nat) (buf : bytes) : option bytes :=
  if (n <=? length buf)%nat then Some (drop n buf) else None.

(** The [while] loop of [pb_field]; every round consumes a tag byte. *)
Fixpoint pb_field_loop (fuel : nat) (buf : bytes) (want : Z) : option (Z * bytes) :=
  match fuel, buf with
  | _, [] | O, _ => None
  | S fuel, _ =>
      let! (tag, n) := read_varint buf in
      let! buf := get_from n buf in
      let field := u32_wrap (Z.shiftr tag 3) in
      let wire := Z.land tag 7 in
      if wire =? 0 then
        let! (v, n) := read_varint buf in
        let! buf := get_from n buf in
        if field =? want then Some (v, []) else pb_field_loop fuel buf want
      else if wire =? 2 then
        let! (len, n) := read_varint buf in
        let! buf := get_from n buf in
        if Z.of_nat (length buf) <? len then None
        else if field =? want then Some (0, take (Z.to_nat len) buf)
        else pb_field_loop fuel (drop (Z.to_nat len) buf) want
      else None
  end.

Definition pb_field (buf : bytes) (want : Z) : option (Z * bytes) := pb_field_loop (length buf) buf want.

(** The three extraction strategies: [mod_revision] and key. *)
Definition extract_prost `{KvDecoder} (blob : bytes) : outcome (Z * bytes) :=
  match kv_decode blob with
  | Some kv => Ok (u64_wrap (kv_mod_revision kv), kv_key kv)
  | None => Panic "called `Result::unwrap()` on an `Err` value"
  end.

Definition extract_two_walk (blob : bytes) : Z * bytes :=
  (default 0 (fst <$> pb_field blob 3), default [] (snd <$> pb_field blob 1)).

Definition extract_one_pass (blob : bytes) : Z * bytes :=
  match parse_kv blob with
  | Some f => (f_mod_revision f, f_key f)
  | None => (0, [])
  end.

(** ** The sort *)

(** [slice::sort_by]: the stable sort. *)
Fixpoint insert_by {A} (cmp : A -> A -> comparison) (x : A) (l : list A) : list A :=
  match l with
  | [] => [x]
  | y :: l => if decide (cmp_le cmp x y) then x :: y :: l else y :: insert_by cmp x l
  end.

Fixpoint sort_by {A} (cmp : A -> A -> comparison) (l : list A) : list A :=
  match l with [] => [] | x :: l => insert_by cmp x (sort_by cmp l) end.

Definition sort_prost_full `{KvDecoder} (kvs : list (list Byte.byte)) (order target : Z) : list (list Byte.byte) :=
  if order =? 0 then kvs
  else
    let decoded := (fun b => default KeyValue_default (kv_decode b)) <$> kvs in
    let idx := seq 0 (length kvs) in
    let cmp (a b : nat) :=
      let ka := default KeyValue_default (decoded !! a) in
      let kb := default KeyValue_default (decoded !! b) in
      let ord := then_with (if target =? T_VALUE then bytes_cmp (kv_value ka) (kv_value kb)
                            else if target =? T_MOD then kv_mod_revision ka ?= kv_mod_revision kb
                            else bytes_cmp (kv_key ka) (kv_key kb))
                   (bytes_cmp (kv_key ka) (kv_key kb)) in
      if order =? DESCEND then CompOpp ord else ord in
    take_slots (sort_by cmp idx) kvs.

(** ** The tag walk on encoder output *)

Lemma read_varint_decode buf : read_varint buf = decode_varint buf.
Proof.
  unfold read_varint, decode_varint. generalize 0 at 2 4. generalize 0 at 1 2. generalize O.
  induction buf as [|b buf IH]; intros i v s; [done|]. cbn [read_varint_loop decode_varint_loop].
  destruct (_ =? 0); [done|]. destruct (63 <? _); [done|]. apply IH.
Qed.

Lemma get_from_app (a b : bytes) : get_from (length a) (a ++ b) = Some b.
Proof. unfold get_from. rewrite (proj2 (Nat.leb_le _ _)) by (rewrite length_app; lia). by rewrite drop_app_length. Qed.

(** A one-byte tag. *)
Lemma read_tag tag rest : u8 tag < 128 -> read_varint (tag :: rest) = Some (u8 tag, 1%nat).
Proof.
  intros Ht. rewrite read_varint_decode. pose proof (u8_range tag).
  assert (group_ok (u8 tag)) as Hg by (unfold group_ok; lia).
  assert (tag :: rest = groups [u8 tag] ++ rest) as -> by (cbn; by rewrite to_u8_u8).
  rewrite decode_varint_groups by (repeat constructor; cbn; lia || done). cbn. do 2 f_equal. lia.
Qed.

(** The number and the payload of a field. *)
Definition field_number (f : field) : Z :=
  match f with FKey _ => 1 | FCreate _ => 2 | FMod _ => 3 | FVersion _ => 4 | FValue _ => 5 | FLease _ => 6 end.
Definition field_payload (f : field) : Z * bytes :=
  match f with
  | FKey b | FValue b => (0, b)
  | FCreate z | FMod z | FVersion z | FLease z => (u64_wrap z, [])
  end.

Lemma walk_varint l v rest : varint_wire v l ->
  read_varint (l ++ rest) = Some (v, length l) /\ get_from (length l) (l ++ rest) = Some rest.
Proof. intros Hw. rewrite read_varint_decode, (decode_varint_wire _ _ Hw), get_from_app. done. Qed.

Lemma walk_field f bs rest want fuel :
  field_wire f bs ->
  pb_field_loop (S fuel) (bs ++ rest) want
  = if field_number f =? want then Some (field_payload f) else pb_field_loop fuel rest want.
Proof.
  destruct 1 as [b l Hw|z l Hz Hw|z l Hz Hw|z l Hz Hw|b l Hw|z l Hz Hw]; cbn [app pb_field_loop];
    rewrite read_tag by (vm_compute; done);
    match goal with |- context [get_from 1 (?t :: ?r)] => change (get_from 1 (t :: r)) with (Some r) end;
    cbv beta iota zeta; rewrite <- ?app_assoc;
    match goal with |- context [u8 ?t] => let x := eval vm_compute in (u8 t) in change (u8 t) with x end;
    repeat match goal with |- context [Z.land ?a 7] => let x := eval vm_compute in (Z.land a 7) in change (Z.land a 7) with x end;
    match goal with |- context [u32_wrap ?t] => let x := eval vm_compute in (u32_wrap t) in change (u32_wrap t) with x end;
    cbn [Z.eqb Pos.eqb field_number field_payload].
  - destruct (walk_varint l _ (b ++ rest) Hw) as [-> ->]. rewrite (proj2 (Z.ltb_ge _ _)) by (rewrite length_app; lia).
    by rewrite Nat2Z.id, take_app_length, drop_app_length.
  - by destruct (walk_varint l _ rest Hw) as [-> ->].
  - by destruct (walk_varint l _ rest Hw) as [-> ->].
  - by destruct (walk_varint l _ rest Hw) as [-> ->].
  - destruct (walk_varint l _ (b ++ rest) Hw) as [-> ->]. rewrite (proj2 (Z.ltb_ge _ _)) by (rewrite length_app; lia).
    by rewrite Nat2Z.id, take_app_length, drop_app_length.
  - by destruct (walk_varint l _ rest Hw) as [-> ->].
Qed.

(** The walk finds the first field with the number. *)
Lemma walk_fields fs bss want fuel :
  Forall2 field_wire fs bss -> (length (concat bss) <= fuel)%nat ->
  pb_field_loop fuel (concat bss) want = field_payload <$> head (base.filter (fun f => field_number f = want) fs).
Proof.
  intros Hw. revert fuel. induction Hw as [|f bs fs bss Hf Hw IH]; intros fuel Hlen; [by destruct fuel|].
  pose proof (field_wire_nonempty _ _ Hf). cbn [concat] in *. rewrite length_app in Hlen. destruct fuel as [|fuel]; [lia|].
  rewrite (walk_field f bs) by done. rewrite filter_cons. destruct (Z.eqb_spec (field_number f) want).
  - by rewrite decide_True.
  - rewrite decide_False by done. apply IH. lia.
Qed.

(** ** Stored blobs *)

(** A blob the store writes: sizes within the length prefixes, revisions not negative. *)
Definition stored (b : list Byte.byte) (kv : KeyValue) : Prop :=
  let 'mkKeyValue key cr mr ver value lease := kv in
  b = kv_blob key value cr mr ver lease /\ kv_sizes_ok key value
  /\ is_i64 cr /\ 0 <= mr < 2 ^ 63 /\ is_i64 ver /\ is_i64 lease.

Lemma stored_decode `{KvDecoder} b kv : stored b kv -> kv_decode b = Some kv.
Proof.
  destruct kv as [key cr mr ver value lease]. intros (-> & Hs & Hc & Hm & Hv & Hl).
  apply kv_decode_blob; try done. unfold is_i64. lia.
Qed.

Lemma stored_parse b kv : stored b kv ->
  exists c v, parse_kv b = Some (mkKvFields (kv_key kv) c (kv_mod_revision kv) v (kv_value kv)).
Proof.
  destruct kv as [key cr mr ver value lease]. intros (-> & Hs & Hc & Hm & Hv & Hl).
  eexists _, _. rewrite parse_kv_blob by done. cbn. by rewrite (u64_wrap_small mr) by (unfold is_u64; lia).
Qed.

(** ** The sorts *)

Lemma insert_by_perm {A} (cmp : A -> A -> comparison) x l : insert_by cmp x l ≡ₚ x :: l.
Proof. induction l as [|y l IH]; [done|]. cbn. destruct (decide _); [done|]. rewrite IH. by rewrite Permutation_swap. Qed.

Lemma sort_by_perm {A} (cmp : A -> A -> comparison) l : sort_by cmp l ≡ₚ l.
Proof. induction l as [|x l IH]; [done|]. cbn. by rewrite insert_by_perm, IH. Qed.

Lemma sort_by_sorted {A} (cmp : A -> A -> comparison) l : comparator cmp -> StronglySorted (cmp_le cmp) (sort_by cmp l).
Proof.
  intros C. induction l as [|x l IH]; [constructor|]. cbn [sort_by]. revert IH. generalize (sort_by cmp l) as s.
  induction s as [|y s IH]; intros Hs; cbn [insert_by]; [by repeat constructor|].
  apply StronglySorted_cons in Hs as [Hy Hs]. destruct (decide _) as [Hle|Hgt].
  - apply StronglySorted_cons. split; [|by apply StronglySorted_cons]. constructor; [done|].
    eapply Forall_impl; [exact Hy|]. intros z. by apply (comparator_trans _ C).
  - apply StronglySorted_cons. split; [|auto]. rewrite insert_by_perm. constructor; [|done].
    by destruct (comparator_total cmp x y C).
Qed.

(** What the reference sort compares, as an entry of the store's sort. *)
Definition prost_entry (target : Z) (kv : KeyValue) : Entry :=
  mkEntry (if target =? T_VALUE then SBytes (kv_value kv)
           else if target =? T_MOD then SInt (kv_mod_revision kv) else SBytes (kv_key kv)) (kv_key kv) 0.

Definition kv_at `{KvDecoder} (b : list Byte.byte) : KeyValue := default KeyValue_default (kv_decode b).

Definition prost_cmp `{KvDecoder} (descending : bool) (target : Z) (a b : list Byte.byte) : comparison :=
  cmp_entry descending (prost_entry target (kv_at a)) (prost_entry target (kv_at b)).

Lemma comparator_pull {A B} (f : A -> B) (cmp : B -> B -> comparison) :
  comparator cmp -> comparator (fun a b => cmp (f a) (f b)).
Proof. intros [Ho Ht]. split; [intros a b; apply Ho|intros a b c; apply (Ht (f a) (f b) (f c))]. Qed.

Lemma StronglySorted_map {A B} (f : A -> B) (R : relation A) (R' : relation B) l :
  (forall a b, a ∈ l -> b ∈ l -> R a b -> R' (f a) (f b)) -> StronglySorted R l -> StronglySorted R' (f <$> l).
Proof.
  induction l as [|x l IH]; intros Hf Hs; [constructor|]. apply StronglySorted_cons in Hs as [Hx Hs]. cbn.
  apply StronglySorted_cons. split.
  - apply Forall_fmap, Forall_forall. intros y Hy. eapply Forall_forall in Hx; [|exact Hy]. apply Hf; [left|by right|done].
  - apply IH; [|done]. intros a b Ha Hb. apply Hf; by right.
Qed.

Lemma sort_prost_spec `{KvDecoder} kvs order target :
  order <> 0 -> sort_prost_full kvs order target ≡ₚ kvs
  /\ StronglySorted (cmp_le (prost_cmp (order =? DESCEND) target)) (sort_prost_full kvs order target).
Proof.
  intros Ho. unfold sort_prost_full. rewrite (proj2 (Z.eqb_neq _ _)) by done. cbv zeta.
  fold (kv_at (H := H)). match goal with |- context [sort_by ?c _] => set (cmp := c) end.
  set (slot i := default [] (kvs !! i)).
  assert (forall i b, kvs !! i = Some b -> default KeyValue_default ((kv_at <$> kvs) !! i) = kv_at b) as Hk
    by (intros i b Hi; by rewrite list_lookup_fmap, Hi).
  set (K := fun i : nat => prost_entry target (default KeyValue_default ((kv_at <$> kvs) !! i))).
  assert (forall i j, cmp i j = cmp_entry (order =? DESCEND) (K i) (K j)) as Hcmp.
  { intros i j. subst cmp K. unfold cmp_entry, prost_entry. cbn.
    destruct (target =? T_VALUE); [done|]. by destruct (target =? T_MOD). }
  assert (comparator cmp) as C.
  { pose proof (comparator_pull K _ (cmp_entry_comparator (order =? DESCEND))) as [C1 C2].
    split; [intros i j; by rewrite !Hcmp|]. intros i j k. unfold cmp_le. rewrite !Hcmp. apply C2. }
  pose proof (sort_by_perm cmp (seq 0 (length kvs))) as Hp.
  rewrite take_slots_NoDup by (rewrite Hp; apply NoDup_seq). fold slot. split.
  - rewrite Hp. enough (slot <$> seq 0 (length kvs) = kvs) as -> by done. apply list_eq. intros i. rewrite list_lookup_fmap. subst slot.
    destruct (decide (i < length kvs)%nat) as [Hi|Hi].
    + rewrite lookup_seq_lt by done. cbn. by destruct (lookup_lt_is_Some_2 kvs i Hi) as [b ->].
    + by rewrite lookup_seq_ge, lookup_ge_None_2 by lia.
  - eapply StronglySorted_map; [|by apply sort_by_sorted]. intros i j Hi Hj. rewrite Hp in Hi, Hj.
    apply elem_of_seq in Hi, Hj. destruct (lookup_lt_is_Some_2 kvs i) as [a Ha]; [lia|].
    destruct (lookup_lt_is_Some_2 kvs j) as [b Hb]; [lia|]. subst slot. unfold cmp_le, prost_cmp.
    rewrite Hcmp, Ha, Hb. subst K. cbn. by rewrite (Hk _ _ Ha), (Hk _ _ Hb).
Qed.

(** Blobs the store writes, with their contents, for pairwise different keys. *)
Definition result_set (kvs : list (list Byte.byte)) (decoded : list KeyValue) : Prop :=
  Forall2 stored kvs decoded /\ NoDup (kv_key <$> decoded).

Lemma kv_at_stored `{KvDecoder} b kv : stored b kv -> kv_at b = kv.
Proof. intros Hb. unfold kv_at. by rewrite (stored_decode b kv Hb). Qed.

Lemma result_set_elem kvs decoded b : result_set kvs decoded -> b ∈ kvs -> exists kv, kv ∈ decoded /\ stored b kv.
Proof.
  intros [Hst _] [i Hi]%list_elem_of_lookup. destruct (Forall2_lookup_l _ _ _ _ _ Hst Hi) as (kv & Hkv & Hs).
  exists kv. split; [by eapply list_elem_of_lookup_2|done].
Qed.

Lemma result_set_distinct kvs decoded : result_set kvs decoded -> distinct_keys kvs.
Proof.
  intros [Hst Hnd]. split.
  - apply Forall_forall. intros b Hb. destruct (result_set_elem kvs decoded b) as (kv & _ & Hs); [done|done|].
    destruct (stored_parse b kv Hs) as (c & v & ->). eauto.
  - enough ((fun b => f_key <$> parse_kv b) <$> kvs = Some <$> (kv_key <$> decoded)) as -> by by apply (NoDup_fmap_2 Some).
    clear Hnd. induction Hst as [|b kv bs ds Hb _ IH]; [done|]. cbn. f_equal; [|done].
    by destruct (stored_parse b kv Hb) as (c & v & ->).
Qed.

Lemma blob_cmp_prost `{KvDecoder} d target a b ka kb :
  target = T_VALUE \/ target = T_MOD -> stored a ka -> stored b kb -> blob_cmp d target a b = prost_cmp d target a b.
Proof.
  intros Ht Ha Hb. unfold blob_cmp, prost_cmp, entry_of, prost_entry. rewrite (kv_at_stored a ka Ha), (kv_at_stored b kb Hb).
  destruct (stored_parse a ka Ha) as (? & ? & ->), (stored_parse b kb Hb) as (? & ? & ->). by destruct Ht as [->| ->].
Qed.

(** Comparing equal means having the same key. *)
Lemma prost_cmp_antisym `{KvDecoder} kvs decoded d target a b :
  result_set kvs decoded -> a ∈ kvs -> b ∈ kvs ->
  cmp_le (prost_cmp d target) a b -> cmp_le (prost_cmp d target) b a -> a = b.
Proof.
  intros Hr Ha Hb H1 H2. pose proof (cmp_entry_antisym d _ _ H1 H2) as Ek. cbn in Ek.
  destruct (result_set_elem kvs decoded a Hr Ha) as (ka & Hka & Sa), (result_set_elem kvs decoded b Hr Hb) as (kb & Hkb & Sb).
  rewrite (kv_at_stored a ka Sa), (kv_at_stored b kb Sb) in Ek.
  assert (ka = kb) as <- by (eapply (NoDup_fmap_elem kv_key decoded); [apply Hr|done..]).
  destruct ka as [key cr mr ver value lease]. destruct Sa as [-> _], Sb as [-> _]. done.
Qed.

Lemma sort_prost_unique `{KvDecoder} kvs decoded order target l :
  result_set kvs decoded -> order <> 0 -> l ≡ₚ kvs ->
  StronglySorted (cmp_le (prost_cmp (order =? DESCEND) target)) l -> l = sort_prost_full kvs order target.
Proof.
  intros Hr Ho Hp Hs. destruct (sort_prost_spec kvs order target Ho) as [Hp' Hs'].
  apply (StronglySorted_unique_strong (cmp_le (prost_cmp (order =? DESCEND) target))); [|done|done|by rewrite Hp, Hp'].
  intros a b Ha Hb. rewrite Hp in Ha. rewrite Hp' in Hb. by eapply prost_cmp_antisym.
Qed.

(** A set in key order is sorted by key, and backwards when reversed. *)
Lemma prost_cmp_key `{KvDecoder} a b :
  prost_cmp false T_KEY a b = bytes_cmp (kv_key (kv_at a)) (kv_key (kv_at b))
  /\ prost_cmp true T_KEY a b = prost_cmp false T_KEY b a.
Proof.
  assert (forall c : comparison, then_with c c = c) as Ht by by intros [].
  unfold prost_cmp, cmp_entry. cbn. rewrite !Ht. by rewrite (bytes_cmp_antisym (kv_key (kv_at a))).
Qed.

Lemma key_order_sorted `{KvDecoder} kvs decoded :
  result_set kvs decoded -> StronglySorted bytes_lt (kv_key <$> decoded) -> StronglySorted (cmp_le (prost_cmp false T_KEY)) kvs.
Proof.
  intros [Hst _] Hs. induction Hst as [|b kv bs ds Hb Hst IH]; [constructor|]. cbn in Hs.
  apply StronglySorted_cons in Hs as [Hx Hs]. apply StronglySorted_cons. split; [|by apply IH].
  apply Forall_forall. intros b' Hb'. destruct (proj1 (list_elem_of_lookup _ _) Hb') as [i Hi].
  destruct (Forall2_lookup_l _ _ _ _ _ Hst Hi) as (kv' & Hkv & Hs').
  assert (bytes_lt (kv_key kv) (kv_key kv')) as Hlt.
  { eapply Forall_forall in Hx; [exact Hx|]. apply list_elem_of_fmap. exists kv'. split; [done|by eapply list_elem_of_lookup_2]. }
  unfold cmp_le. rewrite (proj1 (prost_cmp_key b b')), (kv_at_stored b kv Hb), (kv_at_stored b' kv' Hs'). by rewrite Hlt.
Qed.

Lemma sorted_reverse `{KvDecoder} kvs :
  StronglySorted (cmp_le (prost_cmp false T_KEY)) kvs -> StronglySorted (cmp_le (prost_cmp true T_KEY)) (reverse kvs).
Proof.
  induction kvs as [|b kvs IH]; [intros _; constructor|]. intros [Hb Hs]%StronglySorted_cons. rewrite reverse_cons.
  apply StronglySorted_app_2; [|by apply IH|by repeat constructor].
  intros a x Ha Hx. apply list_elem_of_singleton in Hx as ->. unfold cmp_le. rewrite (proj2 (prost_cmp_key a b)).
  eapply Forall_forall in Hb; [exact Hb|]. by apply (elem_of_reverse a).
Qed.

(** ** Properties *)

(** The field reader. On every blob the store writes, the three extraction
    strategies the benchmark compares agree: decoding the whole message, two walks
    over the protobuf tags, and the one-pass reader that assumes the store's layout
    all give the blob's [mod_revision] and key. *)
Theorem extractions_agree `{KvDecoder} b kv :
  stored b kv ->
  extract_prost b = Ok (kv_mod_revision kv, kv_key kv)
  /\ extract_two_walk b = (kv_mod_revision kv, kv_key kv) /\ extract_one_pass b = (kv_mod_revision kv, kv_key kv).
Proof.
  intros Hb. split; [|split].
  - unfold extract_prost. rewrite (stored_decode b kv Hb). do 2 f_equal. destruct kv as [key cr mr ver value lease].
    destruct Hb as (_ & _ & _ & Hm & _). apply u64_wrap_small. unfold is_u64. cbn. lia.
  - destruct kv as [key cr mr ver value lease]. destruct Hb as (-> & Hs & Hc & Hm & Hv & Hl).
    destruct (kv_blob_wire key value cr mr ver lease) as (bss & -> & Hw); try done; [unfold is_i64; lia|].
    unfold extract_two_walk, pb_field. rewrite !(walk_fields _ _ _ _ Hw) by done.
    change ((u64_wrap mr, key) = (mr, key)). by rewrite u64_wrap_small by (unfold is_u64; lia).
  - unfold extract_one_pass. by destruct (stored_parse b kv Hb) as (c & v & ->).
Qed.

(** C20. The sort. Take a result set: blobs the store wrote, for pairwise different
    keys. Sorting it by value or by [mod_revision] with the store's routine gives the
    first elements, as many as its shortcut for small limits keeps, of what the
    replaced routine gives, which decodes every blob and sorts all of them stably;
    and sorting by key, where the store relies on the set being in key order
    already, gives the same list. *)
Theorem sort_replaces_prost_sort `{KvDecoder} `{UnstableSort} kvs decoded order target limit :
  result_set kvs decoded -> Z.of_nat (length kvs) < 2 ^ 32 -> order = ASCEND \/ order = DESCEND ->
  (target = T_VALUE \/ target = T_MOD ->
   sort_kvs kvs order target limit = take (kept (length kvs) limit) (sort_prost_full kvs order target))
  /\ (StronglySorted bytes_lt (kv_key <$> decoded) ->
      sort_kvs kvs order T_KEY limit = sort_prost_full kvs order T_KEY).
Proof.
  intros Hr Hl Ho. assert (order <> 0) as Hne by (destruct Ho; subst; done). split.
  - intros Ht. rewrite sort_kvs_by_field; [|done|by eapply result_set_distinct|done|by destruct Ht; subst]. f_equal.
    apply (sort_prost_unique kvs decoded); [done|done|apply merge_sort_Permutation|].
    rewrite <- (list_fmap_id (merge_sort _ _)).
    eapply StronglySorted_map; [|apply merge_sort_cmp_sorted, blob_cmp_comparator].
    intros a b Ha Hb. rewrite merge_sort_Permutation in Ha, Hb. unfold cmp_le.
    destruct (result_set_elem kvs decoded a Hr Ha) as (ka & _ & Sa), (result_set_elem kvs decoded b Hr Hb) as (kb & _ & Sb).
    by rewrite (blob_cmp_prost _ target a b ka kb).
  - intros Hs. apply (sort_prost_unique kvs decoded); [done|done| |].
    + unfold sort_kvs. destruct Ho as [-> | ->]; cbn; [done|]. apply reverse_Permutation.
    + assert (StronglySorted (cmp_le (prost_cmp false T_KEY)) kvs) as Hk.
      { by eapply key_order_sorted. }
      unfold sort_kvs. destruct Ho as [-> | ->]; cbn; [done|]. by apply sorted_reverse.
Qed.

#[local] Existing Instance ref_decoder.
#[local] Existing Instance merge_sort_impl.

Definition demo_kv (k v : string) (rev : Z) : KeyValue := mkKeyValue (lit k) rev rev 1 (lit v) 0.
Definition demo_blob (k v : string) (rev : Z) : list Byte.byte := kv_blob (lit k) (lit v) rev rev 1 0.

Lemma demo_stored k v rev :
  is_u32 (Z.of_nat (length (lit k))) -> is_u32 (Z.of_nat (length (lit v))) -> 0 <= rev < 2 ^ 63 ->
  stored (demo_blob k v rev) (demo_kv k v rev).
Proof. intros. unfold stored, kv_sizes_ok, is_i64. repeat split; lia || apply H || apply H0. Qed.

Lemma extractions_agree_witness :
  extract_prost (demo_blob "k" "v" 300) = Ok (300, lit "k") /\ extract_two_walk (demo_blob "k" "v" 300) = (300, lit "k")
  /\ extract_one_pass (demo_blob "k" "v" 300) = (300, lit "k").
Proof.
  apply (extractions_agree (demo_blob "k" "v" 300) (demo_kv "k" "v" 300)).
  apply demo_stored; [by vm_compute..|lia].
Defined.

Definition demo_set : list (list Byte.byte) := [demo_blob "a" "2" 5; demo_blob "b" "3" 4; demo_blob "c" "1" 6].
Definition demo_decoded : list KeyValue := [demo_kv "a" "2" 5; demo_kv "b" "3" 4; demo_kv "c" "1" 6].

Lemma demo_result_set : result_set demo_set demo_decoded.
Proof.
  split; [|apply (bool_decide_unpack _); by vm_compute].
  repeat (apply Forall2_cons; split); try (apply demo_stored; [by vm_compute..|lia]). constructor.
Qed.

Lemma sort_replaces_prost_sort_witness :
  sort_kvs demo_set DESCEND T_VALUE 0 = sort_prost_full demo_set DESCEND T_VALUE
  /\ sort_kvs demo_set DESCEND T_KEY 0 = sort_prost_full demo_set DESCEND T_KEY.
Proof.
  destruct (sort_replaces_prost_sort demo_set demo_decoded DESCEND T_VALUE 0 demo_result_set) as [H1 H2].
  - by vm_compute.
  - by right.
  - split; [rewrite H1 by (by left); vm_compute; reflexivity|]. apply H2. repeat constructor; by vm_compute.
Defined.

End SortBench.
