(* ===== verification/UnitTests.v ===== *)
(** * The repository's own unit tests, run on the model

    The tests of src/storage/mod.rs, src/storage/apply.rs and src/server/watch.rs,
    translated statement by statement into programs over the model: each opens a
    store on an empty file, issues requests and asserts what it gets. That they all
    pass says that the definitions of the other files agree with the code wherever
    the code's authors pinned its behaviour down. Names and order are the source's;
    the tests marked [#[ignore]] have no body. *)
From stdpp Require Import pretty.
From S2P Require Import Prelude Varint KvCodec Wire Crc WalRecord Proto Range SortKvs State Store.
From S2P Require Import Historical Txn Recovery System Replay Durability WatchStream.
Local Open Scope Z_scope.

Module UnitTests.
Import KvCodec Wire Crc Wal Proto Range SortKvs State Store Historical Txn Recovery System Replay Durability WatchStream.

#[local] Existing Instance bitwise_crc.
#[local] Existing Instance ref_decoder.
#[local] Existing Instance merge_sort_impl.

(** ** Test programs *)

Declare Scope test_scope.
Delimit Scope test_scope with test.
Notation "m ;; k" := (bind m (fun _ => k)) (at level 100, k at level 200, right associativity) : test_scope.
Local Open Scope test_scope.

Definition assert (b : bool) : M unit := lift (if b then Ok tt else Panic "assertion failed").

Definition unwrapped {A} (m : M A) : M A := fun s =>
  match m s with (s, Err e) => (s, Panic (message e)) | r => r end.

Definition unwrap_err {A} (m : M A) : M Status := fun s =>
  match m s with
  | (s, Err e) => (s, Ok e)
  | (s, Ok _) => (s, Panic "called `Result::unwrap_err()` on an `Ok` value")
  | (s, Panic w) => (s, Panic w)
  end.

(** A statement whose [Result] is dropped. *)
Definition dropped {A} (m : M A) : M unit := fun s =>
  match m s with (s, Panic w) => (s, Panic w) | (s, _) => (s, Ok tt) end.

(** [Option::unwrap]. *)
Definition some {A} (o : option A) : M A :=
  lift (match o with Some a => Ok a | None => Panic "called `Option::unwrap()` on a `None` value" end).

(** [Store::open] on the file as it is, and the test on the opened store. *)
Definition reopen : M unit := fun s =>
  match open_store 0 (file (wal s)) with
  | Ok s => (s, Ok tt)
  | Err e => (s, Panic (message e))
  | Panic w => (s, Panic w)
  end.

Definition passes (t : M unit) : bool :=
  match open_store 0 [] with Ok s => is_ok (t s).2 | _ => false end.

(** [store.range(req).await]. *)
Definition query (req : RangeRequest) : M RangeResponse := let* s := get in lift (range s req).
Definition now : M Z := let* s := get in ret (current_revision s).
Definition compacts : M unit := fun s =>
  match compact_wal [] s with (s, inl _) => (s, Ok tt) | (s, inr e) => (s, Panic (detail e)) end.
Definition file_size : M Z := let* s := get in ret (Z.of_nat (length (file (wal s)))).

Definition put_kv (k v : string) : M unit := dropped (put (put_req k v)).
Definition put_ok (k v : string) : M unit := unwrapped (put (put_req k v)) ;; ret tt.
Definition delete_key (k : string) : M unit := dropped (delete_range (del_req k)).

Definition zero_byte : bytes := [Byte.x00].
Definition all_req : RangeRequest := range_req zero_byte zero_byte 0.
Definition all_at (rev : Z) : RangeRequest := range_req zero_byte zero_byte rev.
Definition key_at (k : string) (rev : Z) : RangeRequest := range_req (lit k) [] rev.

Definition count_is (req : RangeRequest) (n : Z) : M unit := let* r := unwrapped (query req) in assert (rs_count r =? n).

Definition contains (sub s : string) : bool := match String.index 0 sub s with Some _ => true | None => false end.

(** [mvccpb::KeyValue::decode(&b[..]).unwrap()]. *)
Definition decode_kv (b : list Byte.byte) : M KeyValue := some (kv_decode b).

(** [if let Some(kv_bytes) = resp.kvs.first() { .. assert_eq!(kv.value, v) }]. *)
Definition first_value_is (r : RangeResponse) (v : string) : M unit :=
  match rs_kvs r with
  | [] => ret tt
  | b :: _ => let* kv := decode_kv b in assert (bytes_eqb (kv_value kv) (lit v))
  end.

Definition is_empty {A} (l : list A) : bool := match l with [] => true | _ => false end.
Definition numbered (k : string) (i : Z) : string := k +:+ pretty i.

(** ** [compact_tests] *)

Definition test_compact_basic : M unit :=
  for_each (fun i => put_kv "k1" (numbered "v" i)) (seqZ 0 5) ;;
  put_kv "k2" "v" ;;
  let* size_before := file_size in
  compacts ;;
  let* size_after := file_size in
  assert (size_after <? size_before) ;;
  assert (0 <? size_after) ;;
  count_is all_req 2.

Definition test_compact_empty_store : M unit := compacts ;; count_is all_req 0.

Definition test_compact_with_deletes : M unit :=
  put_kv "k1" "v1" ;; put_kv "k2" "v2" ;; delete_key "k1" ;; compacts ;; count_is all_req 1.

Definition test_compact_restart_recovery : M unit :=
  put_kv "k1" "v1" ;; put_kv "k2" "v2" ;; compacts ;; put_kv "k3" "v3" ;;
  let* final_rev := now in
  reopen ;;
  count_is all_req 3 ;;
  let* rev := now in assert (rev =? final_rev).

(** The spawned writer runs before the snapshot, between the snapshot and the
    swap, or after the swap. *)
Inductive Moment := BeforeSnapshot | DuringCompaction | AfterSwap.

Definition compacts_with (m : Moment) (writer : M unit) : M unit :=
  match m with
  | BeforeSnapshot => writer ;; compacts
  | DuringCompaction =>
      let* s := get in
      let sn := compact_phase_a s in
      writer ;;
      match compact_phase_b [] sn with
      | (target, inl _) => modify (fun s => (compact_phase_c sn target s).1)
      | (_, inr e) => lift (Panic (detail e))
      end
  | AfterSwap => compacts ;; writer
  end.

Definition test_compact_tail_preserves_concurrent_writes (m : Moment) : M unit :=
  for_each (fun i => put_kv (numbered "k" i) "v") (seqZ 0 10) ;;
  compacts_with m (put_kv "concurrent" "c") ;;
  count_is (key_at "concurrent" 0) 1 ;;
  reopen ;;
  count_is all_req 11.

Definition compact_tests : list (M unit) :=
  [test_compact_basic; test_compact_empty_store; test_compact_with_deletes; test_compact_restart_recovery]
  ++ (test_compact_tail_preserves_concurrent_writes <$> [BeforeSnapshot; DuringCompaction; AfterSwap]).

(** ** [historical_tests] *)

Definition test_historical_compacted_revision_error : M unit :=
  put_kv "k" "v" ;; put_kv "k2" "v2" ;;
  let* create_rev := now in
  modify (set_compact_rev create_rev) ;;
  let* err := unwrap_err (query (key_at "k" 1)) in
  assert (contains "compacted" (message err)) ;;
  let* ok := unwrapped (query (key_at "k" create_rev)) in
  assert (rs_count ok =? 1) ;;
  let* b := some (head (rs_kvs ok)) in
  let* kv := decode_kv b in
  assert (bytes_eqb (kv_key kv) (lit "k")).

Definition test_historical_future_revision_error : M unit :=
  let* err := unwrap_err (query (key_at "k" 999999999)) in
  assert (contains "future" (message err)).

Definition test_historical_zero_revision_returns_current : M unit := put_kv "k1" "v1" ;; count_is all_req 1.

Definition test_historical_all_keys_current_skip_wal : M unit :=
  put_kv "k1" "v1" ;;
  let* rev1 := now in
  put_kv "k2" "v2" ;;
  let* rev2 := now in
  count_is (all_at rev2) 2 ;;
  count_is (all_at rev1) 1.

Definition test_historical_some_keys_stale : M unit :=
  put_kv "k1" "v1" ;;
  let* rev1 := now in
  put_kv "k2" "v2" ;;
  let* resp := unwrapped (query (all_at rev1)) in
  assert (rs_count resp =? 1) ;;
  assert (length (rs_kvs resp) =? 1)%nat.

Definition test_historical_value_at_revision : M unit :=
  put_kv "k1" "old_value" ;;
  let* create_rev := now in
  put_kv "k1" "new_value" ;;
  let* resp := unwrapped (query (key_at "k1" create_rev)) in
  assert (rs_count resp =? 1) ;;
  first_value_is resp "old_value".

Definition test_historical_after_delete : M unit :=
  put_kv "k1" "v1" ;; delete_key "k1" ;;
  let* later_rev := now in
  count_is (key_at "k1" later_rev) 0.

Definition test_historical_before_delete : M unit :=
  put_kv "k1" "v1" ;;
  let* create_rev := now in
  put_kv "k2" "v2" ;; delete_key "k1" ;;
  count_is (all_at create_rev) 1.

Definition test_historical_after_create : M unit :=
  put_kv "k1" "v1" ;; put_kv "k2" "v2" ;;
  let* later_rev := now in
  put_kv "k3" "v3" ;;
  count_is (all_at later_rev) 2.

Definition test_historical_keys_only : M unit :=
  put_kv "k1" "v1" ;; put_kv "k2" "v2" ;;
  let* rev := now in
  put_kv "k3" "v3" ;;
  count_is (mkRange zero_byte zero_byte 0 rev 0 0 true false 0 0 0 0) 2.

Definition test_historical_count_only : M unit :=
  put_kv "k1" "v1" ;;
  let* rev := now in
  put_kv "k2" "v2" ;;
  let* resp := unwrapped (query (mkRange zero_byte zero_byte 0 rev 0 0 false true 0 0 0 0)) in
  assert (rs_count resp =? 1) ;;
  assert (is_empty (rs_kvs resp)).

Definition limited_at (limit rev : Z) : RangeRequest := mkRange zero_byte zero_byte limit rev 0 0 false false 0 0 0 0.

Definition test_historical_limit : M unit :=
  put_kv "k1" "v1" ;; put_kv "k2" "v2" ;;
  let* rev := now in
  let* resp := unwrapped (query (limited_at 1 rev)) in
  assert (rs_count resp =? 2) ;;
  assert (length (rs_kvs resp) =? 1)%nat ;;
  assert (rs_more resp).

Definition test_historical_point_lookup : M unit :=
  put_kv "k1" "v1" ;; put_kv "k2" "v2" ;;
  let* rev := now in
  count_is (key_at "k1" rev) 1 ;;
  put_kv "k3" "v3" ;;
  count_is (key_at "k3" rev) 0.

Definition test_historical_prefix_range : M unit :=
  put_kv "/a/x" "v1" ;; put_kv "/a/y" "v2" ;; put_kv "/b/z" "v3" ;;
  let* rev := now in
  put_kv "/a/w" "v4" ;;
  count_is (range_req (lit "/a/") (lit "/a/" ++ zero_byte) rev) 2.

Definition test_historical_after_compaction : M unit :=
  for_each (fun i => put_kv (numbered "k" i) "v") (seqZ 0 5) ;;
  let* pre_compact_rev := now in
  compacts ;;
  modify (set_compact_rev pre_compact_rev) ;;
  let* err := unwrap_err (query (key_at "k0" 1)) in
  assert (contains "compacted" (message err)) ;;
  let* s := get in
  assert (compact_rev s <=? pre_compact_rev) ;;
  count_is (all_at pre_compact_rev) 5.

Definition test_historical_key_modified_after_target : M unit :=
  put_kv "k1" "original" ;;
  let* target_rev := now in
  for_each (fun i => put_kv "k1" (numbered "updated_" i)) (seqZ 0 5) ;;
  let* resp := unwrapped (query (key_at "k1" target_rev)) in
  assert (rs_count resp =? 1) ;;
  first_value_is resp "original".

Definition test_historical_range_bounds : M unit :=
  put_kv "a" "v_a" ;; put_kv "b" "v_b" ;; put_kv "c" "v_c" ;;
  let* rev := now in
  count_is (range_req (lit "b") (lit "d") rev) 2 ;;
  put_kv "bb" "v_bb" ;;
  count_is (range_req (lit "b") (lit "c" ++ zero_byte) rev) 2.

Definition test_historical_delete_recreate : M unit :=
  put_kv "k1" "first_life" ;;
  let* first_rev := now in
  delete_key "k1" ;; put_kv "k1" "second_life" ;;
  let* resp := unwrapped (query (key_at "k1" first_rev)) in
  assert (rs_count resp =? 1) ;;
  first_value_is resp "first_life" ;;
  let* current := now in
  let* resp := unwrapped (query (key_at "k1" current)) in
  assert (rs_count resp =? 1) ;;
  first_value_is resp "second_life".

Definition test_historical_delete_at_exact_delete_revision : M unit :=
  put_kv "k1" "v1" ;; delete_key "k1" ;;
  let* del_rev := now in
  count_is (key_at "k1" del_rev) 0 ;;
  count_is (key_at "k1" (del_rev - 1)) 1.

Definition test_historical_many_stale_keys_with_limit : M unit :=
  for_each (fun i => put_kv (numbered "k" i) "original") (seqZ 0 5) ;;
  let* target_rev := now in
  for_each (fun i => put_kv (numbered "k" i) (numbered "updated_" i)) (seqZ 0 5) ;;
  let* resp := unwrapped (query (limited_at 2 target_rev)) in
  assert (rs_count resp =? 5) ;;
  assert (length (rs_kvs resp) =? 2)%nat ;;
  assert (rs_more resp) ;;
  first_value_is resp "original".

Definition test_historical_rebirth_forces_wal : M unit :=
  put_kv "k1" "first" ;;
  let* first_rev := now in
  delete_key "k1" ;; put_kv "k1" "second" ;;
  let* resp := unwrapped (query (key_at "k1" first_rev)) in
  assert (rs_count resp =? 1) ;;
  first_value_is resp "first".

(** The four revision filters, and the limits on them. *)
Definition filtered (min_mod max_mod min_create max_create : Z) : RangeRequest :=
  mkRange zero_byte zero_byte 0 0 0 0 false false min_mod max_mod min_create max_create.

Definition test_historical_min_mod_revision : M unit :=
  put_ok "a" "v1" ;; put_ok "b" "v2" ;;
  let* rev := now in
  put_ok "a" "v1_upd" ;;
  count_is (filtered (rev + 1) 0 0 0) 1.

Definition test_historical_max_mod_revision : M unit :=
  put_ok "a" "v1" ;;
  let* rev1 := now in
  put_ok "b" "v2" ;;
  count_is (filtered 0 rev1 0 0) 1.

Definition test_historical_min_create_revision : M unit :=
  put_ok "a" "v1" ;; put_ok "b" "v2" ;;
  let* rev_b := now in
  count_is (filtered 0 0 rev_b 0) 1.

Definition test_historical_max_create_revision : M unit :=
  put_ok "a" "v1" ;;
  let* rev_a := now in
  put_ok "b" "v2" ;;
  count_is (filtered 0 0 0 rev_a) 1.

Definition metadata_is (r : RangeResponse) (v : string) (create_revision mod_revision version : Z) : M unit :=
  let* b := some (head (rs_kvs r)) in
  let* kv := decode_kv b in
  assert (bytes_eqb (kv_value kv) (lit v)) ;;
  assert (kv_create_revision kv =? create_revision) ;;
  assert (kv_mod_revision kv =? mod_revision) ;;
  assert (kv_version kv =? version).

Definition test_historical_kv_metadata : M unit :=
  put_ok "k1" "v1" ;;
  let* create_rev := now in
  put_ok "k1" "v2" ;;
  let* resp := unwrapped (query (key_at "k1" create_rev)) in
  metadata_is resp "v1" create_rev create_rev 1 ;;
  let* resp := unwrapped (query (key_at "k1" 0)) in
  metadata_is resp "v2" create_rev (create_rev + 1) 2.

Definition test_historical_from_key_query : M unit :=
  put_ok "a" "va" ;; put_ok "b" "vb" ;; put_ok "c" "vc" ;;
  let* rev := now in
  count_is (range_req (lit "b") zero_byte rev) 2.

Definition test_historical_non_existent_key : M unit :=
  put_ok "existing" "v" ;;
  let* rev := now in
  let* resp := unwrapped (query (key_at "nonexistent" rev)) in
  assert (rs_count resp =? 0) ;;
  assert (is_empty (rs_kvs resp)).

Definition test_historical_non_existent_prefix : M unit :=
  put_ok "/real/k1" "v1" ;;
  let* rev := now in
  count_is (range_req (lit "/fake/") (lit "/fake0") rev) 0.

Definition test_historical_exact_create_revision : M unit :=
  put_ok "k1" "v1" ;;
  let* create_rev := now in
  let* resp := unwrapped (query (key_at "k1" create_rev)) in
  assert (rs_count resp =? 1) ;;
  let* b := some (head (rs_kvs resp)) in
  let* kv := decode_kv b in
  assert (bytes_eqb (kv_value kv) (lit "v1")) ;;
  assert (kv_create_revision kv =? create_rev).

Definition test_historical_more_flag_limit_zero : M unit :=
  put_ok "k1" "v1" ;; put_ok "k2" "v2" ;;
  let* rev := now in
  let* resp := unwrapped (query (limited_at 0 rev)) in
  assert (rs_count resp =? 2) ;;
  assert (negb (rs_more resp)).

Definition test_current_state_min_max_mod_revision : M unit :=
  put_ok "k1" "v1" ;; put_ok "k2" "v2" ;;
  let* rev := now in
  put_ok "k1" "v1_upd" ;;
  count_is (filtered (rev + 1) 0 0 0) 1 ;;
  count_is (filtered 0 rev 0 0) 1.

Definition test_current_state_min_max_create_revision : M unit :=
  put_ok "k1" "v1" ;; put_ok "k2" "v2" ;;
  let* rev_k2 := now in
  count_is (filtered 0 0 rev_k2 0) 1 ;;
  count_is (filtered 0 0 0 (rev_k2 - 1)) 1.

Definition historical_tests : list (M unit) :=
  [test_historical_compacted_revision_error; test_historical_future_revision_error;
   test_historical_zero_revision_returns_current; test_historical_all_keys_current_skip_wal;
   test_historical_some_keys_stale; test_historical_value_at_revision; test_historical_after_delete;
   test_historical_before_delete; test_historical_after_create; test_historical_keys_only;
   test_historical_count_only; test_historical_limit; test_historical_point_lookup;
   test_historical_prefix_range; test_historical_after_compaction; test_historical_key_modified_after_target;
   test_historical_range_bounds; test_historical_delete_recreate;
   test_historical_delete_at_exact_delete_revision; test_historical_many_stale_keys_with_limit;
   test_historical_rebirth_forces_wal; test_historical_min_mod_revision; test_historical_max_mod_revision;
   test_historical_min_create_revision; test_historical_max_create_revision; test_historical_kv_metadata;
   test_historical_from_key_query; test_historical_non_existent_key; test_historical_non_existent_prefix;
   test_historical_exact_create_revision; test_historical_more_flag_limit_zero;
   test_current_state_min_max_mod_revision; test_current_state_min_max_create_revision].

(** ** [eval_compare_tests] *)

Definition make_compare (key : string) (target result_val target_val : Z) : Compare :=
  let target_union :=
    if target =? 0 then Some (TVersion target_val)
    else if target =? 1 then Some (TCreateRevision target_val)
    else if target =? 2 then Some (TModRevision target_val)
    else if target =? 3 then Some (TValue [])
    else if target =? 4 then Some (TLease target_val)
    else None in
  mkCompare result_val target (lit key) [] target_union.

Definition append_all (records : list KvWalRecord) (w : WalFile) : outcome WalFile :=
  foldl (fun w r => let? w := w in
           match append_kv w r with (w, inl _) => Ok w | (_, inr e) => Panic (detail e) end) (Ok w) records.

(** Apply the records to a new state over their file, outside the store. *)
Definition applied (records : list KvWalRecord) : M unit :=
  for_each (fun r => apply_record r) records ;;
  modify (set_next_rev (foldl (fun m r => Z.max m (record_rev r)) 0 records + 1)).

Definition fresh_state (records : list KvWalRecord) : M unit :=
  let* w := lift (append_all records (WalFile_open [])) in
  modify (fun _ => StoreState_new (WalFile_open (file w))) ;;
  applied records.

Definition make_put_record (key value : string) (rev lease : Z) : KvWalRecord :=
  KvWalRecord_new (Z.lor IS_CREATE (if negb (lease =? 0) then HAS_LEASE else 0)) (lit key) (lit value)
    (i64_wrap rev) (i64_wrap rev) 1 lease.

Definition make_delete_record (key : string) (rev : Z) : KvWalRecord :=
  KvWalRecord_new DELETED (lit key) [] (i64_wrap rev) (i64_wrap rev) 1 0.

Definition test_key : string := "/registry/test/key".

(** [assert!(eval_compare(&state, &cmp) == expected)]. *)
Definition compares (cmp : Compare) (expected : bool) : M unit :=
  let* s := get in assert (Bool.eqb (eval_compare s cmp) expected).

Definition test_eval_compare_alive_key_matches : M unit :=
  fresh_state [make_put_record test_key "value1" 1 0] ;;
  compares (make_compare test_key 2 0 1) true ;;
  compares (make_compare test_key 0 0 1) true ;;
  compares (make_compare test_key 0 3 2) true.

Definition test_eval_compare_tombstone_does_not_match : M unit :=
  fresh_state [make_put_record test_key "value1" 1 0; make_delete_record test_key 2] ;;
  compares (make_compare test_key 2 0 1) false.

Definition test_eval_compare_tombstone_all_targets : M unit :=
  fresh_state [make_put_record test_key "value1" 1 42; make_delete_record test_key 2] ;;
  compares (make_compare test_key 0 0 1) false ;;
  compares (make_compare test_key 1 0 1) false ;;
  compares (make_compare test_key 2 0 1) false ;;
  compares (mkCompare 0 3 (lit test_key) [] (Some (TValue (lit "value1")))) false ;;
  compares (make_compare test_key 4 0 42) false.

Definition test_eval_compare_missing_key_does_not_match : M unit :=
  fresh_state [] ;;
  compares (make_compare "/registry/nonexistent" 2 0 1) false.

Definition test_eval_compare_recreated_key_matches : M unit :=
  fresh_state [make_put_record test_key "v1" 1 0; make_delete_record test_key 2; make_put_record test_key "v2" 3 0] ;;
  compares (make_compare test_key 2 0 3) true ;;
  compares (make_compare test_key 2 0 1) false.

Definition eval_compare_tests : list (M unit) :=
  [test_eval_compare_alive_key_matches; test_eval_compare_tombstone_does_not_match;
   test_eval_compare_tombstone_all_targets; test_eval_compare_missing_key_does_not_match;
   test_eval_compare_recreated_key_matches].

(** ** [lease_restore_tests] *)

Definition rebuild_from_wal (contents : bytes) : M unit :=
  let w := WalFile_open contents in
  match scan_kv_collect w with
  | inr e => lift (Panic (detail e))
  | inl records =>
      modify (fun _ => StoreState_new w) ;;
      applied records ;;
      let* _ := restore_leases 0 in ret tt
  end.

Definition make_lease_put_record (key : string) (rev lease : Z) : KvWalRecord :=
  KvWalRecord_new (Z.lor IS_CREATE HAS_LEASE) (lit key) (lit "v") (i64_wrap rev) (i64_wrap rev) 1 lease.

Definition make_plain_put_record (key : string) (rev : Z) : KvWalRecord :=
  KvWalRecord_new IS_CREATE (lit key) (lit "v") (i64_wrap rev) (i64_wrap rev) 1 0.

Definition populate_wal (records : list KvWalRecord) : M bytes :=
  let* w := lift (append_all records (WalFile_open [])) in ret (file w).

Definition rebuilt (records : list KvWalRecord) : M StoreState :=
  let* contents := populate_wal records in
  rebuild_from_wal contents ;;
  get.

Definition has_lease (s : StoreState) (id : Z) : bool := match leases s !! id with Some _ => true | None => false end.

Definition test_leases_restored_after_open : M unit :=
  let* state := rebuilt [make_lease_put_record "/registry/test/leased" 10 42] in
  assert (has_lease state 42) ;;
  let* ks := some (keys state !! lit "/registry/test/leased") in
  assert (is_alive ks) ;;
  assert (ks_lease ks =? 42) ;;
  assert (42 <? next_lease_id state).

Definition test_leases_restored_multiple_ids : M unit :=
  let* state := rebuilt [make_lease_put_record "/registry/a" 10 42; make_lease_put_record "/registry/b" 20 99] in
  assert (size (leases state) =? 2)%nat ;;
  assert (has_lease state 42) ;;
  assert (has_lease state 99) ;;
  assert (99 <? next_lease_id state).

Definition test_no_leases_no_restore : M unit :=
  let* state := rebuilt [make_plain_put_record "/registry/nolease" 10] in
  assert (size (leases state) =? 0)%nat ;;
  assert (next_lease_id state =? 1).

Definition test_next_lease_id_bumps_past_restored_max : M unit :=
  let* state := rebuilt [make_lease_put_record "/registry/a" 10 5; make_lease_put_record "/registry/b" 20 99;
                         make_lease_put_record "/registry/c" 30 42] in
  assert (next_lease_id state =? 100).

Definition lease_restore_tests : list (M unit) :=
  [test_leases_restored_after_open; test_leases_restored_multiple_ids; test_no_leases_no_restore;
   test_next_lease_id_bumps_past_restored_max].

(** ** [resolve_range_tests] *)

Definition is_prefix (b : RangeBound) : bool := match b with Prefix _ => true | _ => false end.

Definition test_resolve_range_prefix_0xff_does_not_wrap : M unit :=
  assert (negb (is_prefix (resolve_range (lit "abc" ++ [Byte.xff]) (lit "abc" ++ zero_byte)))).

Definition test_resolve_range_prefix_normal : M unit :=
  assert (is_prefix (resolve_range (lit "abc") (lit "abd"))).

Definition test_resolve_range_prefix_0xff_suffix : M unit :=
  assert (is_prefix (resolve_range (lit "abc" ++ [Byte.xff]) (lit "abc" ++ [Byte.xff; Byte.x00]))).

Definition resolve_range_tests : list (M unit) :=
  [test_resolve_range_prefix_0xff_does_not_wrap; test_resolve_range_prefix_normal; test_resolve_range_prefix_0xff_suffix].

(** ** [point_range_tests] *)

(** The keys of a map within the bounds of a point. *)
Definition point_hits (map : gmap (list Byte.byte) unit) (k : string) : M (list (list Byte.byte)) :=
  let '(start, stop) := btree_bounds (Point (lit k)) in
  let* lo := some start in
  let* hi := some stop in
  let* hits := lift (btree_range (Some lo) (Some hi) map) in ret hits.*1.

Definition btree_bounds_point_is_exact : M unit :=
  let map := list_to_map ((fun k => (lit k, tt)) <$> ["a"; "ab"; "b"]%string) in
  let* hits := point_hits map "a" in
  assert (bool_decide (hits = [lit "a"])) ;;
  let* hits := point_hits map "aa" in
  assert (is_empty hits).

Definition empty_answer (req : RangeRequest) : M unit :=
  let* resp := unwrapped (query req) in
  assert (rs_count resp =? 0) ;;
  assert (is_empty (rs_kvs resp)).

Definition point_range_returns_only_the_exact_key : M unit :=
  put_kv "prefix/a" "A" ;; put_kv "prefix/ab" "AB" ;;
  let* resp := unwrapped (query (key_at "prefix/a" 0)) in
  assert (rs_count resp =? 1) ;;
  assert (length (rs_kvs resp) =? 1)%nat ;;
  let* b := some (head (rs_kvs resp)) in
  let* kv := decode_kv b in
  assert (bytes_eqb (kv_key kv) (lit "prefix/a")).

Definition point_range_missing_key_does_not_leak_prefix_sibling : M unit :=
  put_kv "prefix/ab" "AB" ;; empty_answer (key_at "prefix/a" 0).

Definition point_range_skips_deleted_key : M unit :=
  put_kv "prefix/a" "A" ;;
  unwrapped (delete_range (del_req "prefix/a")) ;;
  empty_answer (key_at "prefix/a" 0).

Definition historical_point_range_does_not_leak_prefix_sibling : M unit :=
  put_kv "prefix/ab" "AB" ;;
  let* rev := now in
  empty_answer (key_at "prefix/a" rev).

Definition point_range_tests : list (M unit) :=
  [btree_bounds_point_is_exact; point_range_returns_only_the_exact_key;
   point_range_missing_key_does_not_leak_prefix_sibling; point_range_skips_deleted_key;
   historical_point_range_does_not_leak_prefix_sibling].

(** ** [stats_tests], [lease_ttl_tests], [lease_id_tests] *)

Definition statistic (f : StoreStats -> Z) (n : Z) : M unit := let* s := get in assert (f (stats s) =? n).

Definition registers_watcher (key : string) (sender : nat) (watch_id : Z) (prev_kv : bool) : M unit :=
  modify (fun s => (register_watcher
    (mkReg (lit key) [] 0 sender watch_id false [] prev_kv (resolve_range (lit key) [])) s).1).

Definition stats_are_derived_from_state : M unit :=
  for_each (fun k => put_ok k "v") ["a"; "b"]%string ;;
  statistic st_keys 2 ;;
  unwrapped (delete_range (del_req "a")) ;;
  statistic st_keys 1 ;;
  let* rev := now in
  statistic st_revision rev ;;
  let* lease := unwrapped (lease_grant 0 (mkGrant 60 0)) in
  statistic st_leases 1 ;;
  unwrapped (lease_revoke (lgs_id lease)) ;;
  statistic st_leases 0 ;;
  registers_watcher "b" 0 9 false ;;
  statistic st_watchers 1.

Definition lease_ttl_is_clamped_and_bounded : M unit :=
  for_each (fun '(requested, expected) =>
      let* resp := unwrapped (lease_grant 0 (mkGrant requested 0)) in assert (lgs_ttl resp =? expected))
    [(0, 2); (-5, 2); (1, 2); (2, 2); (60, 60)] ;;
  let* err := unwrap_err (lease_grant 0 (mkGrant 9223372036 0)) in
  assert (bool_decide (code err = OutOfRange)) ;;
  assert (contains "too large lease TTL" (message err)) ;;
  unwrapped (lease_grant 0 (mkGrant 9223372035 0)) ;;
  ret tt.

Definition duplicate_grant_and_missing_revoke_error : M unit :=
  let grant id := lease_grant 0 (mkGrant 60 id) in
  unwrapped (grant 42) ;;
  let* err := unwrap_err (grant 42) in
  assert (bool_decide (code err = FailedPrecondition)) ;;
  assert (contains "lease already exists" (message err)) ;;
  let* err := unwrap_err (lease_revoke 999999) in
  assert (bool_decide (code err = NotFound)) ;;
  assert (contains "requested lease not found" (message err)) ;;
  unwrapped (lease_revoke 42) ;;
  ret tt.

Definition lease_tests : list (M unit) :=
  [stats_are_derived_from_state; lease_ttl_is_clamped_and_bounded; duplicate_grant_and_missing_revoke_error].

(** ** [txn_nested_tests], [txn_atomicity_tests] *)

Definition put_op (key value : string) : RequestOp := RequestPut (put_req key value).
Definition get_op (key : string) : RequestOp := RequestRange (key_at key 0).
Definition txn_of (ops : list RequestOp) : TxnRequest := mkTxn [] ops [].

Definition responses_of (t : TxnResponse) : list ResponseOp := let 'mkTxnResponse _ _ rs := t in rs.
Definition header_of (t : TxnResponse) : option ResponseHeader := let 'mkTxnResponse h _ _ := t in h.

Definition nested_txn_executes_its_ops : M unit :=
  let* resp := unwrapped (txn (txn_of [put_op "n/outer" "v"; RequestTxn (txn_of [put_op "n/inner" "v"])])) in
  assert (ts_succeeded resp) ;;
  assert (length (responses_of resp) =? 2)%nat ;;
  match responses_of resp !! 1%nat with
  | Some (ResponseTxn nested) =>
      assert (ts_succeeded nested) ;;
      assert (length (responses_of nested) =? 1)%nat ;;
      assert (match responses_of nested !! O with Some (ResponsePut _) => true | _ => false end)
  | _ => lift (Panic "expected a nested txn response")
  end ;;
  count_is (key_at "n/outer" 0) 1 ;;
  count_is (key_at "n/inner" 0) 1 ;;
  let deep := RequestTxn (txn_of [RequestTxn (txn_of [put_op "n/deep" "v"])]) in
  let* err := unwrap_err (txn (txn_of [deep])) in
  assert (bool_decide (code err = InvalidArgument)) ;;
  count_is (key_at "n/deep" 0) 0.

(** [*end.last_mut().unwrapped() += 1]. *)
Definition increment_last (b : bytes) : bytes :=
  match last b with Some x => take (length b - 1) b ++ [to_u8 (u8 x + 1)] | None => b end.

Definition count_at (prefix : string) (rev : Z) : M Z := fun s =>
  match range s (range_req (lit prefix) (increment_last (lit prefix)) rev) with
  | Ok r => (s, Ok (rs_count r))
  | Err _ => (s, Ok (-1))
  | Panic w => (s, Panic w)
  end.

Definition txn_writes_share_one_revision : M unit :=
  put_ok "seed" "v" ;;
  let* before := now in
  let* resp := unwrapped (txn (txn_of [put_op "txn/a" "1"; put_op "txn/b" "2"; put_op "txn/c" "3"])) in
  let* h := some (header_of resp) in
  assert (revision h =? before + 1) ;;
  let* rev := now in
  assert (rev =? before + 1) ;;
  let* n := count_at "txn/" before in
  assert (n =? 0) ;;
  let* n := count_at "txn/" (before + 1) in
  assert (n =? 3) ;;
  let* err := unwrap_err (query (key_at "txn/a" (before + 2))) in
  assert (bool_decide (code err = OutOfRange)).

(** The second response is a range with one key-value of that value. *)
Definition second_range_is (resp : TxnResponse) (v : string) : M unit :=
  match responses_of resp !! 1%nat with
  | Some (ResponseRange g) =>
      assert (length (rs_kvs g) =? 1)%nat ;;
      let* b := some (head (rs_kvs g)) in
      let* kv := decode_kv b in
      assert (bytes_eqb (kv_value kv) (lit v))
  | _ => lift (Panic "expected a range response")
  end.

Definition txn_historical_range_is_deferred_and_unaffected : M unit :=
  put_ok "h" "v1" ;;
  let* v1_rev := now in
  put_ok "h" "v2" ;;
  let* resp := unwrapped (txn (txn_of [put_op "h2" "x"; RequestRange (key_at "h" v1_rev)])) in
  second_range_is resp "v1" ;;
  let* h := some (header_of resp) in
  assert (revision h =? v1_rev + 2).

Definition txn_read_own_writes_and_reject_duplicate_keys : M unit :=
  put_ok "own" "pre" ;;
  let* resp := unwrapped (txn (txn_of [put_op "own" "mid"; get_op "own"])) in
  second_range_is resp "mid" ;;
  let* err := unwrap_err (txn (txn_of [put_op "dup" "1"; put_op "dup" "2"])) in
  assert (bool_decide (code err = InvalidArgument)) ;;
  assert (contains "duplicate key" (message err)).

Definition txn_tests : list (M unit) :=
  [nested_txn_executes_its_ops; txn_writes_share_one_revision; txn_historical_range_is_deferred_and_unaffected;
   txn_read_own_writes_and_reject_duplicate_keys].

(** ** [revision_error_tests], [range_sort_tests] *)

Definition future_and_compacted_revisions_error_with_out_of_range : M unit :=
  for_each (fun i => put_ok (numbered "k" i) "v") (seqZ 0 4) ;;
  let* current := now in
  for_each (fun rev =>
      let* err := unwrap_err (query (key_at "k0" rev)) in
      assert (bool_decide (code err = OutOfRange)) ;;
      assert (contains "required revision is a future revision" (message err)))
    [current + 1; current + 5; current + 100000] ;;
  unwrapped (compact current) ;;
  let* err := unwrap_err (query (key_at "k0" (current - 1))) in
  assert (bool_decide (code err = OutOfRange)) ;;
  assert (contains "required revision has been compacted" (message err)) ;;
  unwrapped (query (key_at "k0" current)) ;;
  ret tt.

Definition values (resp : RangeResponse) : list (list Byte.byte) :=
  (fun b => match kv_decode b with Some kv => kv_value kv | None => [] end) <$> rs_kvs resp.
Definition keys_of (resp : RangeResponse) : list (list Byte.byte) :=
  (fun b => match kv_decode b with Some kv => kv_key kv | None => [] end) <$> rs_kvs resp.

Definition range_honours_sort_order_and_target : M unit :=
  for_each (fun '(k, v) => put_ok ("sort/" +:+ k) v) [("a", "3"); ("b", "1"); ("c", "2")]%string ;;
  let range order target := unwrapped (query (mkRange (lit "sort/") (lit "sort0") 0 0 order target false false 0 0 0 0)) in
  let lits := fmap (M := list) lit in
  let* r := range DESCEND T_VALUE in
  assert (bool_decide (values r = lits ["3"; "2"; "1"]%string)) ;;
  let* r := range ASCEND T_VALUE in
  assert (bool_decide (values r = lits ["1"; "2"; "3"]%string)) ;;
  let* r := range DESCEND T_KEY in
  assert (bool_decide (keys_of r = lits ["sort/c"; "sort/b"; "sort/a"]%string)) ;;
  let* r := range 0 T_KEY in
  assert (bool_decide (keys_of r = lits ["sort/a"; "sort/b"; "sort/c"]%string)).

Definition range_tests : list (M unit) :=
  [future_and_compacted_revisions_error_with_out_of_range; range_honours_sort_order_and_target].

(** ** The tests of apply.rs and watch.rs *)

(** An unbounded channel with nothing in it. *)
Definition opens_channel (c : nat) : M unit := modify (fun s => set_chans (<[c := mkChan [] true]> (chans s)) s).
(** Everything sent on it so far. *)
Definition received_on (c : nat) : M (list WatchEvent) :=
  let* s := get in ret (match chans s !! c with Some ch => ch_sent ch | None => [] end).

Definition delete_event_reports_deletion_revision : M unit :=
  put_ok "k" "v" ;;
  let* put_rev := now in
  opens_channel 0 ;;
  registers_watcher "k" 0 1 true ;;
  unwrapped (delete_range (del_req "k")) ;;
  let* events := received_on 0 in
  let* event := some (head events) in
  let* kv := decode_kv (ev_kv_bytes event) in
  let* prev_kv := decode_kv (ev_prev_kv_bytes event) in
  assert (bool_decide (ev_type event = EvDelete)) ;;
  assert (bytes_eqb (kv_key kv) (lit "k")) ;;
  assert (kv_mod_revision kv =? i64_wrap (ev_revision event)) ;;
  assert (negb (kv_mod_revision kv =? i64_wrap put_rev)) ;;
  assert (bytes_eqb (kv_value prev_kv) (lit "v")).

Definition decode_val (b : bytes) : bytes := match kv_decode b with Some kv => kv_value kv | None => [] end.

(** A batch of one create for "foo", with channel and oneshot 0. *)
Definition foo_batch (start_revision : Z) (prev_kv : bool) (watch_id : Z) : list GlobalCreate :=
  [mkGlobal (mkPending (lit "foo") [] start_revision false [] prev_kv) 0 0 watch_id].

Definition flushes (batch : list GlobalCreate) (checkpoint_rev checkpoint_offset : Z) : M unit := fun s =>
  match flush_global_batch_at (fun _ s => s) batch checkpoint_rev checkpoint_offset s with
  | Ok (s, _) => (s, Ok tt)
  | Err e => (s, Panic (message e))
  | Panic w => (s, Panic w)
  end.

Definition test_phase2_prev_kv_uses_phase1_map : M unit :=
  put_kv "foo" "v1" ;; put_kv "foo" "v2" ;;
  let* checkpoint_rev := now in
  let* checkpoint_offset := file_size in
  put_kv "foo" "v3" ;;
  opens_channel 0 ;;
  flushes (foo_batch checkpoint_rev true 42) checkpoint_rev checkpoint_offset ;;
  let* events := received_on 0 in
  assert (length events =? 2)%nat ;;
  let* ev2 := some (events !! 0%nat) in
  assert (bytes_eqb (decode_val (ev_kv_bytes ev2)) (lit "v2")) ;;
  assert (bytes_eqb (decode_val (ev_prev_kv_bytes ev2)) (lit "v1")) ;;
  let* ev3 := some (events !! 1%nat) in
  assert (bytes_eqb (decode_val (ev_kv_bytes ev3)) (lit "v3")) ;;
  assert (bytes_eqb (decode_val (ev_prev_kv_bytes ev3)) (lit "v2")).

Definition test_watch_without_start_revision_starts_at_now : M unit :=
  put_ok "foo" "old" ;;
  let* s := get in
  let start_revision := resolve_start_revision s 0 in
  let '(checkpoint_rev, checkpoint_offset) := current_checkpoint s in
  opens_channel 0 ;;
  flushes (foo_batch start_revision false 77) checkpoint_rev checkpoint_offset ;;
  let* events := received_on 0 in
  assert (is_empty events) ;;
  put_ok "foo" "new" ;;
  let* events := received_on 0 in
  let* event := some (head events) in
  assert (bytes_eqb (decode_val (ev_kv_bytes event)) (lit "new")).

Definition test_progress_response_uses_broadcast_watch_id : M unit :=
  assert (wp_watch_id (make_progress_response 42) =? -1).

Definition test_progress_response_structure : M unit :=
  let resp := make_progress_response 12345 in
  let* h := some (wp_header resp) in
  assert (revision h =? 12345) ;;
  assert (negb (wp_created resp)) ;;
  assert (negb (wp_canceled resp)) ;;
  assert (wp_compact_revision resp =? 0) ;;
  assert (is_empty (wp_events resp)) ;;
  assert (negb (wp_fragment resp)).

Definition test_watch_start_revision_pinned_at_request_keeps_batched_writes : M unit :=
  put_ok "foo" "old" ;;
  let* s := get in
  let start_revision := resolve_start_revision s 0 in
  put_ok "foo" "new" ;;
  let* s := get in
  let '(checkpoint_rev, checkpoint_offset) := current_checkpoint s in
  opens_channel 0 ;;
  flushes (foo_batch start_revision false 78) checkpoint_rev checkpoint_offset ;;
  let* events := received_on 0 in
  assert (bool_decide ((fun ev => decode_val (ev_kv_bytes ev)) <$> events = [lit "new"])).

Definition watch_tests : list (M unit) :=
  [delete_event_reports_deletion_revision; test_phase2_prev_kv_uses_phase1_map;
   test_watch_without_start_revision_starts_at_now; test_progress_response_uses_broadcast_watch_id;
   test_progress_response_structure; test_watch_start_revision_pinned_at_request_keeps_batched_writes].

(** ** All of them *)

Definition unit_tests : list (M unit) :=
  compact_tests ++ historical_tests ++ eval_compare_tests ++ lease_restore_tests ++ resolve_range_tests
  ++ point_range_tests ++ lease_tests ++ txn_tests ++ range_tests ++ watch_tests.

(** The repository's unit tests pass. Every test of the storage layer and of the
    watch service that the repository runs, translated to a program over the model,
    runs to its end: no assertion fails, nothing it unwraps is an error, and nothing
    panics. *)
Theorem unit_tests_pass : forallb passes unit_tests = true.
Proof. vm_compute. reflexivity. Qed.

End UnitTests.
