(* ===== verification/CodecTests.v ===== *)
(** * The unit tests of the codecs and of the WAL file, run on the model

    The tests of src/storage/wal.rs and src/storage/state.rs, translated statement by
    statement. A test is a computation in the option monad: [None] is a failed
    assertion, an [unwrap] of nothing or a panic. The checksum is the bitwise CRC-32C
    and the decoder the reference decoder of Wire.v, which stand here for the crates
    the tests link. *)
From S2P Require Import Prelude Varint KvCodec Wire Crc WalRecord.
Local Open Scope Z_scope.

Module CodecTests.
Import Varint KvCodec Wire Crc Wal.

#[local] Existing Instance bitwise_crc.
#[local] Existing Instance ref_decoder.

(** ** Test programs *)

Declare Scope codec_test_scope.
Notation "m ;; k" := (m ≫= fun _ : unit => k) (at level 100, k at level 200, right associativity) : codec_test_scope.
Local Open Scope codec_test_scope.

Definition assert (b : bool) : option unit := if b then Some tt else None.
Definition assert_eq {A} `{EqDecision A} (x y : A) : option unit := assert (bool_decide (x = y)).
Definition is_none {A} (o : option A) : bool := match o with None => true | _ => false end.
Definition is_some {A} (o : option A) : bool := negb (is_none o).

(** [Result::unwrap]. *)
Definition unwrapped {A} (r : io_result A) : option A := match r with inl a => Some a | inr _ => None end.
(** A call that may panic. *)
Definition returned {A} (o : outcome A) : option A := match o with Ok a => Some a | _ => None end.
(** [for &v in &cases]. *)
Fixpoint each {A} (cases : list A) (body : A -> option unit) : option unit :=
  match cases with [] => Some tt | v :: cases => body v ;; each cases body end.

(** [assert_eq!(r.key(), Some(&k\[..\]))]. *)
Definition key_is (r : KvWalRecord) (k : bytes) : option unit :=
  let! key := returned (rec_key r) in assert_eq key (Some k).
Definition mod_revision_is (r : KvWalRecord) (rev : Z) : option unit :=
  assert_eq (rec_mod_revision r) (Some rev).

Definition i64_MAX : Z := 2 ^ 63 - 1.
Definition u64_MAX : Z := 2 ^ 64 - 1.

(** ** Varints *)

Definition test_overlong_u32_roundtrip : option unit :=
  each [0; 1; 127; 128; 255; 65535; Z.shiftl 1 20; Z.shiftl 1 28 - 1; 12345678; 0xDEADBEAF] (fun v =>
    let enc := encode_overlong_u32 v in
    let! dec := decode_overlong_u32 enc in
    assert_eq v dec).

Definition test_overlong_u32_short_buffer : option unit :=
  assert (is_none (decode_overlong_u32 (replicate 3 Byte.x00))) ;;
  assert (is_none (decode_overlong_u32 [])).

Definition test_overlong_u32_prost_compatible : option unit :=
  let enc := encode_overlong_u32 42 in
  let! (dec, consumed) := decode_varint enc in
  assert_eq dec 42 ;;
  assert_eq consumed 5%nat.

Definition test_overlong_u64_roundtrip : option unit :=
  each [0; 1; 127; 128; 65535; Z.shiftl 1 32; Z.shiftl 1 56 - 1; 12345678901234567890] (fun v =>
    let enc := encode_overlong_u64 v in
    let! dec := decode_overlong_u64 enc in
    assert_eq v dec).

Definition test_overlong_u64_short_buffer : option unit :=
  assert (is_none (decode_overlong_u64 (replicate 7 Byte.x00))) ;;
  assert (is_none (decode_overlong_u64 [])).

Definition test_standard_varint_roundtrip : option unit :=
  each [0; 1; 127; 128; 255; 65535; Z.shiftl 1 32; u64_MAX] (fun v =>
    let enc := encode_varint v in
    let! (dec, consumed) := decode_varint enc in
    assert_eq v dec ;;
    assert_eq consumed (length enc)).

Definition test_standard_varint_decode_overlong : option unit :=
  let enc := encode_overlong_u32 42 in
  let! (dec, consumed) := decode_varint enc in
  assert_eq dec 42 ;;
  assert_eq consumed 5%nat.

Definition varint_tests : list (option unit) :=
  [test_overlong_u32_roundtrip; test_overlong_u32_short_buffer; test_overlong_u32_prost_compatible;
   test_overlong_u64_roundtrip; test_overlong_u64_short_buffer; test_standard_varint_roundtrip;
   test_standard_varint_decode_overlong].

(** ** Key-value blobs *)

Definition test_encode_kv_roundtrip : option unit :=
  let key := lit "test_key" in
  let value := lit "test_value" in
  let '(kv_bytes, key_ofs, rev_ofs) := encode_kv key value 1 100 5 999 in
  let! decoded := kv_decode kv_bytes in
  assert_eq (kv_key decoded) key ;;
  assert_eq (kv_value decoded) value ;;
  assert_eq (kv_create_revision decoded) 1 ;;
  assert_eq (kv_mod_revision decoded) 100 ;;
  assert_eq (kv_version decoded) 5 ;;
  assert_eq (kv_lease decoded) 999 ;;
  let! read := returned (read_key_from_kv kv_bytes key_ofs) in
  let! read_key := read in
  assert_eq read_key key ;;
  let! read_rev := read_mod_revision_from_kv kv_bytes rev_ofs in
  assert_eq read_rev 100.

Definition test_encode_kv_empty_values : option unit :=
  let '(kv_bytes, key_ofs, rev_ofs) := encode_kv (lit "k") [] 1 2 3 0 in
  let! decoded := kv_decode kv_bytes in
  assert_eq (kv_key decoded) (lit "k") ;;
  assert_eq (kv_value decoded) [] ;;
  assert_eq (kv_lease decoded) 0 ;;
  let! read := returned (read_key_from_kv kv_bytes key_ofs) in
  let! read_key := read in
  assert_eq read_key (lit "k") ;;
  let! read_rev := read_mod_revision_from_kv kv_bytes rev_ofs in
  assert_eq read_rev 2.

Definition test_encode_kv_large_values : option unit :=
  let key := replicate 1000 Byte.xab in
  let value := replicate (Z.to_nat 65535) Byte.xcd in
  let '(kv_bytes, key_ofs, rev_ofs) := encode_kv key value 1 2 3 0 in
  let! decoded := kv_decode kv_bytes in
  assert_eq (Z.of_nat (length (kv_key decoded))) 1000 ;;
  assert_eq (Z.of_nat (length (kv_value decoded))) 65535 ;;
  let! read := returned (read_key_from_kv kv_bytes key_ofs) in
  let! read_key := read in
  assert_eq (Z.of_nat (length read_key)) 1000 ;;
  let! read_rev := read_mod_revision_from_kv kv_bytes rev_ofs in
  assert_eq read_rev 2.

Definition test_read_key_invalid_offsets : option unit :=
  let '(kv_bytes, _, _) := encode_kv (lit "key") (lit "val") 1 2 3 0 in
  let! read := returned (read_key_from_kv kv_bytes 9999) in
  assert (is_none read) ;;
  assert (is_none (read_mod_revision_from_kv kv_bytes 9999)).

Definition patch_keys : list bytes :=
  [[]; lit "k"; lit "/registry/replicasets/default/immich-microservices-85fc7f49bf"; replicate 200 Byte.xff].

Definition with_mod_revision_matches_re_encoding : option unit :=
  let cases := [(1, 1, 2); (1, 1, 1000000); (200, 300, 301); (16384, 30000, 4000000000);
                (i64_MAX, u64_MAX / 2, u64_MAX)] in
  each patch_keys (fun key =>
    each cases (fun '(create_rev, prev_rev, new_rev) =>
      let '(original, _, _) := encode_kv key (lit "some value") create_rev (i64_wrap prev_rev) 7 0 in
      let! patched := with_mod_revision original new_rev in
      let '(expected, _, _) := encode_kv key (lit "some value") create_rev (i64_wrap new_rev) 7 0 in
      assert_eq patched expected)).

Definition with_mod_revision_preserves_other_fields : option unit :=
  let key := lit "/registry/pods/default/foo" in
  let '(original, _, _) := encode_kv key (lit "payload") 42 43 5 9 in
  let! patched := with_mod_revision original 99 in
  let! kv := kv_decode patched in
  assert_eq (kv_key kv) key ;;
  assert_eq (kv_value kv) (lit "payload") ;;
  assert_eq (kv_create_revision kv) 42 ;;
  assert_eq (kv_version kv) 5 ;;
  assert_eq (kv_lease kv) 9 ;;
  assert_eq (kv_mod_revision kv) 99.

Definition mod_revision_offset_matches_encoder : option unit :=
  each patch_keys (fun key =>
    each [0; 1; 127; 128; 16383; 16384; Z.shiftl 1 35; i64_MAX] (fun create_rev =>
      let '(blob, _, mod_rev_offset) := encode_kv key (lit "v") create_rev 7 1 0 in
      let! offset := mod_revision_field_offset blob in
      assert_eq (Z.of_nat offset) mod_rev_offset)).

Definition kv_tests : list (option unit) :=
  [test_encode_kv_roundtrip; test_encode_kv_empty_values; test_encode_kv_large_values;
   test_read_key_invalid_offsets; with_mod_revision_matches_re_encoding;
   with_mod_revision_preserves_other_fields; mod_revision_offset_matches_encoder].

(** ** Records *)

Definition test_kvwal_record_roundtrip : option unit :=
  let rec := KvWalRecord_new IS_CREATE (lit "my_key") (lit "my_value") 1 42 5 0 in
  let serialized := serialize rec in
  let! (deserialized, consumed) := unwrapped (deserialize serialized) in
  assert_eq consumed (Z.of_nat (length serialized)) ;;
  assert_eq (flags deserialized) IS_CREATE ;;
  key_is deserialized (lit "my_key") ;;
  mod_revision_is deserialized 42 ;;
  assert_eq (kv_bytes deserialized) (kv_bytes rec) ;;
  assert_eq (crc deserialized) (crc rec).

Definition test_kvwal_record_with_lease : option unit :=
  let rec := KvWalRecord_new (Z.lor IS_CREATE HAS_LEASE) (lit "lease_key") (lit "lease_val") 10 20 1 777 in
  let serialized := serialize rec in
  let! (deserialized, _) := unwrapped (deserialize serialized) in
  assert_eq (flags deserialized) (Z.lor IS_CREATE HAS_LEASE) ;;
  key_is deserialized (lit "lease_key") ;;
  mod_revision_is deserialized 20.

Definition test_kvwal_record_deleted : option unit :=
  let rec := KvWalRecord_new DELETED (lit "del_key") [] 5 6 1 0 in
  let serialized := serialize rec in
  let! (deserialized, _) := unwrapped (deserialize serialized) in
  assert_eq (flags deserialized) DELETED ;;
  key_is deserialized (lit "del_key") ;;
  mod_revision_is deserialized 6.

(** [serialized\[KV_HEADER_SIZE + 2\] ^= 0xFF]. *)
Definition test_kvwal_record_crc_corruption : option unit :=
  let rec := KvWalRecord_new IS_CREATE (lit "key") (lit "value") 1 2 3 0 in
  let serialized := serialize rec in
  let at_ := Z.to_nat (KV_HEADER_SIZE + 2) in
  let! b := serialized !! at_ in
  let serialized := <[at_ := to_u8 (Z.lxor (u8 b) 0xFF)]> serialized in
  match deserialize serialized with
  | inl _ => None
  | inr e => assert (is_some (String.index 0 "CRC" (detail e)))
  end.

Definition test_kvwal_record_empty : option unit :=
  let rec := KvWalRecord_new IS_CREATE [] [] 0 0 0 0 in
  let serialized := serialize rec in
  let! (deserialized, _) := unwrapped (deserialize serialized) in
  key_is deserialized [] ;;
  mod_revision_is deserialized 0.

Definition test_kvwal_record_large_key_value : option unit :=
  let key := replicate 5000 Byte.x42 in
  let value := replicate (Z.to_nat 100000) Byte.x99 in
  let rec := KvWalRecord_new IS_CREATE key value 1 999999 42 0 in
  let serialized := serialize rec in
  let! (deserialized, consumed) := unwrapped (deserialize serialized) in
  assert_eq consumed (Z.of_nat (length serialized)) ;;
  key_is deserialized key ;;
  mod_revision_is deserialized 999999.

Definition test_kvwal_prost_compat_all_fields : option unit :=
  let rec := KvWalRecord_new (Z.lor IS_CREATE HAS_LEASE) (lit "compat_key") (lit "compat_value") 42 100 7 888 in
  let! decoded := kv_decode (kv_bytes rec) in
  assert_eq (kv_key decoded) (lit "compat_key") ;;
  assert_eq (kv_value decoded) (lit "compat_value") ;;
  assert_eq (kv_create_revision decoded) 42 ;;
  assert_eq (kv_mod_revision decoded) 100 ;;
  assert_eq (kv_version decoded) 7 ;;
  assert_eq (kv_lease decoded) 888.

Definition test_kvwal_prost_compat_max_values : option unit :=
  let rec := KvWalRecord_new IS_CREATE (lit "k") (lit "v") i64_MAX i64_MAX i64_MAX i64_MAX in
  let! decoded := kv_decode (kv_bytes rec) in
  assert_eq (kv_create_revision decoded) i64_MAX ;;
  assert_eq (kv_mod_revision decoded) i64_MAX ;;
  assert_eq (kv_version decoded) i64_MAX ;;
  assert_eq (kv_lease decoded) i64_MAX.

Definition test_kvwal_crc_consistency : option unit :=
  let rec := KvWalRecord_new IS_CREATE (lit "crc_test") (lit "crc_value") 1 2 3 0 in
  let serialized := serialize rec in
  let kv_end := (Z.to_nat KV_HEADER_SIZE + length (kv_bytes rec))%nat in
  let manual_crc := crc32c (take kv_end serialized) in
  assert_eq manual_crc (crc rec) ;;
  let! (deserialized, _) := unwrapped (deserialize serialized) in
  assert_eq (crc deserialized) (crc rec).

Definition test_deserialize_rec_len_underflow : option unit :=
  let rec := mkRecord DELETED [Byte.x0a; Byte.x01; Byte.x61] 1 0 (KV_HEADER_SIZE + KV_CRC_SIZE - 1) 0 in
  let serialized := serialize rec in
  match deserialize serialized with
  | inl _ => None
  | inr err => assert (match kind err with InvalidData => true | _ => false end)
  end.

Definition record_tests : list (option unit) :=
  [test_kvwal_record_roundtrip; test_kvwal_record_with_lease; test_kvwal_record_deleted;
   test_kvwal_record_crc_corruption; test_kvwal_record_empty; test_kvwal_record_large_key_value;
   test_kvwal_prost_compat_all_fields; test_kvwal_prost_compat_max_values; test_kvwal_crc_consistency;
   test_deserialize_rec_len_underflow].

(** ** The file

    A test's file is the contents one block leaves to the next; no write fails. *)

Definition append_ok (w : WalFile) (r : KvWalRecord) : option WalFile :=
  let '(w, res) := append_kv w r in let! _ := unwrapped res in Some w.

Definition test_walfile_append_scan_kv : option unit :=
  let wal := WalFile_open [] in
  let rec1 := KvWalRecord_new IS_CREATE (lit "alpha") (lit "a") 1 10 1 0 in
  let rec2 := KvWalRecord_new IS_CREATE (lit "beta") (lit "b") 2 20 2 0 in
  let rec3 := KvWalRecord_new DELETED (lit "gamma") [] 3 30 1 0 in
  let! wal := append_ok wal rec1 in
  let! wal := append_ok wal rec2 in
  let! wal := append_ok wal rec3 in
  let wal := WalFile_open (file wal) in
  let! records := unwrapped (scan_kv_collect wal) in
  assert_eq (length records) 3%nat ;;
  let! r0 := records !! 0%nat in
  let! r1 := records !! 1%nat in
  let! r2 := records !! 2%nat in
  key_is r0 (lit "alpha") ;;
  mod_revision_is r0 10 ;;
  key_is r1 (lit "beta") ;;
  mod_revision_is r1 20 ;;
  assert_eq (flags r2) DELETED ;;
  key_is r2 (lit "gamma").

Definition test_walfile_append_kv_batch : option unit :=
  let wal := WalFile_open [] in
  let recs := [KvWalRecord_new IS_CREATE (lit "a") (lit "1") 1 1 1 0;
               KvWalRecord_new IS_CREATE (lit "b") (lit "2") 2 2 2 0] in
  let '(wal, res) := append_kv_batch wal recs in
  unwrapped res ;;
  let wal := WalFile_open (file wal) in
  let! records := unwrapped (scan_kv_collect wal) in
  assert_eq (length records) 2%nat.

Definition test_walfile_scan_kv_empty : option unit :=
  let wal := WalFile_open [] in
  let! records := unwrapped (scan_kv_collect wal) in
  assert (match records with [] => true | _ => false end).

Definition test_walfile_scan_kv_partial_corruption : option unit :=
  let wal := WalFile_open [] in
  let rec1 := KvWalRecord_new IS_CREATE (lit "good") (lit "data") 1 1 1 0 in
  let! wal := append_ok wal rec1 in
  let '(wal, res) := write_all wal (lit "GARBAGE_DATA_THAT_IS_NOT_A_VALID_RECORD") in
  unwrapped res ;;
  let rec2 := KvWalRecord_new IS_CREATE (lit "after") (lit "garbage") 2 2 2 0 in
  let! wal := append_ok wal rec2 in
  let wal := WalFile_open (file wal) in
  let! records := unwrapped (scan_kv_collect wal) in
  assert_eq (length records) 1%nat ;;
  let! r0 := records !! 0%nat in
  key_is r0 (lit "good").

Definition test_walfile_scan_kv_skip_offset : option unit :=
  let wal := WalFile_open [] in
  let rec1 := KvWalRecord_new IS_CREATE (lit "first") (lit "1") 1 1 1 0 in
  let rec2 := KvWalRecord_new IS_CREATE (lit "second") (lit "2") 2 2 2 0 in
  let! wal := append_ok wal rec1 in
  let! wal := append_ok wal rec2 in
  let wal := WalFile_open (file wal) in
  let! all := unwrapped (scan_kv_collect wal) in
  let! r0 := all !! 0%nat in
  let rec1_size := rec_len r0 in
  assert_eq (length all) 2%nat ;;
  let wal2 := WalFile_open (file wal) in
  let '(records, res) := scan_kv wal2 rec1_size in
  let! _ := unwrapped res in
  assert_eq (length records) 1%nat ;;
  let! r := records !! 0%nat in
  key_is r (lit "second").

Definition walfile_tests : list (option unit) :=
  [test_walfile_append_scan_kv; test_walfile_append_kv_batch; test_walfile_scan_kv_empty;
   test_walfile_scan_kv_partial_corruption; test_walfile_scan_kv_skip_offset].

Definition codec_tests : list (option unit) := varint_tests ++ kv_tests ++ record_tests ++ walfile_tests.

(** Every test of the codecs and of the WAL file passes on the model. *)
Theorem codec_tests_pass : forallb is_some codec_tests = true.
Proof. vm_compute. reflexivity. Qed.

End CodecTests.
