(* ===== verification/Legacy.v ===== *)
(** * The old log format and its migration

    [WalRecord] of src/storage/wal.rs (kept for the migration tool) and
    src/bin/wal_migrate.rs, which rewrites an old log in the current format. *)
From S2P Require Import Prelude Varint KvCodec Wire Crc WalRecord Proto Range SortKvs State Store.
From S2P Require Import Historical Txn Recovery Background System Replay Durability.
Local Open Scope Z_scope.

Module Legacy.
Import KvCodec Wire Crc Wal Proto Range SortKvs State Store Historical Txn Recovery Background System Replay
  Durability.

Definition MAGIC : Z := 0x5255.

Record WalRecord := mkOld {
  old_revision : Z; old_key : bytes; old_value : bytes; old_flags : Z; old_lease_id : option Z }.

Section Legacy.
Context `{Crc32c}.

(** ** Records *)

(** The bytes from offset 22 on, which the checksum covers. *)
Definition old_payload (r : WalRecord) : bytes :=
  [to_u8 (old_flags r)] ++ old_key r ++ old_value r
  ++ match old_lease_id r with Some lid => to_le 8 (u64_wrap lid) | None => [] end.

Definition old_serialize (r : WalRecord) : bytes :=
  to_le 2 MAGIC ++ to_le 8 (old_revision r) ++ to_le 4 (crc32c (old_payload r))
  ++ to_le 4 (u32_wrap (Z.of_nat (length (old_key r)))) ++ to_le 4 (u32_wrap (Z.of_nat (length (old_value r))))
  ++ old_payload r.

Definition old_deserialize (data : bytes) : io_result (WalRecord * nat) :=
  if (length data <? 23)%nat then inr (mkIoError UnexpectedEof "short record")
  else if negb (le_at 2 0 data =? MAGIC) then inr (mkIoError InvalidData "bad magic")
  else
    let revision := le_at 8 2 data in
    let stored_crc := le_at 4 10 data in
    let key_len := Z.to_nat (le_at 4 14 data) in
    let val_len := Z.to_nat (le_at 4 18 data) in
    let flags := u8 (default Byte.x00 (data !! 22%nat)) in
    if (length data <? 23 + key_len + val_len)%nat then inr (mkIoError UnexpectedEof "truncated payload")
    else
      let key := take key_len (drop 23 data) in
      let value := take val_len (drop (23 + key_len) data) in
      let ofs := (23 + key_len + val_len)%nat in
      let finish (lease_id : option Z) (ofs : nat) : io_result (WalRecord * nat) :=
        if negb (crc32c (take (ofs - 22) (drop 22 data)) =? stored_crc)
        then inr (mkIoError InvalidData "CRC mismatch")
        else inl (mkOld revision key value flags lease_id, ofs) in
      if negb (Z.land flags HAS_LEASE =? 0) then
        if (length data <? ofs + 8)%nat then inr (mkIoError UnexpectedEof "truncated lease")
        else finish (Some (i64_wrap (le_at 8 ofs data))) (ofs + 8)%nat
      else finish None ofs.

(** ** The migration tool *)

(** The loop of [read_old_records]; an error ends it. Every round consumes at
    least 23 bytes, so the length is fuel enough. *)
Fixpoint read_old_loop (fuel : nat) (buf : bytes) : list WalRecord :=
  match fuel with
  | O => []
  | S fuel =>
      match buf with
      | [] => []
      | _ => match old_deserialize buf with
             | inl (r, consumed) => r :: read_old_loop fuel (drop consumed buf)
             | inr _ => []
             end
      end
  end.

Definition read_old_records (buf : bytes) : list WalRecord := read_old_loop (S (length buf)) buf.

(** Per key: creation revision, version, value and lease. *)
Abbreviation MigState := (gmap (list Byte.byte) (Z * Z * bytes * Z)).

(** One round of the loop of [migrate]: the record to append, and the new state. *)
Definition migrate_record (state : MigState) (r : WalRecord) : KvWalRecord * MigState :=
  let deleted := negb (Z.land (old_flags r) DELETED =? 0) in
  let has_lease := negb (Z.land (old_flags r) HAS_LEASE =? 0) in
  let lease := if has_lease then default 0 (old_lease_id r) else 0 in
  if deleted then
    match state !! old_key r with
    | Some (create_revision, version, value, prev_lease) =>
        (KvWalRecord_new (Z.lor DELETED (if negb (prev_lease =? 0) then HAS_LEASE else 0)) (old_key r) value
           (i64_wrap create_revision) (i64_wrap (old_revision r)) version prev_lease,
         delete (old_key r) state)
    | None =>
        (KvWalRecord_new DELETED (old_key r) [] 0 (i64_wrap (old_revision r)) 0 0, delete (old_key r) state)
    end
  else
    let '(create_revision, version) :=
      match state !! old_key r with
      | Some (cr, v, _, _) => (cr, i64_wrap (v + 1))
      | None => (old_revision r, 1)
      end in
    (KvWalRecord_new (Z.lor IS_CREATE (if negb (lease =? 0) then HAS_LEASE else 0)) (old_key r) (old_value r)
       (i64_wrap create_revision) (i64_wrap (old_revision r)) version lease,
     <[old_key r := (create_revision, version, old_value r, lease)]> state).

Fixpoint migrate_loop (rs : list WalRecord) (state : MigState) (w : WalFile) : WalFile * io_result unit :=
  match rs with
  | [] => (w, inl tt)
  | r :: rs =>
      let '(kv, state) := migrate_record state r in
      match append_kv w kv with
      | (w, inl _) => migrate_loop rs state w
      | (w, inr e) => (w, inr e)
      end
  end.

(** [new] is what the target file already holds. *)
Definition migrate (new : bytes) (rs : list WalRecord) : WalFile * io_result unit :=
  migrate_loop rs ∅ (WalFile_open new).

(** ** Reading back *)

(** What the old server wrote: fields at their widths, a lease id exactly when the
    flag says so. *)
Record old_wf (r : WalRecord) : Prop := {
  ow_rev : is_u64 (old_revision r);
  ow_flags : 0 <= old_flags r < 256;
  ow_sizes : kv_sizes_ok (old_key r) (old_value r);
  ow_lease : match old_lease_id r with
             | Some lid => is_i64 lid /\ Z.land (old_flags r) HAS_LEASE <> 0
             | None => Z.land (old_flags r) HAS_LEASE = 0
             end }.

(** The fixed header before the payload. *)
Definition old_header (r : WalRecord) : bytes :=
  to_le 2 MAGIC ++ to_le 8 (old_revision r) ++ to_le 4 (crc32c (old_payload r))
  ++ to_le 4 (u32_wrap (Z.of_nat (length (old_key r)))) ++ to_le 4 (u32_wrap (Z.of_nat (length (old_value r)))).

Lemma length_old_header r : length (old_header r) = 22%nat.
Proof. unfold old_header. by rewrite !length_app, !length_to_le. Qed.

Lemma old_serialize_split r : old_serialize r = old_header r ++ old_payload r.
Proof. unfold old_serialize, old_header. by rewrite <- !app_assoc. Qed.

Lemma old_header_fields r rest :
  old_wf r ->
  le_at 2 0 (old_header r ++ rest) = MAGIC /\ le_at 8 2 (old_header r ++ rest) = old_revision r
  /\ le_at 4 10 (old_header r ++ rest) = crc32c (old_payload r)
  /\ le_at 4 14 (old_header r ++ rest) = Z.of_nat (length (old_key r))
  /\ le_at 4 18 (old_header r ++ rest) = Z.of_nat (length (old_value r)).
Proof.
  intros [Hr _ [Hk Hv] _]. pose proof (crc32c_range (old_payload r)) as Hc. unfold is_u32, is_u64 in *.
  unfold old_header. rewrite !u32_wrap_small by done. rewrite <- !app_assoc.
  set (m := to_le 2 MAGIC). set (rv := to_le 8 _). set (c := to_le 4 (crc32c _)). set (kl := to_le 4 (Z.of_nat (length (old_key r)))).
  assert (length m = 2%nat /\ length rv = 8%nat /\ length c = 4%nat /\ length kl = 4%nat) as (L1 & L2 & L3 & L4)
    by (unfold m, rv, c, kl; by rewrite !length_to_le).
  split; [|split; [|split; [|split]]].
  - etrans; [by apply (le_at_app 2 0 [] m)|]. by vm_compute.
  - rewrite (le_at_app 8 2 m rv) by done. apply from_le_to_le. lia.
  - rewrite (app_assoc m). rewrite (le_at_app 4 10 (m ++ rv) c) by (rewrite ?length_app; lia).
    apply from_le_to_le. lia.
  - rewrite (app_assoc m), (app_assoc (m ++ rv)).
    rewrite (le_at_app 4 14 ((m ++ rv) ++ c) kl) by (rewrite ?length_app; lia). apply from_le_to_le. lia.
  - rewrite (app_assoc m), (app_assoc (m ++ rv)), (app_assoc ((m ++ rv) ++ c)).
    rewrite (le_at_app 4 18 (((m ++ rv) ++ c) ++ kl)) by (rewrite ?length_app, ?length_to_le; lia).
    apply from_le_to_le. lia.
Qed.

Definition old_lease_bytes (r : WalRecord) : bytes :=
  match old_lease_id r with Some lid => to_le 8 (u64_wrap lid) | None => [] end.

(** Where the parts of a payload lie in the input, behind a header [h]. *)
Lemma old_offsets h r rest :
  length h = 22%nat ->
  let data := h ++ old_payload r ++ rest in
  let kl := length (old_key r) in let vl := length (old_value r) in
  length data = (23 + kl + vl + length (old_lease_bytes r) + length rest)%nat
  /\ length (old_payload r) = (1 + kl + vl + length (old_lease_bytes r))%nat
  /\ data !! 22%nat = Some (to_u8 (old_flags r))
  /\ drop 22 data = old_payload r ++ rest
  /\ drop 23 data = old_key r ++ old_value r ++ old_lease_bytes r ++ rest
  /\ drop (23 + kl) data = old_value r ++ old_lease_bytes r ++ rest
  /\ drop (23 + kl + vl) data = old_lease_bytes r ++ rest.
Proof.
  intros Lh data kl vl.
  assert (old_payload r = [to_u8 (old_flags r)] ++ old_key r ++ old_value r ++ old_lease_bytes r) as Ep by done.
  assert (data = (h ++ [to_u8 (old_flags r)]) ++ old_key r ++ old_value r ++ old_lease_bytes r ++ rest) as Ed
    by (unfold data; rewrite Ep; by rewrite <- !app_assoc).
  assert (length (h ++ [to_u8 (old_flags r)]) = 23%nat) as Lp by (rewrite length_app; cbn; lia).
  assert (drop 23 data = old_key r ++ old_value r ++ old_lease_bytes r ++ rest) as D23
    by (rewrite Ed; by rewrite drop_app_length' by lia).
  assert (drop (23 + kl) data = old_value r ++ old_lease_bytes r ++ rest) as D3
    by (rewrite <- drop_drop, D23; unfold kl; by rewrite drop_app_length).
  split; [rewrite Ed, !length_app in *; unfold kl, vl; lia|].
  split; [rewrite Ep, !length_app; cbn; unfold kl, vl; lia|].
  split; [unfold data; rewrite lookup_app_r by lia; by rewrite Lh, Ep|].
  split; [unfold data; by rewrite drop_app_length' by lia|]. split; [done|]. split; [done|].
  rewrite <- drop_drop, D3. unfold vl. by rewrite drop_app_length.
Qed.

Lemma old_deserialize_serialize r rest :
  old_wf r -> old_deserialize (old_serialize r ++ rest) = inl (r, length (old_serialize r)).
Proof.
  intros W. rewrite old_serialize_split, <- app_assoc.
  destruct (old_header_fields r (old_payload r ++ rest) W) as (E1 & E2 & E3 & E4 & E5).
  destruct (old_offsets (old_header r) r rest (length_old_header r)) as (Ld & Lpl & E22 & D22 & D23 & D3 & D4).
  pose proof (length_old_header r) as Lh. destruct W as [Hr Hf _ Hl].
  set (data := old_header r ++ old_payload r ++ rest) in *.
  unfold old_deserialize. rewrite (proj2 (Nat.ltb_ge _ _)) by lia. rewrite E1, Z.eqb_refl. cbn [negb].
  rewrite E22, E4, E5, !Nat2Z.id. rewrite (proj2 (Nat.ltb_ge _ _)) by lia. cbn [default id].
  rewrite u8_to_u8 by done.
  rewrite E2, E3, D23, D3, D22, !take_app_length.
  assert (length (old_header r ++ old_payload r)
    = 23 + length (old_key r) + length (old_value r) + length (old_lease_bytes r))%nat as -> by (rewrite length_app; lia).
  assert (take (length (old_payload r)) (old_payload r ++ rest) = old_payload r) as Etk by apply take_app_length.
  unfold old_lease_bytes in *. destruct (old_lease_id r) as [lid|] eqn:El.
  - destruct Hl as [Hi Hfl]. rewrite (proj2 (Z.eqb_neq _ 0)) by done. cbn [negb]. rewrite length_to_le in *.
    rewrite (proj2 (Nat.ltb_ge _ _)) by lia. unfold le_at at 1. rewrite D4.
    assert (forall l, take 8 (to_le 8 l ++ rest) = to_le 8 l) as T8
      by (intros l; rewrite <- (length_to_le 8 l) at 1; apply take_app_length). rewrite T8.
    replace (23 + length (old_key r) + length (old_value r) + 8 - 22)%nat with (length (old_payload r)) by lia.
    rewrite Etk, Z.eqb_refl. cbn [negb].
    rewrite from_le_to_le by (pose proof (u64_wrap_range lid); unfold is_u64 in *; lia).
    rewrite i64_of_u64_of_i64 by done. rewrite <- El. by destruct r.
  - rewrite Hl. cbn [Z.eqb negb length] in *.
    replace (23 + length (old_key r) + length (old_value r) - 22)%nat with (length (old_payload r)) by lia.
    rewrite Etk, Z.eqb_refl. cbn [negb]. rewrite Nat.add_0_r, <- El. by destruct r.
Qed.

Lemma read_old_loop_log rs fuel :
  Forall old_wf rs -> (length (concat (old_serialize <$> rs)) < fuel)%nat ->
  read_old_loop fuel (concat (old_serialize <$> rs)) = rs.
Proof.
  intros W. revert fuel. induction W as [|r rs Hr W IH]; intros fuel Hf; (destruct fuel as [|fuel]; [lia|]); [done|].
  cbn [fmap list_fmap concat] in *. rewrite length_app in Hf.
  assert (22 < length (old_serialize r))%nat as Hlen.
  { rewrite old_serialize_split, length_app, length_old_header. unfold old_payload. cbn. lia. }
  cbn [read_old_loop]. rewrite old_deserialize_serialize by done.
  destruct (old_serialize r ++ _) as [|b bs] eqn:E.
  { apply (f_equal length) in E. rewrite length_app in E. cbn in E. lia. }
  rewrite <- E, drop_app_length. f_equal. apply IH. lia.
Qed.

(** ** What the migration writes *)

Definition old_deleted (r : WalRecord) : bool := negb (Z.land (old_flags r) DELETED =? 0).

Definition old_lease (r : WalRecord) : Z :=
  if negb (Z.land (old_flags r) HAS_LEASE =? 0) then default 0 (old_lease_id r) else 0.

(** What an old record does to the live keys. *)
Definition old_view (v : gmap (list Byte.byte) Live) (r : WalRecord) : gmap (list Byte.byte) Live :=
  if old_deleted r then delete (old_key r) v
  else <[old_key r := mkLive (old_value r) (old_revision r) (old_lease r)]> v.

(** Records the current format can carry. *)
Record migratable (r : WalRecord) : Prop := {
  mg_fits : kv_fits (old_key r) (old_value r);
  mg_rev : 1 <= old_revision r < 2 ^ 63 - 1;
  mg_lease : is_i64 (old_lease r) }.

Definition mig_ok (state : MigState) : Prop :=
  map_Forall (fun k e => kv_fits k e.1.2 /\ is_i64 e.1.1.2 /\ is_i64 e.2) state.

Context `{KvDecoder}.

Lemma kv_fits_nil key value : kv_fits key value -> kv_fits key [].
Proof. unfold kv_fits, record_fits. cbn. intros [? ?]. split; [done|]. cbn. lia. Qed.

Lemma migrate_record_view state r v :
  migratable r -> mig_ok state ->
  let '(kv, state') := migrate_record state r in
  mig_ok state' /\ store_record kv /\ record_rev kv = old_revision r /\ view_record v kv = old_view v r.
Proof.
  intros [Hf Hr Hl] Hs. assert (i64_wrap (old_revision r) = old_revision r) as Er
    by (apply i64_wrap_small; unfold is_i64; lia).
  assert (forall fl value cr ver lease, 0 <= fl < 256 -> kv_fits (old_key r) value -> is_i64 ver -> is_i64 lease ->
    let kv := KvWalRecord_new fl (old_key r) value (i64_wrap cr) (i64_wrap (old_revision r)) ver lease in
    store_record kv /\ record_rev kv = old_revision r
    /\ view_record v kv = if negb (Z.land fl DELETED =? 0) then delete (old_key r) v
                          else <[old_key r := mkLive value (old_revision r) lease]> v) as Hrec.
  { intros fl value cr ver lease Hfl Hfv Hv Hle kv.
    assert (genuine fl (mkArgs (old_key r) value (i64_wrap cr) (old_revision r) ver lease) kv) as G.
    { split; [split; cbn; auto using i64_wrap_range; lia|]. split; [done|]. unfold kv, record_of. cbn. by rewrite Er. }
    destruct (genuine_facts _ _ _ G) as (_ & Ek & Erv & Ed & _ & Ekd). cbn in Ek, Erv, Ed, Ekd.
    split; [by eexists _, _|]. split; [done|]. unfold view_record. rewrite Ed, Ek, Ekd, Erv. done. }
  unfold migrate_record. fold (old_deleted r). fold (old_lease r). unfold old_view.
  destruct (old_deleted r).
  - destruct (state !! old_key r) as [[[[cr ver] value] pl]|] eqn:E.
    + destruct (Hs _ _ E) as (Hfv & Hv & Hpl). cbn in Hfv, Hv, Hpl.
      split; [by apply map_Forall_delete|]. destruct (negb (pl =? 0)); by apply Hrec.
    + split; [by apply map_Forall_delete|]. change 0 with (i64_wrap 0) at 1.
      apply Hrec; try done; by eapply kv_fits_nil.
  - destruct (match state !! old_key r with Some (cr, v0, _, _) => (cr, i64_wrap (v0 + 1)) | None => (old_revision r, 1) end)
      as [cr ver] eqn:E.
    assert (is_i64 ver) as Hv.
    { destruct (state !! old_key r) as [[[[cr0 v0] ?] ?]|]; injection E as _ <-; [apply i64_wrap_range|]. by unfold is_i64. }
    split; [by apply map_Forall_insert_2|]. destruct (negb (old_lease r =? 0)); by apply Hrec.
Qed.

Lemma migrate_loop_log rs state w v :
  Forall migratable rs -> mig_ok state -> faults w = [] ->
  exists w' kvs, migrate_loop rs state w = (w', inl tt) /\ file w' = file w ++ log_bytes kvs
    /\ Forall store_record kvs /\ Forall (fun r => record_rev r < 2 ^ 63 - 1) kvs
    /\ foldl view_record v kvs = foldl old_view v rs.
Proof.
  intros Hm. revert state w v. induction Hm as [|r rs Hr Hm IH]; intros state w v Hs Hno; cbn [migrate_loop].
  { exists w, []. by rewrite app_nil_r. }
  pose proof (migrate_record_view state r v Hr Hs) as Hrec. destruct (migrate_record state r) as [kv state'].
  destruct Hrec as (Hs' & R & Erev & Ev).
  destruct (append_kv w kv) as [w1 [[]|e]] eqn:Ew; [|by apply append_kv_fault in Ew].
  apply append_kv_ok in Ew as (Ef & _ & Efa). rewrite Hno in Efa.
  destruct (IH state' w1 (view_record v kv) Hs' Efa) as (w' & kvs & E & Ef' & Rs & Hrv & Evs).
  exists w', (kv :: kvs). split; [done|]. split; [by rewrite Ef', Ef, <- app_assoc|].
  split; [by constructor|]. split; [constructor; [rewrite Erev; apply Hr|done]|].
  cbn [foldl]. by rewrite Evs, Ev.
Qed.

(** ** Properties *)

(** C32. Migration. Reading a log the old server wrote finds every record; writing
    them in the new format into an empty file succeeds; and the server then opens
    the new file to exactly the live keys, values, revisions and leases the old
    records describe, deletions of unknown keys included. *)
Theorem migration_preserves_view `{UnstableSort} rs now :
  Forall old_wf rs -> Forall migratable rs -> clock_ok now ->
  exists w s, migrate [] (read_old_records (concat (old_serialize <$> rs))) = (w, inl tt)
    /\ open_store now (file w) = Ok s /\ view (keys s) = foldl old_view ∅ rs.
Proof.
  intros W Hm Hnow. unfold read_old_records. rewrite read_old_loop_log by (done || lia).
  destruct (migrate_loop_log rs ∅ (WalFile_open []) ∅ Hm) as (w & kvs & E & Ef & R & Hrv & Ev);
    [apply map_Forall_empty|done|].
  destruct (open_store_log now _ kvs [] R ltac:(by left) (clock_instant now Hnow) Hrv) as (s & Eo & Ek & _).
  exists w, s. split; [done|]. rewrite Ef. cbn [file WalFile_open app]. rewrite app_nil_r in Eo. split; [done|].
  rewrite Ek, view_fold by done. by rewrite <- Ev.
Qed.

End Legacy.

#[local] Existing Instance bitwise_crc.
#[local] Existing Instance ref_decoder.
#[local] Existing Instance merge_sort_impl.

(** A write with a lease, its deletion, and another write. *)
Definition old_log : list WalRecord :=
  [mkOld 1 (lit "a") (lit "1") 4 (Some 7); mkOld 2 (lit "a") [] 1 None; mkOld 3 (lit "b") (lit "2") 0 None].

Lemma migration_preserves_view_witness :
  exists w s, migrate [] (read_old_records (concat (old_serialize <$> old_log))) = (w, inl tt)
    /\ open_store 0 (file w) = Ok s /\ view (keys s) = foldl old_view ∅ old_log.
Proof.
  apply (migration_preserves_view old_log 0).
  - repeat constructor; by vm_compute.
  - repeat constructor; by vm_compute.
  - unfold clock_ok. lia.
Defined.

End Legacy.
