(* ===== verification/Tools.v ===== *)
(** * The offline log tools

    src/bin/waldoctor.rs, src/bin/walverify.rs and src/bin/walrecover.rs read logs
    in the old format with a scanner of their own that survives corruption;
    walrecover writes the reconstructed keys as a fresh old-format log.
    src/bin/walverify_new.rs checks a log in the current format. Opening files,
    usage messages and the rendering of reports are left out: a tool is the
    function from file contents to the numbers it reports or the bytes it writes. *)
From S2P Require Import Prelude Varint KvCodec Wire Crc WalRecord Proto Range SortKvs State Store.
From S2P Require Import Historical Txn Recovery Background System Replay Durability Legacy.
Local Open Scope Z_scope.

Module Tools.
Import KvCodec Wire Crc Wal Proto Range SortKvs State Store Historical Txn Recovery Background System Replay
  Durability Legacy.

(** ** The resynchronising scanner *)

(** [buf[i]] and [buf[a..b]], which panic out of range. *)
Definition index (buf : bytes) (i : nat) : outcome Z :=
  match buf !! i with Some b => Ok (u8 b) | None => Panic "index out of bounds" end.

Definition slice (buf : bytes) (a b : nat) : outcome bytes :=
  if ((a <=? b) && (b <=? length buf))%nat then Ok (take (b - a) (drop a buf))
  else Panic "range end index out of range for slice".

(** [from_le_bytes] of the [n] bytes from [pos] on. *)
Definition read_le (n : nat) (buf : bytes) (pos : nat) : outcome Z :=
  let? bs := slice buf pos (pos + n) in Ok (from_le bs).

(** [a - b] of two lengths, wrapped around as the release build does. *)
Definition usize_sub (a b : nat) : Z :=
  let d := Z.of_nat a - Z.of_nat b in if d <? 0 then d + 2 ^ 64 else d.

(** What the loop body makes of the bytes at its position: no magic number, a
    record that reaches beyond the file, a checksum error or a record, the last
    three with the position reached. *)
Inductive framing :=
| BadMagic
| Truncated (pos : nat)
| BadCrc (pos : nat)
| Framed (r : WalRecord) (pos : nat).

Definition frame (buf : bytes) (pos : nat) : outcome framing :=
  let? magic := read_le 2 buf pos in
  if negb (magic =? MAGIC) then Ok BadMagic
  else
    let pos := (pos + 2)%nat in
    let? revision := read_le 8 buf pos in
    let pos := (pos + 8)%nat in
    let? stored_crc := read_le 4 buf pos in
    let pos := (pos + 4)%nat in
    let? key_len := read_le 4 buf pos in
    let key_len := Z.to_nat key_len in
    let pos := (pos + 4)%nat in
    let? val_len := read_le 4 buf pos in
    let val_len := Z.to_nat val_len in
    let pos := (pos + 4)%nat in
    let? flags := index buf pos in
    let flags_ofs := pos in
    let pos := (pos + 1)%nat in
    if (length buf <? pos + key_len + val_len)%nat then Ok (Truncated pos)
    else
      let? key := slice buf pos (pos + key_len) in
      let pos := (pos + key_len)%nat in
      let? value := slice buf pos (pos + val_len) in
      let pos := (pos + val_len)%nat in
      let check (lease_id : option Z) (pos : nat) :=
        let? covered := slice buf flags_ofs pos in
        Ok (if crc32c_bitwise covered =? stored_crc
            then Framed (mkOld revision key value flags lease_id) pos else BadCrc pos) in
      if negb (Z.land flags HAS_LEASE =? 0) then
        if (length buf <? pos + 8)%nat then Ok (Truncated pos)
        else
          let? lid := read_le 8 buf pos in
          check (Some (i64_wrap lid)) (pos + 8)%nat
      else check None pos.

(** The records, the checksum errors and the [buf.len() - pos] that is printed. *)
Record ScanResult := mkScan { sc_records : list WalRecord; sc_crc_errors : nat; sc_trailing : Z }.

Definition count_error (r : ScanResult) : ScanResult :=
  mkScan (sc_records r) (S (sc_crc_errors r)) (sc_trailing r).
Definition push_record (rec : WalRecord) (r : ScanResult) : ScanResult :=
  mkScan (rec :: sc_records r) (sc_crc_errors r) (sc_trailing r).

(** The [while pos + HEADER_SIZE <= buf.len()] loop. After a checksum error
    waldoctor and walverify go on one byte behind the start of the record
    ([skip start stop = start + 1]), walrecover behind its end ([skip start stop = stop]). *)
Fixpoint scan_frames (skip : nat -> nat -> nat) (fuel : nat) (buf : bytes) (pos : nat) : outcome ScanResult :=
  match fuel with
  | O => Panic "out of fuel"
  | S fuel =>
      if (length buf <? pos + 23)%nat then Ok (mkScan [] 0 (usize_sub (length buf) pos))
      else
        let? f := frame buf pos in
        match f with
        | BadMagic => scan_frames skip fuel buf (pos + 1)
        | Truncated stop => Ok (mkScan [] 0 (usize_sub (length buf) stop))
        | BadCrc stop =>
            let? r := scan_frames skip fuel buf (skip pos stop) in Ok (count_error r)
        | Framed rec stop =>
            let? r := scan_frames skip fuel buf stop in Ok (push_record rec r)
        end
  end.

Definition next_byte (start stop : nat) : nat := (start + 1)%nat.
Definition behind (start stop : nat) : nat := stop.

Definition doctor_scan (buf : bytes) : outcome ScanResult := scan_frames next_byte (S (length buf)) buf 0.
Definition recover_scan (buf : bytes) : outcome ScanResult := scan_frames behind (S (length buf)) buf 0.

(** walverify keeps neither lease ids nor the trailing length. *)
Definition WalEntry : Type := (Z * list Byte.byte * list Byte.byte * Z)%type.
Definition entry_of_record (r : WalRecord) : WalEntry := (old_revision r, old_key r, old_value r, old_flags r).
Definition verify_scan (buf : bytes) : outcome (list WalEntry * nat * nat) :=
  let? r := scan_frames next_byte (S (length buf)) buf 0 in
  Ok (entry_of_record <$> sc_records r, length (sc_records r), sc_crc_errors r).

(** ** Reconstructing the keys *)

Record ToolKey := mkToolKey { tk_value : bytes; tk_create : Z; tk_mod : Z; tk_version : Z }.

Abbreviation ToolMap := (gmap (list Byte.byte) ToolKey).

Definition reconstruct_step (keys : ToolMap) (e : WalEntry) : ToolMap :=
  let '(rev, key, value, flags) := e in
  if negb (Z.land flags DELETED =? 0) then delete key keys
  else
    let entry := default (mkToolKey [] rev rev 0) (keys !! key) in
    let create := if negb (Z.land flags IS_CREATE =? 0) then rev else tk_create entry in
    <[key := mkToolKey value create rev (u64_wrap (tk_version entry + 1))]> keys.

Definition reconstruct (es : list WalEntry) : ToolMap := foldl reconstruct_step ∅ es.

Definition max_revision (es : list WalEntry) : Z := foldl (fun m e => Z.max m e.1.1.1) 0 es.

(** The keys an earlier defect of compaction at revision 8000 had dropped. *)
Definition lost_keys (keys : ToolMap) : list (list Byte.byte) :=
  (base.filter (fun e => tk_mod e.2 < 8000 /\ tk_create e.2 < 8000) (btree_iter keys)).*1.

Definition reconstruct_state (rs : list WalRecord) : ToolMap * list (list Byte.byte) :=
  let keys := reconstruct (entry_of_record <$> rs) in (keys, lost_keys keys).

(** The line waldoctor prints: records, checksum errors, keys, lost keys. *)
Definition waldoctor (buf : bytes) : outcome (nat * nat * nat * nat) :=
  let? r := doctor_scan buf in
  let '(state, lost) := reconstruct_state (sc_records r) in
  Ok (length (sc_records r), sc_crc_errors r, size state, length lost).

(** ** walrecover *)

(** One record of [write_wal]: the checksum is computed over the buffer from
    offset 22 on and patched into its placeholder. *)
Definition write_entry (e : list Byte.byte * ToolKey) : bytes :=
  let '(key, ks) := e in
  let head := to_le 2 MAGIC ++ to_le 8 (tk_mod ks) in
  let tail := to_le 4 (u32_wrap (Z.of_nat (length key))) ++ to_le 4 (u32_wrap (Z.of_nat (length (tk_value ks)))) in
  let payload := [to_u8 IS_CREATE] ++ key ++ tk_value ks in
  let buf := head ++ to_le 4 0 ++ tail ++ payload in
  let crc := crc32c_bitwise (drop 22 buf) in
  take 10 buf ++ to_le 4 crc ++ drop 14 buf.

Definition write_wal (entries : list (list Byte.byte * ToolKey)) : bytes := concat (write_entry <$> entries).

Definition walrecover (input : bytes) : outcome bytes :=
  let? r := recover_scan input in
  let keys := reconstruct (entry_of_record <$> sc_records r) in
  Ok (write_wal (btree_iter keys)).

(** ** Reports *)

(** The [starts_with] chain of [category]. Keys reach it through
    [String::from_utf8_lossy], which leaves ASCII prefixes as they are. *)
Definition category_table : list (string * string) :=
  [("/bootstrap/", "bootstrap"); ("/registry/namespaces/", "namespace"); ("/registry/pods/", "pod");
   ("/registry/deployments/", "deployment"); ("/registry/statefulsets/", "statefulset");
   ("/registry/daemonsets/", "daemonset"); ("/registry/services/endpoints/", "endpoint");
   ("/registry/services/specs/", "service"); ("/registry/configmaps/", "configmap");
   ("/registry/secrets/", "secret"); ("/registry/serviceaccounts/", "serviceaccount");
   ("/registry/persistentvolumeclaims/", "pvc"); ("/registry/persistentvolumes/", "pv");
   ("/registry/nodes/", "node"); ("/registry/minions/", "node"); ("/registry/leases/", "lease");
   ("/registry/events/", "event"); ("/registry/rbac/", "rbac"); ("/registry/clusterroles/", "clusterrole");
   ("/registry/roles/", "role"); ("/registry/rolebindings/", "rolebinding");
   ("/registry/clusterrolebindings/", "clusterrolebinding"); ("/registry/cronjobs/", "cronjob");
   ("/registry/apiextensions.k8s.io/", "crd"); ("/registry/masterleases/", "masterlease");
   ("/registry/peerserverleases/", "peerserverlease"); ("/registry/ranges/", "range");
   ("/registry/", "other_registry")]%string.

Definition category (key : bytes) : string :=
  match base.filter (fun e => starts_with key (lit e.1) = true) category_table with
  | [] => "other"
  | (_, name) :: _ => name
  end.

(** [*cats.entry(category(k)).or_insert(0) += 1] *)
Definition count_category (cats : gmap string nat) (key : list Byte.byte) : gmap string nat :=
  <[category key := S (default O (cats !! category key))]> cats.

Definition category_counts (keys : list (list Byte.byte)) : gmap string nat := foldl count_category ∅ keys.

Definition infrastructure_check (prefixes : list string) (keys : list (list Byte.byte)) : list bool :=
  (fun p => existsb (fun k => starts_with k (lit p)) keys) <$> prefixes.

Definition expected_prefixes : list string :=
  ["/registry/namespaces/kube-system"; "/registry/namespaces/default"; "/registry/namespaces/kube-public";
   "/registry/namespaces/kube-node-lease"; "/registry/serviceaccounts/kube-system/default";
   "/registry/nodes/changwang"; "/registry/nodes/precision"; "/registry/clusterroles/admin";
   "/registry/clusterroles/edit"; "/registry/clusterroles/view"; "/registry/secrets/cattle-system/serving-cert"]%string.

(** [val.split(pat).nth(1)]: the text behind the first occurrence of [pat], of
    which the caller keeps what precedes the next quote, with which [pat] begins. The
    texts are [String::from_utf8_lossy] of the bytes, which leaves ASCII characters
    in place, so the model cuts the bytes and leaves the conversion to the display. *)
Fixpoint split_nth1 (pat val : bytes) : option bytes :=
  if starts_with val pat then Some (drop (length pat) val)
  else match val with [] => None | _ :: val => split_nth1 pat val end.

Definition quote : Byte.byte := to_u8 34.
Definition name_pattern : bytes := quote :: lit "name" ++ [quote; to_u8 58; quote].

Fixpoint until_quote (val : bytes) : bytes :=
  match val with [] => [] | b :: val => if decide (b = quote) then [] else b :: until_quote val end.

Definition namespace_name (val : bytes) : bytes :=
  match split_nth1 name_pattern val with Some rest => until_quote rest | None => lit "?" end.

(** The lines under "Namespace keys", for entries with a revision and a value. *)
Definition namespace_lines (entries : list (list Byte.byte * (Z * list Byte.byte))) : list (Z * list Byte.byte) :=
  (fun e => (e.2.1, namespace_name e.2.2)) <$> base.filter (fun e => category e.1 = "namespace"%string) entries.

Record VerifyReport := mkReport {
  vr_records : nat; vr_crc_errors : nat; vr_keys : nat; vr_max_revision : Z;
  vr_categories : gmap string nat; vr_infrastructure : list bool;
  vr_namespaces : list (Z * list Byte.byte) }.

Definition walverify (buf : bytes) : outcome VerifyReport :=
  let? scanned := verify_scan buf in
  let '(records, total, crc_errors) := scanned in
  let keys := reconstruct records in
  let names := (btree_iter keys).*1 in
  Ok (mkReport total crc_errors (size keys) (max_revision records) (category_counts names)
        (infrastructure_check expected_prefixes names)
        (namespace_lines ((fun e => (e.1, (tk_mod e.2, tk_value e.2))) <$> btree_iter keys))).

(** ** walverify_new *)

Section VerifyNew.
Context `{Crc32c}.

(** The value of an entry is never filled in. *)
Record NewKey := mkNewKey { nk_value : bytes; nk_create : Z; nk_mod : Z; nk_version : Z }.

Record NewScan := mkNewScan {
  ns_crc_errors : nat; ns_kv_errors : nat; ns_max_rev : Z; ns_keys : gmap (list Byte.byte) NewKey }.

Definition new_step (st : NewScan) (r : KvWalRecord) : outcome NewScan :=
  let crc_errors := match deserialize (serialize r) with
                    | inl _ => ns_crc_errors st | inr _ => S (ns_crc_errors st) end in
  let? k := rec_key r in
  match k with
  | None => Ok (mkNewScan crc_errors (S (ns_kv_errors st)) (ns_max_rev st) (ns_keys st))
  | Some key =>
      match rec_mod_revision r with
      | None => Ok (mkNewScan crc_errors (S (ns_kv_errors st)) (ns_max_rev st) (ns_keys st))
      | Some mod_rev =>
          let max_rev := if ns_max_rev st <? mod_rev then mod_rev else ns_max_rev st in
          let keys :=
            if negb (Z.land (flags r) DELETED =? 0) then delete key (ns_keys st)
            else
              let entry := default (mkNewKey [] mod_rev mod_rev 0) (ns_keys st !! key) in
              let create := if negb (Z.land (flags r) IS_CREATE =? 0) then mod_rev else nk_create entry in
              <[key := mkNewKey (nk_value entry) create mod_rev (i64_wrap (nk_version entry + 1))]> (ns_keys st) in
          Ok (mkNewScan crc_errors (ns_kv_errors st) max_rev keys)
      end
  end.

Fixpoint new_loop (rs : list KvWalRecord) (st : NewScan) : outcome NewScan :=
  match rs with
  | [] => Ok st
  | r :: rs => let? st := new_step st r in new_loop rs st
  end.

Definition expected_prefixes_new : list string :=
  ["/registry/namespaces/kube-system"; "/registry/namespaces/default"; "/registry/namespaces/kube-public";
   "/registry/namespaces/kube-node-lease"; "/registry/serviceaccounts/kube-system/default";
   "/registry/clusterroles/admin"; "/registry/clusterroles/edit"; "/registry/clusterroles/view"]%string.

Record NewReport := mkNewReport {
  nr_records : nat; nr_scan : NewScan; nr_categories : gmap string nat; nr_infrastructure : list bool;
  nr_namespaces : list (Z * list Byte.byte) }.

(** The report, or the scan error the tool exits with. *)
Definition walverify_new (contents : bytes) : outcome NewReport :=
  match scan_kv_collect (WalFile_open contents) with
  | inr e => Err (mkStatus Internal (detail e))
  | inl records =>
      let? st := new_loop records (mkNewScan 0 0 0 ∅) in
      let names := (btree_iter (ns_keys st)).*1 in
      Ok (mkNewReport (length records) st (category_counts names) (infrastructure_check expected_prefixes_new names)
            (namespace_lines ((fun e => (e.1, (nk_mod e.2, nk_value e.2))) <$> btree_iter (ns_keys st))))
  end.

End VerifyNew.

(** ** Proofs: scanning *)

(** The fields of the record at [pos], and where it ends. *)
Definition key_len_at (buf : bytes) (pos : nat) : nat := Z.to_nat (le_at 4 (pos + 14) buf).
Definition val_len_at (buf : bytes) (pos : nat) : nat := Z.to_nat (le_at 4 (pos + 18) buf).
Definition flags_at (buf : bytes) (pos : nat) : Z := u8 (default Byte.x00 (buf !! (pos + 22)%nat)).
Definition leased_at (buf : bytes) (pos : nat) : bool := negb (Z.land (flags_at buf pos) HAS_LEASE =? 0).
Definition lease_len (leased : bool) : nat := if leased then 8%nat else O.
Definition frame_end (buf : bytes) (pos : nat) : nat :=
  (pos + 23 + key_len_at buf pos + val_len_at buf pos + lease_len (leased_at buf pos))%nat.

Definition record_from (buf : bytes) (pos : nat) : WalRecord :=
  let kl := key_len_at buf pos in
  mkOld (le_at 8 (pos + 2) buf) (take kl (drop (pos + 23) buf))
    (take (val_len_at buf pos) (drop (pos + 23 + kl) buf)) (flags_at buf pos)
    (if leased_at buf pos then Some (i64_wrap (le_at 8 (pos + 23 + kl + val_len_at buf pos) buf)) else None).

(** The record at [pos] passes its checksum. *)
Definition intact_at (buf : bytes) (pos : nat) : bool :=
  crc32c_bitwise (take (frame_end buf pos - (pos + 22)) (drop (pos + 22) buf)) =? le_at 4 (pos + 10) buf.

Lemma slice_ok buf a b : (a <= b)%nat -> (b <= length buf)%nat -> slice buf a b = Ok (take (b - a) (drop a buf)).
Proof. intros Ha Hb. unfold slice. by rewrite (proj2 (Nat.leb_le _ _) Ha), (proj2 (Nat.leb_le _ _) Hb). Qed.

Lemma read_le_ok n buf pos : (pos + n <= length buf)%nat -> read_le n buf pos = Ok (le_at n pos buf).
Proof. intros Hb. unfold read_le, le_at. rewrite slice_ok by lia. cbn [outcome_bind]. do 3 f_equal. lia. Qed.

Lemma index_ok buf pos : (pos + 23 <= length buf)%nat -> index buf (pos + 22) = Ok (flags_at buf pos).
Proof.
  intros Hb. unfold index, flags_at. destruct (lookup_lt_is_Some_2 buf (pos + 22)) as [x E]; [lia|]. by rewrite E.
Qed.

(** The loop body in closed form: its reads are in range wherever the loop's guard holds. *)
Lemma frame_closed buf pos :
  (pos + 23 <= length buf)%nat ->
  frame buf pos
  = Ok (if negb (le_at 2 pos buf =? MAGIC) then BadMagic
        else if (length buf <? pos + 23 + key_len_at buf pos + val_len_at buf pos)%nat then Truncated (pos + 23)
        else if (length buf <? frame_end buf pos)%nat
             then Truncated (pos + 23 + key_len_at buf pos + val_len_at buf pos)
        else if intact_at buf pos then Framed (record_from buf pos) (frame_end buf pos)
        else BadCrc (frame_end buf pos)).
Proof.
  intros Hb. unfold frame. rewrite read_le_ok by lia. cbn [outcome_bind].
  destruct (negb (_ =? MAGIC)); [done|]. rewrite !read_le_ok by lia. cbn [outcome_bind].
  replace (pos + 2 + 8 + 4 + 4 + 4 + 1)%nat with (pos + 23)%nat by lia.
  replace (pos + 2 + 8 + 4 + 4 + 4)%nat with (pos + 22)%nat by lia.
  replace (pos + 2 + 8 + 4 + 4)%nat with (pos + 18)%nat by lia.
  replace (pos + 2 + 8 + 4)%nat with (pos + 14)%nat by lia. replace (pos + 2 + 8)%nat with (pos + 10)%nat by lia.
  rewrite index_ok by done. cbn [outcome_bind].
  fold (key_len_at buf pos) (val_len_at buf pos). fold (leased_at buf pos).
  unfold intact_at, record_from, frame_end. rewrite <- !Nat.add_assoc.
  set (kl := key_len_at buf pos). set (vl := val_len_at buf pos).
  destruct (Nat.ltb_spec (length buf) (pos + (23 + (kl + vl)))) as [Hl|Hl]; [done|].
  rewrite !slice_ok by lia. cbn [outcome_bind].
  replace (pos + (23 + kl) - (pos + 23))%nat with kl by lia.
  replace (pos + (23 + (kl + vl)) - (pos + (23 + kl)))%nat with vl by lia.
  unfold lease_len. destruct (leased_at buf pos).
  - destruct (Nat.ltb_spec (length buf) (pos + (23 + (kl + (vl + 8))))) as [Hl8|Hl8]; [done|].
    rewrite read_le_ok by lia. cbn [outcome_bind]. by rewrite slice_ok by lia.
  - rewrite Nat.add_0_r, (proj2 (Nat.ltb_ge _ _)) by lia. by rewrite slice_ok by lia.
Qed.

Lemma frame_bounds buf pos f :
  (pos + 23 <= length buf)%nat -> frame buf pos = Ok f ->
  match f with
  | BadMagic => True
  | Truncated stop | BadCrc stop | Framed _ stop => (pos + 23 <= stop <= length buf)%nat
  end.
Proof.
  intros Hb. rewrite frame_closed by done. intros [= <-]. destruct (negb (_ =? MAGIC)); [done|].
  destruct (Nat.ltb_spec (length buf) (pos + 23 + key_len_at buf pos + val_len_at buf pos)); [lia|].
  destruct (Nat.ltb_spec (length buf) (frame_end buf pos)); [unfold frame_end in *; lia|].
  destruct (intact_at buf pos); unfold frame_end in *; lia.
Qed.

(** The loop itself, without fuel: its result, or the panic it ends in. *)
Inductive scans (skip : nat -> nat -> nat) (buf : bytes) : nat -> outcome ScanResult -> Prop :=
| scan_end pos :
    (length buf < pos + 23)%nat -> scans skip buf pos (Ok (mkScan [] 0 (usize_sub (length buf) pos)))
| scan_panic pos why :
    (pos + 23 <= length buf)%nat -> frame buf pos = Panic why -> scans skip buf pos (Panic why)
| scan_magic pos o :
    (pos + 23 <= length buf)%nat -> frame buf pos = Ok BadMagic -> scans skip buf (pos + 1) o -> scans skip buf pos o
| scan_truncated pos stop :
    (pos + 23 <= length buf)%nat -> frame buf pos = Ok (Truncated stop) ->
    scans skip buf pos (Ok (mkScan [] 0 (usize_sub (length buf) stop)))
| scan_crc pos stop o :
    (pos + 23 <= length buf)%nat -> frame buf pos = Ok (BadCrc stop) -> scans skip buf (skip pos stop) o ->
    scans skip buf pos (let? r := o in Ok (count_error r))
| scan_record pos rec stop o :
    (pos + 23 <= length buf)%nat -> frame buf pos = Ok (Framed rec stop) -> scans skip buf stop o ->
    scans skip buf pos (let? r := o in Ok (push_record rec r)).

(** A way to go on that makes progress and stays within the record. *)
Definition advances (skip : nat -> nat -> nat) : Prop :=
  forall start stop, (start < stop -> start < skip start stop <= stop)%nat.

Lemma advances_behind : advances behind.
Proof. intros start stop. unfold behind. lia. Qed.
Lemma advances_next : advances next_byte.
Proof. intros start stop. unfold next_byte. lia. Qed.

Lemma scan_frames_scans skip fuel buf pos :
  advances skip -> (pos <= length buf < pos + fuel)%nat -> scans skip buf pos (scan_frames skip fuel buf pos).
Proof.
  intros Ha. revert pos. induction fuel as [|fuel IH]; intros pos Hf; [lia|]. cbn [scan_frames].
  destruct (Nat.ltb_spec (length buf) (pos + 23)) as [Hl|Hl]; [by constructor|].
  destruct (frame buf pos) as [f|e|why] eqn:Ef; cbn [outcome_bind].
  - pose proof (frame_bounds buf pos f Hl Ef) as Hb. destruct f as [|stop|stop|rec stop].
    + apply scan_magic; [done..|]. apply IH. lia.
    + by apply scan_truncated.
    + eapply scan_crc; [done..|]. apply IH. specialize (Ha pos stop). lia.
    + eapply scan_record; [done..|]. apply IH. lia.
  - by rewrite frame_closed in Ef.
  - by apply scan_panic.
Qed.

Lemma scans_unique skip buf pos o o' : scans skip buf pos o -> scans skip buf pos o' -> o = o'.
Proof.
  intros Ho. revert o'.
  induction Ho as [pos Hl|pos why Hl Ef|pos o Hl Ef Ho IH|pos stop Hl Ef|pos stop o Hl Ef Ho IH|pos rec stop o Hl Ef Ho IH];
    intros o' Ho'; inversion Ho' as [? ?|? ? ? Ef'|? x ? Ef' Hx|? ? ? Ef'|? ? x ? Ef' Hx|? ? ? x ? Ef' Hx]; subst; try lia;
    try done; rewrite Ef in Ef'; simplify_eq; try done; [by apply IH|by rewrite (IH x Hx)..].
Qed.

(** A record that starts at [pos], lies within the file and passes its checksum. *)
Record sound_at (buf : bytes) (pos : nat) : Prop := {
  sa_magic : le_at 2 pos buf = MAGIC;
  sa_end : (frame_end buf pos <= length buf)%nat;
  sa_crc : intact_at buf pos = true }.

Lemma frame_sound buf pos rec stop :
  (pos + 23 <= length buf)%nat -> frame buf pos = Ok (Framed rec stop) ->
  sound_at buf pos /\ rec = record_from buf pos /\ stop = frame_end buf pos.
Proof.
  intros Hb. rewrite frame_closed by done. intros [= E]. destruct (Z.eqb_spec (le_at 2 pos buf) MAGIC) as [Em|]; [|done].
  cbn [negb] in E. destruct (_ <? _)%nat; [done|]. destruct (Nat.ltb_spec (length buf) (frame_end buf pos)) as [|He]; [done|].
  destruct (intact_at buf pos) eqn:Ei; [|done]. injection E as <- <-. done.
Qed.

Lemma usize_sub_exact a b : (b <= a)%nat -> usize_sub a b = Z.of_nat (a - b).
Proof. intros Hb. unfold usize_sub. rewrite (proj2 (Z.ltb_ge _ _)); lia. Qed.

(** What a scan ends with: no panic, an exact count of the bytes behind the
    position it stopped at, and records that lie in the file one behind the other. *)
Inductive laid_out (buf : bytes) : nat -> list WalRecord -> Prop :=
| laid_nil pos : laid_out buf pos []
| laid_cons pos start rs :
    (pos <= start)%nat -> sound_at buf start -> laid_out buf (frame_end buf start) rs ->
    laid_out buf pos (record_from buf start :: rs).

Lemma laid_out_earlier buf pos pos' rs : (pos' <= pos)%nat -> laid_out buf pos rs -> laid_out buf pos' rs.
Proof. intros Hp Hl. destruct Hl as [|pos start rs Hs Ha Hl]; constructor; (lia || done). Qed.

Definition scanned (buf : bytes) (pos : nat) (o : outcome ScanResult) : Prop :=
  exists r stop, o = Ok r /\ (pos <= stop <= length buf)%nat /\ sc_trailing r = Z.of_nat (length buf - stop)
    /\ laid_out buf pos (sc_records r).

Lemma scans_scanned skip buf pos o : advances skip -> (pos <= length buf)%nat -> scans skip buf pos o -> scanned buf pos o.
Proof.
  intros Ha Hp Ho. unfold scanned.
  induction Ho as [pos Hl|pos why Hl Ef|pos o Hl Ef Ho IH|pos stop Hl Ef|pos stop o Hl Ef Ho IH|pos rec stop o Hl Ef Ho IH].
  - exists (mkScan [] 0 (usize_sub (length buf) pos)), pos. rewrite usize_sub_exact by done. split_and!; try done. constructor.
  - by rewrite frame_closed in Ef.
  - destruct IH as (r & stop & -> & Hs & Et & L); [lia|]. exists r, stop. split_and!; try (done || lia).
    apply (laid_out_earlier _ (pos + 1)); [lia|done].
  - pose proof (frame_bounds buf pos _ Hl Ef) as Hb. cbn in Hb.
    exists (mkScan [] 0 (usize_sub (length buf) stop)), stop. rewrite usize_sub_exact by lia. split_and!; try (done || lia). constructor.
  - pose proof (frame_bounds buf pos _ Hl Ef) as Hb. cbn in Hb. pose proof (Ha pos stop ltac:(lia)) as Hs'.
    destruct IH as (r & stop' & -> & Hs & Et & L); [lia|]. exists (count_error r), stop'. split_and!; try (done || lia).
    apply (laid_out_earlier _ (skip pos stop)); [lia|done].
  - pose proof (frame_bounds buf pos _ Hl Ef) as Hb. cbn in Hb. destruct (frame_sound buf pos rec stop Hl Ef) as (Sa & -> & ->).
    destruct IH as (r & stop' & -> & Hs & Et & L); [lia|]. exists (push_record (record_from buf pos) r), stop'.
    split_and!; try (done || lia). by constructor.
Qed.

(** ** Proofs: logs with damaged records *)

Section Recover.
Context `{Crc32c}.

(** The crate computes the CRC-32C the tools compute bit by bit. *)
Context (Hcrc : forall bs, crc32c bs = crc32c_bitwise bs).

(** What is found where a record was written: the record, or other bytes. *)
Inductive chunk := Good (r : WalRecord) | Damaged (r : WalRecord) (bs : bytes).

Definition chunk_bytes (c : chunk) : bytes :=
  match c with Good r => old_serialize r | Damaged r bs => bs end.

(** Damage in place that leaves the framing: as many bytes as were written, with
    the magic number, the two lengths and the lease bit of the flags as they were,
    and a checksum that fails. Revision, checksum, key, value, lease id and the
    other flags may read anything. *)
Definition chunk_ok (c : chunk) : Prop :=
  match c with
  | Good r => old_wf r
  | Damaged r bs =>
      let written := old_serialize r in
      old_wf r /\ length bs = length written /\ le_at 2 0 bs = le_at 2 0 written
      /\ le_at 4 14 bs = le_at 4 14 written /\ le_at 4 18 bs = le_at 4 18 written
      /\ leased_at bs 0 = leased_at written 0 /\ crc32c (drop 22 bs) <> le_at 4 10 bs
  end.

Definition good_records (cs : list chunk) : list WalRecord :=
  omap (fun c => match c with Good r => Some r | Damaged _ _ => None end) cs.

(** Fields within [bs] are read from [bs]. *)
Lemma le_at_within n i pre bs rest :
  (i + n <= length bs)%nat -> le_at n (length pre + i) (pre ++ bs ++ rest) = le_at n i bs.
Proof.
  intros Hi. unfold le_at. rewrite <- drop_drop, drop_app_length, drop_app_le by lia.
  by rewrite take_app_le by (rewrite length_drop; lia).
Qed.

Lemma flags_at_within pre bs rest :
  (23 <= length bs)%nat -> flags_at (pre ++ bs ++ rest) (length pre) = flags_at bs 0.
Proof.
  intros Hb. unfold flags_at. rewrite lookup_app_r by lia. replace (length pre + 22 - length pre)%nat with 22%nat by lia.
  by rewrite lookup_app_l by lia.
Qed.

Lemma frame_end_within pre bs rest :
  (23 <= length bs)%nat -> frame_end (pre ++ bs ++ rest) (length pre) = (length pre + frame_end bs 0)%nat.
Proof.
  intros Hb. unfold frame_end, leased_at, key_len_at, val_len_at. rewrite flags_at_within, !le_at_within by lia. cbn [Nat.add]. lia.
Qed.

(** Bytes that are framed as one record, wherever they lie. *)
Lemma frame_framed pre bs rest :
  (23 <= length bs)%nat -> le_at 2 0 bs = MAGIC -> frame_end bs 0 = length bs ->
  let buf := pre ++ bs ++ rest in
  frame buf (length pre)
  = Ok (if crc32c (drop 22 bs) =? le_at 4 10 bs then Framed (record_from buf (length pre)) (length pre + length bs)
        else BadCrc (length pre + length bs)).
Proof.
  intros Hb Em He buf. assert (length buf = length pre + length bs + length rest)%nat as Hl by (unfold buf; rewrite !length_app; lia).
  pose proof (frame_end_within pre bs rest Hb) as Hfe. fold buf in Hfe. rewrite He in Hfe.
  assert (le_at 2 (length pre) buf = MAGIC) as Em' by (rewrite <- Em, <- (le_at_within 2 0 pre bs rest), Nat.add_0_r by lia; done).
  rewrite frame_closed, Em', Z.eqb_refl by lia. cbn [negb].
  rewrite (proj2 (Nat.ltb_ge _ _)) by (unfold frame_end in Hfe; lia). rewrite Hfe, (proj2 (Nat.ltb_ge _ _)) by lia.
  unfold intact_at. rewrite Hfe. unfold buf at 2. rewrite le_at_within by lia. unfold buf at 1.
  rewrite <- drop_drop, drop_app_length, drop_app_le by lia.
  replace (length pre + length bs - (length pre + 22))%nat with (length (drop 22 bs)) by (rewrite length_drop; lia).
  by rewrite take_app_length, <- Hcrc.
Qed.

(** A serialized record is framed as one, and read back. *)
Lemma serialized_framed r :
  old_wf r -> (23 <= length (old_serialize r))%nat /\ le_at 2 0 (old_serialize r) = MAGIC
    /\ frame_end (old_serialize r) 0 = length (old_serialize r)
    /\ crc32c (drop 22 (old_serialize r)) = le_at 4 10 (old_serialize r).
Proof.
  intros W. pose proof (old_header_fields r (old_payload r) W) as (E1 & _ & E3 & E4 & E5).
  destruct (old_offsets (old_header r) r [] (length_old_header r)) as (Ld & _ & E22 & D22 & _).
  rewrite !app_nil_r in *. rewrite <- old_serialize_split in *. cbn [length] in Ld.
  split; [lia|]. split; [done|]. split; [|by rewrite D22, E3].
  unfold frame_end, leased_at, flags_at, key_len_at, val_len_at. cbn [Nat.add]. rewrite E22, E4, E5, !Nat2Z.id.
  destruct W as [_ Hf _ Hl]. cbn [default id]. rewrite u8_to_u8 by done. rewrite Ld. unfold old_lease_bytes.
  destruct (old_lease_id r) as [lid|].
  - rewrite (proj2 (Z.eqb_neq _ 0)) by apply Hl. rewrite length_to_le. cbn. lia.
  - rewrite Hl. cbn. lia.
Qed.

Lemma record_from_serialized pre r rest :
  old_wf r -> record_from (pre ++ old_serialize r ++ rest) (length pre) = r.
Proof.
  intros W. destruct (old_header_fields r (old_payload r ++ rest) W) as (_ & E2 & _ & E4 & E5).
  destruct (old_offsets (old_header r) r rest (length_old_header r)) as (_ & _ & E22 & _ & D23 & D3 & D4).
  rewrite old_serialize_split, <- app_assoc. set (data := old_header r ++ old_payload r ++ rest) in *.
  assert (forall n i, le_at n (length pre + i) (pre ++ data) = le_at n i data) as Hle
    by (intros n i; unfold le_at; by rewrite <- drop_drop, drop_app_length).
  assert (flags_at (pre ++ data) (length pre) = old_flags r) as Efl.
  { unfold flags_at. rewrite lookup_app_r by lia. replace (length pre + 22 - length pre)%nat with 22%nat by lia.
    rewrite E22. apply u8_to_u8, W. }
  unfold record_from, leased_at, key_len_at, val_len_at. rewrite Efl, <- !Nat.add_assoc, !Hle, E4, E5, !Nat2Z.id.
  rewrite <- !(drop_drop _ _ (length pre)), !drop_app_length, E2, D23, D3, !take_app_length.
  unfold le_at. rewrite Nat.add_assoc, D4. destruct W as [_ _ _ Hl]. unfold old_lease_bytes.
  destruct r as [rev key value fl [lid|]]; cbn [old_revision old_key old_value old_flags old_lease_id] in *.
  - destruct Hl as [Hi Hfl]. rewrite (proj2 (Z.eqb_neq _ 0)) by done. cbn [negb].
    rewrite take_app_length' by by rewrite length_to_le.
    rewrite from_le_to_le by (pose proof (u64_wrap_range lid); unfold is_u64 in *; lia). by rewrite i64_of_u64_of_i64.
  - by rewrite Hl.
Qed.

(** What the loop body makes of a chunk. *)
Lemma frame_chunk pre c rest :
  chunk_ok c -> (23 <= length (chunk_bytes c))%nat
  /\ frame (pre ++ chunk_bytes c ++ rest) (length pre)
     = Ok (match c with Good r => Framed r (length pre + length (chunk_bytes c))
                      | Damaged _ _ => BadCrc (length pre + length (chunk_bytes c)) end).
Proof.
  destruct c as [r|r bs]; cbn [chunk_bytes chunk_ok].
  - intros W. destruct (serialized_framed r W) as (Hb & Em & He & Ec). split; [done|].
    rewrite frame_framed, Ec, Z.eqb_refl, record_from_serialized by done. done.
  - intros (W & Hlen & Em' & Ek & Ev & El & Hne). destruct (serialized_framed r W) as (Hb & Em & He & _).
    split; [lia|]. rewrite frame_framed, (proj2 (Z.eqb_neq _ _) Hne); [done|lia|congruence|].
    rewrite Hlen, <- He. unfold frame_end, key_len_at, val_len_at. cbn [Nat.add]. by rewrite Ek, Ev, El.
Qed.

(** Skipping behind a damaged frame finds exactly the intact records. *)
Lemma recover_scan_chunks cs :
  Forall chunk_ok cs ->
  exists r, recover_scan (concat (chunk_bytes <$> cs)) = Ok r /\ sc_records r = good_records cs.
Proof.
  intros W. set (buf := concat (chunk_bytes <$> cs)).
  enough (forall pre, let buf := pre ++ concat (chunk_bytes <$> cs) in
    exists r, scans behind buf (length pre) (Ok r) /\ sc_records r = good_records cs) as Hgen.
  { destruct (Hgen []) as (r & Hr & Er). exists r. split; [|done]. unfold recover_scan.
    apply (scans_unique behind buf 0); [|done]. apply scan_frames_scans; [apply advances_behind|lia]. }
  clear buf. induction W as [|c cs Hc W IH]; intros pre; cbn [fmap list_fmap concat].
  { eexists. split; [apply scan_end; rewrite app_nil_r; lia|done]. }
  destruct (frame_chunk pre c (concat (chunk_bytes <$> cs)) Hc) as [Hlen Ef].
  destruct (IH (pre ++ chunk_bytes c)) as (r & Hr & Er). rewrite <- app_assoc, length_app in Hr.
  set (buf := pre ++ chunk_bytes c ++ concat (chunk_bytes <$> cs)) in *.
  assert (length pre + 23 <= length buf)%nat as Hl by (unfold buf; rewrite !length_app; lia).
  destruct c as [rec|rec bs].
  - exists (push_record rec r). split; [|cbn; by rewrite Er]. by apply (scan_record _ _ _ _ _ (Ok r) Hl Ef).
  - exists (count_error r). split; [|done]. by apply (scan_crc _ _ _ _ (Ok r) Hl Ef).
Qed.

(** ** Proofs: what walrecover writes *)

(** Value and revision of the reconstructed keys, and of a live view. *)
Definition tool_pairs (m : ToolMap) : gmap (list Byte.byte) (bytes * Z) := (fun t => (tk_value t, tk_mod t)) <$> m.
Definition view_pairs (v : gmap (list Byte.byte) Live) : gmap (list Byte.byte) (bytes * Z) :=
  (fun l => (lv_value l, lv_mod_revision l)) <$> v.

Lemma reconstruct_pairs rs :
  tool_pairs (reconstruct (entry_of_record <$> rs)) = view_pairs (foldl old_view ∅ rs).
Proof.
  unfold reconstruct. enough (forall m v, tool_pairs m = view_pairs v ->
    tool_pairs (foldl reconstruct_step m (entry_of_record <$> rs)) = view_pairs (foldl old_view v rs)) as Hgen
    by (apply Hgen; unfold tool_pairs, view_pairs; by rewrite !fmap_empty).
  induction rs as [|r rs IH]; intros m v Hmv; [done|]. cbn [fmap list_fmap foldl]. apply IH.
  unfold old_view, reconstruct_step, entry_of_record. fold (old_deleted r). unfold tool_pairs, view_pairs in *.
  destruct (old_deleted r); [by rewrite !fmap_delete, Hmv|]. rewrite !fmap_insert, Hmv. done.
Qed.

(** A recovered key as the old record it is written as. *)
Definition recovered (e : list Byte.byte * ToolKey) : WalRecord :=
  mkOld (tk_mod e.2) e.1 (tk_value e.2) IS_CREATE None.

Lemma write_entry_serialize e : write_entry e = old_serialize (recovered e).
Proof.
  destruct e as [key ks]. unfold write_entry, old_serialize, recovered, old_payload. cbn [old_revision old_key old_value old_flags old_lease_id fst snd].
  set (a := to_le 2 MAGIC). set (b := to_le 8 (tk_mod ks)). set (z := to_le 4 0).
  set (c := to_le 4 (u32_wrap (Z.of_nat (length key)))). set (d := to_le 4 (u32_wrap (Z.of_nat (length (tk_value ks))))).
  assert (length a = 2%nat /\ length b = 8%nat /\ length z = 4%nat /\ length c = 4%nat /\ length d = 4%nat)
    as (La & Lb & Lz & Lc & Ld) by (unfold a, b, z, c, d; by rewrite !length_to_le).
  rewrite !app_nil_r. set (p := [to_u8 IS_CREATE] ++ key ++ tk_value ks).
  assert (drop 22 ((a ++ b) ++ z ++ (c ++ d) ++ p) = p) as ->.
  { replace ((a ++ b) ++ z ++ (c ++ d) ++ p) with (((a ++ b) ++ z ++ (c ++ d)) ++ p) by by rewrite <- !app_assoc.
    apply drop_app_length'. rewrite !length_app. lia. }
  rewrite <- Hcrc, take_app_length' by (rewrite length_app; lia).
  replace ((a ++ b) ++ z ++ (c ++ d) ++ p) with (((a ++ b) ++ z) ++ (c ++ d) ++ p) by by rewrite <- !app_assoc.
  rewrite drop_app_length' by (rewrite !length_app; lia). by rewrite <- !app_assoc.
Qed.

(** Every reconstructed value and revision come from a record of the log. *)
Lemma reconstruct_sourced (P : list Byte.byte -> bytes -> Z -> Prop) rs :
  Forall (fun r => P (old_key r) (old_value r) (old_revision r)) rs ->
  map_Forall (fun k t => P k (tk_value t) (tk_mod t)) (reconstruct (entry_of_record <$> rs)).
Proof.
  unfold reconstruct. intros Hr. enough (forall m, map_Forall (fun k t => P k (tk_value t) (tk_mod t)) m ->
    map_Forall (fun k t => P k (tk_value t) (tk_mod t)) (foldl reconstruct_step m (entry_of_record <$> rs))) as Hgen
    by apply Hgen, map_Forall_empty.
  induction Hr as [|r rs Hr Hrs IH]; intros m Hm; [done|]. cbn [fmap list_fmap foldl]. apply IH.
  unfold reconstruct_step, entry_of_record. destruct (negb _); [by apply map_Forall_delete|]. by apply map_Forall_insert_2.
Qed.

Definition unleased (l : Live) : Live := mkLive (lv_value l) (lv_mod_revision l) 0.

Lemma foldl_insert_lookup {A B} (f : A -> B) (l : list (list Byte.byte * A)) (v : gmap (list Byte.byte) B) k :
  NoDup l.*1 ->
  foldl (fun v e => <[e.1 := f e.2]> v) v l !! k
  = match (list_to_map l : gmap (list Byte.byte) A) !! k with Some a => Some (f a) | None => v !! k end.
Proof.
  revert v. induction l as [|[k0 a0] l IH]; intros v; [done|]. intros [Hk0 Hnd]%NoDup_cons.
  cbn [foldl fst snd list_to_map foldr uncurry]. rewrite IH by done. apply not_elem_of_list_to_map_1 in Hk0.
  destruct (decide (k0 = k)) as [<-|Hne]; [|by rewrite !lookup_insert_ne].
  cbn [fst] in Hk0. by rewrite Hk0, !lookup_insert_eq.
Qed.

Lemma recovered_view (m : ToolMap) :
  foldl old_view ∅ (recovered <$> btree_iter m) = (fun t => mkLive (tk_value t) (tk_mod t) 0) <$> m.
Proof.
  assert (forall l v, foldl old_view v (recovered <$> l)
    = foldl (fun v e => <[e.1 := mkLive (tk_value e.2) (tk_mod e.2) 0]> v) v l) as Hl
    by (induction l as [|e l IH]; intros v; [done|]; apply IH).
  apply map_eq. intros k.
  rewrite Hl, (foldl_insert_lookup (fun t => mkLive (tk_value t) (tk_mod t) 0)) by apply btree_iter_NoDup.
  rewrite list_to_map_btree_iter, lookup_fmap. by destruct (m !! k).
Qed.

Lemma recovered_ok m :
  map_Forall (fun k t => kv_sizes_ok k (tk_value t) /\ kv_fits k (tk_value t) /\ 1 <= tk_mod t < 2 ^ 63 - 1) m ->
  Forall old_wf (recovered <$> btree_iter m) /\ Forall migratable (recovered <$> btree_iter m).
Proof.
  intros Hm. split; apply Forall_fmap, Forall_forall; intros [k t] Hin%elem_of_btree_iter;
    destruct (Hm k t Hin) as (Hs & Hf & Hr); split; cbn; try done; unfold is_u64; try lia.
Qed.

Lemma old_view_sizes r : old_wf r -> migratable r ->
  kv_sizes_ok (old_key r) (old_value r) /\ kv_fits (old_key r) (old_value r) /\ 1 <= old_revision r < 2 ^ 63 - 1.
Proof. intros [? ? ? ?] [? ? ?]. done. Qed.

(** ** Properties *)

(** C33. Disaster recovery. Take a log of the old server in which any records are
    damaged in place such that their checksum fails, while magic number, lengths and
    lease bit still frame them ([chunk_ok]; [lease_bit_hides_next_record] shows what
    happens otherwise). walrecover does not panic, skips exactly the damaged records
    and writes the rest as a fresh log; wal_migrate converts that log; and the server
    opens the result to exactly the live keys, values and revisions the intact
    records describe, with the leases gone. *)
Theorem recovery_path `{KvDecoder} `{UnstableSort} (cs : list chunk) (now : Z) :
  Forall chunk_ok cs -> Forall migratable (good_records cs) -> clock_ok now ->
  exists out w s,
    walrecover (concat (chunk_bytes <$> cs)) = Ok out
    /\ migrate [] (read_old_records out) = (w, inl tt)
    /\ open_store now (file w) = Ok s
    /\ view (keys s) = unleased <$> foldl old_view ∅ (good_records cs).
Proof.
  intros W Hm Hnow. destruct (recover_scan_chunks cs W) as (sr & Es & Er).
  unfold walrecover. rewrite Es. cbn [outcome_bind]. rewrite Er. clear Es Er.
  assert (Forall old_wf (good_records cs)) as Hwf.
  { clear Hm. induction W as [|[r|r p] cs Hc W IH]; [constructor|by constructor|done]. }
  set (rs := good_records cs) in *. set (m := reconstruct (entry_of_record <$> rs)).
  destruct (recovered_ok m) as [Hwf' Hm'].
  { apply (reconstruct_sourced (fun k v rev => kv_sizes_ok k v /\ kv_fits k v /\ 1 <= rev < 2 ^ 63 - 1)).
    apply Forall_forall. intros r Hin. rewrite Forall_forall in Hwf, Hm. by apply old_view_sizes; auto. }
  assert (write_wal (btree_iter m) = concat (old_serialize <$> (recovered <$> btree_iter m))) as Ew.
  { unfold write_wal. rewrite <- list_fmap_compose. f_equal. apply list_fmap_ext. intros _ e _. apply write_entry_serialize. }
  destruct (migrate_loop_log (recovered <$> btree_iter m) ∅ (WalFile_open []) ∅ Hm') as (w & kvs & E & Ef & R & Hrv & Ev);
    [apply map_Forall_empty|done|].
  destruct (open_store_log now _ kvs [] R ltac:(by left) (clock_instant now Hnow) Hrv) as (s & Eo & Ek & _).
  eexists _, w, s. split; [reflexivity|]. rewrite Ew. unfold read_old_records.
  rewrite read_old_loop_log by (done || lia). split; [exact E|]. rewrite Ef. cbn [file WalFile_open app].
  rewrite app_nil_r in Eo. split; [done|].
  rewrite Ek, view_fold by done. unfold view at 1. rewrite omap_empty, Ev, recovered_view.
  pose proof (reconstruct_pairs rs) as Hp. fold m in Hp. apply map_eq. intros k.
  apply (f_equal (fun x => x !! k)) in Hp. unfold tool_pairs, view_pairs in Hp. rewrite !lookup_fmap in *.
  destruct (m !! k) as [t|], (foldl old_view ∅ rs !! k) as [l|]; cbn in *; try done.
  injection Hp as -> ->. done.
Qed.

End Recover.

(** ** Proofs: walverify_new *)

Section VerifyNewProps.
Context `{Crc32c} `{KvDecoder} `{UnstableSort}.

Lemma store_record_mod r : store_record r -> rec_mod_revision r = Some (record_rev r).
Proof.
  intros (fl & a & G). destruct (genuine_facts _ _ _ G) as (_ & _ & -> & _). destruct G as ([[Hs Hf] Hc Hm Hv Hl] & Hfl & ->).
  destruct (KvWalRecord_new_fields fl (a_key a) (a_value a) (a_create a) (a_mod a) (a_version a) (a_lease a))
    as (E1 & E2 & E3 & E4 & E5).
  unfold record_of, rec_mod_revision. rewrite E2, E4. apply read_mod_revision_blob; [unfold is_i64; lia|].
  apply u16_wrap_small. unfold key_small in Hs. unfold is_u16, mod_rev_pos.
  pose proof (length_encode_varint_wrap (a_create a)). lia.
Qed.

(** What the report counts, against the live view of the same records. *)
Definition mods (m : gmap (list Byte.byte) NewKey) : gmap (list Byte.byte) Z := nk_mod <$> m.

Lemma new_step_store st r v :
  store_record r -> mods (ns_keys st) = lv_mod_revision <$> v ->
  exists st', new_step st r = Ok st' /\ ns_crc_errors st' = ns_crc_errors st /\ ns_kv_errors st' = ns_kv_errors st
    /\ ns_max_rev st' = Z.max (ns_max_rev st) (record_rev r)
    /\ mods (ns_keys st') = lv_mod_revision <$> view_record v r.
Proof.
  intros R Hv. pose proof (store_record_mod r R) as Em. pose proof (store_record_wf r R) as W.
  assert (deserialize (serialize r) = inl (r, rec_len r)) as Ed
    by (rewrite <- (app_nil_r (serialize r)); by apply deserialize_serialize).
  destruct R as (fl & a & G). destruct (genuine_facts _ _ _ G) as (_ & Ek & _ & _ & _ & Ekd).
  unfold new_step. rewrite Ed, Ek. cbn [outcome_bind]. rewrite Em. eexists. split; [reflexivity|].
  cbn [ns_crc_errors ns_kv_errors ns_max_rev ns_keys]. split; [done|]. split; [done|].
  split; [destruct (Z.ltb_spec (ns_max_rev st) (record_rev r)); lia|].
  unfold view_record. fold (record_deleted r). rewrite Ek, Ekd. unfold mods in *.
  destruct (record_deleted r); [by rewrite !fmap_delete, Hv|]. by rewrite !fmap_insert, Hv.
Qed.

Lemma new_loop_store rs st v :
  Forall store_record rs -> mods (ns_keys st) = lv_mod_revision <$> v ->
  exists st', new_loop rs st = Ok st' /\ ns_crc_errors st' = ns_crc_errors st /\ ns_kv_errors st' = ns_kv_errors st
    /\ ns_max_rev st' = foldl Z.max (ns_max_rev st) (record_rev <$> rs)
    /\ mods (ns_keys st') = lv_mod_revision <$> foldl view_record v rs.
Proof.
  intros R. revert st v. induction R as [|r rs Hr R IH]; intros st v Hv; [by eexists|]. cbn [new_loop fmap list_fmap foldl].
  destruct (new_step_store st r v Hr Hv) as (st1 & -> & E1 & E2 & E3 & E4). cbn [outcome_bind].
  destruct (IH st1 _ E4) as (st' & E & F1 & F2 & F3 & F4). exists st'. rewrite E, F1, F2, F3, F4, E1, E2, E3. done.
Qed.

(** C35. The verifier agrees with the server. On the log of every state the server
    can reach, walverify_new reports no checksum and no accessor error, exactly the
    server's live keys with their modification revisions, and as highest revision
    the one the server would restart from. *)
Theorem verify_new_agrees (y : Sys) (now : Z) :
  rtc sys_step sys_init y -> clock_ok now ->
  exists r s', let st := nr_scan r in
    walverify_new (file (wal (sys_store y))) = Ok r
    /\ ns_crc_errors st = O /\ ns_kv_errors st = O
    /\ (forall k, nk_mod <$> ns_keys st !! k = ks_mod_revision <$> get_alive (sys_store y) k)
    /\ open_store now (file (wal (sys_store y))) = Ok s' /\ ns_max_rev st = current_revision s'.
Proof.
  intros Hr Hc. destruct (sys_reachable y Hr) as (I & rs & D').
  destruct (reopen _ rs now I D' Hc) as (s' & E & I' & _ & Ev & _ & _ & En). destruct D' as [_ Hf R Hv _ _].
  destruct (new_loop_store rs (mkNewScan 0 0 0 ∅) ∅ R) as (st & El & E1 & E2 & E3 & E4);
    [unfold mods; by rewrite !fmap_empty|].
  eexists (mkNewReport _ st _ _ _), s'. unfold walverify_new, scan_kv_collect, scan_kv. cbn [file WalFile_open nr_scan].
  rewrite Hf, scan_log by (eapply Forall_impl; [apply R|apply store_record_wf]). rewrite El. cbn [outcome_bind].
  split; [reflexivity|]. split; [done|]. split; [done|]. split.
  - intros k. rewrite <- Hv in E4. apply (f_equal (fun x => x !! k)) in E4. unfold mods in E4.
    rewrite !lookup_fmap in E4. rewrite E4, lookup_view, get_alive_in. by destruct (alive_in _ k).
  - rewrite <- Hf. split; [done|]. rewrite E3. unfold current_revision. rewrite En. unfold max_rev. cbn [ns_max_rev].
    pose proof (foldl_max_ge (record_rev <$> rs) 0). lia.
Qed.

(** The namespace lines never show a name. *)
Lemma new_loop_no_values rs st st' :
  new_loop rs st = Ok st' -> map_Forall (fun _ e => nk_value e = []) (ns_keys st) ->
  map_Forall (fun _ e => nk_value e = []) (ns_keys st').
Proof.
  revert st. induction rs as [|r rs IH]; intros st; cbn [new_loop]; [by intros [= ->]|].
  destruct (new_step st r) as [st1| |] eqn:E; cbn [outcome_bind]; try done. intros El Hst. apply (IH _ El). clear El.
  revert E. unfold new_step. destruct (rec_key r) as [[key|]| |]; cbn [outcome_bind]; try done; [|by intros [= <-]].
  destruct (rec_mod_revision r) as [mr|]; [|by intros [= <-]]. intros [= <-]. cbn [ns_keys].
  destruct (Z.land (flags r) DELETED =? 0); cbn [negb]; [|by apply map_Forall_delete]. apply map_Forall_insert_2; [|done]. cbn [nk_value].
  destruct (ns_keys st !! key) as [e|] eqn:Ek; cbn; [by apply (Hst key)|done].
Qed.

Lemma walverify_new_names contents r :
  walverify_new contents = Ok r -> Forall (fun e => e.2 = lit "?") (nr_namespaces r).
Proof.
  unfold walverify_new. destruct (scan_kv_collect _) as [rs|e]; [|done].
  destruct (new_loop rs _) as [st| |] eqn:E; cbn [outcome_bind]; try done. intros [= <-]. cbn [nr_namespaces].
  apply new_loop_no_values in E; [|apply map_Forall_empty]. apply Forall_fmap, Forall_forall.
  intros [k [r v]] [_ ([k' e] & [= -> -> ->] & Hin%elem_of_btree_iter)%list_elem_of_fmap]%list_elem_of_filter.
  cbn [fst snd]. by rewrite (E k' e Hin).
Qed.

End VerifyNewProps.

(** C34. The tools' scanners are safe and sound on every input. The loops of
    waldoctor, walverify and walrecover come to an end in exactly one way, which is
    the one the definitions compute; no index or slice is out of range; the trailing
    bytes they print are the bytes of the file from the position they stopped at, a
    subtraction that does not wrap around; and the records they report lie in the
    file one behind the other, each with its magic number and its checksum. *)
Theorem tool_scans_terminate (buf : bytes) :
  (forall o, scans next_byte buf 0 o <-> o = doctor_scan buf)
  /\ (forall o, scans behind buf 0 o <-> o = recover_scan buf)
  /\ (exists r stop, doctor_scan buf = Ok r /\ (stop <= length buf)%nat
        /\ sc_trailing r = Z.of_nat (length buf - stop) /\ laid_out buf 0 (sc_records r)
        /\ verify_scan buf = Ok (entry_of_record <$> sc_records r, length (sc_records r), sc_crc_errors r))
  /\ (exists r stop, recover_scan buf = Ok r /\ (stop <= length buf)%nat
        /\ sc_trailing r = Z.of_nat (length buf - stop) /\ laid_out buf 0 (sc_records r)).
Proof.
  pose proof (scan_frames_scans _ (S (length buf)) buf 0 advances_next ltac:(lia)) as H1.
  pose proof (scan_frames_scans _ (S (length buf)) buf 0 advances_behind ltac:(lia)) as H2.
  split; [intros o; split; [intros Ho; by eapply scans_unique|by intros ->]|].
  split; [intros o; split; [intros Ho; by eapply scans_unique|by intros ->]|].
  apply scans_scanned in H1 as (r1 & p1 & E1 & B1 & T1 & L1); [|apply advances_next|lia].
  apply scans_scanned in H2 as (r2 & p2 & E2 & B2 & T2 & L2); [|apply advances_behind|lia].
  split; [exists r1, p1|exists r2, p2; split_and!; try done; lia].
  split_and!; try done; try lia. unfold verify_scan. by rewrite E1.
Qed.

#[local] Existing Instance bitwise_crc.
#[local] Existing Instance ref_decoder.
#[local] Existing Instance merge_sort_impl.

(** A leased write, a write whose value was hit by a bit flip, and another write. *)
Definition damaged_log : list chunk :=
  [Good (mkOld 1 (lit "a") (lit "1") 4 (Some 7));
   Damaged (mkOld 2 (lit "a") (lit "2") 0 None)
     (take 24 (old_serialize (mkOld 2 (lit "a") (lit "2") 0 None)) ++ lit "3");
   Good (mkOld 3 (lit "b") (lit "2") 0 None)].

Lemma recovery_path_witness :
  exists out w s,
    walrecover (concat (chunk_bytes <$> damaged_log)) = Ok out
    /\ migrate [] (read_old_records out) = (w, inl tt)
    /\ open_store 0 (file w) = Ok s
    /\ view (keys s) = unleased <$> foldl old_view ∅ (good_records damaged_log).
Proof.
  apply (@recovery_path bitwise_crc (fun _ => eq_refl) ref_decoder merge_sort_impl damaged_log 0).
  - constructor; [|constructor; [|constructor; [|constructor]]].
    + constructor; by vm_compute.
    + split; [constructor; by vm_compute|]. split_and!; by vm_compute.
    + constructor; by vm_compute.
  - repeat constructor; by vm_compute.
  - unfold clock_ok. lia.
Defined.

Lemma verify_new_agrees_witness :
  exists r s', let st := nr_scan r in
    walverify_new (file (wal (sys_store demo_sys))) = Ok r
    /\ ns_crc_errors st = O /\ ns_kv_errors st = O
    /\ (forall k, nk_mod <$> ns_keys st !! k = ks_mod_revision <$> get_alive (sys_store demo_sys) k)
    /\ open_store 0 (file (wal (sys_store demo_sys))) = Ok s' /\ ns_max_rev st = current_revision s'.
Proof. apply (verify_new_agrees demo_sys 0 demo_reachable). unfold clock_ok. lia. Defined.

(** walrecover's output, put in place as its closing message says, does not
    restore the keys: the server reads it as a log of the current format. *)
Example walrecover_output_not_loadable :
  match (let? out := walrecover (old_serialize (mkOld 1 (lit "a") (lit "1") 0 None)) in open_store 0 out) with
  | Ok s => False | Err _ => True | Panic _ => False end.
Proof. by vm_compute. Qed.

(** Two stray bytes that look like the magic number, followed by lengths that
    reach beyond the file, hide every record behind them. *)
Example doctor_stops_at_false_magic :
  let good := old_serialize (mkOld 1 (lit "a") (lit "1") 0 None) in
  let stray := to_le 2 MAGIC ++ replicate 12 Byte.xff ++ to_le 4 1000 ++ replicate 5 Byte.x00 in
  let records buf := let? r := doctor_scan buf in Ok (sc_records r) in
  records (good ++ stray ++ good) = Ok [mkOld 1 (lit "a") (lit "1") 0 None]
  /\ records (good ++ [Byte.x00] ++ good)
     = Ok [mkOld 1 (lit "a") (lit "1") 0 None; mkOld 1 (lit "a") (lit "1") 0 None].
Proof. split; by vm_compute. Qed.

(** A flipped lease bit makes walrecover take the first eight bytes of the next
    record for a lease id, and lose that intact record too; waldoctor, which goes on
    one byte behind the start of the damaged record, finds it. *)
Example lease_bit_hides_next_record :
  let a := mkOld 1 (lit "a") (lit "1") 0 None in
  let b := mkOld 2 (lit "b") (lit "2") 0 None in
  let log := old_header a ++ old_payload (mkOld 1 (lit "a") (lit "1") HAS_LEASE None) ++ old_serialize b in
  (let? r := recover_scan log in Ok (sc_records r)) = Ok []
  /\ (let? r := doctor_scan log in Ok (sc_records r)) = Ok [b].
Proof. split; by vm_compute. Qed.

(** The checksum does not cover the revision: a record whose revision is damaged is
    taken for intact. *)
Example revision_not_covered :
  let a := mkOld 1 (lit "a") (lit "1") 0 None in
  let log := to_le 2 MAGIC ++ to_le 8 77 ++ drop 10 (old_serialize a) in
  (let? r := recover_scan log in Ok (sc_records r)) = Ok [mkOld 77 (lit "a") (lit "1") 0 None].
Proof. by vm_compute. Qed.

Example walverify_report :
  let log := [mkOld 1 (lit "/registry/pods/a") (lit "1") 2 None; mkOld 9000 (lit "/registry/nodes/precision") [] 2 None;
              mkOld 9000 (lit "/registry/namespaces/default") (name_pattern ++ lit "default" ++ [quote] ++ lit "}") 2 None;
              mkOld 9001 (lit "x") [] 2 None; mkOld 9002 (lit "x") [] 1 None] in
  (let? r := walverify (concat (old_serialize <$> log)) in
   Ok (vr_records r, vr_crc_errors r, vr_keys r, vr_max_revision r, map_to_list (vr_categories r), vr_infrastructure r,
       vr_namespaces r))
  = Ok (5%nat, O, 3%nat, 9002, [("node", 1%nat); ("namespace", 1%nat); ("pod", 1%nat)]%string,
     [false; true; false; false; false; false; true; false; false; false; false], [(9000, lit "default")])
  /\ waldoctor (concat (old_serialize <$> log)) = Ok (5%nat, O, 3%nat, 1%nat).
Proof. split; by vm_compute. Qed.

End Tools.
