(* ===== verification/Maintenance.v ===== *)
(** * The Maintenance service (src/server/maintenance.rs)

    Status, hashes and the snapshot stream. The stream is the encoded key space cut
    into chunks; a reader that concatenates them gets the encoding back, and with
    it the live keys and values. *)
From S2P Require Import Prelude Varint KvCodec Wire Crc WalRecord Proto Range SortKvs State Store.
From S2P Require Import Historical Txn Recovery Background System Replay Durability.
Local Open Scope Z_scope.

Module Maintenance.
Import KvCodec Wire Crc Wal Proto Range SortKvs State Store Historical Txn Recovery Background System Replay
  Durability.

Definition CHUNK_SIZE : Z := 64 * 1024.

(** ** Handlers *)

Record StatusResponse := mkStatusResponse {
  sr_header : option ResponseHeader; sr_version : string; sr_db_size : Z; sr_leader : Z; sr_raft_index : Z;
  sr_raft_term : Z; sr_db_size_in_use : Z; sr_is_learner : bool; sr_raft_applied_index : Z }.

Definition alarm (s : StoreState) : option ResponseHeader * list Z := (Some (state_header s), []).

Definition status (s : StoreState) : StatusResponse :=
  mkStatusResponse (Some (state_header s)) "3.5.14" (db_size s) 1 (current_revision s) 1 (db_size s) false
    (current_revision s).

Definition defragment : option ResponseHeader := None.

Definition move_leader : outcome unit := Err (mkStatus Unimplemented "single-node cluster").

Section Hash.
Context {H : Type} (new : H) (write_length_prefix : Z -> H -> H) (write : bytes -> H -> H) (finish : H -> Z).

Definition hash (s : StoreState) : ResponseHeader * Z :=
  (state_header s, u32_wrap (store_hash new write_length_prefix write finish s)).

Definition hash_kv (s : StoreState) : ResponseHeader * Z * Z :=
  (state_header s, u32_wrap (store_hash new write_length_prefix write finish s), i64_wrap (compact_rev s)).
End Hash.

(** ** The snapshot stream *)

(** [u32] length, key, [u32] length, value. *)
Definition snapshot_entry (k v : bytes) : bytes :=
  to_le 4 (u32_wrap (Z.of_nat (length k))) ++ k ++ to_le 4 (u32_wrap (Z.of_nat (length v))) ++ v.

Fixpoint snapshot_entries (l : list (list Byte.byte * KeyState)) : bytes :=
  match l with
  | [] => []
  | (k, ks) :: l =>
      if negb (ks_delete_revision ks =? 0) then snapshot_entries l
      else snapshot_entry k (ks_value ks) ++ snapshot_entries l
  end.

Definition snapshot_buffer (s : StoreState) : bytes :=
  to_le 8 (current_revision s) ++ to_le 4 (u32_wrap (Z.of_nat (size (keys s))))
  ++ snapshot_entries (btree_iter (keys s)).

Record SnapshotResponse := mkSnapshotResponse { sp_remaining_bytes : Z; sp_blob : bytes }.

(** The sending loop from [offset] on. Every round sends at least one byte, so the
    buffer length is fuel enough. *)
Fixpoint snapshot_chunks (fuel : nat) (buf : bytes) (offset : nat) : list SnapshotResponse :=
  match fuel with
  | O => []
  | S fuel =>
      if (offset <? length buf)%nat then
        let e := Nat.min (offset + Z.to_nat CHUNK_SIZE) (length buf) in
        let remaining := Z.max 0 (Z.of_nat (length buf) - Z.of_nat e) in
        mkSnapshotResponse remaining (take (e - offset) (drop offset buf)) :: snapshot_chunks fuel buf e
      else []
  end.

Definition snapshot (s : StoreState) : list SnapshotResponse :=
  let buf := snapshot_buffer s in snapshot_chunks (S (length buf)) buf O.

(** ** Reading a snapshot back *)

(** What a restore would do: the entries, until the bytes run out. *)
Fixpoint read_entries (fuel : nat) (data : bytes) : option (list (bytes * bytes)) :=
  match fuel with
  | O => None
  | S fuel =>
      match data with
      | [] => Some []
      | _ =>
          let kl := Z.to_nat (from_le (take 4 data)) in
          let rest := drop 4 data in
          let vl := Z.to_nat (from_le (take 4 (drop kl rest))) in
          let rest' := drop 4 (drop kl rest) in
          if (length data <? 8 + kl + vl)%nat then None
          else let! es := read_entries fuel (drop vl rest') in Some ((take kl rest, take vl rest') :: es)
      end
  end.

Definition read_snapshot (data : bytes) : option (Z * list (bytes * bytes)) :=
  let! es := read_entries (S (length data)) (drop 12 data) in Some (from_le (take 8 data), es).

(** The live keys and their values, in key order. *)
Definition live_pairs (s : StoreState) : list (bytes * bytes) :=
  (fun e => (e.1, ks_value e.2)) <$> base.filter (fun e => is_alive e.2 = true) (btree_iter (keys s)).

Lemma snapshot_entries_concat l :
  snapshot_entries l
  = concat ((fun e => snapshot_entry e.1 (ks_value e.2)) <$> base.filter (fun e => is_alive e.2 = true) l).
Proof.
  induction l as [|[k ks] l IH]; [done|]. cbn [snapshot_entries]. rewrite filter_cons. cbn [snd]. unfold is_alive.
  destruct (ks_delete_revision ks =? 0); cbn [negb]; case_decide; try done. cbn [fmap list_fmap concat fst snd].
  by rewrite IH.
Qed.

Lemma from_le_u32 z rest : is_u32 z -> from_le (take 4 (to_le 4 z ++ rest)) = z.
Proof.
  intros Hz. rewrite take_app_length' by by rewrite length_to_le. apply from_le_to_le. unfold is_u32 in Hz. lia.
Qed.

Lemma read_entries_concat l fuel :
  Forall (fun e : bytes * bytes => kv_sizes_ok e.1 e.2) l ->
  (length (concat ((fun e => snapshot_entry e.1 e.2) <$> l)) < fuel)%nat ->
  read_entries fuel (concat ((fun e => snapshot_entry e.1 e.2) <$> l)) = Some l.
Proof.
  intros Hl. revert fuel. induction Hl as [|[k v] l [Hk Hv] Hl IH]; intros fuel Hf; (destruct fuel as [|fuel]; [lia|]); [done|].
  cbn [fmap list_fmap concat fst snd] in *. set (rest := concat _) in *.
  assert (snapshot_entry k v ++ rest
    = to_le 4 (Z.of_nat (length k)) ++ k ++ to_le 4 (Z.of_nat (length v)) ++ v ++ rest) as Es.
  { unfold snapshot_entry. rewrite !u32_wrap_small by done. by rewrite <- !app_assoc. }
  rewrite Es in *. assert (forall z, length (to_le 4 z) = 4%nat) as Hle by (intros; apply length_to_le).
  rewrite !length_app, !Hle in Hf. cbn [read_entries].
  destruct (to_le 4 (Z.of_nat (length k)) ++ _) as [|b0 data] eqn:Ed.
  { apply (f_equal length) in Ed. rewrite !length_app, Hle in Ed. cbn in Ed. lia. }
  rewrite <- Ed. rewrite from_le_u32 by done. rewrite Nat2Z.id.
  rewrite !drop_app_length' by (done || by rewrite Hle). rewrite from_le_u32 by done. rewrite Nat2Z.id.
  rewrite !drop_app_length' by (done || by rewrite Hle). rewrite !take_app_length.
  rewrite (proj2 (Nat.ltb_ge _ _)) by (rewrite !length_app, !Hle; lia).
  rewrite IH by lia. done.
Qed.

Lemma snapshot_chunks_blob buf fuel offset :
  (length buf - offset < fuel)%nat ->
  concat (sp_blob <$> snapshot_chunks fuel buf offset) = drop offset buf.
Proof.
  revert offset. induction fuel as [|fuel IH]; intros offset Hf; [lia|]. cbn [snapshot_chunks].
  destruct (Nat.ltb_spec offset (length buf)); [|by rewrite drop_ge].
  set (e := Nat.min (offset + Z.to_nat CHUNK_SIZE) (length buf)).
  assert (offset < e <= length buf)%nat as He by (unfold e, CHUNK_SIZE; lia).
  cbn [fmap list_fmap concat sp_blob]. rewrite IH by lia.
  replace e with (offset + (e - offset))%nat at 2 by lia.
  rewrite <- drop_drop. apply take_drop.
Qed.

(** The offset reached after each chunk, from the count of remaining bytes. *)
Lemma snapshot_chunks_sizes buf fuel offset i c :
  (length buf - offset < fuel)%nat -> snapshot_chunks fuel buf offset !! i = Some c ->
  (0 < length (sp_blob c))%nat /\ Z.of_nat (length (sp_blob c)) <= CHUNK_SIZE
  /\ sp_remaining_bytes c = Z.of_nat (length (concat (sp_blob <$> drop (S i) (snapshot_chunks fuel buf offset)))).
Proof.
  revert offset i. induction fuel as [|fuel IH]; intros offset i Hf; [done|]. cbn [snapshot_chunks].
  destruct (Nat.ltb_spec offset (length buf)); [|done].
  set (e := Nat.min (offset + Z.to_nat CHUNK_SIZE) (length buf)).
  assert ((offset < e <= length buf)%nat /\ Z.of_nat (e - offset) <= CHUNK_SIZE) as He by (unfold e, CHUNK_SIZE; lia).
  destruct i as [|i]; cbn [lookup list_lookup drop].
  - intros [= <-]. cbn [sp_blob sp_remaining_bytes]. rewrite drop_0.
    rewrite snapshot_chunks_blob by lia. rewrite length_take, !length_drop. lia.
  - intros Hi. apply (IH e i); [lia|done].
Qed.

(** ** Properties *)

Lemma live_pairs_sizes s : inv s -> Forall (fun e : bytes * bytes => kv_sizes_ok e.1 e.2) (live_pairs s).
Proof.
  intros I. apply Forall_fmap, Forall_forall. intros [k ks] [_ Hin%elem_of_btree_iter]%list_elem_of_filter.
  cbn. apply kv_fits_sizes. apply (ok_fits _ _ _ (inv_keys s I _ _ Hin)).
Qed.

(** C36. Snapshot stream. The chunks are non-empty, at most 64 KiB, and announce
    exactly the bytes still to come; put together they decode to the current
    revision and to exactly the live keys with their values, in key order. *)
Theorem snapshot_stream_exact s :
  inv s ->
  read_snapshot (concat (sp_blob <$> snapshot s)) = Some (current_revision s, live_pairs s)
  /\ forall i c, snapshot s !! i = Some c ->
       (0 < length (sp_blob c))%nat /\ Z.of_nat (length (sp_blob c)) <= CHUNK_SIZE
       /\ sp_remaining_bytes c = Z.of_nat (length (concat (sp_blob <$> drop (S i) (snapshot s)))).
Proof.
  intros I. pose proof (inv_rev s I) as Hr. split.
  - unfold snapshot. rewrite snapshot_chunks_blob, drop_0 by lia. unfold read_snapshot, snapshot_buffer.
    assert (forall n z, length (to_le n z) = n) as Hle by (intros; apply length_to_le).
    rewrite app_assoc, drop_app_length' by (rewrite length_app, !Hle; done).
    rewrite snapshot_entries_concat.
    assert ((fun e : list Byte.byte * KeyState => snapshot_entry e.1 (ks_value e.2))
              <$> base.filter (fun e => is_alive e.2 = true) (btree_iter (keys s))
            = (fun e => snapshot_entry e.1 e.2) <$> live_pairs s) as ->
      by (unfold live_pairs; by rewrite <- list_fmap_compose).
    rewrite read_entries_concat; [|by apply live_pairs_sizes|rewrite length_app; lia].
    rewrite <- app_assoc, take_app_length' by by rewrite Hle. rewrite from_le_to_le; [done|]. unfold current_revision. lia.
  - intros i c. apply snapshot_chunks_sizes. lia.
Qed.

Section Recovery.
Context `{Crc32c} `{KvDecoder} `{UnstableSort}.

Lemma hash_loop_pairs {Hs : Type} (wl : Z -> Hs -> Hs) (wr : bytes -> Hs -> Hs) l h :
  hash_loop wl wr l h
  = foldl (fun h e => hash_slice wl wr e.2 (hash_slice wl wr e.1 h)) h
      ((fun e => (e.1, ks_value e.2)) <$> base.filter (fun e => is_alive e.2 = true) l).
Proof.
  revert h. induction l as [|[k ks] l IH]; intros h; [done|]. cbn [hash_loop]. rewrite filter_cons. cbn [snd].
  unfold is_alive. destruct (ks_delete_revision ks =? 0); cbn [negb]; case_decide; (done || apply IH).
Qed.

Lemma live_pairs_view s s' : view (keys s') = view (keys s) -> live_pairs s' = live_pairs s.
Proof.
  intros Ev.
  assert (forall s, live_pairs s = btree_iter (lv_value <$> view (keys s))) as Hlv; [|by rewrite !Hlv, Ev].
  clear. intros s. apply btree_iter_unique.
  - unfold live_pairs. rewrite <- list_fmap_compose.
    change (compose fst (fun e : list Byte.byte * KeyState => (e.1, ks_value e.2))) with (@fst (list Byte.byte) KeyState).
    eapply StronglySorted_sublist; [apply filter_sublist_fst|apply btree_iter_sorted].
  - unfold live_pairs. rewrite <- list_fmap_compose.
    change (compose fst (fun e : list Byte.byte * KeyState => (e.1, ks_value e.2))) with (@fst (list Byte.byte) KeyState).
    eapply sublist_NoDup; [apply (btree_iter_NoDup (keys s))|apply filter_sublist_fst].
  - intros k v. unfold live_pairs. rewrite list_elem_of_fmap, lookup_fmap. split.
    + intros ([k' ks] & [= -> ->] & [Ha Hin%elem_of_btree_iter]%list_elem_of_filter). cbn in *.
      rewrite lookup_view. unfold alive_in. by rewrite Hin, Ha.
    + rewrite lookup_view. unfold alive_in. destruct (keys s !! k) as [ks|] eqn:E; [|done].
      destruct (is_alive ks) eqn:Ha; [|done]. intros [= <-]. exists (k, ks).
      by rewrite list_elem_of_filter, elem_of_btree_iter.
Qed.

(** The hash survives restarts. After any sequence of commands, compactions
    and restarts, reopening the WAL gives a store with the same hash, whatever
    hash function is used: the hash is a function of the live keys and values. *)
Theorem hash_survives_restart {Hs : Type} (new : Hs) (wl : Z -> Hs -> Hs) (wr : bytes -> Hs -> Hs) (fin : Hs -> Z) y now :
  rtc sys_step sys_init y -> clock_ok now ->
  exists s', open_store now (file (wal (sys_store y))) = Ok s'
    /\ (hash new wl wr fin s').2 = (hash new wl wr fin (sys_store y)).2.
Proof.
  intros Hr Hc. destruct (sys_reachable y Hr) as (I & rs & D').
  destruct (reopen _ rs now I D' Hc) as (s' & E & _ & _ & Ev & _). exists s'. split; [done|].
  apply live_pairs_view in Ev. unfold hash, store_hash. cbn [snd]. rewrite !hash_loop_pairs.
  fold (live_pairs s'). fold (live_pairs (sys_store y)). by rewrite Ev.
Qed.

End Recovery.

#[local] Existing Instance bitwise_crc.
#[local] Existing Instance ref_decoder.
#[local] Existing Instance merge_sort_impl.

Lemma snapshot_stream_exact_witness :
  read_snapshot (concat (sp_blob <$> snapshot (run demo fresh)))
  = Some (current_revision (run demo fresh), live_pairs (run demo fresh)).
Proof. apply (snapshot_stream_exact (run demo fresh)). exact (proj1 (run_logs demo demo_ok)). Defined.

Lemma hash_survives_restart_witness :
  exists s', open_store 0 (file (wal (sys_store demo_sys))) = Ok s'
    /\ (hash 0 Z.add (fun b h => h * 31 + from_le b) id s').2
       = (hash 0 Z.add (fun b h => h * 31 + from_le b) id (sys_store demo_sys)).2.
Proof.
  apply (hash_survives_restart 0 Z.add (fun b h => h * 31 + from_le b) id demo_sys 0 demo_reachable).
  unfold clock_ok. lia.
Defined.

(** The header counts tombstones too, so it disagrees with the entries that follow. *)
Example snapshot_header_counts_tombstones :
  from_le (take 4 (drop 8 (snapshot_buffer (run demo fresh)))) = 2
  /\ length (live_pairs (run demo fresh)) = 1%nat.
Proof. by vm_compute. Qed.

End Maintenance.
