(* ===== verification/Services.v ===== *)
(** * The gRPC services (src/server/kv.rs, lease.rs, cluster.rs, auth.rs)

    Each handler unwraps a request, calls the store, writes trace lines and
    answers. The lines are part of the model: they are what an operator sees of a
    request. Keys in them are shown through [String::from_utf8_lossy]; the model
    keeps their bytes. *)
From stdpp Require Import pretty.
From S2P Require Import Prelude Varint KvCodec Wire Crc WalRecord Proto Range SortKvs State Store.
From S2P Require Import Historical Txn Recovery Background System Replay Durability LeaseProps Availability.
From S2P Require Import Maintenance.
Local Open Scope Z_scope.

Module Services.
Import KvCodec Wire Crc Wal Proto Range SortKvs State Store Historical Txn Recovery Background System Replay
  Durability LeaseProps Availability Maintenance.

(** ** Trace lines *)

Inductive Level := Trace | Info | Warn.
Inductive Field := FText (t : string) | FKey (k : list Byte.byte) | FNum (n : Z) | FFlag (b : bool).
Record Line := mkLine { ln_level : Level; ln_message : string; ln_fields : list (string * Field) }.

Definition remote_of (addr : option string) : string := default "unknown"%string addr.

(** [resp.header.as_ref().map(|h| h.revision).unwrap_or(0)] *)
Definition header_rev (h : option ResponseHeader) : Z := match h with Some h => revision h | None => 0 end.

(** A handler: the store it leaves, the lines it writes, and its answer. *)
Definition Handler (A : Type) : Type := StoreState -> StoreState * list Line * outcome A.

(** The shape of the handlers: lines before the call, and lines for its result. A
    panic ends the handler. *)
Definition traced {A} (before : list Line) (m : M A) (ok : A -> list Line) (err : Status -> list Line) : Handler A :=
  fun s => match m s with
           | (s, Ok a) => (s, before ++ ok a, Ok a)
           | (s, Err e) => (s, before ++ err e, Err e)
           | (s, Panic w) => (s, before, Panic w)
           end.

(** A read, as an operation that leaves the state alone. *)
Definition reading {A} (f : StoreState -> outcome A) : M A := fun s => (s, f s).

(** The line an error is reported with. *)
Definition error_line (level : Level) (name remote : string) (e : Status) : list Line :=
  [mkLine level name [("remote_addr", FText remote); ("response", FText "error"); ("error", FText (message e))]%string].

(** ** The KV service *)

Definition log_compare (c : Compare) : Line :=
  let result := match cmp_result c with
                | 0 => "==" | 1 => ">" | 2 => "<" | 3 => "!=" | _ => "?" end%string in
  let target := match cmp_target c with
                | 0 => "version" | 1 => "create_revision" | 2 => "mod_revision" | 3 => "value" | 4 => "lease"
                | _ => "?" end%string in
  let val := match cmp_target_union c with
             | Some (TVersion v) | Some (TCreateRevision v) | Some (TModRevision v) | Some (TLease v) => pretty v
             | Some (TValue v) => pretty (Z.of_nat (length v)) +:+ " bytes"
             | None => "?" end%string in
  mkLine Trace "TxnCompare" [("key", FKey (cmp_key c)); ("range_end", FKey (cmp_range_end c));
    ("result", FText result); ("target", FText target); ("val", FText val)]%string.

Definition log_request_op (label : string) (op : RequestOp) : Line :=
  mkLine Trace (label +:+ "Op")
    (match op with
     | RequestRange r => [("op_type", FText "range"); ("key", FKey (rr_key r)); ("range_end", FKey (rr_range_end r));
                          ("limit", FNum (rr_limit r))]
     | RequestPut p => [("op_type", FText "put"); ("key", FKey (pr_key p));
                        ("value_len", FNum (Z.of_nat (length (pr_value p)))); ("lease", FNum (pr_lease p))]
     | RequestDeleteRange d => [("op_type", FText "delete_range"); ("key", FKey (dr_key d));
                                ("range_end", FKey (dr_range_end d))]
     | RequestTxn _ => [("op_type", FText "txn")]
     | RequestNone => [("op_type", FText "none")]
     end)%string.

Definition not_empty (b : bytes) : bool := match b with [] => false | _ => true end.

Definition log_response_op (label : string) (op : ResponseOp) : Line :=
  mkLine Trace (label +:+ "Resp")
    (match op with
     | ResponseRange r => [("op_type", FText "range"); ("count", FNum (Z.of_nat (length (rs_kvs r))));
                           ("more", FFlag (rs_more r)); ("revision", FNum (header_rev (rs_header r)))]
     | ResponsePut p => [("op_type", FText "put"); ("has_prev_kv", FFlag (not_empty (ps_prev_kv p)));
                         ("revision", FNum (header_rev (ps_header p)))]
     | ResponseDeleteRange d => [("op_type", FText "delete_range"); ("deleted", FNum (ds_deleted d));
                                 ("revision", FNum (header_rev (ds_header d)))]
     | ResponseTxn _ => [("op_type", FText "txn")]
     | ResponseNone => [("op_type", FText "none")]
     end)%string.

(** [for (i, x) in l.iter().enumerate()], with a line that carries the index. *)
Definition log_each {A} (remote name : string) (f : A -> Line) (l : list A) : list Line :=
  concat (imap (fun i a => [mkLine Trace name [("remote_addr", FText remote); ("index", FNum (Z.of_nat i))]%string; f a]) l).

Record CompactionRequest := mkCompaction { cq_revision : Z; cq_physical : bool }.

(** The xxh3 hasher behind [store_hash]. *)
Class Hasher := mkHasher {
  hs_state : Type;
  hs_new : hs_state;
  hs_length_prefix : Z -> hs_state -> hs_state;
  hs_write : bytes -> hs_state -> hs_state;
  hs_finish : hs_state -> Z }.

(** An item of the keep-alive stream. *)
Abbreviation KaItem := (LeaseKeepAliveResponse + Status)%type.

Section Services.
Context `{Crc32c} `{KvDecoder} `{UnstableSort} `{Hasher}.

Definition kv_range (addr : option string) (req : RangeRequest) : Handler RangeResponse :=
  let remote := remote_of addr in
  traced
    [mkLine Trace "Range" [("remote_addr", FText remote); ("key", FKey (rr_key req));
       ("range_end", FKey (rr_range_end req)); ("limit", FNum (rr_limit req))]]
    (reading (fun s => range s req))
    (fun r => [mkLine Trace "RangeResp" [("remote_addr", FText remote); ("count", FNum (Z.of_nat (length (rs_kvs r))));
       ("more", FFlag (rs_more r)); ("revision", FNum (header_rev (rs_header r))); ("response", FText "ok")]])
    (fun _ => []).

Definition kv_put (addr : option string) (req : PutRequest) : Handler PutResponse :=
  let remote := remote_of addr in
  traced
    [mkLine Trace "Put" [("remote_addr", FText remote); ("key", FKey (pr_key req));
       ("value_len", FNum (Z.of_nat (length (pr_value req)))); ("lease", FNum (pr_lease req))]]
    (put req)
    (fun r => [mkLine Trace "PutResp" [("remote_addr", FText remote); ("has_prev_kv", FFlag (not_empty (ps_prev_kv r)));
       ("revision", FNum (header_rev (ps_header r))); ("response", FText "ok")]])
    (error_line Trace "PutResp" remote).

Definition kv_delete_range (addr : option string) (req : DeleteRangeRequest) : Handler DeleteRangeResponse :=
  let remote := remote_of addr in
  traced
    [mkLine Trace "DeleteRange" [("remote_addr", FText remote); ("key", FKey (dr_key req));
       ("range_end", FKey (dr_range_end req))]]
    (delete_range req)
    (fun r => [mkLine Trace "DeleteRangeResp" [("remote_addr", FText remote); ("deleted", FNum (ds_deleted r));
       ("revision", FNum (header_rev (ds_header r))); ("response", FText "ok")]])
    (error_line Trace "DeleteRangeResp" remote).

Definition kv_txn (addr : option string) (req : TxnRequest) : Handler TxnResponse :=
  let remote := remote_of addr in
  let 'mkTxn compare success failure := req in
  traced
    (mkLine Trace "Txn" [("remote_addr", FText remote); ("compare_count", FNum (Z.of_nat (length compare)));
       ("success_count", FNum (Z.of_nat (length success))); ("failure_count", FNum (Z.of_nat (length failure)))]
     :: log_each remote "TxnCompareStart" log_compare compare
     ++ log_each remote "TxnCompareSuccess" (log_request_op "TxnSuccess") success
     ++ log_each remote "TxnCompareFailure" (log_request_op "TxnFailure") failure)
    (txn req)
    (fun '(mkTxnResponse header succeeded responses) =>
       mkLine Trace "TxnResp" [("remote_addr", FText remote); ("succeeded", FFlag succeeded);
         ("response_count", FNum (Z.of_nat (length responses))); ("revision", FNum (header_rev header));
         ("response", FText "ok")]
       :: log_each remote "TxnRespOp" (log_response_op "TxnResp") responses)
    (error_line Info "TxnResp" remote).

(** The keys are counted before and after the call, under locks of their own. *)
Definition kv_compact (addr : option string) (req : CompactionRequest) : Handler ResponseHeader := fun s =>
  let remote := remote_of addr in
  let keys_before := Z.of_nat (size (keys s)) in
  match compact (cq_revision req) s with
  | (s, Panic w) => (s, [], Panic w)
  | (s, result) =>
      let keys_after := Z.of_nat (size (keys s)) in
      let rev := match result with Ok h => revision h | _ => 0 end in
      let ok := match result with Ok _ => true | _ => false end in
      (s, [mkLine Info "Compact" [("remote_addr", FText remote); ("revision", FNum (cq_revision req));
             ("physical", FFlag (cq_physical req)); ("keys_before", FNum keys_before); ("keys_after", FNum keys_after);
             ("response_revision", FNum rev); ("response", FText (if ok then "ok" else "error"))]], result)
  end.

(** ** The Lease service *)

Definition svc_lease_grant (addr : option string) (now : Z) (req : LeaseGrantRequest) : Handler LeaseGrantResponse :=
  let remote := remote_of addr in
  traced
    [mkLine Trace "LeaseGrant" [("remote_addr", FText remote); ("ttl", FNum (lg_ttl req)); ("requested_id", FNum (lg_id req))]]
    (lease_grant now req)
    (fun r => [mkLine Trace "LeaseGrantResp" [("remote_addr", FText remote); ("granted_id", FNum (lgs_id r));
       ("ttl", FNum (lgs_ttl r)); ("revision", FNum (header_rev (lgs_header r))); ("error", FText "");
       ("response", FText "ok")]])
    (error_line Info "LeaseGrantResp" remote).

Definition svc_lease_revoke (addr : option string) (id : Z) : Handler ResponseHeader :=
  let remote := remote_of addr in
  traced
    [mkLine Trace "LeaseRevoke" [("remote_addr", FText remote); ("id", FNum id)]]
    (lease_revoke id)
    (fun h => [mkLine Trace "LeaseRevokeResp" [("remote_addr", FText remote); ("revision", FNum (revision h));
       ("response", FText "ok")]])
    (error_line Info "LeaseRevokeResp" remote).

Definition svc_lease_time_to_live (addr : option string) (now : Z) (req : LeaseTimeToLiveRequest)
    : Handler LeaseTimeToLiveResponse :=
  let remote := remote_of addr in
  traced
    [mkLine Trace "LeaseTimeToLive" [("remote_addr", FText remote); ("id", FNum (lt_id req)); ("keys", FFlag (lt_keys req))]]
    (reading (fun s => Ok (lease_time_to_live now s req)))
    (fun r => [mkLine Trace "LeaseTimeToLiveResp" [("remote_addr", FText remote); ("id", FNum (lts_id r));
       ("ttl", FNum (lts_ttl r)); ("granted_ttl", FNum (lts_granted_ttl r));
       ("keys_count", FNum (Z.of_nat (length (lts_keys r)))); ("revision", FNum (header_rev (lts_header r)));
       ("response", FText "ok")]])
    (error_line Info "LeaseTimeToLiveResp" remote).

Definition svc_lease_leases (addr : option string) : Handler (list Z) :=
  let remote := remote_of addr in
  traced
    [mkLine Trace "LeaseLeases" [("remote_addr", FText remote)]]
    (reading (fun s => Ok (lease_leases s)))
    (fun r => [mkLine Trace "LeaseLeasesResp" [("remote_addr", FText remote);
       ("lease_count", FNum (Z.of_nat (length r))); ("response", FText "ok")]])
    (error_line Info "LeaseLeasesResp" remote).

(** *** The keep-alive stream *)

(** The spawned task reads requests and sends answers over [mpsc::channel(64)]; the
    server's transport takes them from the other end. What happens to a stream: the
    task reads a request (served at the time [now]), the end of the requests or a
    stream error, or completes the [send] it waits in; the transport takes the next
    item; the client leaves; another task executes a command. *)
Inductive KaEvent :=
| KaRequest (id now : Z)
| KaEnd
| KaError (e : string)
| KaSend
| KaTake
| KaLeave
| KaOther (c : Command).

(** Where the task is: waiting for a request, in [tx.send(..).await], or done. *)
Inductive KaPhase := KaReading | KaSending (item : KaItem) | KaFinished | KaClientGone | KaPanicked.

Record KaTask := mkKa {
  ka_store : StoreState;
  ka_lines : list Line;
  ka_queue : list KaItem;   (* in the channel *)
  ka_taken : list KaItem;   (* handed to the client *)
  ka_open : bool;           (* the receiver exists *)
  ka_phase : KaPhase }.

Definition ka_start (s : StoreState) : KaTask := mkKa s [] [] [] true KaReading.
Definition KA_CAPACITY : nat := 64.

(** Reading a request: the lease is renewed, then the answer is to be sent. *)
Definition ka_serve (remote : string) (id now : Z) (t : KaTask) : KaTask :=
  let asked := mkLine Trace "LeaseKeepAlive" [("remote_addr", FText remote); ("id", FNum id)]%string in
  let to s lines phase := mkKa s (ka_lines t ++ asked :: lines) (ka_queue t) (ka_taken t) (ka_open t) phase in
  match lease_keep_alive now id (ka_store t) with
  | (s, Ok r) =>
      to s [mkLine Trace "LeaseKeepAliveResp" [("remote_addr", FText remote); ("id", FNum (lk_id r)); ("ttl", FNum (lk_ttl r))]%string]
        (KaSending (inl r))
  | (s, Err e) =>
      to s [mkLine Trace "LeaseKeepAliveResp" [("remote_addr", FText remote); ("id", FNum id);
              ("response", FText "error"); ("error", FText (message e))]%string]
        (KaSending (inr e))
  | (s, Panic _) => to s [] KaPanicked
  end.

(** The end of the [send]: it waits for room while the receiver exists, and fails
    when it is gone, which ends the task unless the item is an error. *)
Definition ka_send (item : KaItem) (t : KaTask) : option KaTask :=
  let to queue phase := mkKa (ka_store t) (ka_lines t) queue (ka_taken t) (ka_open t) phase in
  if ka_open t then
    if (length (ka_queue t) <? KA_CAPACITY)%nat then Some (to (ka_queue t ++ [item]) KaReading) else None
  else Some (to (ka_queue t) (match item with inl _ => KaClientGone | inr _ => KaReading end)).

(** The transport hands the next item to the client. An error is the status of the
    call, with which gRPC ends it: the receiver is dropped with what it still holds. *)
Definition ka_take (t : KaTask) : option KaTask :=
  match ka_queue t with
  | [] => None
  | item :: queue =>
      let to queue open := mkKa (ka_store t) (ka_lines t) queue (ka_taken t ++ [item]) open (ka_phase t) in
      if ka_open t then Some (match item with inl _ => to queue true | inr _ => to [] false end) else None
  end.

Definition keep_alive_task (remote : string) (e : KaEvent) (t : KaTask) : option KaTask :=
  let finish lines := mkKa (ka_store t) (ka_lines t ++ lines) (ka_queue t) (ka_taken t) (ka_open t) KaFinished in
  match e, ka_phase t with
  | KaRequest id now, KaReading => Some (ka_serve remote id now t)
  | KaEnd, KaReading => Some (finish [])
  | KaError e, KaReading =>
      Some (finish [mkLine Warn "LeaseKeepAliveStreamError" [("remote_addr", FText remote); ("error", FText e)]%string])
  | KaSend, KaSending item => ka_send item t
  | KaTake, _ => ka_take t
  | KaLeave, _ => Some (mkKa (ka_store t) (ka_lines t) [] (ka_taken t) false (ka_phase t))
  | KaOther c, _ =>
      Some (mkKa (exec c (ka_store t)) (ka_lines t) (ka_queue t) (ka_taken t) (ka_open t) (ka_phase t))
  | _, _ => None
  end.

Fixpoint stream_run (remote : string) (evs : list KaEvent) (t : KaTask) : option KaTask :=
  match evs with
  | [] => Some t
  | e :: evs => match keep_alive_task remote e t with Some t => stream_run remote evs t | None => None end
  end.

(** ** The Cluster and Auth services *)

Record Member := mkMember {
  mb_id : Z; mb_name : string; mb_peer_urls : list string; mb_client_urls : list string; mb_is_learner : bool }.

Definition cluster_header (s : StoreState) : ResponseHeader := mkHeader 1 1 (i64_wrap (current_revision s)) 1.

Definition self_member : Member :=
  mkMember 1 "rudurru" ["http://localhost:2380"%string] ["http://localhost:2379"%string] false.

Inductive ClusterRpc := MemberAdd | MemberRemove | MemberUpdate | MemberList | MemberPromote.

Definition cluster_call (r : ClusterRpc) (s : StoreState) : outcome (ResponseHeader * list Member) :=
  match r with
  | MemberList => Ok (cluster_header s, [self_member])
  | MemberAdd | MemberRemove | MemberUpdate | MemberPromote => Err (mkStatus Unimplemented "single-node cluster")
  end.

Inductive AuthRpc :=
| AuthEnable | AuthDisable | Authenticate | UserAdd | UserGet | UserList | UserDelete | UserChangePassword
| UserGrantRole | UserRevokeRole | RoleAdd | RoleGet | RoleList | RoleDelete | RoleGrantPermission | RoleRevokePermission.

(** No method of the Auth service answers. *)
Definition auth_call (r : AuthRpc) : outcome unit := Err (mkStatus Unimplemented "not implemented").

(** ** The server *)

(** The unary requests, all services taken together (src/main.rs adds one of each
    on the same store). *)
Inductive Rpc :=
| RpcRange (req : RangeRequest)
| RpcPut (req : PutRequest)
| RpcDeleteRange (req : DeleteRangeRequest)
| RpcTxn (req : TxnRequest)
| RpcCompact (req : CompactionRequest)
| RpcLeaseGrant (req : LeaseGrantRequest)
| RpcLeaseRevoke (id : Z)
| RpcLeaseTimeToLive (req : LeaseTimeToLiveRequest)
| RpcLeaseLeases
| RpcCluster (r : ClusterRpc)
| RpcAuth (r : AuthRpc)
| RpcAlarm
| RpcStatus
| RpcDefragment
| RpcHash
| RpcHashKv
| RpcMoveLeader.

Inductive RpcResponse :=
| RespRange (r : RangeResponse)
| RespPut (r : PutResponse)
| RespDeleteRange (r : DeleteRangeResponse)
| RespTxn (r : TxnResponse)
| RespHeader (h : option ResponseHeader)
| RespLeaseGrant (r : LeaseGrantResponse)
| RespTimeToLive (r : LeaseTimeToLiveResponse)
| RespLeases (ids : list Z)
| RespMembers (r : ResponseHeader * list Member)
| RespAlarms (r : option ResponseHeader * list Z)
| RespStatus (r : StatusResponse)
| RespHash (r : ResponseHeader * Z)
| RespHashKv (r : ResponseHeader * Z * Z)
| RespUnit.

Definition wrap {A} (f : A -> RpcResponse) (h : Handler A) : Handler RpcResponse := fun s =>
  match h s with
  | (s, ls, Ok a) => (s, ls, Ok (f a))
  | (s, ls, Err e) => (s, ls, Err e)
  | (s, ls, Panic w) => (s, ls, Panic w)
  end.

Definition serve (addr : option string) (now : Z) (r : Rpc) : Handler RpcResponse :=
  let silent {A} (f : StoreState -> outcome A) : Handler A := traced [] (reading f) (fun _ => []) (fun _ => []) in
  match r with
  | RpcRange req => wrap RespRange (kv_range addr req)
  | RpcPut req => wrap RespPut (kv_put addr req)
  | RpcDeleteRange req => wrap RespDeleteRange (kv_delete_range addr req)
  | RpcTxn req => wrap RespTxn (kv_txn addr req)
  | RpcCompact req => wrap (fun h => RespHeader (Some h)) (kv_compact addr req)
  | RpcLeaseGrant req => wrap RespLeaseGrant (svc_lease_grant addr now req)
  | RpcLeaseRevoke id => wrap (fun h => RespHeader (Some h)) (svc_lease_revoke addr id)
  | RpcLeaseTimeToLive req => wrap RespTimeToLive (svc_lease_time_to_live addr now req)
  | RpcLeaseLeases => wrap RespLeases (svc_lease_leases addr)
  | RpcCluster c => wrap RespMembers (silent (cluster_call c))
  | RpcAuth a => wrap (fun _ => RespUnit) (silent (fun _ => auth_call a))
  | RpcAlarm => wrap RespAlarms (silent (fun s => Ok (alarm s)))
  | RpcStatus => wrap RespStatus (silent (fun s => Ok (status s)))
  | RpcDefragment => wrap RespHeader (silent (fun _ => Ok defragment))
  | RpcHash => wrap RespHash (silent (fun s => Ok (hash hs_new hs_length_prefix hs_write hs_finish s)))
  | RpcHashKv => wrap RespHashKv (silent (fun s => Ok (hash_kv hs_new hs_length_prefix hs_write hs_finish s)))
  | RpcMoveLeader => wrap (fun _ => RespUnit) (silent (fun _ => move_leader))
  end.

(** Requests arriving one after the other, each with its time. A panic ends the
    process ([panic = "abort"] in Cargo.toml): the requests behind it get no answer.
    The last component tells whether the server is still there. *)
Fixpoint serve_all (reqs : list (option string * Z * Rpc)) (s : StoreState)
    : StoreState * list (RpcResponse + Status) * bool :=
  match reqs with
  | [] => (s, [], true)
  | (addr, now, r) :: reqs =>
      match serve addr now r s with
      | (s, _, Ok a) => let '(s, answers, alive) := serve_all reqs s in (s, inl a :: answers, alive)
      | (s, _, Err e) => let '(s, answers, alive) := serve_all reqs s in (s, inr e :: answers, alive)
      | (s, _, Panic _) => (s, [], false)
      end
  end.

(** ** Proofs *)

(** The command a request amounts to; [None] for one that only reads. *)
Definition command_of (now : Z) (r : Rpc) : option Command :=
  match r with
  | RpcPut req => Some (CmdPut req)
  | RpcDeleteRange req => Some (CmdDeleteRange req)
  | RpcTxn req => Some (CmdTxn req)
  | RpcCompact req => Some (CmdCompact (cq_revision req))
  | RpcLeaseGrant req => Some (CmdLeaseGrant now req)
  | RpcLeaseRevoke id => Some (CmdLeaseRevoke id)
  | _ => None
  end.

Definition effect_of (now : Z) (r : Rpc) (s : StoreState) : StoreState :=
  match command_of now r with Some c => exec c s | None => s end.

Lemma traced_store {A} before (m : M A) ok err s :
  (traced before m ok err s).1.1 = (m s).1 /\ (traced before m ok err s).2 = (m s).2.
Proof. unfold traced. by destruct (m s) as [s' []]. Qed.

Lemma wrap_store {A} (f : A -> RpcResponse) h s :
  (wrap f h s).1 = (h s).1
  /\ (wrap f h s).2 = match (h s).2 with Ok a => Ok (f a) | Err e => Err e | Panic w => Panic w end.
Proof. unfold wrap. by destruct (h s) as [[s' ls] []]. Qed.

Lemma serve_effect addr now r s : (serve addr now r s).1.1 = effect_of now r s.
Proof.
  destruct r; cbn [serve effect_of]; unfold effect_of; cbn [command_of exec];
    rewrite (proj1 (wrap_store _ _ _)); try apply traced_store.
  - destruct req. apply traced_store.
  - unfold kv_compact. by destruct (compact _ s) as [s' []].
Qed.

(** *** Verdicts *)

(** What becomes of a request, from the state and the request alone. *)
Definition rpc_verdict (s : StoreState) (r : Rpc) : fate :=
  match r with
  | RpcRange req => range_verdict s req
  | RpcPut req => put_verdict (leases s) (keys s) req
  | RpcDeleteRange req => delete_verdict req
  | RpcTxn req => txn_verdict s req
  | RpcCompact req => compact_verdict s (cq_revision req)
  | RpcLeaseGrant req => grant_verdict s req
  | RpcLeaseRevoke id => revoke_verdict s id
  | RpcCluster MemberList => Answers
  | RpcCluster _ | RpcAuth _ | RpcMoveLeader => Refuses
  | RpcLeaseTimeToLive _ | RpcLeaseLeases | RpcAlarm | RpcStatus | RpcDefragment | RpcHash | RpcHashKv => Answers
  end.

(** The verdicts of a sequence of requests, up to and including a fatal one. *)
Fixpoint verdicts (reqs : list (option string * Z * Rpc)) (s : StoreState) : list fate :=
  match reqs with
  | [] => []
  | (_, now, r) :: reqs =>
      rpc_verdict s r :: match rpc_verdict s r with Dies => [] | _ => verdicts reqs (effect_of now r s) end
  end.

(** A command within the bounds of its types, at a time within those of the clock. *)
Definition rpc_ok (now : Z) (r : Rpc) (s : StoreState) : Prop :=
  clock_ok now
  /\ match command_of now r with Some c => cmd_ok c s | None => True end
  /\ match r with RpcCompact req => is_i64 (cq_revision req) | RpcLeaseGrant req => is_i64 (lg_ttl req) | _ => True end.

Fixpoint reqs_ok (reqs : list (option string * Z * Rpc)) (s : StoreState) : Prop :=
  match reqs with
  | [] => True
  | (_, now, r) :: reqs => rpc_ok now r s /\ (rpc_verdict s r <> Dies -> reqs_ok reqs (effect_of now r s))
  end.

Definition answer_kind (a : RpcResponse + Status) : fate := match a with inl _ => Answers | inr _ => Refuses end.

Lemma kind_wrap {A} (f : A -> RpcResponse) h s : kind (wrap f h s).2 = kind (h s).2.
Proof. unfold wrap. by destruct (h s) as [[s' ls] []]. Qed.

Lemma kind_traced {A} before (m : M A) ok err s : kind (traced before m ok err s).2 = kind (m s).2.
Proof. by rewrite (proj2 (traced_store before m ok err s)). Qed.

Lemma serve_verdict y addr now r :
  rtc sys_step sys_init y -> rpc_ok now r (sys_store y) ->
  kind (serve addr now r (sys_store y)).2 = rpc_verdict (sys_store y) r.
Proof.
  intros Hy (Hc & Hok & Hi). destruct (sys_reachable y Hy) as (I & rs & D). pose proof (du_faults _ _ D) as Hw.
  set (s := sys_store y) in *. destruct r; cbn [serve rpc_verdict]; rewrite kind_wrap.
  - unfold kv_range. rewrite kind_traced. by apply (kind_range s rs).
  - unfold kv_put. rewrite kind_traced. destruct Hok. by apply kind_put.
  - unfold kv_delete_range. rewrite kind_traced. by apply kind_delete_range.
  - destruct req as [cmp suc fl]. unfold kv_txn. rewrite kind_traced. by apply kind_txn.
  - rewrite <- (kind_compact s (cq_revision req) I Hi). unfold kv_compact. by destruct (compact _ s) as [s' []].
  - unfold svc_lease_grant. rewrite kind_traced. by apply kind_lease_grant.
  - unfold svc_lease_revoke. rewrite kind_traced. by apply kind_lease_revoke.
  - done.
  - done.
  - rewrite kind_traced. by destruct r.
  - done.
  - done.
  - done.
  - done.
  - done.
  - done.
  - done.
Qed.

Lemma serve_step y addr now r :
  rtc sys_step sys_init y -> rpc_ok now r (sys_store y) ->
  rtc sys_step sys_init (mkSys (serve addr now r (sys_store y)).1.1 (sys_compaction y)).
Proof.
  intros Hy (_ & Hok & _). rewrite serve_effect. unfold effect_of. destruct y as [s cp]. cbn [sys_store sys_compaction] in *.
  destruct (command_of now r) as [c|]; [|done]. eapply rtc_r; [exact Hy|by apply ss_cmd].
Qed.

Lemma serve_all_run reqs y :
  rtc sys_step sys_init y -> reqs_ok reqs (sys_store y) ->
  let '(s, answers, alive) := serve_all reqs (sys_store y) in
  rtc sys_step sys_init (mkSys s (sys_compaction y))
  /\ (answer_kind <$> answers) ++ (if alive then [] else [Dies])
     = verdicts reqs (sys_store y).
Proof.
  revert y. induction reqs as [|[[addr now] r] reqs IH]; intros y Hy; cbn [reqs_ok serve_all verdicts].
  { intros _. by destruct y. }
  intros [Hok Hrest]. pose proof (serve_verdict y addr now r Hy Hok) as Hv. pose proof (serve_step y addr now r Hy Hok) as Hs.
  pose proof (serve_effect addr now r (sys_store y)) as He.
  destruct (serve addr now r (sys_store y)) as [[s1 ls] o]. cbn [fst snd] in *. rewrite <- He in Hrest |- *.
  destruct o as [a|e|w]; cbn [kind] in Hv; rewrite <- Hv in *; [..|done].
  all: specialize (IH (mkSys s1 (sys_compaction y)) Hs (Hrest ltac:(done))); cbn [sys_store sys_compaction] in IH.
  all: destruct (serve_all reqs s1) as [[s2 answers] alive]; destruct IH as [IH1 IH2]; split; [done|]; cbn; by rewrite <- IH2.
Qed.

Lemma serve_all_alive reqs s :
  let '(_, answers, alive) := serve_all reqs s in alive = true -> length answers = length reqs.
Proof.
  revert s. induction reqs as [|[[addr now] r] reqs IH]; intros s; [done|]. cbn [serve_all].
  destruct (serve addr now r s) as [[s1 ls] [a|e|w]]; [..|done]; specialize (IH s1);
    destruct (serve_all reqs s1) as [[s2 answers] alive]; intros Ha; cbn; by rewrite IH.
Qed.

(** *** What the lines say *)

(** Lines that do not mention the outcome. *)
Definition mute (l : Line) : Prop := Forall (fun f => f.1 <> "response"%string) (ln_fields l).

(** Some line reports the outcome as [t]. *)
Definition reports (t : string) (ls : list Line) : Prop := exists l, l ∈ ls /\ ("response"%string, FText t) ∈ ln_fields l.

Lemma mute_reports t ls : Forall mute ls -> ~ reports t ls.
Proof.
  intros Hm (l & Hl & Hf). eapply Forall_forall in Hm; [|exact Hl]. eapply Forall_forall in Hm; [|exact Hf]. done.
Qed.

Lemma reports_app t ls ls' : Forall mute ls -> reports t (ls ++ ls') <-> reports t ls'.
Proof.
  intros Hm. split.
  - intros (l & [Hl|Hl]%elem_of_app & Hf); [|by exists l]. exfalso. eapply mute_reports; [exact Hm|]. by exists l.
  - intros (l & Hl & Hf). exists l. split; [|done]. apply elem_of_app. by right.
Qed.

(** A handler whose lines tell success from failure. *)
Definition truthful {A} (h : Handler A) : Prop := forall s,
  match (h s).2 with
  | Ok _ => ~ reports "error" (h s).1.2
  | Err _ => ~ reports "ok" (h s).1.2
  | Panic _ => ~ reports "ok" (h s).1.2 /\ ~ reports "error" (h s).1.2
  end.

Lemma traced_truthful {A} before (m : M A) ok err :
  Forall mute before -> (forall a, ~ reports "error" (ok a)) -> (forall e, ~ reports "ok" (err e)) ->
  truthful (traced before m ok err).
Proof.
  intros Hb Hok Herr s. unfold traced. destruct (m s) as [s' [a|e|w]]; cbn.
  - by rewrite reports_app.
  - by rewrite reports_app.
  - by split; apply mute_reports.
Qed.

Lemma wrap_truthful {A} (f : A -> RpcResponse) h : truthful h -> truthful (wrap f h).
Proof. intros Hh s. specialize (Hh s). unfold wrap. by destruct (h s) as [[s' ls] []]. Qed.

Lemma mute_log_each {A} remote name (f : A -> Line) l : (forall a, mute (f a)) -> Forall mute (log_each remote name f l).
Proof.
  intros Hf. apply Forall_concat, Forall_forall. intros ls (i & a & -> & _)%elem_of_lookup_imap.
  repeat constructor; [done..|apply Hf].
Qed.

(** One line, listed field by field. *)
Ltac scan_fields :=
  repeat match goal with
         | |- ~ reports _ _ => intros (? & ?Hl & ?Hf)
         | H : _ ∈ [] |- _ => by apply not_elem_of_nil in H
         | H : _ ∈ _ :: _ |- _ => apply elem_of_cons in H as [H|H]
         | H : _ = mkLine _ _ _ |- _ => subst; cbn in *
         | H : (_, _) = (_, _) |- _ => discriminate H
         end.

Lemma error_line_not_ok level name remote e : ~ reports "ok" (error_line level name remote e).
Proof. unfold error_line. scan_fields. Qed.

Lemma serve_truthful addr now r : truthful (serve addr now r).
Proof.
  assert (forall A (f : StoreState -> outcome A), truthful (traced [] (reading f) (fun _ => []) (fun _ => []))) as Hsilent
    by (intros A f; apply traced_truthful; [done|by intros _; apply mute_reports..]).
  destruct r; cbn [serve]; apply wrap_truthful; try apply Hsilent.
  all: try (apply traced_truthful; [by repeat constructor|intros a; scan_fields|apply error_line_not_ok || (intros e; scan_fields)]).
  - destruct req as [cmp suc fl]. apply traced_truthful; [|intros []|apply error_line_not_ok].
    + constructor; [by repeat constructor|]. repeat (apply Forall_app; split); apply mute_log_each; intros []; by repeat constructor.
    + intros (l & [->|Hl]%elem_of_cons & Hf); [cbn in Hf; scan_fields|].
      eapply (mute_reports "error"); [|by exists l]. apply mute_log_each. intros []; by repeat constructor.
  - intros s. unfold kv_compact. destruct (compact _ s) as [s' [h|e|w]]; cbn; [scan_fields|scan_fields|]. split; scan_fields.
Qed.

(** *** The keep-alive stream *)

Definition keep_alive_answer (id : Z) (s : StoreState) : LeaseKeepAliveResponse + Status :=
  match leases s !! id with
  | Some l => inl (mkKeepAlive (Some (state_header s)) id (ls_ttl l))
  | None => inr (mkStatus NotFound "etcdserver: lease not found")
  end.

(** What an event asks of the store, and the answer due for it. *)
Definition ka_command (e : KaEvent) : option Command :=
  match e with KaRequest id now => Some (CmdLeaseKeepAlive now id) | KaOther c => Some c | _ => None end.

Definition ka_effect (e : KaEvent) (s : StoreState) : StoreState :=
  match ka_command e with Some c => exec c s | None => s end.

Definition ka_due (e : KaEvent) (s : StoreState) : list KaItem :=
  match e with KaRequest id _ => [keep_alive_answer id s] | _ => [] end.

(** One answer per request, each for the state it is served in. *)
Fixpoint keep_alive_answers (evs : list KaEvent) (s : StoreState) : list KaItem :=
  match evs with [] => [] | e :: evs => ka_due e s ++ keep_alive_answers evs (ka_effect e s) end.

(** The times are within the clock, and the other commands are well-sized. *)
Definition ka_event_ok (e : KaEvent) (s : StoreState) : Prop :=
  match e with KaRequest _ now => clock_ok now | KaOther c => cmd_ok c s | _ => True end.

Fixpoint ka_ok (evs : list KaEvent) (s : StoreState) : Prop :=
  match evs with [] => True | e :: evs => ka_event_ok e s /\ ka_ok evs (ka_effect e s) end.

(** What a call can deliver of a list of answers: up to and including an error. *)
Fixpoint until_error (l : list KaItem) : list KaItem :=
  match l with [] => [] | inr e :: _ => [inr e] | inl r :: l => inl r :: until_error l end.

Definition granted (l : list KaItem) : Prop := Forall (fun i => exists r, i = inl r) l.

Lemma until_error_granted l l' : granted l -> until_error (l ++ l') = l ++ until_error l'.
Proof. induction 1 as [|i l [r ->] Hl IH]; [done|]. cbn. by rewrite IH. Qed.

Lemma until_error_ended l e l' l'' : granted l -> until_error ((l ++ inr e :: l') ++ l'') = l ++ [inr e].
Proof. intros Hl. by rewrite <- app_assoc, until_error_granted. Qed.

Lemma until_error_prefix l l' : until_error l `prefix_of` until_error (l ++ l').
Proof. induction l as [|[r|e] l IH]; [apply prefix_nil|by apply prefix_cons|done]. Qed.

Definition ka_pending (t : KaTask) : list KaItem := match ka_phase t with KaSending i => [i] | _ => [] end.

(** How the items of a stream relate to the answers due so far; [left] tells whether
    the client has left. *)
Record ka_inv (left : bool) (answers : list KaItem) (t : KaTask) : Prop := {
  ki_panic : ka_phase t <> KaPanicked;
  ki_gone : ka_phase t = KaClientGone -> ka_open t = false;
  ki_open : ka_open t = true -> granted (ka_taken t) /\ answers = ka_taken t ++ ka_queue t ++ ka_pending t;
  ki_ended : ka_open t = false ->
    (left = false -> exists l e l', granted l /\ answers = l ++ inr e :: l' /\ ka_taken t = l ++ [inr e])
    /\ ka_taken t `prefix_of` until_error answers }.

Lemma ka_inv_prefix left answers t : ka_inv left answers t -> ka_taken t `prefix_of` until_error answers.
Proof.
  intros [_ _ Ho He]. destruct (ka_open t); [|by apply He]. destruct (Ho eq_refl) as [Hg ->].
  rewrite until_error_granted by done. by eexists.
Qed.

Lemma ka_inv_more left answers t i phase :
  ka_inv left answers t -> ka_phase t = KaReading -> phase = KaSending i ->
  forall s lines, ka_inv left (answers ++ [i]) (mkKa s lines (ka_queue t) (ka_taken t) (ka_open t) phase).
Proof.
  intros [_ _ Ho He] Hp -> s lines. split; [done|done| |]; cbn [ka_open ka_taken ka_queue].
  - intros Hop. destruct (Ho Hop) as [Hg ->]. split; [done|]. unfold ka_pending. rewrite Hp. cbn.
    by rewrite app_nil_r, <- app_assoc.
  - intros Hop. destruct (He Hop) as [Hend Hpre]. split.
    + intros Hl. destruct (Hend Hl) as (l & e & l' & Hg & -> & Et). exists l, e, (l' ++ [i]). by rewrite <- app_assoc.
    + etrans; [exact Hpre|apply until_error_prefix].
Qed.

Definition is_leave (e : KaEvent) : bool := match e with KaLeave => true | _ => false end.

Lemma ka_serve_inv remote id now t left answers :
  lease_ok (ka_store t) -> clock_ok now -> ka_phase t = KaReading -> ka_inv left answers t ->
  ka_inv left (answers ++ [keep_alive_answer id (ka_store t)]) (ka_serve remote id now t)
  /\ ka_store (ka_serve remote id now t) = exec (CmdLeaseKeepAlive now id) (ka_store t).
Proof.
  intros L Hc Hp Hi. pose proof (keep_alive_run (ka_store t) now id (lo_ttl _ L) Hc) as Hr.
  unfold ka_serve, keep_alive_answer. cbn [exec]. destruct (leases (ka_store t) !! id) as [l|].
  - destruct Hr as (s1 & -> & _). split; [|done]. by eapply ka_inv_more.
  - rewrite Hr. split; [|done]. by eapply ka_inv_more.
Qed.

Lemma ka_send_inv t t' item left answers :
  ka_phase t = KaSending item -> ka_send item t = Some t' -> ka_inv left answers t -> ka_inv left answers t'.
Proof.
  intros Hp. unfold ka_send. destruct (ka_open t) eqn:Eo.
  - destruct (_ <? _)%nat; [|done]. intros [= <-] [_ _ Ho _]. destruct (Ho Eo) as [Hg Ha]. split; try done.
    cbn. intros _. split; [done|]. unfold ka_pending in *. rewrite Hp in Ha. cbn. by rewrite app_nil_r.
  - intros [= <-] [_ _ _ He]. split; cbn; rewrite ?Eo; [by destruct item|done|done|intros _; exact (He Eo)].
Qed.

Lemma ka_take_inv t t' left answers : ka_take t = Some t' -> ka_inv left answers t -> ka_inv left answers t'.
Proof.
  unfold ka_take. destruct (ka_queue t) as [|[r|e] queue] eqn:Eq; [done|..].
  all: destruct (ka_open t) eqn:Eo; [|done]; intros [= <-] [Hn Hg Ho _]; destruct (Ho Eo) as [Hgr Ha]; rewrite Eq in Ha.
  - split; cbn [ka_phase ka_open ka_taken ka_queue]; try done; [intros Hc; specialize (Hg Hc); congruence|].
    intros _. split; [apply Forall_app; split; [done|by repeat econstructor]|]. by rewrite <- app_assoc.
  - assert (exists l', answers = ka_taken t ++ inr e :: l') as [l' ->] by (eexists; rewrite Ha; done).
    split; cbn [ka_phase ka_open ka_taken ka_queue]; try done. intros _. split.
    + intros _. by exists (ka_taken t), e, l'.
    + rewrite until_error_granted by done. done.
Qed.

Lemma ka_step_inv remote e t t' left answers :
  lease_ok (ka_store t) -> ka_event_ok e (ka_store t) -> keep_alive_task remote e t = Some t' -> ka_inv left answers t ->
  ka_inv (left || is_leave e) (answers ++ ka_due e (ka_store t)) t' /\ ka_store t' = ka_effect e (ka_store t).
Proof.
  intros L Hok E Hi. unfold keep_alive_task in E. destruct e as [id now| |er| | | |c];
    cbn [ka_due is_leave]; rewrite ?app_nil_r, ?orb_false_r.
  - destruct (ka_phase t) eqn:Ep; try done. injection E as <-. by apply ka_serve_inv.
  - destruct (ka_phase t) eqn:Ep; try done. injection E as <-. split; [|done]. destruct Hi as [_ _ Ho He].
    split; try done. unfold ka_pending in *. rewrite Ep in Ho. done.
  - destruct (ka_phase t) eqn:Ep; try done. injection E as <-. split; [|done]. destruct Hi as [_ _ Ho He].
    split; try done. unfold ka_pending in *. rewrite Ep in Ho. done.
  - destruct (ka_phase t) as [|item| | |] eqn:Ep; try done. split; [by eapply ka_send_inv|].
    revert E. unfold ka_send. by repeat case_match; intros; simplify_eq.
  - split; [eapply ka_take_inv; [|done]; by destruct (ka_phase t)|].
    assert (ka_take t = Some t') as E' by by destruct (ka_phase t).
    revert E'. unfold ka_take. by repeat case_match; intros; simplify_eq.
  - assert (t' = mkKa (ka_store t) (ka_lines t) [] (ka_taken t) false (ka_phase t)) as -> by (destruct (ka_phase t); congruence).
    split; [|done]. pose proof (ka_inv_prefix _ _ _ Hi) as Hpre. destruct Hi as [Hn _ _ _]. split; cbn; try done.
    intros _. split; [by destruct left|done].
  - assert (t' = mkKa (exec c (ka_store t)) (ka_lines t) (ka_queue t) (ka_taken t) (ka_open t) (ka_phase t)) as ->
      by (destruct (ka_phase t); congruence).
    split; [|done]. by destruct Hi.
Qed.

Lemma ka_run_inv remote evs y t t' left answers :
  sys_inv y -> ka_store t = sys_store y -> lease_ok (sys_store y) -> ka_ok evs (sys_store y) ->
  stream_run remote evs t = Some t' -> ka_inv left answers t ->
  ka_inv (left || existsb is_leave evs) (answers ++ keep_alive_answers evs (sys_store y)) t'
  /\ rtc sys_step y (mkSys (ka_store t') (sys_compaction y)).
Proof.
  revert y t left answers. induction evs as [|e evs IH]; intros [s cp] t left answers I Es L; cbn [ka_ok stream_run keep_alive_answers existsb sys_store sys_compaction] in *.
  { intros _ [= <-] Hi. rewrite orb_false_r, app_nil_r, Es. done. }
  intros [Hok Hoks]. destruct (keep_alive_task remote e t) as [t1|] eqn:E; [|done]. intros Hr Hi.
  rewrite <- Es in L, Hok. destruct (ka_step_inv remote e t t1 left answers L Hok E Hi) as [Hi1 Es1]. rewrite Es in *.
  assert (mkSys (ka_effect e s) cp = mkSys s cp \/ sys_step (mkSys s cp) (mkSys (ka_effect e s) cp)) as T.
  { unfold ka_effect. destruct e; cbn [ka_command]; try (by left); right; by apply ss_cmd. }
  assert (sys_inv (mkSys (ka_effect e s) cp) /\ lease_ok (ka_effect e s)) as [I1 L1].
  { destruct T as [[= ->]|T]; [done|]. split; [by eapply sys_step_inv|by apply (sys_step_lease_ok _ _ T I L)]. }
  assert (rtc sys_step (mkSys s cp) (mkSys (ka_effect e s) cp)) as Ts by (destruct T as [->|T]; [done|by apply rtc_once]).
  destruct (IH (mkSys (ka_effect e s) cp) t1 _ _ I1 Es1 L1 Hoks Hr Hi1) as [Hi2 R]. split; [|by etrans].
  cbn [sys_store] in Hi2. by rewrite <- orb_assoc, <- app_assoc in Hi2.
Qed.

(** The task and the transport alone. *)
Definition is_delivery (e : KaEvent) : bool := match e with KaSend | KaTake => true | _ => false end.

(** While the client stays, they hand over everything a call can deliver. *)
Lemma ka_drain remote t answers :
  ka_inv false answers t ->
  exists more t', Forall (fun e => is_delivery e = true) more /\ (length more <= length (ka_queue t) + 2)%nat
    /\ stream_run remote more t = Some t' /\ ka_taken t' = until_error answers /\ ka_store t' = ka_store t.
Proof.
  remember (length (ka_queue t)) as n eqn:Hn. revert t Hn. induction n as [|n IH]; intros t Hn Hi.
  - destruct (ka_open t) eqn:Eo.
    2:{ exists [], t. destruct (ki_ended _ _ _ Hi Eo) as [Hend _]. destruct (Hend eq_refl) as (l & e & l' & Hg & -> & Et).
        rewrite until_error_granted by done. split_and!; try done; cbn; lia. }
    destruct (ki_open _ _ _ Hi Eo) as [Hg Ha]. destruct (ka_queue t) as [|? ?] eqn:Eq; [|done]. cbn [app] in Ha.
    unfold ka_pending in Ha. destruct (ka_phase t) as [|item| | |] eqn:Ep.
    2:{ exists [KaSend; KaTake]. cbn [stream_run keep_alive_task]. rewrite Ep. unfold ka_send. rewrite Eo, Eq. cbn.
        eexists. split_and!; [by repeat constructor|lia|done| |by destruct item].
        rewrite Ha, until_error_granted by done. by destruct item. }
    all: exists [], t; rewrite Ha, app_nil_r, <- (app_nil_r (ka_taken t)), until_error_granted by done.
    all: split_and!; try done; cbn; try lia; by rewrite !app_nil_r.
  - destruct (ka_open t) eqn:Eo.
    2:{ exists [], t. destruct (ki_ended _ _ _ Hi Eo) as [Hend _]. destruct (Hend eq_refl) as (l & e & l' & Hg & -> & Et).
        rewrite until_error_granted by done. split_and!; try done; cbn; lia. }
    destruct (ka_queue t) as [|item queue] eqn:Eq; [done|].
    assert (exists t1, ka_take t = Some t1 /\ ka_store t1 = ka_store t
      /\ (item = item -> length (ka_queue t1) = n \/ ka_open t1 = false)) as (t1 & Et & Est & Hcase).
    { unfold ka_take. rewrite Eq, Eo. eexists. split; [done|]. split; [by destruct item|]. intros _.
      destruct item; [left|by right]. cbn in *. lia. }
    pose proof (ka_take_inv _ _ _ _ Et Hi) as Hi1.
    assert (keep_alive_task remote KaTake t = Some t1) as Ek by (rewrite <- Et; unfold keep_alive_task; by destruct (ka_phase t)).
    destruct (Hcase eq_refl) as [Hl|Hc].
    + destruct (IH t1 (eq_sym Hl) Hi1) as (more & t' & Hd & Hlen & Hr & Htk & Hst). exists (KaTake :: more), t'.
      cbn [stream_run length]. rewrite Ek. split_and!; try done; [by constructor|lia|congruence].
    + exists [KaTake], t1. cbn [stream_run length]. rewrite Ek.
      destruct (ki_ended _ _ _ Hi1 Hc) as [Hend _]. destruct (Hend eq_refl) as (l & e & l' & Hg & -> & Ets).
      rewrite until_error_granted by done. split_and!; try done; [by repeat constructor|lia].
Qed.
(** ** Properties *)

(** C15. Availability. Let any sequence of unary requests of all services, hashes
    included, arrive at a server in a reachable state. Which of them are answered,
    which are refused with an error, and which kills the process is decided by
    [rpc_verdict] from the request and the state it finds: fatal are exactly the
    reads and deletions of an inverted range and the current reads whose limit (or,
    without one, whose number of keys) overflows the capacity of a vector, inside a
    transaction too. Every request up to a fatal one
    gets one answer, none behind it does; without one the server lives. Whatever
    happened, the log it leaves restarts with exactly the live keys of the memory it
    had, the writes of a transaction that died half way included. *)
Theorem server_availability y reqs now :
  rtc sys_step sys_init y -> reqs_ok reqs (sys_store y) -> clock_ok now ->
  let '(s, answers, alive) := serve_all reqs (sys_store y) in
  (answer_kind <$> answers) ++ (if alive then [] else [Dies])
  = verdicts reqs (sys_store y)
  /\ (alive = true <-> Dies ∉ verdicts reqs (sys_store y))
  /\ (alive = true -> length answers = length reqs)
  /\ exists s', open_store now (file (wal s)) = Ok s' /\ view (keys s') = view (keys s).
Proof.
  intros Hr Hok Hc. pose proof (serve_all_run reqs y Hr Hok) as Ht. pose proof (serve_all_alive reqs (sys_store y)) as Hl.
  destruct (serve_all reqs (sys_store y)) as [[s answers] alive]. destruct Ht as [Hy Hv]. split; [done|]. split; [|split; [done|]].
  - rewrite <- Hv. split; [intros ->|].
    + rewrite app_nil_r. by intros ([] & ? & _)%list_elem_of_fmap.
    + destruct alive; [done|]. intros Hn. destruct Hn. apply elem_of_app. right. by left.
  - apply sys_reachable in Hy as (I & rs & D'). destruct (reopen _ rs now I D' Hc) as (s' & E & _ & _ & Ev & _). by exists s'.
Qed.

(** The lines tell the truth. No line of a request that failed reports success,
    none of one that succeeded reports an error, and one that panicked reports
    neither; and the answer is the store's own, passed on unchanged. *)
Theorem handlers_report_faithfully addr now r s :
  let '(s', lines, o) := serve addr now r s in
  s' = effect_of now r s
  /\ match o with
     | Ok _ => ~ reports "error" lines
     | Err _ => ~ reports "ok" lines
     | Panic _ => ~ reports "ok" lines /\ ~ reports "error" lines
     end
  /\ match r with
     | RpcPut req => o = (match (put req s).2 with Ok a => Ok (RespPut a) | Err e => Err e | Panic w => Panic w end)
     | RpcDeleteRange req =>
         o = (match (delete_range req s).2 with Ok a => Ok (RespDeleteRange a) | Err e => Err e | Panic w => Panic w end)
     | RpcTxn req => o = (match (txn req s).2 with Ok a => Ok (RespTxn a) | Err e => Err e | Panic w => Panic w end)
     | RpcRange req => o = (match range s req with Ok a => Ok (RespRange a) | Err e => Err e | Panic w => Panic w end)
     | RpcCluster c => c <> MemberList -> o = Err (mkStatus Unimplemented "single-node cluster")
     | RpcAuth _ => o = Err (mkStatus Unimplemented "not implemented")
     | _ => True
     end.
Proof.
  pose proof (serve_effect addr now r s) as He. pose proof (serve_truthful addr now r s) as Ht.
  destruct (serve addr now r s) as [[s' lines] o] eqn:E. cbn in He, Ht. split; [done|]. split; [done|].
  assert (o = (serve addr now r s).2) as -> by by rewrite E. clear.
  destruct r; try done; cbn [serve]; rewrite (proj2 (wrap_store _ _ _)).
  - unfold kv_range. by rewrite (proj2 (traced_store _ _ _ _ _)).
  - unfold kv_put. by rewrite (proj2 (traced_store _ _ _ _ _)).
  - unfold kv_delete_range. by rewrite (proj2 (traced_store _ _ _ _ _)).
  - destruct req. cbn [kv_txn]. by rewrite (proj2 (traced_store _ _ _ _ _)).
  - intros Hne. rewrite (proj2 (traced_store _ _ _ _ _)). by destruct r.
Qed.

(** C29. The keep-alive stream. From every reachable state, however requests, other
    tasks' commands, the channel and the client interleave, the task does not panic;
    what the client has received is a prefix of the answers due, in order, each for
    the state its request was served in: the time to live of the lease, or for an
    unknown lease the error, which ends the call and is therefore the last item.
    While the client stays, the channel and the transport alone, in at most two steps
    more than the items in the channel, deliver all of it. *)
Theorem keep_alive_stream_answers y remote evs t :
  rtc sys_step sys_init y -> ka_ok evs (sys_store y) ->
  stream_run remote evs (ka_start (sys_store y)) = Some t ->
  let answers := keep_alive_answers evs (sys_store y) in
  rtc sys_step sys_init (mkSys (ka_store t) (sys_compaction y))
  /\ ka_phase t <> KaPanicked
  /\ ka_taken t `prefix_of` until_error answers
  /\ (KaLeave ∉ evs -> exists more t',
        Forall (fun e => is_delivery e = true) more /\ (length more <= length (ka_queue t) + 2)%nat
        /\ stream_run remote more t = Some t' /\ ka_taken t' = until_error answers).
Proof.
  intros Hr Hok Hrun answers.
  assert (ka_inv false [] (ka_start (sys_store y))) as Hi by (split; try done; intros _; split; [constructor|done]).
  destruct (ka_run_inv remote evs y (ka_start (sys_store y)) t false [] (sys_reachable_inv y Hr) eq_refl (sys_lease_ok y Hr) Hok Hrun Hi) as [Ht R].
  cbn [orb app] in Ht. fold answers in Ht. split; [by etrans|]. split; [apply Ht|]. split; [by eapply ka_inv_prefix|].
  intros Hl. replace (existsb is_leave evs) with false in Ht.
  - destruct (ka_drain remote t answers Ht) as (more & t' & ? & ? & ? & ? & _). by exists more, t'.
  - symmetry. apply not_true_is_false. intros ([] & Hin & ?)%existsb_exists; try done. by apply Hl, list_elem_of_In.
Qed.

End Services.

#[local] Existing Instance bitwise_crc.
#[local] Existing Instance ref_decoder.
#[local] Existing Instance merge_sort_impl.

#[local] Instance sum_hasher : Hasher := mkHasher Z 0 Z.add (fun b h => h * 31 + from_le b) id.

Definition demo_requests : list (option string * Z * Rpc) :=
  [(Some "client"%string, 0, RpcPut (put_req "x" "1")); (None, 0, RpcAuth UserList);
   (None, 1, RpcLeaseGrant (mkGrant 10 7)); (None, 2, RpcDeleteRange (del_req "a")); (None, 2, RpcHash);
   (None, 3, RpcDeleteRange (mkDelete (lit "b") (lit "a") false)); (None, 4, RpcStatus)].

Lemma server_availability_witness :
  let '(s, answers, alive) := serve_all demo_requests (sys_store demo_sys) in
  (answer_kind <$> answers) ++ (if alive then [] else [Dies])
  = verdicts demo_requests (sys_store demo_sys)
  /\ (alive = true <-> Dies ∉ verdicts demo_requests (sys_store demo_sys))
  /\ (alive = true -> length answers = length demo_requests)
  /\ exists s', open_store 0 (file (wal s)) = Ok s' /\ view (keys s') = view (keys s).
Proof.
  apply (server_availability demo_sys demo_requests 0 demo_reachable); [|unfold clock_ok; lia].
  repeat split; by vm_compute.
Defined.

(** The inverted deletion kills the server; the request behind it is not served. *)
Example demo_verdicts :
  verdicts demo_requests (sys_store demo_sys) = [Answers; Refuses; Answers; Answers; Answers; Dies].
Proof. by vm_compute. Qed.

(** A lease is granted and kept alive; an unknown one is asked for; the known one
    again. The last answer is due, but the error of the second ends the call. *)
Definition demo_keep_alives : list KaEvent :=
  [KaOther (CmdLeaseGrant 0 (mkGrant 10 7)); KaRequest 7 1; KaSend; KaRequest 8 2; KaSend;
   KaOther (CmdPut (put_req "x" "1")); KaTake; KaRequest 7 3].

Definition demo_task : KaTask :=
  default (ka_start (sys_store demo_sys)) (stream_run "client" demo_keep_alives (ka_start (sys_store demo_sys))).

Lemma demo_stream : stream_run "client" demo_keep_alives (ka_start (sys_store demo_sys)) = Some demo_task.
Proof. by vm_compute. Qed.

Lemma demo_keep_alives_ok : ka_ok demo_keep_alives (sys_store demo_sys).
Proof. repeat split; by vm_compute. Qed.

Lemma keep_alive_stream_answers_witness :
  let answers := keep_alive_answers demo_keep_alives (sys_store demo_sys) in
  rtc sys_step sys_init (mkSys (ka_store demo_task) (sys_compaction demo_sys))
  /\ ka_phase demo_task <> KaPanicked
  /\ ka_taken demo_task `prefix_of` until_error answers
  /\ (KaLeave ∉ demo_keep_alives -> exists more t',
        Forall (fun e => is_delivery e = true) more /\ (length more <= length (ka_queue demo_task) + 2)%nat
        /\ stream_run "client" more demo_task = Some t' /\ ka_taken t' = until_error answers).
Proof.
  exact (keep_alive_stream_answers demo_sys "client" demo_keep_alives demo_task demo_reachable demo_keep_alives_ok demo_stream).
Defined.

Example demo_keep_alive_answers :
  let show := fmap (fun a : KaItem => match a with inl r => Some (lk_id r, lk_ttl r) | inr _ => None end) in
  let answers := keep_alive_answers demo_keep_alives (sys_store demo_sys) in
  show answers = [Some (7, 10); None; Some (7, 10)] /\ show (until_error answers) = [Some (7, 10); None].
Proof. by vm_compute. Qed.

(** An unknown lease takes the other leases of the stream with it: the request behind
    it still renews its lease, but its answer is never delivered, and the task ends. *)
Example unknown_lease_ends_stream :
  match stream_run "client" (demo_keep_alives ++ [KaTake; KaSend]) (ka_start (sys_store demo_sys)) with
  | Some t => ka_open t = false /\ ka_phase t = KaClientGone /\ length (ka_taken t) = 2%nat
  | None => False
  end.
Proof. by vm_compute. Qed.

End Services.
