(* ===== verification/Kine.v ===== *)
(** * Migrating a kine database (src/bin/migrate.rs)

    The tool reads the rows of a kine table, keeps the newest undeleted row of each
    name, and writes each as a transaction that creates the key unless it exists.
    The query is modelled on the table's rows; opening the database, finding the
    table and the connection to the server are left out. A value that is NULL does
    not convert and its row is dropped. *)
From stdpp Require Import sorting.
From S2P Require Import Prelude Varint KvCodec Wire Crc WalRecord Proto Range SortKvs State Store.
From S2P Require Import Historical Txn Recovery Background System Replay Durability TxnProps.
Local Open Scope Z_scope.

Module Kine.
Import KvCodec Wire Crc Wal Proto Range SortKvs State Store Historical Txn Recovery Background System Replay
  Durability TxnProps.

Record KineRow := mkKine { kn_id : Z; kn_name : list Byte.byte; kn_value : option (list Byte.byte); kn_deleted : bool }.

(** ** The query *)

(** [SELECT name, MAX(id) FROM t WHERE deleted = 0 GROUP BY name], at one name. *)
Fixpoint max_id (rows : list KineRow) (name : bytes) : option Z :=
  match rows with
  | [] => None
  | r :: rows =>
      if negb (kn_deleted r) && bytes_eqb (kn_name r) name
      then Some (match max_id rows name with Some m => Z.max (kn_id r) m | None => kn_id r end)
      else max_id rows name
  end.

Definition by_id (a b : KineRow) : Prop := kn_id a <= kn_id b.
#[local] Instance by_id_dec : RelDecision by_id.
Proof. intros a b. unfold by_id. apply _. Defined.

(** The join with the table, [ORDER BY k.id ASC]. *)
Definition latest_rows (rows : list KineRow) : list KineRow :=
  merge_sort by_id (base.filter (fun k => max_id rows (kn_name k) = Some (kn_id k)) rows).

(** [filter_map(|r| r.ok())]: the rows that convert, as name and value. *)
Definition selected_rows (rows : list KineRow) : list (list Byte.byte * list Byte.byte) :=
  omap (fun k => (fun v => (kn_name k, v)) <$> kn_value k) (latest_rows rows).

Definition total_keys (rows : list KineRow) : nat :=
  length (remove_dups (kn_name <$> base.filter (fun k => kn_deleted k = false) rows)).

(** ** Writing *)

(** [Compare::version(name, Equal, 0)] and [TxnOp::put(name, value, None)]. *)
Definition create_txn (name value : bytes) : TxnRequest :=
  mkTxn [mkCompare 0 0 name [] (Some (TVersion 0))] [RequestPut (mkPut name value 0 false false false)] [].

Section Kine.
Context `{Crc32c} `{KvDecoder} `{UnstableSort}.

(** The loop over the rows, with the number of keys created. *)
Fixpoint put_rows (rows : list (list Byte.byte * list Byte.byte)) (s : StoreState) : StoreState * nat :=
  match rows with
  | [] => (s, O)
  | (name, value) :: rows =>
      if bytes_eqb name [] || bytes_eqb value [] then put_rows rows s
      else
        match txn (create_txn name value) s with
        | (s, Ok resp) =>
            let '(s, count) := put_rows rows s in (s, if ts_succeeded resp then S count else count)
        | (s, _) => put_rows rows s
        end
  end.

(** The store afterwards, and the numbers printed: migrated, selected. *)
Definition kine_migrate (rows : list KineRow) (s : StoreState) : StoreState * nat * nat :=
  match total_keys rows with
  | O => (s, O, O)
  | _ => let l := selected_rows rows in
         let '(s, count) := put_rows l s in (s, count, length l)
  end.

(** ** Proofs: the query *)

Lemma bytes_eqb_eq a b : bytes_eqb a b = true <-> a = b.
Proof. apply bool_decide_eq_true. Qed.

Lemma max_id_in rows name m :
  max_id rows name = Some m -> exists r, r ∈ rows /\ kn_name r = name /\ kn_deleted r = false /\ kn_id r = m.
Proof.
  revert m. induction rows as [|r rows IH]; intros m; cbn [max_id]; [done|].
  destruct (kn_deleted r) eqn:Ed; cbn [negb andb].
  - intros (r' & ? & ?)%IH. exists r'. split; [by right|done].
  - destruct (bytes_eqb (kn_name r) name) eqn:En.
    + apply bytes_eqb_eq in En. destruct (max_id rows name) as [m'|].
      * intros [= <-]. destruct (IH m' eq_refl) as (r' & Hin & Hn & Hd & Hi).
        destruct (Z.max_spec (kn_id r) m') as [[_ ->]|[_ ->]].
        -- exists r'. split; [by right|done].
        -- exists r. split; [left|done].
      * intros [= <-]. exists r. split; [left|done].
    + intros (r' & ? & ?)%IH. exists r'. split; [by right|done].
Qed.

Lemma max_id_ge rows r : r ∈ rows -> kn_deleted r = false -> exists m, max_id rows (kn_name r) = Some m /\ kn_id r <= m.
Proof.
  induction rows as [|r' rows IH]; [by intros ?%not_elem_of_nil|]. cbn [max_id].
  intros [->|Hin]%elem_of_cons Hd.
  - rewrite Hd. cbn [negb andb]. rewrite (proj2 (bytes_eqb_eq _ _) eq_refl).
    destruct (max_id rows (kn_name r')); eexists; (split; [done|lia]).
  - destruct (IH Hin Hd) as (m & E & Hm). rewrite E. destruct (_ && _); eexists; (split; [done|lia]).
Qed.

(** Row ids are the table's primary key. *)
Definition unique_ids (rows : list KineRow) : Prop := NoDup (kn_id <$> rows).

Lemma unique_row rows r r' : unique_ids rows -> r ∈ rows -> r' ∈ rows -> kn_id r = kn_id r' -> r = r'.
Proof.
  intros Hu (i & Hi)%list_elem_of_lookup (j & Hj)%list_elem_of_lookup E.
  assert (i = j) as -> by (eapply NoDup_lookup; [exact Hu|by rewrite list_lookup_fmap, Hi|rewrite list_lookup_fmap, Hj; cbn; by rewrite E]).
  congruence.
Qed.

Lemma elem_of_latest rows r :
  r ∈ latest_rows rows <-> r ∈ rows /\ max_id rows (kn_name r) = Some (kn_id r).
Proof. unfold latest_rows. rewrite merge_sort_Permutation, list_elem_of_filter. naive_solver. Qed.

Lemma NoDup_latest rows : unique_ids rows -> NoDup (kn_name <$> latest_rows rows).
Proof.
  intros Hu. assert (NoDup (latest_rows rows)) as Hnd.
  { unfold latest_rows. rewrite merge_sort_Permutation. apply NoDup_filter. by eapply NoDup_fmap_1. }
  apply NoDup_fmap_2_strong; [|done]. intros r r' [Hr Em]%elem_of_latest [Hr' Em']%elem_of_latest E.
  apply (unique_row rows); try done. rewrite E, Em' in Em. by injection Em.
Qed.

(** The newest undeleted row of a name, if its value converts. *)
Definition newest (rows : list KineRow) (name value : bytes) : Prop :=
  exists r, r ∈ rows /\ kn_name r = name /\ kn_value r = Some value /\ kn_deleted r = false
    /\ forall r', r' ∈ rows -> kn_name r' = name -> kn_deleted r' = false -> kn_id r' <= kn_id r.

Lemma elem_of_selected_rows rows name value :
  unique_ids rows -> (name, value) ∈ selected_rows rows <-> newest rows name value.
Proof.
  intros Hu. unfold selected_rows. rewrite list_elem_of_omap. split.
  - intros (r & [Hr Em]%elem_of_latest & Ev). destruct (kn_value r) as [v|] eqn:Evr; [|done]. injection Ev as <- <-.
    destruct (max_id_in _ _ _ Em) as (r1 & Hr1 & _ & Hd1 & Ei).
    pose proof (unique_row rows r1 r Hu Hr1 Hr Ei) as ->. exists r. do 4 (split; [done|]).
    intros r' Hr' En Hd. destruct (max_id_ge rows r' Hr' Hd) as (m & Em' & Hm). rewrite En, Em in Em'.
    by injection Em' as <-.
  - intros (r & Hr & <- & Ev & Hd & Hmax). exists r. rewrite elem_of_latest, Ev. split; [split; [done|]|done].
    destruct (max_id_ge rows r Hr Hd) as (m & Em & Hm). rewrite Em. f_equal.
    destruct (max_id_in _ _ _ Em) as (r1 & Hr1 & En & Hd1 & <-). specialize (Hmax r1 Hr1 En Hd1). lia.
Qed.

Lemma NoDup_selected rows : unique_ids rows -> NoDup (selected_rows rows).*1.
Proof.
  intros Hu. pose proof (NoDup_latest rows Hu) as Hn. unfold selected_rows. induction (latest_rows rows) as [|r l IH]; [constructor|].
  cbn [fmap list_fmap] in Hn. apply NoDup_cons in Hn as [Hr Hn]. cbn [omap list_omap].
  destruct (kn_value r) as [v|]; cbn; [|by apply IH]. constructor; [|by apply IH].
  intros ([n v'] & En & (r' & Hin & E)%list_elem_of_omap)%list_elem_of_fmap. cbn in En. apply Hr, list_elem_of_fmap.
  exists r'. destruct (kn_value r'); [|done]. injection E as En' _. by rewrite En, En'.
Qed.

(** ** Proofs: the writes *)

(** A live key has been written at least once. *)
Definition versions_ok (s : StoreState) : Prop := forall k ks, get_alive s k = Some ks -> ks_version ks <> 0.

Lemma create_txn_ok name value : kv_fits name value -> txn_ok (create_txn name value).
Proof. intros Hf. split; [|done]. split; [|done]. split; [done|]. cbn. unfold is_i64. lia. Qed.

(** An existing key is left alone. *)
Lemma create_txn_exists s name value ks :
  inv s -> faults (wal s) = [] -> room 1 s -> versions_ok s -> name <> [] -> get_alive s name = Some ks ->
  exists resp, txn (create_txn name value) s = (s, Ok resp) /\ ts_succeeded resp = false.
Proof.
  intros I Hno Hroom Hv Hne Hk.
  destruct (guarded_put_run s [mkCompare 0 0 name [] (Some (TVersion 0))] name value I Hno Hroom Hne) as (s' & resp & Et & Es & _ & Hb).
  assert (eval_compare s (mkCompare 0 0 name [] (Some (TVersion 0))) = false) as Hc.
  { unfold eval_compare. cbn. rewrite Hk. cbn. apply Z.eqb_neq. by eapply Hv. }
  cbn [forallb] in *. rewrite Hc in *. cbn in Hb. subst s'. by exists resp.
Qed.

(** A missing one is created. *)
Lemma create_txn_creates s name value :
  inv s -> faults (wal s) = [] -> room 1 s -> name <> [] -> get_alive s name = None ->
  exists s' resp, txn (create_txn name value) s = (s', Ok resp) /\ ts_succeeded resp = true
    /\ keys s' = put_keys (keys s) name value 0 (next_rev s) None /\ next_rev s' = next_rev s + 1
    /\ faults (wal s') = [].
Proof.
  intros I Hno Hroom Hne Hk.
  destruct (guarded_put_run s [mkCompare 0 0 name [] (Some (TVersion 0))] name value I Hno Hroom Hne) as (s' & resp & Et & Es & Hf & Hb).
  assert (eval_compare s (mkCompare 0 0 name [] (Some (TVersion 0))) = true) as Hc by (unfold eval_compare; cbn; by rewrite Hk).
  cbn [forallb] in *. rewrite Hc in *. destruct Hb as [Hk' Hn]. by exists s', resp.
Qed.

Lemma get_alive_created m s s' name value k :
  keys s = m -> keys s' = put_keys m name value 0 (next_rev s) None ->
  get_alive s' k = if decide (k = name) then Some (put_entry m name value 0 (next_rev s) None) else get_alive s k.
Proof. intros E E'. by rewrite !get_alive_in, E, E', alive_in_put. Qed.

(** The key a row creates. *)
Definition created_as (value : bytes) (ks : KeyState) : Prop :=
  ks_value ks = value /\ ks_version ks = 1 /\ ks_lease ks = 0 /\ ks_create_revision ks = ks_mod_revision ks.

(** What becomes of a key: kept if it was there, created from its row otherwise. *)
Definition settled (l : list (list Byte.byte * list Byte.byte)) (s s' : StoreState) (k : list Byte.byte) : Prop :=
  match get_alive s k with
  | Some ks => get_alive s' k = Some ks
  | None => (forall v, (k, v) ∈ l -> k <> [] -> v <> [] -> exists ks, get_alive s' k = Some ks /\ created_as v ks)
            /\ ((forall v, (k, v) ∈ l -> k = [] \/ v = []) -> get_alive s' k = None)
  end.

(** The rows that create a key. *)
Definition creating (s : StoreState) (l : list (list Byte.byte * list Byte.byte)) : nat :=
  length (base.filter (fun e => e.1 <> [] /\ e.2 <> [] /\ get_alive s e.1 = None) l).

Lemma settled_skip name value l s s' k :
  name = [] \/ value = [] \/ is_Some (get_alive s name) -> settled l s s' k -> settled ((name, value) :: l) s s' k.
Proof.
  intros Hsk. unfold settled. destruct (get_alive s k) eqn:Ek; [done|]. intros [IH1 IH2]. split.
  - intros v [[= -> ->]|Hin]%elem_of_cons Hk Hv; [|by apply IH1].
    destruct Hsk as [?|[?|[? Hs]]]; [done..|congruence].
  - intros Hall. apply IH2. intros v Hin. apply Hall. by right.
Qed.

Lemma creating_skip name value l s :
  name = [] \/ value = [] \/ is_Some (get_alive s name) -> creating s ((name, value) :: l) = creating s l.
Proof.
  intros Hsk. unfold creating. rewrite filter_cons, decide_False; [done|]. cbn. intros (? & ? & E).
  destruct Hsk as [?|[?|[? Hs]]]; [done..|congruence].
Qed.

Lemma length_filter_ext {A} (P Q : A -> Prop) `{forall x, Decision (P x), forall x, Decision (Q x)} (l : list A) :
  (forall x, x ∈ l -> P x <-> Q x) -> length (base.filter P l) = length (base.filter Q l).
Proof.
  induction l as [|x l IH]; intros HPQ; [done|]. rewrite !filter_cons.
  assert (length (base.filter P l) = length (base.filter Q l)) as E by (apply IH; intros y Hy; apply HPQ; by right).
  pose proof (HPQ x ltac:(left)) as Hx. destruct (decide (P x)), (decide (Q x)); cbn; naive_solver.
Qed.

Lemma length_selected rows : (length (selected_rows rows) <= length rows)%nat.
Proof.
  assert (length (latest_rows rows) <= length rows)%nat as Hl
    by (unfold latest_rows; rewrite merge_sort_Permutation; apply length_filter).
  unfold selected_rows. etrans; [|exact Hl]. clear Hl.
  induction (latest_rows rows) as [|r l IH]; [done|]. cbn. destruct (kn_value r); cbn; lia.
Qed.

Section Create.
Context (s s1 : StoreState) (name value : list Byte.byte) (l : list (list Byte.byte * list Byte.byte)).
Context (Hnew : get_alive s name = None) (Hk : keys s1 = put_keys (keys s) name value 0 (next_rev s) None).
Context (Hn : name <> []) (Hv : value <> []) (Honce : forall v, (name, v) ∉ l).

Lemma created_entry : created_as value (put_entry (keys s) name value 0 (next_rev s) None).
Proof using Hnew. unfold put_entry. rewrite <- get_alive_in, Hnew. done. Qed.

Lemma settled_create s' k : settled l s1 s' k -> settled ((name, value) :: l) s s' k.
Proof using Hnew Hk Hn Hv Honce.
  unfold settled. rewrite (get_alive_created (keys s) s s1 name value k eq_refl Hk).
  destruct (decide (k = name)) as [->|Hne].
  - intros Hs. rewrite Hnew. split; [|intros Hall; destruct (Hall value) as [?|?]; [left|done|done]].
    intros v [[= ->]|Hin]%elem_of_cons _ _; [|by destruct (Honce v)]. eexists. split; [exact Hs|apply created_entry].
  - destruct (get_alive s k); [done|]. intros [IH1 IH2]. split.
    + intros v [[= -> ->]|Hin]%elem_of_cons; [done|by apply IH1].
    + intros Hall. apply IH2. intros v Hin. apply Hall. by right.
Qed.

Lemma creating_create : creating s ((name, value) :: l) = S (creating s1 l).
Proof using Hnew Hk Hn Hv Honce.
  unfold creating. rewrite filter_cons, decide_True by done. cbn [length]. f_equal.
  apply length_filter_ext. intros [k v] Hin. cbn.
  rewrite (get_alive_created (keys s) s s1 name value k eq_refl Hk).
  rewrite decide_False; [done|]. intros ->. by apply (Honce v).
Qed.

End Create.

(** Rows with distinct names, in any order. *)
Lemma put_rows_run l s :
  inv s -> faults (wal s) = [] -> versions_ok s -> room (Z.of_nat (length l)) s ->
  NoDup l.*1 -> Forall (fun e => kv_fits e.1 e.2) l ->
  (put_rows l s).2 = creating s l /\ forall k, settled l s (put_rows l s).1 k.
Proof.
  revert s. induction l as [|[name value] l IH]; intros s I Hno Hv Hroom Hnd Hf; cbn [put_rows].
  { split; [done|]. intros k. unfold settled. destruct (get_alive s k) eqn:E; [done|]. split; [by intros v ?%not_elem_of_nil|done]. }
  cbn [fmap list_fmap fst] in Hnd. apply NoDup_cons in Hnd as [Hname Hnd]. apply Forall_cons in Hf as [Hfit Hf].
  cbn [fst snd length] in *.
  assert (forall v, (name, v) ∉ l) as Honce by (intros v Hin; apply Hname, list_elem_of_fmap; by exists (name, v)).
  destruct (bytes_eqb name [] || bytes_eqb value []) eqn:Esk.
  - apply orb_true_iff in Esk. rewrite !bytes_eqb_eq in Esk.
    destruct (IH s I Hno Hv ltac:(unfold room in *; lia) Hnd Hf) as [IHc IHs].
    rewrite IHc, creating_skip by naive_solver. split; [done|]. intros k. apply settled_skip; [naive_solver|done].
  - apply orb_false_iff in Esk as [En Ev]. apply not_true_iff_false in En, Ev. rewrite bytes_eqb_eq in En, Ev.
    destruct (get_alive s name) as [ks|] eqn:Ek.
    + destruct (create_txn_exists s name value ks I Hno ltac:(unfold room in *; lia) Hv En Ek) as (resp & -> & Hs).
      destruct (IH s I Hno Hv ltac:(unfold room in *; lia) Hnd Hf) as [IHc IHs].
      destruct (put_rows l s) as [s' count]. cbn [fst snd] in *. rewrite Hs, creating_skip by eauto.
      split; [done|]. intros k. apply settled_skip; eauto.
    + destruct (create_txn_creates s name value I Hno ltac:(unfold room in *; lia) En Ek) as (s1 & resp & Et & Hs & Hk1 & Hn1 & Hno1).
      assert (inv s1) as I1.
      { assert (s1 = exec (CmdTxn (create_txn name value)) s) as -> by (cbn [exec]; by rewrite Et).
        eapply rtc_trans_inv; [|exact I]. apply exec_trans; [done|]. split; [by apply create_txn_ok|unfold room in *; lia]. }
      assert (versions_ok s1) as Hv1.
      { intros k' ks'. rewrite (get_alive_created (keys s) s s1 name value k' eq_refl Hk1).
        destruct (decide (k' = name)); [|apply Hv]. intros [= <-].
        by destruct (created_entry s name value Ek) as (_ & -> & _). }
      rewrite Et. destruct (IH s1 I1 Hno1 Hv1 ltac:(unfold room in *; lia) Hnd Hf) as [IHc IHs].
      destruct (put_rows l s1) as [s' count]. cbn [fst snd] in *. rewrite Hs, IHc, (creating_create s s1) by done.
      split; [done|]. intros k. by apply (settled_create s s1).
Qed.

(** ** Properties *)

(** C37. The kine migration. On a store in a good state, with room for the writes and
    rows that fit, migrating a table whose row ids are unique leaves every existing
    key untouched; creates, with version 1 and no lease, exactly the keys whose
    newest undeleted row has a value, with that value; touches nothing else; and the
    number it prints is the number of keys it created. *)
Theorem kine_migration (rows : list KineRow) (s : StoreState) :
  inv s -> faults (wal s) = [] -> versions_ok s -> room (Z.of_nat (length rows)) s -> unique_ids rows ->
  Forall (fun e => kv_fits e.1 e.2) (selected_rows rows) ->
  let '(s', count, total) := kine_migrate rows s in
  (forall k ks, get_alive s k = Some ks -> get_alive s' k = Some ks)
  /\ (forall k, get_alive s k = None -> forall ks, get_alive s' k = Some ks ->
        exists v, newest rows k v /\ k <> [] /\ v <> [] /\ created_as v ks)
  /\ (forall k v, get_alive s k = None -> newest rows k v -> k <> [] -> v <> [] -> is_Some (get_alive s' k))
  /\ count = creating s (selected_rows rows).
Proof.
  intros I Hno Hv Hroom Hu Hf. pose proof (NoDup_selected rows Hu) as Hnd. unfold kine_migrate.
  pose proof (length_selected rows) as Hlen.
  destruct (total_keys rows) as [|n] eqn:Et.
  - assert (forall k v, ~ newest rows k v) as Hnone.
    { intros k v (r & Hin & _ & _ & Hd & _). unfold total_keys in Et. apply length_zero_iff_nil in Et.
      assert (kn_name r ∈ remove_dups (kn_name <$> base.filter (fun k => kn_deleted k = false) rows)) as Hr.
      { apply elem_of_remove_dups, list_elem_of_fmap. exists r. by rewrite list_elem_of_filter. }
      rewrite Et in Hr. by apply not_elem_of_nil in Hr. }
    assert (selected_rows rows = []) as ->.
    { destruct (selected_rows rows) as [|[k v] l] eqn:Es; [done|]. destruct (Hnone k v). apply elem_of_selected_rows; [done|]. rewrite Es. left. }
    split; [done|]. split; [congruence|]. split; [|done]. intros k v _ Hn. by destruct (Hnone k v).
  - destruct (put_rows_run (selected_rows rows) s I Hno Hv ltac:(unfold room in *; lia) Hnd Hf) as [Hc Hs].
    destruct (put_rows (selected_rows rows) s) as [s' count]. cbn in Hc, Hs. unfold settled in Hs. split; [|split; [|split; [|done]]].
    + intros k ks Ek. specialize (Hs k). by rewrite Ek in Hs.
    + intros k Ek ks Ek'. specialize (Hs k). rewrite Ek in Hs. destruct Hs as [H1s H2s].
      destruct (decide (Exists (fun e => e.1 = k /\ k <> [] /\ e.2 <> []) (selected_rows rows))) as [Hex|Hex].
      * apply Exists_exists in Hex as ([k' v] & Hin & Ek'' & Hk & Hv'). cbn in Ek'', Hv'. subst k'.
        destruct (H1s v Hin Hk Hv') as (ks' & E' & Hcr). exists v. rewrite E' in Ek'. injection Ek' as ->.
        split; [by apply elem_of_selected_rows|done].
      * rewrite H2s in Ek'; [done|]. intros v Hin. destruct (decide (k = [])); [by left|]. destruct (decide (v = [])); [by right|].
        destruct Hex. apply Exists_exists. by exists (k, v).
    + intros k v Ek Hn Hk Hv'. specialize (Hs k). rewrite Ek in Hs. destruct Hs as [H1s _].
      destruct (H1s v) as (ks & E & _); [by apply elem_of_selected_rows|done|done|]. eauto.
Qed.

End Kine.

#[local] Existing Instance bitwise_crc.
#[local] Existing Instance ref_decoder.
#[local] Existing Instance merge_sort_impl.

(** Two revisions of one name, a name the store has, and a deleted name. *)
Definition demo_rows : list KineRow :=
  [mkKine 1 (lit "x") (Some (lit "old")) false; mkKine 2 (lit "a") (Some (lit "kine")) false;
   mkKine 3 (lit "x") (Some (lit "new")) false; mkKine 4 (lit "gone") (Some (lit "1")) true].

Lemma versions_all s : forallb (fun e => negb (ks_version e.2 =? 0)) (map_to_list (keys s)) = true -> versions_ok s.
Proof.
  intros Hall k ks [Hk _]%alive_in_Some. apply elem_of_map_to_list in Hk.
  rewrite forallb_forall in Hall. specialize (Hall (k, ks) (proj1 (list_elem_of_In _ _) Hk)). cbn in Hall. lia.
Qed.

Lemma demo_versions : versions_ok (run demo fresh).
Proof. apply versions_all. by vm_compute. Qed.

Lemma demo_room : faults (wal (run demo fresh)) = [] /\ room (Z.of_nat (length demo_rows)) (run demo fresh).
Proof. split; by vm_compute. Qed.

Lemma demo_rows_ok : unique_ids demo_rows /\ Forall (fun e => kv_fits e.1 e.2) (selected_rows demo_rows).
Proof. split; [apply (bool_decide_unpack _)|repeat constructor]; by vm_compute. Qed.

Lemma kine_migration_witness :
  let '(s', count, total) := kine_migrate demo_rows (run demo fresh) in
  (forall k ks, get_alive (run demo fresh) k = Some ks -> get_alive s' k = Some ks)
  /\ (forall k, get_alive (run demo fresh) k = None -> forall ks, get_alive s' k = Some ks ->
        exists v, newest demo_rows k v /\ k <> [] /\ v <> [] /\ created_as v ks)
  /\ (forall k v, get_alive (run demo fresh) k = None -> newest demo_rows k v -> k <> [] -> v <> [] ->
        is_Some (get_alive s' k))
  /\ count = creating (run demo fresh) (selected_rows demo_rows).
Proof.
  exact (kine_migration demo_rows (run demo fresh) (proj1 (run_logs demo demo_ok)) (proj1 demo_room) demo_versions
    (proj2 demo_room) (proj1 demo_rows_ok) (proj2 demo_rows_ok)).
Defined.

Example kine_demo : (kine_migrate demo_rows (run demo fresh)).1.2 = 1%nat /\ selected_rows demo_rows = [(lit "a", lit "kine"); (lit "x", lit "new")].
Proof. split; by vm_compute. Qed.

(** The deletions are filtered out before the newest row is taken: a key deleted in
    kine comes back with the value it had before. *)
Example deleted_kine_key_resurrected :
  let rows := [mkKine 1 (lit "x") (Some (lit "1")) false; mkKine 2 (lit "x") (Some (lit "1")) true] in
  ks_value <$> get_alive (kine_migrate rows fresh).1.1 (lit "x") = Some (lit "1").
Proof. by vm_compute. Qed.

End Kine.
