(* ===== verification/Text.v ===== *)
(** * Text

    The string functions of the Rust library the binaries use, on UTF-8 bytes:
    formatting and parsing of decimal integers, [lines], [strip_prefix], [trim] and
    [trim_end_matches]. *)
From S2P Require Import Prelude Range.
Local Open Scope Z_scope.

Module Text.
Import Range.

(** ** Decimal integers *)

Definition digit (d : Z) : Byte.byte := to_u8 (48 + d).

(** [n.to_string()]: digits from the right; every round divides by ten. *)
Fixpoint decimal_loop (fuel : nat) (n : Z) (acc : bytes) : bytes :=
  match fuel with
  | O => acc
  | S fuel => if n <? 10 then digit n :: acc else decimal_loop fuel (n / 10) (digit (n mod 10) :: acc)
  end.

Definition decimal (n : Z) : bytes := decimal_loop (S (Z.to_nat (Z.log2 n))) n [].

(** [format!("{n:0width$}")] *)
Definition padded (width : nat) (n : Z) : bytes :=
  let d := decimal n in replicate (width - length d) (digit 0) ++ d.

Definition to_digit (b : Byte.byte) : option Z :=
  if (48 <=? u8 b) && (u8 b <=? 57) then Some (u8 b - 48) else None.

(** The loop of [u64::from_str], with its overflow checks. *)
Fixpoint parse_digits (acc : Z) (s : bytes) : option Z :=
  match s with
  | [] => Some acc
  | b :: s =>
      let! d := to_digit b in
      if acc * 10 + d <? 2 ^ 64 then parse_digits (acc * 10 + d) s else None
  end.

(** [s.parse::<u64>().ok()]: a sign [+] is allowed before at least one digit. *)
Definition parse_u64 (s : bytes) : option Z :=
  match s with
  | [] => None
  | b :: rest =>
      if u8 b =? 43 then match rest with [] => None | _ => parse_digits 0 rest end
      else parse_digits 0 s
  end.

(** [s.parse::<i64>().ok()] *)
Definition parse_i64 (s : bytes) : option Z :=
  match s with
  | [] => None
  | b :: rest =>
      if u8 b =? 45
      then match rest with
           | [] => None
           | _ => let! v := parse_digits 0 rest in if v <=? 2 ^ 63 then Some (- v) else None
           end
      else let! v := parse_u64 s in if v <? 2 ^ 63 then Some v else None
  end.

(** ** Slices *)

Definition strip_prefix (p s : bytes) : option bytes :=
  if starts_with s p then Some (drop (length p) s) else None.

Definition strip_suffix (p s : bytes) : option bytes :=
  if bool_decide (p `suffix_of` s) then Some (take (length s - length p) s) else None.

(** Remove the patterns [pats] from the start, or from the end, as often as they
    occur; the patterns are not empty, so the length of the text bounds the rounds. *)
Fixpoint trim_start_loop (fuel : nat) (pats : list (list Byte.byte)) (s : bytes) : bytes :=
  match fuel with
  | O => s
  | S fuel =>
      match omap (fun p => strip_prefix p s) pats with
      | [] => s
      | s' :: _ => trim_start_loop fuel pats s'
      end
  end.

Fixpoint trim_end_loop (fuel : nat) (pats : list (list Byte.byte)) (s : bytes) : bytes :=
  match fuel with
  | O => s
  | S fuel =>
      match omap (fun p => strip_suffix p s) pats with
      | [] => s
      | s' :: _ => trim_end_loop fuel pats s'
      end
  end.

Definition trim_end_matches (p s : bytes) : bytes := trim_end_loop (length s) [p] s.

(** The encodings of the characters with the Unicode property White_Space. As
    encodings of whole characters they occur in valid UTF-8 only as such. *)
Definition white_space : list (list Byte.byte) :=
  map to_u8 <$>
  [[9]; [10]; [11]; [12]; [13]; [32]; [194; 133]; [194; 160]; [225; 154; 128];
   [226; 128; 128]; [226; 128; 129]; [226; 128; 130]; [226; 128; 131]; [226; 128; 132]; [226; 128; 133];
   [226; 128; 134]; [226; 128; 135]; [226; 128; 136]; [226; 128; 137]; [226; 128; 138];
   [226; 128; 168]; [226; 128; 169]; [226; 128; 175]; [226; 129; 159]; [227; 128; 128]].

Definition trim (s : bytes) : bytes :=
  let s := trim_start_loop (length s) white_space s in trim_end_loop (length s) white_space s.

(** [s.lines()]: what precedes each newline, without a carriage return before it,
    and the rest if it is not empty. [cur] is the line read so far. *)
Fixpoint lines_loop (cur s : bytes) : list (list Byte.byte) :=
  match s with
  | [] => match cur with [] => [] | _ => [cur] end
  | b :: s =>
      if u8 b =? 10
      then (match strip_suffix [to_u8 13] cur with Some l => l | None => cur end) :: lines_loop [] s
      else lines_loop (cur ++ [b]) s
  end.

Definition lines (s : bytes) : list (list Byte.byte) := lines_loop [] s.

(** The text before and after the first [sep]. *)
Fixpoint split_once (sep : Byte.byte) (s : bytes) : option (list Byte.byte * list Byte.byte) :=
  match s with
  | [] => None
  | b :: s => if bool_decide (b = sep) then Some ([], s)
              else let! (x, y) := split_once sep s in Some (b :: x, y)
  end.

(** ** Numbers round trip *)

Lemma u8_digit d : 0 <= d < 10 -> u8 (digit d) = 48 + d.
Proof. intros. apply u8_to_u8. lia. Qed.

Lemma to_digit_digit d : 0 <= d < 10 -> to_digit (digit d) = Some d.
Proof.
  intros. unfold to_digit. rewrite u8_digit by done.
  rewrite (proj2 (Z.leb_le _ _)), (proj2 (Z.leb_le _ _)) by lia. cbn [andb]. f_equal. lia.
Qed.

Lemma parse_decimal_loop fuel n acc :
  0 <= n < 2 ^ Z.of_nat fuel -> n < 2 ^ 64 -> parse_digits 0 (decimal_loop fuel n acc) = parse_digits n acc.
Proof.
  revert n acc. induction fuel as [|fuel IH]; intros n acc Hn Hmax; cbn [decimal_loop].
  { assert (n = 0) as -> by lia. done. }
  destruct (Z.ltb_spec n 10).
  - cbn [parse_digits]. rewrite to_digit_digit by lia. by rewrite (proj2 (Z.ltb_lt _ _)) by lia.
  - pose proof (Z.mod_pos_bound n 10 ltac:(lia)). pose proof (Z.div_mod n 10 ltac:(lia)) as Hdm.
    rewrite Nat2Z.inj_succ, Z.pow_succ_r in Hn by lia.
    rewrite IH by (try split; try apply Z.div_pos; try (apply Z.div_lt_upper_bound; lia); lia).
    cbn [parse_digits]. rewrite to_digit_digit by lia.
    replace (n / 10 * 10 + n mod 10) with n by lia. by rewrite (proj2 (Z.ltb_lt n _)) by lia.
Qed.

Lemma parse_decimal n : is_u64 n -> parse_digits 0 (decimal n) = Some n.
Proof.
  intros [H0 H1]. unfold decimal. rewrite parse_decimal_loop; [done| |done].
  rewrite Nat2Z.inj_succ, Z2Nat.id by apply Z.log2_nonneg.
  destruct (decide (n = 0)) as [->|]; [done|]. split; [done|]. apply Z.log2_spec. lia.
Qed.

Lemma parse_padded width n : is_u64 n -> parse_digits 0 (padded width n) = Some n.
Proof.
  intros Hn. unfold padded. induction (width - length (decimal n))%nat as [|k IH]; [by apply parse_decimal|].
  exact IH.
Qed.

Lemma padded_inj width n n' : is_u64 n -> is_u64 n' -> padded width n = padded width n' -> n = n'.
Proof. intros Hn Hn' E. apply (f_equal (parse_digits 0)) in E. rewrite !parse_padded in E by done. congruence. Qed.

(** Digits, and nothing else. *)
Definition is_digit (b : Byte.byte) : Prop := 48 <= u8 b <= 57.

Lemma digit_is_digit d : 0 <= d < 10 -> is_digit (digit d).
Proof. intros. unfold is_digit. rewrite u8_digit; lia. Qed.

Lemma decimal_loop_digits fuel n acc : 0 <= n -> Forall is_digit acc -> Forall is_digit (decimal_loop fuel n acc).
Proof.
  revert n acc. induction fuel as [|fuel IH]; intros n acc Hn Ha; cbn [decimal_loop]; [done|].
  destruct (Z.ltb_spec n 10); [constructor; [apply digit_is_digit; lia|done]|].
  apply IH; [by apply Z.div_pos|]. constructor; [|done]. apply digit_is_digit, Z.mod_pos_bound. lia.
Qed.

Lemma decimal_digits n : 0 <= n -> Forall is_digit (decimal n).
Proof. intros. by apply decimal_loop_digits. Qed.

Lemma padded_digits width n : 0 <= n -> Forall is_digit (padded width n).
Proof.
  intros. apply Forall_app. split; [|by apply decimal_digits].
  apply Forall_replicate, digit_is_digit. lia.
Qed.

Lemma decimal_loop_app fuel n acc : decimal_loop fuel n acc = decimal_loop fuel n [] ++ acc.
Proof.
  revert n acc. induction fuel as [|fuel IH]; intros n acc; cbn [decimal_loop]; [done|].
  destruct (n <? 10); [done|]. rewrite IH, (IH _ [_]), <- app_assoc. done.
Qed.

Lemma decimal_length n : is_u64 n -> (length (decimal n) <= 64)%nat.
Proof.
  intros [H0 H1]. unfold decimal.
  assert (forall fuel m acc, length (decimal_loop fuel m acc) <= fuel + length acc)%nat as Hl.
  { induction fuel as [|fuel IH]; intros m acc; cbn [decimal_loop]; [lia|].
    destruct (m <? 10); cbn; [lia|]. rewrite IH. cbn. lia. }
  rewrite Hl. cbn [length]. destruct (decide (n = 0)) as [->|]; [cbn; lia|].
  assert (Z.log2 n < 64) by (apply Z.log2_lt_pow2; lia). lia.
Qed.

Lemma padded_length width n : is_u64 n -> (length (padded width n) <= width + 64)%nat.
Proof. intros Hn%decimal_length. unfold padded. rewrite length_app, length_replicate. lia. Qed.

Lemma decimal_nonempty n : decimal n <> [].
Proof.
  unfold decimal. cbn [decimal_loop]. destruct (n <? 10); [done|]. rewrite decimal_loop_app.
  intros [_ [=]]%app_nil.
Qed.

Lemma parse_u64_decimal n : is_u64 n -> parse_u64 (decimal n) = Some n.
Proof.
  intros Hn. pose proof (decimal_digits n (proj1 Hn)) as Hd. pose proof (parse_decimal n Hn) as Hp.
  unfold parse_u64. destruct (decimal n) as [|b l] eqn:E; [by apply decimal_nonempty in E|].
  apply Forall_cons in Hd as [Hb _]. unfold is_digit in Hb. by rewrite (proj2 (Z.eqb_neq (u8 b) 43)) by lia.
Qed.

Lemma parse_i64_decimal n : 0 <= n < 2 ^ 63 -> parse_i64 (decimal n) = Some n.
Proof.
  intros Hn. pose proof (decimal_digits n (proj1 Hn)) as Hd.
  pose proof (parse_u64_decimal n ltac:(unfold is_u64; lia)) as Hp.
  unfold parse_i64. destruct (decimal n) as [|b l] eqn:E; [by apply decimal_nonempty in E|].
  apply Forall_cons in Hd as [Hb _]. unfold is_digit in Hb. rewrite (proj2 (Z.eqb_neq (u8 b) 45)) by lia.
  rewrite Hp. by rewrite (proj2 (Z.ltb_lt n _)) by lia.
Qed.

(** ** Trimming *)

Lemma strip_prefix_app p s : strip_prefix p (p ++ s) = Some s.
Proof.
  unfold strip_prefix, starts_with. rewrite bool_decide_eq_true_2 by by apply prefix_app_r.
  by rewrite drop_app_length.
Qed.

Lemma strip_suffix_app p s : strip_suffix p (s ++ p) = Some s.
Proof.
  unfold strip_suffix. rewrite bool_decide_eq_true_2 by by exists s.
  by rewrite length_app, Nat.add_sub, take_app_length.
Qed.

(** No pattern begins, or ends, with the byte [b]. *)
Definition avoids (b : Byte.byte) (pats : list (list Byte.byte)) : bool :=
  forallb (fun p => bool_decide (is_Some (head p)) && negb (bool_decide (head p = Some b))
                    && negb (bool_decide (last p = Some b))) pats.

Lemma avoids_spec b pats p :
  avoids b pats = true -> p ∈ pats -> p <> [] /\ head p <> Some b /\ last p <> Some b.
Proof.
  unfold avoids. rewrite forallb_forall. intros Hp Hin%list_elem_of_In. specialize (Hp p Hin).
  rewrite !andb_true_iff, !negb_true_iff in Hp. destruct Hp as [[Hs Hh] Hl].
  apply bool_decide_eq_true in Hs. apply bool_decide_eq_false in Hh, Hl. by destruct p; [destruct Hs|].
Qed.

Lemma trim_start_clean fuel pats b s : avoids b pats = true -> trim_start_loop fuel pats (b :: s) = b :: s.
Proof.
  intros Ha. destruct fuel as [|fuel]; [done|]. cbn [trim_start_loop].
  destruct (omap _ pats) as [|s' l] eqn:E; [done|]. assert (s' ∈ s' :: l) as Hin by left. rewrite <- E in Hin.
  apply list_elem_of_omap in Hin as (p & Hp & Hs). destruct (avoids_spec _ _ _ Ha Hp) as (Hne & Hh & _).
  unfold strip_prefix, starts_with in Hs. case_bool_decide as Hpre; [|done].
  destruct p as [|c p]; [done|]. by apply prefix_cons_inv_1 in Hpre as ->.
Qed.

Lemma trim_end_clean fuel pats b s : avoids b pats = true -> trim_end_loop fuel pats (s ++ [b]) = s ++ [b].
Proof.
  intros Ha. destruct fuel as [|fuel]; [done|]. cbn [trim_end_loop].
  destruct (omap _ pats) as [|s' l] eqn:E; [done|]. assert (s' ∈ s' :: l) as Hin by left. rewrite <- E in Hin.
  apply list_elem_of_omap in Hin as (p & Hp & Hs). destruct (avoids_spec _ _ _ Ha Hp) as (Hne & _ & Hl).
  unfold strip_suffix in Hs. case_bool_decide as Hsuf; [|done]. destruct Hsuf as [k Hk].
  apply (f_equal last) in Hk. rewrite last_snoc, last_app in Hk. by destruct (last p) as [c|] eqn:Ec; [|apply last_None in Ec].
Qed.

(** A space or a tab. *)
Definition blank (b : Byte.byte) : Prop := b = to_u8 32 \/ b = to_u8 9.

Lemma trim_start_blank fuel b s :
  blank b -> trim_start_loop (S fuel) white_space (b :: s) = trim_start_loop fuel white_space s.
Proof. by intros [-> | ->]. Qed.

Lemma trim_start_blanks fuel pad b s :
  Forall blank pad -> (length pad <= fuel)%nat -> avoids b white_space = true ->
  trim_start_loop fuel white_space (pad ++ b :: s) = b :: s.
Proof.
  intros Hp Hf Ha. revert fuel Hf. induction Hp as [|c pad Hc Hp IH]; intros fuel Hf; [by apply trim_start_clean|].
  destruct fuel as [|fuel]; cbn in Hf; [lia|]. cbn [app]. rewrite trim_start_blank by done. apply IH. lia.
Qed.

Lemma digit_cases b : is_digit b -> b ∈ digit <$> [0; 1; 2; 3; 4; 5; 6; 7; 8; 9].
Proof.
  intros Hb. unfold is_digit in Hb. apply list_elem_of_fmap. exists (u8 b - 48). split.
  - unfold digit. replace (48 + (u8 b - 48)) with (u8 b) by lia. by rewrite to_u8_u8.
  - assert (u8 b - 48 = 0 \/ u8 b - 48 = 1 \/ u8 b - 48 = 2 \/ u8 b - 48 = 3 \/ u8 b - 48 = 4 \/ u8 b - 48 = 5
      \/ u8 b - 48 = 6 \/ u8 b - 48 = 7 \/ u8 b - 48 = 8 \/ u8 b - 48 = 9) as Hd by lia. set_solver.
Qed.

Lemma digit_avoids b : is_digit b -> avoids b white_space = true /\ avoids b [lit " kB"] = true.
Proof.
  intros Hb%digit_cases.
  assert (Forall (fun b => avoids b white_space = true /\ avoids b [lit " kB"] = true)
    (digit <$> [0; 1; 2; 3; 4; 5; 6; 7; 8; 9])) as Hall by (repeat constructor; by vm_compute).
  rewrite Forall_forall in Hall. by apply Hall.
Qed.

(** Blanks, a number and the unit: what is left is the number. *)
Lemma trim_number pad n :
  Forall blank pad -> 0 <= n -> trim_end_matches (lit " kB") (trim (pad ++ decimal n ++ lit " kB")) = decimal n.
Proof.
  intros Hpad Hn. pose proof (decimal_digits n Hn) as Hd. pose proof (decimal_nonempty n) as Hne.
  assert (trim (pad ++ decimal n ++ lit " kB") = decimal n ++ lit " kB") as ->.
  { unfold trim. destruct (decimal n) as [|b l] eqn:E; [done|]. apply Forall_cons in Hd as [Hb _]. cbn [app].
    rewrite trim_start_blanks; [|done|rewrite length_app; lia|by apply digit_avoids].
    change (b :: l ++ lit " kB") with ((b :: l) ++ lit " k" ++ lit "B"). rewrite app_assoc.
    by apply (trim_end_clean _ _ (to_u8 66)). }
  unfold trim_end_matches. rewrite length_app. replace (length (decimal n) + _)%nat with (S (length (decimal n) + 2)) by (cbn; lia).
  cbn [trim_end_loop omap list_omap]. rewrite strip_suffix_app.
  destruct (exists_last Hne) as (l & b & E). rewrite E in Hd |- *. apply Forall_app in Hd as [_ [Hb _]%Forall_cons].
  apply trim_end_clean, digit_avoids. done.
Qed.

(** ** Lines *)

Definition newline : bytes := [to_u8 10].

(** No line breaks inside. *)
Definition one_line (l : bytes) : Prop := Forall (fun b => u8 b <> 10) l.

Definition chomp (l : bytes) : bytes := match strip_suffix [to_u8 13] l with Some l => l | None => l end.

Lemma lines_loop_line cur l s : one_line l -> lines_loop cur (l ++ newline ++ s) = chomp (cur ++ l) :: lines_loop [] s.
Proof.
  intros Hl. revert cur. induction Hl as [|b l Hb Hl IH]; intros cur; cbn [app lines_loop newline].
  - rewrite app_nil_r. done.
  - rewrite (proj2 (Z.eqb_neq (u8 b) 10)) by done. change (to_u8 10 :: s) with (newline ++ s).
    by rewrite IH, <- app_assoc.
Qed.

Definition unlines (ls : list (list Byte.byte)) : bytes := mjoin ((fun l => l ++ newline) <$> ls).

Lemma lines_unlines ls : Forall one_line ls -> lines (unlines ls) = chomp <$> ls.
Proof.
  unfold lines. induction 1 as [|l ls Hl Hls IH]; [done|]. cbn. rewrite <- app_assoc, lines_loop_line by done.
  by f_equal.
Qed.

Lemma chomp_id l : last l <> Some (to_u8 13) -> chomp l = l.
Proof.
  intros Hl. unfold chomp, strip_suffix. case_bool_decide as Hs; [|done]. destruct Hs as [k ->].
  by rewrite last_snoc in Hl.
Qed.

Lemma split_once_app sep x y : sep ∉ x -> split_once sep (x ++ sep :: y) = Some (x, y).
Proof.
  induction x as [|b x IH]; cbn; [by rewrite bool_decide_eq_true_2|]. intros [Hb Hx]%not_elem_of_cons.
  by rewrite bool_decide_eq_false_2, IH by congruence.
Qed.

(** Characters other than digits do not occur in a number. *)
Lemma not_in_decimal b n : 0 <= n -> ~ is_digit b -> b ∉ decimal n.
Proof. intros Hn Hb Hin. apply Hb. pose proof (decimal_digits n Hn) as Hd. rewrite Forall_forall in Hd. by apply Hd. Qed.

Lemma one_line_decimal n : 0 <= n -> one_line (decimal n).
Proof. intros Hn. eapply Forall_impl; [by apply decimal_digits|]. unfold is_digit. cbn. lia. Qed.
End Text.
