(* ===== verification/StatusTask.v ===== *)
(** * The status task (src/main.rs)

    Every minute the server binary reads its own memory figures from
    /proc/self/status, takes the statistics of the store, and pushes them as StatsD
    gauges in one UDP datagram. The socket, the clock, the log line and
    [malloc_trim] are left out: a tick gets the two files it reads as arguments and
    yields the datagram it sends. *)
From S2P Require Import Prelude Varint KvCodec Wire Crc WalRecord Proto Range SortKvs State Store.
From S2P Require Import Historical Txn Recovery Background System Replay Durability Text.
Local Open Scope Z_scope.

Module StatusTask.
Import KvCodec Wire Crc Wal Proto Range SortKvs State Store Historical Txn Recovery Background System Replay
  Durability Text.

(** ** Memory figures *)

(** [(rss, vsize, peak)], in kilobytes. *)
Definition Mem : Type := (Z * Z * Z)%type.

(** [v.trim().trim_end_matches(" kB").parse().unwrap_or(0)] *)
Definition kb_field (v : bytes) : Z := default 0 (parse_u64 (trim_end_matches (lit " kB") (trim v))).

(** The body of the loop over the lines. *)
Definition status_line (m : Mem) (line : bytes) : Mem :=
  let '(rss, vsize, peak) := m in
  match strip_prefix (lit "VmRSS:") line with
  | Some v => (kb_field v, vsize, peak)
  | None =>
      match strip_prefix (lit "VmSize:") line with
      | Some v => (rss, kb_field v, peak)
      | None =>
          match strip_prefix (lit "VmPeak:") line with
          | Some v => (rss, vsize, kb_field v)
          | None => m
          end
      end
  end.

(** [status] is what [read_to_string] yields, [None] when it fails. *)
Definition read_proc_mem (status : option bytes) : Mem :=
  match status with
  | None => (0, 0, 0)
  | Some status => foldl status_line (0, 0, 0) (lines status)
  end.

(** ** The datagram *)

(** [writeln!(buf, "{name}:{v}|g")] *)
Definition gauge (name : string) (v : Z) : bytes := lit name ++ lit ":" ++ decimal v ++ lit "|g" ++ newline.

Definition datagram (st : StoreStats) (wal_size : Z) (m : Mem) : bytes :=
  let '(rss_kb, vsize_kb, peak_kb) := m in
  gauge "rudurru.rev" (st_revision st) ++ gauge "rudurru.keys" (st_keys st)
  ++ gauge "rudurru.watchers" (st_watchers st) ++ gauge "rudurru.leases" (st_leases st)
  ++ gauge "rudurru.wal_size" wal_size
  ++ gauge "rudurru.mem.rss_kb" rss_kb ++ gauge "rudurru.mem.vsize_kb" vsize_kb
  ++ gauge "rudurru.mem.peak_kb" peak_kb.

(** One round of the loop: [sock] says whether the socket was bound and connected,
    [wal_len] is the size [metadata] reports, if it does. *)
Definition status_tick (sock : bool) (s : StoreState) (wal_len : option Z) (status : option bytes) : option bytes :=
  let st := stats s in
  let wal_size := default 0 wal_len in
  let m := read_proc_mem status in
  if sock then Some (datagram st wal_size m) else None.

(** ** What the kernel writes

    proc(5): a line [VmRSS:], [VmSize:] or [VmPeak:], blanks, a number of kilobytes
    and the unit; other fields have other names. *)
Inductive ProcLine :=
| RssLine (pad : list Byte.byte) (kb : Z)
| SizeLine (pad : list Byte.byte) (kb : Z)
| PeakLine (pad : list Byte.byte) (kb : Z)
| OtherLine (line : list Byte.byte).

Definition proc_line (l : ProcLine) : bytes :=
  match l with
  | RssLine pad kb => lit "VmRSS:" ++ pad ++ decimal kb ++ lit " kB"
  | SizeLine pad kb => lit "VmSize:" ++ pad ++ decimal kb ++ lit " kB"
  | PeakLine pad kb => lit "VmPeak:" ++ pad ++ decimal kb ++ lit " kB"
  | OtherLine line => line
  end.

Definition proc_text (ls : list ProcLine) : bytes := unlines (proc_line <$> ls).

Definition proc_ok (l : ProcLine) : Prop :=
  match l with
  | RssLine pad kb | SizeLine pad kb | PeakLine pad kb => Forall blank pad /\ is_u64 kb
  | OtherLine line => one_line line /\ last line <> Some (to_u8 13)
      /\ Forall (fun p => starts_with line p = false) [lit "VmRSS:"; lit "VmSize:"; lit "VmPeak:"]
  end.

(** The figures the lines report, later lines first. *)
Definition figures (m : Mem) (l : ProcLine) : Mem :=
  let '(rss, vsize, peak) := m in
  match l with
  | RssLine _ kb => (kb, vsize, peak)
  | SizeLine _ kb => (rss, kb, peak)
  | PeakLine _ kb => (rss, vsize, kb)
  | OtherLine _ => m
  end.

Lemma kb_field_number pad kb : Forall blank pad -> is_u64 kb -> kb_field (pad ++ decimal kb ++ lit " kB") = kb.
Proof. intros Hp Hk. unfold kb_field. rewrite trim_number, parse_u64_decimal by (done || apply Hk). done. Qed.

Lemma strip_prefix_none p line : starts_with line p = false -> strip_prefix p line = None.
Proof. unfold strip_prefix. by intros ->. Qed.

Lemma status_line_figures m l : proc_ok l -> status_line m (proc_line l) = figures m l.
Proof.
  destruct m as [[rss vsize] peak]. unfold status_line.
  destruct l as [pad kb|pad kb|pad kb|line]; cbn [proc_line proc_ok figures].
  - intros [Hp Hk]. by rewrite strip_prefix_app, kb_field_number.
  - intros [Hp Hk]. rewrite (strip_prefix_none (lit "VmRSS:")) by by apply bool_decide_eq_false; intros [k [=]].
    by rewrite strip_prefix_app, kb_field_number.
  - intros [Hp Hk]. rewrite (strip_prefix_none (lit "VmRSS:")) by by apply bool_decide_eq_false; intros [k [=]].
    rewrite (strip_prefix_none (lit "VmSize:")) by by apply bool_decide_eq_false; intros [k [=]].
    by rewrite strip_prefix_app, kb_field_number.
  - intros (_ & _ & Hno). rewrite !Forall_cons in Hno. destruct Hno as (H1 & H2 & H3 & _).
    by rewrite !strip_prefix_none.
Qed.

Lemma proc_line_line l : proc_ok l -> one_line (proc_line l) /\ last (proc_line l) <> Some (to_u8 13).
Proof.
  assert (forall p pad kb, one_line p -> Forall blank pad -> 0 <= kb ->
    one_line (p ++ pad ++ decimal kb ++ lit " kB") /\ last (p ++ pad ++ decimal kb ++ lit " kB") <> Some (to_u8 13)) as Hl.
  { intros p pad kb Hp Hpad Hk. split.
    - repeat apply Forall_app_2; [done| |by apply one_line_decimal|by repeat constructor].
      eapply Forall_impl; [exact Hpad|]. by intros b [-> | ->].
    - rewrite !app_assoc. change (lit " kB") with (lit " k" ++ [to_u8 66]). by rewrite app_assoc, last_snoc. }
  destruct l as [pad kb|pad kb|pad kb|line]; cbn [proc_ok proc_line];
    try (intros [Hp [Hk _]]; apply Hl; [by repeat constructor|done|done]). by intros (? & ? & _).
Qed.

Lemma read_proc_text ls : Forall proc_ok ls -> read_proc_mem (Some (proc_text ls)) = foldl figures (0, 0, 0) ls.
Proof.
  intros Hls. cbn [read_proc_mem]. unfold proc_text. rewrite lines_unlines.
  2:{ apply Forall_fmap. eapply Forall_impl; [exact Hls|]. apply proc_line_line. }
  generalize (0, 0, 0). induction Hls as [|l ls Hl Hls IH]; intros m; [done|]. cbn [fmap list_fmap foldl].
  rewrite chomp_id by by apply proc_line_line. rewrite status_line_figures by done. apply IH.
Qed.

Definition mem_ok (m : Mem) : Prop := let '(rss, vsize, peak) := m in is_u64 rss /\ is_u64 vsize /\ is_u64 peak.

Lemma figures_ok ls m : Forall proc_ok ls -> mem_ok m -> mem_ok (foldl figures m ls).
Proof.
  intros Hls. revert m. induction Hls as [|l ls Hl Hls IH]; intros [[rss vsize] peak] (Hr & Hv & Hp); [done|].
  apply IH. by destruct l; cbn [proc_ok figures] in *; repeat split; try apply Hl; try apply Hr; try apply Hv; try apply Hp.
Qed.

(** ** Reading the datagram

    A StatsD line is a name, a colon, a value and the type after a bar. *)
Definition read_gauge (line : bytes) : option (list Byte.byte * Z) :=
  let! (name, rest) := split_once (to_u8 58) line in
  let! (value, kind) := split_once (to_u8 124) rest in
  if bytes_eqb kind (lit "g") then let! v := parse_u64 value in Some (name, v) else None.

Definition read_gauges (datagram : bytes) : list (list Byte.byte * Z) := omap read_gauge (lines datagram).

Definition gauge_line (g : string * Z) : bytes := lit g.1 ++ lit ":" ++ decimal g.2 ++ lit "|g".

Lemma gauge_lines (gs : list (string * Z)) : unlines (gauge_line <$> gs) = mjoin ((fun g => gauge g.1 g.2) <$> gs).
Proof.
  unfold unlines. induction gs as [|g gs IH]; [done|]. cbn [fmap list_fmap mjoin list_join]. f_equal; [|exact IH].
  unfold gauge_line, gauge. by rewrite <- !app_assoc.
Qed.

(** A name the line format can carry. *)
Definition name_ok (name : string) : bool :=
  forallb (fun b => negb (u8 b =? 10) && negb (u8 b =? 58)) (lit name).

Lemma name_ok_byte name b : name_ok name = true -> b ∈ lit name -> u8 b <> 10 /\ b <> to_u8 58.
Proof.
  unfold name_ok. rewrite forallb_forall. intros Hn Hin%list_elem_of_In. apply Hn in Hin.
  rewrite andb_true_iff, !negb_true_iff, !Z.eqb_neq in Hin. destruct Hin as [? Hc]. split; [done|]. by intros ->.
Qed.

Lemma gauge_line_read name v :
  name_ok name = true -> is_u64 v ->
  one_line (gauge_line (name, v)) /\ last (gauge_line (name, v)) <> Some (to_u8 13)
  /\ read_gauge (gauge_line (name, v)) = Some (lit name, v).
Proof.
  intros Hn Hv. unfold gauge_line. cbn [fst snd]. split; [|split].
  - repeat apply Forall_app_2; [|by repeat constructor|by apply one_line_decimal, Hv|by repeat constructor].
    apply Forall_forall. intros b Hin. by apply (name_ok_byte name b Hn).
  - rewrite !app_assoc. change (lit "|g") with (lit "|" ++ [to_u8 103]). by rewrite app_assoc, last_snoc.
  - unfold read_gauge. change (lit ":" ++ ?x) with (to_u8 58 :: x). rewrite split_once_app.
    2:{ intros Hin. by apply (name_ok_byte name _ Hn) in Hin as []. }
    change (decimal v ++ lit "|g") with (decimal v ++ to_u8 124 :: lit "g").
    rewrite split_once_app by (apply not_in_decimal; [apply Hv|]; by intros [? ?]).
    by rewrite parse_u64_decimal.
Qed.

Lemma read_gauges_lines (gs : list (string * Z)) :
  Forall (fun g => name_ok g.1 = true /\ is_u64 g.2) gs ->
  read_gauges (unlines (gauge_line <$> gs)) = (fun g => (lit g.1, g.2)) <$> gs.
Proof.
  intros Hgs. unfold read_gauges. rewrite lines_unlines.
  2:{ apply Forall_fmap. eapply Forall_impl; [exact Hgs|]. intros [name v] [? ?]. by apply gauge_line_read. }
  induction Hgs as [|[name v] gs [Hn Hv] Hgs IH]; [done|]. cbn [fmap list_fmap omap list_omap fst snd] in *.
  destruct (gauge_line_read name v Hn Hv) as (_ & Hl & Hr). rewrite chomp_id, Hr by done. by f_equal.
Qed.

(** ** Properties *)

(** C38. The status datagram. Read as StatsD lines, the datagram of a tick carries
    exactly the store's figures and those the kernel reported: the current
    revision, the number of live keys (not of the entries in memory, which include
    tombstones), of watchers and of leases, the size of the log, and the memory
    figures, the last line of each kind winning whatever the padding and the other
    fields. *)
Theorem status_datagram_exact s wal_len ls :
  inv s -> Z.of_nat (size (keys s)) < 2 ^ 64 -> Z.of_nat (length (watchers s)) < 2 ^ 64 ->
  Z.of_nat (size (leases s)) < 2 ^ 64 -> is_u64 wal_len -> Forall proc_ok ls ->
  let '(rss, vsize, peak) := foldl figures (0, 0, 0) ls in
  read_gauges <$> status_tick true s (Some wal_len) (Some (proc_text ls))
  = Some [(lit "rudurru.rev", current_revision s);
          (lit "rudurru.keys", Z.of_nat (size (live (keys s))));
          (lit "rudurru.watchers", Z.of_nat (length (watchers s)));
          (lit "rudurru.leases", Z.of_nat (size (leases s)));
          (lit "rudurru.wal_size", wal_len);
          (lit "rudurru.mem.rss_kb", rss); (lit "rudurru.mem.vsize_kb", vsize); (lit "rudurru.mem.peak_kb", peak)].
Proof.
  intros I Hk Hw Hl Hwal Hls. pose proof (figures_ok ls (0, 0, 0) Hls ltac:(by vm_compute)) as Hm.
  unfold status_tick. rewrite read_proc_text by done. destruct (foldl figures _ ls) as [[rss vsize] peak].
  destruct Hm as (Hr & Hv & Hp). cbn [fmap option_fmap option_map]. f_equal.
  change (default 0 (Some wal_len)) with wal_len.
  set (gs := [("rudurru.rev", st_revision (stats s)); ("rudurru.keys", st_keys (stats s));
    ("rudurru.watchers", st_watchers (stats s)); ("rudurru.leases", st_leases (stats s)); ("rudurru.wal_size", wal_len);
    ("rudurru.mem.rss_kb", rss); ("rudurru.mem.vsize_kb", vsize); ("rudurru.mem.peak_kb", peak)]%string).
  assert (datagram (stats s) wal_len (rss, vsize, peak) = unlines (gauge_line <$> gs)) as ->.
  { rewrite gauge_lines. unfold gs, datagram. cbn [fmap list_fmap mjoin list_join fst snd]. by rewrite app_nil_r. }
  pose proof (inv_rev s I) as Hn. pose proof (inv_count s I Hk) as Hc.
  assert (size (live (keys s)) <= size (keys s))%nat as Hsz by apply map_size_filter.
  rewrite read_gauges_lines.
  - unfold gs, stats. cbn [fmap list_fmap fst snd st_revision st_keys st_watchers st_leases]. by rewrite Hc.
  - unfold gs, stats, is_u64 in *. cbn [st_revision st_keys st_watchers st_leases]. rewrite Hc. unfold current_revision.
    repeat apply Forall_cons_2; try apply Forall_nil_2; (split; [by vm_compute|cbn [snd]; lia]).
Qed.

#[local] Existing Instance bitwise_crc.
#[local] Existing Instance ref_decoder.
#[local] Existing Instance merge_sort_impl.

Definition demo_proc : list ProcLine :=
  [OtherLine (lit "Name:	rudurru"); PeakLine (lit "	  ") 20480; SizeLine (lit "	  ") 18432;
   OtherLine (lit "VmHWM:	    9000 kB"); RssLine (lit "	    ") 8192].

Lemma demo_proc_ok : Forall proc_ok demo_proc.
Proof.
  repeat apply Forall_cons_2; try apply Forall_nil_2; cbn [proc_ok]; unfold one_line, blank, is_u64;
    repeat split; try lia; apply (bool_decide_unpack _); by vm_compute.
Qed.

Lemma status_datagram_exact_witness :
  read_gauges <$> status_tick true (run demo fresh) (Some 300) (Some (proc_text demo_proc))
  = Some [(lit "rudurru.rev", current_revision (run demo fresh));
          (lit "rudurru.keys", Z.of_nat (size (live (keys (run demo fresh)))));
          (lit "rudurru.watchers", Z.of_nat (length (watchers (run demo fresh))));
          (lit "rudurru.leases", Z.of_nat (size (leases (run demo fresh))));
          (lit "rudurru.wal_size", 300);
          (lit "rudurru.mem.rss_kb", 8192); (lit "rudurru.mem.vsize_kb", 18432); (lit "rudurru.mem.peak_kb", 20480)].
Proof.
  apply (status_datagram_exact (run demo fresh) 300 demo_proc).
  - exact (proj1 (run_logs demo demo_ok)).
  - by vm_compute.
  - by vm_compute.
  - by vm_compute.
  - by vm_compute.
  - exact demo_proc_ok.
Defined.
End StatusTask.
