(* ===== verification/Load.v ===== *)
(** * Load generators (src/bin/stress.rs, wipe_stress.rs, bench.rs, concurrent_put.rs, compact.rs)

    The workers of stress.rs put numbered keys under [stress/] as fast as the server
    answers; wipe_stress.rs deletes them. The client library delivers a put, or loses
    the request or the answer. Reads, which change nothing, and the reports are left
    out, and so are latencies and rates, which are floating-point numbers. *)
From S2P Require Import Prelude Varint KvCodec Wire Crc WalRecord Proto Range SortKvs State Store.
From S2P Require Import Historical Txn Recovery Background System Replay Durability OpProps Text.
Local Open Scope Z_scope.

Module Load.
Import KvCodec Wire Crc Wal Proto Range SortKvs State Store Historical Txn Recovery Background System Replay
  Durability OpProps Text.

(** ** Keys *)

(** [make_key] of bench.rs and of concurrent_put.rs, with the prefix of each. *)
Definition make_key (prefix : string) (i : Z) : bytes := lit prefix ++ padded 20 i.

(** [vec![b'x'; n]] *)
Definition make_value (n : nat) : bytes := replicate n (to_u8 120).

Definition stress_prefix : bytes := lit "stress/".

(** [format!("stress/{w:04}/")] followed by [format!("{i:020}")]. *)
Definition stress_key (w : nat) (i : Z) : bytes :=
  stress_prefix ++ padded 4 (Z.of_nat w) ++ to_u8 47 :: padded 20 i.

(** ** The workers *)

(** What becomes of a call. *)
Inductive Net := Answered | LostRequest | LostReply.

#[global] Instance Net_eq_dec : EqDecision Net.
Proof. solve_decision. Defined.

(** The server's store, the counter [i] of each worker, [ops_counter] and
    [err_counter]. *)
Record Stress := mkStress { sr_store : StoreState; sr_next : list Z; sr_ops : Z; sr_errs : Z }.

Section Load.
Context `{Crc32c} `{KvDecoder}.

(** The put a worker sends. *)
Definition stress_put (val : bytes) (w : nat) (i : Z) : PutRequest :=
  mkPut (stress_key w i) val 0 false false false.

(** One round of the loop of worker [w]. *)
Definition worker_step (val : bytes) (t : Stress) (call : nat * Net) : Stress :=
  let '(w, net) := call in
  match sr_next t !! w with
  | None => t
  | Some i =>
      let next := <[w := u64_wrap (i + 1)]> (sr_next t) in
      match net with
      | Answered =>
          match put (stress_put val w i) (sr_store t) with
          | (s, Ok _) => mkStress s next (u64_wrap (sr_ops t + 1)) (sr_errs t)
          | (s, _) => mkStress s next (sr_ops t) (u64_wrap (sr_errs t + 1))
          end
      | LostRequest => mkStress (sr_store t) next (sr_ops t) (u64_wrap (sr_errs t + 1))
      | LostReply => mkStress (put (stress_put val w i) (sr_store t)).1 next (sr_ops t) (u64_wrap (sr_errs t + 1))
      end
  end.

(** [workers] tasks on the store [s]; the calls in the order the server sees them. *)
Definition stress (val : bytes) (workers : nat) (s : StoreState) (calls : list (nat * Net)) : Stress :=
  foldl (worker_step val) (mkStress s (replicate workers 0) 0 0) calls.

(** wipe_stress.rs; [prefix_end] is what [DeleteOptions::with_prefix] of the client
    library sends as the end of the range. *)
Definition wipe_stress (prefix_end : bytes -> bytes) : M DeleteRangeResponse :=
  delete_range (mkDelete stress_prefix (prefix_end stress_prefix) false).

(** ** concurrent_put.rs *)

(** [.await.expect(...)] and [.await.unwrap()]: an error ends the task. *)
Definition unwrap {A} (m : M A) : M A := fun s =>
  match m s with (s, Err e) => (s, Panic (message e)) | r => r end.

Fixpoint put_each (val : bytes) (ks : list (list Byte.byte)) : M unit :=
  match ks with
  | [] => ret tt
  | k :: ks => let* _ := unwrap (put (mkPut k val 0 false false false)) in put_each val ks
  end.

Definition rwlock_prefix : string := "rwlock_bench/".
Definition PREPOP : Z := 50000.

Definition warmup : M unit := put_each (make_value 128) (make_key rwlock_prefix <$> seqZ 0 PREPOP).

(** The puts of all workers in the order the server sees them; [draws] are the
    numbers the workers draw from the pool. *)
Definition contend (draws : list Z) : M unit := put_each (make_value 128) (make_key rwlock_prefix <$> draws).

(** ** compact.rs *)

(** [None] when the argument is missing and the tool exits. *)
Definition rudurru_compact (args : list (list Byte.byte)) : option (M ResponseHeader) :=
  match args with
  | _ :: arg :: _ =>
      Some (match parse_i64 arg with
            | Some rev => unwrap (compact rev)
            | None => lift (Panic "revision must be a number")
            end)
  | _ => None
  end.

(** ** bench.rs: concurrent throughput *)

Definition per_task (workers : Z) : Z := 2000 / workers.

(** The numbers of the keys each worker puts. *)
Definition bench_jobs (workers : Z) : list (list Z) :=
  (fun w => seqZ (w * per_task workers + 30000000) (per_task workers)) <$> seqZ 0 workers.

(** ** Proofs: keys *)

Lemma stress_key_prefix w i : starts_with (stress_key w i) stress_prefix = true.
Proof. by apply bool_decide_eq_true_2, prefix_app_r. Qed.

Lemma stress_key_inj w i w' i' :
  Z.of_nat w < 2 ^ 64 -> Z.of_nat w' < 2 ^ 64 -> is_u64 i -> is_u64 i' ->
  stress_key w i = stress_key w' i' -> w = w' /\ i = i'.
Proof.
  intros Hw Hw' Hi Hi' E%app_inv_head. apply (f_equal (split_once (to_u8 47))) in E.
  assert (forall n, to_u8 47 ∉ padded 4 (Z.of_nat n)) as Hsep.
  { intros n Hin. pose proof (padded_digits 4 (Z.of_nat n) ltac:(lia)) as Hd. rewrite Forall_forall in Hd.
    by apply Hd in Hin as []. }
  rewrite !split_once_app in E by apply Hsep. injection E as E1 E2.
  apply padded_inj in E1, E2; try done; unfold is_u64; lia.
Qed.

(** ** Proofs: the workers *)

Definition under (k : bytes) : Prop := starts_with k stress_prefix = true.

(** After [n] calls: [ks] are the keys written so far. *)
Record stressed (s0 : StoreState) (n : Z) (t : Stress) (ks : list (list Byte.byte)) : Prop := {
  sd_inv : inv (sr_store t);
  sd_faults : faults (wal (sr_store t)) = [];
  sd_rev : next_rev (sr_store t) <= next_rev s0 + n;
  sd_next : Forall (fun i => 0 <= i <= n) (sr_next t);
  sd_nodup : NoDup ks;
  sd_keys : Forall (fun k => exists w i j, sr_next t !! w = Some j /\ 0 <= i < j /\ k = stress_key w i) ks;
  sd_alive : forall k, under k -> (is_Some (get_alive (sr_store t) k) <-> k ∈ ks \/ is_Some (get_alive s0 k));
  sd_others : forall k, ~ under k -> keys (sr_store t) !! k = keys s0 !! k;
  sd_count : 0 <= sr_ops t <= Z.of_nat (length ks) /\ Z.of_nat (length ks) <= sr_ops t + sr_errs t;
  sd_errs : 0 <= sr_errs t /\ sr_ops t + sr_errs t <= n }.

(** A put without lease and flags. *)
Lemma put_plain s key val :
  inv s -> faults (wal s) = [] -> room 1 s -> key <> [] -> kv_fits key val ->
  exists s' resp, put (mkPut key val 0 false false false) s = (s', Ok resp) /\ inv s' /\ faults (wal s') = []
    /\ next_rev s' = next_rev s + 1 /\ keys s' = put_keys (keys s) key val 0 (next_rev s) None.
Proof.
  intros I Hno Hr Hne Hf. set (req := mkPut key val 0 false false false).
  assert (validate_put s req = Ok tt) as Hv by (unfold validate_put, req; cbn; by destruct key).
  destruct (put_run s req I Hr Hv Hno) as (wf & Ew & Ep).
  assert (put_ok req) as Hok by (split; [exact Hf|done]).
  pose proof (runs_put (next_rev s) req 0 ltac:(lia) Hok s I (room_ready _ _ Hr)) as Hp.
  rewrite Ep in Hp. destruct Hp as [Ht _]. apply append_kv_ok in Ew as (_ & _ & Ef). rewrite Hno in Ef.
  eexists _, _. split; [exact Ep|]. split; [by eapply rtc_trans_inv|]. done.
Qed.

Lemma stress_key_fits val w i :
  Z.of_nat (length val) < 2 ^ 31 -> Z.of_nat w < 2 ^ 64 -> is_u64 i -> kv_fits (stress_key w i) val.
Proof.
  intros Hv Hw Hi.
  assert (Z.of_nat (length (stress_key w i)) <= 200) as Hk; [|unfold kv_fits, key_small, record_fits; lia].
  unfold stress_key. rewrite !length_app. cbn [length].
  pose proof (padded_length 4 (Z.of_nat w) ltac:(unfold is_u64; lia)). pose proof (padded_length 20 i Hi).
  change (length stress_prefix) with 7%nat. lia.
Qed.

Section Run.
Context (s0 : StoreState) (val : list Byte.byte) (workers : nat).
Context (Hval : Z.of_nat (length val) < 2 ^ 31) (Hwk : Z.of_nat workers < 2 ^ 64).

(** A round in which nothing reaches the server. *)
Lemma stressed_lost n t ks w i :
  stressed s0 n t ks -> n + 1 < 2 ^ 63 -> sr_next t !! w = Some i ->
  stressed s0 (n + 1) (worker_step val t (w, LostRequest)) ks.
Proof.
  intros [I Hno Hrev Hnext Hnd Hks Hal Hoth Hc He] Hn Hi. cbn [worker_step]. rewrite Hi.
  pose proof (Forall_lookup_1 _ _ _ _ Hnext Hi) as Hib. cbn in Hib.
  rewrite !u64_wrap_small by (unfold is_u64; lia).
  split; cbn [sr_store sr_next sr_ops sr_errs]; try done; try lia.
  - apply Forall_insert; [|lia]. eapply Forall_impl; [exact Hnext|]. cbn. lia.
  - eapply Forall_impl; [exact Hks|]. cbn. intros k (w' & i' & j & Hj & Hij & ->).
    destruct (decide (w = w')) as [<-|Hne].
    + exists w, i', (i + 1). rewrite list_lookup_insert_eq by by eapply lookup_lt_Some. naive_solver lia.
    + exists w', i', j. by rewrite list_lookup_insert_ne.
Qed.

(** A round whose put the server executes, whether or not the worker hears of it. *)
Lemma stressed_put n t ks w net i :
  stressed s0 n t ks -> room (n + 1) s0 -> n + 1 < 2 ^ 63 -> length (sr_next t) = workers ->
  sr_next t !! w = Some i -> net <> LostRequest ->
  stressed s0 (n + 1) (worker_step val t (w, net)) (stress_key w i :: ks).
Proof.
  intros St Hroom Hn Hlen Hi Hnet. pose proof St as [I Hno Hrev Hnext Hnd Hks Hal Hoth Hc He].
  pose proof (Forall_lookup_1 _ _ _ _ Hnext Hi) as Hib. cbn in Hib.
  assert (forall w' j, sr_next t !! w' = Some j -> Z.of_nat w' < 2 ^ 64) as Hw
    by (intros w' j ?%lookup_lt_Some; lia).
  assert (stress_key w i ∉ ks) as Hfresh.
  { intros Hin. rewrite Forall_forall in Hks. destruct (Hks _ Hin) as (w' & i' & j & Hj & Hij & E).
    pose proof (Forall_lookup_1 _ _ _ _ Hnext Hj) as Hjb. cbn in Hjb.
    apply stress_key_inj in E as [<- <-]; [|by eapply Hw|by eapply Hw|unfold is_u64; lia|unfold is_u64; lia].
    rewrite Hi in Hj. injection Hj as ->. lia. }
  destruct (put_plain (sr_store t) (stress_key w i) val I Hno) as (s' & resp & Ep & I' & Hno' & En & Ek);
    [unfold room in *; lia|done|apply stress_key_fits; [done|by eapply Hw|unfold is_u64; lia]|].
  assert (is_Some (get_alive s' (stress_key w i))) as Ha
    by (rewrite get_alive_in, Ek, alive_in_put, decide_True by done; eauto).
  assert (forall k, k <> stress_key w i -> keys s' !! k = keys (sr_store t) !! k) as Ho
    by (intros k Hk; rewrite Ek; unfold put_keys; by rewrite lookup_insert_ne).
  pose proof (stressed_lost n t ks w i St Hn Hi) as [_ _ _ Hnext' _ Hks' _ _ _ _]. cbn [worker_step] in *.
  unfold stress_put. rewrite Hi in *. rewrite u64_wrap_small in Hnext' by (unfold is_u64; lia).
  rewrite u64_wrap_small in Hks' by (unfold is_u64; lia). cbn [sr_next] in *.
  assert (forall ops errs, 0 <= ops <= Z.of_nat (S (length ks)) -> Z.of_nat (S (length ks)) <= ops + errs ->
    0 <= errs -> ops + errs <= n + 1 ->
    stressed s0 (n + 1) (mkStress s' (<[w := i + 1]> (sr_next t)) ops errs) (stress_key w i :: ks)) as Hgen.
  { intros ops errs H1 H2 H3 H4. split; cbn [sr_store sr_next sr_ops sr_errs]; try done; try lia.
    - by constructor.
    - constructor; [|done]. exists w, i, (i + 1). rewrite list_lookup_insert_eq by by eapply lookup_lt_Some.
      naive_solver lia.
    - intros k Hk. rewrite elem_of_cons. destruct (decide (k = stress_key w i)) as [->|Hne]; [tauto|].
      rewrite get_alive_in. unfold alive_in. rewrite Ho by done. fold (alive_in (keys (sr_store t)) k).
      rewrite <- get_alive_in, Hal by done. clear -Hne. tauto.
    - intros k Hk. rewrite Ho; [by apply Hoth|]. intros ->. apply Hk, stress_key_prefix. }
  destruct net; [| done |]; rewrite Ep, !u64_wrap_small by (unfold is_u64; lia); apply Hgen; lia.
Qed.

Lemma worker_step_length t call : length (sr_next (worker_step val t call)) = length (sr_next t).
Proof.
  destruct call as [w net]. cbn [worker_step]. destruct (sr_next t !! w); [|done].
  destruct net; [destruct (put _ _) as [s [ | | ]]| |]; cbn; apply length_insert.
Qed.

Lemma stressed_run calls n t ks :
  stressed s0 n t ks -> room (n + Z.of_nat (length calls)) s0 -> 0 <= n -> 1 <= next_rev s0 ->
  length (sr_next t) = workers ->
  exists ks', stressed s0 (n + Z.of_nat (length calls)) (foldl (worker_step val) t calls) ks'.
Proof.
  revert n t ks. induction calls as [|[w net] calls IH]; intros n t ks St Hroom Hn Hr Hlen; cbn [foldl length] in *.
  { exists ks. by rewrite Z.add_0_r. }
  replace (n + Z.of_nat (S (length calls))) with (n + 1 + Z.of_nat (length calls)) in * by lia. unfold room in *.
  assert (exists ks', stressed s0 (n + 1) (worker_step val t (w, net)) ks') as [ks' St'].
  { destruct (sr_next t !! w) as [i|] eqn:Hi.
    - destruct (decide (net = LostRequest)) as [->|Hne]; [exists ks; by eapply stressed_lost; [|lia|]|].
      exists (stress_key w i :: ks). apply stressed_put; try done; unfold room; lia.
    - exists ks. cbn [worker_step]. rewrite Hi. destruct St as [I Hno Hrev Hnext Hnd Hks Hal Hoth Hc He].
      split; try done; try lia. eapply Forall_impl; [exact Hnext|]. cbn. lia. }
  eapply (IH (n + 1)); try done; try lia. by rewrite worker_step_length.
Qed.
End Run.

(** ** Proofs: the benchmarks *)

Lemma put_each_run val ks s :
  inv s -> faults (wal s) = [] -> room (Z.of_nat (length ks)) s ->
  Forall (fun k => k <> [] /\ kv_fits k val) ks ->
  exists s', put_each val ks s = (s', Ok tt) /\ inv s' /\ faults (wal s') = []
    /\ next_rev s' = next_rev s + Z.of_nat (length ks)
    /\ (forall k, k ∈ ks -> ks_value <$> get_alive s' k = Some val)
    /\ (forall k, k ∉ ks -> keys s' !! k = keys s !! k).
Proof.
  intros I Hno Hroom Hks. revert s I Hno Hroom. induction Hks as [|k ks [Hk Hf] Hks IH]; intros s I Hno Hroom.
  { exists s. repeat (split; [done|]). split; [cbn; lia|]. split; [by intros k ?%not_elem_of_nil|done]. }
  cbn [length put_each] in *. rewrite Nat2Z.inj_succ in *. unfold room in Hroom.
  destruct (put_plain s k val I Hno) as (s1 & resp & Ep & I1 & Hno1 & En1 & Ek); [unfold room; lia|done|done|].
  destruct (IH s1 I1 Hno1) as (s' & E & I' & Hno' & En & Hval & Hoth); [unfold room; lia|].
  exists s'. split; [unfold bind at 1, unwrap; by rewrite Ep|]. do 2 (split; [done|]). split; [lia|]. split.
  - intros k' Hin. destruct (decide (k' ∈ ks)) as [|Hni]; [by apply Hval|].
    apply elem_of_cons in Hin as [->|]; [|done].
    rewrite get_alive_in. unfold alive_in. rewrite Hoth by done. fold (alive_in (keys s1) k). by rewrite Ek, alive_in_put, decide_True.
  - intros k' [Hne Hni]%not_elem_of_cons. rewrite Hoth, Ek by done. unfold put_keys. by rewrite lookup_insert_ne.
Qed.

Lemma put_each_alive val (ks : list (list Byte.byte)) s s' k :
  (forall k, k ∈ ks -> ks_value <$> get_alive s' k = Some val) -> (forall k, k ∉ ks -> keys s' !! k = keys s !! k) ->
  is_Some (get_alive s' k) <-> is_Some (get_alive s k) \/ k ∈ ks.
Proof.
  intros Hval Hoth. destruct (decide (k ∈ ks)) as [Hin|Hni].
  - specialize (Hval k Hin). destruct (get_alive s' k); naive_solver.
  - unfold get_alive. rewrite Hoth by done. tauto.
Qed.

Lemma rwlock_keys_fit (l : list Z) :
  Forall (fun i => 0 <= i < PREPOP) l -> Forall (fun k => k <> [] /\ kv_fits k (make_value 128)) (make_key rwlock_prefix <$> l).
Proof.
  intros Hl. apply Forall_fmap. eapply Forall_impl; [exact Hl|]. unfold PREPOP. cbn beta. intros i Hi. split; [done|].
  pose proof (padded_length 20 i ltac:(unfold is_u64; lia)) as Hp.
  unfold kv_fits, key_small, record_fits, make_key, make_value. rewrite length_app, length_replicate.
  change (length (lit rwlock_prefix)) with 13%nat. lia.
Qed.

(** The contending workers only ever overwrite: drawing from the pool, they leave
    the set of live keys as the warm-up made it. *)
Lemma contend_overwrites s draws :
  inv s -> faults (wal s) = [] -> room (PREPOP + Z.of_nat (length draws)) s ->
  Forall (fun i => 0 <= i < PREPOP) draws ->
  exists s1 s2, warmup s = (s1, Ok tt) /\ contend draws s1 = (s2, Ok tt)
    /\ (forall i, 0 <= i < PREPOP -> is_Some (get_alive s1 (make_key rwlock_prefix i)))
    /\ (forall k, is_Some (get_alive s2 k) <-> is_Some (get_alive s1 k)).
Proof.
  intros I Hno Hroom Hd. unfold room in Hroom.
  assert (Forall (fun i => 0 <= i < PREPOP) (seqZ 0 PREPOP)) as Hpool
    by (apply Forall_forall; intros i Hi%elem_of_seqZ; lia).
  assert (Z.of_nat (length (make_key rwlock_prefix <$> seqZ 0 PREPOP)) = PREPOP) as Hlen
    by (rewrite length_fmap, length_seqZ; done).
  destruct (put_each_run (make_value 128) (make_key rwlock_prefix <$> seqZ 0 PREPOP) s I Hno) as (s1 & E1 & I1 & Hno1 & En & Hv1 & Ho1);
    [rewrite Hlen; unfold room; lia|by apply rwlock_keys_fit|]. rewrite Hlen in En.
  destruct (put_each_run (make_value 128) (make_key rwlock_prefix <$> draws) s1 I1 Hno1) as (s2 & E2 & _ & _ & _ & Hv2 & Ho2);
    [rewrite length_fmap; unfold room; lia|by apply rwlock_keys_fit|].
  pose proof (fun k => put_each_alive _ _ s s1 k Hv1 Ho1) as Hal1. pose proof (fun k => put_each_alive _ _ s1 s2 k Hv2 Ho2) as Hal2.
  assert (forall i, 0 <= i < PREPOP -> is_Some (get_alive s1 (make_key rwlock_prefix i))) as Hin.
  { intros i Hi. apply Hal1. right. apply list_elem_of_fmap. exists i. split; [done|]. apply elem_of_seqZ. lia. }
  exists s1, s2. do 2 (split; [done|]). split; [done|]. intros k. rewrite Hal2. split; [|tauto].
  intros [?|(i & -> & Hi)%list_elem_of_fmap]; [done|]. apply Hin. rewrite Forall_forall in Hd. by apply Hd.
Qed.

(** The workers' keys are consecutive, so no two workers put the same key. *)
Lemma bench_jobs_keys workers :
  0 < workers -> mjoin (bench_jobs workers) = seqZ 30000000 (workers * per_task workers).
Proof.
  intros Hw. unfold bench_jobs. assert (0 <= per_task workers) as Hp by (by apply Z.div_pos).
  generalize dependent (per_task workers). intros p Hp.
  assert (forall n : nat, mjoin ((fun w => seqZ (w * p + 30000000) p) <$> seqZ 0 (Z.of_nat n))
    = seqZ 30000000 (Z.of_nat n * p)) as Hn; [|by rewrite <- (Z2Nat.id workers), Hn by lia].
  induction n as [|n IH]; [done|]. rewrite Nat2Z.inj_succ, <- Z.add_1_r, seqZ_app, fmap_app, join_app, IH by lia.
  rewrite (seqZ_cons (0 + Z.of_nat n) 1) by lia. cbn [fmap list_fmap mjoin list_join Z.pred Z.add Z.pos_sub seqZ].
  rewrite app_nil_r. replace ((Z.of_nat n + 1) * p) with (Z.of_nat n * p + p) by lia.
  rewrite seqZ_app by nia. do 2 f_equal. lia.
Qed.

Lemma bench_jobs_count workers :
  0 < workers -> Z.of_nat (length (mjoin (bench_jobs workers))) = workers * (2000 / workers).
Proof.
  intros Hw. rewrite bench_jobs_keys, length_seqZ by done. fold (per_task workers).
  assert (0 <= per_task workers) by (by apply Z.div_pos). lia.
Qed.

(** The tool compacts at the revision it is given. *)
Lemma rudurru_compact_run prog rev s :
  inv s -> compact_rev s < rev <= current_revision s ->
  exists m, rudurru_compact [prog; decimal rev] = Some m /\ m s = (set_compact_rev rev s, Ok (state_header s)).
Proof.
  intros I Hr. pose proof (inv_rev s I). pose proof (inv_compact s I). unfold current_revision in Hr.
  cbn [rudurru_compact]. rewrite parse_i64_decimal by lia. eexists. split; [done|]. unfold unwrap, compact.
  rewrite u64_wrap_small by (unfold is_u64; lia). unfold current_revision.
  by rewrite (proj2 (Z.ltb_ge _ _)), (proj2 (Z.leb_gt _ _)) by lia.
Qed.

(** ** Properties *)

(** [with_prefix] selects the keys that begin with the prefix. *)
Definition selects_prefix (prefix_end : bytes -> bytes) (p : bytes) : Prop :=
  forall k, matches_range (resolve_range p (prefix_end p)) k = true <-> starts_with k p = true.

Lemma selects_prefix_proper prefix_end p : selects_prefix prefix_end p -> inverted (resolve_range p (prefix_end p)) = false.
Proof.
  intros Hp. specialize (Hp p). destruct (resolve_range p (prefix_end p)) as [| | | |a b]; try done.
  assert (matches_range (Range a b) p = true) as Hm by (apply Hp, bool_decide_eq_true_2; done).
  cbn in Hm |- *. apply andb_true_iff in Hm as [Ha%bytes_leb_le Hb%bytes_ltb_lt].
  destruct (bytes_ltb b a) eqn:Eb; [|done]. apply bytes_ltb_lt in Eb.
  destruct (bytes_lt_irrefl a). eapply bytes_le_lt_trans; [exact Ha|]. by eapply bytes_lt_trans.
Qed.

(** The live keys an earlier run left. *)
Definition leftover (s : StoreState) : gmap (list Byte.byte) KeyState :=
  base.filter (fun e => starts_with e.1 stress_prefix = true) (live (keys s)).

Lemma elem_of_leftover s k : k ∈ (map_to_list (leftover s)).*1 <-> starts_with k stress_prefix = true /\ is_Some (get_alive s k).
Proof.
  rewrite list_elem_of_fmap. split.
  - intros ([k' ks] & -> & [Hl Hp]%elem_of_map_to_list%map_lookup_filter_Some). rewrite lookup_live in Hl. rewrite get_alive_in. eauto.
  - intros [Hp [ks Ek]]. exists (k, ks). split; [done|]. apply elem_of_map_to_list, map_lookup_filter_Some. by rewrite lookup_live.
Qed.

(** C39. Load and clean-up. Whatever the workers of the load generator do, in any
    interleaving and with calls lost on the way, wiping afterwards leaves no key under
    the prefix alive, and every other key has the entry it had before. The number of
    deleted keys is at least the number of successful operations the generator
    counted, and at most those plus its errors plus the live keys under the prefix
    there were before the run. *)
Theorem stress_then_wipe s val workers calls prefix_end :
  inv s -> faults (wal s) = [] -> room (Z.of_nat (length calls) + 1) s -> Z.of_nat (length val) < 2 ^ 31 ->
  Z.of_nat workers < 2 ^ 64 -> selects_prefix prefix_end stress_prefix ->
  let t := stress val workers s calls in
  exists s' resp, wipe_stress prefix_end (sr_store t) = (s', Ok resp)
    /\ sr_ops t <= ds_deleted resp <= sr_ops t + sr_errs t + Z.of_nat (size (leftover s))
    /\ (forall k, starts_with k stress_prefix = true -> get_alive s' k = None)
    /\ (forall k, starts_with k stress_prefix = false -> keys s' !! k = keys s !! k).
Proof.
  intros I Hno Hroom Hval Hwk Hsel t. pose proof (inv_rev s I) as Hrev. unfold room in Hroom.
  assert (stressed s 0 (mkStress s (replicate workers 0) 0 0) []) as S0.
  { split; cbn [sr_store sr_next sr_ops sr_errs length]; try done; try lia.
    - apply Forall_replicate. lia.
    - constructor.
    - intros k Hk. rewrite elem_of_nil. tauto. }
  destruct (stressed_run s val workers Hval Hwk calls 0 _ _ S0) as (ks & [I' Hno' Hrev' _ Hnd Hsk Hal Hoth Hc He]);
    [unfold room; lia|lia|lia|apply length_replicate|]. change (foldl (worker_step val) _ calls) with t in *.
  destruct (delete_range_outcome (sr_store t) (mkDelete stress_prefix (prefix_end stress_prefix) false) I')
    as (s' & ks' & prevs & E & Hks & Hnd' & Hk);
    [unfold room; lia|done|done|by apply selects_prefix_proper|]. cbn [dr_key dr_range_end] in *.
  exists s', (mkDeleteResponse (Some (mkHeader 1 1 (next_rev (sr_store t)) 1)) (Z.of_nat (length ks')) prevs).
  split; [exact E|]. cbn [ds_deleted].
  assert (forall k, k ∈ ks' <-> under k /\ (k ∈ ks \/ is_Some (get_alive s k))) as Hiff.
  { intros k. rewrite Hks, (Hsel k). unfold under. split; intros [Hu ?]; (split; [done|]); by apply Hal. }
  assert (forall k, k ∈ ks -> under k) as Hunder.
  { intros k Hin. rewrite Forall_forall in Hsk. destruct (Hsk k Hin) as (w & i & j & _ & _ & ->). apply stress_key_prefix. }
  assert (length ks <= length ks')%nat as Hlo.
  { apply submseteq_length, NoDup_submseteq; [done|]. intros k Hin. apply Hiff. auto. }
  assert (length ks' <= length ks + size (leftover s))%nat as Hhi.
  { rewrite <- length_map_to_list, <- (length_fmap fst), <- length_app. apply submseteq_length, NoDup_submseteq; [done|].
    intros k [Hu [?|?]]%Hiff; apply elem_of_app; [by left|right; by apply elem_of_leftover]. }
  split; [lia|]. split.
  - intros k Hp. rewrite get_alive_in. unfold alive_in. rewrite Hk. destruct (decide (k ∈ ks')) as [Hin|Hout].
    + pose proof (inv_rev _ I'). destruct (get_alive (sr_store t) k); [|done]. cbn.
      unfold is_alive. cbn. by rewrite (proj2 (Z.eqb_neq (next_rev (sr_store t)) 0)) by lia.
    + fold (alive_in (keys (sr_store t)) k). rewrite <- get_alive_in.
      destruct (get_alive (sr_store t) k) eqn:Ea; [|done]. destruct Hout. apply Hiff. split; [done|]. apply Hal; [done|]. by rewrite Ea.
  - intros k Hp. rewrite Hk, decide_False; [apply Hoth; unfold under; congruence|].
    rewrite Hks, (Hsel k). intros [? _]. congruence.
Qed.
End Load.

#[local] Existing Instance bitwise_crc.
#[local] Existing Instance ref_decoder.
#[local] Existing Instance merge_sort_impl.

(** Two workers on the store of the demo run; one answer is lost, one request. *)
Definition demo_calls : list (nat * Net) :=
  [(0, Answered); (1, Answered); (0, LostReply); (1, LostRequest); (1, Answered)]%nat.

(** The first key past the prefix [stress/]. *)
Definition stress_end (_ : bytes) : bytes := lit "stress0".

Lemma stress_end_selects : selects_prefix stress_end stress_prefix.
Proof.
  intros k. assert (resolve_range stress_prefix (stress_end stress_prefix) = Prefix stress_prefix) as -> by by vm_compute.
  done.
Qed.

Lemma stress_then_wipe_witness :
  let t := stress (make_value 8) 2 (run demo fresh) demo_calls in
  exists s' resp, wipe_stress stress_end (sr_store t) = (s', Ok resp)
    /\ sr_ops t <= ds_deleted resp <= sr_ops t + sr_errs t + Z.of_nat (size (leftover (run demo fresh)))
    /\ (forall k, starts_with k stress_prefix = true -> get_alive s' k = None)
    /\ (forall k, starts_with k stress_prefix = false -> keys s' !! k = keys (run demo fresh) !! k).
Proof.
  apply (stress_then_wipe (run demo fresh) (make_value 8) 2 demo_calls stress_end).
  - exact (proj1 (run_logs demo demo_ok)).
  - by vm_compute.
  - by vm_compute.
  - by vm_compute.
  - by vm_compute.
  - exact stress_end_selects.
Defined.

(** The lost answer is counted as an error, but its key was written: three
    operations, two errors, four keys deleted. *)
Example lost_reply_counts_as_error :
  let t := stress (make_value 8) 2 (run demo fresh) demo_calls in
  sr_ops t = 3 /\ sr_errs t = 2
  /\ match (wipe_stress stress_end (sr_store t)).2 with Ok r => ds_deleted r = 4 | _ => False end.
Proof. by vm_compute. Qed.

(** The benchmark reports [2000.0 / elapsed] for every number of workers, but 32 and
    64 of them put 1984 keys, and 128 put 1920. *)
Example bench_ops_short :
  (fun w => Z.of_nat (length (mjoin (bench_jobs w)))) <$> [1; 4; 8; 16; 32; 64; 128]
  = [2000; 2000; 2000; 2000; 1984; 1984; 1920].
Proof. cbn [fmap list_fmap]. by rewrite !bench_jobs_count. Qed.

End Load.
