(* ===== verification/Bench.v ===== *)
(** * The benchmark client and optimistic updates (src/bin/bench.rs)

    The whole of the benchmark's [main]: warm-up, puts, reads, read-then-compare
    transactions, value sizes, prefix scans and the concurrent workers, as calls on
    the store. Latencies, rates and the process's memory are printed only. The
    transactions of the benchmark are the optimistic update every Kubernetes
    component performs: read a key, then write it on condition that its
    [mod_revision] is still the one read. *)
From S2P Require Import Prelude Varint KvCodec Wire Crc WalRecord Proto Range SortKvs State Store.
From S2P Require Import Historical Txn Recovery Background System Replay Durability ReadProps OpProps TxnProps.
From S2P Require Import Text Load.
Local Open Scope Z_scope.

Module Bench.
Import KvCodec Wire Crc Wal Proto Range SortKvs State Store Historical Txn Recovery Background System Replay
  Durability ReadProps OpProps TxnProps Text Load.


(** ** The calls *)

Section Bench.
Context `{Crc32c} `{KvDecoder} `{UnstableSort}.

(** [client.get]. *)
Definition client_get (key range_end : bytes) (limit : Z) : M RangeResponse :=
  let* s := get in lift (range s (mkRange key range_end limit 0 0 0 false false 0 0 0 0)).

(** [get.kvs().first().map(|kv| kv.mod_revision()).unwrap_or(0)]; the client library
    decodes the answer, and the call fails when it cannot. *)
Definition observed (resp : RangeResponse) : outcome Z :=
  match rs_kvs resp with
  | [] => Ok 0
  | b :: _ => match kv_decode b with
              | Some kv => Ok (kv_mod_revision kv)
              | None => Panic "called `Result::unwrap()` on an `Err` value"
              end
  end.

(** [Txn::new().when(\[mod_revision(key) = rev\]).and_then(\[put(key, value)\])]. *)
Definition guarded_put (key value : bytes) (rev : Z) : TxnRequest :=
  mkTxn [mkCompare 0 2 key [] (Some (TModRevision rev))] [RequestPut (mkPut key value 0 false false false)] [].






(** ** Reading one key *)

Lemma entry_decodes nr key ks :
  ks_ok nr key ks -> nr < 2 ^ 63 -> exists cr ver,
    kv_decode (ks_kv_bytes ks) = Some (mkKeyValue key cr (ks_mod_revision ks) ver (ks_value ks) (ks_lease ks)).
Proof.
  intros [Hf Hc Hm _ _ Hl (cr & ver & ->)] Hn. rewrite (kv_blob_wrap key).
  eexists _, _. apply kv_decode_blob; auto using kv_fits_sizes, i64_wrap_range. unfold is_i64. lia.
Qed.

(** The revision a client observes; 0 for a missing key. *)
Definition revision_of (s : StoreState) (key : bytes) : Z :=
  match get_alive s key with Some ks => ks_mod_revision ks | None => 0 end.

Lemma get_observes s key :
  inv s -> key <> [] -> exists g, client_get key [] 0 s = (s, Ok g) /\ observed g = Ok (revision_of s key).
Proof.
  intros I Hne. set (req := mkRange key [] 0 0 0 0 false false 0 0 0 0). exists (range_point s req key). split.
  { unfold client_get, bind, get, lift, range, range_locks. fold req. destruct key as [|b k]; [done|]. cbn -[range_point Z.ltb].
    change (0 <? 0) with false. cbn [andb]. by rewrite (proj2 (Z.ltb_ge _ _)) by (unfold current_revision; lia). }
  unfold range_point, revision_of, get_alive. cbn. destruct (keys s !! key) as [ks|] eqn:E; [|done].
  unfold revision_filters, is_alive. cbn. destruct (Z.eqb_spec (ks_delete_revision ks) 0); cbn; [|done].
  destruct (entry_decodes _ _ _ (inv_keys s I _ _ E)) as (cr & ver & Hd); [apply (inv_rev s I)|]. unfold observed. cbn. by rewrite Hd.
Qed.

Lemma guard_holds s key r :
  inv s -> eval_compare s (mkCompare 0 2 key [] (Some (TModRevision r))) = (revision_of s key =? r).
Proof.
  intros I. unfold eval_compare, revision_of. cbn. destruct (get_alive s key) as [ks|] eqn:E; cbn [cmp_i64]; [|done].
  apply alive_in_Some in E as [E _]. pose proof (inv_keys s I _ _ E) as [_ ? ? _ _ _ _]. pose proof (inv_rev s I).
  by rewrite i64_wrap_small by (unfold is_i64; lia).
Qed.

Lemma guarded_put_ok key value rev : kv_fits key value -> txn_ok (guarded_put key value rev).
Proof. intros Hf. split; [|done]. split; [|done]. split; [done|]. cbn. unfold is_i64. lia. Qed.

(** The guarded put answers, and writes when the revision is the expected one. *)
Lemma guarded_put_spec s key value rev :
  inv s -> faults (wal s) = [] -> room 1 s -> key <> [] -> kv_fits key value ->
  exists s' resp, txn (guarded_put key value rev) s = (s', Ok resp) /\ ts_succeeded resp = (revision_of s key =? rev)
    /\ inv s' /\ faults (wal s') = []
    /\ if revision_of s key =? rev
       then keys s' = put_keys (keys s) key value 0 (next_rev s) None /\ next_rev s' = next_rev s + 1 else s' = s.
Proof.
  intros I Hno Hroom Hne Hf.
  destruct (guarded_put_run s [mkCompare 0 2 key [] (Some (TModRevision rev))] key value I Hno Hroom Hne)
    as (s' & resp & Et & Es & Hno' & Hb).
  cbn [forallb] in Es, Hb. rewrite guard_holds, andb_true_r in Es, Hb by done. exists s', resp. do 2 (split; [done|]).
  split; [|done]. assert (s' = exec (CmdTxn (guarded_put key value rev)) s) as -> by (cbn [exec]; unfold guarded_put; by rewrite Et).
  eapply rtc_trans_inv; [|exact I]. apply exec_trans; [done|]. split; [by apply guarded_put_ok|done].
Qed.

(** ** Optimistic updates *)

(** The key was written or deleted at revision [floor] or later. *)
Definition rewritten (floor : Z) (key : bytes) (s : StoreState) : Prop :=
  forall ks, get_alive s key = Some ks -> floor <= ks_mod_revision ks.

(** The entry of a key stays as it is until the key is rewritten, and a rewritten key
    stays rewritten. *)
Lemma trans_rewrites b floor key s s' :
  wtrans b floor s s' -> inv s ->
  (rewritten floor key s -> rewritten floor key s') /\ (get_alive s' key = get_alive s key \/ rewritten floor key s').
Proof.
  intros T I. unfold rewritten.
  assert (keys s' = keys s -> (rewritten floor key s -> rewritten floor key s')
    /\ (get_alive s' key = get_alive s key \/ rewritten floor key s')) as Hsame.
  { intros Ek. unfold rewritten, get_alive. rewrite Ek. auto. }
  destruct T as [Hn|k value lease w Hf Hl Hn Hfl Hw|ks w Hnd Ha Hn Hfl Hw|w Hw|s' Ek En Ec _ _ _ Hr|ws _]; try by apply Hsame.
  - rewrite !get_alive_in. change (keys (put_effect k value lease (next_rev s - 1) None (set_wal w s)))
      with (put_keys (keys s) k value lease (next_rev s - 1) None). rewrite alive_in_put.
    destruct (decide (key = k)) as [->|Hne]; [|auto].
    split; [intros _|right]; intros ks [= <-]; cbn; lia.
  - rewrite !get_alive_in. rewrite (proj1 (keys_deletes _ _ _)), fold_del_alive by lia. cbn [keys set_wal].
    destruct (decide (key ∈ ks)); [|auto]. split; [done|]. by right.
Qed.

Lemma steps_rewrite b floor key s s' :
  rtc (wtrans b floor) s s' -> inv s ->
  (rewritten floor key s -> rewritten floor key s') /\ (get_alive s' key = get_alive s key \/ rewritten floor key s').
Proof.
  induction 1 as [|s s1 s' T R IH]; intros I; [auto|]. destruct (trans_rewrites b floor key s s1 T I) as [Hk1 Hs1].
  destruct (IH (trans_inv _ _ _ _ T I)) as [Hk Hs]. split; [auto|]. destruct Hs1 as [<-|]; [done|auto].
Qed.

(** The state after some of the commands, and the rest of them, from the floor on. *)
Lemma run_between cs1 cs2 s :
  inv s -> cmds_ok (cs1 ++ cs2) s ->
  inv (run cs1 s) /\ rtc (wtrans true (next_rev s)) s (run cs1 s)
  /\ rtc (wtrans true (next_rev s)) (run cs1 s) (run (cs1 ++ cs2) s).
Proof.
  intros I [Hc1 Hc2]%cmds_ok_app. pose proof (run_trans cs1 s I Hc1) as R1.
  assert (inv (run cs1 s)) as I1 by by eapply rtc_trans_inv. split; [done|]. split; [done|]. rewrite run_app.
  apply (rtc_trans_floor _ (next_rev (run cs1 s))); [by eapply rtc_trans_rev_le|by apply run_trans].
Qed.

(** An entry found unchanged was there all the time. *)
Lemma unchanged_throughout cs1 cs2 s key :
  inv s -> cmds_ok (cs1 ++ cs2) s -> is_Some (get_alive s key) -> get_alive (run (cs1 ++ cs2) s) key = get_alive s key ->
  get_alive (run cs1 s) key = get_alive s key.
Proof.
  intros I Hc [ks Ek] E. destruct (run_between cs1 cs2 s I Hc) as (I1 & R1 & R2).
  destruct (steps_rewrite _ _ key _ _ R1 I) as [_ [?|Hw]]; [done|]. exfalso.
  destruct (steps_rewrite _ _ key _ _ R2 I1) as [Hk _]. rewrite Ek in E. specialize (Hk Hw ks E).
  apply alive_in_Some in Ek as [Ek _]. pose proof (ok_mod _ _ _ (inv_keys s I _ _ Ek)). lia.
Qed.

(** Revisions identify contents. *)
Lemma same_revision cs s key :
  inv s -> cmds_ok cs s -> revision_of (run cs s) key = revision_of s key <-> get_alive (run cs s) key = get_alive s key.
Proof.
  intros I Hc. split; [|unfold revision_of; by intros ->]. pose proof (run_trans cs s I Hc) as R.
  destruct (steps_rewrite _ _ key _ _ R I) as [_ [?|Hw]]; [done|]. pose proof (inv_rev s I) as Hn. unfold revision_of.
  destruct (get_alive (run cs s) key) as [ks'|] eqn:E'.
  - specialize (Hw ks' E'). destruct (get_alive s key) as [ks|] eqn:E; [|lia].
    apply alive_in_Some in E as [E _]. pose proof (ok_mod _ _ _ (inv_keys s I _ _ E)). lia.
  - destruct (get_alive s key) as [ks|] eqn:E; [|done].
    apply alive_in_Some in E as [E _]. pose proof (ok_create _ _ _ (inv_keys s I _ _ E)). lia.
Qed.

(** C9. Optimistic updates. A client reads a key, other clients run any commands,
    and the client then writes the key on condition that its [mod_revision] is the
    one it read (0 for a key it did not find). Both calls answer. The write takes
    place exactly when the key's entry is the one the client read, and then, if the
    key existed, the entry was there unchanged the whole time between: the new value
    replaces the very value it was computed from, and no update is lost. Otherwise
    nothing changes. *)
Theorem optimistic_update cs s key value :
  inv s -> cmds_ok cs s -> faults (wal (run cs s)) = [] -> room 1 (run cs s) -> key <> [] -> kv_fits key value ->
  let s1 := run cs s in
  exists g rev s2 resp,
    client_get key [] 0 s = (s, Ok g) /\ observed g = Ok rev /\ txn (guarded_put key value rev) s1 = (s2, Ok resp)
    /\ (ts_succeeded resp = true <-> get_alive s1 key = get_alive s key)
    /\ (ts_succeeded resp = true -> is_Some (get_alive s key) ->
        forall cs1 cs2, cs = cs1 ++ cs2 -> get_alive (run cs1 s) key = get_alive s key)
    /\ (ts_succeeded resp = true -> keys s2 = put_keys (keys s1) key value 0 (next_rev s1) None)
    /\ (ts_succeeded resp = false -> s2 = s1).
Proof.
  intros I Hc Hno Hroom Hne Hf s1. destruct (get_observes s key I Hne) as (g & Eg & Eo).
  assert (inv s1) as I1 by (eapply rtc_trans_inv; [by apply run_trans|done]).
  destruct (guarded_put_spec s1 key value (revision_of s key) I1 Hno Hroom Hne Hf) as (s2 & resp & Et & Es & _ & _ & Hb).
  exists g, (revision_of s key), s2, resp. do 3 (split; [done|]).
  assert (ts_succeeded resp = true <-> get_alive s1 key = get_alive s key) as Hiff
    by (rewrite Es, Z.eqb_eq; by apply same_revision).
  split; [done|]. split.
  { intros E%Hiff Hk cs1 cs2 ->. by eapply unchanged_throughout. }
  rewrite Es. destruct (revision_of s1 key =? revision_of s key); [|done]. split; [|done]. intros _. apply Hb.
Qed.

(** ** What the benchmark leaves behind *)









(** *** The parts *)








(** *** What is where *)











End Bench.

#[local] Existing Instance bitwise_crc.
#[local] Existing Instance ref_decoder.
#[local] Existing Instance merge_sort_impl.

(** Another client writes another key between the read and the write. *)
Definition elsewhere : list Command := [CmdPut (put_req "other" "1")].

Lemma elsewhere_ok : cmds_ok elsewhere leased.
Proof. split; [|done]. split; [by apply put_req_ok|by vm_compute]. Qed.

Lemma optimistic_update_witness :
  exists g rev s2 resp,
    client_get (lit "free") [] 0 leased = (leased, Ok g) /\ observed g = Ok rev
    /\ txn (guarded_put (lit "free") (lit "2") rev) (run elsewhere leased) = (s2, Ok resp)
    /\ ts_succeeded resp = true /\ ks_value <$> get_alive s2 (lit "free") = Some (lit "2").
Proof.
  destruct (optimistic_update elsewhere leased (lit "free") (lit "2") leased_inv elsewhere_ok)
    as (g & rev & s2 & resp & Eg & Eo & Et & Hiff & _ & Hw & _);
    [by vm_compute|by vm_compute|done|by vm_compute|].
  assert (ts_succeeded resp = true) as Hs by (apply Hiff; by vm_compute).
  exists g, rev, s2, resp. do 4 (split; [done|]). rewrite get_alive_in, (Hw Hs), alive_in_put, decide_True by done. done.
Defined.

(** Two clients that read the same revision: the second write is refused. *)
Example second_update_refused :
  let rev := revision_of leased (lit "free") in
  let '(s1, r1) := txn (guarded_put (lit "free") (lit "a") rev) leased in
  let '(s2, r2) := txn (guarded_put (lit "free") (lit "b") rev) s1 in
  match r1, r2 with
  | Ok r1, Ok r2 => ts_succeeded r1 = true /\ ts_succeeded r2 = false /\ ks_value <$> get_alive s2 (lit "free") = Some (lit "a")
  | _, _ => False
  end.
Proof. by vm_compute. Qed.




End Bench.
